(* ===== verification/_CoqProject ===== *)
-Q . S2P
Prelude.v
GoStrings.v
GoRegexp.v
GoUrl.v
Config.v
Json.v
Types.v
Flags.v
JsonDecode.v
JsonCodec.v
SqlSyntax.v
Sql.v
SqlTyped.v
Proto.v
GoPath.v
Runtime.v
Logic.v
Coordinator.v
FanOut.v
System.v
Exec.v
Scan.v
Store.v
StoreSpec.v
Backrest.v
Tables.v
Jsonb.v
Catalog.v
CatalogTables.v
TablesQuery.v
Server.v
Service.v
Example.v
ServiceProps.v
CatalogProps.v
TablesProps.v
Main.v
MainProps.v
Testutil.v
Bufconn.v
