(* ===== verification/Prelude.v ===== *)
(** * pg-inventory: a verification development of the extractor service

    The repository's program is the extractor (src/cmd/extractor,
    src/internal/extractor): a gRPC service on a PostgreSQL host that lists
    databases, schemas, extensions, sequences, functions, tables and backups.  The
    other two commands print one line.

    ** The program's parts

    - config.go turns flags into settings, checks them and makes connection
      strings.
    - cmd/extractor/main.go starts the service step by step, serves, and shuts down on a
      signal; dev.go and prod.go choose the log format.
    - store/coordinator.go hands out at most one permit per database.
    - store/store.go queries the default pool, and for every database opens a pool
      of its own under a permit, fanning out over all databases at once.
      store/tables.go does the same for tables, whose parts the query builds as jsonb;
      store/pgbackrest.go runs pgbackrest and decodes the JSON that it prints.
    - types/types.go holds the records and their conversion to messages.
    - server.go answers the RPC methods from the store.
    - testutil/postgres.go starts and fills the servers of the integration tests;
      testutil/grpc.go connects a test to the service in memory.

    Handlers run concurrently.  They share the coordinator's map and channels, the
    default pool, and the outside world (pgx, PostgreSQL, the file system), which
    is not part of the repository and is a parameter of the model throughout.

    ** The files

    - Prelude.v: errors as the calls that build them, the result monad, tactics, and
      lemmas on lists, counting and termination that the components share.
    - GoStrings.v, GoRegexp.v, GoUrl.v: what the program uses of Go's strings,
      regexp and net/url packages.
    - Config.v: config.go.  [read_conn] reads a connection string back.  Flags.v: package
      flag, the integers it reads (strconv), and NewConfig.
    - Json.v: JSON text, its reader and PostgreSQL's printer of jsonb; JsonDecode.v:
      json.Unmarshal into Go values; JsonCodec.v: Go types with their json tags as
      targets, built field by field.
    - Types.v: the structs of types.go (a field F of struct T is [T_F]), the version
      pattern and the two text parsers.  Proto.v: the messages, and the ToProto
      functions.
    - Runtime.v: goroutines.  Sequential code is a tree of effects, [io]; the shared
      state is a [heap] (mutex, map of channels, channel buffers, open pools, open
      result sets); [estep] is one effect, and an effect that blocks has no step.
      What pgx answers is the class [World].
    - Logic.v: [wp], a weakest precondition over the ghost state of one goroutine
      (what it holds), and [heap_ok], which says that the ghost states of all
      goroutines account for the heap.  Soundness, exclusion, absence of deadlock.
    - Coordinator.v: coordinator.go, alone and shared, and its refinement to a set
      of held names.
    - FanOut.v: forEachDatabase as a state machine, its invariant, its result and
      its termination.
    - System.v: handlers as [task]s, and the process: any number of requests that
      arrive, run interleaved and get cancelled at any time.
    - Exec.v: an executable schedule of the same relations, for concrete runs.
    - Scan.v: pgx.Rows.Scan as a class of conversions.
    - Store.v: store.go; StoreSpec.v: what its functions return and give back.
    - SqlSyntax.v: the SQL that the queries are written in, from the text to its syntax.
      Sql.v: what it means, up to the rows that a server may answer with on a database.
      SqlTyped.v: queries on tables whose tuples come from records, clause by clause.
    - Backrest.v: pgbackrest.go; Tables.v: tables.go and what its query gives.  Jsonb.v:
      numbers and objects as queries build them.
    - Catalog.v: the system catalogs that the queries read, and the records that each
      query of store.go selects.  CatalogTables.v: what a table is in the catalogs.
      TablesQuery.v: the query of tables.go evaluated, each query of its WITH, its joins,
      groups and subqueries in turn, for any well-formed catalogs.
    - Server.v: server.go; Service.v: the process with these handlers;
      ServiceProps.v: its properties; Example.v: a concrete outside world.
    - CatalogProps.v: the class [Postgres] (a server answers as SQL means it on some state
      of its catalogs, and pgx converts the columns), and the responses in terms of the
      catalogs.  TablesProps.v: the same for ListTables.
    - Main.v: main, first as the sequential program [boot] that ends in an exit code or a
      store to serve, then as the step relation [proc_step] of main, grpc's Serve, the
      signal and the process of System.v.  MainProps.v: its properties.
    - GoPath.v: path/filepath; Testutil.v: testutil/postgres.go, with its properties.
      Bufconn.v: testutil/grpc.go, as a process with the service in it.

    ** What the theorems show

    - The process (ServiceProps.v): every step is a step of an abstract lock per
      database; the open pools but the default one belong to different database names
      whose permits are taken; nothing is leaked by any request, however it ends; there
      is no deadlock, and every request can be answered, by steps of the service alone
      ([run_step]: a client need not cancel anything); and nothing runs forever.
    - Start-up and shutdown (MainProps.v): main always gets to serving or to an exit, with
      the error of the first step that failed in its log; the state it serves from is
      the initial state of the process above.  After a signal the process cannot run
      forever and can always end, without any request being cancelled; main returns unless a handler panics, which the
      documented answers of PostgreSQL exclude, and then every request has been
      answered and nothing is held or open, the default pool included.
    - The command line (Flags.v): any list of settings is read as it is written.
    - Responses (ServiceProps.v): each method's response as a function of pgx's
      answers, on success and on every error.
    - Responses and catalogs (CatalogProps.v): which databases, schemas, sequences,
      functions and extensions a response holds, in which order, and which it never
      holds; what GetServerInfo and NewStore read; and two states of a server on which
      a method always fails.
    - Tables and catalogs (TablesProps.v): ListTables does not panic, and a response holds
      every table of the user's schemas with the columns, indexes, constraints and
      parents that the catalogs have for it ([table_like]).  The hypothesis is that the
      catalogs are well-formed ([catalog_wf]): unique keys, what PostgreSQL's functions
      show of an object is there and in range, texts are UTF-8.
    - Tables: what the query gives for a table is read as that table, and its message
      reaches the client; a panic needs a null where the query gives an object
      (Tables.v, ServiceProps.v).
    - Numbers that do not fit their Go type are refused, in tables and in what pgbackrest
      prints, rather than wrapped around (Tables.v, Backrest.v).
    - JSON: printing and parsing a value gives it back (parse_print), the reader's fuel
      is enough (parse_fuel), decoding keeps types and so integer ranges (decode_type),
      and neither unknown keys nor the order of keys matter (Json.v, JsonDecode.v).
    - The coordinator alone (Coordinator.v), NewStore and stanza names
      (StoreSpec.v), the parsers (Types.v), tableToProto (Server.v).
    - Connection strings (Config.v): they are cut and read back as the user, the escaped
      host and port, the name as a path and the SSL settings; names without a leading
      slash have different strings, and /x has that of x; validation and log levels
      on every branch.
    - Test support (Testutil.v, Bufconn.v): a server is set up statement by statement as its options
      plan it, no pool stays open on any path, a test gives back what it took, and the
      search for the module's root ends and finds the nearest one; the in-memory server
      answers as the service does, and panics only in a test that makes no call.

    Cancellation: a context's error only appears at a request's effects that look at
    it, so [ss_cancel] may set it at any time.  pgx calls of a cancelled request may
    fail, which [World] always allows.

    ** Bounds and fuel

    [value] and its companions run on twice the length of the text, which [parse_fuel]
    shows to be enough for every text; [chars] on the length.
    [runes_fuel] and [dec_fuel] run on the length of their input, [split] on the
    number of bytes; each consumes at least one byte (or digit) per unit.  The
    regular expression matcher, the flags and all step relations need no fuel.
    [parse] runs on five units per token, the height of the grammar; that it is enough for
    the queries is checked by running it ([queries_parse], [tables_parse]).  A query is
    evaluated to the depth [max_depth]; that it is enough is part of the lemmas on
    answers, which evaluate the queries on all catalogs, and of the witnesses, which run
    them.
    [findModuleRoot] runs on two more than the length of its path, which
    [findModuleRoot_total] shows to be enough.  Integers keep
    their Go width through the range laws of [Scanner] and the [to_int32],
    [to_uint32] conversions.

    ** What is not modelled

    - In System.v a ListTables that panics on a nil pointer has the response [None] and
      the other requests go on; Main.v ends the process there.
    - The texts of json.Unmarshal's errors (the class [JsonErrors]), the usage texts of
      package flag, and the format of log lines.
    - The limits of a pgx pool (how many connections the default pool may hold), the
      network, and gRPC itself; of Serve and GracefulStop, Main.v says what main relies
      on.  pool.Close is one step, taken when no result set is open.
    - A signal before main has registered for it ends the process at once.
    - Of SQL, what the queries do not use; the collation of text columns
      (the names that the queries order by are ordered by their bytes); and that
      functions of the catalogs may see a later state than the query that calls them.
    - Generated code; the collector and the API service, which print one line each; the
      DDL texts of the tests, which only PostgreSQL interprets.

    ** Plan

    The DDL of the integration tests as catalogs, so that what the tests expect of the
    service can be stated and proved; os.Stat and the flags' usage texts in more detail. *)

From stdpp Require Export base list strings gmap.
From stdpp Require Export sorting.
From Stdlib Require Export Lia ZArith.
From Stdlib Require Import Wellfounded.

#[global] Open Scope Z_scope.
#[global] Open Scope nat_scope.

(** ** Errors

    A Go [error] is kept as the call that built it: [Errorf] is
    [fmt.Errorf format args...] (or [errors.New] with no argument),
    [ErrExt] is a value built by code outside this module (pgx, the operating
    system), and the last two are what [ctx.Err()] returns. *)
Inductive error : Type :=
| Errorf (format : string) (args : list arg)
| ErrExt (msg : string)
| Canceled
| DeadlineExceeded
with arg : Type :=
| AStr (s : string)
| AInt (n : nat)
| AErr (e : error)
| AErrs (es : list error).

(** A Go [(T, error)] result whose callers read [T] only when the error is nil. *)
Abbreviation res A := (error + A)%type.

(** Early return on error: [x ← c; k] is [x, err := c; if err != nil { return err }; k]. *)
#[export] Instance res_ret : MRet (sum error) := fun A a => inr a.
#[export] Instance res_bind : MBind (sum error) := fun A B f c =>
  match c with inl e => inl e | inr a => f a end.
#[export] Instance res_fmap : FMap (sum error) := fun A B f c =>
  match c with inl e => inl e | inr a => inr (f a) end.

Lemma res_bind_inr {A B} (c : error + A) (f : A -> error + B) b :
  (c ≫= f) = inr b <-> exists a, c = inr a /\ f a = inr b.
Proof.
  destruct c as [e|a]; simpl; split; [done| |by exists a|].
  - by intros (? & ? & _).
  - by intros (? & [= <-] & ?).
Qed.

Lemma res_bind_inl {A B} (c : error + A) (f : A -> error + B) e :
  (c ≫= f) = inl e <-> c = inl e \/ exists a, c = inr a /\ f a = inl e.
Proof.
  destruct c as [e'|a]; simpl; split.
  - intros [= ->]. by left.
  - by intros [[= ->]|(? & ? & _)].
  - intros ?. right. by exists a.
  - by intros [?|(? & [= <-] & ?)].
Qed.

(** The error as it is rewrapped on the way out. *)
Definition wrap_err {A} (f : error -> error) (r : error + A) : error + A :=
  match r with inl e => inl (f e) | inr a => inr a end.

(** [is_ok r] is [err == nil]. *)
Definition is_ok {E A} (r : E + A) : bool :=
  match r with inl _ => false | inr _ => true end.

Fixpoint lefts {E A} (l : list (E + A)) : list E :=
  match l with
  | [] => []
  | inl e :: l => e :: lefts l
  | inr _ :: l => lefts l
  end.

Fixpoint rights {E A} (l : list (E + A)) : list A :=
  match l with
  | [] => []
  | inl _ :: l => rights l
  | inr a :: l => a :: rights l
  end.

(** ** Tactics *)

Ltac inverts H := inversion H; clear H; simplify_eq/=.

(** Destructs the conjunctions, existentials and pairs of the context. *)
Ltac split_hyps :=
  repeat match goal with
  | H : _ /\ _ |- _ => destruct H
  | H : exists _, _ |- _ => destruct H
  end.

(** Case analysis on the innermost match of the goal or of a hypothesis. *)
Ltac case_any :=
  match goal with
  | |- context [match ?x with _ => _ end] => destruct x eqn:?
  | H : context [match ?x with _ => _ end] |- _ => destruct x eqn:?
  end.

Create HintDb inventory.

(** ** Lists *)

Lemma lefts_app {E A} (l1 l2 : list (E + A)) : lefts (l1 ++ l2) = lefts l1 ++ lefts l2.
Proof. induction l1 as [|[]]; simpl; congruence. Qed.

Lemma rights_app {E A} (l1 l2 : list (E + A)) : rights (l1 ++ l2) = rights l1 ++ rights l2.
Proof. induction l1 as [|[]]; simpl; congruence. Qed.

Lemma lefts_nil_inv {E A} (l : list (E + A)) :
  lefts l = [] -> l = inr <$> rights l.
Proof. induction l as [|[e|a] l IH]; simpl; intros; [done|done|f_equal; auto]. Qed.

#[export] Instance rights_Permutation {E A} :
  Proper (Permutation ==> Permutation) (@rights E A).
Proof.
  intros l1 l2 H. induction H; simpl; repeat case_any; simplify_eq; eauto using Permutation.
Qed.

#[export] Instance lefts_Permutation {E A} :
  Proper (Permutation ==> Permutation) (@lefts E A).
Proof.
  intros l1 l2 H. induction H; simpl; repeat case_any; simplify_eq; eauto using Permutation.
Qed.

#[export] Instance concat_Permutation {A} :
  Proper (Permutation ==> Permutation) (@concat A).
Proof.
  intros l1 l2 H. induction H; simpl; try done.
  - by apply Permutation_app_head.
  - by rewrite !(assoc_L (++)), (Permutation_app_comm y x).
  - etrans; eauto.
Qed.

Lemma concat_delete_Permutation {A} (l : list (list A)) i x :
  l !! i = Some x -> concat l ≡ₚ x ++ concat (delete i l).
Proof. intros Hi. by rewrite (delete_Permutation l i x Hi) at 1. Qed.

Lemma delete_insert_same {A} (l : list A) i x : delete i (<[i := x]> l) = delete i l.
Proof. revert i. induction l as [|a l IH]; intros [|i]; [done..|]. exact (f_equal (cons a) (IH i)). Qed.

Lemma snoc_cons {A} (l1 : list A) x l2 : l1 ++ x :: l2 = (l1 ++ [x]) ++ l2.
Proof. by rewrite <- (assoc_L (++)). Qed.

(** Reordering one side of a pointwise relation. *)
Lemma Forall2_reorder {A B} (R : A -> B -> Prop) l1 l1' l2 :
  l1 ≡ₚ l1' -> Forall2 R l1 l2 -> exists l2', l2 ≡ₚ l2' /\ Forall2 R l1' l2'.
Proof.
  intros Hp. revert l2. induction Hp as [|x l l' _ IH|x y l|l l' l'' _ IH1 _ IH2]; intros l2 HF.
  - inverts HF. by exists [].
  - inversion HF as [|? b ? bs Hb HF']; subst. destruct (IH _ HF') as (bs' & Hbs & HF2).
    exists (b :: bs'). split; [by apply Permutation_cons|by constructor].
  - inversion HF as [|? b ? bs Hb HF']; subst. inversion HF' as [|? c ? cs Hc HF2]; subst.
    exists (c :: b :: cs). split; [constructor|by repeat constructor].
  - destruct (IH1 _ HF) as (m & Hm & HF1). destruct (IH2 _ HF1) as (m' & Hm' & HF2).
    exists m'. split; [by etrans|done].
Qed.

(** Number of elements satisfying a boolean predicate. *)
Fixpoint cnt {A} (f : A -> bool) (l : list A) : nat :=
  match l with
  | [] => 0
  | a :: l => Nat.b2n (f a) + cnt f l
  end.

Lemma cnt_app {A} (f : A -> bool) l1 l2 : cnt f (l1 ++ l2) = cnt f l1 + cnt f l2.
Proof. induction l1; simpl; lia. Qed.

#[export] Instance cnt_Permutation {A} (f : A -> bool) :
  Proper (Permutation ==> eq) (cnt f).
Proof. intros l1 l2 H. induction H; simpl; lia. Qed.

Lemma cnt_zero {A} (f : A -> bool) l a : cnt f l = 0 -> a ∈ l -> f a = false.
Proof.
  induction l as [|b l IH]; simpl; intros Hc Ha; [by apply not_elem_of_nil in Ha|].
  apply elem_of_cons in Ha as [->|Ha].
  - destruct (f b); [|done]. simpl in Hc. lia.
  - apply IH; [lia|done].
Qed.

Lemma cnt_pos {A} (f : A -> bool) l a : a ∈ l -> f a = true -> 0 < cnt f l.
Proof. intros Ha Hf. destruct (cnt f l) eqn:E; [|lia]. by rewrite (cnt_zero f l a) in Hf. Qed.

Lemma cnt_pos_inv {A} (f : A -> bool) l : 0 < cnt f l -> exists a, a ∈ l /\ f a = true.
Proof.
  induction l as [|b l IH]; simpl; [lia|]. intros Hc.
  destruct (f b) eqn:E.
  - exists b. split; [apply elem_of_cons; by left|done].
  - destruct IH as (a & ? & ?); [simpl in Hc; lia|]. exists a. by rewrite elem_of_cons; auto.
Qed.

Lemma cnt_none {A} (f : A -> bool) l : (forall a, a ∈ l -> f a = false) -> cnt f l = 0.
Proof.
  induction l as [|b l IH]; simpl; intros H; [done|].
  rewrite (H b), IH; [done| |]; intros; [apply H|]; rewrite ?elem_of_cons; auto.
Qed.

Lemma cnt_ext {A} (f g : A -> bool) l :
  (forall a, a ∈ l -> f a = g a) -> cnt f l = cnt g l.
Proof.
  induction l as [|b l IH]; simpl; intros H; [done|].
  rewrite (H b), IH; [done| |]; intros; [apply H|]; rewrite ?elem_of_cons; auto.
Qed.

(** Two different occurrences count twice. *)
Lemma cnt_two {A} (f : A -> bool) l i j a b :
  l !! i = Some a -> l !! j = Some b -> i <> j ->
  f a = true -> f b = true -> 2 <= cnt f l.
Proof.
  revert i j. induction l as [|c l IH]; intros i j Hi Hj Hij Ha Hb; [done|].
  destruct i as [|i], j as [|j]; simplify_eq/=.
  - rewrite Ha. apply (list_elem_of_lookup_2 l) in Hj. pose proof (cnt_pos f l b Hj Hb). simpl. lia.
  - rewrite Hb. apply (list_elem_of_lookup_2 l) in Hi. pose proof (cnt_pos f l a Hi Ha). simpl. lia.
  - enough (2 <= cnt f l) by lia. eapply (IH i j); eauto.
Qed.

(** ** Termination of systems of components

    [one_step R l l'] holds when one element of [l] takes an [R] step or
    disappears. *)
Inductive one_step {A} (R : A -> A -> Prop) : list A -> list A -> Prop :=
| one_step_here a a' l : R a a' -> one_step R (a :: l) (a' :: l)
| one_step_gone a l : one_step R (a :: l) l
| one_step_next a l l' : one_step R l l' -> one_step R (a :: l) (a :: l').

Lemma one_step_mid {A} (R : A -> A -> Prop) l1 a a' l2 :
  R a a' -> one_step R (l1 ++ a :: l2) (l1 ++ a' :: l2).
Proof. intros H. induction l1; simpl; by constructor. Qed.

Lemma one_step_drop {A} (R : A -> A -> Prop) l1 a l2 :
  one_step R (l1 ++ a :: l2) (l1 ++ l2).
Proof. induction l1; simpl; by constructor. Qed.

Lemma one_step_insert {A} (R : A -> A -> Prop) l i a a' :
  l !! i = Some a -> R a a' -> one_step R l (<[i := a']> l).
Proof.
  revert i. induction l as [|b l IH]; intros [|i] Hi Hr; simplify_eq/=; [by constructor|].
  constructor. by apply IH.
Qed.

(** If every element terminates, so does the list. *)
Lemma one_step_wf {A} (R : A -> A -> Prop) l :
  Forall (Acc (flip R)) l -> Acc (flip (one_step R)) l.
Proof.
  induction 1 as [|a l Ha _ IHl].
  - constructor. intros l' H. inversion H.
  - revert l IHl. induction Ha as [a _ IHa]. intros l Hl.
    induction Hl as [l Hl IHl].
    constructor. intros l' H. unfold flip in H. inversion H; subst.
    + apply IHa; [done|]. by constructor.
    + by constructor.
    + by apply IHl.
Qed.
