(* ===== verification/GoStrings.v ===== *)
(** * Go strings: bytes, case mapping, decimal text

    A Go string is a sequence of bytes, here [string] (eight-bit [ascii]
    characters), handled as [list ascii] where a function walks over it.
    [strings.ToLower] works on runes; its table beyond ASCII is the class
    [UnicodeLower]. *)

From S2P Require Import Prelude.
From Stdlib Require Export Ascii.
From Stdlib Require String.

Abbreviation bytes := (list ascii).
Definition b2s : bytes -> string := String.string_of_list_ascii.
Definition s2b : string -> bytes := String.list_ascii_of_string.

Lemma b2s_s2b s : b2s (s2b s) = s.
Proof. apply String.string_of_list_ascii_of_string. Qed.
Lemma s2b_b2s l : s2b (b2s l) = l.
Proof. apply String.list_ascii_of_string_of_list_ascii. Qed.
Lemma s2b_app s1 s2 : s2b (s1 +:+ s2) = s2b s1 ++ s2b s2.
Proof. induction s1 as [|a s IH]; [done|]. exact (f_equal (cons a) IH). Qed.
Lemma b2s_app l1 l2 : b2s (l1 ++ l2) = b2s l1 +:+ b2s l2.
Proof. induction l1 as [|a l IH]; [done|]. exact (f_equal (String.String a) IH). Qed.
#[export] Instance s2b_inj : Inj (=) (=) s2b.
Proof. intros s1 s2 H. by rewrite <- (b2s_s2b s1), H, b2s_s2b. Qed.
#[export] Instance b2s_inj : Inj (=) (=) b2s.
Proof. intros l1 l2 H. by rewrite <- (s2b_b2s l1), H, s2b_b2s. Qed.

Create Rewrite HintDb bytes.
#[export] Hint Rewrite b2s_s2b s2b_b2s s2b_app b2s_app : bytes.

(** The numeric value of a byte. *)
Definition byte (c : ascii) : nat := nat_of_ascii c.

Lemma byte_lt c : byte c < 256.
Proof. apply nat_ascii_bounded. Qed.

#[export] Instance byte_inj : Inj (=) (=) byte.
Proof. intros a b H. rewrite <- (ascii_nat_embedding a), <- (ascii_nat_embedding b). by f_equal. Qed.

(** The double quote. *)
Definition dquote : ascii := ascii_of_nat 34.

Definition in_range (lo hi c : ascii) : bool := (byte lo <=? byte c) && (byte c <=? byte hi).

Definition is_digit (c : ascii) : bool := in_range "0" "9" c.
Definition is_upper (c : ascii) : bool := in_range "A" "Z" c.
Definition is_lower (c : ascii) : bool := in_range "a" "z" c.
Definition is_alpha (c : ascii) : bool := is_lower c || is_upper c.
Definition is_alnum (c : ascii) : bool := is_alpha c || is_digit c.

(** ** UTF-8 (unicode/utf8) *)

Definition RuneError : Z := 65533. (* U+FFFD *)

(** One continuation byte, within the bounds that [DecodeRune] puts on it. *)
Definition cont_byte (lo hi : Z) (c : ascii) : bool :=
  bool_decide (lo <= Z.of_nat (byte c) <= hi)%Z.

Definition zbyte (c : ascii) : Z := Z.of_nat (byte c).

(** utf8.DecodeRune on a non-empty input: the rune and the bytes after it.
    An invalid sequence gives [RuneError] and consumes one byte. *)
Definition decode_rune (c : ascii) (s : bytes) : Z * bytes :=
  let b0 := zbyte c in
  let bad := (RuneError, s) in
  if (b0 <? 128)%Z then (b0, s)
  else if (b0 <? 194)%Z then bad
  else if (b0 <? 224)%Z then
    match s with
    | c1 :: s1 => if cont_byte 128 191 c1
                  then ((b0 - 192) * 64 + (zbyte c1 - 128), s1)%Z else bad
    | _ => bad
    end
  else if (b0 <? 240)%Z then
    let lo := if (b0 =? 224)%Z then 160%Z else 128%Z in
    let hi := if (b0 =? 237)%Z then 159%Z else 191%Z in
    match s with
    | c1 :: c2 :: s2 => if cont_byte lo hi c1 && cont_byte 128 191 c2
                  then ((b0 - 224) * 4096 + (zbyte c1 - 128) * 64 + (zbyte c2 - 128), s2)%Z else bad
    | _ => bad
    end
  else if (b0 <? 245)%Z then
    let lo := if (b0 =? 240)%Z then 144%Z else 128%Z in
    let hi := if (b0 =? 244)%Z then 143%Z else 191%Z in
    match s with
    | c1 :: c2 :: c3 :: s3 =>
        if cont_byte lo hi c1 && cont_byte 128 191 c2 && cont_byte 128 191 c3
        then ((b0 - 240) * 262144 + (zbyte c1 - 128) * 4096 + (zbyte c2 - 128) * 64
              + (zbyte c3 - 128), s3)%Z else bad
    | _ => bad
    end
  else bad.

(** All runes of a string ([fuel] is its length: every rune takes a byte). *)
Fixpoint runes_fuel (fuel : nat) (s : bytes) : list Z :=
  match fuel, s with
  | S fuel, c :: s => let '(r, s') := decode_rune c s in r :: runes_fuel fuel s'
  | _, _ => []
  end.
Definition runes (s : bytes) : list Z := runes_fuel (length s) s.

Definition zascii (z : Z) : ascii := ascii_of_nat (Z.to_nat z).

(** utf8.AppendRune *)
Definition encode_rune (r : Z) : bytes :=
  if (r <? 0)%Z then [zascii 239; zascii 191; zascii 189]
  else if (r <? 128)%Z then [zascii r]
  else if (r <? 2048)%Z then [zascii (192 + r / 64); zascii (128 + r mod 64)]
  else if ((1114111 <? r) || ((55296 <=? r) && (r <=? 57343)))%Z
       then [zascii 239; zascii 191; zascii 189]
  else if (r <? 65536)%Z then
    [zascii (224 + r / 4096); zascii (128 + (r / 64) mod 64); zascii (128 + r mod 64)]
  else [zascii (240 + r / 262144); zascii (128 + (r / 4096) mod 64);
        zascii (128 + (r / 64) mod 64); zascii (128 + r mod 64)].

Lemma byte_zascii z : (0 <= z < 256)%Z -> byte (zascii z) = Z.to_nat z.
Proof. intros H. unfold byte, zascii. apply nat_ascii_embedding. lia. Qed.

Lemma zbyte_zascii z : (0 <= z < 256)%Z -> zbyte (zascii z) = z.
Proof. intros H. unfold zbyte. rewrite byte_zascii by done. lia. Qed.

(** The runes that have an encoding: no surrogates, at most U+10FFFF. *)
Definition valid_rune (r : Z) : Prop := (0 <= r < 55296 \/ 57344 <= r <= 1114111)%Z.

Ltac decode_step := repeat match goal with
  | |- context [Z.of_nat (byte ?c)] => change (Z.of_nat (byte c)) with (zbyte c)
  | |- context [(zbyte (zascii ?z))] => rewrite (zbyte_zascii z) by lia
  | |- context [(?a <? ?b)%Z] => destruct (Z.ltb_spec a b); [try lia|try lia]
  | |- context [(?a =? ?b)%Z] => destruct (Z.eqb_spec a b); [try lia|try lia]
  | |- context [bool_decide ?P] => rewrite (bool_decide_eq_true_2 P) by lia
  end.

(** Decoding undoes encoding, and only ASCII is encoded with ASCII bytes. *)
Lemma decode_encode r rest :
  valid_rune r -> (128 <= r)%Z ->
  exists c l, encode_rune r = c :: l /\ decode_rune c (l ++ rest) = (r, rest) /\
    Forall (fun a => 128 <= byte a) (c :: l).
Proof.
  intros Hv Hr. unfold encode_rune, valid_rune in *.
  destruct (Z.ltb_spec r 0); [lia|]. destruct (Z.ltb_spec r 128); [lia|].
  destruct (Z.ltb_spec r 2048).
  { eexists _, _. split; [done|].
    pose proof (Z.div_mod r 64 ltac:(lia)). pose proof (Z.mod_pos_bound r 64 ltac:(lia)).
    assert (2 <= r / 64 < 32)%Z by (split; [apply Z.div_le_lower_bound|apply Z.div_lt_upper_bound]; lia).
    split; [|rewrite !Forall_cons, Forall_nil; split_and!; try done; rewrite byte_zascii by lia; lia].
    cbn [app]. unfold decode_rune, cont_byte. decode_step. f_equal. lia. }
  destruct ((1114111 <? r) || ((55296 <=? r) && (r <=? 57343)))%Z eqn:E; [lia|].
  pose proof (Z.div_mod r 64 ltac:(lia)). pose proof (Z.mod_pos_bound r 64 ltac:(lia)).
  pose proof (Z.div_mod (r / 64) 64 ltac:(lia)). pose proof (Z.mod_pos_bound (r / 64) 64 ltac:(lia)).
  assert (r / 64 / 64 = r / 4096)%Z by (by rewrite Z.div_div by lia).
  destruct (Z.ltb_spec r 65536).
  - eexists _, _. split; [done|].
    assert (0 <= r / 4096 < 16)%Z by (split; [apply Z.div_pos|apply Z.div_lt_upper_bound]; lia).
    split; [|rewrite !Forall_cons, Forall_nil; split_and!; try done; rewrite byte_zascii by lia; lia].
    cbn [app]. unfold decode_rune, cont_byte. decode_step; cbn [andb]; f_equal; lia.
  - eexists _, _. split; [done|].
    pose proof (Z.div_mod (r / 4096) 64 ltac:(lia)). pose proof (Z.mod_pos_bound (r / 4096) 64 ltac:(lia)).
    assert (r / 4096 / 64 = r / 262144)%Z by (by rewrite Z.div_div by lia).
    assert (0 <= r / 262144 < 5)%Z by (split; [apply Z.div_pos|apply Z.div_lt_upper_bound]; lia).
    split; [|rewrite !Forall_cons, Forall_nil; split_and!; try done; rewrite byte_zascii by lia; lia].
    cbn [app]. unfold decode_rune, cont_byte. decode_step; cbn [andb]; f_equal; lia.
Qed.

(** ** strings.ToLower *)

(** unicode.ToLower beyond ASCII: a table of the standard library.  Exactly two
    runes outside ASCII have an ASCII lower case: U+0130 (capital I with dot)
    goes to i, and U+212A (the Kelvin sign) to k. *)
Class UnicodeLower := {
  unicode_lower : Z -> Z;
  unicode_lower_I : unicode_lower 304 = 105%Z;
  unicode_lower_K : unicode_lower 8490 = 107%Z;
  unicode_lower_other r : (128 <= r)%Z -> r <> 304%Z -> r <> 8490%Z -> (128 <= unicode_lower r)%Z
}.

Definition lower_ascii (c : ascii) : ascii :=
  if is_upper c then ascii_of_nat (byte c + 32) else c.

Section lower.
Context `{U : UnicodeLower}.

Definition lower_rune (r : Z) : Z :=
  if (r <? 128)%Z
  then (if ((65 <=? r) && (r <=? 90))%Z then r + 32 else r)%Z
  else unicode_lower r.

Definition is_ascii (c : ascii) : bool := byte c <? 128.

(** The ASCII fast path, and strings.Map(unicode.ToLower) otherwise. *)
Definition ToLower_bytes (s : bytes) : bytes :=
  if forallb is_ascii s then lower_ascii <$> s
  else concat ((fun r => encode_rune (lower_rune r)) <$> runes s).

Definition ToLower (s : string) : string := b2s (ToLower_bytes (s2b s)).

(** A byte outside ASCII starts a rune outside ASCII. *)
Lemma decode_rune_high c s : 128 <= byte c -> (128 <= fst (decode_rune c s))%Z.
Proof.
  intros H. pose proof (byte_lt c). unfold decode_rune, cont_byte, zbyte.
  repeat (case_match; simpl; try (unfold RuneError; lia)).
  all: repeat match goal with
  | H : _ && _ = true |- _ => apply andb_true_iff in H as [? ?]
  | H : bool_decide _ = true |- _ => apply bool_decide_eq_true in H
  end; repeat case_match; try lia.
Qed.

Lemma decode_rune_low c s : byte c < 128 -> decode_rune c s = (zbyte c, s).
Proof. intros H. unfold decode_rune, zbyte. by rewrite (proj2 (Z.ltb_lt _ _)) by lia. Qed.

Lemma runes_high fuel s :
  length s <= fuel -> forallb is_ascii s = false ->
  exists r, r ∈ runes_fuel fuel s /\ (128 <= r)%Z.
Proof.
  revert s. induction fuel as [|fuel IH]; intros [|c s]; simpl; [done|lia|done|].
  intros Hl Ha. destruct (is_ascii c) eqn:Hc; simpl in Ha.
  - unfold is_ascii in Hc. apply Nat.ltb_lt in Hc. rewrite (decode_rune_low c s Hc).
    destruct (IH s) as (r & Hr & ?); [lia|done|]. exists r. split; [|done].
    apply elem_of_cons. by right.
  - unfold is_ascii in Hc. apply Nat.ltb_ge in Hc. pose proof (decode_rune_high c s Hc).
    destruct (decode_rune c s) as [r s']. exists r. split; [apply elem_of_cons; by left|done].
Qed.

Lemma encode_rune_high r : (128 <= r)%Z -> exists c, c ∈ encode_rune r /\ 128 <= byte c.
Proof.
  intros H. unfold encode_rune.
  destruct (Z.ltb_spec r 0); [lia|]. destruct (Z.ltb_spec r 128); [lia|].
  assert (forall z l, (128 <= z < 256)%Z -> exists c, c ∈ zascii z :: l /\ 128 <= byte c) as Hz.
  { intros z l Hr. exists (zascii z). split; [apply elem_of_cons; by left|].
    rewrite byte_zascii; lia. }
  destruct (Z.ltb_spec r 2048); [apply Hz|].
  { assert (0 <= r / 64 < 32)%Z; [split; [apply Z.div_pos|apply Z.div_lt_upper_bound]; lia|lia]. }
  destruct ((1114111 <? r) || ((55296 <=? r) && (r <=? 57343)))%Z eqn:E; [apply Hz; lia|].
  apply orb_false_iff in E as [E _]. apply Z.ltb_ge in E.
  destruct (Z.ltb_spec r 65536); apply Hz.
  - assert (0 <= r / 4096 < 16)%Z; [split; [apply Z.div_pos|apply Z.div_lt_upper_bound]; lia|lia].
  - assert (0 <= r / 262144 < 5)%Z; [split; [apply Z.div_pos|apply Z.div_lt_upper_bound]; lia|lia].
Qed.

Lemma is_ascii_lower c : is_ascii (lower_ascii c) = is_ascii c.
Proof. by destruct c as [[] [] [] [] [] [] [] []]. Qed.

Lemma forallb_ascii_lower s : forallb is_ascii (lower_ascii <$> s) = forallb is_ascii s.
Proof. induction s as [|c s IH]; [done|]. csimpl. by rewrite is_ascii_lower, IH. Qed.

(** Lower case is idempotent on ASCII. *)
Lemma lower_ascii_idem c : lower_ascii (lower_ascii c) = lower_ascii c.
Proof. by destruct c as [[] [] [] [] [] [] [] []]. Qed.

(** Lower-casing a string outside ASCII never gives an ASCII word without i and
    k, whatever the rest of the Unicode table says. *)
Lemma ToLower_bytes_ascii s w :
  ToLower_bytes s = w -> forallb is_ascii w = true ->
  "i"%char ∉ w -> "k"%char ∉ w ->
  forallb is_ascii s = true /\ lower_ascii <$> s = w.
Proof.
  unfold ToLower_bytes. intros Hw Ha Hi Hk.
  destruct (forallb is_ascii s) eqn:Hs; [done|exfalso].
  destruct (runes_high (length s) s) as (r & Hr & Hge); [done|done|].
  assert (forall c, c ∈ encode_rune (lower_rune r) -> c ∈ w) as Hin.
  { intros c Hc. rewrite <- Hw. apply list_elem_of_In, in_concat.
    exists (encode_rune (lower_rune r)). split; [|by apply list_elem_of_In].
    apply list_elem_of_In, list_elem_of_fmap. exists r. done. }
  assert (lower_rune r = unicode_lower r) as Hl.
  { unfold lower_rune. by rewrite (proj2 (Z.ltb_ge _ _)). }
  rewrite Hl in Hin.
  destruct (decide (r = 304%Z)) as [->|H1].
  { apply Hi, Hin. rewrite unicode_lower_I. apply elem_of_cons. by left. }
  destruct (decide (r = 8490%Z)) as [->|H2].
  { apply Hk, Hin. rewrite unicode_lower_K. apply elem_of_cons. by left. }
  destruct (encode_rune_high (unicode_lower r)) as (c & Hc & Hb); [by apply unicode_lower_other|].
  apply Hin in Hc. rewrite forallb_forall in Ha.
  apply list_elem_of_In, Ha in Hc. unfold is_ascii in Hc. apply Nat.ltb_lt in Hc. lia.
Qed.

(** The case-insensitive comparison [ToLower s == w] for the words the program
    compares with, except those that contain an i or a k. *)
Lemma ToLower_eq s w :
  forallb is_ascii (s2b w) = true -> "i"%char ∉ s2b w -> "k"%char ∉ s2b w ->
  ToLower s = w <-> lower_ascii <$> s2b s = s2b w.
Proof.
  intros Ha Hi Hk. unfold ToLower. split.
  - intros <-. rewrite s2b_b2s in *. by destruct (ToLower_bytes_ascii _ _ eq_refl Ha Hi Hk).
  - intros E. rewrite <- E, forallb_ascii_lower in Ha. unfold ToLower_bytes.
    rewrite Ha, E. apply b2s_s2b.
Qed.

End lower.

(** ** Decimal text (the %d verb) *)

Definition digit (n : nat) : ascii := ascii_of_nat (48 + n).

Fixpoint dec_fuel (fuel n : nat) (acc : bytes) : bytes :=
  match fuel with
  | 0 => acc
  | S fuel => if n <? 10 then digit n :: acc
              else dec_fuel fuel (n / 10) (digit (n mod 10) :: acc)
  end.
Definition dec_nat (n : nat) : bytes := dec_fuel (S n) n [].

(** Sprintf of %d on an int. *)
Definition dec_Z (z : Z) : bytes :=
  if (z <? 0)%Z then "-"%char :: dec_nat (Z.to_nat (- z)) else dec_nat (Z.to_nat z).
