(* ===== verification/GoRegexp.v ===== *)
(** * Go regular expressions (package regexp)

    The fragment of RE2 syntax that the program's two patterns use: anchors,
    literals, ASCII character classes with a repetition count, sequences and
    capture groups.  [run] is the leftmost-first, greedy matcher that package
    regexp documents (what a backtracking engine would find first); [matches]
    is the language of an expression, and [run_sound] / [run_complete] relate
    the two.  Classes hold ASCII characters only, so matching bytes agrees with
    matching runes. *)

From S2P Require Import Prelude GoStrings.

(** A character class: a list of inclusive ranges. *)
Definition cclass := list (ascii * ascii).
Definition in_class (cc : cclass) (c : ascii) : bool :=
  existsb (fun '(lo, hi) => in_range lo hi c) cc.

Inductive regex :=
| RBegin                                            (** ^ *)
| REnd                                              (** $ *)
| RLit (l : bytes)
| RRep (cc : cclass) (min : nat) (max : option nat) (** [cc]{min,max} *)
| RSeq (r1 r2 : regex)
| RGroup (r : regex).                               (** ( r ) *)

Section matcher.
Context {R : Type}.

(** What follows a partial match: whether we are still at the beginning of the
    text, the bytes left, and the groups captured so far. *)
Definition cont := bool -> bytes -> list bytes -> option R.

Fixpoint strip (l s : bytes) : option bytes :=
  match l, s with
  | [], _ => Some s
  | a :: l, c :: s => if decide (a = c) then strip l s else None
  | _ :: _, [] => None
  end.

(** Greedy repetition: one more character first, then what follows. *)
Fixpoint rep (cc : cclass) (s : bytes) (min : nat) (max : option nat) (b : bool)
    (caps : list bytes) (k : cont) : option R :=
  let stop := if min =? 0 then k b s caps else None in
  match s with
  | c :: s' =>
      if in_class cc c && negb (bool_decide (max = Some 0)) then
        match rep cc s' (pred min) (pred <$> max) false caps k with
        | Some x => Some x
        | None => stop
        end
      else stop
  | [] => stop
  end.

Fixpoint run (r : regex) (b : bool) (s : bytes) (caps : list bytes) (k : cont) : option R :=
  match r with
  | RBegin => if b then k b s caps else None
  | REnd => match s with [] => k b s caps | _ => None end
  | RLit l => match strip l s with
              | Some s' => k (b && bool_decide (l = [])) s' caps
              | None => None
              end
  | RRep cc min max => rep cc s min max b caps k
  | RSeq r1 r2 => run r1 b s caps (fun b' s' caps' => run r2 b' s' caps' k)
  | RGroup r => run r b s caps (fun b' s' caps' =>
                  k b' s' (caps' ++ [take (length s - length s') s]))
  end.
End matcher.

(** The first match in the text: (text of the match, groups). *)
Fixpoint find (r : regex) (b : bool) (s : bytes) : option (bytes * list bytes) :=
  match run r b s [] (fun _ s' caps => Some (take (length s - length s') s, caps)) with
  | Some x => Some x
  | None => match s with [] => None | _ :: s' => find r false s' end
  end.

(** (re *Regexp) FindStringSubmatch: nil, or the match followed by the groups. *)
Definition FindStringSubmatch (r : regex) (s : string) : list string :=
  match find r true (s2b s) with
  | Some (m, caps) => b2s <$> (m :: caps)
  | None => []
  end.

(** (re *Regexp) MatchString *)
Definition MatchString (r : regex) (s : string) : bool :=
  match find r true (s2b s) with Some _ => true | None => false end.

(** ** The language of an expression

    [matches r b s b' s'] : starting at [s], [r] can match the bytes of [s] that
    precede its suffix [s']. *)
Definition le_max (n : nat) (max : option nat) : bool :=
  match max with Some m => n <=? m | None => true end.

Inductive matches : regex -> bool -> bytes -> bool -> bytes -> Prop :=
| m_begin s : matches RBegin true s true s
| m_end b : matches REnd b [] b []
| m_lit l b s : matches (RLit l) b (l ++ s) (b && bool_decide (l = [])) s
| m_rep cc min max b d s :
    forallb (in_class cc) d = true -> min <= length d -> le_max (length d) max = true ->
    matches (RRep cc min max) b (d ++ s) (b && bool_decide (d = [])) s
| m_seq r1 r2 b s b' s' b'' s'' :
    matches r1 b s b' s' -> matches r2 b' s' b'' s'' -> matches (RSeq r1 r2) b s b'' s''
| m_group r b s b' s' : matches r b s b' s' -> matches (RGroup r) b s b' s'.

Lemma strip_app l s : strip l (l ++ s) = Some s.
Proof. induction l as [|a l IH]; simpl; [done|]. by rewrite decide_True. Qed.

Lemma strip_Some l s s' : strip l s = Some s' -> s = l ++ s'.
Proof.
  revert s. induction l as [|a l IH]; intros [|c s]; simpl.
  - by intros [= <-].
  - by intros [= <-].
  - done.
  - case_decide; [|done]. subst. intros H. f_equal. by apply IH.
Qed.

Section rep.
Context {R : Type}.

Lemma le_max_cons n max : le_max (S n) max = true ->
  max <> Some 0 /\ le_max n (pred <$> max) = true.
Proof. destruct max as [[|m]|]; simpl; done. Qed.

Lemma le_max_pred n max : max <> Some 0 -> le_max n (pred <$> max) = true -> le_max (S n) max = true.
Proof. destruct max as [[|m]|]; simpl; done. Qed.

Lemma rep_complete cc d s' min max b caps (k : @cont R) :
  forallb (in_class cc) d = true -> min <= length d -> le_max (length d) max = true ->
  is_Some (k (b && bool_decide (d = [])) s' caps) ->
  is_Some (rep cc (d ++ s') min max b caps k).
Proof.
  revert min max b. induction d as [|c d IH]; intros min max b; simpl.
  - intros _ Hmin _ Hk. assert (min = 0) as -> by lia. rewrite andb_true_r in Hk.
    destruct s' as [|c s']; simpl; [done|]. by repeat case_match.
  - intros Hd Hmin Hm Hk. apply andb_true_iff in Hd as [Hc Hd].
    apply le_max_cons in Hm as [Hm0 Hm]. rewrite andb_false_r in Hk.
    rewrite Hc, bool_decide_eq_false_2 by done. simpl.
    destruct (IH (pred min) (pred <$> max) false) as [x ->]; try done; lia.
Qed.

(** [rep] stops at the longest run of class characters after which the rest of
    the expression matches. *)
Lemma rep_sound cc s min max b caps (k : @cont R) x :
  rep cc s min max b caps k = Some x ->
  exists d s', s = d ++ s' /\ forallb (in_class cc) d = true /\ min <= length d /\
    le_max (length d) max = true /\ k (b && bool_decide (d = [])) s' caps = Some x /\
    (forall d2 s2, s = d2 ++ s2 -> forallb (in_class cc) d2 = true -> length d < length d2 ->
       min <= length d2 -> le_max (length d2) max = true -> k false s2 caps = None).
Proof.
  revert min max b. induction s as [|c s IH]; intros min max b; simpl.
  - destruct (Nat.eqb_spec min 0) as [->|]; [|done]. intros Hk.
    exists [], []. simpl. rewrite andb_true_r. repeat split; try done; [by destruct max|].
    intros [|? ?] ? ?; simpl; [lia|done].
  - intros H. destruct (in_class cc c && negb (bool_decide (max = Some 0))) eqn:Hc.
    + apply andb_true_iff in Hc as [Hc Hm0]. apply negb_true_iff, bool_decide_eq_false in Hm0.
      destruct (rep cc s (pred min) (pred <$> max) false caps k) as [y|] eqn:Hr.
      * simplify_eq. apply IH in Hr as (d & s' & -> & Hd & Hmin & Hm & Hk & Hlong).
        exists (c :: d), s'. simpl. rewrite Hc, andb_false_r.
        split; [done|]. split; [done|]. split; [lia|]. split; [by apply le_max_pred|]. split; [done|].
        intros [|a d2] s2 Heq; simpl; [lia|]. intros Ha Hlen Hmin2 Hm2. simplify_eq/=.
        apply andb_true_iff in Ha as [_ Ha]. apply le_max_cons in Hm2 as [_ Hm2].
        apply (Hlong d2 s2); try done; lia.
      * destruct (Nat.eqb_spec min 0) as [->|]; [|done].
        exists [], (c :: s). simpl. rewrite andb_true_r.
        repeat split; try done; [by destruct max|].
        intros [|a d2] s2 Heq; simpl; [lia|]. intros Ha _ _ Hm2. simplify_eq/=.
        apply andb_true_iff in Ha as [_ Ha]. apply le_max_cons in Hm2 as [_ Hm2].
        apply eq_None_not_Some. intros Hs.
        edestruct (rep_complete cc d2 s2 0 (pred <$> max) false caps k) as [? E]; try done; [lia|].
        simpl in Hr. congruence.
    + destruct (Nat.eqb_spec min 0) as [->|]; [|done].
      exists [], (c :: s). simpl. rewrite andb_true_r.
      repeat split; try done; [by destruct max|].
      intros [|a d2] s2 Heq; simpl; [lia|]. intros Ha _ _ Hm2. simplify_eq/=.
      apply andb_true_iff in Ha as [Ha _]. apply le_max_cons in Hm2 as [Hm0 _].
      by rewrite Ha, bool_decide_eq_false_2 in Hc.
Qed.

(** Whatever [run] finds is a match of the language. *)
Lemma run_sound r b s caps (k : @cont R) x :
  run r b s caps k = Some x ->
  exists b' s' caps', matches r b s b' s' /\ k b' s' caps' = Some x.
Proof.
  revert b s caps k. induction r as [| |l|cc mi ma|r1 IH1 r2 IH2|r IH]; simpl; intros b s caps k H.
  - destruct b; [|done]. eauto using matches.
  - destruct s; [|done]. eauto using matches.
  - destruct (strip l s) as [s'|] eqn:E; [|done]. apply strip_Some in E as ->. eauto using matches.
  - apply rep_sound in H as (d & s' & -> & ? & ? & ? & ? & _). eauto 10 using matches.
  - apply IH1 in H as (b' & s' & caps' & H1 & H). apply IH2 in H as (? & ? & ? & ? & ?).
    eauto 10 using matches.
  - apply IH in H as (? & ? & ? & ? & ?). eauto 10 using matches.
Qed.

(** If the language has a match after which the continuation succeeds whatever
    was captured, [run] finds one. *)
Lemma run_complete r b s b' s' caps (k : @cont R) :
  matches r b s b' s' -> (forall caps', is_Some (k b' s' caps')) -> is_Some (run r b s caps k).
Proof.
  intros H. revert caps k. induction H; simpl; intros caps k Hk; auto.
  - by rewrite strip_app.
  - by apply rep_complete.
Qed.
End rep.

(** A pattern that starts with ^ can only match at the beginning. *)
Lemma find_begin r s : find (RSeq RBegin r) true s =
  run r true s [] (fun _ s' caps => Some (take (length s - length s') s, caps)).
Proof.
  assert (forall s, find (RSeq RBegin r) false s = None) as Hno.
  { induction s0 as [|c s0 IH]; simpl; [done|exact IH]. }
  destruct s as [|c s]; simpl; [|rewrite Hno]; by destruct (run r _ _ _ _).
Qed.

Lemma MatchString_begin r s :
  MatchString (RSeq RBegin r) s = true <-> exists b' s', matches r true (s2b s) b' s'.
Proof.
  unfold MatchString. rewrite find_begin. split.
  - destruct (run _ _ _ _ _) as [x|] eqn:E; [|done]. intros _.
    apply run_sound in E as (b' & s' & _ & ? & _). eauto.
  - intros (b' & s' & H).
    edestruct (run_complete r true (s2b s) b' s' []
      (fun _ s' caps => Some (take (length (s2b s) - length s') (s2b s), caps))) as [x ->]; [done| |done].
    by eexists.
Qed.
