(* ===== verification/GoUrl.v ===== *)
(** * Package net/url

    The parts of the standard library that build a connection string: escaping in
    the four positions of a URL that the program uses, [Values.Encode] and
    [URL.String]; and [unescape], the inverse that every reader of a URL applies. *)

From S2P Require Import Prelude GoStrings.

(** type encoding int *)
Inductive encoding := encodePath | encodeUserPassword | encodeHost | encodeQueryComponent.
#[export] Instance encoding_eq_dec : EqDecision encoding.
Proof. solve_decision. Defined.

Definition is_one_of (l : string) (c : ascii) : bool := existsb (fun a => bool_decide (a = c)) (s2b l).

(** func shouldEscape(c byte, mode encoding) bool *)
Definition shouldEscape (c : ascii) (mode : encoding) : bool :=
  if is_alnum c then false
  else if bool_decide (mode = encodeHost) &&
          (is_one_of "!$&'()*+,;=:[]<>" c || bool_decide (c = dquote)) then false
  else if is_one_of "-_.~" c then false
  else if is_one_of "$&+,/:;=?@" c then
    match mode with
    | encodePath => bool_decide (c = "?"%char)
    | encodeUserPassword => is_one_of "@/?:" c
    | encodeHost => true
    | encodeQueryComponent => true
    end
  else true.

Definition upperhex (n : nat) : ascii :=
  if n <? 10 then ascii_of_nat (48 + n) else ascii_of_nat (55 + n).

Definition escape_byte (mode : encoding) (c : ascii) : bytes :=
  if shouldEscape c mode then
    if bool_decide (c = " "%char /\ mode = encodeQueryComponent) then ["+"%char]
    else ["%"%char; upperhex (byte c / 16); upperhex (byte c mod 16)]
  else [c].

(** func escape(s string, mode encoding) string *)
Definition escape (s : string) (mode : encoding) : string :=
  b2s (concat (escape_byte mode <$> s2b s)).

Definition QueryEscape (s : string) : string := escape s encodeQueryComponent.

Definition unhex (c : ascii) : option nat :=
  if is_digit c then Some (byte c - 48)
  else if in_range "a" "f" c then Some (byte c - 87)
  else if in_range "A" "F" c then Some (byte c - 55)
  else None.

(** func unescape(s string, mode encoding), for the modes other than encodeHost *)
Fixpoint unescape_bytes (mode : encoding) (s : bytes) : option bytes :=
  match s with
  | [] => Some []
  | c :: s' =>
      if decide (c = "%"%char) then
        match s' with
        | h :: l :: s'' =>
            h ← unhex h; l ← unhex l; t ← unescape_bytes mode s'';
            Some (ascii_of_nat (16 * h + l) :: t)
        | _ => None
        end
      else
        t ← unescape_bytes mode s';
        Some ((if decide (c = "+"%char /\ mode = encodeQueryComponent) then " "%char else c) :: t)
  end.

Definition unescape (s : string) (mode : encoding) : option string := b2s <$> unescape_bytes mode (s2b s).

(** ** url.Values *)

(** type Values map[string][]string *)
Abbreviation Values := (list (string * list string)).

(** func (v Values) Set *)
Definition Set_ (v : Values) (key value : string) : Values :=
  filter (fun kv => kv.1 <> key) v ++ [(key, [value])].

(** The order of [sort.Strings]: bytewise. *)
Fixpoint le_bytes (a b : bytes) : bool :=
  match a, b with
  | [], _ => true
  | _ :: _, [] => false
  | x :: a, y :: b => if byte x =? byte y then le_bytes a b else byte x <? byte y
  end.

Fixpoint insert_key (kv : string * list string) (v : Values) : Values :=
  match v with
  | [] => [kv]
  | kv' :: v' => if le_bytes (s2b kv.1) (s2b kv'.1) then kv :: v else kv' :: insert_key kv v'
  end.
Definition sort_keys (v : Values) : Values := foldr insert_key [] v.

Fixpoint join_amp (l : list string) : string :=
  match l with
  | [] => ""
  | [x] => x
  | x :: l => x +:+ "&" +:+ join_amp l
  end.

(** func (v Values) Encode *)
Definition Encode (v : Values) : string :=
  join_amp (concat ((fun kv : string * list string =>
    (fun value => QueryEscape kv.1 +:+ "=" +:+ QueryEscape value) <$> kv.2) <$> sort_keys v)).

(** ** url.URL *)

(** type URL struct, the fields that the program sets; User is url.User(name). *)
Record URL := MkURL {
  URL_Scheme : string;
  URL_User : option string;
  URL_Host : string;
  URL_Path : string;
  URL_RawQuery : string
}.

(** func (u *URL) EscapedPath, without a RawPath *)
Definition EscapedPath (path : string) : string :=
  if decide (path = "*") then "*" else escape path encodePath.

Definition starts_with_slash (s : string) : bool :=
  match s2b s with c :: _ => bool_decide (c = "/"%char) | [] => false end.

(** func (u *Userinfo) String, without a password *)
Definition Userinfo_String (username : string) : string := escape username encodeUserPassword.

(** func (u *URL) String, for a non-empty scheme: the branch for a relative
    reference whose first segment holds a colon is not reached. *)
Definition URL_String (u : URL) : string :=
  let path := EscapedPath (URL_Path u) in
  (if decide (URL_Scheme u = "") then "" else URL_Scheme u +:+ ":")
  +:+ (if decide (URL_Host u <> "" \/ URL_Path u <> "" \/ URL_User u <> None) then "//" else "")
  +:+ match URL_User u with Some ui => Userinfo_String ui +:+ "@" | None => "" end
  +:+ (if decide (URL_Host u <> "") then escape (URL_Host u) encodeHost else "")
  +:+ (if decide (path <> "" /\ starts_with_slash path = false /\ URL_Host u <> "") then "/" else "")
  +:+ path
  +:+ (if decide (URL_RawQuery u <> "") then "?" +:+ URL_RawQuery u else "").

(** ** Escaping loses nothing *)

(** One escaped byte reads back, as a computation over all bytes. *)
Definition reads_back (mode : encoding) (c : ascii) : bool :=
  match escape_byte mode c with
  | [a] => if bool_decide (a = "+"%char /\ mode = encodeQueryComponent) then bool_decide (c = " "%char)
           else bool_decide (a = c) && negb (bool_decide (a = "%"%char))
  | [p; h; l] => bool_decide (p = "%"%char) &&
      match unhex h, unhex l with
      | Some h, Some l => bool_decide (ascii_of_nat (16 * h + l) = c)
      | _, _ => false
      end
  | _ => false
  end.

Lemma all_read_back mode c : mode <> encodeHost -> reads_back mode c = true.
Proof.
  intros Hm. rewrite <- (ascii_nat_embedding c). pose proof (byte_lt c) as Hb. unfold byte in Hb.
  assert (forallb (fun n => reads_back mode (ascii_of_nat n)) (seq 0 256) = true) as Hall
    by (destruct mode; [| |done|]; vm_compute; reflexivity).
  rewrite forallb_forall in Hall. apply Hall, in_seq. lia.
Qed.

Lemma unescape_byte mode c s :
  mode <> encodeHost ->
  unescape_bytes mode (escape_byte mode c ++ s) = cons c <$> unescape_bytes mode s.
Proof.
  intros Hm. pose proof (all_read_back mode c Hm) as H. unfold reads_back in H.
  destruct (escape_byte mode c) as [|a [|h [|l [|]]]]; try done.
  - case_bool_decide as Ha.
    + apply bool_decide_eq_true in H as ->. destruct Ha as [-> ->]. simpl.
      by destruct (unescape_bytes _ s).
    + apply andb_true_iff in H as [H1 H2]. apply bool_decide_eq_true in H1 as ->.
      apply negb_true_iff, bool_decide_eq_false in H2. simpl.
      rewrite (decide_False (P := c = "%"%char)), (decide_False (P := _ /\ _)) by done.
      by destruct (unescape_bytes _ s).
  - apply andb_true_iff in H as [H1 H]. apply bool_decide_eq_true in H1 as ->.
    destruct (unhex h) as [x|] eqn:Eh, (unhex l) as [y|] eqn:El; try done.
    apply bool_decide_eq_true in H as <-. cbn [app unescape_bytes].
    rewrite decide_True, Eh, El by done. cbn [mbind option_bind]. by destruct (unescape_bytes _ s).
Qed.

Lemma unescape_escape_bytes mode s :
  mode <> encodeHost -> unescape_bytes mode (concat (escape_byte mode <$> s)) = Some s.
Proof.
  intros Hm. induction s as [|c s IH]; [done|]. cbn [fmap list_fmap concat].
  by rewrite unescape_byte, IH.
Qed.

(** What is escaped for a path, a user name or a query is read back unchanged. *)
Lemma unescape_escape s mode : mode <> encodeHost -> unescape (escape s mode) mode = Some s.
Proof.
  intros Hm. unfold unescape, escape. rewrite s2b_b2s, unescape_escape_bytes by done.
  simpl. by rewrite b2s_s2b.
Qed.

(** ** Escaping keeps delimiters out *)

(** No byte is written with [sep] in it. *)
Definition avoids (mode : encoding) (sep : ascii) : bool :=
  forallb (fun n => forallb (fun a => negb (bool_decide (a = sep))) (escape_byte mode (ascii_of_nat n)))
    (seq 0 256).

Lemma escape_avoids mode sep s :
  avoids mode sep = true -> sep ∉ concat (escape_byte mode <$> s).
Proof.
  unfold avoids. rewrite forallb_forall. intros H Hin.
  apply list_elem_of_In, in_concat in Hin as (l & Hl & Hs).
  apply list_elem_of_In, list_elem_of_fmap in Hl as (c & -> & _).
  specialize (H (byte c)). rewrite in_seq, forallb_forall in H. pose proof (byte_lt c).
  replace (ascii_of_nat (byte c)) with c in H by (symmetry; apply ascii_nat_embedding).
  specialize (H ltac:(lia) _ Hs). by rewrite bool_decide_eq_true_2 in H.
Qed.

Lemma s2b_escape s mode : s2b (escape s mode) = concat (escape_byte mode <$> s2b s).
Proof. apply s2b_b2s. Qed.

(** An escaped text is empty only if the text is, and starts with a slash in a path
    only if the text does. *)
Lemma escape_byte_cons mode c : exists a l, escape_byte mode c = a :: l.
Proof. unfold escape_byte. repeat case_match; eauto. Qed.

Lemma escape_path_head c : (exists l, escape_byte encodePath c = "/"%char :: l) -> c = "/"%char.
Proof.
  intros [l Hl]. unfold escape_byte in Hl. repeat case_match; by simplify_eq.
Qed.
