(* ===== verification/Config.v ===== *)
(** * Configuration (internal/extractor/config.go)

    The settings, their validation, and the connection strings made from them.
    [read_conn] is what a reader of a connection string does with it: cut it at
    its delimiters and undo the escaping. *)

From S2P Require Import Prelude GoStrings GoUrl.

(** type DbCredentials struct *)
Record DbCredentials := MkDbCredentials {
  dbHost : string;
  dbUser : string;
  dbName : string;
  dbSSLMode : string;
  dbSSLCert : string;
  dbSSLKey : string;
  dbSSLRootCert : string;
  dbPort : Z (** int *)
}.

(** type Config struct *)
Record Config := MkConfig {
  ListenAddr : string;
  logLevel : string;
  Config_DbCredentials : DbCredentials
}.

(** slog.Level *)
Inductive Level := LevelDebug | LevelInfo | LevelWarn | LevelError.

(** The file system: what os.Stat answers, and os.IsNotExist. *)
Class FileSystem := {
  os_Stat : string -> option error;
  os_IsNotExist : error -> bool
}.

Definition isValidSSLSettings `{FileSystem} (sslmode sslcert sslkey sslrootcert : string) : option error :=
  let needsCerts := bool_decide (sslmode = "verify-ca") || bool_decide (sslmode = "verify-full") in
  if negb needsCerts then None
  else if bool_decide (sslcert = "") || bool_decide (sslkey = "") || bool_decide (sslrootcert = "")
  then Some (Errorf "SSL certificates required for verify-ca and verify-full modes" [])
  else
    (fix loop (paths : list string) : option error :=
       match paths with
       | [] => None
       | path :: paths =>
           match os_Stat path with
           | Some err =>
               if os_IsNotExist err
               then Some (Errorf "SSL certificate file not found: %s" [AStr path])
               else Some (Errorf "cannot access: %w" [AErr err])
           | None => loop paths
           end
       end) [sslcert; sslkey; sslrootcert].

Definition NewCredentials `{FileSystem} (c : Config) : res DbCredentials :=
  let d := Config_DbCredentials c in
  match isValidSSLSettings (dbSSLMode d) (dbSSLCert d) (dbSSLKey d) (dbSSLRootCert d) with
  | Some err => inl err
  | None => inr d
  end.

Definition LogLevel `{UnicodeLower} (c : Config) : res Level :=
  let l := ToLower (logLevel c) in
  if decide (l = "debug") then inr LevelDebug
  else if decide (l = "info") then inr LevelInfo
  else if decide (l = "warn") then inr LevelWarn
  else if decide (l = "error") then inr LevelError
  else inl (Errorf "log-level must be one of [debug, info, warn, error], got: %v" [AStr (logLevel c)]).

(** The query parameters of the connection string. *)
Definition ssl_values (d : DbCredentials) : Values :=
  let q := [] in
  let q := if decide (dbSSLMode d = "disable") then Set_ q "sslmode" "disable" else q in
  if decide (dbSSLMode d = "verify-ca" \/ dbSSLMode d = "verify-full") then
    let q := Set_ q "sslmode" (dbSSLMode d) in
    let q := Set_ q "sslcert" (dbSSLCert d) in
    let q := Set_ q "sslkey" (dbSSLKey d) in
    Set_ q "sslrootcert" (dbSSLRootCert d)
  else q.

Definition ConnStrForDb (d : DbCredentials) (dbName : string) : string :=
  let u := {|
    URL_Scheme := "postgres";
    URL_User := Some (dbUser d);
    URL_Host := dbHost d +:+ ":" +:+ b2s (dec_Z (dbPort d));
    URL_Path := dbName;
    URL_RawQuery := Encode (ssl_values d) |} in
  URL_String u.

Definition ConnStr (d : DbCredentials) : string := ConnStrForDb d (dbName d).

(** The two examples of config_test.go. *)
Definition test_credentials (mode : string) : DbCredentials := {|
  dbHost := "localhost"; dbPort := 5432; dbUser := "testuser"; dbName := "testdb";
  dbSSLMode := mode; dbSSLCert := "/path/to/cert.crt"; dbSSLKey := "/path/to/key.key";
  dbSSLRootCert := "/path/to/ca.crt" |}.

Example conn_str_verify : ConnStr (test_credentials "verify-full") =
  "postgres://testuser@localhost:5432/testdb?sslcert=%2Fpath%2Fto%2Fcert.crt&sslkey=%2Fpath%2Fto%2Fkey.key&sslmode=verify-full&sslrootcert=%2Fpath%2Fto%2Fca.crt".
Proof. vm_compute. reflexivity. Qed.

Example conn_str_disable :
  ConnStr (test_credentials "disable") = "postgres://testuser@localhost:5432/testdb?sslmode=disable".
Proof. vm_compute. reflexivity. Qed.

(** ** Reading a connection string *)

(** strings.Cut at a one-byte separator *)
Fixpoint cut (sep : ascii) (s : bytes) : bytes * option bytes :=
  match s with
  | [] => ([], None)
  | c :: s => if decide (c = sep) then ([], Some s)
              else let '(a, b) := cut sep s in (c :: a, b)
  end.

Fixpoint split (sep : ascii) (fuel : nat) (s : bytes) : list bytes :=
  match fuel with
  | 0 => []
  | S fuel => match cut sep s with
              | (a, None) => [a]
              | (a, Some s) => a :: split sep fuel s
              end
  end.

Definition read_param (s : bytes) : option (bytes * bytes) :=
  match cut "=" s with
  | (k, Some v) => k ← unescape_bytes encodeQueryComponent k;
                   v ← unescape_bytes encodeQueryComponent v; Some (k, v)
  | (_, None) => None
  end.

Record conn := MkConn {
  conn_user : bytes; conn_host : bytes; conn_path : bytes; conn_params : list (bytes * bytes)
}.

(** postgres://user@host/path?k=v&k=v, with the host left escaped. *)
Definition read_conn (s : bytes) : option conn :=
  if decide (take 11 s = s2b "postgres://") then
    let '(base, query) := cut "?" (drop 11 s) in
    let '(authority, path) := cut "/" base in
    match cut "@" authority with
    | (user, Some host) =>
        user ← unescape_bytes encodeUserPassword user;
        path ← match path with
               | Some p => unescape_bytes encodePath ("/"%char :: p)
               | None => Some []
               end;
        params ← match query with
                 | Some q => mapM read_param (split "&" (S (length q)) q)
                 | None => Some []
                 end;
        Some (MkConn user host path params)
    | (_, None) => None
    end
  else None.

(** The path of a connection string: the name, after a slash unless it has one. *)
Definition path_of (dbName : string) : bytes :=
  match s2b dbName with
  | [] => []
  | c :: s => if decide (c = "/"%char) then c :: s else "/"%char :: c :: s
  end.

(** The parameters as the reader should see them. *)
Definition params_of (d : DbCredentials) : list (bytes * bytes) :=
  if decide (dbSSLMode d = "disable") then [(s2b "sslmode", s2b "disable")]
  else if decide (dbSSLMode d = "verify-ca" \/ dbSSLMode d = "verify-full") then
    [(s2b "sslcert", s2b (dbSSLCert d)); (s2b "sslkey", s2b (dbSSLKey d));
     (s2b "sslmode", s2b (dbSSLMode d)); (s2b "sslrootcert", s2b (dbSSLRootCert d))]
  else [].

(** ** The shape of a connection string *)

Lemma cut_none sep a : sep ∉ a -> cut sep a = (a, None).
Proof.
  induction a as [|c a IH]; simpl; intros Hs; [done|]. rewrite not_elem_of_cons in Hs.
  destruct Hs as [Hc Hs]. by rewrite decide_False, IH by congruence.
Qed.

Lemma cut_app sep a b : sep ∉ a -> cut sep (a ++ sep :: b) = (a, Some b).
Proof.
  induction a as [|c a IH]; simpl; intros Hs; [by rewrite decide_True|].
  rewrite not_elem_of_cons in Hs. destruct Hs as [Hc Hs]. by rewrite decide_False, IH by congruence.
Qed.

Definition esc (mode : encoding) (s : string) : bytes := concat (escape_byte mode <$> s2b s).

Definition host_of (d : DbCredentials) : string := dbHost d +:+ ":" +:+ b2s (dec_Z (dbPort d)).

(** The escaped path, after a slash unless it is empty or has one. *)
Definition path_text (dbName : string) : bytes :=
  let p := s2b (EscapedPath dbName) in
  match p with
  | [] => []
  | c :: _ => if decide (c = "/"%char) then p else "/"%char :: p
  end.

Definition query_text (d : DbCredentials) : bytes :=
  let q := s2b (Encode (ssl_values d)) in match q with [] => [] | _ => "?"%char :: q end.

Lemma s2b_nil s : s2b s = [] <-> s = "".
Proof. split; [destruct s; [done|discriminate]|by intros ->]. Qed.

Lemma ConnStrForDb_shape d dbName :
  s2b (ConnStrForDb d dbName) =
  s2b "postgres://" ++ esc encodeUserPassword (dbUser d) ++ "@"%char :: esc encodeHost (host_of d)
    ++ path_text dbName ++ query_text d.
Proof.
  unfold ConnStrForDb, URL_String. cbn [URL_Scheme URL_User URL_Host URL_Path URL_RawQuery].
  assert (host_of d <> "") as Hh.
  { intros E%s2b_nil. unfold host_of in E. rewrite !s2b_app in E. by apply app_nil in E as [_ ?]. }
  fold (host_of d). rewrite (decide_False (P := "postgres" = "")) by done.
  rewrite (decide_True (P := host_of d <> "" \/ _)) by auto.
  rewrite (decide_True (P := host_of d <> "")) by done.
  rewrite !s2b_app. unfold Userinfo_String. rewrite !s2b_escape. fold (esc encodeUserPassword (dbUser d)).
  fold (esc encodeHost (host_of d)).
  assert (s2b (if decide (Encode (ssl_values d) <> "") then "?" +:+ Encode (ssl_values d) else "")
    = query_text d) as ->.
  { unfold query_text. case_decide as E; [|].
    - destruct (s2b (Encode (ssl_values d))) eqn:Eq; [by apply s2b_nil in Eq|]. by rewrite s2b_app, Eq.
    - by rewrite E. }
  assert (s2b (if decide (EscapedPath dbName <> "" /\ starts_with_slash (EscapedPath dbName) = false /\
      host_of d <> "") then "/" else "") ++ s2b (EscapedPath dbName) = path_text dbName) as Hp.
  { unfold path_text, starts_with_slash. destruct (s2b (EscapedPath dbName)) as [|c l] eqn:Ep.
    - apply s2b_nil in Ep. by rewrite decide_False by (intros (? & _ & _); congruence).
    - assert (EscapedPath dbName <> "") by (intros E; by rewrite E in Ep).
      destruct (decide (c = "/"%char)) as [->|Hc].
      + by rewrite decide_False by (intros (_ & Hs & _); by rewrite bool_decide_eq_true_2 in Hs).
      + rewrite decide_True; [done|]. split; [done|]. split; [|done]. by rewrite bool_decide_eq_false_2. }
  rewrite <- Hp. rewrite <- !(assoc_L (++)). done.
Qed.

(** The path of the string: empty for the empty name, else a slash and what reads
    back as the rest of the path. *)
Lemma path_text_cases dbName :
  ("?"%char ∉ path_text dbName) /\ unescape_bytes encodePath (path_text dbName) = Some (path_of dbName) /\
  (path_text dbName = [] \/ exists p, path_text dbName = "/"%char :: p).
Proof.
  unfold path_text, EscapedPath. case_decide as Hstar.
  { subst. cbn. split; [|split; [done|by right; eexists]].
    intros Hin. repeat (apply elem_of_cons in Hin as [?|Hin]; [done|]). by apply elem_of_nil in Hin. }
  rewrite s2b_escape. unfold path_of.
  pose proof (escape_avoids encodePath "?" (s2b dbName) eq_refl) as Hq.
  pose proof (unescape_escape_bytes encodePath (s2b dbName) ltac:(done)) as Hu.
  destruct (s2b dbName) as [|c s]; [by split; [apply not_elem_of_nil|auto]|].
  destruct (escape_byte_cons encodePath c) as (a & l & Ea).
  cbn [fmap list_fmap concat] in *. rewrite Ea in *. cbn [app] in *.
  destruct (decide (a = "/"%char)) as [->|Ha].
  - assert (c = "/"%char) as -> by (apply escape_path_head; by exists l).
    rewrite decide_True by done. split; [done|]. split; [done|]. right. by eexists.
  - assert (c <> "/"%char) as Hc by (intros ->; vm_compute in Ea; congruence).
    rewrite decide_False by done. split; [|split].
    + rewrite not_elem_of_cons. by split.
    + cbn [unescape_bytes]. rewrite decide_False by done. cbn [unescape_bytes] in Hu. by rewrite Hu.
    + right. by eexists.
Qed.

(** ** The query of a connection string *)

Definition join_bytes (sep : ascii) (segs : list bytes) : bytes :=
  match segs with
  | [] => []
  | seg :: segs => seg ++ concat ((cons sep) <$> segs)
  end.

Lemma split_join sep segs f :
  segs <> [] -> Forall (fun seg => sep ∉ seg) segs -> length segs <= f ->
  split sep f (join_bytes sep segs) = segs.
Proof.
  intros Hne HF. revert f. induction HF as [|seg segs Hs HF IH]; [done|]. intros [|f] Hf; simpl in *; [lia|].
  destruct segs as [|seg2 segs]; simpl.
  - by rewrite app_nil_r, cut_none.
  - rewrite cut_app by done. f_equal. apply IH; [done|lia].
Qed.

Lemma length_join sep segs : length segs <= S (length (join_bytes sep segs)).
Proof.
  destruct segs as [|seg segs]; [simpl; lia|]. unfold join_bytes. rewrite length_app.
  assert (length segs <= length (concat (cons sep <$> segs))); [|simpl; lia].
  induction segs as [|x segs IH]; [simpl; lia|]. csimpl. rewrite length_app. lia.
Qed.

Definition param_text (kv : string * string) : bytes :=
  esc encodeQueryComponent kv.1 ++ "="%char :: esc encodeQueryComponent kv.2.

Lemma read_param_text kv : read_param (param_text kv) = Some (s2b kv.1, s2b kv.2).
Proof.
  unfold read_param, param_text, esc. rewrite cut_app by (by apply escape_avoids).
  by rewrite !unescape_escape_bytes by done.
Qed.

Lemma param_text_amp kv : "&"%char ∉ param_text kv.
Proof.
  unfold param_text, esc. rewrite elem_of_app, elem_of_cons. intros [H|[H|H]]; [|done|];
    revert H; by apply escape_avoids.
Qed.

(** The parameters, as the texts that are escaped. *)
Definition raw_params (d : DbCredentials) : list (string * string) :=
  if decide (dbSSLMode d = "disable") then [("sslmode", "disable")]
  else if decide (dbSSLMode d = "verify-ca" \/ dbSSLMode d = "verify-full") then
    [("sslcert", dbSSLCert d); ("sslkey", dbSSLKey d); ("sslmode", dbSSLMode d);
     ("sslrootcert", dbSSLRootCert d)]
  else [].

Lemma params_of_raw d : params_of d = (fun kv => (s2b kv.1, s2b kv.2)) <$> raw_params d.
Proof. unfold params_of, raw_params. by repeat case_decide. Qed.

Lemma join_amp_bytes l : s2b (join_amp l) = join_bytes "&" (s2b <$> l).
Proof.
  destruct l as [|x l]; [done|]. revert x. induction l as [|y l IH]; intros x.
  - simpl. by rewrite app_nil_r.
  - change (join_amp (x :: y :: l)) with (x +:+ "&" +:+ join_amp (y :: l)).
    rewrite !s2b_app, IH. done.
Qed.

(** Four parameters, in the order of their keys. *)
Lemma sorted_verify m c k r :
  sort_keys (Set_ (Set_ (Set_ (Set_ [] "sslmode" m) "sslcert" c) "sslkey" k) "sslrootcert" r) =
  [("sslcert", [c]); ("sslkey", [k]); ("sslmode", [m]); ("sslrootcert", [r])].
Proof. reflexivity. Qed.

Lemma Encode_text d : s2b (Encode (ssl_values d)) = join_bytes "&" (param_text <$> raw_params d).
Proof.
  assert (forall k v, s2b (QueryEscape k +:+ "=" +:+ QueryEscape v) = param_text (k, v)) as Hp.
  { intros k v. rewrite !s2b_app. unfold QueryEscape. by rewrite !s2b_escape. }
  unfold ssl_values, raw_params, Encode. rewrite join_amp_bytes. f_equal.
  destruct (decide (dbSSLMode d = "disable")) as [E|E].
  - rewrite decide_False by (rewrite E; by intros [?|?]). exact (f_equal (fun x => [x]) (Hp _ _)).
  - case_decide; [|done]. rewrite sorted_verify. cbn [concat fmap list_fmap fst snd app]. by rewrite !Hp.
Qed.

Lemma query_text_reads d :
  query_text d = [] /\ raw_params d = [] \/
  exists q, query_text d = "?"%char :: q /\
    mapM read_param (split "&" (S (length q)) q) = Some (params_of d).
Proof.
  unfold query_text. rewrite Encode_text.
  destruct (raw_params d) as [|kv l] eqn:E; [by left|]. rewrite <- E.
  destruct (join_bytes "&" (param_text <$> raw_params d)) as [|a q] eqn:Eq.
  { exfalso. rewrite E in Eq. simpl in Eq. apply app_nil in Eq as [Eq _].
    by apply app_nil in Eq as [_ ?]. }
  right. exists (a :: q). split; [done|]. rewrite <- Eq.
  rewrite split_join; [|by rewrite E| |].
  - rewrite params_of_raw. apply mapM_Some. apply Forall2_fmap_l, Forall2_fmap_r.
    apply Forall_Forall2_diag, Forall_true. intros x. apply read_param_text.
  - apply Forall_fmap, Forall_true. intros x. apply param_text_amp.
  - apply length_join.
Qed.

(** ** Cutting a connection string *)

Lemma cut_opt sep a rest :
  sep ∉ a -> cut sep (a ++ match rest with Some b => sep :: b | None => [] end) = (a, rest).
Proof. intros Hs. destruct rest; [by apply cut_app|]. rewrite app_nil_r. by apply cut_none. Qed.

Lemma read_conn_parts eu u eh (path query : option bytes) p params :
  ("?"%char ∉ eu ++ "@"%char :: eh ++ match path with Some b => "/"%char :: b | None => [] end) ->
  ("/"%char ∉ eu ++ "@"%char :: eh) -> ("@"%char ∉ eu) ->
  unescape_bytes encodeUserPassword eu = Some u ->
  match path with Some b => unescape_bytes encodePath ("/"%char :: b) | None => Some [] end = Some p ->
  match query with Some q => mapM read_param (split "&" (S (length q)) q) | None => Some [] end
    = Some params ->
  read_conn (s2b "postgres://" ++ (eu ++ "@"%char :: eh ++ match path with Some b => "/"%char :: b | None => [] end)
    ++ match query with Some q => "?"%char :: q | None => [] end) = Some (MkConn u eh p params).
Proof.
  intros Hq Hs Ha Hu Hp Hpar. unfold read_conn.
  rewrite take_app_length' by done. rewrite decide_True by done. rewrite drop_app_length' by done.
  rewrite cut_opt by done.
  assert (eu ++ "@"%char :: eh ++ match path with Some b => "/"%char :: b | None => [] end =
    (eu ++ "@"%char :: eh) ++ match path with Some b => "/"%char :: b | None => [] end) as ->
    by (by rewrite <- (assoc_L (++))).
  rewrite cut_opt by done. rewrite cut_app by done. by rewrite Hu, Hp, Hpar.
Qed.

(** The optional parts of a connection string. *)
Lemma path_text_opt dbName : exists path,
  path_text dbName = match path with Some b => "/"%char :: b | None => [] end /\
  match path with Some b => unescape_bytes encodePath ("/"%char :: b) | None => Some [] end
    = Some (path_of dbName).
Proof.
  destruct (path_text_cases dbName) as (_ & Hp & [Hn|[p Hc]]).
  - exists None. rewrite Hn in Hp. simpl in Hp. done.
  - exists (Some p). by rewrite <- Hc.
Qed.

Lemma query_text_opt d : exists query,
  query_text d = match query with Some q => "?"%char :: q | None => [] end /\
  match query with Some q => mapM read_param (split "&" (S (length q)) q) | None => Some [] end
    = Some (params_of d).
Proof.
  destruct (query_text_reads d) as [[Hn He]|(q & Hq & Hr)].
  - exists None. split; [done|]. by rewrite params_of_raw, He.
  - by exists (Some q).
Qed.

(** ** Theorems *)

Lemma read_conn_ConnStr d dbName :
  read_conn (s2b (ConnStrForDb d dbName)) =
  Some (MkConn (s2b (dbUser d)) (esc encodeHost (host_of d)) (path_of dbName) (params_of d)).
Proof.
  rewrite ConnStrForDb_shape. destruct (path_text_cases dbName) as (Hpq & _ & _).
  destruct (path_text_opt dbName) as (path & Ep & Hp). rewrite Ep in *.
  destruct (query_text_opt d) as (query & -> & Hq). unfold esc.
  pose proof (read_conn_parts (concat (escape_byte encodeUserPassword <$> s2b (dbUser d))) (s2b (dbUser d))
    (concat (escape_byte encodeHost <$> s2b (host_of d))) path query (path_of dbName) (params_of d)) as H.
  rewrite <- !(assoc_L (++)) in H. cbn [app] in H. rewrite <- !(assoc_L (++)) in H.
  apply H; clear H; [| | |by apply unescape_escape_bytes|done|done].
  - rewrite !elem_of_app, elem_of_cons, elem_of_app.
    intros [E|[E|[E|E]]]; [|done| |by apply Hpq]; revert E; by apply escape_avoids.
  - rewrite !elem_of_app, elem_of_cons.
    intros [E|[E|E]]; [|done|]; revert E; by apply escape_avoids.
  - by apply escape_avoids.
Qed.

(** C12: whatever the settings and the name hold, the connection string is read back
    as exactly the user, the escaped host and port, the name as a path, and the SSL
    settings: no character of one part can spill into another. *)
Theorem ConnStrForDb_reads d dbName :
  read_conn (s2b (ConnStrForDb d dbName)) =
  Some (MkConn (s2b (dbUser d)) (esc encodeHost (host_of d)) (path_of dbName) (params_of d)).
Proof. apply read_conn_ConnStr. Qed.

Lemma path_of_inj a b :
  starts_with_slash a = false -> starts_with_slash b = false -> path_of a = path_of b -> a = b.
Proof.
  unfold starts_with_slash, path_of. intros Ha Hb E. apply s2b_inj.
  destruct (s2b a) as [|x s], (s2b b) as [|y t]; repeat case_decide; simplify_eq; done.
Qed.

(** Two different database names without a leading slash never have the same
    connection string. *)
Theorem ConnStrForDb_inj d a b :
  starts_with_slash a = false -> starts_with_slash b = false ->
  ConnStrForDb d a = ConnStrForDb d b -> a = b.
Proof.
  intros Ha Hb H. pose proof (read_conn_ConnStr d a) as Hr. rewrite H, read_conn_ConnStr in Hr.
  apply path_of_inj; [done..|]. by inversion Hr.
Qed.

(** C40: a leading slash is lost: the database "/x" gets the connection string of the
    database "x". *)
Theorem ConnStrForDb_slash d c s :
  c <> "/"%char -> c <> "*"%char ->
  ConnStrForDb d (b2s ("/"%char :: c :: s)) = ConnStrForDb d (b2s (c :: s)).
Proof.
  intros Hc Hs. apply s2b_inj. rewrite !ConnStrForDb_shape.
  enough (path_text (b2s ("/"%char :: c :: s)) = path_text (b2s (c :: s))) as -> by done.
  unfold path_text, EscapedPath.
  assert (b2s (c :: s) <> "*") as H1 by (intros E; apply (f_equal s2b) in E; rewrite s2b_b2s in E; by simplify_eq/=).
  rewrite (decide_False (P := b2s (c :: s) = "*")), (decide_False (P := b2s (_ :: c :: s) = "*")) by done.
  rewrite !s2b_escape, !s2b_b2s. cbn [fmap list_fmap concat].
  destruct (escape_byte_cons encodePath c) as (a & l & Ea). rewrite Ea. cbn.
  rewrite decide_False; [done|]. intros ->. apply Hc, escape_path_head. by exists l.
Qed.

Lemma ConnStrForDb_slash_witness :
  ConnStrForDb (test_credentials "disable") "/app" = ConnStrForDb (test_credentials "disable") "app".
Proof. exact (ConnStrForDb_slash (test_credentials "disable") "a" (s2b "pp") ltac:(done) ltac:(done)). Defined.

Section validation.
Context `{FS : FileSystem}.

Definition verifies (mode : string) : Prop := mode = "verify-ca" \/ mode = "verify-full".

Lemma NewCredentials_inr c d :
  NewCredentials c = inr d <->
  d = Config_DbCredentials c /\
  (verifies (dbSSLMode d) -> Forall (fun path => path <> "" /\ os_Stat path = None)
     [dbSSLCert d; dbSSLKey d; dbSSLRootCert d]).
Proof.
  unfold NewCredentials, isValidSSLSettings, verifies. destruct c as [la ll d0]. cbn [Config_DbCredentials].
  rewrite !Forall_cons, Forall_nil.
  repeat case_bool_decide; cbn -[os_Stat]; repeat case_match; split; intros; split_hyps;
    simplify_eq; try done; try (by intuition congruence); split; intuition congruence.
Qed.

(** NewCredentials accepts the settings exactly if the mode is not one of the two
    verifying modes, or all three files are named and exist; and then returns them
    unchanged. *)
Theorem NewCredentials_ok c d :
  NewCredentials c = inr d <->
  d = Config_DbCredentials c /\
  (verifies (dbSSLMode d) -> Forall (fun path => path <> "" /\ os_Stat path = None)
     [dbSSLCert d; dbSSLKey d; dbSSLRootCert d]).
Proof. apply NewCredentials_inr. Qed.

(** The error for a file that os.Stat fails on. *)
Definition stat_error (path : string) (err : error) : error :=
  if os_IsNotExist err then Errorf "SSL certificate file not found: %s" [AStr path]
  else Errorf "cannot access: %w" [AErr err].

Lemma check_paths paths e :
  (fix loop (paths : list string) : option error :=
     match paths with
     | [] => None
     | path :: paths =>
         match os_Stat path with
         | Some err =>
             if os_IsNotExist err
             then Some (Errorf "SSL certificate file not found: %s" [AStr path])
             else Some (Errorf "cannot access: %w" [AErr err])
         | None => loop paths
         end
     end) paths = Some e <->
  exists before path after err, paths = before ++ path :: after /\
    Forall (fun p => os_Stat p = None) before /\ os_Stat path = Some err /\ e = stat_error path err.
Proof.
  induction paths as [|p paths IH].
  - split; [done|]. by intros ([|? ?] & ? & ? & ? & ? & _).
  - destruct (os_Stat p) as [err|] eqn:Ep.
    + unfold stat_error. split.
      * intros H. exists [], p, paths, err. split; [done|]. split; [done|]. split; [done|].
        by destruct (os_IsNotExist err); simplify_eq.
      * intros ([|b before] & path & after & err' & E & HF & Hp & ->); simplify_eq/=.
        -- by destruct (os_IsNotExist _).
        -- apply Forall_cons in HF as [HF _]. congruence.
    + rewrite IH. split.
      * intros (before & path & after & err & -> & HF & Hp & ->).
        exists (p :: before), path, after, err. split; [done|]. split; [by constructor|done].
      * intros ([|b before] & path & after & err & E & HF & Hp & ->); simplify_eq/=.
        apply Forall_cons in HF as [_ HF]. by exists before, path, after, err.
Qed.

(** The errors of the validation: a verifying mode with a file that is not named,
    else the first of the three files, in their order, that os.Stat fails on. *)
Theorem isValidSSLSettings_error sslmode cert key root e :
  isValidSSLSettings sslmode cert key root = Some e <->
  verifies sslmode /\
  ((cert = "" \/ key = "" \/ root = "") /\
     e = Errorf "SSL certificates required for verify-ca and verify-full modes" [] \/
   (cert <> "" /\ key <> "" /\ root <> "") /\
     exists before path after err, [cert; key; root] = before ++ path :: after /\
       Forall (fun p => os_Stat p = None) before /\ os_Stat path = Some err /\ e = stat_error path err).
Proof.
  unfold isValidSSLSettings, verifies. rewrite <- check_paths.
  generalize (fix loop (paths : list string) : option error :=
     match paths with
     | [] => None
     | path :: paths =>
         match os_Stat path with
         | Some err =>
             if os_IsNotExist err
             then Some (Errorf "SSL certificate file not found: %s" [AStr path])
             else Some (Errorf "cannot access: %w" [AErr err])
         | None => loop paths
         end
     end) as loop. intros loop.
  repeat case_bool_decide; simpl; intuition congruence.
Qed.

(** C39: for a mode that is neither disable nor one of the two verifying ones, such as
    require, the settings are accepted and the connection string says nothing about
    SSL. *)
Theorem sslmode_dropped c dbName :
  dbSSLMode (Config_DbCredentials c) <> "disable" -> ~ verifies (dbSSLMode (Config_DbCredentials c)) ->
  NewCredentials c = inr (Config_DbCredentials c) /\
  exists conn, read_conn (s2b (ConnStrForDb (Config_DbCredentials c) dbName)) = Some conn /\
    conn_params conn = [].
Proof.
  intros Hd Hv. split; [apply NewCredentials_inr; by split|].
  eexists. split; [apply read_conn_ConnStr|]. cbn. unfold params_of.
  rewrite decide_False by done. by rewrite decide_False by done.
Qed.
End validation.

Section log_level.
Context `{U : UnicodeLower}.

(** Debug, warn and error are recognised up to ASCII case and as nothing else;
    info up to the case mapping of the standard library; and every other text is an
    error that quotes it. *)
Theorem LogLevel_spec c r :
  LogLevel c = r <->
  match r with
  | inr LevelDebug => lower_ascii <$> s2b (logLevel c) = s2b "debug"
  | inr LevelInfo => ToLower (logLevel c) = "info"
  | inr LevelWarn => lower_ascii <$> s2b (logLevel c) = s2b "warn"
  | inr LevelError => lower_ascii <$> s2b (logLevel c) = s2b "error"
  | inl e => (ToLower (logLevel c) ∉ ["debug"; "info"; "warn"; "error"]) /\
      e = Errorf "log-level must be one of [debug, info, warn, error], got: %v" [AStr (logLevel c)]
  end.
Proof.
  assert (forall w, w = "debug" \/ w = "warn" \/ w = "error" ->
    lower_ascii <$> s2b (logLevel c) = s2b w <-> ToLower (logLevel c) = w) as Hw.
  { intros w Hw. symmetry. apply ToLower_eq; destruct Hw as [->|[->| ->]]; try done;
      intros Hin; repeat (apply elem_of_cons in Hin as [?|Hin]; [done|]); by apply not_elem_of_nil in Hin. }
  destruct r as [e|[]]; rewrite ?Hw by auto; rewrite ?not_elem_of_cons; unfold LogLevel;
    repeat case_decide; split; intros; split_hyps; simplify_eq; try done; try congruence.
  split; [|done]. do 4 (split; [done|]). apply not_elem_of_nil.
Qed.
End log_level.

(** ** Witnesses *)

Definition all_files : FileSystem := {| os_Stat := fun _ => None; os_IsNotExist := fun _ => false |}.

Lemma sslmode_dropped_witness :
  dbSSLMode (test_credentials "require") = "require" /\
  @NewCredentials all_files (MkConfig ":50051" "info" (test_credentials "require")) =
    inr (test_credentials "require").
Proof.
  split; [reflexivity|].
  exact (proj1 (@sslmode_dropped all_files (MkConfig ":50051" "info" (test_credentials "require")) "app"
    ltac:(discriminate) ltac:(intros [H|H]; discriminate H))).
Defined.
