(* ===== verification/Json.v ===== *)
(** * JSON text (package encoding/json, the scanner and the reader)

    [parse] is the syntax that json.Unmarshal accepts: RFC 8259 with Go's four blanks, its
    handling of escapes, surrogates and invalid UTF-8 inside strings, and its limit on
    nesting.  [print] is the text PostgreSQL gives for a jsonb value; the main
    theorem is that parsing it gives the value back. *)

From S2P Require Import Prelude GoStrings.

#[local] Set Warnings "-register-all".

Inductive json :=
| JNull
| JBool (b : bool)
| JNum (text : bytes)
| JStr (s : bytes)
| JArr (l : list json)
| JObj (l : list (bytes * json)).

(** ** Blanks, literals, numbers *)

Definition is_space (c : ascii) : bool :=
  (byte c =? 32) || (byte c =? 9) || (byte c =? 10) || (byte c =? 13).

Fixpoint skip_ws (s : bytes) : bytes :=
  match s with
  | c :: s' => if is_space c then skip_ws s' else s
  | [] => []
  end.

Fixpoint strip_word (w s : bytes) : option bytes :=
  match w, s with
  | [], _ => Some s
  | a :: w, c :: s => if decide (a = c) then strip_word w s else None
  | _ :: _, [] => None
  end.

Fixpoint take_digits (s : bytes) : bytes * bytes :=
  match s with
  | c :: s' => if is_digit c then let '(d, r) := take_digits s' in (c :: d, r) else ([], s)
  | [] => ([], [])
  end.

Definition digits1 (s : bytes) : option (bytes * bytes) :=
  match take_digits s with ([], _) => None | (d, r) => Some (d, r) end.

Definition is_exp (c : ascii) : bool := bool_decide (c = "e"%char) || bool_decide (c = "E"%char).
Definition is_sign (c : ascii) : bool := bool_decide (c = "+"%char) || bool_decide (c = "-"%char).

(** The integer part: 0, or digits that do not start with 0. *)
Definition int_part (s : bytes) : option (bytes * bytes) :=
  match s with
  | c :: s' => if decide (c = "0"%char) then Some ([c], s') else digits1 s
  | [] => None
  end.

Definition frac_part (s : bytes) : option (bytes * bytes) :=
  match s with
  | c :: s' => if decide (c = "."%char)
               then '(d, r) ← digits1 s'; Some (c :: d, r) else Some ([], s)
  | [] => Some ([], [])
  end.

Definition exp_part (s : bytes) : option (bytes * bytes) :=
  match s with
  | e :: s' =>
      if is_exp e then
        match s' with
        | c :: s'' => if is_sign c
                      then '(d, r) ← digits1 s''; Some (e :: c :: d, r)
                      else '(d, r) ← digits1 s'; Some (e :: d, r)
        | [] => None
        end
      else Some ([], s)
  | [] => Some ([], [])
  end.

Definition number (s : bytes) : option (bytes * bytes) :=
  let '(sign, s) := match s with
                    | c :: s' => if decide (c = "-"%char) then ([c], s') else ([], s)
                    | [] => ([], [])
                    end in
  '(i, s) ← int_part s;
  '(f, s) ← frac_part s;
  '(e, s) ← exp_part s;
  Some (sign ++ i ++ f ++ e, s).

(** ** Strings *)

Definition hex (c : ascii) : option Z :=
  if is_digit c then Some (zbyte c - 48)%Z
  else if in_range "a" "f" c then Some (zbyte c - 87)%Z
  else if in_range "A" "F" c then Some (zbyte c - 55)%Z
  else None.

Definition hex4 (s : bytes) : option (Z * bytes) :=
  match s with
  | a :: b :: c :: d :: s =>
      a ← hex a; b ← hex b; c ← hex c; d ← hex d;
      Some (4096 * a + 256 * b + 16 * c + d, s)%Z
  | _ => None
  end.

Definition is_surrogate (r : Z) : bool := ((55296 <=? r) && (r <? 57344))%Z.

(** utf16.DecodeRune *)
Definition utf16_pair (r1 r2 : Z) : Z :=
  if ((55296 <=? r1) && (r1 <? 56320) && (56320 <=? r2) && (r2 <? 57344))%Z
  then ((r1 - 55296) * 1024 + (r2 - 56320) + 65536)%Z else RuneError.

(** The rune of \uXXXX, after the u: a pair of surrogates is one rune, a lone one
    the replacement character. *)
Definition unicode_escape (s : bytes) : option (Z * bytes) :=
  '(r, s) ← hex4 s;
  if is_surrogate r then
    match s with
    | b :: u :: s' =>
        if decide (b = "\"%char /\ u = "u"%char) then
          match hex4 s' with
          | Some (r2, s'') =>
              if decide (utf16_pair r r2 = RuneError) then Some (RuneError, s)
              else Some (utf16_pair r r2, s'')
          | None => Some (RuneError, s)
          end
        else Some (RuneError, s)
    | _ => Some (RuneError, s)
    end
  else Some (r, s).

Definition simple_escape (c : ascii) : option ascii :=
  if decide (c = dquote \/ c = "\"%char \/ c = "/"%char) then Some c
  else if decide (c = "b"%char) then Some (ascii_of_nat 8)
  else if decide (c = "f"%char) then Some (ascii_of_nat 12)
  else if decide (c = "n"%char) then Some (ascii_of_nat 10)
  else if decide (c = "r"%char) then Some (ascii_of_nat 13)
  else if decide (c = "t"%char) then Some (ascii_of_nat 9)
  else None.

(** The characters of a string up to its closing quote. *)
Fixpoint chars (fuel : nat) (s : bytes) : option (bytes * bytes) :=
  match fuel with
  | 0 => None
  | S fuel =>
      match s with
      | [] => None
      | c :: s =>
          if decide (c = dquote) then Some ([], s)
          else if decide (c = "\"%char) then
            match s with
            | [] => None
            | e :: s =>
                if decide (e = "u"%char) then
                  '(r, s) ← unicode_escape s;
                  '(t, rest) ← chars fuel s; Some (encode_rune r ++ t, rest)
                else
                  a ← simple_escape e;
                  '(t, rest) ← chars fuel s; Some (a :: t, rest)
            end
          else if byte c <? 32 then None
          else
            let '(r, s) := decode_rune c s in
            '(t, rest) ← chars fuel s; Some (encode_rune r ++ t, rest)
      end
  end.

Definition string_lit (s : bytes) : option (bytes * bytes) := chars (S (length s)) s.

(** ** Values *)

(** scanner.go: const maxNestingDepth = 10000 *)
Definition maxNestingDepth : nat := 100 * 100.

Section bodies.
Variable value : nat -> bytes -> option (json * bytes).
Variable elements : nat -> bytes -> option (list json * bytes).
Variable members : nat -> bytes -> option (list (bytes * json) * bytes).

Definition value_body (depth : nat) (s : bytes) : option (json * bytes) :=
  match skip_ws s with
  | [] => None
  | c :: s' =>
      if decide (c = dquote) then '(t, r) ← string_lit s'; Some (JStr t, r)
      else if decide (c = "["%char) then
        if depth <? maxNestingDepth then
          match skip_ws s' with
          | d :: r => if decide (d = "]"%char) then Some (JArr [], r)
                      else '(l, r) ← elements (S depth) s'; Some (JArr l, r)
          | [] => None
          end
        else None
      else if decide (c = "{"%char) then
        if depth <? maxNestingDepth then
          match skip_ws s' with
          | d :: r => if decide (d = "}"%char) then Some (JObj [], r)
                      else '(l, r) ← members (S depth) s'; Some (JObj l, r)
          | [] => None
          end
        else None
      else if decide (c = "t"%char) then r ← strip_word (s2b "rue") s'; Some (JBool true, r)
      else if decide (c = "f"%char) then r ← strip_word (s2b "alse") s'; Some (JBool false, r)
      else if decide (c = "n"%char) then r ← strip_word (s2b "ull") s'; Some (JNull, r)
      else '(n, r) ← number (c :: s'); Some (JNum n, r)
  end.

Definition elements_body (depth : nat) (s : bytes) : option (list json * bytes) :=
  '(v, r) ← value depth s;
  match skip_ws r with
  | c :: r =>
      if decide (c = ","%char) then '(l, r) ← elements depth r; Some (v :: l, r)
      else if decide (c = "]"%char) then Some ([v], r)
      else None
  | [] => None
  end.

Definition members_body (depth : nat) (s : bytes) : option (list (bytes * json) * bytes) :=
  match skip_ws s with
  | q :: s =>
      if decide (q = dquote) then
        '(k, r) ← string_lit s;
        match skip_ws r with
        | c :: r =>
            if decide (c = ":"%char) then
              '(v, r) ← value depth r;
              match skip_ws r with
              | c :: r =>
                  if decide (c = ","%char) then '(l, r) ← members depth r; Some ((k, v) :: l, r)
                  else if decide (c = "}"%char) then Some ([(k, v)], r)
                  else None
              | [] => None
              end
            else None
        | [] => None
        end
      else None
  | [] => None
  end.
End bodies.

Fixpoint value (fuel depth : nat) (s : bytes) : option (json * bytes) :=
  match fuel with
  | 0 => None
  | S fuel => value_body (elements fuel) (members fuel) depth s
  end
with elements (fuel depth : nat) (s : bytes) : option (list json * bytes) :=
  match fuel with
  | 0 => None
  | S fuel => elements_body (value fuel) (elements fuel) depth s
  end
with members (fuel depth : nat) (s : bytes) : option (list (bytes * json) * bytes) :=
  match fuel with
  | 0 => None
  | S fuel => members_body (value fuel) (members fuel) depth s
  end.

(** A whole text: one value with blanks around it. *)
Definition parse (s : bytes) : option json :=
  '(v, r) ← value (2 * length s + 1) 0 s;
  match skip_ws r with [] => Some v | _ => None end.

#[global] Arguments maxNestingDepth : simpl never.

(** ** The text of a value, as PostgreSQL writes a jsonb *)

Definition lower_hex (n : nat) : ascii := if n <? 10 then ascii_of_nat (48 + n) else ascii_of_nat (87 + n).

Definition print_char (c : ascii) : bytes :=
  if decide (c = dquote \/ c = "\"%char) then ["\"%char; c]
  else if byte c =? 8 then s2b "\b"
  else if byte c =? 12 then s2b "\f"
  else if byte c =? 10 then s2b "\n"
  else if byte c =? 13 then s2b "\r"
  else if byte c =? 9 then s2b "\t"
  else if byte c <? 32
  then s2b "\u00" ++ [lower_hex (byte c / 16); lower_hex (byte c mod 16)]
  else [c].

Definition print_string (s : bytes) : bytes := dquote :: concat (print_char <$> s) ++ [dquote].

Fixpoint print_seq (l : list bytes) : bytes :=
  match l with
  | [] => []
  | [x] => x
  | x :: l => x ++ s2b ", " ++ print_seq l
  end.

Fixpoint print (v : json) : bytes :=
  match v with
  | JNull => s2b "null"
  | JBool true => s2b "true"
  | JBool false => s2b "false"
  | JNum t => t
  | JStr s => print_string s
  | JArr l => "["%char :: print_seq (print <$> l) ++ ["]"%char]
  | JObj l => "{"%char :: print_seq ((fun kv => print_string kv.1 ++ s2b ": " ++ print kv.2) <$> l) ++ ["}"%char]
  end.

(** Text that is valid UTF-8. *)
Definition utf8 (s : bytes) : Prop :=
  exists rs, Forall valid_rune rs /\ s = concat (encode_rune <$> rs).

Lemma utf8_ascii s : forallb is_ascii s = true -> utf8 s.
Proof.
  intros H. exists (zbyte <$> s). induction s as [|c s IH]; [by repeat constructor|].
  simpl in H. apply andb_true_iff in H as [Hc H]. destruct (IH H) as [Hv E].
  unfold is_ascii in Hc. apply Nat.ltb_lt in Hc. split.
  - constructor; [|exact Hv]. left. unfold zbyte. lia.
  - csimpl. rewrite <- E. unfold encode_rune, zbyte, zascii.
    destruct (Z.ltb_spec (Z.of_nat (byte c)) 0); [lia|]. destruct (Z.ltb_spec (Z.of_nat (byte c)) 128); [|lia].
    simpl. rewrite Nat2Z.id. unfold byte. by rewrite ascii_nat_embedding.
Qed.

(** ** Characters read back *)

(** One printed ASCII character is read as itself, as a computation. *)
Definition char_reads (c : ascii) : bool :=
  match print_char c with
  | [a] => bool_decide (a = c) && negb (bool_decide (c = dquote)) && negb (bool_decide (c = "\"%char))
           && negb (byte c <? 32)
  | [b; e] => bool_decide (b = "\"%char) && negb (bool_decide (e = "u"%char)) &&
              bool_decide (simple_escape e = Some c)
  | b :: u :: l => bool_decide (b = "\"%char) && bool_decide (u = "u"%char) &&
              (length l =? 4) &&
              bool_decide (fst <$> hex4 l = Some (zbyte c)) && bool_decide (snd <$> hex4 l = Some [])
  | _ => false
  end.

Lemma ascii_read_back c : byte c < 128 -> char_reads c = true.
Proof.
  intros Hc. rewrite <- (ascii_nat_embedding c). unfold byte in Hc.
  assert (forallb (fun n => char_reads (ascii_of_nat n)) (seq 0 128) = true) as Hall
    by (vm_compute; reflexivity).
  rewrite forallb_forall in Hall. apply Hall, in_seq. lia.
Qed.

Lemma hex4_app l s : length l = 4 -> hex4 (l ++ s) = '(r, t) ← hex4 l; Some (r, t ++ s).
Proof.
  destruct l as [|a [|b [|c [|d [|]]]]]; try done. intros _. simpl.
  destruct (hex a), (hex b), (hex c), (hex d); done.
Qed.

Lemma chars_ascii fuel c s t rest :
  byte c < 128 -> chars fuel s = Some (t, rest) ->
  chars (S fuel) (print_char c ++ s) = Some (c :: t, rest).
Proof.
  intros Hc Hs. pose proof (ascii_read_back c Hc) as H. unfold char_reads in H.
  destruct (print_char c) as [|a [|b [|d l]]]; [done|..].
  - repeat (apply andb_true_iff in H as [H ?]). apply bool_decide_eq_true in H as ->.
    repeat match goal with H : negb (bool_decide _) = true |- _ => apply negb_true_iff, bool_decide_eq_false in H end.
    cbn [app chars]. rewrite !decide_False by done.
    rewrite (proj1 (negb_true_iff _)) by done. rewrite decode_rune_low by done. cbn. rewrite Hs. cbn.
    unfold encode_rune, zbyte. destruct (Z.ltb_spec (Z.of_nat (byte c)) 0); [lia|].
    destruct (Z.ltb_spec (Z.of_nat (byte c)) 128); [|lia]. cbn. unfold zascii.
    rewrite Nat2Z.id. unfold byte. by rewrite ascii_nat_embedding.
  - repeat (apply andb_true_iff in H as [H ?]). apply bool_decide_eq_true in H as ->.
    repeat match goal with H : bool_decide _ = true |- _ => apply bool_decide_eq_true in H end.
    repeat match goal with H : negb (bool_decide _) = true |- _ => apply negb_true_iff, bool_decide_eq_false in H end.
    cbn [app chars]. repeat (case_decide; try congruence; try discriminate).
    match goal with H : simple_escape b = _ |- _ => rewrite H end. cbn. rewrite Hs. reflexivity.
  - repeat (apply andb_true_iff in H as [H ?]). apply bool_decide_eq_true in H as ->.
    repeat match goal with H : bool_decide _ = true |- _ => apply bool_decide_eq_true in H end. subst b.
    match goal with H : (length _ =? 4) = true |- _ => apply Nat.eqb_eq in H; rename H into Hl end.
    remember (d :: l) as dl eqn:Edl. clear Edl.
    destruct (hex4 dl) as [[r t']|] eqn:E; [|done]. simplify_eq/=.
    cbn [app chars]. repeat (case_decide; try congruence; try discriminate).
    unfold unicode_escape. rewrite hex4_app, E by done. cbn.
    assert (is_surrogate (zbyte c) = false) as -> by (unfold is_surrogate, zbyte; lia).
    cbn. rewrite Hs. cbn.
    unfold encode_rune, zbyte. destruct (Z.ltb_spec (Z.of_nat (byte c)) 0); [lia|].
    destruct (Z.ltb_spec (Z.of_nat (byte c)) 128); [|lia]. cbn. unfold zascii.
    rewrite Nat2Z.id. unfold byte. by rewrite ascii_nat_embedding.
Qed.

Lemma print_char_high c : 128 <= byte c -> print_char c = [c].
Proof.
  intros Hc. unfold print_char. rewrite decide_False.
  - repeat match goal with |- context [byte c =? ?n] => destruct (Nat.eqb_spec (byte c) n); [lia|] end.
    destruct (Nat.ltb_spec (byte c) 32); [lia|done].
  - intros [->| ->]; cbv in Hc; lia.
Qed.

Lemma print_chars_high l : Forall (fun a => 128 <= byte a) l -> concat (print_char <$> l) = l.
Proof. induction 1 as [|c l Hc _ IH]; [done|]. csimpl. by rewrite print_char_high, IH. Qed.

Lemma chars_rune fuel r s t rest :
  valid_rune r -> chars fuel s = Some (t, rest) ->
  chars (S fuel) (concat (print_char <$> encode_rune r) ++ s) = Some (encode_rune r ++ t, rest).
Proof.
  intros Hv Hs. destruct (Z.ltb_spec r 128) as [Hlow|Hhigh].
  - assert (0 <= r)%Z by (unfold valid_rune in Hv; lia).
    assert (encode_rune r = [zascii r]) as ->.
    { unfold encode_rune. destruct (Z.ltb_spec r 0); [lia|]. by destruct (Z.ltb_spec r 128); [|lia]. }
    cbn [fmap list_fmap concat]. rewrite app_nil_r. apply chars_ascii; [|done].
    rewrite byte_zascii by lia. lia.
  - destruct (decode_encode r s Hv Hhigh) as (c & l & E & Hd & HF). rewrite E.
    rewrite print_chars_high by done. cbn [app chars]. apply Forall_cons in HF as [Hc _].
    rewrite !decide_False by (intros ->; cbv in Hc; lia).
    destruct (Nat.ltb_spec (byte c) 32); [lia|]. rewrite Hd. cbn. rewrite Hs. cbn. by rewrite E.
Qed.

Lemma chars_utf8 rs fuel rest :
  Forall valid_rune rs -> length rs < fuel ->
  chars fuel (concat (print_char <$> concat (encode_rune <$> rs)) ++ dquote :: rest) =
  Some (concat (encode_rune <$> rs), rest).
Proof.
  intros HF. revert fuel. induction HF as [|r rs Hr HF IH]; intros fuel Hl.
  - destruct fuel; [simpl in Hl; lia|]. done.
  - destruct fuel as [|fuel]; [simpl in Hl; lia|]. cbn [fmap list_fmap concat].
    rewrite fmap_app, concat_app, <- (assoc_L (++)). apply chars_rune; [done|].
    apply IH. simpl in Hl. lia.
Qed.

Lemma encode_rune_length r : 1 <= length (encode_rune r).
Proof. unfold encode_rune. repeat case_match; simpl; lia. Qed.

Lemma print_char_length c : 1 <= length (print_char c).
Proof. unfold print_char. repeat case_match; simpl; lia. Qed.

Lemma print_chars_length s : length s <= length (concat (print_char <$> s)).
Proof.
  induction s as [|c s IH]; [done|]. csimpl. rewrite length_app. pose proof (print_char_length c). lia.
Qed.

Lemma runes_length rs : length rs <= length (concat (encode_rune <$> rs)).
Proof.
  induction rs as [|r rs IH]; [done|]. csimpl. rewrite length_app. pose proof (encode_rune_length r). lia.
Qed.

Lemma string_lit_print s rest :
  utf8 s -> string_lit (concat (print_char <$> s) ++ dquote :: rest) = Some (s, rest).
Proof.
  intros (rs & HF & ->). apply chars_utf8; [done|]. rewrite length_app. simpl.
  pose proof (print_chars_length (concat (encode_rune <$> rs))). pose proof (runes_length rs). lia.
Qed.

(** ** Numbers read back *)

(** What may follow a number. *)
Definition stops (s : bytes) : Prop :=
  match s with
  | c :: _ => is_digit c = false /\ c <> "."%char /\ is_exp c = false
  | [] => True
  end.

Definition is_number (t : bytes) : Prop := number t = Some (t, []).

Lemma take_digits_app s rest d r :
  take_digits s = (d, r) -> stops rest -> take_digits (s ++ rest) = (d, r ++ rest).
Proof.
  revert d r. induction s as [|c s IH]; simpl; intros d r H Hr.
  - simplify_eq. destruct rest as [|c rest]; [done|]. simpl. destruct Hr as [Hc _]. by rewrite Hc.
  - destruct (is_digit c); [|by simplify_eq]. destruct (take_digits s) as [d' r']. simplify_eq.
    by rewrite (IH _ _ eq_refl Hr).
Qed.

Lemma digits1_app s rest d r :
  digits1 s = Some (d, r) -> stops rest -> digits1 (s ++ rest) = Some (d, r ++ rest).
Proof.
  unfold digits1. destruct (take_digits s) as [d' r'] eqn:E. intros H Hr.
  rewrite (take_digits_app _ _ _ _ E Hr). destruct d'; by simplify_eq.
Qed.

Lemma int_part_app s rest d r :
  int_part s = Some (d, r) -> stops rest -> int_part (s ++ rest) = Some (d, r ++ rest).
Proof.
  destruct s as [|c s]; [done|]. unfold int_part. cbn [app]. case_decide; [by intros; simplify_eq|].
  apply (digits1_app (c :: s)).
Qed.

Lemma frac_part_app s rest d r :
  frac_part s = Some (d, r) -> stops rest -> frac_part (s ++ rest) = Some (d, r ++ rest).
Proof.
  destruct s as [|c s]; simpl.
  - intros [= <- <-]. destruct rest as [|c rest]; [done|]. intros (_ & Hc & _). simpl. by rewrite decide_False.
  - case_decide; [|by intros; simplify_eq]. destruct (digits1 s) as [[d' r']|] eqn:E; [|done].
    intros [= <- <-] Hr. by rewrite (digits1_app _ _ _ _ E Hr).
Qed.

Lemma exp_part_app s rest d r :
  exp_part s = Some (d, r) -> stops rest -> exp_part (s ++ rest) = Some (d, r ++ rest).
Proof.
  destruct s as [|e s]; simpl.
  - intros [= <- <-]. destruct rest as [|c rest]; [done|]. intros (_ & _ & Hc). simpl. by rewrite Hc.
  - destruct (is_exp e); [|by intros; simplify_eq]. destruct s as [|c s]; [done|]. cbn [app].
    destruct (is_sign c).
    + destruct (digits1 s) as [[d' r']|] eqn:E; [|done].
      intros [= <- <-] Hr. by rewrite (digits1_app _ _ _ _ E Hr).
    + destruct (digits1 (c :: s)) as [[d' r']|] eqn:E; [|done].
      intros [= <- <-] Hr. change (c :: s ++ rest) with ((c :: s) ++ rest).
      by rewrite (digits1_app _ _ _ _ E Hr).
Qed.

Lemma number_app t rest : is_number t -> stops rest -> number (t ++ rest) = Some (t, rest).
Proof.
  unfold is_number, number. intros H Hr.
  assert (exists sign s, t = sign ++ s /\ (forall rest, match t ++ rest with
    | c :: s' => if decide (c = "-"%char) then ([c], s') else ([], t ++ rest)
    | [] => ([], []) end = (sign, s ++ rest))) as (sign & s & -> & Hs).
  { destruct t as [|c t]; [done|]. destruct (decide (c = "-"%char)) as [->|Hc].
    - exists ["-"%char], t. done.
    - exists [], (c :: t). split; [done|]. intros. cbn. by rewrite decide_False. }
  pose proof (Hs []) as Hs0. rewrite !app_nil_r in Hs0. rewrite Hs0 in H. rewrite Hs.
  destruct (int_part s) as [[i s1]|] eqn:E1; [|done]. simpl in H.
  destruct (frac_part s1) as [[f s2]|] eqn:E2; [|done]. simpl in H.
  destruct (exp_part s2) as [[e s3]|] eqn:E3; [|done]. simpl in H. simplify_eq.
  rewrite (int_part_app _ _ _ _ E1 Hr). cbn. rewrite (frac_part_app _ _ _ _ E2 Hr). cbn.
  rewrite (exp_part_app _ _ _ _ E3 Hr). cbn. congruence.
Qed.

(** ** Values read back *)

Section json_ind.
Variable P : json -> Prop.
Hypothesis Hnull : P JNull.
Hypothesis Hbool : forall b, P (JBool b).
Hypothesis Hnum : forall t, P (JNum t).
Hypothesis Hstr : forall s, P (JStr s).
Hypothesis Harr : forall l, Forall P l -> P (JArr l).
Hypothesis Hobj : forall l, Forall (fun kv => P kv.2) l -> P (JObj l).

Fixpoint json_nested_ind (v : json) : P v :=
  match v with
  | JNull => Hnull
  | JBool b => Hbool b
  | JNum t => Hnum t
  | JStr s => Hstr s
  | JArr l => Harr l ((fix all l := match l return Forall P l with
      | [] => List.Forall_nil P
      | x :: l => List.Forall_cons P x l (json_nested_ind x) (all l)
      end) l)
  | JObj l => Hobj l ((fix all l := match l return Forall (fun kv => P kv.2) l with
      | [] => List.Forall_nil (fun kv => P kv.2)
      | kv :: l => List.Forall_cons (fun kv => P kv.2) kv l (json_nested_ind kv.2) (all l)
      end) l)
  end.
End json_ind.

(** Numbers are numbers, text is UTF-8, and the nesting is within the limit. *)
Inductive wf : nat -> json -> Prop :=
| wf_null d : wf d JNull
| wf_bool d b : wf d (JBool b)
| wf_num d t : is_number t -> wf d (JNum t)
| wf_str d s : utf8 s -> wf d (JStr s)
| wf_arr d l : d < maxNestingDepth -> Forall (wf (S d)) l -> wf d (JArr l)
| wf_obj d l : d < maxNestingDepth -> Forall (fun kv => utf8 kv.1 /\ wf (S d) kv.2) l -> wf d (JObj l).

(** Fuel that is enough to read [print v]. *)
Fixpoint need (v : json) : nat :=
  match v with
  | JArr l => S (foldr (fun x n => S (need x `max` n)) 0 l)
  | JObj l => S (foldr (fun kv n => S (need kv.2 `max` n)) 0 l)
  | _ => 1
  end.

Lemma number_start t : is_number t -> exists c l, t = c :: l /\ (c = "-"%char \/ is_digit c = true).
Proof.
  unfold is_number, number. destruct t as [|c t]; [done|]. intros H. exists c, t. split; [done|].
  destruct (decide (c = "-"%char)) as [->|]; [by left|right].
  cbn in H. unfold digits1 in H. cbn in H. case_decide as Hc; [subst; done|].
  destruct (is_digit c); [done|]. done.
Qed.

Definition value_start (c : ascii) : bool :=
  negb (is_space c) && negb (bool_decide (c = "]"%char)) && negb (bool_decide (c = "}"%char)).

Lemma print_start d v : wf d v -> exists c l, print v = c :: l /\ value_start c = true.
Proof.
  destruct 1 as [|d b|d t Ht|d s Hs|d l _ _|d l _ _]; [by eexists _, _| |..|by eexists _, _|by eexists _, _].
  - destruct b; by eexists _, _.
  - destruct (number_start t Ht) as (c & l & -> & [->|Hc]); eexists _, _; (split; [done|]); [done|].
    clear -Hc. by destruct c as [[] [] [] [] [] [] [] []].
  - by eexists _, _.
Qed.

Definition reads (v : json) : Prop := forall d fuel rest,
  wf d v -> stops rest -> need v <= fuel -> value fuel d (print v ++ rest) = Some (v, rest).

Lemma value_start_skip c l : value_start c = true -> skip_ws (c :: l) = c :: l.
Proof.
  unfold value_start. intros H. apply andb_true_iff in H as [H _]. apply andb_true_iff in H as [H _].
  simpl. by destruct (is_space c).
Qed.

Lemma elements_blank fuel d s : elements fuel d (" "%char :: s) = elements fuel d s.
Proof. destruct fuel as [|[|fuel]]; done. Qed.

Lemma members_blank fuel d s : members fuel d (" "%char :: s) = members fuel d s.
Proof. by destruct fuel. Qed.

Lemma skip_sep s : skip_ws (s2b ", " ++ s) = ","%char :: " "%char :: s.
Proof. done. Qed.

Lemma elements_reads l d fuel rest :
  l <> [] -> Forall (fun v => reads v /\ wf d v) l ->
  foldr (fun x n => S (need x `max` n)) 0 l <= fuel ->
  elements fuel d (print_seq (print <$> l) ++ "]"%char :: rest) = Some (l, rest).
Proof.
  intros Hne HF. revert fuel. induction HF as [|v l [Hv Hw] HF IH]; [done|]. intros [|fuel] Hf; simpl in Hf; [lia|].
  destruct l as [|v2 l].
  - cbn [fmap list_fmap print_seq elements]. unfold elements_body. rewrite Hv; [done|done|done|lia].
  - change (print_seq (print <$> v :: v2 :: l)) with (print v ++ s2b ", " ++ print_seq (print <$> v2 :: l)).
    rewrite <- !(assoc_L (++)). cbn [elements]. unfold elements_body. rewrite Hv; [|done|done|lia].
    cbn [mbind option_bind]. rewrite skip_sep, decide_True, elements_blank by done.
    rewrite IH; [done|done|lia].
Qed.

Definition print_member (kv : bytes * json) : bytes := print_string kv.1 ++ s2b ": " ++ print kv.2.

Lemma print_string_app k rest :
  print_string k ++ rest = dquote :: concat (print_char <$> k) ++ dquote :: rest.
Proof. unfold print_string. cbn [app]. by rewrite <- (assoc_L (++)). Qed.

Lemma skip_colon s : skip_ws (s2b ": " ++ s) = ":"%char :: " "%char :: s.
Proof. done. Qed.

Lemma skip_quote s : skip_ws (dquote :: s) = dquote :: s.
Proof. done. Qed.

Lemma value_blank fuel d s : value fuel d (" "%char :: s) = value fuel d s.
Proof. by destruct fuel. Qed.

(** A member and what follows it. *)
Lemma members_cons kv d fuel s :
  utf8 kv.1 -> reads kv.2 -> wf d kv.2 -> stops s -> need kv.2 <= fuel ->
  members (S fuel) d (print_member kv ++ s) =
    match skip_ws s with
    | c :: r =>
        if decide (c = ","%char) then '(l, r) ← members fuel d r; Some (kv :: l, r)
        else if decide (c = "}"%char) then Some ([kv], r)
        else None
    | [] => None
    end.
Proof.
  destruct kv as [k v]. simpl fst. simpl snd. intros Hk Hv Hw Hs Hf. unfold print_member. simpl fst. simpl snd.
  rewrite <- (assoc_L (++)), print_string_app. cbn [members]. unfold members_body. rewrite skip_quote, decide_True by done.
  rewrite string_lit_print by done. cbn [mbind option_bind].
  rewrite <- (assoc_L (++)), skip_colon, decide_True, value_blank by done. by rewrite Hv.
Qed.

Lemma members_reads l d fuel rest :
  l <> [] -> Forall (fun kv => utf8 kv.1 /\ reads kv.2 /\ wf d kv.2) l ->
  foldr (fun kv n => S (need kv.2 `max` n)) 0 l <= fuel ->
  members fuel d (print_seq (print_member <$> l) ++ "}"%char :: rest) = Some (l, rest).
Proof.
  intros Hne HF. revert fuel. induction HF as [|kv l (Hk & Hv & Hw) HF IH]; [done|].
  intros [|fuel] Hf; simpl in Hf; [lia|]. destruct l as [|kv2 l].
  - cbn [fmap list_fmap print_seq]. rewrite members_cons; [done|done|done|done|done|lia].
  - change (print_seq (print_member <$> kv :: kv2 :: l))
      with (print_member kv ++ s2b ", " ++ print_seq (print_member <$> kv2 :: l)).
    rewrite <- !(assoc_L (++)), members_cons; [|done|done|done|done|lia].
    rewrite skip_sep, decide_True, members_blank by done. rewrite IH; [done|done|lia].
Qed.

Lemma print_arr_start d x l : wf d x ->
  exists c t, print_seq (print <$> x :: l) = c :: t /\ value_start c = true.
Proof.
  intros Hw. destruct (print_start _ _ Hw) as (c & t & E & Hc). csimpl.
  destruct (print <$> l); rewrite E; by eexists _, _.
Qed.

Lemma print_obj_start kv l : exists t, print_seq (print_member <$> kv :: l) = dquote :: t.
Proof. csimpl. destruct (print_member <$> l); by eexists. Qed.

Lemma value_start_not c a : value_start c = true -> value_start a = false -> c <> a.
Proof. intros H1 H2 ->. congruence. Qed.

Lemma reads_number t : reads (JNum t).
Proof.
  intros d fuel rest Hw Hr Hf. inversion Hw as [| |? ? Ht| | |]; subst. destruct fuel as [|fuel]; [simpl in Hf; lia|].
  destruct (number_start t Ht) as (c & l & -> & Hc). cbn [print app value]. unfold value_body.
  assert (forall a, is_digit a = false -> a <> "-"%char -> c <> a) as Hne.
  { intros a Ha Hm ->. destruct Hc; congruence. }
  assert (skip_ws (c :: l ++ rest) = c :: l ++ rest) as ->.
  { simpl. assert (is_space c = false) as ->; [|done].
    destruct Hc as [->|Hc]; [done|]. clear -Hc. by destruct c as [[] [] [] [] [] [] [] []]. }
  rewrite !decide_False by (by apply Hne).
  change (c :: l ++ rest) with ((c :: l) ++ rest). by rewrite (number_app _ _ Ht Hr).
Qed.

Lemma skip_open c s : c = "["%char \/ c = "{"%char -> skip_ws (c :: s) = c :: s.
Proof. by intros [->| ->]. Qed.

Lemma reads_array l : Forall reads l -> reads (JArr l).
Proof.
  intros HF d fuel rest Hw _ Hf. inversion Hw as [| | | |? ? Hd Hl|]; subst.
  destruct fuel as [|fuel]; cbn [need] in Hf; [lia|]. cbn [print app value]. unfold value_body.
  rewrite skip_open by auto. rewrite decide_False, decide_True by done.
  rewrite (proj2 (Nat.ltb_lt _ _) Hd). rewrite <- (assoc_L (++)).
  destruct l as [|x l]; [done|].
  destruct (print_arr_start (S d) x l) as (c & t & E & Hc); [by apply Forall_cons in Hl as [? _]|].
  assert (elements fuel (S d) (print_seq (print <$> x :: l) ++ "]"%char :: rest) = Some (x :: l, rest)) as He.
  { apply elements_reads; [done| |lia]. by apply Forall_and. }
  rewrite E in *. cbn [app] in *. rewrite value_start_skip by done.
  rewrite decide_False by (by apply value_start_not). by rewrite He.
Qed.

Lemma reads_object l : Forall (fun kv => reads kv.2) l -> reads (JObj l).
Proof.
  intros HF d fuel rest Hw _ Hf. inversion Hw as [| | | | |? ? Hd Hl]; subst.
  destruct fuel as [|fuel]; cbn [need] in Hf; [lia|]. cbn [print app value]. unfold value_body.
  rewrite skip_open by auto. rewrite (decide_False (P := "{"%char = dquote)) by done.
  rewrite (decide_False (P := "{"%char = "["%char)), decide_True by done.
  rewrite (proj2 (Nat.ltb_lt _ _) Hd). rewrite <- (assoc_L (++)).
  change (fun kv => print_string kv.1 ++ s2b ": " ++ print kv.2) with print_member.
  destruct l as [|x l]; [done|]. destruct (print_obj_start x l) as (t & E).
  assert (members fuel (S d) (print_seq (print_member <$> x :: l) ++ "}"%char :: rest) = Some (x :: l, rest)) as He.
  { apply members_reads; [done| |lia]. eapply Forall_impl; [apply Forall_and; split; [exact HF|exact Hl]|].
    intros kv (? & ? & ?). done. }
  rewrite E in *. cbn [app] in *. rewrite skip_quote, decide_False by done. by rewrite He.
Qed.

Lemma all_read v : reads v.
Proof.
  induction v as [| [] |t|s|l IH|l IH] using json_nested_ind; [..|by apply reads_array|by apply reads_object].
  - intros d [|fuel] rest Hw _ Hf; simpl in Hf; [lia|done].
  - intros d [|fuel] rest Hw _ Hf; simpl in Hf; [lia|done].
  - intros d [|fuel] rest Hw _ Hf; simpl in Hf; [lia|done].
  - apply reads_number.
  - intros d [|fuel] rest Hw _ Hf; simpl in Hf; [lia|]. inversion Hw; subst. cbn [print].
    rewrite print_string_app. cbn [value]. unfold value_body. rewrite skip_quote, decide_True by done.
    by rewrite string_lit_print.
Qed.

(** The fuel of [parse] is enough. *)
Lemma length_print_seq l : length (concat l) + length l <= S (length (print_seq l)).
Proof.
  induction l as [|x l IH]; [simpl; lia|]. destruct l as [|y l].
  - simpl. rewrite app_nil_r. lia.
  - change (print_seq (x :: y :: l)) with (x ++ s2b ", " ++ print_seq (y :: l)).
    rewrite !length_app. change (length (s2b ", ")) with 2. cbn [concat length] in *.
    rewrite length_app. lia.
Qed.

Lemma need_seq {A} (f : A -> bytes) (n : A -> nat) l :
  Forall (fun x => n x <= 2 * length (f x)) l ->
  foldr (fun x m => S (n x `max` m)) 0 l <= 2 * length (concat (f <$> l)) + length l.
Proof.
  induction 1 as [|x l Hx _ IH]; [simpl; lia|]. csimpl. rewrite length_app. lia.
Qed.

Lemma need_print d v : wf d v -> need v <= 2 * length (print v).
Proof.
  revert d. induction v as [| [] |t|s|l IH|l IH] using json_nested_ind; intros d Hw; [simpl; lia..| | | |].
  - inversion Hw as [| |? ? Ht| | |]; subst. destruct (number_start t Ht) as (c & l & -> & _). simpl. lia.
  - simpl. lia.
  - inversion Hw as [| | | |? ? Hd Hl|]; subst. cbn [need print length]. rewrite length_app.
    pose proof (need_seq print need l) as Hn. pose proof (length_print_seq (print <$> l)) as Hs.
    rewrite length_fmap in Hs. specialize (Hn ltac:(eapply Forall_impl; [apply Forall_and; split; [exact IH|exact Hl]|];
      intros x [Hx Hwx]; by eapply Hx)). simpl. lia.
  - inversion Hw as [| | | | |? ? Hd Hl]; subst. cbn [need print length]. rewrite length_app.
    change (fun kv => print_string kv.1 ++ s2b ": " ++ print kv.2) with print_member.
    pose proof (need_seq print_member (fun kv => need kv.2) l) as Hn.
    pose proof (length_print_seq (print_member <$> l)) as Hs. rewrite length_fmap in Hs.
    specialize (Hn ltac:(eapply Forall_impl; [apply Forall_and; split; [exact IH|exact Hl]|];
      intros x [Hx [_ Hwx]]; unfold print_member; rewrite !length_app; specialize (Hx _ Hwx); lia)).
    simpl. lia.
Qed.

(** Reading the text of a value, with blanks after it, gives the value back. *)
Lemma parse_print v : wf 0 v -> parse (print v) = Some v.
Proof.
  intros Hw. unfold parse. rewrite <- (app_nil_r (print v)) at 2.
  rewrite (all_read v); [done|done|done|]. pose proof (need_print 0 v Hw). lia.
Qed.

(** ** The fuel is enough for every text *)

Lemma skip_ws_length s : length (skip_ws s) <= length s.
Proof. induction s as [|c s IH]; simpl; [lia|]. destruct (is_space c); simpl; lia. Qed.

Lemma strip_word_length w s r : strip_word w s = Some r -> length r <= length s.
Proof.
  revert s. induction w as [|a w IH]; intros [|c s] H; simplify_eq/=; [lia..|].
  case_decide; [|done]. apply IH in H. lia.
Qed.

Lemma decode_rune_length c s : length (snd (decode_rune c s)) <= length s.
Proof. unfold decode_rune. repeat (case_match; simpl; try lia). Qed.

Lemma hex4_length s r t : hex4 s = Some (r, t) -> length t < length s.
Proof.
  destruct s as [|a [|b [|c [|d s]]]]; simpl; try done.
  destruct (hex a), (hex b), (hex c), (hex d); simpl; try done. intros [= _ <-]. lia.
Qed.

Lemma unicode_escape_length s r t : unicode_escape s = Some (r, t) -> length t < length s.
Proof.
  unfold unicode_escape. destruct (hex4 s) as [[r1 s1]|] eqn:E; [|done]. apply hex4_length in E. simpl.
  repeat (case_match; try done); intros; simplify_eq/=; try lia.
  match goal with H : hex4 _ = Some _ |- _ => apply hex4_length in H end. lia.
Qed.

Lemma chars_length fuel s t r : chars fuel s = Some (t, r) -> length r < length s.
Proof.
  revert s t. induction fuel as [|fuel IH]; [done|]. intros [|c s] t; [done|]. cbn [chars].
  case_decide; [intros; simplify_eq/=; lia|]. case_decide.
  - destruct s as [|e s]; [done|]. case_decide.
    + destruct (unicode_escape s) as [[x s1]|] eqn:E; [|done]. simpl.
      destruct (chars fuel s1) as [[t1 r1]|] eqn:E1; [|done]. intros; simplify_eq/=.
      apply unicode_escape_length in E. apply IH in E1. lia.
    + destruct (simple_escape e); [|done]. simpl.
      destruct (chars fuel s) as [[t1 r1]|] eqn:E1; [|done]. intros; simplify_eq/=. apply IH in E1. lia.
  - case_match; [done|]. pose proof (decode_rune_length c s) as Hl. destruct (decode_rune c s) as [x s1].
    destruct (chars fuel s1) as [[t1 r1]|] eqn:E1; [|done]. intros; simplify_eq/=. apply IH in E1. lia.
Qed.

Lemma take_digits_length s d r : take_digits s = (d, r) -> length d + length r = length s.
Proof.
  revert d r. induction s as [|c s IH]; simpl; intros d r H; [by simplify_eq|].
  destruct (is_digit c); [|by simplify_eq]. destruct (take_digits s) as [d' r']. simplify_eq/=.
  by rewrite (IH _ _ eq_refl).
Qed.

Lemma digits1_length s d r : digits1 s = Some (d, r) -> length r < length s.
Proof.
  unfold digits1. destruct (take_digits s) as [d' r'] eqn:E. apply take_digits_length in E.
  destruct d'; intros; simplify_eq/=. lia.
Qed.

Lemma int_part_length s d r : int_part s = Some (d, r) -> length r < length s.
Proof.
  destruct s as [|c s]; [done|]. unfold int_part. case_decide; [intros; simplify_eq/=; lia|apply digits1_length].
Qed.

Lemma frac_part_length s d r : frac_part s = Some (d, r) -> length r <= length s.
Proof.
  destruct s as [|c s]; simpl; [intros; simplify_eq/=; lia|]. case_decide; [|intros; simplify_eq/=; lia].
  destruct (digits1 s) as [[d' r']|] eqn:E; [|done]. apply digits1_length in E. intros; simplify_eq/=. lia.
Qed.

Lemma exp_part_length s d r : exp_part s = Some (d, r) -> length r <= length s.
Proof.
  destruct s as [|e s]; simpl; [intros; simplify_eq/=; lia|]. destruct (is_exp e); [|intros; simplify_eq/=; lia].
  destruct s as [|c s]; [done|]. destruct (is_sign c).
  - destruct (digits1 s) as [[d' r']|] eqn:E; [|done]. apply digits1_length in E. intros; simplify_eq/=. lia.
  - destruct (digits1 (c :: s)) as [[d' r']|] eqn:E; [|done]. apply digits1_length in E.
    intros; simplify_eq/=. lia.
Qed.

Lemma number_length s t r : number s = Some (t, r) -> length r < length s.
Proof.
  unfold number. intros H.
  assert (exists sign s0, match s with
    | c :: s' => if decide (c = "-"%char) then ([c], s') else ([], s)
    | [] => ([], []) end = (sign, s0) /\ length s0 <= length s) as (sign & s0 & E & Hl).
  { destruct s as [|c s]; [by exists [], []|]. case_decide; eexists _, _; (split; [done|]); simpl; lia. }
  rewrite E in H. destruct (int_part s0) as [[i s1]|] eqn:E1; [|done]. simpl in H.
  destruct (frac_part s1) as [[f s2]|] eqn:E2; [|done]. simpl in H.
  destruct (exp_part s2) as [[e s3]|] eqn:E3; [|done]. simpl in H. simplify_eq.
  apply int_part_length in E1. apply frac_part_length in E2. apply exp_part_length in E3. lia.
Qed.

(** Every reader consumes something. *)
Lemma consumes fuel :
  (forall d s v r, value fuel d s = Some (v, r) -> length r < length s) /\
  (forall d s l r, elements fuel d s = Some (l, r) -> length r < length s) /\
  (forall d s l r, members fuel d s = Some (l, r) -> length r < length s).
Proof.
  induction fuel as [|fuel (IHv & IHe & IHm)]; [done|]. split; [|split].
  - intros d s v r. cbn [value]. unfold value_body. pose proof (skip_ws_length s) as Hws.
    destruct (skip_ws s) as [|c s'] eqn:E; [done|]. simpl in Hws.
    case_decide.
    { destruct (string_lit s') as [[t r1]|] eqn:E1; [|done]. apply chars_length in E1.
      simpl. intros; simplify_eq. lia. }
    case_decide.
    { case_match; [|done]. pose proof (skip_ws_length s') as Hws'.
      destruct (skip_ws s') as [|e r1] eqn:E1; [done|]. simpl in Hws'. case_decide; [intros; simplify_eq; lia|].
      destruct (elements fuel (S d) s') as [[l r2]|] eqn:E2; [|done]. apply IHe in E2.
      simpl. intros; simplify_eq. lia. }
    case_decide.
    { case_match; [|done]. pose proof (skip_ws_length s') as Hws'.
      destruct (skip_ws s') as [|e r1] eqn:E1; [done|]. simpl in Hws'. case_decide; [intros; simplify_eq; lia|].
      destruct (members fuel (S d) s') as [[l r2]|] eqn:E2; [|done]. apply IHm in E2.
      simpl. intros; simplify_eq. lia. }
    do 3 (case_decide; [destruct (strip_word _ s') as [r1|] eqn:E1; [|done]; apply strip_word_length in E1;
      simpl; intros; simplify_eq; lia|]).
    destruct (number (c :: s')) as [[t r1]|] eqn:E1; [|done]. apply number_length in E1.
    simpl in *. intros; simplify_eq. lia.
  - intros d s l r. cbn [elements]. unfold elements_body. destruct (value fuel d s) as [[v r1]|] eqn:E; [|done]. apply IHv in E.
    simpl. pose proof (skip_ws_length r1) as Hws. destruct (skip_ws r1) as [|c r2]; [done|]. simpl in Hws.
    case_decide; [|case_decide; [intros; simplify_eq; lia|done]].
    destruct (elements fuel d r2) as [[l' r3]|] eqn:E2; [|done]. apply IHe in E2.
    simpl. intros; simplify_eq. lia.
  - intros d s l r. cbn [members]. unfold members_body. pose proof (skip_ws_length s) as Hws.
    destruct (skip_ws s) as [|q s']; [done|]. simpl in Hws. case_decide; [|done].
    destruct (string_lit s') as [[k r1]|] eqn:E; [|done]. apply chars_length in E. simpl.
    pose proof (skip_ws_length r1) as Hws1. destruct (skip_ws r1) as [|c r2]; [done|]. simpl in Hws1.
    case_decide; [|done]. destruct (value fuel d r2) as [[v r3]|] eqn:E1; [|done]. apply IHv in E1. simpl.
    pose proof (skip_ws_length r3) as Hws3. destruct (skip_ws r3) as [|c' r4]; [done|]. simpl in Hws3.
    case_decide; [|case_decide; [intros; simplify_eq; lia|done]].
    destruct (members fuel d r4) as [[l' r5]|] eqn:E2; [|done]. apply IHm in E2.
    simpl. intros; simplify_eq. lia.
Qed.

Lemma fuel_step fuel :
  (forall d s, 2 * length s + 1 <= fuel -> value (S fuel) d s = value fuel d s) /\
  (forall d s, 2 * length s + 2 <= fuel -> elements (S fuel) d s = elements fuel d s) /\
  (forall d s, 2 * length s + 2 <= fuel -> members (S fuel) d s = members fuel d s).
Proof.
  induction fuel as [|fuel (IHv & IHe & IHm)]; [split; [|split]; intros; lia|].
  split; [|split]; intros d s Hf.
  - change (value_body (elements (S fuel)) (members (S fuel)) d s = value_body (elements fuel) (members fuel) d s).
    unfold value_body.
    pose proof (skip_ws_length s) as Hws. destruct (skip_ws s) as [|c s']; [done|]. simpl in Hws.
    rewrite (IHe (S d) s'), (IHm (S d) s') by lia. done.
  - change (elements_body (value (S fuel)) (elements (S fuel)) d s = elements_body (value fuel) (elements fuel) d s).
    unfold elements_body. rewrite IHv by lia.
    destruct (value fuel d s) as [[v r]|] eqn:E; [|done]. apply consumes in E. cbn [mbind option_bind].
    pose proof (skip_ws_length r) as Hws. destruct (skip_ws r) as [|c r1]; [done|]. simpl in Hws.
    by rewrite IHe by lia.
  - change (members_body (value (S fuel)) (members (S fuel)) d s = members_body (value fuel) (members fuel) d s).
    unfold members_body.
    pose proof (skip_ws_length s) as Hws. destruct (skip_ws s) as [|q s']; [done|]. simpl in Hws.
    case_decide; [|done]. destruct (string_lit s') as [[k r]|] eqn:E; [|done]. apply chars_length in E. cbn [mbind option_bind].
    pose proof (skip_ws_length r) as Hws1. destruct (skip_ws r) as [|c r1]; [done|]. simpl in Hws1.
    case_decide; [|done]. rewrite IHv by lia.
    destruct (value fuel d r1) as [[v r2]|] eqn:E2; [|done]. apply consumes in E2. cbn [mbind option_bind].
    pose proof (skip_ws_length r2) as Hws2. destruct (skip_ws r2) as [|c' r3]; [done|]. simpl in Hws2.
    by rewrite IHm by lia.
Qed.

(** More fuel than [parse] uses never changes its answer. *)
Lemma parse_fuel s fuel :
  2 * length s + 1 <= fuel -> value fuel 0 s = value (2 * length s + 1) 0 s.
Proof.
  intros H. induction H as [|fuel H IH]; [done|]. rewrite <- IH. by apply fuel_step.
Qed.
