(* ===== verification/Types.v ===== *)
(** * Domain types of the extractor (internal/extractor/types/types.go)

    One record per Go struct, with the struct's field order.  Integers are [Z]
    with their Go width noted; [uint32] and its kin below are the ranges, and the
    [_wf] predicates of Backrest.v and Tables.v say that every field is in range.  A slice of pointers whose
    elements come from JSON may hold nil pointers, hence [list (option _)]. *)

From S2P Require Import Prelude GoStrings GoRegexp.

Record Database := MkDatabase {
  Database_Name : string;
  Database_Oid : Z (** uint32 *)
}.

Record PgbackrestDatabase := MkPgbackrestDatabase {
  PgbackrestDatabase_Id : Z; (** uint8 *)
  PgbackrestDatabase_RepoKey : Z (** uint8 *)
}.

Record PgbackrestRepo := MkPgbackrestRepo {
  PgbackrestRepo_Delta : Z; (** uint64 *)
  PgbackrestRepo_Size : Z (** uint64 *)
}.

Record BackupSizeInfo := MkBackupSizeInfo {
  BackupSizeInfo_Delta : Z; (** uint64 *)
  BackupSizeInfo_Repository : PgbackrestRepo;
  BackupSizeInfo_Size : Z (** uint64 *)
}.

Record BackupTimestamp := MkBackupTimestamp {
  BackupTimestamp_Start : Z; (** int64 *)
  BackupTimestamp_Stop : Z (** int64 *)
}.

Record Backup := MkBackup {
  Backup_Label : string;
  Backup_Type : string;
  Backup_Timestamp : BackupTimestamp;
  Backup_Info : BackupSizeInfo;
  Backup_Database : PgbackrestDatabase;
  Backup_Error : bool
}.

Record PgbackrestDb := MkPgbackrestDb {
  PgbackrestDb_Version : string;
  PgbackrestDb_SystemId : Z; (** uint64 *)
  PgbackrestDb_RepoKey : Z; (** uint8 *)
  PgbackrestDb_Id : Z (** uint8 *)
}.

Record PgbackrestInfo := MkPgbackrestInfo {
  PgbackrestInfo_Name : string;
  PgbackrestInfo_Backup : list Backup;
  PgbackrestInfo_Db : list PgbackrestDb
}.

Record ServerInfo := MkServerInfo {
  ServerInfo_PgVersion : string;
  ServerInfo_IsReadOnly : string;
  ServerInfo_SslEnabled : string;
  ServerInfo_ArchiveMode : string;
  ServerInfo_DataDirectory : string;
  ServerInfo_WalLevel : string;
  ServerInfo_IsInRecovery : bool;
  ServerInfo_TimelineID : Z; (** int8 *)
  ServerInfo_Port : Z; (** int32 *)
  ServerInfo_MaxConnections : Z; (** int32 *)
  ServerInfo_SystemIdentifier : Z (** int64 *)
}.

Record Schema := MkSchema {
  Schema_Database : string;
  Schema_Name : string;
  Schema_Owner : string;
  Schema_Oid : Z (** uint32 *)
}.

Record InstalledExtension := MkInstalledExtension {
  InstalledExtension_Name : string;
  InstalledExtension_Version : string;
  InstalledExtension_Schema : string;
  InstalledExtension_Database : string;
  InstalledExtension_Oid : Z (** uint32 *)
}.

Record AvailableExtension := MkAvailableExtension {
  AvailableExtension_Name : string;
  AvailableExtension_DefaultVersion : string
}.

Record Sequence := MkSequence {
  Sequence_Name : string;
  Sequence_Schema : string;
  Sequence_Owner : string;
  Sequence_Database : string;
  Sequence_DataType : string;
  Sequence_Oid : Z (** uint32 *)
}.

Record Function := MkFunction {
  Function_Name : string;
  Function_Schema : string;
  Function_Owner : string;
  Function_Database : string;
  Function_Language : string;
  Function_ReturnType : string;
  Function_IdentityArguments : string;
  Function_Oid : Z (** uint32 *)
}.

Record TableStats := MkTableStats {
  TableStats_RowEstimate : Z; (** int64 *)
  TableStats_TotalSizeBytes : Z; (** uint64 *)
  TableStats_HeapSizeBytes : Z; (** uint64 *)
  TableStats_ToastSizeBytes : Z (** uint64 *)
}.

Record InheritanceRelation := MkInheritanceRelation {
  InheritanceRelation_Name : string;
  InheritanceRelation_Oid : Z (** uint32 *)
}.

Record TableInheritance := MkTableInheritance {
  TableInheritance_ParentTables : list (option InheritanceRelation)
}.

Record TableColumn := MkTableColumn {
  TableColumn_Name : string;
  TableColumn_Type : string;
  TableColumn_NotNull : bool;
  TableColumn_IsInherited : bool
}.

Record TableIndex := MkTableIndex {
  TableIndex_Name : string;
  TableIndex_Type : string;
  TableIndex_Definition : string;
  TableIndex_Columns : list string;
  TableIndex_SizeBytes : Z; (** uint64 *)
  TableIndex_IsUnique : bool;
  TableIndex_IsPrimary : bool;
  TableIndex_IsExclusion : bool;
  TableIndex_IsPartial : bool;
  TableIndex_IsValid : bool;
  TableIndex_IsInherited : bool
}.

Record TableConstraint := MkTableConstraint {
  TableConstraint_Name : string;
  TableConstraint_Type : string;
  TableConstraint_ForeignTable : string;
  TableConstraint_Definition : string;
  TableConstraint_LocalColumns : list string;
  TableConstraint_ForeignColumns : list string
}.

Record Table := MkTable {
  Table_Name : string;
  Table_Schema : string;
  Table_Owner : string;
  Table_Comment : option string;
  Table_TableColumns : list (option TableColumn);
  Table_TableIndexes : list (option TableIndex);
  Table_TableConstraints : list (option TableConstraint);
  Table_Inheritance : TableInheritance;
  Table_Stats : TableStats;
  Table_Oid : Z (** uint32 *)
}.

Record TablesInfo := MkTablesInfo {
  TablesInfo_Database : string;
  TablesInfo_Tables : list Table
}.

(** ** Machine integers *)
Definition uint8 (z : Z) : Prop := (0 <= z < 2 ^ 8)%Z.
Definition uint32 (z : Z) : Prop := (0 <= z < 2 ^ 32)%Z.
Definition uint64 (z : Z) : Prop := (0 <= z < 2 ^ 64)%Z.
Definition int8 (z : Z) : Prop := (- 2 ^ 7 <= z < 2 ^ 7)%Z.
Definition int32 (z : Z) : Prop := (- 2 ^ 31 <= z < 2 ^ 31)%Z.
Definition int64 (z : Z) : Prop := (- 2 ^ 63 <= z < 2 ^ 63)%Z.

(** The conversions int32(x) and uint32(x): keep the low 32 bits. *)
Definition to_uint32 (z : Z) : Z := (z mod 2 ^ 32)%Z.
Definition to_int32 (z : Z) : Z := ((z + 2 ^ 31) mod 2 ^ 32 - 2 ^ 31)%Z.

Lemma to_uint32_id z : uint32 z -> to_uint32 z = z.
Proof. apply Z.mod_small. Qed.

Lemma to_int32_id z : int32 z -> to_int32 z = z.
Proof. unfold int32, to_int32. intros H. rewrite Z.mod_small; lia. Qed.

Lemma uint8_uint32 z : uint8 z -> uint32 z.
Proof. unfold uint8, uint32. lia. Qed.

Lemma int8_int32 z : int8 z -> int32 z.
Proof. unfold int8, int32. lia. Qed.

#[export] Hint Resolve to_uint32_id to_int32_id uint8_uint32 int8_int32 : inventory.

(** ** parsePgVersion *)

Definition digits : cclass := [("0"%char, "9"%char)].

(** The pattern is caret, the word PostgreSQL and a blank, then one group of
    digits, a dot and digits. *)
Definition pgVersionPattern : regex :=
  RSeq RBegin (RSeq (RLit (s2b "PostgreSQL "))
    (RGroup (RSeq (RRep digits 1 None) (RSeq (RLit (s2b ".")) (RRep digits 1 None))))).

Definition parsePgVersion (pgVersion : string) : res string :=
  match FindStringSubmatch pgVersionPattern pgVersion with
  | _ :: m1 :: _ => inr m1
  | _ => inl (Errorf "invalid PostgreSQL version string: %q" [AStr pgVersion])
  end.

(** ** parsePgOnOffToBool *)

Definition parsePgOnOffToBool `{UnicodeLower} (s : string) : res bool :=
  if decide (ToLower s = "off") then inr false
  else if decide (ToLower s = "on") then inr true
  else inl (Errorf "could not parse as bool: %q" [AStr s]).

(** ** What the parsers accept *)

Definition all_digits (d : bytes) : bool := forallb is_digit d.

(** The next byte, if any, is not a digit. *)
Definition no_digit_next (s : bytes) : bool :=
  match s with c :: _ => negb (is_digit c) | [] => true end.

Lemma in_digits c : in_class digits c = is_digit c.
Proof. unfold in_class, digits. simpl. by rewrite orb_false_r. Qed.

Lemma forallb_digits d : forallb (in_class digits) d = all_digits d.
Proof. induction d as [|c d IH]; [done|]. cbn [forallb all_digits]. by rewrite in_digits, IH. Qed.

(** Cutting a text after its leading digits is unambiguous. *)
Lemma digits_unique d1 d2 s1 s2 :
  d1 ++ s1 = d2 ++ s2 -> all_digits d1 = true -> all_digits d2 = true ->
  no_digit_next s1 = true -> no_digit_next s2 = true -> d1 = d2 /\ s1 = s2.
Proof.
  revert d2. induction d1 as [|c d1 IH]; intros [|c2 d2]; simpl; intros E H1 H2 Hn1 Hn2; subst; try done.
  - simpl in Hn1. apply andb_true_iff in H2 as [H2 _]. by rewrite H2 in Hn1.
  - simpl in Hn2. apply andb_true_iff in H1 as [H1 _]. by rewrite H1 in Hn2.
  - simplify_eq. apply andb_true_iff in H1 as [_ H1], H2 as [_ H2].
    by destruct (IH d2) as [-> ->].
Qed.

(** The texts of which the pattern is the prefix: digits, a dot, all the digits
    that follow. *)
Definition version_text (s d1 d2 rest : bytes) : Prop :=
  s = s2b "PostgreSQL " ++ d1 ++ s2b "." ++ d2 ++ rest /\
  d1 <> [] /\ d2 <> [] /\ all_digits d1 = true /\ all_digits d2 = true /\ no_digit_next rest = true.

Lemma take_diff {A} (l1 l2 : list A) : take (length (l1 ++ l2) - length l2) (l1 ++ l2) = l1.
Proof. rewrite length_app. by rewrite take_app_length' by lia. Qed.

Lemma pgVersion_find s x :
  find pgVersionPattern true s = Some x ->
  exists d1 d2 rest, version_text s d1 d2 rest /\ snd x = [d1 ++ s2b "." ++ d2].
Proof.
  unfold pgVersionPattern. rewrite find_begin. cbn [run].
  destruct (strip (s2b "PostgreSQL ") s) as [s1|] eqn:E; [|done]. apply strip_Some in E as ->.
  intros H. apply rep_sound in H as (d1 & s2 & -> & Hd1 & Hl1 & _ & H & _).
  destruct (strip (s2b ".") s2) as [s3|] eqn:E; [|done]. apply strip_Some in E as ->.
  apply rep_sound in H as (d2 & rest & -> & Hd2 & Hl2 & _ & H & Hlong).
  rewrite forallb_digits in Hd1, Hd2.
  exists d1, d2, rest. split; [split; [done|]|].
  - split; [intros ->; simpl in *; lia|]. split; [intros ->; simpl in *; lia|].
    split; [done|]. split; [done|].
    destruct rest as [|c rest]; [done|]. simpl. apply negb_true_iff, not_true_is_false. intros Hc.
    assert (d2 ++ c :: rest = (d2 ++ [c]) ++ rest) as E1 by (by rewrite <- (assoc_L (++))).
    assert (forallb (in_class digits) (d2 ++ [c]) = true) as E2.
    { rewrite forallb_digits. unfold all_digits in *. rewrite forallb_app, Hd2. simpl. by rewrite Hc. }
    assert (length d2 < length (d2 ++ [c])) as E3 by (rewrite length_app; simpl; lia).
    by specialize (Hlong _ _ E1 E2 E3 ltac:(lia) eq_refl).
  - injection H as <-.
    pose proof (take_diff (d1 ++ s2b "." ++ d2) rest) as Ht. rewrite <- !(assoc_L (++)) in Ht.
    exact (f_equal (fun t => [t]) Ht).
Qed.

Lemma pgVersion_match s d1 d2 rest :
  version_text s d1 d2 rest -> is_Some (find pgVersionPattern true s).
Proof.
  intros (-> & Hn1 & Hn2 & Hd1 & Hd2 & _). unfold pgVersionPattern. rewrite find_begin.
  eapply run_complete; [|by eexists].
  eapply m_seq; [by apply m_lit|]. apply m_group.
  eapply m_seq; [apply (m_rep _ _ _ _ d1)|]; [by rewrite forallb_digits|destruct d1; [done|simpl; lia]|done|].
  eapply m_seq; [by apply m_lit|].
  apply m_rep; [by rewrite forallb_digits|destruct d2; [done|simpl; lia]|done].
Qed.

(** C32: parsePgVersion accepts exactly the texts that start with the word
    PostgreSQL, a blank, digits, a dot and digits, and returns the digits, the dot
    and all the digits that follow it; every other text is the documented error. *)
Theorem parsePgVersion_spec s v :
  parsePgVersion s = inr v <->
  exists d1 d2 rest, version_text (s2b s) d1 d2 rest /\ v = b2s (d1 ++ s2b "." ++ d2).
Proof.
  unfold parsePgVersion, FindStringSubmatch. split.
  - destruct (find pgVersionPattern true (s2b s)) as [[m caps]|] eqn:E; [|done].
    apply pgVersion_find in E as (d1 & d2 & rest & Hv & Hc). simpl in Hc. subst caps. simpl.
    intros [= <-]. eauto 6.
  - intros (d1 & d2 & rest & Hv & ->). destruct (pgVersion_match _ _ _ _ Hv) as [[m caps] E].
    rewrite E. apply pgVersion_find in E as (e1 & e2 & rest' & Hv' & Hc). simpl in Hc. subst caps. simpl.
    destruct Hv as (Hs & _ & _ & Hd1 & Hd2 & Hr), Hv' as (Hs' & _ & _ & He1 & He2 & Hr').
    rewrite Hs in Hs'. apply (inj (app (s2b "PostgreSQL "))) in Hs'.
    apply digits_unique in Hs' as [-> Hs']; [|done..].
    apply (inj (app (s2b "."))) in Hs'. apply digits_unique in Hs' as [-> _]; done.
Qed.

(** ParsePgOnOffToBool accepts exactly the texts that are on or off up to ASCII
    case, as true and false, and rejects every other text, whatever the Unicode
    case table says about other letters. *)
Theorem parsePgOnOffToBool_spec `{UnicodeLower} s b :
  parsePgOnOffToBool s = inr b <->
  lower_ascii <$> s2b s = s2b (if b then "on" else "off").
Proof.
  assert (forall w, w = "on" \/ w = "off" -> ToLower s = w <-> lower_ascii <$> s2b s = s2b w) as Hw.
  { intros w Hw. apply ToLower_eq; destruct Hw as [-> | ->]; try done;
      intros Hin; repeat (apply elem_of_cons in Hin as [?|Hin]; [done|]);
      by apply not_elem_of_nil in Hin. }
  unfold parsePgOnOffToBool. rewrite <- Hw by (destruct b; auto).
  repeat case_decide; destruct b; split; intros ?; simplify_eq; try done; congruence.
Qed.
