(* ===== verification/Flags.v ===== *)
(** * The command line (package flag, and NewConfig of config.go)

    [Parse] is what flag.Parse does with the arguments: flags of the forms -name=value,
    --name=value, -name value and --name value, up to the first argument that is not a
    flag.  flag.CommandLine exits the process on an error, so the outcome is an exit
    code or the flags' values.  Usage texts on the standard error are not modelled. *)

From S2P Require Import Prelude GoStrings GoUrl Types Config.

(** What a part of the program ends in: os.Exit, or a value. *)
Inductive outcome (A : Type) := Exit (code : nat) | Run (a : A).
Arguments Exit {A} code.
Arguments Run {A} a.

(** ** strconv.ParseInt(s, 0, 64) *)

Definition lower (c : ascii) : Z := Z.lor (zbyte c) 32.

Definition is_lower_letter (z : Z) : bool := ((97 <=? z) && (z <=? 122))%Z.

(** The value of a digit, whatever the base. *)
Definition digit_value (c : ascii) : option Z :=
  if is_digit c then Some (zbyte c - 48)%Z
  else if is_lower_letter (lower c) then Some (lower c - 97 + 10)%Z
  else None.

(** The digits after the prefix, with underscores between them skipped. *)
Fixpoint digits_from (base n : Z) (s : bytes) : option Z :=
  match s with
  | [] => Some n
  | c :: s =>
      if decide (c = "_"%char) then digits_from base n s
      else d ← digit_value c; if (d <? base)%Z then digits_from base (n * base + d) s else None
  end.

(** The base of a text, and the digits after its prefix. *)
Definition base_prefix (s : bytes) : Z * bytes :=
  match s with
  | z :: rest =>
      if decide (z = "0"%char) then
        match rest with
        | b :: ((_ :: _) as ds) =>
            if (lower b =? 98)%Z then (2%Z, ds)
            else if (lower b =? 111)%Z then (8%Z, ds)
            else if (lower b =? 120)%Z then (16%Z, ds)
            else (8%Z, rest)
        | _ => (8%Z, rest)
        end
      else (10%Z, s)
  | [] => (10%Z, [])
  end.

(** The state of underscoreOK: the last character was a digit, an underscore, another
    character, or there was none. *)
Inductive last_char := LStart | LDigit | LUnderscore | LOther.

Fixpoint underscores (hex : bool) (i : last_char) (s : bytes) : bool :=
  match s with
  | [] => match i with LUnderscore => false | _ => true end
  | c :: s =>
      if is_digit c || hex && ((97 <=? lower c) && (lower c <=? 102))%Z then underscores hex LDigit s
      else if decide (c = "_"%char) then match i with LDigit => underscores hex LUnderscore s | _ => false end
      else match i with LUnderscore => false | _ => underscores hex LOther s end
  end.

(** underscoreOK, on a text without its sign. *)
Definition underscoreOK (s : bytes) : bool :=
  match s with
  | z :: b :: rest =>
      if bool_decide (z = "0"%char) && ((lower b =? 98) || (lower b =? 111) || (lower b =? 120))%Z
      then underscores (lower b =? 120)%Z LDigit rest
      else underscores false LStart s
  | _ => underscores false LStart s
  end.

(** strconv.ParseUint(s, 0, 64) but for its upper bound. *)
Definition ParseUint (s : bytes) : option Z :=
  if decide (s = []) then None
  else
    let '(base, ds) := base_prefix s in
    n ← digits_from base 0 ds;
    if bool_decide ("_"%char ∈ s) && negb (underscoreOK s) then None else Some n.

Definition ParseInt (s : bytes) : option Z :=
  match s with
  | [] => None
  | c :: s' =>
      let neg := bool_decide (c = "-"%char) in
      let s' := if bool_decide (c = "+"%char) || neg then s' else s in
      un ← ParseUint s';
      if negb neg && (2 ^ 63 <=? un)%Z then None
      else if neg && (2 ^ 63 <? un)%Z then None
      else Some (if neg then - un else un)%Z
  end.

(** ** flag.FlagSet *)

Inductive Value := VStr (s : string) | VInt (n : Z).

(** The flags by name, with their values. *)
Definition FlagSet : Type := list (string * Value).

(** value.Set *)
Definition Value_Set (v : Value) (text : string) : option Value :=
  match v with
  | VStr _ => Some (VStr text)
  | VInt _ => VInt <$> ParseInt (s2b text)
  end.

Fixpoint get (name : string) (fs : FlagSet) : option Value :=
  match fs with
  | [] => None
  | (n, v) :: fs => if decide (n = name) then Some v else get name fs
  end.

Fixpoint put (name : string) (v : Value) (fs : FlagSet) : FlagSet :=
  match fs with
  | [] => []
  | (n, w) :: fs => if decide (n = name) then (n, v) :: fs else (n, w) :: put name v fs
  end.

(** An argument: not a flag (or the end of the flags), a malformed one, or a flag with
    its value if it has one. *)
Inductive argument := NotFlag | BadSyntax | Flag (name : bytes) (value : option bytes).

(** The name, cut at the first = that is not its first character. *)
Definition flag_name (s : bytes) : argument :=
  match s with
  | [] => BadSyntax
  | c :: rest =>
      if decide (c = "-"%char \/ c = "="%char) then BadSyntax
      else let '(n, v) := cut "=" rest in Flag (c :: n) v
  end.

Definition read_argument (s : bytes) : argument :=
  match s with
  | c :: d :: rest =>
      if decide (c = "-"%char) then
        if decide (d = "-"%char) then match rest with [] => NotFlag | _ => flag_name rest end
        else flag_name (d :: rest)
      else NotFlag
  | _ => NotFlag
  end.

(** flag.Parse with ExitOnError: help exits with 0, any other error with 2. *)
Fixpoint Parse (args : list string) (fs : FlagSet) : outcome FlagSet :=
  match args with
  | [] => Run fs
  | s :: args =>
      match read_argument (s2b s) with
      | NotFlag => Run fs
      | BadSyntax => Exit 2
      | Flag name value =>
          let name := b2s name in
          match get name fs with
          | None => if decide (name = "help" \/ name = "h") then Exit 0 else Exit 2
          | Some old =>
              match value with
              | Some text =>
                  match Value_Set old (b2s text) with
                  | Some v => Parse args (put name v fs)
                  | None => Exit 2
                  end
              | None =>
                  match args with
                  | text :: args =>
                      match Value_Set old text with
                      | Some v => Parse args (put name v fs)
                      | None => Exit 2
                      end
                  | [] => Exit 2
                  end
              end
          end
      end
  end.

(** ** NewConfig *)

Definition get_string (name : string) (fs : FlagSet) : string :=
  match get name fs with Some (VStr s) => s | _ => "" end.
Definition get_int (name : string) (fs : FlagSet) : Z :=
  match get name fs with Some (VInt n) => n | _ => 0%Z end.

(** The flags with their defaults. *)
Definition config_flags : FlagSet :=
  [("db-host", VStr "localhost"); ("db-port", VInt 5432); ("db-user", VStr "pgmonitor");
   ("db-name", VStr "postgres"); ("db-sslmode", VStr "verify-full"); ("db-sslcert", VStr "");
   ("db-sslkey", VStr ""); ("db-sslrootcert", VStr ""); ("listen", VStr ":50051");
   ("log-level", VStr "info")].

Definition config_of (fs : FlagSet) : Config := {|
  Config_DbCredentials := {|
    dbHost := get_string "db-host" fs;
    dbPort := get_int "db-port" fs;
    dbUser := get_string "db-user" fs;
    dbName := get_string "db-name" fs;
    dbSSLMode := get_string "db-sslmode" fs;
    dbSSLCert := get_string "db-sslcert" fs;
    dbSSLKey := get_string "db-sslkey" fs;
    dbSSLRootCert := get_string "db-sslrootcert" fs |};
  logLevel := get_string "log-level" fs;
  ListenAddr := get_string "listen" fs |}.

(** [args] is os.Args[1:]. *)
Definition NewConfig (args : list string) : outcome Config :=
  match Parse args config_flags with
  | Exit code => Exit code
  | Run fs => Run (config_of fs)
  end.

(** Texts of integers that the flag accepts, and some it does not. *)
Example ParseInt_texts :
  (ParseInt ∘ s2b <$> ["5432"; "-7"; "0x1F"; "010"; "1_000"; "0b101"; "0"; "_1"; "1__0"; "08"; ""; "9223372036854775808"])
  = [Some 5432; Some (-7); Some 31; Some 8; Some 1000; Some 5; Some 0; None; None; None; None; None]%Z.
Proof. vm_compute. reflexivity. Qed.

Example no_flags : NewConfig [] = Run (config_of config_flags).
Proof. reflexivity. Qed.

Example help : NewConfig ["-db-host=a"; "--help"] = Exit 0.
Proof. vm_compute. reflexivity. Qed.

(** ** Settings on the command line *)

(** The four ways to write a flag. *)
Record flag_setting := FlagSetting { st_name : string; st_text : string; st_dashes : bool; st_equals : bool }.

Definition render (s : flag_setting) : list string :=
  let dash := if st_dashes s then "--" else "-" in
  if st_equals s then [dash +:+ st_name s +:+ "=" +:+ st_text s] else [dash +:+ st_name s; st_text s].

(** What the last setting of a flag says. *)
Fixpoint last_text (name : string) (l : list flag_setting) : option string :=
  match l with
  | [] => None
  | s :: l =>
      match last_text name l with
      | Some t => Some t
      | None => if decide (st_name s = name) then Some (st_text s) else None
      end
  end.

Definition good_name (name : string) : bool :=
  match s2b name with
  | [] => false
  | c :: s => negb (bool_decide (c = "-"%char)) && negb (bool_decide ("="%char ∈ c :: s))
  end.

Lemma flag_name_good name rest :
  good_name name = true ->
  flag_name (s2b name ++ rest) =
    match rest with
    | [] => Flag (s2b name) None
    | c :: rest => if decide (c = "="%char) then Flag (s2b name) (Some rest) else flag_name (s2b name ++ c :: rest)
    end.
Proof.
  unfold good_name. destruct (s2b name) as [|c s]; [done|]. intros H. apply andb_true_iff in H as [H1 H2].
  apply negb_true_iff, bool_decide_eq_false in H1, H2. apply not_elem_of_cons in H2 as [H2 H3].
  destruct rest as [|e rest].
  - rewrite app_nil_r. simpl. rewrite decide_False by (intros [?|?]; congruence). by rewrite cut_none.
  - case_decide as He; [|done]. subst e. simpl. rewrite decide_False by (intros [?|?]; congruence).
    by rewrite cut_app.
Qed.

Lemma read_dashes (dashes : bool) name rest :
  good_name name = true ->
  read_argument (s2b (if dashes then "--" else "-") ++ s2b name ++ rest) = flag_name (s2b name ++ rest).
Proof.
  unfold good_name. destruct (s2b name) as [|c s]; [done|]. intros H. apply andb_true_iff in H as [H1 _].
  apply negb_true_iff, bool_decide_eq_false in H1. destruct dashes; [done|]. simpl.
  by rewrite decide_False.
Qed.

Lemma get_put_eq name v fs : is_Some (get name fs) -> get name (put name v fs) = Some v.
Proof.
  induction fs as [|[n w] fs IH]; simpl; [by intros [? ?]|]. intros H.
  case_decide; simpl; [by rewrite decide_True|]. rewrite decide_False by done. by apply IH.
Qed.

Lemma get_put_ne name name' v fs : name <> name' -> get name' (put name v fs) = get name' fs.
Proof.
  intros Hne. induction fs as [|[n w] fs IH]; [done|]. simpl.
  destruct (decide (n = name)) as [->|]; simpl; [by rewrite !decide_False|]. by rewrite IH.
Qed.

(** A flag keeps its kind. *)
Lemma Value_Set_kind v t w t' : Value_Set v t = Some w -> Value_Set w t' = Value_Set v t'.
Proof. destruct v; simpl; [by intros [= <-]|]. destruct (ParseInt (s2b t)); simpl; [by intros [= <-]|done]. Qed.

Lemma Parse_setting s rest fs old v :
  good_name (st_name s) = true -> get (st_name s) fs = Some old -> Value_Set old (st_text s) = Some v ->
  Parse (render s ++ rest) fs = Parse rest (put (st_name s) v fs).
Proof.
  intros Hn Hg Hv. unfold render. destruct (st_equals s); cbn [app Parse].
  - rewrite !s2b_app, read_dashes by done. rewrite flag_name_good by done. simpl.
    rewrite !b2s_s2b. by rewrite Hg, Hv.
  - rewrite !s2b_app. rewrite <- (app_nil_r (s2b (st_name s))).
    rewrite read_dashes, flag_name_good by done. by rewrite b2s_s2b, Hg, Hv.
Qed.

(** The value a flag ends with: what its last setting says, or what it was. *)
Definition final (l : list flag_setting) (fs : FlagSet) (name : string) : option Value :=
  match last_text name l with
  | Some t => v ← get name fs; Value_Set v t
  | None => get name fs
  end.

Definition acceptable (fs : FlagSet) (s : flag_setting) : Prop :=
  good_name (st_name s) = true /\ exists old, get (st_name s) fs = Some old /\ is_Some (Value_Set old (st_text s)).

Lemma acceptable_put fs name v old s :
  get name fs = Some old -> (forall t, Value_Set v t = Value_Set old t) ->
  acceptable fs s -> acceptable (put name v fs) s.
Proof.
  intros Hg Hv (Hn & w & Hw & Ht). split; [done|]. destruct (decide (name = st_name s)) as [->|Hne].
  - exists v. rewrite get_put_eq by (by eexists). split; [done|]. rewrite Hv. by simplify_eq.
  - exists w. by rewrite get_put_ne.
Qed.

Lemma Parse_settings l fs :
  Forall (acceptable fs) l ->
  exists fs', Parse (concat (render <$> l)) fs = Run fs' /\ forall n, get n fs' = final l fs n.
Proof.
  revert fs. induction l as [|s l IH]; intros fs HF; [by exists fs|].
  apply Forall_cons in HF as [(Hn & old & Hg & [v Hv]) HF].
  assert (forall t, Value_Set v t = Value_Set old t) as Hk by (intros t; by eapply Value_Set_kind).
  destruct (IH (put (st_name s) v fs)) as (fs' & Hp & Hget).
  { eapply Forall_impl; [exact HF|]. intros s' Hs'. by eapply acceptable_put. }
  exists fs'. csimpl. rewrite (Parse_setting _ _ _ _ _ Hn Hg Hv). split; [done|].
  intros n. rewrite Hget. unfold final. simpl.
  destruct (decide (st_name s = n)) as [<-|Hne].
  - rewrite get_put_eq by (by eexists). destruct (last_text _ l); rewrite Hg; simpl; [apply Hk|done].
  - rewrite get_put_ne by done. by destruct (last_text n l).
Qed.

(** A setting of one of the program's flags; the port's text is a number. *)
Definition valid (s : flag_setting) : Prop :=
  st_name s ∈ config_flags.*1 /\ (st_name s = "db-port" -> is_Some (ParseInt (s2b (st_text s)))).

Lemma valid_acceptable s : valid s -> acceptable config_flags s.
Proof.
  intros [Hn Hp]. unfold acceptable, config_flags in *. simpl in Hn.
  repeat (apply elem_of_cons in Hn as [Hn|Hn]; [rewrite Hn in *; split; [done|]; eexists; split; [done|];
    first [by eexists|destruct (Hp eq_refl) as [z Hz]; simpl; rewrite Hz; by eexists]|]).
  by apply elem_of_nil in Hn.
Qed.

Lemma final_string l n d :
  get n config_flags = Some (VStr d) -> final l config_flags n = Some (VStr (default d (last_text n l))).
Proof. intros H. unfold final. rewrite H. by destruct (last_text n l). Qed.

(** ** The port is an int *)

Lemma digit_value_nonneg c d : digit_value c = Some d -> (0 <= d)%Z.
Proof.
  unfold digit_value, is_digit, in_range, is_lower_letter, zbyte. intros H. repeat case_match; simplify_eq.
  - match goal with H : _ && _ = true |- _ => apply andb_true_iff in H as [H1 _] end.
    apply Nat.leb_le in H1. change (byte "0"%char) with 48 in H1. lia.
  - match goal with H : _ && _ = true |- _ => apply andb_true_iff in H as [H1 _] end.
    apply Z.leb_le in H1. lia.
Qed.

Lemma digits_from_nonneg base ds n0 n :
  (0 <= base)%Z -> (0 <= n0)%Z -> digits_from base n0 ds = Some n -> (0 <= n)%Z.
Proof.
  intros Hb. revert n0. induction ds as [|c ds IH]; simpl; intros n0 H0; [by intros [= <-]|].
  case_decide; [by apply IH|]. destruct (digit_value c) as [d|] eqn:Ed; [|done]. simpl.
  apply digit_value_nonneg in Ed. case_match; [|done]. apply IH. nia.
Qed.

Lemma ParseUint_nonneg s n : ParseUint s = Some n -> (0 <= n)%Z.
Proof.
  unfold ParseUint. case_decide; [done|]. destruct (base_prefix s) as [base ds] eqn:Eb.
  destruct (digits_from base 0 ds) as [m|] eqn:Ed; [|done]. simpl. case_match; [done|]. intros [= <-].
  eapply digits_from_nonneg; [|done|exact Ed]. clear -Eb. unfold base_prefix in Eb.
  repeat case_match; simplify_eq; lia.
Qed.

Lemma ParseInt_range s z : ParseInt s = Some z -> int64 z.
Proof.
  unfold ParseInt, int64. destruct s as [|c s]; [done|].
  destruct (ParseUint _) as [un|] eqn:Eu; [|done]. apply ParseUint_nonneg in Eu. cbn.
  destruct (bool_decide (c = "-"%char)); cbn; repeat case_match; intros; simplify_eq; lia.
Qed.

(** ** NewConfig *)

(** C15: the command line is read as it is written: for any list of settings of the ten
    flags, each in any of the four forms, with any texts but a number for the port, every
    setting of the configuration is what its last flag says, and its default without
    one. *)
Theorem NewConfig_reads l :
  Forall valid l ->
  exists c, NewConfig (concat (render <$> l)) = Run c /\
    let d := Config_DbCredentials c in
    let text name default_ := default default_ (last_text name l) in
    ListenAddr c = text "listen" ":50051" /\ logLevel c = text "log-level" "info" /\
    dbHost d = text "db-host" "localhost" /\ dbUser d = text "db-user" "pgmonitor" /\
    dbName d = text "db-name" "postgres" /\ dbSSLMode d = text "db-sslmode" "verify-full" /\
    dbSSLCert d = text "db-sslcert" "" /\ dbSSLKey d = text "db-sslkey" "" /\
    dbSSLRootCert d = text "db-sslrootcert" "" /\
    match last_text "db-port" l with
    | Some t => ParseInt (s2b t) = Some (dbPort d)
    | None => dbPort d = 5432%Z
    end.
Proof.
  intros HF. destruct (Parse_settings l config_flags) as (fs & Hp & Hget).
  { eapply Forall_impl; [exact HF|]. apply valid_acceptable. }
  exists (config_of fs). unfold NewConfig. rewrite Hp. split; [done|]. cbn zeta. unfold config_of, get_string, get_int.
  cbn [ListenAddr logLevel Config_DbCredentials dbHost dbUser dbName dbSSLMode dbSSLCert dbSSLKey dbSSLRootCert dbPort].
  rewrite !Hget. repeat (split; [by erewrite final_string by reflexivity|]).
  unfold final. destruct (last_text "db-port" l) as [t|] eqn:Et; [|done]. simpl.
  assert (exists s, s ∈ l /\ st_name s = "db-port" /\ st_text s = t) as (s & Hs & Hn & <-).
  { clear -Et. induction l as [|s l IH]; [done|]. simpl in Et. destruct (last_text "db-port" l).
    - destruct IH as (s' & ? & ?); [done|]. exists s'. rewrite elem_of_cons. auto.
    - case_decide; [|done]. simplify_eq. exists s. rewrite elem_of_cons. auto. }
  rewrite Forall_forall in HF. destruct (HF _ Hs) as [_ Hport]. destruct (Hport Hn) as [z ->]. done.
Qed.
