(* ===== verification/JsonDecode.v ===== *)
(** * json.Unmarshal into Go values (package encoding/json, the decoder)

    [gotype] is the part of Go's types that the program's JSON targets use and
    [goval] their values.  [decode] is the decoder: it reads a value into an existing Go
    value, as Unmarshal does, so that null leaves scalars alone, a repeated key
    meets what the first one left, and unknown keys are skipped.

    The decoder of the package goes on after a type error and returns the first
    one; all callers drop the value when there is an error, so [decode] stops there.
    Which error it is, is a parameter that depends on the target's type and the text:
    [JsonErrors].  [decode] itself says only that there is one, with [None]. *)

From S2P Require Import Prelude GoStrings Types Json.

#[local] Set Warnings "-register-all".

Inductive gotype :=
| TString
| TBool
| TInt (bits : positive)
| TUint (bits : positive)
| TPtr (t : gotype)
| TSlice (t : gotype)
| TStruct (name : string) (fields : list (string * gotype)). (** by their json names, in order *)

(** A slice keeps the elements beyond its length that are still in its array: an
    array decoded into it again finds them there. *)
Inductive goval :=
| VString (s : bytes)
| VBool (b : bool)
| VInt (z : Z)
| VPtr (p : option goval)
| VSlice (vis hidden : list goval)
| VStruct (fields : list goval).

Fixpoint zero (t : gotype) : goval :=
  match t with
  | TString => VString []
  | TBool => VBool false
  | TInt _ | TUint _ => VInt 0
  | TPtr _ => VPtr None
  | TSlice _ => VSlice [] []
  | TStruct _ fields => VStruct ((fun f => zero f.2) <$> fields)
  end.

(** ** Integers: strconv.ParseInt and ParseUint on the text of a number *)

Definition digits_value (d : bytes) : Z :=
  foldl (fun z c => 10 * z + (zbyte c - 48))%Z 0%Z d.

Definition plain_digits (d : bytes) : option Z :=
  if decide (d <> [] /\ forallb is_digit d = true) then Some (digits_value d) else None.

Definition parse_int (text : bytes) : option Z :=
  match text with
  | c :: d => if decide (c = "-"%char) then Z.opp <$> plain_digits d else plain_digits text
  | [] => None
  end.

Definition fits_int (bits : positive) (z : Z) : bool :=
  bool_decide (- 2 ^ (Z.pos bits - 1) <= z < 2 ^ (Z.pos bits - 1))%Z.
Definition fits_uint (bits : positive) (z : Z) : bool := bool_decide (0 <= z < 2 ^ Z.pos bits)%Z.

(** ** Field names *)

(** foldName, on the names that fold to ASCII: the long s and the Kelvin sign are
    the only runes outside ASCII that fold to a letter of ASCII. *)
Definition fold_rune (r : Z) : Z :=
  if ((97 <=? r) && (r <=? 122))%Z then (r - 32)%Z
  else if (r =? 383)%Z then 83%Z
  else if (r =? 8490)%Z then 75%Z
  else r.
Definition foldName (s : bytes) : list Z := fold_rune <$> runes s.

Fixpoint index_of {A} (P : A -> bool) (l : list A) : option nat :=
  match l with
  | [] => None
  | x :: l => if P x then Some 0 else S <$> index_of P l
  end.

(** The field of a key: by its exact name, else by its folded name. *)
Definition field_of (fields : list (string * gotype)) (key : bytes) : option nat :=
  match index_of (fun f : string * gotype => bool_decide (s2b f.1 = key)) fields with
  | Some i => Some i
  | None => index_of (fun f : string * gotype => bool_decide (foldName (s2b f.1) = foldName key)) fields
  end.

(** ** The decoder *)
Section steps.
Variable dec : json -> gotype -> goval -> option goval.

(** A key of an object: into the field it names, if there is one. *)
Definition set_field (fields : list (string * gotype)) (kj : bytes * json) (vs : list goval)
    : option (list goval) :=
  match field_of fields kj.1 with
  | None => Some vs
  | Some i =>
      match fields !! i, vs !! i with
      | Some (_, t), Some x => x ← dec kj.2 t x; Some (<[i := x]> vs)
      | _, _ => Some vs
      end
  end.

(** The element that an array meets: one of the slice, one left in its array, or a
    new one. *)
Definition next_elem (t : gotype) (vis hidden : list goval) : goval * list goval * list goval :=
  match vis, hidden with
  | x :: vis, _ => (x, vis, hidden)
  | [], x :: hidden => (x, [], hidden)
  | [], [] => (zero t, [], [])
  end.
End steps.

Fixpoint decode (j : json) : gotype -> goval -> option goval :=
  fix into (t : gotype) (v : goval) {struct t} : option goval :=
    match t with
    | TPtr t' =>
        match j with
        | JNull => Some (VPtr None)
        | _ => x ← into t' (match v with VPtr (Some x) => x | _ => zero t' end);
               Some (VPtr (Some x))
        end
    | _ =>
        match j with
        | JNull => Some (match t with TSlice _ => VSlice [] [] | _ => v end)
        | JBool b => match t with TBool => Some (VBool b) | _ => None end
        | JNum text =>
            match t with
            | TInt bits => z ← parse_int text; if fits_int bits z then Some (VInt z) else None
            | TUint bits => z ← plain_digits text; if fits_uint bits z then Some (VInt z) else None
            | _ => None
            end
        | JStr s => match t with TString => Some (VString s) | _ => None end
        | JArr js =>
            match t with
            | TSlice t' =>
                let '(vis, hidden) := match v with VSlice vis hidden => (vis, hidden) | _ => ([], []) end in
                if decide (js = []) then Some (VSlice [] [])
                else
                  (fix elems (js : list json) (done vis hidden : list goval) : option goval :=
                     match js with
                     | [] => Some (VSlice done (vis ++ hidden))
                     | j :: js =>
                         let '(x, vis, hidden) := next_elem t' vis hidden in
                         x ← decode j t' x; elems js (done ++ [x]) vis hidden
                     end) js [] vis hidden
            | _ => None
            end
        | JObj kvs =>
            match t with
            | TStruct _ fields =>
                (fix pairs (kvs : list (bytes * json)) (vs : list goval) : option goval :=
                   match kvs with
                   | [] => Some (VStruct vs)
                   | kj :: kvs => vs ← set_field decode fields kj vs; pairs kvs vs
                   end) kvs (match v with VStruct vs => vs | _ => (fun f => zero f.2) <$> fields end)
            | _ => None
            end
        end
    end.

(** The error of Unmarshal, when there is one: a SyntaxError or an UnmarshalTypeError. *)
Class JsonErrors := { unmarshal_error : gotype -> bytes -> error }.

(** json.Unmarshal(data, &v) *)
Definition Unmarshal `{JsonErrors} (t : gotype) (data : bytes) (v : goval) : res goval :=
  match j ← parse data; decode j t v with
  | Some v => inr v
  | None => inl (unmarshal_error t data)
  end.

(** ** The loops of the decoder, by name *)
Section loops.
Variable t : gotype.
Variable fields : list (string * gotype).

Fixpoint decode_elems (js : list json) (done vis hidden : list goval) : option goval :=
  match js with
  | [] => Some (VSlice done (vis ++ hidden))
  | j :: js =>
      let '(x, vis, hidden) := next_elem t vis hidden in
      x ← decode j t x; decode_elems js (done ++ [x]) vis hidden
  end.

Fixpoint decode_fields (kvs : list (bytes * json)) (vs : list goval) : option goval :=
  match kvs with
  | [] => Some (VStruct vs)
  | kj :: kvs => vs ← set_field decode fields kj vs; decode_fields kvs vs
  end.
End loops.

Lemma decode_arr js t vis hidden :
  js <> [] -> decode (JArr js) (TSlice t) (VSlice vis hidden) = decode_elems t js [] vis hidden.
Proof. intros Hj. destruct js; [done|]. reflexivity. Qed.

Lemma decode_obj kvs n fields vs :
  decode (JObj kvs) (TStruct n fields) (VStruct vs) = decode_fields fields kvs vs.
Proof. reflexivity. Qed.

(** ** Typing *)

Inductive has_type : gotype -> goval -> Prop :=
| ht_string s : has_type TString (VString s)
| ht_bool b : has_type TBool (VBool b)
| ht_int bits z : fits_int bits z = true -> has_type (TInt bits) (VInt z)
| ht_uint bits z : fits_uint bits z = true -> has_type (TUint bits) (VInt z)
| ht_nil t : has_type (TPtr t) (VPtr None)
| ht_ptr t v : has_type t v -> has_type (TPtr t) (VPtr (Some v))
| ht_slice t vis hidden :
    Forall (has_type t) vis -> Forall (has_type t) hidden -> has_type (TSlice t) (VSlice vis hidden)
| ht_struct n fields vs :
    Forall2 (fun f v => has_type f.2 v) fields vs -> has_type (TStruct n fields) (VStruct vs).

#[export] Hint Constructors has_type : inventory.

Section gotype_ind.
Variable P : gotype -> Prop.
Hypothesis Hstring : P TString.
Hypothesis Hbool : P TBool.
Hypothesis Hint : forall b, P (TInt b).
Hypothesis Huint : forall b, P (TUint b).
Hypothesis Hptr : forall t, P t -> P (TPtr t).
Hypothesis Hslice : forall t, P t -> P (TSlice t).
Hypothesis Hstruct : forall n l, Forall (fun f => P f.2) l -> P (TStruct n l).

Fixpoint gotype_nested_ind (t : gotype) : P t :=
  match t with
  | TString => Hstring
  | TBool => Hbool
  | TInt b => Hint b
  | TUint b => Huint b
  | TPtr t => Hptr t (gotype_nested_ind t)
  | TSlice t => Hslice t (gotype_nested_ind t)
  | TStruct n l => Hstruct n l ((fix all l := match l return Forall (fun f => P f.2) l with
      | [] => List.Forall_nil (fun f => P f.2)
      | f :: l => List.Forall_cons (fun f => P f.2) f l (gotype_nested_ind f.2) (all l)
      end) l)
  end.
End gotype_ind.

Lemma pow_pos_Z (b : positive) : (0 < 2 ^ (Z.pos b - 1))%Z /\ (0 < 2 ^ Z.pos b)%Z.
Proof. split; apply Z.pow_pos_nonneg; lia. Qed.

(** The zero value has its type. *)
Lemma zero_type t : has_type t (zero t).
Proof.
  induction t as [| |b|b|t IH|t IH|n l IH] using gotype_nested_ind; simpl; auto with inventory.
  - constructor. apply bool_decide_eq_true. pose proof (pow_pos_Z b). lia.
  - constructor. apply bool_decide_eq_true. pose proof (pow_pos_Z b). lia.
  - constructor. induction IH; simpl; by constructor.
Qed.

Lemma next_elem_type t vis hidden x vis' hidden' :
  next_elem t vis hidden = (x, vis', hidden') ->
  Forall (has_type t) vis -> Forall (has_type t) hidden ->
  has_type t x /\ Forall (has_type t) vis' /\ Forall (has_type t) hidden'.
Proof.
  destruct vis as [|y vis], hidden as [|z hidden]; simpl; intros [= <- <- <-] Hv Hh;
    rewrite ?Forall_cons in *; split_and!; try tauto; first [apply zero_type|by constructor].
Qed.

(** Decoding [j] keeps types. *)
Definition keeps_type (j : json) : Prop :=
  forall t v v', has_type t v -> decode j t v = Some v' -> has_type t v'.

Lemma decode_elems_type js t done vis hidden v' :
  Forall keeps_type js -> Forall (has_type t) done -> Forall (has_type t) vis -> Forall (has_type t) hidden ->
  decode_elems t js done vis hidden = Some v' -> has_type (TSlice t) v'.
Proof.
  intros IH. revert done vis hidden. induction IH as [|j js Hj _ IHj]; intros done vis hidden Hd Hv Hh; cbn [decode_elems].
  - intros [= <-]. constructor; [done|by apply Forall_app].
  - destruct (next_elem t vis hidden) as [[x vis1] hidden1] eqn:E.
    destruct (next_elem_type _ _ _ _ _ _ E Hv Hh) as (Hx & Hv1 & Hh1).
    destruct (decode j t x) as [y|] eqn:Ey; [|discriminate]. cbn. apply IHj; try assumption.
    apply Forall_app. split; [assumption|]. constructor; [by eapply Hj|constructor].
Qed.

Lemma set_field_type fields kj vs vs' :
  keeps_type kj.2 ->
  Forall2 (fun f v => has_type f.2 v) fields vs -> set_field decode fields kj vs = Some vs' ->
  Forall2 (fun f v => has_type f.2 v) fields vs'.
Proof.
  intros Hj HF. unfold set_field. destruct (field_of fields kj.1) as [i|]; [|by intros; simplify_eq].
  destruct (fields !! i) as [[n t]|] eqn:Ef; [|by intros; simplify_eq].
  destruct (vs !! i) as [x|] eqn:Ex; [|by intros; simplify_eq].
  destruct (decode kj.2 t x) as [y|] eqn:Ey; [|done]. intros [= <-].
  pose proof (Forall2_lookup_lr _ _ _ _ _ _ HF Ef Ex) as Hx.
  rewrite <- (list_insert_id fields i (n, t)) by done. apply Forall2_insert; [done|]. exact (Hj _ _ _ Hx Ey).
Qed.

(** Decoding keeps the type of the value decoded into: in particular every
    integer stays in the range of its Go type. *)
Lemma decode_type j : keeps_type j.
Proof. induction j as [|b|text|s|js IH|kvs IH] using json_nested_ind; intros t;
    induction t as [| |b'|b'|t IHt|t _|n fields]; intros v v' Hv; try done.
  all: try (cbn; by intros [= <-]; auto with inventory).
  all: try match goal with |- decode ?j (TPtr ?t) ?v = _ -> _ =>
    change (decode j (TPtr t) v) with
      (x ← decode j t (match v with VPtr (Some x) => x | _ => zero t end); Some (VPtr (Some x)));
    destruct (decode j t _) as [y|] eqn:Ey; [|done]; intros [= <-]; constructor; eapply IHt; [|exact Ey];
    inversion Hv; subst; [apply zero_type|done] end.
  - cbn. destruct (parse_int text) as [z|]; [|done]. cbn. destruct (fits_int b' z) eqn:E; [|done].
    intros [= <-]. by constructor.
  - cbn. destruct (plain_digits text) as [z|]; [|done]. cbn. destruct (fits_uint b' z) eqn:E; [|done].
    intros [= <-]. by constructor.
  - inversion Hv as [| | | | | |? vis hidden Hvis Hhid|]; subst.
    destruct js as [|j js]; [intros [= <-]; by repeat constructor|].
    rewrite decode_arr by done. by eapply decode_elems_type.
  - inversion Hv as [| | | | | | |? ? vs HF]; subst. rewrite decode_obj. clear Hv.
    revert vs HF. induction IH as [|kj kvs Hkj _ IHk]; intros vs HF; cbn [decode_fields].
    + intros [= <-]. by constructor.
    + destruct (set_field decode fields kj vs) as [vs1|] eqn:E; [|done]. cbn. apply IHk.
      by eapply set_field_type.
Qed.

(** ** Objects: unknown keys and the order of keys do not matter *)

Definition known (fields : list (string * gotype)) (kj : bytes * json) : Prop :=
  is_Some (field_of fields kj.1).

#[export] Instance known_dec fields kj : Decision (known fields kj).
Proof. unfold known. apply _. Defined.

Lemma decode_fields_known fields kvs vs :
  decode_fields fields kvs vs = decode_fields fields (filter (known fields) kvs) vs.
Proof.
  revert vs. induction kvs as [|kj kvs IH]; intros vs; [done|].
  destruct (decide (known fields kj)) as [Hk|Hk].
  - rewrite filter_cons_True by done. cbn [decode_fields].
    destruct (set_field decode fields kj vs); [apply IH|done].
  - rewrite filter_cons_False by done. cbn [decode_fields]. unfold set_field.
    apply eq_None_not_Some in Hk. rewrite Hk. apply IH.
Qed.

Lemma bind_Some_id {A} (o : option A) : (x ← o; Some x) = o.
Proof. by destruct o. Qed.

Lemma set_field_comm fields a b vs :
  (forall i, field_of fields a.1 = Some i -> field_of fields b.1 <> Some i) ->
  (vs1 ← set_field decode fields a vs; set_field decode fields b vs1) =
  (vs1 ← set_field decode fields b vs; set_field decode fields a vs1).
Proof.
  intros Hne. unfold set_field.
  destruct (field_of fields a.1) as [i|] eqn:Ea, (field_of fields b.1) as [j|] eqn:Eb;
    cbn; rewrite ?bind_Some_id; try done.
  assert (i <> j) as Hij by (intros ->; by eapply Hne).
  destruct (fields !! i) as [[na ta]|] eqn:Fa, (fields !! j) as [[nb tb]|] eqn:Fb;
    cbn; rewrite ?bind_Some_id; try done.
  destruct (vs !! i) as [x|] eqn:Va, (vs !! j) as [y|] eqn:Vb; cbn.
  - destruct (decode a.2 ta x) as [x'|] eqn:Dx, (decode b.2 tb y) as [y'|] eqn:Dy; cbn;
      rewrite ?list_lookup_insert_ne, ?Va, ?Vb by done; cbn; rewrite ?Dx, ?Dy; cbn; [|done..].
    by rewrite list_insert_insert_ne.
  - rewrite Va. destruct (decode a.2 ta x); cbn; [|done]. by rewrite list_lookup_insert_ne, Vb by done.
  - rewrite Vb. destruct (decode b.2 tb y); cbn; [|done]. by rewrite list_lookup_insert_ne, Va by done.
  - by rewrite Va, Vb.
Qed.

Definition fields_of (fields : list (string * gotype)) (kvs : list (bytes * json)) : list nat :=
  omap (fun kj => field_of fields kj.1) kvs.

Lemma decode_fields_perm fields kvs kvs' vs :
  kvs ≡ₚ kvs' -> NoDup (fields_of fields kvs) ->
  decode_fields fields kvs vs = decode_fields fields kvs' vs.
Proof.
  intros Hp. revert vs. induction Hp as [|a l l' Hp IH|a b l|l l1 l2 H1 IH1 H2 IH2]; intros vs Hn; [done|..].
  - cbn [decode_fields]. destruct (set_field decode fields a vs); [|done]. apply IH.
    unfold fields_of in Hn. csimpl in Hn. destruct (field_of fields a.1); [by apply NoDup_cons in Hn as [_ ?]|done].
  - assert (forall x y, decode_fields fields (x :: y :: l) vs =
      (vs2 ← (vs1 ← set_field decode fields x vs; set_field decode fields y vs1); decode_fields fields l vs2))
      as E by (intros x y; cbn [decode_fields]; by destruct (set_field decode fields x vs)).
    rewrite !E, (set_field_comm fields b a vs); [done|]. intros i Hb Ha.
    unfold fields_of in Hn. csimpl in Hn. rewrite Ha, Hb in Hn.
    apply NoDup_cons in Hn as [Hn _]. apply Hn, elem_of_cons. by left.
  - rewrite IH1 by done. apply IH2. unfold fields_of. by rewrite <- H1.
Qed.
