(* ===== verification/JsonCodec.v ===== *)
(** * Go types as targets of json.Unmarshal

    A [codec A] connects a type [A] of the model with the Go type that
    json.Unmarshal fills: its [gotype] with the json tags, how to read the decoded
    value as an [A], the range of its integers, and the JSON values that stand for
    an element of [A].  [Lawful] is what the decoder promises for it.  The structs
    of types.go are built with [struct], field by field, from the codecs of their
    fields, and are lawful by construction. *)

From S2P Require Import Prelude GoStrings Types Json JsonDecode.

Record codec (A : Type) := Codec {
  ctype : gotype;
  unpack : goval -> A;
  ok : A -> Prop;
  shows : A -> json -> Prop
}.
Arguments Codec {A}.
Arguments ctype {A}.
Arguments unpack {A}.
Arguments ok {A}.
Arguments shows {A}.

(** Every value of the Go type is in range; a JSON value that stands for [x] is decoded
    to [x] if [x] is in range, and is not decoded at all if it is not. *)
Class Lawful {A} (c : codec A) : Prop := {
  unpack_ok v : has_type (ctype c) v -> ok c (unpack c v);
  shows_decode x j : ok c x -> shows c x j ->
    exists v, decode j (ctype c) (zero (ctype c)) = Some v /\ unpack c v = x;
  shows_fits x j v : shows c x j -> decode j (ctype c) (zero (ctype c)) = Some v -> ok c x
}.

(** ** Scalars *)

(** null leaves a new variable as it is: empty, false or 0. *)
Definition go_string : codec string := {|
  ctype := TString;
  unpack v := match v with VString s => b2s s | _ => EmptyString end;
  ok _ := True;
  shows s j := j = JStr (s2b s) \/ s = EmptyString /\ j = JNull
|}.

Definition go_bool : codec bool := {|
  ctype := TBool;
  unpack v := match v with VBool b => b | _ => false end;
  ok _ := True;
  shows b j := j = JBool b \/ b = false /\ j = JNull
|}.

Definition unpack_int (v : goval) : Z := match v with VInt z => z | _ => 0%Z end.

Definition go_int (bits : positive) : codec Z := {|
  ctype := TInt bits;
  unpack := unpack_int;
  ok z := (- 2 ^ (Z.pos bits - 1) <= z < 2 ^ (Z.pos bits - 1))%Z;
  shows z j := (exists t, j = JNum t /\ parse_int t = Some z) \/ z = 0%Z /\ j = JNull
|}.

(** The number of a text, below 0 after a minus sign. *)
Definition minus_text (z : Z) (t : bytes) : Prop :=
  (z < 0)%Z /\ exists d, t = "-"%char :: d /\ plain_digits d = Some (- z)%Z.

Definition go_uint (bits : positive) : codec Z := {|
  ctype := TUint bits;
  unpack := unpack_int;
  ok z := (0 <= z < 2 ^ Z.pos bits)%Z;
  shows z j := (exists t, j = JNum t /\ (plain_digits t = Some z \/ minus_text z t)) \/ z = 0%Z /\ j = JNull
|}.

Lemma minus_no_digits z t : minus_text z t -> plain_digits t = None.
Proof. intros (_ & d & -> & _). unfold plain_digits. rewrite decide_False; [done|]. by intros [_ H]. Qed.

#[export] Instance go_string_lawful : Lawful go_string.
Proof.
  split; [done| |done]. intros s j _ [->|[-> ->]]; eexists; (split; [done|]); [apply b2s_s2b|done].
Qed.

#[export] Instance go_bool_lawful : Lawful go_bool.
Proof. split; [done| |done]. intros b j _ [->|[-> ->]]; by eexists. Qed.

#[export] Instance go_int_lawful bits : Lawful (go_int bits).
Proof.
  split.
  - intros v H. inversion H as [| |? z Hz|? z Hz| | | |]; subst. by apply bool_decide_eq_true in Hz.
  - intros z j Hz [(t & -> & Ht)|[-> ->]]; [|by eexists]. exists (VInt z). split; [|done]. cbn. rewrite Ht. cbn.
    unfold fits_int. by rewrite bool_decide_eq_true_2.
  - intros z j v [(t & -> & Ht)|[-> ->]]; cbn.
    + rewrite Ht. cbn. destruct (fits_int bits z) eqn:E; [|done]. by apply bool_decide_eq_true in E.
    + pose proof (pow_pos_Z bits). lia.
Qed.

#[export] Instance go_uint_lawful bits : Lawful (go_uint bits).
Proof.
  split.
  - intros v H. inversion H as [| |? z Hz|? z Hz| | | |]; subst. by apply bool_decide_eq_true in Hz.
  - intros z j Hz [(t & -> & [Ht|[Hn _]])|[-> ->]]; [|cbn in Hz; lia|by eexists].
    exists (VInt z). split; [|done]. cbn. rewrite Ht. cbn. unfold fits_uint. by rewrite bool_decide_eq_true_2.
  - intros z j v [(t & -> & [Ht|Ht%minus_no_digits])|[-> ->]]; cbn; [| |pose proof (pow_pos_Z bits); lia].
    + rewrite Ht. cbn. destruct (fits_uint bits z) eqn:E; [|done]. by apply bool_decide_eq_true in E.
    + by rewrite Ht.
Qed.

(** ** Pointers and slices *)
Section containers.
Context {A : Type} (c : codec A) `{L : !Lawful c}.

Definition go_ptr : codec (option A) := {|
  ctype := TPtr (ctype c);
  unpack v := match v with VPtr (Some v) => Some (unpack c v) | _ => None end;
  ok o := from_option (ok c) True o;
  shows o j := match o with Some x => j <> JNull /\ shows c x j | None => j = JNull end
|}.

Definition go_slice : codec (list A) := {|
  ctype := TSlice (ctype c);
  unpack v := match v with VSlice vis _ => unpack c <$> vis | _ => [] end;
  ok l := Forall (ok c) l;
  shows l j := l = [] /\ j = JNull \/ exists js, j = JArr js /\ Forall2 (shows c) l js
|}.

#[export] Instance go_ptr_lawful : Lawful go_ptr.
Proof using L.
  split.
  - intros v H. inversion H; subst; [done|]. by apply (unpack_ok (c := c)).
  - intros [x|] j Hx Hj; simpl in Hj; [|subst; by eexists]. destruct Hj as [Hne Hj].
    destruct (shows_decode x j Hx Hj) as (v & Hv & Hu). exists (VPtr (Some v)).
    split; [|by rewrite <- Hu]. destruct j; [done| | | | |]; cbn [zero ctype go_ptr];
      match goal with |- decode ?j (TPtr ?t) _ = _ =>
        change (decode j (TPtr t) (VPtr None)) with (x ← decode j t (zero t); Some (VPtr (Some x))) end;
      by rewrite Hv.
  - intros [x|] j v Hj Hv; simpl in Hj; [|done]. destruct Hj as [Hne Hj].
    assert (decode j (TPtr (ctype c)) (VPtr None) =
      (x ← decode j (ctype c) (zero (ctype c)); Some (VPtr (Some x)))) as E by (destruct j; done).
    cbn [ctype go_ptr zero] in Hv. rewrite E in Hv. destruct (decode j _ _) as [w|] eqn:Ew; [|done].
    by eapply (shows_fits (c := c)).
Qed.

Lemma decode_elems_fits l js done v :
  Forall2 (shows c) l js -> decode_elems (ctype c) js done [] [] = Some v -> Forall (ok c) l.
Proof using L.
  intros HF. revert done. induction HF as [|x j l js Hj _ IH]; intros done; [constructor|].
  cbn [decode_elems next_elem]. destruct (decode j _ _) as [w|] eqn:E; [|discriminate]. cbn. intros H.
  constructor; [by eapply (shows_fits (c := c))|by eapply IH].
Qed.

Lemma decode_elems_shows l js done :
  Forall (ok c) l -> Forall2 (shows c) l js ->
  exists vs, decode_elems (ctype c) js done [] [] = Some (VSlice (done ++ vs) []) /\ unpack c <$> vs = l.
Proof using L.
  intros Hok HF. revert done. induction HF as [|x j l js Hj _ IH]; intros done.
  - exists []. by rewrite app_nil_r.
  - apply Forall_cons in Hok as [Hx Hok]. destruct (shows_decode x j Hx Hj) as (v & Hv & Hu).
    cbn [decode_elems next_elem]. rewrite Hv. cbn. destruct (IH Hok (done ++ [v])) as (vs & Hvs & Hl).
    exists (v :: vs). rewrite Hvs, <- (assoc_L (++)). csimpl. by rewrite Hu, Hl.
Qed.

#[export] Instance go_slice_lawful : Lawful go_slice.
Proof using L.
  split.
  - intros v H. inversion H; subst. cbn. apply Forall_fmap. eapply Forall_impl; [eassumption|].
    intros w Hw. by apply (unpack_ok (c := c)).
  - intros l j Hl [[-> ->]|(js & -> & HF)]; [by eexists|]. cbn [ctype go_slice zero].
    destruct js as [|j js]; [inversion HF; by eexists|]. rewrite decode_arr by done.
    destruct (decode_elems_shows l (j :: js) [] Hl HF) as (vs & -> & Hu). by eexists.
  - intros l j v [[-> ->]|(js & -> & HF)] Hv; [constructor|]. cbn [ctype go_slice zero] in Hv.
    destruct js as [|j js]; [by apply Forall2_nil_inv_r in HF as ->; constructor|]. rewrite decode_arr in Hv by done.
    by eapply decode_elems_fits.
Qed.
End containers.

(** ** Structs *)

(** The fields of a struct from some point on, as nested pairs. *)
Record fcodec (A : Type) := FCodec {
  ftypes : list (string * gotype);
  funpack : list goval -> A;
  fok : A -> Prop;
  fshows : A -> list (bytes * json) -> Prop
}.
Arguments FCodec {A}.
Arguments ftypes {A}.
Arguments funpack {A}.
Arguments fok {A}.
Arguments fshows {A}.

Definition fnil : fcodec () := {|
  ftypes := [];
  funpack _ := ();
  fok _ := True;
  fshows _ l := l = []
|}.

(** A key may be missing if the field is zero. *)
Definition fcons {A B} (name : string) (c : codec A) (f : fcodec B) : fcodec (A * B) := {|
  ftypes := (name, ctype c) :: ftypes f;
  funpack vs := match vs with
                | v :: vs => (unpack c v, funpack f vs)
                | [] => (unpack c (zero (ctype c)), funpack f [])
                end;
  fok x := ok c x.1 /\ fok f x.2;
  fshows x l := (unpack c (zero (ctype c)) = x.1 /\ fshows f x.2 l) \/
                (exists j l', l = (s2b name, j) :: l' /\ shows c x.1 j /\ fshows f x.2 l')
|}.

(** [to] and [from] say which field of the record each pair component is.  The keys
    of an object come in any order, with any other keys between them. *)
Definition struct {A R} (name : string) (f : fcodec A) (to : A -> R) (from : R -> A) : codec R := {|
  ctype := TStruct name (ftypes f);
  unpack v := to (funpack f (match v with VStruct vs => vs | _ => [] end));
  ok x := fok f (from x);
  shows x j := exists l kvs, j = JObj kvs /\ fshows f (from x) l /\
    filter (known (ftypes f)) kvs ≡ₚ l
|}.

Class FLawful {A} (f : fcodec A) : Prop := {
  funpack_ok vs : Forall2 (fun f v => has_type f.2 v) (ftypes f) vs -> fok f (funpack f vs);
  fshows_decode pre vpre x l :
    fok f x -> fshows f x l -> length vpre = length pre -> NoDup ((pre ++ ftypes f).*1) ->
    exists vs, decode_fields (pre ++ ftypes f) l (vpre ++ ((fun f => zero f.2) <$> ftypes f)) =
      Some (VStruct (vpre ++ vs)) /\ funpack f vs = x;
  fshows_fits pre vpre x l v :
    fshows f x l -> length vpre = length pre -> NoDup ((pre ++ ftypes f).*1) ->
    decode_fields (pre ++ ftypes f) l (vpre ++ ((fun f => zero f.2) <$> ftypes f)) = Some v -> fok f x;
  fshows_fields pre x l :
    fshows f x l -> NoDup ((pre ++ ftypes f).*1) ->
    exists ids, fields_of (pre ++ ftypes f) l = ids /\ NoDup ids /\ Forall (fun i => length pre <= i) ids
}.

Lemma index_of_app {A} (P : A -> bool) l1 x l2 :
  Forall (fun y => P y = false) l1 -> P x = true -> index_of P (l1 ++ x :: l2) = Some (length l1).
Proof.
  intros HF Hx. induction HF as [|y l1 Hy _ IH]; simpl; [by rewrite Hx|]. by rewrite Hy, IH.
Qed.

(** A field is found by its own name. *)
Lemma field_of_name pre n t rest :
  NoDup ((pre ++ (n, t) :: rest).*1) -> field_of (pre ++ (n, t) :: rest) (s2b n) = Some (length pre).
Proof.
  intros Hn. unfold field_of. rewrite index_of_app; [done| |by rewrite bool_decide_eq_true_2].
  apply Forall_forall. intros f Hf. apply bool_decide_eq_false. intros E%(inj s2b).
  rewrite fmap_app in Hn. apply NoDup_app in Hn as (_ & Hn & _).
  apply (Hn f.1); [by apply list_elem_of_fmap_2|]. rewrite E. csimpl. apply elem_of_cons. by left.
Qed.

#[export] Instance fnil_lawful : FLawful fnil.
Proof.
  split.
  - done.
  - intros pre vpre [] l _ -> _ _. exists []. cbn. done.
  - done.
  - intros pre [] l -> _. exists []. split; [done|]. split; constructor.
Qed.

Section fcons.
Context {A B : Type} (name : string) (c : codec A) (f : fcodec B) `{Lc : !Lawful c} `{Lf : !FLawful f}.

Lemma fcons_split pre : pre ++ ftypes (fcons name c f) = (pre ++ [(name, ctype c)]) ++ ftypes f.
Proof using. by rewrite <- (assoc_L (++)). Qed.

(** Decoding the first field. *)
Lemma decode_fields_first pre vpre j l' :
  length vpre = length pre -> NoDup (((pre ++ [(name, ctype c)]) ++ ftypes f).*1) ->
  decode_fields ((pre ++ [(name, ctype c)]) ++ ftypes f) ((s2b name, j) :: l')
    (vpre ++ zero (ctype c) :: ((fun f => zero f.2) <$> ftypes f)) =
  (v ← decode j (ctype c) (zero (ctype c));
   decode_fields ((pre ++ [(name, ctype c)]) ++ ftypes f) l'
     ((vpre ++ [v]) ++ ((fun f => zero f.2) <$> ftypes f))).
Proof using.
  intros Hlen Hn. cbn [decode_fields]. unfold set_field at 1. rewrite <- (assoc_L (++)) in Hn |- *. cbn [app fst snd].
  rewrite field_of_name by done. rewrite lookup_app_r, Nat.sub_diag by lia. cbn.
  rewrite lookup_app_r, Hlen, Nat.sub_diag by lia. cbn. destruct (decode j _ _) as [v|]; [|done]. cbn.
  rewrite insert_app_r_alt, Hlen, Nat.sub_diag by lia. cbn. by rewrite <- (assoc_L (++) vpre).
Qed.

#[export] Instance fcons_lawful : FLawful (fcons name c f).
Proof using Lc Lf.
  split.
  - intros vs HF. inversion HF as [|? v ? vs' Hv HF']; subst. cbn.
    split; [by apply (unpack_ok (c := c))|by apply (funpack_ok (f := f))].
  - intros pre vpre [x y] l [Hx Hy] Hl Hlen Hn. simpl in Hx, Hy, Hl. rewrite fcons_split in *.
    assert (forall v l', fshows f y l' -> exists vs,
      decode_fields ((pre ++ [(name, ctype c)]) ++ ftypes f) l' (vpre ++ v :: ((fun f => zero f.2) <$> ftypes f))
      = Some (VStruct (vpre ++ v :: vs)) /\ funpack f vs = y) as Hrest.
    { intros v l' Hl'. destruct (fshows_decode (f := f) (pre ++ [(name, ctype c)]) (vpre ++ [v]) y l')
        as (vs & E & Hu); [done|done| |done|].
      { rewrite !length_app. simpl. lia. }
      exists vs. rewrite <- !(assoc_L (++) vpre) in E. split; [exact E|exact Hu]. }
    destruct Hl as [[Hz Hl]|(j & l' & -> & Hj & Hl)].
    + destruct (Hrest (zero (ctype c)) l Hl) as (vs & E & Hu). exists (zero (ctype c) :: vs).
      split; [exact E|]. cbn. by rewrite Hz, Hu.
    + destruct (shows_decode x j Hx Hj) as (v & Hv & Hux). destruct (Hrest v l' Hl) as (vs & E & Hu).
      exists (v :: vs). split; [|cbn; by rewrite Hux, Hu]. cbn [ftypes fcons fmap list_fmap snd].
      rewrite decode_fields_first, Hv by done. cbn [mbind option_bind]. rewrite <- (assoc_L (++) vpre). exact E.
  - intros pre vpre [x y] l v Hl Hlen Hn Hv. simpl in Hl. rewrite fcons_split in *. cbn [fok fcons fst snd].
    cbn [ftypes fcons fmap list_fmap snd] in Hv.
    assert (length (vpre ++ [zero (ctype c)]) = length (pre ++ [(name, ctype c)])) as Hlen1
      by (rewrite !length_app; simpl; lia).
    destruct Hl as [[Hz Hl]|(j & l' & -> & Hj & Hl)].
    + split; [rewrite <- Hz; apply (unpack_ok (c := c)), zero_type|].
      apply (fshows_fits (f := f) (pre ++ [(name, ctype c)]) (vpre ++ [zero (ctype c)]) y l v); [exact Hl|exact Hlen1|exact Hn|].
      rewrite <- (assoc_L (++) vpre). exact Hv.
    + rewrite decode_fields_first in Hv by done. destruct (decode j _ _) as [w|] eqn:Ew; [|done].
      cbn [mbind option_bind] in Hv.
      split; [by eapply (shows_fits (c := c))|].
      apply (fshows_fits (f := f) (pre ++ [(name, ctype c)]) (vpre ++ [w]) y l' v); [exact Hl|rewrite !length_app; simpl; lia|exact Hn|exact Hv].
  - intros pre [x y] l Hl Hn. simpl in Hl. rewrite fcons_split in *.
    destruct Hl as [[_ Hl]|(j & l' & -> & _ & Hl)];
      destruct (fshows_fields (f := f) (pre ++ [(name, ctype c)]) y _ Hl Hn) as (ids & Ei & Hd & Hge).
    + exists ids. split; [done|]. split; [done|]. eapply Forall_impl; [exact Hge|].
      intros i. rewrite length_app. simpl. lia.
    + exists (length pre :: ids). split; [|split].
      * unfold fields_of in *. csimpl. rewrite <- (assoc_L (++)) in Hn, Ei |- *. cbn [app] in *.
        rewrite field_of_name by done. by rewrite Ei.
      * constructor; [|done]. intros Hin. rewrite Forall_forall in Hge. apply Hge in Hin.
        rewrite length_app in Hin. simpl in Hin. lia.
      * constructor; [lia|]. eapply Forall_impl; [exact Hge|]. intros i. rewrite length_app. simpl. lia.
Qed.
End fcons.

(** The members of an object, in the order of the struct's fields. *)
Lemma shown_fields {A} (f : fcodec A) `{!FLawful f} x kvs l vs :
  NoDup ((ftypes f).*1) -> fshows f x l -> filter (known (ftypes f)) kvs ≡ₚ l ->
  decode_fields (ftypes f) kvs vs = decode_fields (ftypes f) l vs.
Proof.
  intros Hn Hl Hp. destruct (fshows_fields (f := f) [] x l Hl Hn) as (ids & Ei & Hd & _).
  rewrite decode_fields_known. apply decode_fields_perm; [exact Hp|].
  unfold fields_of in *. rewrite Hp. simpl in Ei. by rewrite Ei.
Qed.

Lemma struct_lawful {A R} name (f : fcodec A) `{!FLawful f} (to : A -> R) (from : R -> A) :
  NoDup ((ftypes f).*1) -> (forall x, to (from x) = x) -> (forall a, from (to a) = a) ->
  Lawful (struct name f to from).
Proof.
  intros Hn Htf Hft. split.
  - intros v H. inversion H; subst. cbn. rewrite Hft. by apply funpack_ok.
  - intros x j Hx (l & kvs & -> & Hl & Hp). cbn [ctype struct zero]. rewrite decode_obj, (shown_fields f (from x) kvs l) by done.
    destruct (fshows_decode (f := f) [] [] (from x) l Hx Hl eq_refl Hn) as (vs & E & Hu).
    eexists. split; [exact E|]. cbn. by rewrite Hu, Htf.
  - intros x j v (l & kvs & -> & Hl & Hp) Hv. cbn [ctype struct zero] in Hv. rewrite decode_obj, (shown_fields f (from x) kvs l) in Hv by done.
    by apply (fshows_fits (f := f) [] [] (from x) l v Hl eq_refl Hn).
Qed.

(** For a struct whose fields are given as [fcons ... fnil]. *)
Ltac struct_instance :=
  apply struct_lawful; [apply _|apply (bool_decide_unpack _); vm_compute; exact I
                       |by intros []
                       |intros; repeat match goal with x : _ * _ |- _ => destruct x
                                                     | x : () |- _ => destruct x end; reflexivity].

(** Decoding a text into a new variable. *)
Definition unmarshal `{JsonErrors} {A} (c : codec A) (data : bytes) : res A :=
  unpack c <$> Unmarshal (ctype c) data (zero (ctype c)).

Section unmarshal.
Context `{E : JsonErrors} {A : Type} (c : codec A) `{L : !Lawful c}.

(** Whatever the text, the result is in range. *)
Lemma unmarshal_ok data x : unmarshal c data = inr x -> ok c x.
Proof using L.
  unfold unmarshal, Unmarshal. destruct (parse data) as [j|]; [|done]. cbn.
  destruct (decode j _ _) as [v|] eqn:Ev; [|done]. intros [= <-].
  apply (unpack_ok (c := c)). exact (decode_type _ _ _ _ (zero_type _) Ev).
Qed.

Lemma unmarshal_parse data j x : ok c x -> parse data = Some j -> shows c x j -> unmarshal c data = inr x.
Proof using L.
  intros Hx Hp Hj. unfold unmarshal, Unmarshal. rewrite Hp. cbn.
  destruct (shows_decode x j Hx Hj) as (v & -> & Hu). by rewrite <- Hu.
Qed.

(** A text that stands for something out of range is an error. *)
Lemma unmarshal_refuse data j x :
  ~ ok c x -> parse data = Some j -> shows c x j -> unmarshal c data = inl (unmarshal_error (ctype c) data).
Proof using L.
  intros Hx Hp Hj. unfold unmarshal, Unmarshal. rewrite Hp. cbn. destruct (decode j _ _) as [v|] eqn:Ev; [|done].
  destruct Hx. by eapply (shows_fits (c := c)).
Qed.

(** The text PostgreSQL makes of a jsonb value that stands for [x] gives [x]. *)
Lemma unmarshal_print j x : ok c x -> wf 0 j -> shows c x j -> unmarshal c (print j) = inr x.
Proof using L. intros Hx Hw. apply unmarshal_parse; [done|]. by apply parse_print. Qed.

Lemma unmarshal_error_text data e : unmarshal c data = inl e -> e = unmarshal_error (ctype c) data.
Proof using. unfold unmarshal, Unmarshal. destruct (j ← parse data; _); [done|]. by intros [= <-]. Qed.
End unmarshal.
