(* ===== verification/SqlSyntax.v ===== *)
(** * The SQL of the queries: from the text to its syntax

    The queries of the store are texts.  [parse] reads the part of SQL that they are
    written in: SELECT with joins, lateral functions, WHERE, GROUP BY and ORDER BY,
    subqueries, WITH, and the expressions between.  Sql.v says what they mean. *)

From S2P Require Import Prelude GoStrings JsonDecode.

#[local] Set Warnings "-register-all".

(** ** Tokens *)

Inductive keyword :=
| KSelect | KFrom | KJoin | KOn | KWhere | KAnd | KNot | KLike | KNull | KAs | KOrder | KBy | KWith | KGroup
| KLeft | KCross | KLateral | KOrdinality | KExists | KIn | KIs | KCase | KWhen | KThen | KEnd.
Inductive symbol := SDot | SComma | SLeft | SRight | SEq | SNe | SGt | SCast | SSemi | SBrackets.

Inductive token :=
| TKey (k : keyword)
| TWord (w : string)    (** a name, in lower case *)
| TText (s : string)    (** a literal between single quotes *)
| TNum (n : Z)
| TSym (s : symbol).

Definition keywords : list (string * keyword) :=
  [("select", KSelect); ("from", KFrom); ("join", KJoin); ("on", KOn); ("where", KWhere); ("and", KAnd);
   ("not", KNot); ("like", KLike); ("null", KNull); ("as", KAs); ("order", KOrder); ("by", KBy);
   ("with", KWith); ("group", KGroup); ("left", KLeft); ("cross", KCross); ("lateral", KLateral);
   ("ordinality", KOrdinality); ("exists", KExists); ("in", KIn); ("is", KIs); ("case", KCase);
   ("when", KWhen); ("then", KThen); ("end", KEnd)].

Fixpoint assoc {A} (x : string) (l : list (string * A)) : option A :=
  match l with
  | [] => None
  | (y, a) :: l => if decide (y = x) then Some a else assoc x l
  end.

Definition word (w : bytes) : token :=
  match plain_digits w with
  | Some n => TNum n
  | None =>
      let w := b2s (lower_ascii <$> w) in
      match assoc w keywords with Some k => TKey k | None => TWord w end
  end.

Definition is_blank (c : ascii) : bool := bool_decide (byte c ∈ [9; 10; 13; 32]).
Definition is_word_char (c : ascii) : bool := is_alnum c || bool_decide (c = "_"%char).
Definition quote : ascii := ascii_of_nat 39.
Definition newline : ascii := ascii_of_nat 10.

(** What has been read of the token at hand, the last byte first. *)
Inductive lexer :=
| LNone
| LWord (w : bytes)
| LText (s : bytes)
| LQuote (s : bytes)
| LSym (c : ascii)
| LComment.

Definition one_symbol (c : ascii) : option symbol :=
  match c with
  | "."%char => Some SDot | ","%char => Some SComma | "("%char => Some SLeft | ")"%char => Some SRight
  | "="%char => Some SEq | ">"%char => Some SGt | ";"%char => Some SSemi | _ => None
  end.

Definition begin (c : ascii) : option (list token * lexer) :=
  if is_blank c then Some ([], LNone)
  else if is_word_char c then Some ([], LWord [c])
  else if decide (c = quote) then Some ([], LText [])
  else if decide (c ∈ ["!"; ":"; "-"; "["]%char) then Some ([], LSym c)
  else s ← one_symbol c; Some ([TSym s], LNone).

(** The symbols of two characters, and -- for a comment. *)
Definition two_symbols (a c : ascii) : option (list token * lexer) :=
  match a, c with
  | "!"%char, "="%char => Some ([TSym SNe], LNone)
  | ":"%char, ":"%char => Some ([TSym SCast], LNone)
  | "["%char, "]"%char => Some ([TSym SBrackets], LNone)
  | "-"%char, "-"%char => Some ([], LComment)
  | _, _ => None
  end.

(** A byte after what has been read.  Two quotes in a literal are a quote. *)
Definition step (st : lexer) (c : ascii) : option (list token * lexer) :=
  match st with
  | LNone => begin c
  | LWord w => if is_word_char c then Some ([], LWord (c :: w))
               else '(ts, st) ← begin c; Some (word (rev w) :: ts, st)
  | LText s => Some ([], if decide (c = quote) then LQuote s else LText (c :: s))
  | LQuote s => if decide (c = quote) then Some ([], LText (c :: s))
                else '(ts, st) ← begin c; Some (TText (b2s (rev s)) :: ts, st)
  | LSym a => two_symbols a c
  | LComment => Some ([], if decide (c = newline) then LNone else LComment)
  end.

Fixpoint lex (st : lexer) (s : bytes) : option (list token) :=
  match s with
  | [] =>
      match st with
      | LNone | LComment => Some []
      | LWord w => Some [word (rev w)]
      | LQuote s => Some [TText (b2s (rev s))]
      | LText _ | LSym _ => None
      end
  | c :: s => '(ts, st) ← step st c; rest ← lex st s; Some (ts ++ rest)
  end.

(** ** Syntax *)

Inductive join_kind := JInner | JLeft.

Inductive expr :=
| EColumn (rel : option string) (col : string)   (** rel.col, or col *)
| EText (s : string)
| ENum (n : Z)
| ENull
| ECall (f : string) (args order : list expr)    (** f(args), or f(args ORDER BY order) *)
| ECast (e : expr) (type : string)               (** e::type *)
| EEq (e1 e2 : expr)
| EGt (e1 e2 : expr)
| ELike (e1 e2 : expr)
| EIn (e : expr) (l : list expr)
| EIsNull (e : expr)
| ENot (e : expr)
| EAnd (e1 e2 : expr)
| ECase (branches : list (expr * expr))          (** CASE WHEN c THEN e ... END *)
| EExists (q : query)
| EScalar (q : query)                            (** (SELECT ...) *)
with query :=
| Query (withs : list (string * query)) (select : list (expr * string)) (from : list source)
    (cond : option expr) (group order : list expr)
(** A table or a function in FROM, its alias, the names that the alias gives to columns,
    and how it is joined to what stands before it. *)
with source :=
| Source (it : item) (alias : string) (cols : list string) (kind : join_kind) (on : option expr)
with item :=
| ITable (name : string)
| IFunction (f : string)                         (** f(), one row *)
| IUnnest (e : expr).                            (** UNNEST(e) WITH ORDINALITY *)

Definition q_withs (q : query) := let '(Query w _ _ _ _ _) := q in w.
Definition q_select (q : query) := let '(Query _ s _ _ _ _) := q in s.
Definition q_from (q : query) := let '(Query _ _ f _ _ _) := q in f.
Definition q_where (q : query) := let '(Query _ _ _ w _ _) := q in w.
Definition q_group (q : query) := let '(Query _ _ _ _ g _) := q in g.
Definition q_order (q : query) := let '(Query _ _ _ _ _ o) := q in o.
Definition src_item (s : source) := let '(Source i _ _ _ _) := s in i.
Definition src_alias (s : source) := let '(Source _ a _ _ _) := s in a.
Definition src_cols (s : source) := let '(Source _ _ c _ _) := s in c.
Definition src_kind (s : source) := let '(Source _ _ _ k _) := s in k.
Definition src_on (s : source) := let '(Source _ _ _ _ o) := s in o.

(** ** The parser *)

Definition parser (A : Type) : Type := list token -> option (A * list token).

(** Elements with commas between. *)
Fixpoint commas {A} (fuel : nat) (p : parser A) (ts : list token) : option (list A * list token) :=
  match fuel with
  | 0 => None
  | S fuel =>
      '(a, ts) ← p ts;
      match ts with
      | TSym SComma :: ts => '(l, ts) ← commas fuel p ts; Some (a :: l, ts)
      | _ => Some ([a], ts)
      end
  end.

(** As many as there are. *)
Fixpoint many {A} (fuel : nat) (p : list token -> option (option (A * list token))) (ts : list token)
    : option (list A * list token) :=
  match fuel with
  | 0 => None
  | S fuel =>
      r ← p ts;
      match r with
      | Some (a, ts) => '(l, ts) ← many fuel p ts; Some (a :: l, ts)
      | None => Some ([], ts)
      end
  end.

Definition closing {A} (r : option (A * list token)) : option (A * list token) :=
  '(a, ts) ← r; match ts with TSym SRight :: ts => Some (a, ts) | _ => None end.

(** A table, with the schema it is in unless that is pg_catalog. *)
Definition p_table (ts : list token) : option (string * list token) :=
  match ts with
  | TWord a :: TSym SDot :: TWord b :: ts => Some (if decide (a = "pg_catalog") then b else a +:+ "." +:+ b, ts)
  | TWord a :: ts => Some (a, ts)
  | _ => None
  end.

Definition p_name (ts : list token) : option (string * list token) :=
  match ts with TWord a :: ts => Some (a, ts) | _ => None end.

(** An alias, with AS or without, and names for the columns. *)
Definition p_alias (fuel : nat) (default : string) (ts : list token)
    : option (string * list string * list token) :=
  let ts := match ts with TKey KAs :: ts => ts | _ => ts end in
  match ts with
  | TWord a :: TSym SLeft :: ts => '(cols, ts) ← closing (commas fuel p_name ts); Some (a, cols, ts)
  | TWord a :: ts => Some (a, [], ts)
  | _ => Some (default, [], ts)
  end.

(** A type name; a list of them is a sequence of casts. *)
Definition p_cast (ts : list token) : option (option (string * list token)) :=
  match ts with
  | TSym SCast :: TWord ty :: TSym SBrackets :: ts => Some (Some (ty +:+ "[]", ts))
  | TSym SCast :: TWord ty :: ts => Some (Some (ty, ts))
  | _ => Some None
  end.

(** The name of a column of the result: the one after AS, else that of the column or
    function. *)
Definition item_name (e : expr) : string :=
  match e with EColumn _ col => col | ECall f _ _ => f | _ => "?column?" end.

(** How tightly an expression binds. *)
Inductive level := LvAnd | LvNot | LvCompare | LvCast | LvPrimary.

Section parser.
(** The parsers of expressions and queries at a lower fuel. *)
Variable fuel : nat.
Variable expression : level -> parser expr.
Variable subquery : parser query.

Definition p_case_branch (operand : option expr) (ts : list token) : option (option (expr * expr * list token)) :=
  match ts with
  | TKey KWhen :: ts =>
      '(c, ts) ← expression LvAnd ts;
      match ts with
      | TKey KThen :: ts =>
          '(e, ts) ← expression LvAnd ts;
          Some (Some ((match operand with Some o => EEq o c | None => c end, e), ts))
      | _ => None
      end
  | _ => Some None
  end.

(** CASE without ELSE; CASE o WHEN v is CASE WHEN o = v. *)
Definition p_case (ts : list token) : option (expr * list token) :=
  '(operand, ts) ← match ts with
    | TKey KWhen :: _ => Some (None, ts)
    | _ => '(o, ts) ← expression LvAnd ts; Some (Some o, ts)
    end;
  '(l, ts) ← many fuel (p_case_branch operand) ts;
  match ts with TKey KEnd :: ts => Some (ECase l, ts) | _ => None end.

Definition p_order_by (ts : list token) : option (list expr * list token) :=
  match ts with
  | TKey KOrder :: TKey KBy :: ts => commas fuel (expression LvAnd) ts
  | _ => Some ([], ts)
  end.

Definition p_arguments (ts : list token) : option (list expr * list expr * list token) :=
  match ts with
  | TSym SRight :: ts => Some ([], [], ts)
  | _ =>
      '(args, ts) ← commas fuel (expression LvAnd) ts;
      '(order, ts) ← closing (p_order_by ts);
      Some (args, order, ts)
  end.

Definition p_primary (ts : list token) : option (expr * list token) :=
  match ts with
  | TText s :: ts => Some (EText s, ts)
  | TNum n :: ts => Some (ENum n, ts)
  | TKey KNull :: ts => Some (ENull, ts)
  | TKey KCase :: ts => p_case ts
  | TKey KExists :: TSym SLeft :: ts => '(q, ts) ← closing (subquery ts); Some (EExists q, ts)
  | TSym SLeft :: TKey KSelect :: _ => '(q, ts) ← closing (subquery (tail ts)); Some (EScalar q, ts)
  | TSym SLeft :: ts => closing (expression LvAnd ts)
  | TWord a :: TSym SDot :: TWord f :: TSym SLeft :: ts =>
      '(args, order, ts) ← p_arguments ts;
      if decide (a = "pg_catalog") then Some (ECall f args order, ts) else None
  | TWord a :: TSym SDot :: TWord b :: ts => Some (EColumn (Some a) b, ts)
  | TWord f :: TSym SLeft :: ts => '(args, order, ts) ← p_arguments ts; Some (ECall f args order, ts)
  | TWord a :: ts => Some (EColumn None a, ts)
  | _ => None
  end.

Definition p_expr_at (lv : level) (ts : list token) : option (expr * list token) :=
  match lv with
  | LvAnd =>
      '(a, ts) ← expression LvNot ts;
      match ts with
      | TKey KAnd :: ts => '(b, ts) ← expression LvAnd ts; Some (EAnd a b, ts)
      | _ => Some (a, ts)
      end
  | LvNot =>
      match ts with
      | TKey KNot :: ts => '(a, ts) ← expression LvNot ts; Some (ENot a, ts)
      | _ => expression LvCompare ts
      end
  | LvCompare =>
      '(a, ts) ← expression LvCast ts;
      match ts with
      | TSym SEq :: ts => '(b, ts) ← expression LvCast ts; Some (EEq a b, ts)
      | TSym SNe :: ts => '(b, ts) ← expression LvCast ts; Some (ENot (EEq a b), ts)
      | TSym SGt :: ts => '(b, ts) ← expression LvCast ts; Some (EGt a b, ts)
      | TKey KLike :: ts => '(b, ts) ← expression LvCast ts; Some (ELike a b, ts)
      | TKey KNot :: TKey KLike :: ts => '(b, ts) ← expression LvCast ts; Some (ENot (ELike a b), ts)
      | TKey KIn :: TSym SLeft :: ts =>
          '(l, ts) ← closing (commas fuel (expression LvAnd) ts); Some (EIn a l, ts)
      | TKey KNot :: TKey KIn :: TSym SLeft :: ts =>
          '(l, ts) ← closing (commas fuel (expression LvAnd) ts); Some (ENot (EIn a l), ts)
      | TKey KIs :: TKey KNull :: ts => Some (EIsNull a, ts)
      | TKey KIs :: TKey KNot :: TKey KNull :: ts => Some (ENot (EIsNull a), ts)
      | _ => Some (a, ts)
      end
  | LvCast =>
      '(a, ts) ← expression LvPrimary ts;
      '(types, ts) ← many fuel p_cast ts;
      Some (foldl ECast a types, ts)
  | LvPrimary => p_primary ts
  end.

(** A table, or a function; of those that return more than a row only UNNEST WITH
    ORDINALITY is there. *)
Definition p_item (ts : list token) : option (item * string * list token) :=
  match ts with
  | TWord f :: TSym SLeft :: ts =>
      '(args, _, ts) ← p_arguments ts;
      match args, ts with
      | [e], TKey KWith :: TKey KOrdinality :: ts =>
          if decide (f = "unnest") then Some (IUnnest e, f, ts) else None
      | [], _ => Some (IFunction f, f, ts)
      | _, _ => None
      end
  | _ => '(table, ts) ← p_table ts; Some (ITable table, table, ts)
  end.

Definition p_source (kind : join_kind) (with_on : bool) (ts : list token) : option (source * list token) :=
  '(it, name, ts) ← p_item ts;
  '(alias, cols, ts) ← p_alias fuel name ts;
  if with_on then
    match ts with
    | TKey KOn :: ts => '(e, ts) ← expression LvAnd ts; Some (Source it alias cols kind (Some e), ts)
    | _ => None
    end
  else Some (Source it alias cols kind None, ts).

Definition p_join (ts : list token) : option (option (source * list token)) :=
  match ts with
  | TKey KJoin :: ts => Some <$> p_source JInner true ts
  | TKey KLeft :: TKey KJoin :: ts => Some <$> p_source JLeft true ts
  | TKey KCross :: TKey KJoin :: TKey KLateral :: ts => Some <$> p_source JInner false ts
  | _ => Some None
  end.

Definition p_from (ts : list token) : option (list source * list token) :=
  match ts with
  | TKey KFrom :: ts => '(s, ts) ← p_source JInner false ts; '(l, ts) ← many fuel p_join ts; Some (s :: l, ts)
  | _ => Some ([], ts)
  end.

Definition p_where (ts : list token) : option (option expr * list token) :=
  match ts with
  | TKey KWhere :: ts => '(e, ts) ← expression LvAnd ts; Some (Some e, ts)
  | _ => Some (None, ts)
  end.

Definition p_group_by (ts : list token) : option (list expr * list token) :=
  match ts with
  | TKey KGroup :: TKey KBy :: ts => commas fuel (expression LvAnd) ts
  | _ => Some ([], ts)
  end.

(** An element of the select list. *)
Definition p_select_item (ts : list token) : option (expr * string * list token) :=
  '(e, ts) ← expression LvAnd ts;
  match ts with
  | TKey KAs :: TWord name :: ts => Some (e, name, ts)
  | _ => Some (e, item_name e, ts)
  end.

Definition p_with (ts : list token) : option (string * query * list token) :=
  match ts with
  | TWord name :: TKey KAs :: TSym SLeft :: ts => '(q, ts) ← closing (subquery ts); Some (name, q, ts)
  | _ => None
  end.

Definition p_select (withs : list (string * query)) (ts : list token) : option (query * list token) :=
  match ts with
  | TKey KSelect :: ts =>
      '(select, ts) ← commas fuel p_select_item ts;
      '(from, ts) ← p_from ts;
      '(cond, ts) ← p_where ts;
      '(group, ts) ← p_group_by ts;
      '(order, ts) ← p_order_by ts;
      Some (Query withs select from cond group order, ts)
  | _ => None
  end.

Definition p_query_at (ts : list token) : option (query * list token) :=
  match ts with
  | TKey KWith :: ts => '(withs, ts) ← commas fuel p_with ts; p_select withs ts
  | _ => p_select [] ts
  end.
End parser.

Fixpoint p_expr (fuel : nat) (lv : level) (ts : list token) : option (expr * list token) :=
  match fuel with
  | 0 => None
  | S fuel => p_expr_at fuel (p_expr fuel) (p_query fuel) lv ts
  end
with p_query (fuel : nat) (ts : list token) : option (query * list token) :=
  match fuel with
  | 0 => None
  | S fuel => p_query_at fuel (p_expr fuel) (p_query fuel) ts
  end.

(** Every level of the grammar costs one unit of fuel, a token at most five of them. *)
Definition parse (sql : string) : option query :=
  ts ← lex LNone (s2b sql);
  '(q, ts) ← p_query (5 * S (length ts)) ts;
  match ts with [] | [TSym SSemi] => Some q | _ => None end.
