(* ===== verification/Sql.v ===== *)
(** * What the SQL of the queries means

    [answer] relates a query to the lists of rows that a server may give for it on a
    database.  Rows have no order but that of ORDER BY: whenever a query has gathered
    its rows, a parameter of the evaluation, [shuffle], puts them into some order.
    Tables, columns and functions are whatever the database says they are
    ([Database]); see Catalog.v. *)

From S2P Require Import Prelude GoStrings Json JsonDecode SqlSyntax.

(** ** Values *)

(** A column value with its type: the types differ for the driver. *)
Inductive value :=
| VNull
| VBool (b : bool)
| VName (s : string)
| VText (s : string)
| VOid (n : Z)
| VInt4 (n : Z)
| VInt8 (n : Z)
| VReal (n : Z)                (** a real that is a whole number *)
| VRegclass (n : Z)
| VNames (l : list string)     (** name[] *)
| VInts (l : list Z)           (** an array of small numbers *)
| VJson (j : json).

Definition text_of (v : value) : option string :=
  match v with VName s | VText s => Some s | _ => None end.

Definition number_of (v : value) : option Z :=
  match v with VOid n | VInt4 n | VInt8 n => Some n | _ => None end.

(** LIKE on the characters of a text: % is any number of them, _ is one, and a
    backslash takes its meaning from the next. *)
Fixpoint like (pattern s : list Z) : bool :=
  match pattern with
  | [] => match s with [] => true | _ => false end
  | p :: pattern =>
      if (p =? zbyte "%")%Z then
        (fix any (s : list Z) : bool :=
           like pattern s || match s with [] => false | _ :: s => any s end) s
      else if (p =? zbyte "_")%Z then match s with [] => false | _ :: s => like pattern s end
      else if (p =? zbyte "\")%Z then
        match pattern with
        | [] => false
        | q :: pattern => match s with [] => false | c :: s => (c =? q)%Z && like pattern s end
        end
      else match s with [] => false | c :: s => (c =? p)%Z && like pattern s end
  end.

(** Comparisons and logic with NULL as unknown; [None] is a type error. *)
Definition compare_eq (v w : value) : option value :=
  match v, w with
  | VNull, _ | _, VNull => Some VNull
  | _, _ =>
      match text_of v, text_of w, number_of v, number_of w with
      | Some s, Some t, _, _ => Some (VBool (bool_decide (s = t)))
      | _, _, Some m, Some n => Some (VBool (m =? n)%Z)
      | _, _, _, _ => None
      end
  end.

Definition compare_gt (v w : value) : option value :=
  match v, w with
  | VNull, _ | _, VNull => Some VNull
  | _, _ => m ← number_of v; n ← number_of w; Some (VBool (n <? m)%Z)
  end.

Definition compare_like (v w : value) : option value :=
  match v, w with
  | VNull, _ | _, VNull => Some VNull
  | _, _ =>
      s ← text_of v; p ← text_of w;
      Some (VBool (like (runes (s2b p)) (runes (s2b s))))
  end.

Definition logic_not (v : value) : option value :=
  match v with VNull => Some VNull | VBool b => Some (VBool (negb b)) | _ => None end.

Definition logic_and (v w : value) : option value :=
  match v, w with
  | VBool a, VBool b => Some (VBool (a && b))
  | VBool a, VNull | VNull, VBool a => Some (if a then VNull else VBool false)
  | VNull, VNull => Some VNull
  | _, _ => None
  end.

Definition logic_or (v w : value) : option value :=
  match v, w with
  | VBool a, VBool b => Some (VBool (a || b))
  | VBool a, VNull | VNull, VBool a => Some (if a then VBool true else VNull)
  | VNull, VNull => Some VNull
  | _, _ => None
  end.

(** v IN (w, ...) *)
Definition compare_in (v : value) (ws : list value) : option value :=
  foldr (fun w r => e ← compare_eq v w; r ← r; logic_or e r) (Some (VBool false)) ws.

Definition is_null (v : value) : bool := match v with VNull => true | _ => false end.

Fixpoint coalesce (vs : list value) : value :=
  match vs with [] => VNull | VNull :: vs => coalesce vs | v :: _ => v end.

(** A condition holds when it is true, and so not when it is unknown. *)
Definition truth (v : value) : option bool :=
  match v with VBool b => Some b | VNull => Some false | _ => None end.

(** ** Values as jsonb *)

(** The digits of a number, the last one first. *)
Fixpoint digits_rev (fuel : nat) (n : Z) : bytes :=
  match fuel with
  | 0 => []
  | S fuel =>
      let d := zascii (48 + n mod 10) in
      if (n <? 10)%Z then [d] else d :: digits_rev fuel (n / 10)
  end.

Definition nat_text (n : Z) : bytes := rev (digits_rev (S (Z.to_nat (Z.log2 n))) n).

Definition z_text (n : Z) : bytes := if (n <? 0)%Z then "-"%char :: nat_text (- n) else nat_text n.

(** to_jsonb: an oid is a text, unlike the other numbers. *)
Definition to_json (v : value) : option json :=
  match v with
  | VNull => Some JNull
  | VBool b => Some (JBool b)
  | VName s | VText s => Some (JStr (s2b s))
  | VInt4 n | VInt8 n => Some (JNum (z_text n))
  | VOid n => Some (JStr (z_text n))
  | VNames l => Some (JArr ((fun s => JStr (s2b s)) <$> l))
  | VJson j => Some j
  | VReal _ | VRegclass _ | VInts _ => None
  end.

(** jsonb keeps the last of several members with the same key, and sorts by the length of
    the key first. *)
Fixpoint last_wins (kvs : list (bytes * json)) : list (bytes * json) :=
  match kvs with
  | [] => []
  | (k, j) :: kvs => if decide (k ∈ kvs.*1) then last_wins kvs else (k, j) :: last_wins kvs
  end.

Definition key_le (x y : bytes * json) : Prop :=
  length x.1 < length y.1 \/ length x.1 = length y.1 /\ String.le (b2s x.1) (b2s y.1).

#[export] Instance key_le_dec x y : Decision (key_le x y).
Proof. unfold key_le. apply _. Defined.

Definition jsonb_object (kvs : list (bytes * json)) : json := JObj (merge_sort key_le (last_wins kvs)).

Fixpoint members (vs : list value) : option (list (bytes * json)) :=
  match vs with
  | [] => Some []
  | k :: v :: vs => k ← text_of k; j ← to_json v; kvs ← members vs; Some ((s2b k, j) :: kvs)
  | [_] => None
  end.

Definition jsonb_build_object (vs : list value) : option value :=
  VJson ∘ jsonb_object <$> members vs.

(** ** The order of values

    Names and texts by their bytes, numbers by size, NULL last; what has no order in the
    queries is not told apart. *)
Definition rank (v : value) : nat :=
  match v with
  | VBool _ => 0 | VName _ => 1 | VText _ => 2 | VOid _ => 3 | VInt4 _ => 4 | VInt8 _ => 5
  | VReal _ | VRegclass _ | VNames _ | VInts _ | VJson _ => 6 | VNull => 7
  end.

Definition value_le (v w : value) : Prop :=
  match v, w with
  | VName s, VName t | VText s, VText t => String.le s t
  | VOid m, VOid n | VInt4 m, VInt4 n | VInt8 m, VInt8 n => (m <= n)%Z
  | VBool a, VBool b => a = true -> b = true
  | _, _ => rank v <= rank w
  end.

(** The first key that differs decides. *)
Fixpoint keys_le (l k : list value) : Prop :=
  match l, k with
  | v :: l, w :: k => value_le v w /\ (value_le w v -> keys_le l k)
  | [], _ => True
  | _ :: _, [] => False
  end.

#[export] Instance value_le_dec v w : Decision (value_le v w).
Proof. destruct v, w; simpl; apply _. Defined.

#[export] Instance keys_le_dec l : forall k, Decision (keys_le l k).
Proof.
  induction l as [|v l IH]; intros [|w k]; simpl; [by left|by left|right; intros []|].
  destruct (decide (value_le v w)); [|by right; intros []].
  destruct (decide (value_le w v)); [|by left].
  destruct (IH k); [by left; auto|right; intros [_ H]; auto].
Defined.

#[export] Instance value_le_preorder : PreOrder value_le.
Proof.
  split.
  - intros []; simpl; done || lia || auto.
  - intros [] [] []; simpl; try done; try lia; try (by auto); apply transitivity.
Qed.

#[export] Instance value_le_total : Total value_le.
Proof.
  intros [] []; simpl; try lia; try (by left; lia); try (by right; lia).
  - destruct b, b0; auto.
  - apply (total String.le).
  - apply (total String.le).
Qed.

#[export] Instance keys_le_trans : Transitive keys_le.
Proof.
  intros l. induction l as [|u l IH]; intros [|v m] [|w n]; simpl; try done.
  intros [H1 H1'] [H2 H2']. split; [by etrans|]. intros H3.
  apply (IH m n); [apply H1'|apply H2']; by etrans.
Qed.

#[export] Instance keys_le_total : Total keys_le.
Proof.
  intros l. induction l as [|v l IH]; intros [|w k]; simpl; [by left|by left|by right|].
  destruct (decide (value_le v w)) as [H1|H1]; [destruct (decide (value_le w v)) as [H2|H2]|].
  - destruct (IH k); [left|right]; auto.
  - left. split; [done|]. by intros ?%H2.
  - right. destruct (total value_le v w); [done|]. split; [done|]. by intros ?%H1.
Qed.

(** ** Meaning *)

Definition tuple : Type := list (string * value).

(** A database as a query sees it. *)
Record Database := MkDatabase {
  relation : string -> option (list tuple);
  function : string -> list value -> option value;
  row_function : string -> option tuple;    (** the one row of a function in FROM *)
  regclass : Z -> string                    (** regclass to text *)
}.

(** The results of the queries of WITH are relations, too. *)
Definition with_relation (name : string) (rows : list tuple) (db : Database) : Database :=
  {| relation := fun r => if decide (r = name) then Some rows else relation db r;
     function := function db; row_function := row_function db; regclass := regclass db |}.

(** The tables of a FROM by alias, each with its tuple at hand; a table of a left join
    that has no tuple to offer is all NULL.  The innermost scope comes first. *)
Definition scope : Type := list (string * option tuple).
Definition env : Type := list scope.

Fixpoint column (en : env) (rel : option string) (col : string) : option value :=
  match en with
  | [] => None
  | sc :: en =>
      match rel with
      | Some r =>
          match assoc r sc with
          | Some (Some t) => assoc col t
          | Some None => Some VNull
          | None => column en rel col
          end
      | None =>
          match omap (fun '(_, t) => t ≫= assoc col) sc with
          | [] => column en rel col
          | [v] => Some v
          | _ => None
          end
      end
  end.

Definition cast (db : Database) (type : string) (v : value) : option value :=
  match v with
  | VNull => Some VNull
  | _ =>
      if decide (type = "int") then match v with VText s => VInt4 <$> parse_int (s2b s) | _ => None end
      else if decide (type = "bigint") then
        match v with VOid n | VInt4 n | VInt8 n | VReal n => Some (VInt8 n) | _ => None end
      else if decide (type = "text") then
        match v with VName s | VText s => Some (VText s) | VRegclass n => Some (VText (regclass db n)) | _ => None end
      else if decide (type = "regclass") then match v with VOid n => Some (VRegclass n) | _ => None end
      else if decide (type = "int[]") then match v with VInts l => Some (VInts l) | _ => None end
      else None
  end.

(** ** Aggregates *)

Definition is_aggregate (f : string) : bool := bool_decide (f = "array_agg") || bool_decide (f = "jsonb_agg").

Definition name_of (v : value) : option string := match v with VName s => Some s | _ => None end.

(** Of the arguments in all rows of a group; NULL for no rows. *)
Definition aggregate (f : string) (rows : list (list value)) : option value :=
  vs ← mapM (fun row => match row with [v] => Some v | _ => None end) rows;
  match vs with
  | [] => Some VNull
  | _ =>
      if decide (f = "array_agg") then VNames <$> mapM name_of vs
      else if decide (f = "jsonb_agg") then VJson ∘ JArr <$> mapM to_json vs
      else None
  end.

(** An aggregate outside of subqueries. *)
Fixpoint has_aggregate (e : expr) : bool :=
  match e with
  | EColumn _ _ | EText _ | ENum _ | ENull | EExists _ | EScalar _ => false
  | ECall f args _ => is_aggregate f || existsb has_aggregate args
  | ECast e _ | EIsNull e | ENot e => has_aggregate e
  | EEq a b | EGt a b | ELike a b | EAnd a b => has_aggregate a || has_aggregate b
  | EIn e l => has_aggregate e || existsb has_aggregate l
  | ECase l => existsb (fun '(a, b) => has_aggregate a || has_aggregate b) l
  end.

Definition grouped (q : query) : bool :=
  match q_group q with [] => existsb (fun '(e, _) => has_aggregate e) (q_select q) | _ => true end.

(** Keys of groups: NULL is like NULL. *)
Fixpoint same_keys (l k : list value) : bool :=
  match l, k with
  | [], [] => true
  | v :: l, w :: k =>
      (is_null v && is_null w || match compare_eq v w with Some (VBool b) => b | _ => false end) && same_keys l k
  | _, _ => false
  end.

(** Puts a row with its keys into its group. *)
Fixpoint add_row {A} (x : list value * A) (gs : list (list value * list A)) : list (list value * list A) :=
  match gs with
  | [] => [(x.1, [x.2])]
  | (k, l) :: gs => if same_keys x.1 k then (k, x.2 :: l) :: gs else (k, l) :: add_row x gs
  end.

Definition groups {A} (keyed : list (list value * A)) : list (list A) := (foldr add_row [] keyed).*2.

(** In the order of their keys. *)
Fixpoint insert_keyed {A} (x : list value * A) (l : list (list value * A)) : list (list value * A) :=
  match l with
  | [] => [x]
  | y :: l => if decide (keys_le x.1 y.1) then x :: y :: l else y :: insert_keyed x l
  end.

Definition sort_keyed {A} (l : list (list value * A)) : list A := (foldr insert_keyed [] l).*2.

(** WITH ORDINALITY *)
Definition positions (l : list Z) : list (nat * Z) := zip (seq 1 (length l)) l.

Definition ordinality (c1 c2 : string) (l : list Z) : list tuple :=
  (fun p : nat * Z => [(c1, VInt4 p.2); (c2, VInt8 (Z.of_nat p.1))]) <$> positions l.

Fixpoint filterM {A} (f : A -> option bool) (l : list A) : option (list A) :=
  match l with
  | [] => Some []
  | x :: l => b ← f x; l ← filterM f l; Some (if b : bool then x :: l else l)
  end.

(** ** Evaluation *)
Section evaluation.
(** The order in which a query, inside the rows around it, has its own rows. *)
Variable shuffle : query -> env -> list env -> list env.

Section level.
(** Evaluation at a lower depth. *)
Variable eval : Database -> option (list env) -> env -> expr -> option value.
Variable run : Database -> env -> query -> option (list tuple).

Definition call (db : Database) (group : option (list env)) (en : env) (f : string) (args order : list expr)
    : option value :=
  if is_aggregate f then
    ens ← group;
    keyed ← mapM (fun en =>
      ks ← mapM (eval db None en) order; vs ← mapM (eval db None en) args; Some (ks, vs)) ens;
    aggregate f (sort_keyed keyed)
  else
    vs ← mapM (eval db group en) args;
    if decide (f = "coalesce") then Some (coalesce vs)
    else if decide (f = "jsonb_build_object") then jsonb_build_object vs
    else function db f vs.

Fixpoint eval_case (db : Database) (group : option (list env)) (en : env) (l : list (expr * expr)) : option value :=
  match l with
  | [] => Some VNull
  | (c, e) :: l =>
      v ← eval db group en c; b ← truth v;
      if b : bool then eval db group en e else eval_case db group en l
  end.

(** [group] is the group that an expression of the select list is evaluated for. *)
Definition eval_at (db : Database) (group : option (list env)) (en : env) (e : expr) : option value :=
  match e with
  | EColumn rel col => column en rel col
  | EText s => Some (VText s)
  | ENum n => Some (VInt4 n)
  | ENull => Some VNull
  | ECall f args order => call db group en f args order
  | ECast e type => v ← eval db group en e; cast db type v
  | EEq e1 e2 => v ← eval db group en e1; w ← eval db group en e2; compare_eq v w
  | EGt e1 e2 => v ← eval db group en e1; w ← eval db group en e2; compare_gt v w
  | ELike e1 e2 => v ← eval db group en e1; w ← eval db group en e2; compare_like v w
  | EIn e l => v ← eval db group en e; ws ← mapM (eval db group en) l; compare_in v ws
  | EIsNull e => v ← eval db group en e; Some (VBool (is_null v))
  | ENot e => v ← eval db group en e; logic_not v
  | EAnd e1 e2 => v ← eval db group en e1; w ← eval db group en e2; logic_and v w
  | ECase l => eval_case db group en l
  | EExists q => rows ← run db en q; Some (VBool (match rows with [] => false | _ => true end))
  | EScalar q =>
      rows ← run db en q;
      match rows with [] => Some VNull | [[(_, v)]] => Some v | _ => None end
  end.

Definition test (db : Database) (en : env) (e : option expr) : option bool :=
  match e with None => Some true | Some e => eval db None en e ≫= truth end.

Definition item_tuples (db : Database) (en : env) (s : source) : option (list tuple) :=
  match src_item s, src_cols s with
  | ITable name, [] => relation db name
  | IFunction f, [] => t ← row_function db f; Some [t]
  | IUnnest e, [c1; c2] =>
      v ← eval db None en e;
      match v with VInts l => Some (ordinality c1 c2 l) | VNull => Some [] | _ => None end
  | _, _ => None
  end.

(** What a source offers for the tuples before it. *)
Definition joined (db : Database) (en : env) (sc : scope) (s : source) : option (list scope) :=
  ts ← item_tuples db (sc :: en) s;
  ms ← filterM (fun sc => test db (sc :: en) (src_on s)) ((fun t => sc ++ [(src_alias s, Some t)]) <$> ts);
  Some (match ms, src_kind s with [], JLeft => [sc ++ [(src_alias s, None)]] | _, _ => ms end).

Fixpoint combinations (db : Database) (en : env) (sc : scope) (from : list source) : option (list scope) :=
  match from with
  | [] => Some [sc]
  | s :: from =>
      scs ← joined db en sc s;
      l ← mapM (fun sc => combinations db en sc from) scs;
      Some (concat l)
  end.

Fixpoint run_withs (db : Database) (ws : list (string * query)) : option Database :=
  match ws with
  | [] => Some db
  | (name, q) :: ws => rows ← run db [] q; run_withs (with_relation name rows db) ws
  end.

(** What the select list is evaluated for: each row, or each group with one of its rows. *)
Definition contexts (db : Database) (en : env) (q : query) (ens : list env) : option (list (option (list env) * env)) :=
  if grouped q then
    match q_group q with
    | [] => Some [(Some ens, hd ([] :: en) ens)]
    | es =>
        keyed ← mapM (fun en => ks ← mapM (eval db None en) es; Some (ks, en)) ens;
        Some ((fun g => (Some g, hd ([] :: en) g)) <$> groups keyed)
    end
  else Some ((fun en => (None, en)) <$> ens).

Definition select_row (db : Database) (q : query) (x : option (list env) * env) : option (list value * tuple) :=
  ks ← mapM (eval db x.1 x.2) (q_order q);
  t ← mapM (fun '(e, name) => v ← eval db x.1 x.2 e; Some (name, v)) (q_select q);
  Some (ks, t).

(** The rows before they are selected. *)
Definition matches (db : Database) (en : env) (q : query) : option (list env) :=
  scs ← combinations db en [] (q_from q);
  filterM (fun en => test db en (q_where q)) ((fun sc => sc :: en) <$> scs).

Definition run_at (db : Database) (en : env) (q : query) : option (list tuple) :=
  db ← run_withs db (q_withs q);
  ens ← matches db en q;
  cs ← contexts db en q (shuffle q en ens);
  rows ← mapM (select_row db q) cs;
  Some (sort_keyed rows).
End level.

(** [depth] bounds the height of the query. *)
Fixpoint eval (depth : nat) (db : Database) (group : option (list env)) (en : env) (e : expr) : option value :=
  match depth with
  | 0 => None
  | S depth => eval_at (eval depth) (run depth) db group en e
  end
with run (depth : nat) (db : Database) (en : env) (q : query) : option (list tuple) :=
  match depth with
  | 0 => None
  | S depth => run_at (eval depth) (run depth) db en q
  end.
End evaluation.

(** Enough for the queries of the store. *)
Definition max_depth : nat := 20.

Definition row_values (ts : list tuple) : list (list value) := (fun t : tuple => t.*2) <$> ts.

(** The rows that a server may answer with. *)
Definition answer (db : Database) (q : query) (rows : list (list value)) : Prop :=
  exists shuffle, (forall q en ens, shuffle q en ens ≡ₚ ens) /\
    exists ts, run shuffle max_depth db [] q = Some ts /\ rows = row_values ts.

(** One of them. *)
Definition run_query (db : Database) (q : query) : option (list (list value)) :=
  row_values <$> run (fun _ _ ens => ens) max_depth db [] q.

Lemma run_query_answer db q rows : run_query db q = Some rows -> answer db q rows.
Proof.
  unfold run_query. intros H. exists (fun _ _ ens => ens). split; [done|].
  destruct (run _ _ _ _ _) as [ts|]; [|done]. injection H as <-. by exists ts.
Qed.
