(* ===== verification/SqlTyped.v ===== *)
(** * Queries on tables whose tuples come from records

    When the tuples of the tables are the images of records, and the conditions, keys
    and columns of a query are functions of the records, then so are its rows: the
    lemmas of this file take a query apart clause by clause. *)

From S2P Require Import Prelude GoStrings Json JsonDecode SqlSyntax Sql.

(** ** Lists *)

Lemma mapM_fmap {A B C} (f : A -> B) (g : B -> option C) l : mapM g (f <$> l) = mapM (fun x => g (f x)) l.
Proof.
  induction l as [|x l IH]; [done|].
  change (mapM g (f <$> x :: l)) with (y ← g (f x); k ← mapM g (f <$> l); Some (y :: k)). by rewrite IH.
Qed.

Lemma mapM_fmap_in {A B C} (f : A -> B) (g : B -> option C) (h : A -> C) l :
  (forall a, a ∈ l -> g (f a) = Some (h a)) -> mapM g (f <$> l) = Some (h <$> l).
Proof.
  rewrite mapM_fmap. induction l as [|x l IH]; intros H; [done|]. simpl. rewrite (H x) by by constructor.
  rewrite IH; [done|]. intros a Ha. apply H. by constructor.
Qed.

Lemma mapM_fmap_Some {A B C} (f : A -> B) (g : B -> option C) (h : A -> C) l :
  (forall a, g (f a) = Some (h a)) -> mapM g (f <$> l) = Some (h <$> l).
Proof. intros H. by apply mapM_fmap_in. Qed.

Lemma filterM_fmap_Some {A B} (f : A -> B) (g : B -> option bool) (c : A -> bool) l :
  (forall a, g (f a) = Some (c a)) -> filterM g (f <$> l) = Some (f <$> filter (fun a => c a = true) l).
Proof.
  intros H. induction l as [|a l IH]; [done|]. csimpl. rewrite H, IH, filter_cons. simpl.
  destruct (c a); by simpl.
Qed.

Lemma filter_if {A B} (c : A -> bool) (h : A -> list B) l :
  (filter (fun a => c a = true) l ≫= h) = (l ≫= fun a => if c a then h a else []).
Proof.
  induction l as [|a l IH]; [done|]. rewrite filter_cons. csimpl. rewrite <- IH. by destruct (c a).
Qed.

Lemma filter_holds {A} (P : A -> Prop) `{forall x, Decision (P x)} (l : list A) : (forall x, x ∈ l -> P x) -> filter P l = l.
Proof.
  induction l as [|x l IH]; intros Hl; [done|]. rewrite filter_cons_True by (apply Hl; constructor).
  f_equal. apply IH. intros y Hy. apply Hl. by constructor.
Qed.

Lemma filter_fails {A} (P : A -> Prop) `{forall x, Decision (P x)} (l : list A) : (forall x, x ∈ l -> ~ P x) -> filter P l = [].
Proof.
  induction l as [|x l IH]; intros Hl; [done|]. rewrite filter_cons_False by (apply Hl; constructor).
  apply IH. intros y Hy. apply Hl. by constructor.
Qed.

(** What comes from one of several elements with different keys. *)
Lemma filter_bind_unique {A B} (key : A -> Z) (id : B -> Z) (F : A -> list B) l a :
  NoDup (key <$> l) -> (forall a b, b ∈ F a -> id b = key a) -> a ∈ l ->
  filter (fun b => id b = key a) (l ≫= F) = F a.
Proof.
  intros Hn Hid Ha. induction l as [|a' l IH]; [by apply not_elem_of_nil in Ha|]. csimpl in *.
  apply NoDup_cons in Hn as [Ha' Hn]. rewrite filter_app. apply elem_of_cons in Ha as [->|Ha].
  - rewrite (filter_holds _ (F a')) by apply Hid. rewrite filter_fails; [by rewrite app_nil_r|].
    intros b (a & Hb & Hal)%list_elem_of_bind E. apply Hid in Hb. destruct Ha'. apply list_elem_of_fmap.
    exists a. split; [congruence|done].
  - rewrite filter_fails; [by apply IH|]. intros b Hb%Hid E. destruct Ha'. apply list_elem_of_fmap.
    exists a. split; [congruence|done].
Qed.

Lemma bind_true {A} (l : list A) : (l ≫= fun x => if true then [x] else []) = l.
Proof. induction l as [|x l IH]; [done|]. csimpl. by rewrite IH. Qed.

Lemma filter_all {A} (l : list A) : filter (fun _ => true = true) l = l.
Proof. induction l as [|x l IH]; [done|]. rewrite filter_cons. simpl. by rewrite IH. Qed.

Lemma fmap_bind_list {A B C} (f : B -> C) (h : A -> list B) l : f <$> (l ≫= h) = l ≫= fun a => f <$> h a.
Proof. induction l as [|a l IH]; [done|]. csimpl. by rewrite fmap_app, IH. Qed.

Lemma StronglySorted_weaken {A} (R R' : A -> A -> Prop) l :
  (forall x y, R x y -> R' x y) -> StronglySorted R l -> StronglySorted R' l.
Proof.
  intros HR. induction 1 as [|x l _ IH Hx]; constructor; [done|]. eapply Forall_impl; [exact Hx|]. apply HR.
Qed.

Lemma Forall2_impl_in {A B} (R Q : A -> B -> Prop) l k :
  Forall2 R l k -> (forall x y, x ∈ l -> R x y -> Q x y) -> Forall2 Q l k.
Proof.
  induction 1 as [|x y l k HR _ IH]; intros H; [constructor|].
  constructor; [apply H; [constructor|done]|]. apply IH. intros u v Hu. apply H. by constructor.
Qed.

(** Witnesses of the elements as a list. *)
Lemma Forall2_choose {A B C} (P : A -> C -> Prop) (f : C -> B) l k :
  Forall2 (fun x y => exists z, P x z /\ y = f z) l k -> exists zs, Forall2 P l zs /\ k = f <$> zs.
Proof.
  induction 1 as [|x y l k (z & HP & ->) _ (zs & HF & ->)]; [by exists []|]. exists (z :: zs). by split; [constructor|].
Qed.

(** ** Sorting *)

Lemma insert_keyed_fmap {A B} (f : A -> B) x l :
  insert_keyed (prod_map id f x) (prod_map id f <$> l) = prod_map id f <$> insert_keyed x l.
Proof.
  induction l as [|y l IH]; [done|]. csimpl. destruct x as [kx x], y as [ky y]. simpl in *.
  case_decide; [done|]. csimpl. by rewrite <- IH.
Qed.

Lemma insert_keyed_perm {A} (x : list value * A) l : insert_keyed x l ≡ₚ x :: l.
Proof.
  induction l as [|y l IH]; [done|]. simpl. case_decide; [done|]. rewrite IH. by constructor.
Qed.

Lemma insert_keyed_sorted {A} (x : list value * A) l :
  StronglySorted (fun x y => keys_le x.1 y.1) l -> StronglySorted (fun x y => keys_le x.1 y.1) (insert_keyed x l).
Proof.
  induction 1 as [|y l Hl IH Hy]; simpl; [by repeat constructor|].
  case_decide as Hd.
  - constructor; [by constructor|]. constructor; [done|]. eapply Forall_impl; [exact Hy|]. intros z. by apply (transitivity (R := keys_le)).
  - constructor; [done|]. rewrite insert_keyed_perm. constructor; [|done].
    by destruct (total keys_le x.1 y.1).
Qed.

(** The elements in the order of their keys. *)
Definition sort_on {A} (key : A -> list value) (l : list A) : list A :=
  sort_keyed ((fun x => (key x, x)) <$> l).

Lemma sort_keyed_on {A B} (key : A -> list value) (f : A -> B) l :
  sort_keyed ((fun x => (key x, f x)) <$> l) = f <$> sort_on key l.
Proof.
  unfold sort_on, sort_keyed. rewrite <- (list_fmap_compose snd f).
  assert (foldr insert_keyed [] ((fun x => (key x, f x)) <$> l) =
    prod_map id f <$> foldr insert_keyed [] ((fun x => (key x, x)) <$> l)) as ->.
  { induction l as [|x l IH]; [done|]. csimpl. rewrite IH. exact (insert_keyed_fmap f (key x, x) _). }
  rewrite <- list_fmap_compose. done.
Qed.

Lemma sort_keyed_perm {A} (l : list (list value * A)) : sort_keyed l ≡ₚ l.*2.
Proof.
  unfold sort_keyed. apply fmap_Permutation. induction l as [|x l IH]; [done|]. simpl. by rewrite insert_keyed_perm, IH.
Qed.

Lemma sort_on_perm {A} (key : A -> list value) l : sort_on key l ≡ₚ l.
Proof. unfold sort_on. rewrite sort_keyed_perm, <- list_fmap_compose. by rewrite list_fmap_id. Qed.

Lemma sort_on_sorted {A} (key : A -> list value) l : StronglySorted (fun x y => keys_le (key x) (key y)) (sort_on key l).
Proof.
  unfold sort_on, sort_keyed. set (m := foldr _ _ _).
  assert (StronglySorted (fun x y => keys_le x.1 y.1) m /\ Forall (fun x => x.1 = key x.2) m) as [Hs HF].
  { subst m. induction l as [|x l [IH1 IH2]]; csimpl; [split; constructor|]. split; [by apply insert_keyed_sorted|].
    rewrite insert_keyed_perm. by constructor. }
  induction Hs as [|x m Hs IH Hx]; csimpl; [constructor|]. apply Forall_cons in HF as [Hk HF].
  constructor; [by apply IH|]. apply Forall_fmap. rewrite Forall_forall in *. intros y Hy. simpl.
  rewrite <- Hk, <- (HF y Hy). by apply Hx.
Qed.

(** A list that is in a strict order of its keys is the only one. *)
Lemma sort_on_unique {A} (key : A -> list value) l ys :
  StronglySorted (fun x y => keys_le (key x) (key y) /\ ~ keys_le (key y) (key x)) l -> ys ≡ₚ l -> sort_on key ys = l.
Proof.
  intros Hl Hp. symmetry. apply (StronglySorted_unique_strong (fun x y => keys_le (key x) (key y))).
  - assert (forall x y, x ∈ l -> y ∈ l -> keys_le (key x) (key y) -> keys_le (key y) (key x) -> x = y) as H.
    { clear Hp. induction Hl as [|z l Hl IH Hz]; [by intros ? ? ?%not_elem_of_nil|].
      rewrite Forall_forall in Hz. intros x y [->|Hx]%elem_of_cons [->|Hy]%elem_of_cons H1 H2; [done| | |by apply IH].
      - by destruct (Hz y Hy).
      - by destruct (Hz x Hx). }
    intros x y Hx Hy. apply H; [done|]. by rewrite sort_on_perm, Hp in Hy.
  - eapply StronglySorted_weaken; [|exact Hl]. by intros x y [].
  - apply sort_on_sorted.
  - by rewrite sort_on_perm, Hp.
Qed.

(** ** Groups *)

Definition map_group {A B} (f : A -> B) (g : list value * list A) : list value * list B := (g.1, f <$> g.2).

Lemma add_row_fmap {A B} (f : A -> B) (x : list value * A) gs :
  add_row (x.1, f x.2) (map_group f <$> gs) = map_group f <$> add_row x gs.
Proof.
  induction gs as [|[k l] gs IH]; [done|]. csimpl. destruct (same_keys x.1 k); [done|]. csimpl. by rewrite <- IH.
Qed.

(** The groups of a list by the keys of its elements. *)
Definition group_on {A} (key : A -> list value) (l : list A) : list (list A) :=
  groups ((fun x => (key x, x)) <$> l).

Lemma groups_on {A B} (key : A -> list value) (f : A -> B) (l : list A) :
  groups ((fun x => (key x, f x)) <$> l) = (fmap f : list A -> list B) <$> group_on key l.
Proof.
  unfold group_on, groups.
  assert (foldr add_row [] ((fun x => (key x, f x)) <$> l) =
    map_group f <$> foldr add_row [] ((fun x => (key x, x)) <$> l)) as ->.
  { induction l as [|x l IH]; [done|]. csimpl. rewrite IH. exact (add_row_fmap f (key x, x) _). }
  by rewrite <- !list_fmap_compose.
Qed.

(** The groups of a list by an identity of its elements. *)
Record partition {A K} (id : A -> K) (l : list A) (gs : list (K * list A)) : Prop := {
  pt_nodup : NoDup gs.*1;
  pt_group k g : (k, g) ∈ gs -> g <> [] /\ forall x, x ∈ g -> id x = k;
  pt_all : l ≡ₚ gs.*2 ≫= (fun g => g)
}.

Section partition.
Context {A K : Type} `{EqDecision K}.
Variable id : A -> K.

Fixpoint add_id (x : A) (gs : list (K * list A)) : list (K * list A) :=
  match gs with
  | [] => [(id x, [x])]
  | (k, l) :: gs => if decide (id x = k) then (k, x :: l) :: gs else (k, l) :: add_id x gs
  end.

Lemma add_id_keys x gs k : k ∈ (add_id x gs).*1 <-> k = id x \/ k ∈ gs.*1.
Proof.
  induction gs as [|[k' l] gs IH]; simpl; [by rewrite elem_of_cons|].
  case_decide as Hd; csimpl; rewrite !elem_of_cons; [rewrite Hd; tauto|]. rewrite IH. tauto.
Qed.

Lemma add_id_partition x l gs : partition id l gs -> partition id (x :: l) (add_id x gs).
Proof.
  intros [Hn Hg Hl]. split.
  - clear -Hn. induction gs as [|[k l] gs IH]; csimpl; [repeat constructor; apply not_elem_of_nil|].
    csimpl in Hn. apply NoDup_cons in Hn as [Hk Hn]. case_decide; csimpl; constructor; auto.
    rewrite add_id_keys. intros [E|E]; by auto.
  - clear Hl Hn. intros k g Hk. induction gs as [|[k' l'] gs IH]; simpl in Hk.
    + apply list_elem_of_singleton in Hk as [= -> ->]. split; [done|]. by intros y ->%list_elem_of_singleton.
    + case_decide as Hd; apply elem_of_cons in Hk as [[= -> ->]|Hk].
      * destruct (Hg k' l') as [_ Hl]; [apply elem_of_cons; by left|]. split; [done|].
        intros y [->|Hy]%elem_of_cons; [done|by apply Hl].
      * apply Hg. apply elem_of_cons. by right.
      * apply Hg. apply elem_of_cons. by left.
      * apply IH; [|done]. intros k2 g2 H2. apply Hg. apply elem_of_cons. by right.
  - rewrite Hl. clear. induction gs as [|[k l] gs IH]; csimpl; [reflexivity|].
    case_decide; csimpl; [done|]. rewrite <- IH. by rewrite Permutation_middle.
Qed.

Lemma groups_partition (key : A -> list value) l :
  (forall x y, x ∈ l -> y ∈ l -> same_keys (key x) (key y) = bool_decide (id x = id y)) ->
  exists gs, partition id l gs /\ group_on key l = gs.*2.
Proof.
  intros Hid. exists (foldr add_id [] l). split.
  - clear Hid. induction l as [|x l IH]; simpl; [|by apply add_id_partition].
    split; [constructor| |done]. intros k g H. by apply not_elem_of_nil in H.
  - unfold group_on, groups.
    assert (Forall2 (fun u v => u.2 = v.2 /\ exists y, y ∈ l /\ u.1 = key y /\ id y = v.1)
      (foldr add_row [] ((fun x => (key x, x)) <$> l)) (foldr add_id [] l)) as HF.
    { induction l as [|x l IH]; csimpl; [constructor|].
      assert (Forall2 (fun u v => u.2 = v.2 /\ exists y, y ∈ x :: l /\ u.1 = key y /\ id y = v.1)
        (foldr add_row [] ((fun x => (key x, x)) <$> l)) (foldr add_id [] l)) as IH'.
      { eapply Forall2_impl; [apply IH; intros; apply Hid; by constructor|].
        intros u v [Hg (y & Hy & Hk)]. split; [done|]. exists y. split; [by constructor|done]. }
      clear IH. induction IH' as [|[k g] [k' g'] us vs [Hg (y & Hl & Hk & Hy)] Hrest IH]; simpl in *.
      - repeat constructor. exists x. split; [constructor|done].
      - subst g' k k'. rewrite Hid by (done || constructor). case_bool_decide; case_decide; try done.
        + constructor; [|done]. simpl. split; [done|]. by exists y.
        + constructor; [|done]. split; [done|]. by exists y. }
    clear Hid. induction HF as [|[] [] us vs [E _] _ IH]; [done|]. simpl in E. csimpl. by rewrite E, IH.
Qed.
End partition.

Lemma partition_perm {A K} (id : A -> K) l l' gs gs' :
  partition id l gs -> l ≡ₚ l' -> gs ≡ₚ gs' -> partition id l' gs'.
Proof.
  intros [Hn Hg Hl] Hp Hgs. split; [by rewrite <- Hgs| |by rewrite <- Hp, <- Hgs].
  intros k g. rewrite <- Hgs. apply Hg.
Qed.

(** The group of a key is what has this key. *)
Lemma partition_filter {A K} `{EqDecision K} (id : A -> K) l gs k :
  partition id l gs -> (gs ≫= fun kg => if decide (kg.1 = k) then kg.2 else []) ≡ₚ filter (fun x => id x = k) l.
Proof.
  intros [_ Hg Hl]. rewrite Hl. clear Hl. induction gs as [|[k' g] gs IH]; [done|]. csimpl.
  rewrite filter_app, <- IH; [|intros k2 g2 H2; apply Hg; by constructor]. apply Permutation_app_tail.
  assert (forall x, x ∈ g -> id x = k') as Hid by (apply (Hg k' g); constructor).
  clear Hg IH. case_decide as Hk; subst; induction g as [|x g IHg]; try done; rewrite filter_cons.
  - rewrite decide_True by (apply Hid; constructor). f_equiv. apply IHg. intros y Hy. apply Hid. by constructor.
  - rewrite decide_False by (rewrite (Hid x) by constructor; done). apply IHg. intros y Hy. apply Hid. by constructor.
Qed.

Lemma partition_group {A K} `{EqDecision K} (id : A -> K) l gs k g :
  partition id l gs -> (k, g) ∈ gs -> g ≡ₚ filter (fun x => id x = k) l.
Proof.
  intros Hp Hk. rewrite <- (partition_filter id l gs k Hp). destruct Hp as [Hn _ _].
  induction gs as [|[k' g'] gs IH]; [by apply not_elem_of_nil in Hk|]. csimpl in *.
  apply NoDup_cons in Hn as [Hk' Hn]. apply elem_of_cons in Hk as [[= <- <-]|Hk].
  - rewrite decide_True by done. clear IH.
    assert ((gs ≫= fun kg => if decide (kg.1 = k) then kg.2 else []) = []) as ->; [|by rewrite app_nil_r].
    induction gs as [|[k2 g2] gs IH]; [done|]. csimpl in *. apply not_elem_of_cons in Hk' as [Hne Hk'].
    apply NoDup_cons in Hn as [_ Hn]. rewrite decide_False by congruence. by apply IH.
  - rewrite decide_False; [by apply IH|]. intros ->. apply Hk'. apply list_elem_of_fmap. by exists (k, g).
Qed.

Lemma partition_none {A K} `{EqDecision K} (id : A -> K) l gs k :
  partition id l gs -> k ∉ gs.*1 -> filter (fun x => id x = k) l = [].
Proof.
  intros Hp Hk. apply Permutation_nil. rewrite <- (partition_filter id l gs k Hp). clear Hp.
  induction gs as [|[k' g'] gs IH]; [done|]. csimpl in *. apply not_elem_of_cons in Hk as [Hne Hk].
  rewrite decide_False by congruence. by rewrite <- IH.
Qed.

(** ** Sources *)

(** What a join offers for the tuples that match. *)
Definition offered {A} (kind : join_kind) (ms : list A) : list (option A) :=
  match ms, kind with [], JLeft => [None] | _, _ => Some <$> ms end.

(** At most one tuple has a key that is unique. *)
Lemma filter_unique {A K} (key : A -> K) (cond : A -> bool) xs :
  NoDup (key <$> xs) -> (forall x y, cond x = true -> cond y = true -> key x = key y) ->
  filter (fun x => cond x = true) xs = [] \/ exists x, filter (fun x => cond x = true) xs = [x].
Proof.
  intros Hn Hc. induction xs as [|x xs IH]; [by left|]. csimpl in Hn. apply NoDup_cons in Hn as [Hx Hn].
  rewrite filter_cons. destruct (cond x) eqn:E; simpl; [|by apply IH]. right. exists x. f_equal.
  destruct (IH Hn) as [?|[y Ey]]; [done|]. destruct Hx. assert (y ∈ [y]) as Hy by constructor.
  rewrite <- Ey in Hy. apply list_elem_of_filter in Hy as [Hcy Hy]. apply list_elem_of_fmap. exists y. auto.
Qed.

Definition lookup_key {A} (key : A -> Z) (xs : list A) (k : Z) : option A := head (filter (fun x => (key x =? k)%Z = true) xs).

Lemma offered_lookup {A} (key : A -> Z) xs k :
  NoDup (key <$> xs) ->
  offered JLeft (filter (fun x => (key x =? k)%Z = true) xs) = [lookup_key key xs k].
Proof.
  intros Hn. unfold lookup_key. destruct (filter_unique key (fun x => key x =? k)%Z xs Hn) as [E|[x E]]; [|by rewrite E..].
  intros x y Ex%Z.eqb_eq Ey%Z.eqb_eq. congruence.
Qed.

Lemma lookup_key_spec {A} (key : A -> Z) xs k :
  match lookup_key key xs k with Some x => x ∈ xs /\ key x = k | None => k ∉ key <$> xs end.
Proof.
  unfold lookup_key. destruct (filter _ xs) as [|x l] eqn:E; simpl.
  - intros (x & -> & Hx)%list_elem_of_fmap. apply (not_elem_of_nil x). rewrite <- E. apply list_elem_of_filter.
    by rewrite Z.eqb_refl.
  - assert (x ∈ x :: l) as Hx by constructor. rewrite <- E in Hx. by apply list_elem_of_filter in Hx as [?%Z.eqb_eq ?].
Qed.

Section typed.
Variable shuffle : query -> env -> list env -> list env.
Hypothesis shuffle_perm : forall q en ens, shuffle q en ens ≡ₚ ens.
Variable eval : Sql.Database -> option (list env) -> env -> expr -> option value.
Variable run : Sql.Database -> env -> query -> option (list tuple).

Lemma joined_typed {A} db en sc s (f : A -> tuple) xs (cond : A -> bool) :
  item_tuples eval db (sc :: en) s = Some (f <$> xs) ->
  (forall x, test eval db ((sc ++ [(src_alias s, Some (f x))]) :: en) (src_on s) = Some (cond x)) ->
  joined eval db en sc s = Some ((fun o : option A => sc ++ [(src_alias s, f <$> o)]) <$>
    offered (src_kind s) (filter (fun x => cond x = true) xs)).
Proof.
  intros Hr Hc. unfold joined. rewrite Hr. cbn [mbind option_bind]. rewrite <- list_fmap_compose.
  rewrite (filterM_fmap_Some _ _ cond); [|exact Hc]. cbn [mbind option_bind]. f_equal. unfold offered.
  destruct (filter _ xs) as [|x l]; [by destruct (src_kind s)|]. csimpl. by rewrite <- list_fmap_compose.
Qed.

Lemma combinations_cons {A B} db en sc s from (f : A -> tuple) xs (cond : A -> bool)
    (h : option A -> list B) (k : B -> scope) :
  item_tuples eval db (sc :: en) s = Some (f <$> xs) ->
  (forall x, test eval db ((sc ++ [(src_alias s, Some (f x))]) :: en) (src_on s) = Some (cond x)) ->
  (forall o : option A, combinations eval db en (sc ++ [(src_alias s, f <$> o)]) from = Some (k <$> h o)) ->
  combinations eval db en sc (s :: from) =
    Some (k <$> (offered (src_kind s) (filter (fun x => cond x = true) xs) ≫= h)).
Proof.
  intros Hr Hc Hk. cbn [combinations]. rewrite (joined_typed _ _ _ _ f xs cond Hr Hc). cbn [mbind option_bind].
  rewrite (mapM_fmap_Some _ _ (fun o => k <$> h o)) by done. cbn [mbind option_bind]. f_equal.
  induction (offered _ _) as [|o l IH]; [done|]. csimpl. by rewrite IH, fmap_app.
Qed.

Lemma combinations_inner {A B} db en sc s from (f : A -> tuple) xs (cond : A -> bool) (h : A -> list B) (k : B -> scope) :
  src_kind s = JInner ->
  item_tuples eval db (sc :: en) s = Some (f <$> xs) ->
  (forall x, test eval db ((sc ++ [(src_alias s, Some (f x))]) :: en) (src_on s) = Some (cond x)) ->
  (forall x, combinations eval db en (sc ++ [(src_alias s, Some (f x))]) from = Some (k <$> h x)) ->
  combinations eval db en sc (s :: from) = Some (k <$> (xs ≫= fun x => if cond x then h x else [])).
Proof.
  intros Hk Hr Hc Hh. cbn [combinations]. rewrite (joined_typed _ _ _ _ f xs cond Hr Hc), Hk. cbn [mbind option_bind].
  replace (offered JInner (filter (fun x => cond x = true) xs)) with
    (Some <$> filter (fun x => cond x = true) xs) by (unfold offered; by destruct (filter _ xs)).
  rewrite <- list_fmap_compose, (mapM_fmap_Some _ _ (fun x => k <$> h x)) by done. cbn [mbind option_bind]. f_equal.
  rewrite <- filter_if. induction (filter _ xs) as [|x l IH]; [done|]. csimpl. by rewrite IH, fmap_app.
Qed.

(** A left join on a unique key. *)
Lemma combinations_left {A} db en sc s from (f : A -> tuple) xs (key : A -> Z) k r :
  src_kind s = JLeft -> NoDup (key <$> xs) ->
  item_tuples eval db (sc :: en) s = Some (f <$> xs) ->
  (forall x, test eval db ((sc ++ [(src_alias s, Some (f x))]) :: en) (src_on s) = Some (key x =? k)%Z) ->
  combinations eval db en (sc ++ [(src_alias s, f <$> lookup_key key xs k)]) from = Some r ->
  combinations eval db en sc (s :: from) = Some r.
Proof.
  intros Hk Hn Hr Hc Hl. cbn [combinations]. rewrite (joined_typed _ _ _ _ f xs _ Hr Hc), Hk, offered_lookup by done.
  simpl. rewrite Hl. simpl. by rewrite app_nil_r.
Qed.

Lemma one_source {A} db en s (f : A -> tuple) xs :
  src_kind s = JInner -> src_on s = None -> item_tuples eval db ([] :: en) s = Some (f <$> xs) ->
  combinations eval db en [] [s] = Some ((fun x => [(src_alias s, Some (f x))]) <$> xs).
Proof.
  intros Hk Ho Hr. rewrite <- (bind_true xs) at 1.
  apply (combinations_inner db en [] s [] f xs (fun _ => true) (fun x => [x])); [done|done| |done].
  intros x. by rewrite Ho.
Qed.

Lemma matches_typed {A} db en q (k : A -> scope) l (cond : A -> bool) :
  combinations eval db en [] (q_from q) = Some (k <$> l) ->
  (forall x, test eval db (k x :: en) (q_where q) = Some (cond x)) ->
  matches eval db en q = Some ((fun x => k x :: en) <$> filter (fun x => cond x = true) l).
Proof.
  intros Hl Hc. unfold matches. rewrite Hl. cbn [mbind option_bind]. rewrite <- list_fmap_compose.
  by rewrite (filterM_fmap_Some _ _ cond).
Qed.

Lemma matches_all {A} db en q (k : A -> scope) l :
  q_where q = None -> combinations eval db en [] (q_from q) = Some (k <$> l) ->
  matches eval db en q = Some ((fun x => k x :: en) <$> l).
Proof.
  intros Hw Hl. rewrite (matches_typed db en q k l (fun _ => true)); [by rewrite filter_all|done|].
  intros x. by rewrite Hw.
Qed.

(** ** Aggregates *)

Lemma call_aggregate {A} db en fn arg order (f : A -> env) (key : A -> list value) (v : A -> value) g :
  is_aggregate fn = true ->
  (forall x, x ∈ g -> mapM (eval db None (f x)) order = Some (key x)) ->
  (forall x, x ∈ g -> eval db None (f x) arg = Some (v x)) ->
  call eval db (Some (f <$> g)) en fn [arg] order = aggregate fn ((fun x => [v x]) <$> sort_on key g).
Proof.
  intros Hf Hk Hv. unfold call. rewrite Hf. cbn [mbind option_bind].
  rewrite (mapM_fmap_in f _ (fun x => (key x, [v x]))).
  - cbn [mbind option_bind]. by rewrite sort_keyed_on.
  - intros x Hx. rewrite Hk by done. simpl. by rewrite Hv.
Qed.

(** NULL for no rows. *)
Definition names_value (l : list string) : value := match l with [] => VNull | _ => VNames l end.
Definition jsons_value (l : list json) : value := match l with [] => VNull | _ => VJson (JArr l) end.

Lemma array_agg_call {A} db en arg order (f : A -> env) (key : A -> list value) (name : A -> string) g :
  (forall x, x ∈ g -> mapM (eval db None (f x)) order = Some (key x)) ->
  (forall x, x ∈ g -> eval db None (f x) arg = Some (VName (name x))) ->
  call eval db (Some (f <$> g)) en "array_agg" [arg] order = Some (names_value (name <$> sort_on key g)).
Proof.
  intros Hk Hv. rewrite (call_aggregate _ _ _ _ _ _ key (fun x => VName (name x))) by done.
  unfold aggregate. rewrite (mapM_fmap_Some _ _ (fun x => VName (name x))) by done. cbn [mbind option_bind].
  destruct (sort_on key g) as [|x l]; [done|]. change (VName (name x)) with ((VName ∘ name) x). csimpl.
  by rewrite (mapM_fmap_Some _ _ name).
Qed.

Lemma jsonb_agg_call {A} db en arg order (f : A -> env) (key : A -> list value) (R : A -> json -> Prop) g :
  (forall x, x ∈ g -> mapM (eval db None (f x)) order = Some (key x)) ->
  (forall x, x ∈ g -> exists j, eval db None (f x) arg = Some (VJson j) /\ R x j) ->
  exists js, call eval db (Some (f <$> g)) en "jsonb_agg" [arg] order = Some (jsons_value js) /\
    Forall2 R (sort_on key g) js.
Proof.
  intros Hk Hv. set (j := fun x => match eval db None (f x) arg with Some (VJson j) => j | _ => JNull end).
  assert (forall x, x ∈ g -> eval db None (f x) arg = Some (VJson (j x)) /\ R x (j x)) as Hj.
  { intros x Hx. destruct (Hv x Hx) as (jx & E & HR). unfold j. by rewrite E. }
  exists (j <$> sort_on key g). split.
  - rewrite (call_aggregate _ _ _ _ _ _ key (fun x => VJson (j x))); [|done|done|by intros; apply Hj].
    unfold aggregate. rewrite (mapM_fmap_Some _ _ (fun x => VJson (j x))) by done. cbn [mbind option_bind].
    destruct (sort_on key g) as [|x l]; [done|]. csimpl. by rewrite (mapM_fmap_Some _ _ j).
  - apply Forall2_fmap_r, Forall_Forall2_diag, Forall_forall. intros x. rewrite sort_on_perm. by apply Hj.
Qed.

(** ** Queries *)

(** The values of a row without their names. *)
Lemma named_values (f : expr -> option value) (l : list (expr * string)) (t : tuple) :
  mapM (fun '(e, name) => v ← f e; Some (name, v)) l = Some t -> mapM (fun e => f e.1) l = Some t.*2.
Proof.
  intros H%mapM_Some. apply mapM_Some. induction H as [|[e n] [m v] l t Hv _ IH]; csimpl; [constructor|].
  constructor; [|done]. simpl. destruct (f e); [|done]. by injection Hv as _ ->.
Qed.

(** The one row of a query without tables. *)
Lemma run_constant db en q ts :
  q_withs q = [] -> q_from q = [] -> q_where q = None -> grouped q = false -> q_order q = [] ->
  run_at shuffle eval run db en q = Some ts ->
  exists row, row_values ts = [row] /\ mapM (fun e => eval db None ([] :: en) e.1) (q_select q) = Some row.
Proof using shuffle_perm.
  intros Hw Hf Hc Hg Ho. unfold run_at, matches, contexts. rewrite Hw, Hf, Hc, Hg. cbn.
  match goal with |- context [shuffle q en ?l] => rewrite (proj1 (Permutation_singleton_r _ _) (shuffle_perm q en l)) end.
  cbn.
  unfold select_row. rewrite Ho. cbn. destruct (mapM _ _) as [t|] eqn:Et; [|done].
  intros [= <-]. exists t.*2. split; [done|]. by apply named_values in Et.
Qed.

Lemma shuffled {A} q en (f : A -> env) xs : exists ys, ys ≡ₚ xs /\ shuffle q en (f <$> xs) = f <$> ys.
Proof using shuffle_perm.
  destruct (Permutation_map_inv f xs (shuffle_perm q en (map f xs))) as (ys & E & Hp).
  exists ys. by split.
Qed.

Lemma selected {B} db q (h : B -> option (list env) * env) (key : B -> list value) (R : B -> tuple -> Prop) zs :
  (forall z, z ∈ zs -> exists t, select_row eval db q (h z) = Some (key z, t) /\ R z t) ->
  exists rows, mapM (select_row eval db q) (h <$> zs) = Some rows /\ Forall2 R (sort_on key zs) (sort_keyed rows).
Proof.
  intros H. set (t := fun z => match select_row eval db q (h z) with Some (_, t) => t | _ => [] end).
  assert (forall z, z ∈ zs -> select_row eval db q (h z) = Some (key z, t z) /\ R z (t z)) as Ht.
  { intros z Hz. destruct (H z Hz) as (tz & E & HR). unfold t. by rewrite E. }
  exists ((fun z => (key z, t z)) <$> zs). split; [apply mapM_fmap_in; intros; by apply Ht|].
  rewrite sort_keyed_on. apply Forall2_fmap_r, Forall_Forall2_diag, Forall_forall. intros x. rewrite sort_on_perm.
  by apply Ht.
Qed.

Section query.
Context {A : Type}.
Variables (db db' : Sql.Database) (en : env) (q : query) (f : A -> env) (xs : list A).
Hypothesis withs : run_withs run db (q_withs q) = Some db'.
Hypothesis rows : matches eval db' en q = Some (f <$> xs).

(** A row for each match. *)
Lemma run_plain (key : A -> list value) (R : A -> tuple -> Prop) :
  grouped q = false ->
  (forall x, x ∈ xs -> exists t, select_row eval db' q (None, f x) = Some (key x, t) /\ R x t) ->
  exists ys ts, ys ≡ₚ xs /\ StronglySorted (fun x y => keys_le (key x) (key y)) ys /\ Forall2 R ys ts /\
    run_at shuffle eval run db en q = Some ts.
Proof using shuffle_perm withs rows.
  intros Hg Hs. destruct (shuffled q en f xs) as (ys & Hp & E).
  destruct (selected db' q (fun x => (None, f x)) key R ys) as (ts & Et & HR); [intros x; rewrite Hp; apply Hs|].
  exists (sort_on key ys), (sort_keyed ts). split; [by rewrite sort_on_perm|]. split; [apply sort_on_sorted|].
  split; [done|]. unfold run_at. rewrite withs. cbn [mbind option_bind]. rewrite rows. cbn [mbind option_bind].
  unfold contexts. rewrite E, Hg. cbn [mbind option_bind]. rewrite <- list_fmap_compose. unfold compose.
  by rewrite Et.
Qed.

(** One row for all of them. *)
Lemma run_aggregate :
  grouped q = true -> q_group q = [] -> q_order q = [] -> exists ys, ys ≡ₚ xs /\
  forall t, select_row eval db' q (Some (f <$> ys), hd ([] :: en) (f <$> ys)) = Some ([], t) ->
    run_at shuffle eval run db en q = Some [t].
Proof using shuffle_perm withs rows.
  intros Hg Hn Ho. destruct (shuffled q en f xs) as (ys & Hp & E). exists ys. split; [done|]. intros t Ht.
  unfold run_at. rewrite withs. cbn [mbind option_bind]. rewrite rows. cbn [mbind option_bind].
  unfold contexts. rewrite E, Hg, Hn. cbn [mbind option_bind mapM]. by rewrite Ht.
Qed.

(** A row for each group. *)
Lemma run_groups {K} `{EqDecision K} (id : A -> K) (key : A -> list value) (R : K -> list A -> tuple -> Prop) :
  grouped q = true -> q_group q <> [] -> q_order q = [] ->
  (forall x, mapM (eval db' None (f x)) (q_group q) = Some (key x)) ->
  (forall x y, x ∈ xs -> y ∈ xs -> same_keys (key x) (key y) = bool_decide (id x = id y)) ->
  (forall k x g, (forall y, y ∈ x :: g -> y ∈ xs /\ id y = k) ->
     exists t, select_row eval db' q (Some (f <$> x :: g), f x) = Some ([], t) /\ R k (x :: g) t) ->
  exists gs ts, partition id xs gs /\ Forall2 (fun kg t => R kg.1 kg.2 t) gs ts /\
    run_at shuffle eval run db en q = Some ts.
Proof using shuffle_perm withs rows.
  intros Hg Hn Ho Hk Hid Hs. destruct (shuffled q en f xs) as (ys & Hp & E).
  destruct (groups_partition id key ys) as (gs & Hgs & Egs); [intros x y; rewrite !Hp; apply Hid|].
  destruct (selected db' q (fun kg : K * list A => (Some (f <$> kg.2), hd ([] :: en) (f <$> kg.2)))
    (fun _ => []) (fun kg t => R kg.1 kg.2 t) gs) as (ts & Et & HR).
  - intros [k [|x g]] Hkg; [by destruct (pt_group _ _ _ Hgs k [] Hkg)|]. apply (Hs k x g). intros y Hy. split.
    + rewrite <- Hp. rewrite (pt_all _ _ _ Hgs). apply list_elem_of_bind. exists (x :: g). split; [done|].
      apply list_elem_of_fmap. by exists (k, x :: g).
    + by apply (pt_group _ _ _ Hgs k (x :: g) Hkg).
  - exists (sort_on (fun _ => []) gs), (sort_keyed ts). split.
    { by eapply partition_perm; [exact Hgs| |symmetry; apply sort_on_perm]. }
    split; [done|]. unfold run_at. rewrite withs. cbn [mbind option_bind]. rewrite rows. cbn [mbind option_bind].
    unfold contexts. rewrite E, Hg. destruct (q_group q) as [|e es] eqn:Eq; [done|].
    rewrite (mapM_fmap_Some f _ (fun x => (key x, f x))) by (intros x; by rewrite Hk). cbn [mbind option_bind].
    rewrite groups_on, Egs, <- !list_fmap_compose.
    exact (f_equal (fun o => rows ← o; Some (sort_keyed rows)) Et).
Qed.
End query.

Lemma run_withs_cons db name q ws rows db' :
  run db [] q = Some rows -> run_withs run (with_relation name rows db) ws = Some db' ->
  run_withs run db ((name, q) :: ws) = Some db'.
Proof. intros Hq Hws. cbn [run_withs]. by rewrite Hq. Qed.

Lemma run_single db en q en' key t :
  q_withs q = [] -> grouped q = false -> matches eval db en q = Some [en'] ->
  select_row eval db q (None, en') = Some (key, t) -> run_at shuffle eval run db en q = Some [t].
Proof using shuffle_perm.
  intros Hw Hg Hm Hs. unfold run_at, contexts. rewrite Hw, Hg. cbn [run_withs mbind option_bind]. rewrite Hm.
  cbn [mbind option_bind]. rewrite (proj1 (Permutation_singleton_r _ _) (shuffle_perm q en [en'])).
  cbn. by rewrite Hs.
Qed.
End typed.

(** ** Answers to queries of one level *)

(** The evaluator at the top of an answer. *)
Definition eval_top (shuffle : query -> env -> list env -> list env) := Sql.eval shuffle 19.
Definition run_top (shuffle : query -> env -> list env -> list env) := Sql.run shuffle 19.

Lemma eval_S shuffle depth db group en e :
  Sql.eval shuffle (S depth) db group en e =
  eval_at (Sql.eval shuffle depth) (Sql.run shuffle depth) db group en e.
Proof. reflexivity. Qed.

Lemma run_S shuffle depth db en q :
  Sql.run shuffle (S depth) db en q = run_at shuffle (Sql.eval shuffle depth) (Sql.run shuffle depth) db en q.
Proof. reflexivity. Qed.

Lemma run_max shuffle db en q :
  Sql.run shuffle max_depth db en q = run_at shuffle (eval_top shuffle) (run_top shuffle) db en q.
Proof. apply run_S. Qed.

(** An answer is made of the records that satisfy the condition, in the order of the
    keys. *)
Lemma answer_records {A} db q (l : list A) (k : A -> scope) (cond : A -> bool) (key row : A -> list value) rows :
  q_withs q = [] -> grouped q = false ->
  (forall shuffle, combinations (eval_top shuffle) db [] [] (q_from q) = Some (k <$> l)) ->
  (forall shuffle x, test (eval_top shuffle) db [k x] (q_where q) = Some (cond x)) ->
  (forall shuffle x, select_row (eval_top shuffle) db q (None, [k x]) = Some (key x, zip (q_select q).*2 (row x))) ->
  (forall x, length (row x) = length (q_select q)) ->
  answer db q rows ->
  exists l', l' ≡ₚ filter (fun x => cond x = true) l /\ rows = row <$> l' /\
    StronglySorted (fun x y => keys_le (key x) (key y)) l'.
Proof.
  intros Hw Hg Hl Hc Hs Hlen (shuffle & Hp & ts & Hr & ->).
  destruct (run_plain shuffle Hp (eval_top shuffle) (run_top shuffle) db db [] q
    (fun x => [k x]) (filter (fun x => cond x = true) l)) with (key := key)
    (R := fun x t => t = zip (q_select q).*2 (row x)) as (ys & ts' & Hys & Hsort & HF & E).
  - by rewrite Hw.
  - by apply matches_typed.
  - done.
  - intros x _. eexists. split; [apply Hs|done].
  - rewrite run_max, E in Hr. injection Hr as <-. exists ys. split; [done|]. split; [|done].
    clear -HF Hlen. induction HF as [|x t ys ts -> _ IH]; [done|]. unfold row_values in *. csimpl. rewrite IH. f_equal.
    apply snd_zip. by rewrite Hlen, length_fmap.
Qed.

Lemma answer_constant db q rows :
  q_withs q = [] -> q_from q = [] -> q_where q = None -> grouped q = false -> q_order q = [] ->
  answer db q rows ->
  exists shuffle row, (forall q en ens, shuffle q en ens ≡ₚ ens) /\ rows = [row] /\
    mapM (fun e => eval_top shuffle db None [[]] e.1) (q_select q) = Some row.
Proof.
  intros Hw Hf Hc Hg Ho (shuffle & Hp & ts & Hr & ->). exists shuffle. rewrite run_max in Hr.
  apply (run_constant shuffle Hp) in Hr as (row & E & H); try done. by exists row.
Qed.

(** A subquery with one row. *)
Lemma eval_single shuffle depth db group en q en' key name v :
  (forall q en ens, shuffle q en ens ≡ₚ ens) -> q_withs q = [] -> grouped q = false ->
  matches (Sql.eval shuffle depth) db en q = Some [en'] ->
  select_row (Sql.eval shuffle depth) db q (None, en') = Some (key, [(name, v)]) ->
  Sql.eval shuffle (S (S depth)) db group en (EScalar q) = Some v.
Proof.
  intros Hp Hw Hg Hm Hs. rewrite eval_S. cbn [eval_at].
  by rewrite run_S, (run_single shuffle Hp _ _ db en q en' key [(name, v)]).
Qed.

(** jsonb_build_object, argument by argument. *)
Lemma mapM_cons_Some {A B} (f : A -> option B) x y l k :
  f x = Some y -> mapM f l = Some k -> mapM f (x :: l) = Some (y :: k).
Proof. intros Hx Hl. simpl. by rewrite Hx, Hl. Qed.

Definition object_values (kvs : list (string * value)) : list value := kvs ≫= fun kv => [VText kv.1; kv.2].

Definition shown (kv : string * value) (kj : string * json) : Prop := kv.1 = kj.1 /\ to_json kv.2 = Some kj.2.

Lemma members_shown kvs js : Forall2 shown kvs js -> members (object_values kvs) = Some (prod_map s2b id <$> js).
Proof.
  induction 1 as [|[k v] [k' j] kvs js [Hk Hj] _ IH]; [done|]. simpl in Hk, Hj. subst k'. unfold object_values in *. csimpl.
  by rewrite Hj, IH.
Qed.

Lemma eval_object shuffle depth db group en args kvs js :
  mapM (Sql.eval shuffle depth db group en) args = Some (object_values kvs) -> Forall2 shown kvs js ->
  Sql.eval shuffle (S depth) db group en (ECall "jsonb_build_object" args []) =
    Some (VJson (jsonb_object (prod_map s2b id <$> js))).
Proof.
  intros Ha Hs. rewrite eval_S. cbn [eval_at]. unfold call.
  change (is_aggregate "jsonb_build_object") with false. cbv iota. rewrite Ha. cbn [mbind option_bind].
  rewrite decide_False by done. rewrite decide_True by done. unfold jsonb_build_object.
  by rewrite (members_shown _ _ Hs).
Qed.

(** CASE, branch by branch. *)
Lemma eval_case_cons shuffle depth db group en cond e l b :
  Sql.eval shuffle depth db group en cond = Some (VBool b) ->
  Sql.eval shuffle (S depth) db group en (ECase ((cond, e) :: l)) =
    if b then Sql.eval shuffle depth db group en e else Sql.eval shuffle (S depth) db group en (ECase l).
Proof. intros Hc. rewrite !eval_S. cbn [eval_at eval_case]. by rewrite Hc. Qed.

Section subqueries.
Variable shuffle : query -> env -> list env -> list env.
Hypothesis shuffle_perm : forall q en ens, shuffle q en ens ≡ₚ ens.
Context {A : Type}.
Variables (depth : nat) (db : Sql.Database) (group : option (list env)) (en : env) (q : query).
Variables (f : A -> env) (l : list A).

(** EXISTS *)
Lemma eval_exists (cond : A -> bool) :
  q_withs q = [] -> grouped q = false ->
  matches (Sql.eval shuffle depth) db en q = Some (f <$> filter (fun x => cond x = true) l) ->
  (forall x, exists t, select_row (Sql.eval shuffle depth) db q (None, f x) = Some ([], t)) ->
  Sql.eval shuffle (S (S depth)) db group en (EExists q) = Some (VBool (existsb cond l)).
Proof using shuffle_perm.
  intros Hw Hg Hm Hs. rewrite eval_S. cbn [eval_at]. rewrite run_S.
  destruct (run_plain shuffle shuffle_perm (Sql.eval shuffle depth) (Sql.run shuffle depth) db db en q f
    (filter (fun x => cond x = true) l)) with (key := fun _ : A => @nil value) (R := fun (_ : A) (_ : tuple) => True)
    as (ys & ts & Hp & _ & HF & ->); [by rewrite Hw|done..| |].
  - intros x _. destruct (Hs x) as [t Ht]. by exists t.
  - cbn [mbind option_bind]. do 2 f_equal. apply Forall2_length in HF. apply Permutation_length in Hp.
    rewrite HF in Hp. assert (existsb cond l = negb (bool_decide (length (filter (fun x => cond x = true) l) = 0))) as ->.
    { clear. induction l as [|x l' IH]; [done|]. rewrite filter_cons. simpl. destruct (cond x); [done|exact IH]. }
    rewrite <- Hp. by destruct ts.
Qed.

Hypothesis Hw : q_withs q = [].
Hypothesis Hg : q_group q = [].
Hypothesis Ho : q_order q = [].
Hypothesis Hm : matches (Sql.eval shuffle (S depth)) db en q = Some (f <$> l).

(** (SELECT aggregate(arg ORDER BY order) ...) *)
Lemma eval_aggregated fn arg order name :
  q_select q = [(ECall fn [arg] order, name)] -> is_aggregate fn = true -> exists ys, ys ≡ₚ l /\
  forall v, call (Sql.eval shuffle depth) db (Some (f <$> ys)) (hd ([] :: en) (f <$> ys)) fn [arg] order = Some v ->
  Sql.eval shuffle (S (S (S depth))) db group en (EScalar q) = Some v.
Proof using shuffle_perm Hw Hg Ho Hm.
  intros Hs Hf.
  destruct (run_aggregate shuffle shuffle_perm (Sql.eval shuffle (S depth)) (Sql.run shuffle (S depth)) db db en q f l)
    as (ys & Hp & H); [by rewrite Hw|done| |done|done|].
  - unfold grouped. rewrite Hg, Hs. cbn [existsb has_aggregate]. by rewrite Hf.
  - exists ys. split; [done|]. intros v Hv. rewrite eval_S. cbn [eval_at]. rewrite run_S, (H [(name, v)]); [done|].
    unfold select_row. rewrite Ho, Hs. cbn [mapM mbind option_bind fst snd]. rewrite eval_S. cbn [eval_at]. by rewrite Hv.
Qed.

Lemma eval_array_agg arg order name (key : A -> list value) (nm : A -> string) :
  q_select q = [(ECall "array_agg" [arg] order, name)] ->
  (forall x, mapM (Sql.eval shuffle depth db None (f x)) order = Some (key x)) ->
  (forall x, Sql.eval shuffle depth db None (f x) arg = Some (VName (nm x))) -> exists ys, ys ≡ₚ l /\
  Sql.eval shuffle (S (S (S depth))) db group en (EScalar q) = Some (names_value (nm <$> sort_on key ys)).
Proof using shuffle_perm Hw Hg Ho Hm.
  intros Hs Hk Hn. destruct (eval_aggregated _ _ _ _ Hs eq_refl) as (ys & Hp & H). exists ys. split; [done|].
  apply H. by apply array_agg_call.
Qed.

Lemma eval_jsonb_agg arg order name (key : A -> list value) (R : A -> json -> Prop) :
  q_select q = [(ECall "jsonb_agg" [arg] order, name)] ->
  (forall x, mapM (Sql.eval shuffle depth db None (f x)) order = Some (key x)) ->
  (forall x, x ∈ l -> exists j, Sql.eval shuffle depth db None (f x) arg = Some (VJson j) /\ R x j) ->
  exists ys js, ys ≡ₚ l /\ Forall2 R (sort_on key ys) js /\
  Sql.eval shuffle (S (S (S depth))) db group en (EScalar q) = Some (jsons_value js).
Proof using shuffle_perm Hw Hg Ho Hm.
  intros Hs Hk Hn. destruct (eval_aggregated _ _ _ _ Hs eq_refl) as (ys & Hp & H).
  destruct (jsonb_agg_call (Sql.eval shuffle depth) db (hd ([] :: en) (f <$> ys)) arg order f key R ys)
    as (js & Hj & HF); [done|intros x; rewrite Hp; apply Hn|]. exists ys, js. split_and!; [done..|]. by apply H.
Qed.
End subqueries.

(** ** SELECT key, jsonb_agg(e ORDER BY order) ... GROUP BY key *)

(** The keys are oids; each comes once, with the objects of what has this key. *)
Record grouped_json {A} (id : A -> Z) (key : A -> list value) (j : A -> json) (l : list A) (ws : list (Z * list json)) : Prop := {
  gj_unique : NoDup ws.*1;
  gj_objects k js : (k, js) ∈ ws -> exists g, g ≡ₚ filter (fun x => id x = k) l /\ js = j <$> sort_on key g;
  gj_none k : k ∉ ws.*1 -> filter (fun x => id x = k) l = []
}.

Definition group_tuple (n1 n2 : string) (w : Z * list json) : tuple := [(n1, VOid w.1); (n2, jsons_value w.2)].

Lemma same_oids m n : same_keys [VOid m] [VOid n] = bool_decide (m = n).
Proof. simpl. rewrite andb_true_r. apply Bool.eq_iff_eq_true. by rewrite bool_decide_eq_true, Z.eqb_eq. Qed.

Lemma grouped_lookup {A} (id : A -> Z) key j (l : list A) ws k :
  grouped_json id key j l ws ->
  exists g, g ≡ₚ filter (fun x => id x = k) l /\ StronglySorted (fun x y => keys_le (key x) (key y)) g /\
    from_option (fun w => jsons_value w.2) VNull (lookup_key fst ws k) = jsons_value (j <$> g).
Proof.
  intros [Hu Ho Hn]. pose proof (lookup_key_spec fst ws k) as H. destruct (lookup_key _ _ _) as [[k' js]|].
  - destruct H as [H E]. simpl in E. subst k'. destruct (Ho k js H) as (g & Hg & ->). exists (sort_on key g).
    split; [by rewrite sort_on_perm|]. split; [apply sort_on_sorted|done].
  - exists []. rewrite (Hn k H). split; [done|]. by split; [constructor|].
Qed.

Section grouped.
Variable shuffle : query -> env -> list env -> list env.
Hypothesis shuffle_perm : forall q en ens, shuffle q en ens ≡ₚ ens.
Context {A : Type}.
Variables (depth : nat) (db : Sql.Database) (q : query) (k arg : expr) (order : list expr) (n1 n2 : string).
Variables (f : A -> env) (l : list A) (id : A -> Z) (key : A -> list value) (j : A -> json).
Hypothesis withs : q_withs q = [].
Hypothesis select : q_select q = [(k, n1); (ECall "jsonb_agg" [arg] order, n2)].
Hypothesis group : q_group q = [k].
Hypothesis no_order : q_order q = [].
Hypothesis rows : matches (Sql.eval shuffle (S depth)) db [] q = Some (f <$> l).
Hypothesis ids : forall g x, Sql.eval shuffle (S depth) db g (f x) k = Some (VOid (id x)).
Hypothesis keys : forall x, mapM (Sql.eval shuffle depth db None (f x)) order = Some (key x).
Hypothesis objects : forall x, x ∈ l -> Sql.eval shuffle depth db None (f x) arg = Some (VJson (j x)).

Lemma run_grouped_json :
  exists ws, grouped_json id key j l ws /\ Sql.run shuffle (S (S depth)) db [] q = Some (group_tuple n1 n2 <$> ws).
Proof using All.
  rewrite run_S. set (rn := Sql.run shuffle (S depth)).
  destruct (run_groups shuffle shuffle_perm (Sql.eval shuffle (S depth)) rn db db [] q f l) with (id := id)
    (key := fun x => [VOid (id x)]) (EqDecision0 := Z.eq_dec)
    (R := fun k g t => t = group_tuple n1 n2 (k, j <$> sort_on key g)) as (gs & ts & Hp & HF & ->).
  - by rewrite withs.
  - exact rows.
  - unfold grouped. by rewrite group.
  - by rewrite group.
  - done.
  - intros x. rewrite group. cbn [mapM]. by rewrite ids.
  - intros x y _ _. rewrite same_oids. by apply bool_decide_ext.
  - intros k' x g Hg. eexists. split; [|done]. unfold select_row. rewrite no_order, select.
    cbn [mapM mbind option_bind fst snd]. rewrite ids, (eval_S _ _ _ _ _ (ECall _ _ _)). cbn [eval_at mbind option_bind].
    destruct (Hg x) as [_ <-]; [constructor|].
    destruct (jsonb_agg_call (Sql.eval shuffle depth) db (f x) arg order f key (fun x jx => jx = j x) (x :: g))
      as (js & -> & HF); [done| |].
    + intros y Hy. exists (j y). split; [|done]. apply objects. by apply Hg.
    + assert (js = j <$> sort_on key (x :: g)) as ->; [|done].
      clear -HF. induction HF as [|y jy ys js -> _ IH]; [done|]. csimpl. by rewrite IH.
  - exists ((fun kg => (kg.1, j <$> sort_on key kg.2)) <$> gs). split; [split|].
    + rewrite <- list_fmap_compose. apply Hp.
    + intros k' js ([k2 g] & E & Hg)%list_elem_of_fmap. injection E as -> ->. exists g. split; [|done].
      by apply (partition_group _ _ _ _ _ Hp).
    + intros k' Hk. rewrite <- list_fmap_compose in Hk. by apply (partition_none _ _ _ _ Hp).
    + f_equal. rewrite <- list_fmap_compose. clear -HF. induction HF as [|[k2 g] t gs ts -> _ IH]; [done|]. csimpl.
      by rewrite IH.
Qed.
End grouped.
