(* ===== verification/Proto.v ===== *)
(** * The messages of the gRPC service and the conversions to them

    One record per message of api/extractor/v1/extractor.proto (the Go structs
    are generated from it), then the conversions of internal/extractor/types/types.go. *)

From S2P Require Import Prelude GoStrings Types.

Record Proto_Database := MkProto_Database {
  PDatabase_name : string;
  PDatabase_oid : Z
}.

Record BackupInfo := MkBackupInfo {
  BackupInfo_label : string;
  BackupInfo_type : string;
  BackupInfo_timestamp_start : Z;
  BackupInfo_timestamp_stop : Z;
  BackupInfo_backup_size : Z;
  BackupInfo_repo_size : Z;
  BackupInfo_database_version : string;
  BackupInfo_error : bool;
  BackupInfo_repo_key : Z
}.

Record Proto_Schema := MkProto_Schema {
  PSchema_oid : Z;
  PSchema_name : string;
  PSchema_owner : string;
  PSchema_database : string
}.

Record Proto_InstalledExtension := MkProto_InstalledExtension {
  PInstalledExtension_oid : Z;
  PInstalledExtension_name : string;
  PInstalledExtension_version : string;
  PInstalledExtension_schema : string;
  PInstalledExtension_database : string
}.

Record Proto_AvailableExtension := MkProto_AvailableExtension {
  PAvailableExtension_name : string;
  PAvailableExtension_default_version : string
}.

Record Proto_Sequence := MkProto_Sequence {
  PSequence_oid : Z;
  PSequence_name : string;
  PSequence_schema : string;
  PSequence_owner : string;
  PSequence_database : string;
  PSequence_data_type : string
}.

Record Proto_Function := MkProto_Function {
  PFunction_oid : Z;
  PFunction_name : string;
  PFunction_schema : string;
  PFunction_owner : string;
  PFunction_database : string;
  PFunction_language : string;
  PFunction_return_type : string;
  PFunction_identity_arguments : string
}.

Record Proto_TableStats := MkProto_TableStats {
  PTableStats_row_estimate : Z;
  PTableStats_total_size_bytes : Z;
  PTableStats_heap_size_bytes : Z;
  PTableStats_toast_size_bytes : Z
}.

Record Proto_InheritanceRelation := MkProto_InheritanceRelation {
  PInheritanceRelation_name : string;
  PInheritanceRelation_oid : Z
}.

Record Proto_TableInheritance := MkProto_TableInheritance {
  PTableInheritance_parent_tables : list Proto_InheritanceRelation
}.

Record Proto_TableColumn := MkProto_TableColumn {
  PTableColumn_name : string;
  PTableColumn_type : string;
  PTableColumn_not_null : bool;
  PTableColumn_is_inherited : bool
}.

Record Proto_TableIndex := MkProto_TableIndex {
  PTableIndex_name : string;
  PTableIndex_columns : list string;
  PTableIndex_is_unique : bool;
  PTableIndex_is_primary : bool;
  PTableIndex_is_exclusion : bool;
  PTableIndex_is_partial : bool;
  PTableIndex_is_valid : bool;
  PTableIndex_size_bytes : Z;
  PTableIndex_definition : string;
  PTableIndex_type : string;
  PTableIndex_is_inherited : bool
}.

Record Proto_TableConstraint := MkProto_TableConstraint {
  PTableConstraint_name : string;
  PTableConstraint_type : string;
  PTableConstraint_local_columns : list string;
  PTableConstraint_foreign_table : option string;
  PTableConstraint_foreign_columns : list string;
  PTableConstraint_definition : string
}.

Record Proto_Table := MkProto_Table {
  PTable_oid : Z;
  PTable_name : string;
  PTable_schema : string;
  PTable_owner : string;
  PTable_comment : option string;
  PTable_stats : Proto_TableStats;
  PTable_columns : list Proto_TableColumn;
  PTable_indexes : list Proto_TableIndex;
  PTable_constraints : list Proto_TableConstraint;
  PTable_inheritance : Proto_TableInheritance
}.

Record DatabaseTables := MkDatabaseTables {
  DatabaseTables_database : string;
  DatabaseTables_tables : list Proto_Table
}.

Record ListDatabasesResponse := MkListDatabasesResponse {
  ListDatabasesResponse_databases : list Proto_Database
}.

Record ListBackupsResponse := MkListBackupsResponse {
  ListBackupsResponse_stanza : string;
  ListBackupsResponse_backups : list BackupInfo
}.

Record GetServerInfoResponse := MkGetServerInfoResponse {
  GetServerInfoResponse_cluster_name : string;
  GetServerInfoResponse_pg_version : string;
  GetServerInfoResponse_is_in_recovery : bool;
  GetServerInfoResponse_is_read_only : bool;
  GetServerInfoResponse_ssl_enabled : bool;
  GetServerInfoResponse_port : Z;
  GetServerInfoResponse_max_connections : Z;
  GetServerInfoResponse_archive_mode : string;
  GetServerInfoResponse_data_directory : string;
  GetServerInfoResponse_system_identifier : Z;
  GetServerInfoResponse_timeline_id : Z;
  GetServerInfoResponse_wal_level : string
}.

Record ListSchemasResponse := MkListSchemasResponse {
  ListSchemasResponse_schemas : list Proto_Schema
}.

Record ListExtensionsResponse := MkListExtensionsResponse {
  ListExtensionsResponse_installed : list Proto_InstalledExtension;
  ListExtensionsResponse_available : list Proto_AvailableExtension
}.

Record ListSequencesResponse := MkListSequencesResponse {
  ListSequencesResponse_sequences : list Proto_Sequence
}.

Record ListFunctionsResponse := MkListFunctionsResponse {
  ListFunctionsResponse_functions : list Proto_Function
}.

Record ListTablesResponse := MkListTablesResponse {
  ListTablesResponse_database_tables : list DatabaseTables
}.

(** ** Conversions (types.go) *)

Definition ExtensionsToProto (avail : list AvailableExtension) (inst : list InstalledExtension)
    : ListExtensionsResponse :=
  let installed := (fun ins =>
    MkProto_InstalledExtension (InstalledExtension_Oid ins) (InstalledExtension_Name ins)
      (InstalledExtension_Version ins) (InstalledExtension_Schema ins)
      (InstalledExtension_Database ins)) <$> inst in
  let available := (fun av =>
    MkProto_AvailableExtension (AvailableExtension_Name av)
      (AvailableExtension_DefaultVersion av)) <$> avail in
  MkListExtensionsResponse installed available.

Definition ServerInfoToProto `{UnicodeLower} (info : ServerInfo) (clusterName : string)
    : res GetServerInfoResponse :=
  pgVersion ← parsePgVersion (ServerInfo_PgVersion info);
  isReadOnly ← parsePgOnOffToBool (ServerInfo_IsReadOnly info);
  sslEnabled ← parsePgOnOffToBool (ServerInfo_SslEnabled info);
  inr {|
    GetServerInfoResponse_pg_version := pgVersion;
    GetServerInfoResponse_is_read_only := isReadOnly;
    GetServerInfoResponse_cluster_name := clusterName;
    GetServerInfoResponse_is_in_recovery := ServerInfo_IsInRecovery info;
    GetServerInfoResponse_ssl_enabled := sslEnabled;
    GetServerInfoResponse_port := ServerInfo_Port info;
    GetServerInfoResponse_max_connections := ServerInfo_MaxConnections info;
    GetServerInfoResponse_archive_mode := ServerInfo_ArchiveMode info;
    GetServerInfoResponse_data_directory := ServerInfo_DataDirectory info;
    GetServerInfoResponse_system_identifier := ServerInfo_SystemIdentifier info;
    GetServerInfoResponse_timeline_id := to_int32 (ServerInfo_TimelineID info);
    GetServerInfoResponse_wal_level := ServerInfo_WalLevel info
  |}.

(** func (d Database) ToProto *)
Definition Database_ToProto (d : Database) : Proto_Database :=
  {| PDatabase_oid := Database_Oid d; PDatabase_name := Database_Name d |}.

(** func (s *Schema) ToProto *)
Definition Schema_ToProto (s : Schema) : Proto_Schema :=
  {| PSchema_oid := Schema_Oid s; PSchema_name := Schema_Name s;
     PSchema_owner := Schema_Owner s; PSchema_database := Schema_Database s |}.

(** func (s *Sequence) ToProto *)
Definition Sequence_ToProto (s : Sequence) : Proto_Sequence :=
  {| PSequence_oid := Sequence_Oid s; PSequence_name := Sequence_Name s;
     PSequence_schema := Sequence_Schema s; PSequence_owner := Sequence_Owner s;
     PSequence_database := Sequence_Database s; PSequence_data_type := Sequence_DataType s |}.

(** func (f *Function) ToProto *)
Definition Function_ToProto (f : Function) : Proto_Function :=
  {| PFunction_oid := Function_Oid f; PFunction_name := Function_Name f;
     PFunction_schema := Function_Schema f; PFunction_owner := Function_Owner f;
     PFunction_database := Function_Database f; PFunction_language := Function_Language f;
     PFunction_return_type := Function_ReturnType f;
     PFunction_identity_arguments := Function_IdentityArguments f |}.

(** func (b *Backup) ToProto *)
Definition Backup_ToProto (b : Backup) (dbVersion : string) : BackupInfo :=
  {| BackupInfo_label := Backup_Label b;
     BackupInfo_type := Backup_Type b;
     BackupInfo_timestamp_start := BackupTimestamp_Start (Backup_Timestamp b);
     BackupInfo_timestamp_stop := BackupTimestamp_Stop (Backup_Timestamp b);
     BackupInfo_backup_size := BackupSizeInfo_Size (Backup_Info b);
     BackupInfo_repo_size := PgbackrestRepo_Size (BackupSizeInfo_Repository (Backup_Info b));
     BackupInfo_database_version := dbVersion;
     BackupInfo_error := Backup_Error b;
     BackupInfo_repo_key := to_uint32 (PgbackrestDatabase_RepoKey (Backup_Database b)) |}.
