(* ===== verification/GoPath.v ===== *)
(** * Go's path/filepath on Unix: Clean, Join and Dir

    Clean works on the elements between the slashes; the elements kept so far are a
    stack.  [abs] writes an absolute path that is already clean. *)

From S2P Require Import Prelude GoStrings.

Definition slash : ascii := "/".

(** The elements between the slashes: one more than there are slashes. *)
Fixpoint elements (s : bytes) : list bytes :=
  match s with
  | [] => [[]]
  | c :: s =>
      if decide (c = slash) then [] :: elements s
      else match elements s with
           | e :: es => (c :: e) :: es
           | [] => [[c]]
           end
  end.

(** strings.Join(es, /) *)
Fixpoint join (es : list bytes) : bytes :=
  match es with
  | [] => []
  | [e] => e
  | e :: es => e ++ slash :: join es
  end.

Definition dot : bytes := s2b ".".
Definition dotdot : bytes := s2b "..".

(** One element of Clean: empty and dot elements are skipped, dotdot takes the last
    element away, is dropped at the root, and kept where there is nothing to take. *)
Definition clean_element (rooted : bool) (out : list bytes) (e : bytes) : list bytes :=
  if decide (e = [] \/ e = dot) then out
  else if decide (e = dotdot) then
    match out with
    | top :: rest => if decide (top = dotdot) then e :: out else rest
    | [] => if rooted then [] else [e]
    end
  else e :: out.

Definition is_rooted (path : bytes) : bool :=
  match path with c :: _ => bool_decide (c = slash) | [] => false end.

(** The path with the elements of the stack [out]. *)
Definition assemble (rooted : bool) (out : list bytes) : bytes :=
  if rooted then slash :: join (rev out)
  else match out with [] => dot | _ => join (rev out) end.

Definition Clean (path : bytes) : bytes :=
  assemble (is_rooted path) (foldl (clean_element (is_rooted path)) [] (elements path)).

(** filepath.Join *)
Fixpoint Join (elem : list bytes) : bytes :=
  match elem with
  | [] => []
  | e :: elem' => match e with [] => Join elem' | _ => Clean (join elem) end
  end.

(** The path up to its last slash, that slash included. *)
Fixpoint up_to_slash (path : bytes) : bytes :=
  match path with
  | [] => []
  | c :: path =>
      match up_to_slash path with
      | [] => if decide (c = slash) then [c] else []
      | pre => c :: pre
      end
  end.

(** filepath.Dir *)
Definition Dir (path : bytes) : bytes := Clean (up_to_slash path).

(** Go's documentation of Clean, and more. *)
Example clean_examples :
  Clean (s2b "a//b/./c/..") = s2b "a/b" /\ Clean (s2b "/../a/") = s2b "/a" /\
  Clean (s2b "../../a/..") = s2b "../.." /\ Clean [] = dot /\ Clean (s2b "//") = s2b "/" /\
  Dir (s2b "/a/b") = s2b "/a" /\ Dir (s2b "/a") = s2b "/" /\ Dir (s2b "a") = dot /\
  Dir (s2b "/") = s2b "/" /\ Dir (s2b "a/b/") = s2b "a/b" /\
  Join [[]; s2b "a"; s2b "../b"] = s2b "b".
Proof. vm_compute. repeat split. Qed.

(** ** Lengths: Dir stops *)

(** The bytes of the elements, each with a slash. *)
Fixpoint weight (es : list bytes) : nat :=
  match es with
  | [] => 0
  | e :: es => S (length e) + weight es
  end.

Lemma elements_cons s : exists e es, elements s = e :: es.
Proof. destruct s as [|c s]; simpl; [eauto|]. case_decide; [eauto|]. case_match; eauto. Qed.

Lemma weight_elements s : weight (elements s) = S (length s).
Proof.
  induction s as [|c s IH]; [done|]. simpl. case_decide; [simpl; lia|].
  destruct (elements_cons s) as (e & es & E). rewrite E in *. simpl in *. lia.
Qed.

Lemma length_joined es : es <> [] -> S (length (join es)) = weight es.
Proof.
  intros H. induction es as [|e [|e2 es] IH]; [done|simpl; lia|].
  change (join (e :: e2 :: es)) with (e ++ slash :: join (e2 :: es)). rewrite length_app.
  specialize (IH ltac:(done)). simpl in *. lia.
Qed.

Lemma weight_app es es' : weight (es ++ es') = weight es + weight es'.
Proof. induction es; simpl; lia. Qed.

Lemma weight_rev es : weight (rev es) = weight es.
Proof. induction es as [|e es IH]; [done|]. simpl. rewrite weight_app, IH. simpl. lia. Qed.

Lemma clean_element_weight r out e : weight (clean_element r out e) <= weight out + S (length e).
Proof.
  unfold clean_element. repeat case_decide; simpl; try lia.
  destruct out as [|top rest]; [destruct r; simpl; lia|]. case_decide; simpl; lia.
Qed.

Lemma clean_weight r out es : weight (foldl (clean_element r) out es) <= weight out + weight es.
Proof.
  revert out. induction es as [|e es IH]; intros out; simpl; [lia|].
  etrans; [apply IH|]. pose proof (clean_element_weight r out e). lia.
Qed.

(** What is assembled from a stack is as long as its elements and the slashes between. *)
Lemma length_assemble r out n :
  weight out + Nat.b2n r <= S n -> 0 < n -> length (assemble r out) <= n.
Proof.
  intros Hw Hn. destruct out as [|e es]; [destruct r; simpl; lia|].
  pose proof (length_joined (rev (e :: es))) as Hj. rewrite weight_rev in Hj.
  assert (rev (e :: es) <> []) as Hne by (simpl; by destruct (rev es)). specialize (Hj Hne).
  unfold assemble. destruct r; cbn [length Nat.b2n] in *; lia.
Qed.

Lemma foldl_rooted s :
  foldl (clean_element true) [] (elements (slash :: s)) = foldl (clean_element true) [] (elements s).
Proof. cbn [elements]. by rewrite decide_True. Qed.

Lemma length_Clean s : s <> [] -> length (Clean s) <= length s.
Proof.
  intros Hs. apply length_assemble; [|destruct s; simpl; [done|lia]].
  destruct (is_rooted s) eqn:Er.
  - destruct s as [|c s]; [done|]. apply bool_decide_eq_true in Er as ->. rewrite foldl_rooted.
    pose proof (clean_weight true [] (elements s)) as Hl. rewrite weight_elements in Hl. simpl in *. lia.
  - pose proof (clean_weight false [] (elements s)) as Hl. rewrite weight_elements in Hl. simpl in *. lia.
Qed.

(** A trailing slash is cleaned away, but for the root. *)
Lemma elements_app_slash s : elements (s ++ [slash]) = elements s ++ [[]].
Proof.
  induction s as [|c s IH]; simpl; [done|]. case_decide; [by rewrite IH|].
  rewrite IH. destruct (elements_cons s) as (e & es & ->). done.
Qed.

Lemma Clean_slash s : s <> [] -> Clean (s ++ [slash]) = Clean s.
Proof.
  intros Hs. unfold Clean. rewrite elements_app_slash, foldl_app.
  assert (is_rooted (s ++ [slash]) = is_rooted s) as -> by (by destruct s). done.
Qed.

Lemma up_to_slash_split path :
  (up_to_slash path = [] /\ slash ∉ path) \/
  exists dir base, path = dir ++ slash :: base /\ (slash ∉ base) /\ up_to_slash path = dir ++ [slash].
Proof.
  induction path as [|c path [[IH Hn]|(dir & base & -> & Hb & IH)]]; simpl.
  - left. split; [done|apply not_elem_of_nil].
  - rewrite IH. case_decide as Hc; [subst c|].
    + right. by exists [], path.
    + left. split; [done|]. rewrite not_elem_of_cons. naive_solver.
  - right. exists (c :: dir), base. split; [done|]. split; [done|]. rewrite IH. by destruct dir.
Qed.

(** Going to the parent makes a path shorter until it stays where it is. *)
Lemma Dir_stops path : Dir path = path \/ Dir path = dot \/ length (Dir path) < length path.
Proof.
  unfold Dir. destruct (up_to_slash_split path) as [[-> _]|(dir & base & -> & Hb & ->)]; [by right; left|].
  destruct dir as [|c dir].
  - destruct base as [|b base]; [by left|]. right. right. simpl. lia.
  - right. right. rewrite Clean_slash by done. pose proof (length_Clean (c :: dir)) as Hl.
    rewrite length_app. simpl in *. specialize (Hl ltac:(done)). lia.
Qed.

(** ** Absolute paths that are clean *)

(** The path of the directories [cs], from the root down. *)
Definition abs (cs : list bytes) : bytes := slash :: join cs.

(** A name in a directory. *)
Definition proper (e : bytes) : Prop := e <> [] /\ e <> dot /\ e <> dotdot /\ slash ∉ e.

Lemma elements_noslash e s : slash ∉ e -> elements (e ++ slash :: s) = e :: elements s.
Proof.
  induction e as [|c e IH]; simpl; intros H; [done|].
  apply not_elem_of_cons in H as [Hc He]. rewrite decide_False by congruence. by rewrite IH.
Qed.

Lemma elements_name e : slash ∉ e -> elements e = [e].
Proof.
  induction e as [|c e IH]; simpl; intros H; [done|].
  apply not_elem_of_cons in H as [Hc He]. rewrite decide_False by congruence. by rewrite IH.
Qed.

Lemma elements_join es : es <> [] -> Forall (fun e => slash ∉ e) es -> elements (join es) = es.
Proof.
  intros Hne HF. induction HF as [|e es He HF IH]; [done|]. destruct es as [|e2 es]; [by apply elements_name|].
  change (join (e :: e2 :: es)) with (e ++ slash :: join (e2 :: es)). rewrite elements_noslash by done.
  by rewrite IH.
Qed.

Lemma clean_proper r out es :
  Forall proper es -> foldl (clean_element r) out es = rev es ++ out.
Proof.
  intros HF. revert out. induction HF as [|e es (H1 & H2 & H3 & _) _ IH]; intros out; [done|].
  simpl. unfold clean_element at 2. rewrite decide_False by (by intros [|]). rewrite decide_False by done.
  rewrite IH. by rewrite <- (assoc_L (++)).
Qed.

Lemma proper_noslash es : Forall proper es -> Forall (fun e => slash ∉ e) es.
Proof. intros H. eapply Forall_impl; [exact H|]. by intros e (_ & _ & _ & ?). Qed.

Lemma Clean_abs cs : Forall proper cs -> Clean (abs cs) = abs cs.
Proof.
  intros HF. unfold Clean, abs. change (is_rooted _) with true. rewrite foldl_rooted.
  destruct cs as [|c cs]; [done|]. rewrite elements_join by (done || by apply proper_noslash).
  rewrite clean_proper by done. rewrite app_nil_r. unfold assemble. by rewrite rev_involutive.
Qed.

Lemma join_snoc es e : es <> [] -> join (es ++ [e]) = join es ++ slash :: e.
Proof.
  intros H. induction es as [|e1 [|e2 es] IH]; [done..|].
  change (join ((e1 :: e2 :: es) ++ [e])) with (e1 ++ slash :: join ((e2 :: es) ++ [e])).
  rewrite IH by done. change (join (e1 :: e2 :: es)) with (e1 ++ slash :: join (e2 :: es)).
  by rewrite <- (assoc_L (++)).
Qed.

Lemma abs_snoc es e : es <> [] -> abs (es ++ [e]) = abs es ++ slash :: e.
Proof. intros. unfold abs. by rewrite join_snoc. Qed.

Lemma up_to_slash_base dir e : slash ∉ e -> up_to_slash (dir ++ slash :: e) = dir ++ [slash].
Proof.
  intros He. induction dir as [|c dir IH]; simpl.
  - destruct (up_to_slash_split e) as [[-> _]|(d & b & -> & _ & _)]; [done|].
    exfalso. apply He. apply elem_of_app. right. apply list_elem_of_here.
  - rewrite IH. by destruct dir.
Qed.

Lemma Dir_abs es e : Forall proper es -> proper e -> Dir (abs (es ++ [e])) = abs es.
Proof.
  intros HF (_ & _ & _ & He). unfold Dir. destruct (decide (es = [])) as [->|Hne].
  - pose proof (up_to_slash_base [] e He) as Hu. simpl app in Hu. unfold abs. cbn [app join]. by rewrite Hu.
  - rewrite abs_snoc, up_to_slash_base, Clean_slash by done. by apply Clean_abs.
Qed.

Lemma Dir_root : Dir (abs []) = abs [].
Proof. done. Qed.

Lemma Join_abs cs e :
  Forall proper cs -> proper e -> Join [abs cs; e] = abs (cs ++ [e]).
Proof.
  intros HF He. rewrite <- (Clean_abs (cs ++ [e])) by (apply Forall_app; split; [done|by constructor]).
  destruct (decide (cs = [])) as [->|Hne].
  - unfold Join, abs, Clean. cbn [join app]. change (is_rooted _) with true. by rewrite !foldl_rooted.
  - rewrite abs_snoc by done. done.
Qed.
