(* ===== verification/Runtime.v ===== *)
(** * The runtime: effects of a goroutine, the shared heap and its small steps

    A sequential piece of Go code is a value of [io A]: a tree of the effects
    it performs on state it shares with other goroutines or with the outside
    world.  [estep] is one effect on the heap, [tstep] one step of a goroutine.
    [wp] is a weakest precondition calculus over the goroutine's ghost state
    [tst] (what it holds), and [heap_ok] says that the ghost states of all
    goroutines account for the heap exactly. *)

From S2P Require Import Prelude.

(** Identities of channels, connection pools and open result sets. *)
Abbreviation chan := nat.
Abbreviation pool := nat.
Abbreviation rowsid := nat.

(** ** The outside world

    pgx and the operating system are not part of this repository.  What a call
    may answer is a relation, and every call answers something. *)
Class World := {
  pgvalue : Type;
  new_answer : string -> option error -> Prop;
  query_answer : string -> string -> res (list (list pgvalue) * option error) -> Prop;
  row_answer : string -> string -> res (list pgvalue) -> Prop;
  exec_answer : string -> list string -> res string -> Prop;
  listen_answer : string -> option error -> Prop;
  ping_answer : string -> option error -> Prop;
  new_answers c : exists r, new_answer c r;
  query_answers c sql : exists r, query_answer c sql r;
  row_answers c sql : exists r, row_answer c sql r;
  exec_answers c args : exists r, exec_answer c args r;
  listen_answers a : exists r, listen_answer a r;
  ping_answers c : exists r, ping_answer c r
}.

(** pgxpool.ErrClosedPool *)
Definition ErrClosedPool : error := ErrExt "closed pool".

Section runtime.
Context `{W : World}.

(** pgx.Rows: the rows that [Next] will deliver one after the other, and what
    [Err] reports after the last of them. *)
Record Rows := MkRows {
  rows_id : rowsid;
  rows_data : list (list pgvalue);
  rows_Err : option error
}.

(** ** Effects *)
Inductive eff : Type :=
| EMuLock                                    (** c.mu.Lock() *)
| EMuUnlock                                  (** c.mu.Unlock() *)
| ESemGet (db : string)                      (** c.dbSemaphores[db] *)
| ESemMake (db : string)                     (** c.dbSemaphores[db] = make(chan struct, 1) *)
| ESelect (sem : option chan)                (** select: send on sem (or a nil channel), or ctx.Done *)
| ERecv (sem : chan)                         (** <-sem *)
| EPoolNew (connStr : string)                (** pgxpool.New(ctx, connStr) *)
| EPoolClose (p : pool)                      (** p.Close() *)
| EQuery (p : pool) (sql : string)           (** p.Query(ctx, sql) *)
| ERowsClose (r : rowsid)                    (** rows.Close() *)
| EQueryRow (p : pool) (sql : string)        (** p.QueryRow(ctx, sql) *)
| EExec (cmd : string) (args : list string)  (** exec.CommandContext(..).Output() *)
| EListen (addr : string)                    (** net.ListenConfig.Listen(ctx, tcp, addr) *)
| EPing (p : pool).                          (** p.Ping(ctx) *)

Definition resp (e : eff) : Type :=
  match e with
  | EMuLock | EMuUnlock | ESemMake _ | ERecv _ | EPoolClose _ | ERowsClose _ => unit
  | ESemGet _ => option chan
  | ESelect _ => option error
  | EPoolNew _ => res pool
  | EQuery _ _ => res Rows
  | EQueryRow _ _ => res (list pgvalue)
  | EExec _ _ => res string
  | EListen _ | EPing _ => option error
  end.

Inductive io (A : Type) : Type :=
| Ret (a : A)
| Vis (e : eff) (k : resp e -> io A).
Arguments Ret {A} a.
Arguments Vis {A} e k.

Fixpoint io_bind {A B} (p : io A) (f : A -> io B) : io B :=
  match p with
  | Ret a => f a
  | Vis e k => Vis e (fun r => io_bind (k r) f)
  end.

#[export] Instance io_mret : MRet io := fun A => Ret.
#[export] Instance io_mbind : MBind io := fun A B f p => io_bind p f.

Definition perform (e : eff) : io (resp e) := Vis e Ret.

(** [defer cleanup] followed by [body]: cleanup runs when the body returns,
    and the function returns the body's value. *)
Definition defer {A} (cleanup : io unit) (body : io A) : io A :=
  a ← body; _ ← cleanup; Ret a.

(** ** The shared heap *)
Record heap := Heap {
  h_mu : bool;                      (** c.mu is locked *)
  h_sems : gmap string chan;        (** c.dbSemaphores *)
  h_chans : gmap chan bool;         (** capacity-1 channels: is the buffer full? *)
  h_pools : gmap pool string;       (** open pools and their connection string *)
  h_rows : gmap rowsid pool         (** open result sets and their pool *)
}.

(** One effect on the heap.  An effect that has no successor blocks: locking a
    locked mutex, sending on a full channel, receiving from an empty one, and
    closing a pool that still has result sets open (pgxpool.Close waits for
    every connection to be returned).  [ctx] is [ctx.Err()]. *)
Definition estep (ctx : option error) (h : heap) (e : eff) : resp e -> heap -> Prop :=
  match e return resp e -> heap -> Prop with
  | EMuLock => fun _ h' => h_mu h = false /\
      h' = Heap true (h_sems h) (h_chans h) (h_pools h) (h_rows h)
  | EMuUnlock => fun _ h' => h_mu h = true /\
      h' = Heap false (h_sems h) (h_chans h) (h_pools h) (h_rows h)
  | ESemGet db => fun r h' => r = h_sems h !! db /\ h' = h
  | ESemMake db => fun _ h' => exists ch, h_chans h !! ch = None /\
      h' = Heap (h_mu h) (<[db := ch]> (h_sems h)) (<[ch := false]> (h_chans h))
             (h_pools h) (h_rows h)
  | ESelect sem => fun r h' =>
      (exists ch, sem = Some ch /\ r = None /\ h_chans h !! ch = Some false /\
       h' = Heap (h_mu h) (h_sems h) (<[ch := true]> (h_chans h)) (h_pools h) (h_rows h))
      \/ (r = ctx /\ ctx <> None /\ h' = h)
  | ERecv sem => fun _ h' => h_chans h !! sem = Some true /\
      h' = Heap (h_mu h) (h_sems h) (<[sem := false]> (h_chans h)) (h_pools h) (h_rows h)
  | EPoolNew c => fun r h' =>
      match r with
      | inl err => new_answer c (Some err) /\ h' = h
      | inr p => new_answer c None /\ h_pools h !! p = None /\
          h' = Heap (h_mu h) (h_sems h) (h_chans h) (<[p := c]> (h_pools h)) (h_rows h)
      end
  | EPoolClose p => fun _ h' => (forall r q, h_rows h !! r = Some q -> q <> p) /\
      h' = Heap (h_mu h) (h_sems h) (h_chans h) (delete p (h_pools h)) (h_rows h)
  | EQuery p sql => fun r h' =>
      match r with
      | inl err => h' = h /\
          match h_pools h !! p with
          | Some c => query_answer c sql (inl err)
          | None => err = ErrClosedPool
          end
      | inr rows => exists c, h_pools h !! p = Some c /\
          query_answer c sql (inr (rows_data rows, rows_Err rows)) /\
          h_rows h !! rows_id rows = None /\
          h' = Heap (h_mu h) (h_sems h) (h_chans h) (h_pools h) (<[rows_id rows := p]> (h_rows h))
      end
  | ERowsClose r => fun _ h' =>
      h' = Heap (h_mu h) (h_sems h) (h_chans h) (h_pools h) (delete r (h_rows h))
  | EQueryRow p sql => fun r h' => h' = h /\
      match h_pools h !! p with
      | Some c => row_answer c sql r
      | None => r = inl ErrClosedPool
      end
  | EExec cmd args => fun r h' => h' = h /\ exec_answer cmd args r
  | EListen addr => fun r h' => h' = h /\ listen_answer addr r
  | EPing p => fun r h' => h' = h /\
      match h_pools h !! p with
      | Some c => ping_answer c r
      | None => r = Some ErrClosedPool
      end
  end.

(** One step of a goroutine. *)
Definition tstep {A} (ctx : option error) (h : heap) (p : io A) (h' : heap) (p' : io A) : Prop :=
  match p with
  | Ret _ => False
  | Vis e k => exists r, estep ctx h e r h' /\ p' = k r
  end.

(** A run of a goroutine that nothing else interferes with: from heap [h] it
    returns [a] and leaves [h']. *)
Fixpoint runs {A} (ctx : option error) (h : heap) (p : io A) (h' : heap) (a : A) : Prop :=
  match p with
  | Ret b => a = b /\ h' = h
  | Vis e k => exists r h1, estep ctx h e r h1 /\ runs ctx h1 (k r) h' a
  end.

Definition tstep_pair {A} (ctx : option error) (x y : heap * io A) : Prop :=
  tstep ctx x.1 x.2 y.1 y.2.

Lemma runs_rtc {A} ctx h (p : io A) h' a :
  runs ctx h p h' a <-> rtc (tstep_pair ctx) (h, p) (h', Ret a).
Proof.
  split.
  - revert h. induction p as [b|e k IH]; simpl; intros h; [intros [-> ->]; apply rtc_refl|].
    intros (r & h1 & Hs & Hr). eapply rtc_l; [|by apply IH]. by exists r.
  - remember (h, p) as x eqn:Ex. remember (h', Ret a) as y eqn:Ey. intros Hr. revert h p Ex.
    induction Hr as [x|x z y Hs _ IH]; intros h p ->; [by simplify_eq|]. specialize (IH Ey).
    destruct p as [b|e k], z as [h1 p1]; simpl in *; [done|].
    destruct Hs as (r & Hs & Hp). simpl in *. subst p1. exists r, h1. auto.
Qed.

Lemma runs_bind {A B} ctx h (p : io A) (f : A -> io B) h' b :
  runs ctx h (p ≫= f) h' b <-> exists a h1, runs ctx h p h1 a /\ runs ctx h1 (f a) h' b.
Proof.
  revert h. induction p as [a|e k IH]; intros h; simpl.
  - split; [by eauto|]. by intros (? & ? & [-> ->] & ?).
  - setoid_rewrite IH. firstorder eauto.
Qed.

(** Every goroutine terminates when its effects return: [io] is well founded. *)
Definition io_sub {A} (p p' : io A) : Prop :=
  match p with
  | Ret _ => False
  | Vis e k => exists r, p' = k r
  end.

Lemma io_sub_wf {A} (p : io A) : Acc (flip io_sub) p.
Proof.
  induction p as [a|e k IH]; constructor; intros p' H; [done|].
  destruct H as [r ->]. apply IH.
Qed.

Lemma tstep_sub {A} ctx h (p : io A) h' p' : tstep ctx h p h' p' -> io_sub p p'.
Proof. destruct p; simpl; [done|]. intros (r & _ & ->). by exists r. Qed.
End runtime.

Arguments Ret {_ _} a.
Arguments Vis {_ _} e k.
#[global] Arguments defer : simpl never.
