(* ===== verification/Logic.v ===== *)
(** * Reasoning about goroutines that share the heap

    Each goroutine carries a ghost state [tst]: whether it holds [c.mu], what it
    has learned about [c.dbSemaphores], the permit, pool and result set it owns.
    [eff_spec] says what an effect requires of that state and what it guarantees
    about the answer; [wp] extends it to whole goroutines; [heap_ok] ties the
    ghost states of all goroutines to the heap.  The three theorems at the end
    are soundness of [wp] for one step, absence of deadlock, and exclusion. *)

From S2P Require Import Prelude Runtime.

Record tst := Tst {
  t_mu : bool;                        (** holds c.mu *)
  t_absent : option string;           (** saw no entry for this name, and still holds c.mu *)
  t_known : gmap string chan;         (** entries it has seen; entries are never replaced *)
  t_permit : option (string * chan);  (** has put its token on this channel *)
  t_pool : option pool;               (** the pool it opened *)
  t_rows : option (rowsid * pool)     (** the result set it has open, and its pool *)
}.

Definition set_mu b st := Tst b None (t_known st) (t_permit st) (t_pool st) (t_rows st).
Definition set_absent db st :=
  Tst (t_mu st) (Some db) (t_known st) (t_permit st) (t_pool st) (t_rows st).
Definition add_known db ch st :=
  Tst (t_mu st) None (<[db := ch]> (t_known st)) (t_permit st) (t_pool st) (t_rows st).
Definition set_permit o st :=
  Tst (t_mu st) (t_absent st) (t_known st) o (t_pool st) (t_rows st).
Definition set_pool o st :=
  Tst (t_mu st) (t_absent st) (t_known st) (t_permit st) o (t_rows st).
Definition set_rows o st :=
  Tst (t_mu st) (t_absent st) (t_known st) (t_permit st) (t_pool st) o.

(** Holds nothing: the state in which goroutines start and must end. *)
Definition clean (st : tst) : Prop :=
  t_mu st = false /\ t_absent st = None /\ t_permit st = None /\ t_pool st = None /\ t_rows st = None.

Definition idle : tst := Tst false None ∅ None None None.

Lemma idle_clean : clean idle.
Proof. done. Qed.

Definition has_permit (db : string) (ch : chan) (st : tst) : bool :=
  bool_decide (t_permit st = Some (db, ch)).
Definition has_pool (p : pool) (st : tst) : bool := bool_decide (t_pool st = Some p).
Definition has_rows (r : rowsid) (st : tst) : bool := bool_decide (fst <$> t_rows st = Some r).

(** The default pool of the store, its connection string, and the function that
    gives the connection string of a database. *)
Class ConnCfg := {
  default_pool : pool;
  default_conn : string;
  conn_str_for : string -> string
}.

Section logic.
Context `{W : World} `{G : ConnCfg}.

Definition conn_of (st : tst) (p : pool) (c : string) : Prop :=
  (p = default_pool /\ c = default_conn) \/
  (t_pool st = Some p /\ exists db ch, t_permit st = Some (db, ch) /\ c = conn_str_for db).

Definition strip (r : res Rows) : res (list (list pgvalue) * option error) :=
  match r with inl e => inl e | inr rows => inr (rows_data rows, rows_Err rows) end.

(** What an effect needs and what it gives. *)
Definition eff_spec (st : tst) (e : eff) : (resp e -> tst -> Prop) -> Prop :=
  match e return (resp e -> tst -> Prop) -> Prop with
  | EMuLock => fun Φ => t_mu st = false /\ Φ tt (set_mu true st)
  | EMuUnlock => fun Φ => t_mu st = true /\ Φ tt (set_mu false st)
  | ESemGet db => fun Φ => t_mu st = true /\
      (forall ch, (forall ch', t_permit st = Some (db, ch') -> ch' = ch) ->
         Φ (Some ch) (add_known db ch st)) /\
      (t_known st !! db = None -> (forall ch', t_permit st <> Some (db, ch')) ->
         Φ None (set_absent db st))
  | ESemMake db => fun Φ => t_mu st = true /\ t_absent st = Some db /\
      forall ch, Φ tt (add_known db ch st)
  | ESelect o => fun Φ => t_mu st = false /\ t_permit st = None /\
      exists db sem, o = Some sem /\ t_known st !! db = Some sem /\
        Φ None (set_permit (Some (db, sem)) st) /\ (forall err, Φ (Some err) st)
  | ERecv sem => fun Φ => t_mu st = false /\ t_pool st = None /\
      exists db, t_permit st = Some (db, sem) /\ Φ tt (set_permit None st)
  | EPoolNew c => fun Φ => t_mu st = false /\ t_pool st = None /\
      (exists db ch, t_permit st = Some (db, ch) /\ c = conn_str_for db) /\
      (forall err, new_answer c (Some err) -> Φ (inl err) st) /\
      (forall p, new_answer c None -> Φ (inr p) (set_pool (Some p) st))
  | EPoolClose p => fun Φ => t_mu st = false /\ t_pool st = Some p /\ t_rows st = None /\
      Φ tt (set_pool None st)
  | EQuery p sql => fun Φ => t_mu st = false /\ t_rows st = None /\
      exists c, conn_of st p c /\
        (forall err, query_answer c sql (inl err) -> Φ (inl err) st) /\
        (forall rows, query_answer c sql (inr (rows_data rows, rows_Err rows)) ->
           Φ (inr rows) (set_rows (Some (rows_id rows, p)) st))
  | ERowsClose r => fun Φ => t_mu st = false /\
      exists p, t_rows st = Some (r, p) /\ Φ tt (set_rows None st)
  | EQueryRow p sql => fun Φ => t_mu st = false /\
      exists c, conn_of st p c /\ forall r, row_answer c sql r -> Φ r st
  | EExec cmd args => fun Φ => t_mu st = false /\
      forall r, exec_answer cmd args r -> Φ r st
  | EListen addr => fun Φ => t_mu st = false /\
      forall r, listen_answer addr r -> Φ r st
  | EPing p => fun Φ => t_mu st = false /\
      exists c, conn_of st p c /\ forall r, ping_answer c r -> Φ r st
  end.

Fixpoint wp {A} (p : io A) (Φ : A -> tst -> Prop) (st : tst) : Prop :=
  match p with
  | Ret a => Φ a st
  | Vis e k => eff_spec st e (fun r st' => wp (k r) Φ st')
  end.

Lemma eff_spec_mono st e (Φ Ψ : resp e -> tst -> Prop) :
  (forall r st', Φ r st' -> Ψ r st') -> eff_spec st e Φ -> eff_spec st e Ψ.
Proof. destruct e; simpl; firstorder eauto. Qed.

Lemma wp_mono {A} (p : io A) (Φ Ψ : A -> tst -> Prop) st :
  (forall a st', Φ a st' -> Ψ a st') -> wp p Φ st -> wp p Ψ st.
Proof.
  intros H. revert st. induction p as [a|e k IH]; simpl; intros st Hp; [by apply H|].
  eapply eff_spec_mono; [|exact Hp]. simpl. intros. by apply IH.
Qed.

Lemma wp_bind {A B} (p : io A) (f : A -> io B) Φ st :
  wp p (fun a st' => wp (f a) Φ st') st -> wp (p ≫= f) Φ st.
Proof.
  revert st. induction p as [a|e k IH]; simpl; intros st Hp; [done|].
  eapply eff_spec_mono; [|exact Hp]. simpl. intros. by apply IH.
Qed.

Lemma wp_perform e Φ st : eff_spec st e Φ -> wp (perform e) Φ st.
Proof. done. Qed.

(** The rule for [defer]: the body must leave a state in which the cleanup runs. *)
Lemma wp_defer {A} cleanup (body : io A) Φ st :
  wp body (fun a st' => wp cleanup (fun _ st'' => Φ a st'') st') st ->
  wp (defer cleanup body) Φ st.
Proof.
  intros H. unfold defer. apply wp_bind. eapply wp_mono; [|exact H].
  intros a st' Hc. apply wp_bind. eapply wp_mono; [|exact Hc]. by simpl.
Qed.

(** ** Consistency of the ghost states with the heap *)
Record local_ok (h : heap) (st : tst) : Prop := {
  lo_absent db : t_absent st = Some db -> t_mu st = true /\ h_sems h !! db = None;
  lo_known : t_known st ⊆ h_sems h;
  lo_permit db ch : t_permit st = Some (db, ch) -> h_sems h !! db = Some ch;
  lo_pool p : t_pool st = Some p -> p <> default_pool /\
    exists db ch, t_permit st = Some (db, ch) /\ h_pools h !! p = Some (conn_str_for db);
  lo_rows r p : t_rows st = Some (r, p) ->
    h_rows h !! r = Some p /\ (p = default_pool \/ t_pool st = Some p)
}.

Record heap_ok (h : heap) (sts : list tst) : Prop := {
  ok_local : Forall (local_ok h) sts;
  ok_mu : cnt t_mu sts = Nat.b2n (h_mu h);
  ok_inj d1 d2 ch : h_sems h !! d1 = Some ch -> h_sems h !! d2 = Some ch -> d1 = d2;
  ok_chan db ch : h_sems h !! db = Some ch ->
    exists b, h_chans h !! ch = Some b /\ cnt (has_permit db ch) sts = Nat.b2n b;
  ok_default : h_pools h !! default_pool = Some default_conn;
  ok_pools p c : h_pools h !! p = Some c -> p <> default_pool -> cnt (has_pool p) sts = 1;
  ok_rowset r p : h_rows h !! r = Some p -> cnt (has_rows r) sts = 1
}.

#[export] Instance heap_ok_Permutation h : Proper (Permutation ==> iff) (heap_ok h).
Proof.
  assert (forall l1 l2, l1 ≡ₚ l2 -> heap_ok h l1 -> heap_ok h l2) as Himp.
  { intros l1 l2 H []. split; try done.
    - by rewrite <- H.
    - by rewrite <- H.
    - intros db ch Hs. destruct (ok_chan0 db ch Hs) as (b & ? & ?).
      exists b. split; [done|]. by rewrite <- H.
    - intros. rewrite <- H. eauto.
    - intros. rewrite <- H. eauto. }
  intros l1 l2 H. split; apply Himp; by rewrite H.
Qed.

(** A goroutine that holds nothing can join or leave. *)
Lemma heap_ok_idle h sts : heap_ok h sts -> heap_ok h (idle :: sts).
Proof.
  intros []. split; try done.
  constructor; [|done]. split; try done. apply map_empty_subseteq.
Qed.

Lemma heap_ok_drop h st sts : clean st -> heap_ok h (st :: sts) -> heap_ok h sts.
Proof.
  intros (Hmu & Hab & Hpe & Hpo & Hro) [Hl ? ? Hch ? Hp Hr]. split; try done.
  - by inversion Hl.
  - simpl in *. by rewrite Hmu in *.
  - intros db ch Hs. destruct (Hch db ch Hs) as (b & Hb & Hc).
    exists b. split; [done|]. simpl in Hc. unfold has_permit in Hc at 1. by rewrite Hpe in Hc.
  - intros p c Hp1 Hp2. specialize (Hp p c Hp1 Hp2). simpl in Hp.
    unfold has_pool in Hp at 1. by rewrite Hpo in Hp.
  - intros r p Hrp. specialize (Hr r p Hrp). simpl in Hr.
    unfold has_rows in Hr at 1. by rewrite Hro in Hr.
Qed.

Lemma clean_idle_swap h st sts : clean st -> heap_ok h (st :: sts) -> heap_ok h (idle :: sts).
Proof. intros. by eapply heap_ok_idle, heap_ok_drop. Qed.

(** [local_ok] of one goroutine survives what another one does to the heap. *)
Lemma local_ok_frame h h' st :
  local_ok h st ->
  h_sems h ⊆ h_sems h' ->
  (forall db, t_absent st = Some db -> h_sems h' !! db = None) ->
  (forall p, t_pool st = Some p -> h_pools h' !! p = h_pools h !! p) ->
  (forall r p, t_rows st = Some (r, p) -> h_rows h' !! r = h_rows h !! r) ->
  local_ok h' st.
Proof.
  intros [Ha Hk Hp Hpo Hr] Hs Hab Hpool Hrows. split.
  - intros db E. split; [by apply Ha in E as []|by apply Hab].
  - by etrans.
  - intros db ch E. eapply lookup_weaken; eauto.
  - intros p E. rewrite (Hpool p E). by apply Hpo.
  - intros r p E. rewrite (Hrows r p E). by apply Hr.
Qed.

Lemma heap_ok_head h st rest : heap_ok h (st :: rest) -> local_ok h st.
Proof. intros [Hl]. by inversion Hl. Qed.

Lemma heap_ok_tail h st rest o : heap_ok h (st :: rest) -> o ∈ rest -> local_ok h o.
Proof. intros [Hl] Ho. rewrite Forall_cons, Forall_forall in Hl. by apply Hl. Qed.

Lemma mu_excl h st rest o :
  heap_ok h (st :: rest) -> t_mu st = true -> o ∈ rest -> t_absent o = None.
Proof.
  intros Hok Hmu Ho. pose proof (heap_ok_tail _ _ _ _ Hok Ho) as Hlo.
  destruct (t_absent o) eqn:E; [|done].
  destruct (lo_absent _ _ Hlo _ E) as [Ht _].
  pose proof (ok_mu _ _ Hok) as Hc. simpl in Hc. rewrite Hmu in Hc.
  pose proof (cnt_pos _ _ _ Ho Ht). destruct (h_mu h); simpl in *; lia.
Qed.

Lemma pool_excl h st rest p o :
  heap_ok h (st :: rest) -> t_pool st = Some p -> o ∈ rest -> t_pool o <> Some p.
Proof.
  intros Hok Hp Ho E. destruct (lo_pool _ _ (heap_ok_head _ _ _ Hok) _ Hp) as (Hne & db & ch & _ & Hl).
  pose proof (ok_pools _ _ Hok _ _ Hl Hne) as Hc. simpl in Hc.
  assert (has_pool p st = true) as E1 by by apply bool_decide_eq_true.
  assert (has_pool p o = true) as E2 by by apply bool_decide_eq_true.
  pose proof (cnt_pos _ _ _ Ho E2). rewrite E1 in Hc. simpl in *. lia.
Qed.

Lemma rows_excl h st rest r p o q :
  heap_ok h (st :: rest) -> t_rows st = Some (r, p) -> o ∈ rest -> t_rows o <> Some (r, q).
Proof.
  intros Hok Hr Ho E. destruct (lo_rows _ _ (heap_ok_head _ _ _ Hok) _ _ Hr) as (Hl & _).
  pose proof (ok_rowset _ _ Hok _ _ Hl) as Hc. simpl in Hc.
  assert (has_rows r st = true) as E1 by (apply bool_decide_eq_true; by rewrite Hr).
  assert (has_rows r o = true) as E2 by (apply bool_decide_eq_true; by rewrite E).
  pose proof (cnt_pos _ _ _ Ho E2). rewrite E1 in Hc. simpl in *. lia.
Qed.

(** Nobody owns a pool or result set whose identity is not in the heap. *)
Lemma cnt_pool_fresh h sts p :
  Forall (local_ok h) sts -> h_pools h !! p = None -> cnt (has_pool p) sts = 0.
Proof.
  intros Hl Hp. destruct (cnt (has_pool p) sts) eqn:E; [done|].
  destruct (cnt_pos_inv (has_pool p) sts) as (o & Ho & Hf); [lia|].
  rewrite Forall_forall in Hl. apply bool_decide_eq_true in Hf.
  destruct (lo_pool _ _ (Hl o Ho) _ Hf) as (_ & ? & ? & _ & ?). congruence.
Qed.

Lemma cnt_rows_fresh h sts r :
  Forall (local_ok h) sts -> h_rows h !! r = None -> cnt (has_rows r) sts = 0.
Proof.
  intros Hl Hp. destruct (cnt (has_rows r) sts) eqn:E; [done|].
  destruct (cnt_pos_inv (has_rows r) sts) as (o & Ho & Hf); [lia|].
  rewrite Forall_forall in Hl. apply bool_decide_eq_true in Hf.
  destruct (t_rows o) as [[r' p]|] eqn:Er; simpl in *; simplify_eq.
  destruct (lo_rows _ _ (Hl o Ho) _ _ Er). congruence.
Qed.

(** Replacing the head's ghost state and the heap: what has to be re-proved. *)
Lemma heap_ok_update h h' st st' rest :
  heap_ok h (st :: rest) ->
  local_ok h' st' ->
  (forall o, o ∈ rest -> local_ok h o -> local_ok h' o) ->
  Nat.b2n (t_mu st') + Nat.b2n (h_mu h) = Nat.b2n (t_mu st) + Nat.b2n (h_mu h') ->
  (forall d1 d2 ch, h_sems h' !! d1 = Some ch -> h_sems h' !! d2 = Some ch -> d1 = d2) ->
  (forall db ch, h_sems h' !! db = Some ch -> exists b, h_chans h' !! ch = Some b /\
     Nat.b2n (has_permit db ch st') + cnt (has_permit db ch) rest = Nat.b2n b) ->
  h_pools h' !! default_pool = Some default_conn ->
  (forall p c, h_pools h' !! p = Some c -> p <> default_pool ->
     Nat.b2n (has_pool p st') + cnt (has_pool p) rest = 1) ->
  (forall r p, h_rows h' !! r = Some p -> Nat.b2n (has_rows r st') + cnt (has_rows r) rest = 1) ->
  heap_ok h' (st' :: rest).
Proof.
  intros Hok ? Ho Hmu ? ? ? ? ?. split; try done.
  - constructor; [done|]. apply Forall_forall. intros o Hin.
    apply Ho; [done|]. by eapply heap_ok_tail.
  - pose proof (ok_mu _ _ Hok) as Hc. simpl in *. lia.
Qed.
(** ** Soundness: one effect

    An effect allowed by [eff_spec] answers as [eff_spec] says, and the new
    ghost state still accounts for the new heap. *)
Ltac ok_update Hok := eapply (heap_ok_update _ _ _ _ _ Hok); simpl;
  [split; simpl | intros o Ho Hlo; eapply (local_ok_frame _ _ _ Hlo); simpl | ..].

(** Keeps the clauses of [heap_ok] that an update does not touch. *)
Ltac ok_keep Hok :=
  first [ exact (ok_chan _ _ Hok) | exact (ok_pools _ _ Hok) | exact (ok_rowset _ _ Hok)
        | exact (ok_inj _ _ Hok) | exact (ok_default _ _ Hok)
        | exact (lo_absent _ _ (heap_ok_head _ _ _ Hok))
        | exact (lo_known _ _ (heap_ok_head _ _ _ Hok))
        | exact (lo_permit _ _ (heap_ok_head _ _ _ Hok))
        | exact (lo_pool _ _ (heap_ok_head _ _ _ Hok))
        | exact (lo_rows _ _ (heap_ok_head _ _ _ Hok))
        | done ].

Lemma sound_lock ctx h st rest r h' Φ :
  heap_ok h (st :: rest) -> eff_spec st EMuLock Φ -> estep ctx h EMuLock r h' ->
  exists st', Φ r st' /\ heap_ok h' (st' :: rest).
Proof.
  simpl. intros Hok [Hm HΦ] [Hmu ->]. exists (set_mu true st).
  split; [by destruct r|]. unfold set_mu. ok_update Hok; try ok_keep Hok.
  - intros db E. by apply (lo_absent _ _ Hlo) in E as [].
  - rewrite Hm, Hmu. done.
Qed.

Lemma sound_unlock ctx h st rest r h' Φ :
  heap_ok h (st :: rest) -> eff_spec st EMuUnlock Φ -> estep ctx h EMuUnlock r h' ->
  exists st', Φ r st' /\ heap_ok h' (st' :: rest).
Proof.
  simpl. intros Hok [Hm HΦ] [Hmu ->]. exists (set_mu false st).
  split; [by destruct r|]. unfold set_mu. ok_update Hok; try ok_keep Hok.
  - intros db E. by apply (lo_absent _ _ Hlo) in E as [].
  - rewrite Hm, Hmu. done.
Qed.

Lemma sound_semget ctx h st rest db r h' Φ :
  heap_ok h (st :: rest) -> eff_spec st (ESemGet db) Φ -> estep ctx h (ESemGet db) r h' ->
  exists st', Φ r st' /\ heap_ok h' (st' :: rest).
Proof.
  simpl. intros Hok (Hm & HS & HN) [-> ->].
  pose proof (lo_known _ _ (heap_ok_head _ _ _ Hok)) as Hk.
  pose proof (lo_permit _ _ (heap_ok_head _ _ _ Hok) db) as Hp.
  destruct (h_sems h !! db) as [ch|] eqn:E.
  - exists (add_known db ch st). split; [apply HS; intros ch' E'; apply Hp in E'; congruence|].
    unfold add_known. ok_update Hok; try ok_keep Hok.
    + apply insert_subseteq_l; [done|]. exact Hk.
    + intros db' E'. by apply (lo_absent _ _ Hlo) in E' as [].
  - exists (set_absent db st). split.
    { apply HN; [by eapply lookup_weaken_None|]. intros ch' E'. by apply Hp in E'. }
    unfold set_absent. ok_update Hok; try ok_keep Hok.
    + by intros ? [= <-].
    + intros db' E'. by apply (lo_absent _ _ Hlo) in E' as [].
Qed.

Lemma sound_semmake ctx h st rest db r h' Φ :
  heap_ok h (st :: rest) -> eff_spec st (ESemMake db) Φ -> estep ctx h (ESemMake db) r h' ->
  exists st', Φ r st' /\ heap_ok h' (st' :: rest).
Proof.
  simpl. intros Hok (Hm & Hab & HΦ) (ch & Hfresh & ->). exists (add_known db ch st).
  split; [destruct r; by apply HΦ|].
  pose proof (heap_ok_head _ _ _ Hok) as Hhd.
  destruct (lo_absent _ _ Hhd _ Hab) as [_ Hnone].
  assert (forall d c, h_sems h !! d = Some c -> c <> ch) as Hnew.
  { intros d c Hd ->. destruct (ok_chan _ _ Hok _ _ Hd) as (b & ? & _). congruence. }
  assert (forall o, o ∈ st :: rest -> has_permit db ch o = false) as Hnop.
  { intros o Ho. apply bool_decide_eq_false. intros E.
    pose proof (ok_local _ _ Hok) as HF. rewrite Forall_forall in HF.
    specialize (HF o Ho). apply (lo_permit _ _ HF) in E. congruence. }
  unfold add_known. ok_update Hok; try ok_keep Hok.
  - by apply insert_mono, (lo_known _ _ Hhd).
  - intros d c Hd. rewrite lookup_insert_ne; [by apply (lo_permit _ _ Hhd)|].
    intros <-. apply (lo_permit _ _ Hhd) in Hd. congruence.
  - by apply insert_subseteq.
  - intros d E. exfalso. pose proof (mu_excl _ _ _ _ Hok Hm Ho). congruence.
  - intros d1 d2 c H1 H2. apply lookup_insert_Some in H1, H2.
    destruct H1 as [[? ?]|[? H1]], H2 as [[? ?]|[? H2]]; subst; [done|..].
    + by apply Hnew in H2.
    + by apply Hnew in H1.
    + by eapply (ok_inj _ _ Hok).
  - intros d c Hd. apply lookup_insert_Some in Hd as [[<- <-]|[Hne Hd]].
    + exists false. rewrite lookup_insert_eq. split; [done|]. simpl.
      transitivity (cnt (has_permit db ch) (st :: rest)); [done|].
      by apply cnt_none.
    + destruct (ok_chan _ _ Hok _ _ Hd) as (b & Hb & Hc). exists b. split; [|exact Hc].
      rewrite lookup_insert_ne; [done|]. intros <-. by apply (Hnew _ _ Hd).
Qed.
Lemma sound_select ctx h st rest sem r h' Φ :
  heap_ok h (st :: rest) -> eff_spec st (ESelect sem) Φ -> estep ctx h (ESelect sem) r h' ->
  exists st', Φ r st' /\ heap_ok h' (st' :: rest).
Proof.
  simpl. intros Hok (Hm & Hper & db & ch & -> & Hk & HN & HS) [(? & [= <-] & -> & Hfree & ->)|(-> & Hctx & ->)]; last first.
  { exists st. split; [|done]. destruct ctx; [apply HS|done]. }
  exists (set_permit (Some (db, ch)) st). split; [done|].
  pose proof (heap_ok_head _ _ _ Hok) as Hhd.
  assert (h_sems h !! db = Some ch) as Hdb by (eapply lookup_weaken; [done|apply (lo_known _ _ Hhd)]).
  assert (t_pool st = None) as Hnop.
  { destruct (t_pool st) eqn:E; [|done]. apply (lo_pool _ _ Hhd) in E as (_ & ? & ? & ? & _). congruence. }
  unfold set_permit. ok_update Hok; try ok_keep Hok.
  - by intros ? ? [= <- <-].
  - intros p E. congruence.
  - intros d E. by apply (lo_absent _ _ Hlo) in E as [].
  - intros d c Hd. destruct (ok_chan _ _ Hok _ _ Hd) as (b & Hb & Hc). simpl in Hc.
    unfold has_permit in Hc at 1. rewrite Hper in Hc. simpl in Hc.
    unfold has_permit at 1. simpl. destruct (decide (c = ch)) as [->|Hne].
    + assert (d = db) as -> by by eapply (ok_inj _ _ Hok).
      exists true. rewrite lookup_insert_eq, bool_decide_eq_true_2 by done.
      rewrite Hfree in Hb. simplify_eq/=. by rewrite Hc.
    + exists b. rewrite lookup_insert_ne by done. split; [done|].
      rewrite bool_decide_eq_false_2; [done|congruence].
Qed.

Lemma sound_recv ctx h st rest sem r h' Φ :
  heap_ok h (st :: rest) -> eff_spec st (ERecv sem) Φ -> estep ctx h (ERecv sem) r h' ->
  exists st', Φ r st' /\ heap_ok h' (st' :: rest).
Proof.
  simpl. intros Hok (Hm & Hnop & db & Hper & HΦ) (Hfull & ->).
  exists (set_permit None st). split; [by destruct r|].
  pose proof (heap_ok_head _ _ _ Hok) as Hhd.
  pose proof (lo_permit _ _ Hhd _ _ Hper) as Hdb.
  unfold set_permit. ok_update Hok; try ok_keep Hok.
  - intros p E. congruence.
  - intros d E. by apply (lo_absent _ _ Hlo) in E as [].
  - intros d c Hd. destruct (ok_chan _ _ Hok _ _ Hd) as (b & Hb & Hc). simpl in Hc.
    unfold has_permit in Hc at 1. rewrite Hper in Hc.
    destruct (decide (c = sem)) as [->|Hne].
    + assert (d = db) as -> by by eapply (ok_inj _ _ Hok).
      exists false. rewrite lookup_insert_eq. split; [done|].
      rewrite bool_decide_eq_true_2 in Hc by done. destruct b; simpl in *; lia.
    + exists b. rewrite lookup_insert_ne by done. split; [done|].
      rewrite bool_decide_eq_false_2 in Hc; [done|congruence].
Qed.

Lemma sound_new ctx h st rest c r h' Φ :
  heap_ok h (st :: rest) -> eff_spec st (EPoolNew c) Φ -> estep ctx h (EPoolNew c) r h' ->
  exists st', Φ r st' /\ heap_ok h' (st' :: rest).
Proof.
  simpl. intros Hok (Hm & Hnop & (db & ch & Hper & ->) & HE & HP).
  destruct r as [err|p]; [intros [? ->]; exists st; auto|]. intros (Hnew & Hfresh & ->).
  exists (set_pool (Some p) st). split; [by apply HP|].
  pose proof (heap_ok_head _ _ _ Hok) as Hhd.
  pose proof (ok_default _ _ Hok) as Hdef.
  assert (p <> default_pool) as Hne by congruence.
  unfold set_pool. ok_update Hok; try ok_keep Hok.
  - intros q [= <-]. split; [done|]. exists db, ch. by rewrite lookup_insert_eq.
  - intros r q E. destruct (lo_rows _ _ Hhd _ _ E) as [? [->|?]]; [auto|congruence].
  - intros d E. by apply (lo_absent _ _ Hlo) in E as [].
  - intros q E. apply lookup_insert_ne. intros <-.
    destruct (lo_pool _ _ Hlo _ E) as (_ & ? & ? & _ & ?). congruence.
  - rewrite lookup_insert_ne; [done|congruence].
  - intros q c Hq Hqne. unfold has_pool at 1. simpl. apply lookup_insert_Some in Hq as [[<- _]|[Hpq Hq]].
    + rewrite bool_decide_eq_true_2 by done.
      pose proof (ok_local _ _ Hok) as HF. apply Forall_cons in HF as [_ HF].
      by rewrite (cnt_pool_fresh _ _ _ HF Hfresh).
    + pose proof (ok_pools _ _ Hok _ _ Hq Hqne) as Hc. simpl in Hc.
      unfold has_pool in Hc at 1. rewrite Hnop in Hc.
      rewrite bool_decide_eq_false_2; [done|congruence].
Qed.

Lemma sound_close ctx h st rest p r h' Φ :
  heap_ok h (st :: rest) -> eff_spec st (EPoolClose p) Φ -> estep ctx h (EPoolClose p) r h' ->
  exists st', Φ r st' /\ heap_ok h' (st' :: rest).
Proof.
  simpl. intros Hok (Hm & Hpool & Hnor & HΦ) (_ & ->).
  exists (set_pool None st). split; [by destruct r|].
  pose proof (heap_ok_head _ _ _ Hok) as Hhd.
  destruct (lo_pool _ _ Hhd _ Hpool) as (Hne & _).
  unfold set_pool. ok_update Hok; try ok_keep Hok.
  - intros r' q E. congruence.
  - intros d E. by apply (lo_absent _ _ Hlo) in E as [].
  - intros q E. apply lookup_delete_ne. intros <-. by apply (pool_excl _ _ _ _ _ Hok Hpool Ho).
  - rewrite lookup_delete_ne by done. apply (ok_default _ _ Hok).
  - intros q c Hq Hqne. apply lookup_delete_Some in Hq as [Hpq Hq].
    pose proof (ok_pools _ _ Hok _ _ Hq Hqne) as Hc. simpl in Hc.
    unfold has_pool in Hc at 1. rewrite Hpool in Hc.
    rewrite bool_decide_eq_false_2 in Hc; [done|congruence].
Qed.

Lemma sound_query ctx h st rest p sql r h' Φ :
  heap_ok h (st :: rest) -> eff_spec st (EQuery p sql) Φ -> estep ctx h (EQuery p sql) r h' ->
  exists st', Φ r st' /\ heap_ok h' (st' :: rest).
Proof.
  simpl. intros Hok (Hm & Hnor & c & Hc & HE & HR) Hstep.
  pose proof (heap_ok_head _ _ _ Hok) as Hhd.
  assert (h_pools h !! p = Some c) as Hp.
  { destruct Hc as [[-> ->]|(E & db & ch & Hper & ->)]; [apply (ok_default _ _ Hok)|].
    destruct (lo_pool _ _ Hhd _ E) as (_ & ? & ? & ? & ?). congruence. }
  destruct r as [err|rows].
  { rewrite Hp in Hstep. destruct Hstep as [-> Ha]. exists st. auto. }
  destruct Hstep as (c' & Hc' & Ha & Hfresh & ->). assert (c' = c) as -> by congruence.
  exists (set_rows (Some (rows_id rows, p)) st). split; [by apply HR|].
  unfold set_rows. ok_update Hok; try ok_keep Hok.
  - intros r q [= <- <-]. rewrite lookup_insert_eq. split; [done|].
    destruct Hc as [[-> _]|[E _]]; auto.
  - intros d E. by apply (lo_absent _ _ Hlo) in E as [].
  - intros r q E. apply lookup_insert_ne. intros <-.
    apply (lo_rows _ _ Hlo) in E as [? _]. congruence.
  - intros r q Hr. unfold has_rows at 1. simpl. apply lookup_insert_Some in Hr as [[<- _]|[Hrq Hr]].
    + rewrite bool_decide_eq_true_2 by done.
      pose proof (ok_local _ _ Hok) as HF. apply Forall_cons in HF as [_ HF].
      by rewrite (cnt_rows_fresh _ _ _ HF Hfresh).
    + pose proof (ok_rowset _ _ Hok _ _ Hr) as Hcn. simpl in Hcn.
      unfold has_rows in Hcn at 1. rewrite Hnor in Hcn.
      rewrite bool_decide_eq_false_2; [done|congruence].
Qed.

Lemma sound_rowsclose ctx h st rest rid r h' Φ :
  heap_ok h (st :: rest) -> eff_spec st (ERowsClose rid) Φ -> estep ctx h (ERowsClose rid) r h' ->
  exists st', Φ r st' /\ heap_ok h' (st' :: rest).
Proof.
  simpl. intros Hok (Hm & p & Hrows & HΦ) ->.
  exists (set_rows None st). split; [by destruct r|].
  unfold set_rows. ok_update Hok; try ok_keep Hok.
  - intros d E. by apply (lo_absent _ _ Hlo) in E as [].
  - intros r' q E. apply lookup_delete_ne. intros <-. by apply (rows_excl _ _ _ _ _ _ _ Hok Hrows Ho E).
  - intros r' q Hr. apply lookup_delete_Some in Hr as [Hne Hr].
    pose proof (ok_rowset _ _ Hok _ _ Hr) as Hcn. simpl in Hcn.
    unfold has_rows in Hcn at 1. rewrite Hrows in Hcn.
    rewrite bool_decide_eq_false_2 in Hcn; [done|]. simpl. congruence.
Qed.

(** The pools that a goroutine may use are open. *)
Lemma heap_ok_conn h st rest p c : heap_ok h (st :: rest) -> conn_of st p c -> h_pools h !! p = Some c.
Proof.
  intros Hok [[-> ->]|(E & db & ch & Hper & ->)]; [apply (ok_default _ _ Hok)|].
  destruct (lo_pool _ _ (heap_ok_head _ _ _ Hok) _ E) as (_ & ? & ? & ? & ?). congruence.
Qed.

Lemma sound_pure_eff ctx h st rest e r h' Φ :
  match e with EQueryRow _ _ | EExec _ _ | EListen _ | EPing _ => True | _ => False end ->
  heap_ok h (st :: rest) -> eff_spec st e Φ -> estep ctx h e r h' ->
  exists st', Φ r st' /\ heap_ok h' (st' :: rest).
Proof.
  intros He Hok. destruct e; try done; simpl.
  - intros (_ & c & Hc & HΦ) [-> Ha]. exists st. split; [|done]. apply HΦ.
    by rewrite (heap_ok_conn _ _ _ _ _ Hok Hc) in Ha.
  - intros (_ & HΦ) [-> Ha]. exists st. auto.
  - intros (_ & HΦ) [-> Ha]. exists st. auto.
  - intros (_ & c & Hc & HΦ) [-> Ha]. exists st. split; [|done]. apply HΦ.
    by rewrite (heap_ok_conn _ _ _ _ _ Hok Hc) in Ha.
Qed.

Lemma eff_sound ctx h st rest e r h' Φ :
  heap_ok h (st :: rest) -> eff_spec st e Φ -> estep ctx h e r h' ->
  exists st', Φ r st' /\ heap_ok h' (st' :: rest).
Proof.
  destruct e; eauto using sound_lock, sound_unlock, sound_semget, sound_semmake, sound_select,
    sound_recv, sound_new, sound_close, sound_query, sound_rowsclose.
  all: by apply sound_pure_eff.
Qed.

(** One step of a goroutine whose [wp] holds. *)
Lemma wp_step {A} ctx h st rest (p : io A) Φ h' p' :
  heap_ok h (st :: rest) -> wp p Φ st -> tstep ctx h p h' p' ->
  exists st', wp p' Φ st' /\ heap_ok h' (st' :: rest).
Proof.
  destruct p as [a|e k]; simpl; [done|]. intros Hok Hwp (r & Hs & ->).
  by eapply eff_sound in Hwp.
Qed.

(** A step of the process leaves the heap alone, or is one effect that the ghost
    state of its goroutine allows. *)
Definition eff_move (h h' : heap) : Prop :=
  h' = h \/
  exists ctx st rest e Φ r, heap_ok h (st :: rest) /\ eff_spec st e Φ /\ estep ctx h e r h'.

Lemma wp_step_move {A} ctx h st rest (p : io A) Φ h' p' :
  heap_ok h (st :: rest) -> wp p Φ st -> tstep ctx h p h' p' -> eff_move h h'.
Proof.
  destruct p as [a|e k]; simpl; [done|]. intros Hok Hwp (r & Hs & ->). right. eauto 10.
Qed.

(** ** Blocking *)

(** Where a goroutine can block: on the mutex, or on a taken permit. *)
Definition may_block (h : heap) (st : tst) (e : eff) : Prop :=
  (e = EMuLock /\ h_mu h = true) \/
  (t_permit st = None /\ exists sem db, e = ESelect (Some sem) /\ h_sems h !! db = Some sem /\
     h_chans h !! sem = Some true).

Lemma eff_progress ctx h st rest e Φ :
  heap_ok h (st :: rest) -> eff_spec st e Φ ->
  (exists r h', estep ctx h e r h') \/ (t_mu st = false /\ may_block h st e).
Proof.
  intros Hok. pose proof (heap_ok_head _ _ _ Hok) as Hhd.
  assert (forall p c, conn_of st p c -> h_pools h !! p = Some c) as Hconn
    by (intros p c; by apply heap_ok_conn with rest).
  destruct e; simpl.
  - intros [Hm _]. destruct (h_mu h) eqn:E; [right; split; [done|left; done]|left; exists tt; eauto].
  - intros [Hm _]. left. exists tt. eexists. split; [|done].
    pose proof (ok_mu _ _ Hok) as Hc. simpl in Hc. rewrite Hm in Hc. by destruct (h_mu h).
  - intros _. left. eauto.
  - intros _. left. exists tt, (Heap (h_mu h) (<[db := fresh (dom (h_chans h))]> (h_sems h))
      (<[fresh (dom (h_chans h)) := false]> (h_chans h)) (h_pools h) (h_rows h)).
    eexists. split; [|done]. apply not_elem_of_dom, is_fresh.
  - intros (Hm & Hper & db & ch & -> & Hk & _).
    assert (h_sems h !! db = Some ch) as Hs by (eapply lookup_weaken; [done|apply (lo_known _ _ Hhd)]).
    destruct (ok_chan _ _ Hok _ _ Hs) as (b & Hb & _). destruct b.
    + right. split; [done|]. right. eauto 7.
    + left. exists None. eexists. left. by exists ch.
  - intros (_ & _ & db & Hper & _). left. exists tt. eexists. split; [|done].
    destruct (ok_chan _ _ Hok _ _ (lo_permit _ _ Hhd _ _ Hper)) as (b & Hb & Hc).
    simpl in Hc. unfold has_permit in Hc at 1. rewrite Hper, bool_decide_eq_true_2 in Hc by done.
    by destruct b.
  - intros _. left. destruct (new_answers connStr) as [[err|] Ha].
    + exists (inl err). eauto.
    + exists (inr (fresh (dom (h_pools h)))). eexists. split; [done|]. split; [|done].
      apply not_elem_of_dom, is_fresh.
  - intros (_ & Hpool & Hnor & _). left. exists tt. eexists. split; [|done].
    intros r q Hr ->. pose proof (ok_rowset _ _ Hok _ _ Hr) as Hc.
    destruct (cnt_pos_inv (has_rows r) (st :: rest)) as (o & Ho & Hf); [lia|].
    apply bool_decide_eq_true in Hf. destruct (t_rows o) as [[r' q]|] eqn:Er; simplify_eq/=.
    apply elem_of_cons in Ho as [->|Ho]; [congruence|].
    destruct (lo_rows _ _ (heap_ok_tail _ _ _ _ Hok Ho) _ _ Er) as [Hq [->|Hq']].
    + destruct (lo_pool _ _ Hhd _ Hpool) as [? _]. congruence.
    + assert (q = p) as -> by congruence. by apply (pool_excl _ _ _ _ _ Hok Hpool Ho).
  - intros (_ & _ & c & Hc & _). left. apply Hconn in Hc.
    destruct (query_answers c sql) as [[err|[rows err]] Ha].
    + exists (inl err), h. by rewrite Hc.
    + exists (inr (MkRows (fresh (dom (h_rows h))) rows err)). eexists. exists c.
      split; [done|]. split; [done|]. split; [|done]. apply not_elem_of_dom, is_fresh.
  - intros _. left. exists tt. eauto.
  - intros (_ & c & Hc & _). left. apply Hconn in Hc.
    destruct (row_answers c sql) as [r Ha]. exists r, h. by rewrite Hc.
  - intros _. left. destruct (exec_answers cmd args) as [r Ha]. exists r, h. done.
  - intros _. left. destruct (listen_answers addr) as [r Ha]. exists r, h. done.
  - intros (_ & c & Hc & _). left. apply Hconn in Hc.
    destruct (ping_answers c) as [r Ha]. exists r, h. by rewrite Hc.
Qed.

(** Among goroutines that hold what they say they hold, one can always run. *)
Lemma no_deadlock h sts :
  heap_ok h sts -> sts <> [] ->
  exists i st, sts !! i = Some st /\
    forall ctx e Φ, eff_spec st e Φ -> exists r h', estep ctx h e r h'.
Proof.
  intros Hok Hne.
  assert (forall i st, sts !! i = Some st -> exists rest, sts ≡ₚ st :: rest) as Hsplit.
  { intros i st Hi. exists (delete i sts). by apply delete_Permutation. }
  destruct (decide (0 < cnt t_mu sts)) as [Hmu|Hmu].
  { apply cnt_pos_inv in Hmu as (st & Hst & Hm). apply list_elem_of_lookup in Hst as [i Hi].
    exists i, st. split; [done|]. intros ctx e Φ He. destruct (Hsplit _ _ Hi) as [rest Hp].
    rewrite Hp in Hok. destruct (eff_progress ctx _ _ _ _ _ Hok He) as [?|[? _]]; [done|congruence]. }
  assert (h_mu h = false) as Hfree.
  { pose proof (ok_mu _ _ Hok). destruct (h_mu h); simpl in *; [lia|done]. }
  destruct (decide (0 < cnt (fun st => bool_decide (is_Some (t_permit st))) sts)) as [Hp|Hp].
  - apply cnt_pos_inv in Hp as (st & Hst & Hs). apply bool_decide_eq_true in Hs as [[db ch] Hs].
    apply list_elem_of_lookup in Hst as [i Hi]. exists i, st. split; [done|]. intros ctx e Φ He.
    destruct (Hsplit _ _ Hi) as [rest Hpm]. rewrite Hpm in Hok.
    destruct (eff_progress ctx _ _ _ _ _ Hok He) as [?|[_ [[_ ?]|[? _]]]]; [done|congruence..].
  - destruct sts as [|st rest]; [done|]. exists 0, st. split; [done|]. intros ctx e Φ He.
    destruct (eff_progress ctx _ _ _ _ _ Hok He) as [?|[_ [[_ ?]|(_ & sem & db & _ & Hs & Hc)]]];
      [done|congruence|].
    destruct (ok_chan _ _ Hok _ _ Hs) as (b & Hb & Hcn). simplify_eq/=.
    destruct (cnt_pos_inv (has_permit db sem) (st :: rest)) as (o & Ho & Hf); [simpl; lia|].
    apply bool_decide_eq_true in Hf. exfalso. apply Hp.
    apply (cnt_pos (fun st => bool_decide (is_Some (t_permit st))) (st :: rest) o Ho).
    apply bool_decide_eq_true. by rewrite Hf.
Qed.

(** ** Exclusion *)

(** Two goroutines never hold the permit of the same database. *)
Lemma permit_excl h sts i j st st' db ch ch' :
  heap_ok h sts -> sts !! i = Some st -> sts !! j = Some st' ->
  t_permit st = Some (db, ch) -> t_permit st' = Some (db, ch') -> i = j.
Proof.
  intros Hok Hi Hj Hp Hp'. destruct (decide (i = j)) as [|Hne]; [done|exfalso].
  pose proof (ok_local _ _ Hok) as HF. rewrite Forall_lookup in HF.
  pose proof (lo_permit _ _ (HF _ _ Hi) _ _ Hp) as E1.
  pose proof (lo_permit _ _ (HF _ _ Hj) _ _ Hp') as E2. rewrite E1 in E2. simplify_eq.
  destruct (ok_chan _ _ Hok _ _ E1) as (b & _ & Hc).
  assert (2 <= cnt (has_permit db ch') sts); [|destruct b; simpl in *; lia].
  eapply (cnt_two _ _ i j); eauto; by apply bool_decide_eq_true.
Qed.

(** [owner] gives every open pool but the default one a database of its own, whose
    permit is taken and which the pool is connected to. *)
Record pools_owned (h : heap) (owner : gmap nat string) : Prop := {
  po_all p : is_Some (owner !! p) <-> p <> default_pool /\ is_Some (h_pools h !! p);
  po_owner p db : owner !! p = Some db -> h_pools h !! p = Some (conn_str_for db) /\
    exists ch, h_sems h !! db = Some ch /\ h_chans h !! ch = Some true;
  po_inj p q db : owner !! p = Some db -> owner !! q = Some db -> p = q
}.

(** What one goroutine says of the pool it has opened. *)
Definition pool_owner (st : tst) : option (nat * string) :=
  p ← t_pool st; c ← t_permit st; Some (p, c.1).

Lemma pool_owner_Some st p db :
  pool_owner st = Some (p, db) <-> t_pool st = Some p /\ exists ch, t_permit st = Some (db, ch).
Proof.
  unfold pool_owner. rewrite bind_Some. setoid_rewrite bind_Some. split.
  - by intros (? & ? & [] & ? & [= <- <-]); eauto.
  - intros (? & ch & ?). exists p. split; [done|]. by exists (db, ch).
Qed.

Lemma pool_has_owner h sts p c :
  heap_ok h sts -> p <> default_pool -> h_pools h !! p = Some c ->
  exists st db, st ∈ sts /\ pool_owner st = Some (p, db).
Proof.
  intros Hok Hd Hp. pose proof (ok_pools _ _ Hok _ _ Hp Hd) as Hc.
  destruct (cnt_pos_inv (has_pool p) sts) as (st & Hst & Hf); [lia|]. apply bool_decide_eq_true in Hf.
  pose proof (ok_local _ _ Hok) as HF. rewrite Forall_forall in HF.
  destruct (lo_pool _ _ (HF _ Hst) _ Hf) as (_ & db & ch & Hper & _).
  exists st, db. split; [done|]. apply pool_owner_Some. eauto.
Qed.

Lemma owned_pools h sts : heap_ok h sts -> exists owner, pools_owned h owner.
Proof.
  intros Hok. pose proof (ok_local _ _ Hok) as HF. rewrite Forall_forall in HF.
  exists (list_to_map (omap pool_owner sts)).
  assert (forall p db, (list_to_map (omap pool_owner sts) : gmap nat string) !! p = Some db ->
    exists st ch, st ∈ sts /\ t_pool st = Some p /\ t_permit st = Some (db, ch)) as Hown.
  { intros p db (st & Hst & (Hp & ch & Hper)%pool_owner_Some)%elem_of_list_to_map_2%list_elem_of_omap. eauto. }
  split.
  - intros p. split.
    + intros [db (st & ch & Hst & Hp & _)%Hown].
      destruct (lo_pool _ _ (HF _ Hst) _ Hp) as (Hd & db' & ch' & _ & Hl). eauto.
    + intros (Hd & c & Hp). destruct (pool_has_owner _ _ _ _ Hok Hd Hp) as (st & db & Hst & Ho).
      apply elem_of_dom. rewrite dom_list_to_map_L, elem_of_list_to_set.
      apply list_elem_of_fmap. exists (p, db). split; [done|]. apply list_elem_of_omap. eauto.
  - intros p db (st & ch & Hst & Hp & Hper)%Hown.
    destruct (lo_pool _ _ (HF _ Hst) _ Hp) as (_ & db' & ch' & Hper' & Hl).
    assert (db' = db /\ ch' = ch) as [-> ->] by (split; congruence).
    split; [done|]. exists ch. pose proof (lo_permit _ _ (HF _ Hst) _ _ Hper) as Hs. split; [done|].
    destruct (ok_chan _ _ Hok _ _ Hs) as (b & Hb & Hn). destruct b; [done|].
    assert (has_permit db ch st = true) as Ht by by apply bool_decide_eq_true.
    pose proof (cnt_pos _ _ _ Hst Ht). simpl in Hn. lia.
  - intros p q db (st & ch & Hst & Hp & Hper)%Hown (st' & ch' & Hst' & Hp' & Hper')%Hown.
    apply list_elem_of_lookup in Hst as [i Hi], Hst' as [j Hj].
    assert (i = j) as -> by eauto using permit_excl. congruence.
Qed.
End logic.
