(* ===== verification/Coordinator.v ===== *)
(** * The connection coordinator (internal/extractor/store/coordinator.go)

    [Acquire] and [Release] on the shared map of capacity-1 channels.  The
    abstract specification is a set of held database names, [held]: whatever the
    goroutines do, the concrete heap moves as [lock_step] allows.  [Acquire] and
    [Release] are specified both alone ([runs]) and among other goroutines ([wp]). *)

From S2P Require Import Prelude Runtime Logic.

(** type ConnectionCoordinator struct *)
Record ConnectionCoordinator := MkConnectionCoordinator {
  dbSemaphores : gmap string chan;
  mu : bool
}.

Definition NewConnectionCoordinator : ConnectionCoordinator :=
  {| dbSemaphores := ∅; mu := false |}.

Section coordinator.
Context `{W : World}.

(** func (c *ConnectionCoordinator) Acquire *)
Definition Acquire (dbName : string) : io (option error) :=
  _ ← perform EMuLock;
  entry ← perform (ESemGet dbName);
  _ ← match entry with
      | None => perform (ESemMake dbName)
      | Some _ => Ret tt
      end;
  sem ← perform (ESemGet dbName);
  _ ← perform EMuUnlock;
  perform (ESelect sem).

(** func (c *ConnectionCoordinator) Release *)
Definition Release (dbName : string) : io unit :=
  _ ← perform EMuLock;
  sem ← perform (ESemGet dbName);
  _ ← perform EMuUnlock;
  match sem with
  | Some sem => perform (ERecv sem)
  | None => Ret tt
  end.

(** ** The abstract specification: a set of held names *)

Definition is_held (h : heap) (db : string) : bool :=
  match h_sems h !! db with
  | Some ch => bool_decide (h_chans h !! ch = Some true)
  | None => false
  end.

Definition held (h : heap) : gset string :=
  filter (fun db => is_held h db = true) (dom (h_sems h)).

Inductive lock_step : gset string -> gset string -> Prop :=
| ls_skip X : lock_step X X
| ls_acquire X db : db ∉ X -> lock_step X ({[db]} ∪ X)
| ls_release X db : db ∈ X -> lock_step X (X ∖ {[db]}).

Lemma elem_of_held h db :
  db ∈ held h <-> exists ch, h_sems h !! db = Some ch /\ h_chans h !! ch = Some true.
Proof.
  unfold held, is_held. rewrite elem_of_filter, elem_of_dom. split.
  - intros [Hb [ch Hs]]. rewrite Hs, bool_decide_eq_true in Hb. eauto.
  - intros (ch & Hs & Hc). rewrite Hs, bool_decide_eq_true. by eauto.
Qed.

(** What the coordinator keeps true of its map: no two names share a channel,
    and every entry is a channel of the heap. *)
Definition sems_ok (h : heap) : Prop :=
  (forall d1 d2 ch, h_sems h !! d1 = Some ch -> h_sems h !! d2 = Some ch -> d1 = d2) /\
  (forall db ch, h_sems h !! db = Some ch -> is_Some (h_chans h !! ch)).

(** ** Alone: what a call does when nothing else runs *)

(** The heap with a channel for [db]: an entry is made on the first call only. *)
Definition with_entry (h : heap) (db : string) (ch : chan) (h' : heap) : Prop :=
  (h_sems h !! db = Some ch /\ h' = h) \/
  (h_sems h !! db = None /\ h_chans h !! ch = None /\
   h' = Heap (h_mu h) (<[db := ch]> (h_sems h)) (<[ch := false]> (h_chans h)) (h_pools h) (h_rows h)).

Definition put_chan (ch : chan) (b : bool) (h : heap) : heap :=
  Heap (h_mu h) (h_sems h) (<[ch := b]> (h_chans h)) (h_pools h) (h_rows h).

Lemma Acquire_runs ctx h dbName h' r :
  h_mu h = false ->
  runs ctx h (Acquire dbName) h' r <->
  exists ch h1, with_entry h dbName ch h1 /\
    ((h_chans h1 !! ch = Some false /\ r = None /\ h' = put_chan ch true h1) \/
     (ctx <> None /\ r = ctx /\ h' = h1)).
Proof.
  destruct h as [m sems chans pools rws]. simpl. intros ->.
  unfold Acquire, with_entry, put_chan. simpl. split.
  - intros ([] & h1 & [_ ->] & o & h2 & [-> ->] & Hr). simpl in Hr.
    destruct (sems !! dbName) as [ch|] eqn:E; simpl in Hr.
    + destruct Hr as (o & h3 & [-> ->] & [] & h4 & [_ ->] & r' & h5 & Hsel & -> & ->). simpl in *.
      rewrite E in Hsel. exists ch, (Heap false sems chans pools rws). split; [by left|].
      destruct Hsel as [(? & [= <-] & -> & ? & ->)|(-> & ? & ->)]; auto.
    + destruct Hr as ([] & h3 & (ch & Hf & ->) & o & h4 & [-> ->] & [] & h5 & [_ ->] & r' & h6 & Hsel & -> & ->).
      simpl in *. rewrite lookup_insert_eq in Hsel.
      eexists ch, _. split; [by right|]. simpl.
      destruct Hsel as [(? & [= <-] & -> & ? & ->)|(-> & ? & ->)]; auto.
  - intros (ch & h1 & [[E ->]|(E & Hf & ->)] & Hout); simpl in *.
    + exists tt. eexists. split; [done|]. exists (Some ch). eexists. split; [done|]. simpl.
      exists (Some ch). eexists. split; [done|]. exists tt. eexists. split; [done|].
      exists r, h'. split; [|done]. simpl. destruct Hout as [(? & -> & ->)|(? & -> & ->)]; [left; eauto|auto].
    + exists tt. eexists. split; [done|]. exists None. eexists. split; [done|]. simpl.
      exists tt. eexists. split; [exists ch; split; [done|reflexivity]|].
      exists (Some ch). eexists. split; [simpl; by rewrite lookup_insert_eq|].
      exists tt. eexists. split; [done|].
      exists r, h'. split; [|done]. simpl. destruct Hout as [(? & -> & ->)|(? & -> & ->)]; [left; eauto|auto].
Qed.

Lemma with_entry_ok h db ch h' :
  sems_ok h -> with_entry h db ch h' ->
  sems_ok h' /\ h_mu h' = h_mu h /\ h_sems h' !! db = Some ch /\ held h' = held h /\
  (h_chans h' !! ch = Some true <-> db ∈ held h).
Proof.
  intros [Hinj Hch] [[E ->]|(E & Hf & ->)].
  - split; [done|]. split; [done|]. split; [done|]. split; [done|]. rewrite elem_of_held.
    split; [eauto|]. intros (ch' & ? & ?). congruence.
  - simpl. split; [split; simpl|].
    + intros d1 d2 c H1 H2. apply lookup_insert_Some in H1 as [[<- <-]|[? H1]],
        H2 as [[<- ?]|[? H2]]; subst; try done; [| |by eapply Hinj].
      * by apply Hch in H2 as [? ?]; simplify_eq.
      * by apply Hch in H1 as [? ?]; simplify_eq.
    + intros d c Hd. apply lookup_insert_is_Some'. apply lookup_insert_Some in Hd as [[_ <-]|[_ Hd]]; eauto.
    + split; [done|]. split; [by rewrite lookup_insert_eq|]. split.
      * apply set_eq. intros d. rewrite !elem_of_held. simpl. split.
        -- intros (c & Hd & Hc). apply lookup_insert_Some in Hd as [[<- <-]|[_ Hd]].
           { by rewrite lookup_insert_eq in Hc. }
           rewrite lookup_insert_ne in Hc; [eauto|]. intros <-. by apply Hch in Hd as [? ?]; simplify_eq.
        -- intros (c & Hd & Hc). exists c. rewrite !lookup_insert_ne; [done| |]; congruence.
      * rewrite lookup_insert_eq, elem_of_held. split; [done|]. intros (? & ? & _). congruence.
Qed.

Lemma put_chan_ok h db ch b :
  sems_ok h -> h_sems h !! db = Some ch ->
  sems_ok (put_chan ch b h) /\
  held (put_chan ch b h) = if b then {[db]} ∪ held h else held h ∖ {[db]}.
Proof.
  intros [Hinj Hch] Hdb. split; [split|].
  - exact Hinj.
  - intros d c Hd. simpl. apply lookup_insert_is_Some'. right. by eapply Hch.
  - apply set_eq. intros d. assert (d ∈ held (put_chan ch b h) <->
      (d = db /\ b = true) \/ (d <> db /\ d ∈ held h)) as ->.
    { rewrite !elem_of_held. simpl. split.
      - intros (c & Hd & Hc). apply lookup_insert_Some in Hc as [[<- ->]|[Hne Hc]].
        + left. eauto.
        + right. split; [congruence|]. eauto.
      - intros [[-> ->]|[Hne (c & Hd & Hc)]].
        + exists ch. by rewrite lookup_insert_eq.
        + exists c. split; [done|]. rewrite lookup_insert_ne; [done|]. intros <-.
          apply Hne. by eapply Hinj. }
    destruct b; [destruct (decide (d = db))|];
      rewrite ?elem_of_union, ?elem_of_difference, ?elem_of_singleton; intuition congruence.
Qed.

(** C13: Acquire alone, with the mutex free: it takes the permit of a database that
    is not held and nothing else changes in the set of held databases; for a held
    database it blocks while the context is live; and the context's error is the
    only error it returns, with no permit taken. *)
Theorem Acquire_spec ctx h dbName :
  h_mu h = false -> sems_ok h ->
  (forall h' r, runs ctx h (Acquire dbName) h' r ->
     sems_ok h' /\ h_mu h' = false /\
     ((r = None /\ (dbName ∉ held h) /\ held h' = {[dbName]} ∪ held h) \/
      (r = ctx /\ ctx <> None /\ held h' = held h))) /\
  (dbName ∉ held h -> exists h', runs ctx h (Acquire dbName) h' None) /\
  (ctx <> None -> exists h', runs ctx h (Acquire dbName) h' ctx) /\
  (ctx = None -> dbName ∈ held h -> forall h' r, ~ runs ctx h (Acquire dbName) h' r).
Proof.
  intros Hmu Hok.
  assert (exists ch h1, with_entry h dbName ch h1) as (ch & h1 & Hw).
  { unfold with_entry. destruct (h_sems h !! dbName) as [ch|] eqn:E; [exists ch, h; left; auto|].
    exists (fresh (dom (h_chans h))). eexists. right. split; [done|]. split; [|done].
    apply not_elem_of_dom, is_fresh. }
  split; [|split; [|split]].
  - intros h' r Hr. apply Acquire_runs in Hr as (c & h2 & Hw2 & Hout); [|done].
    apply with_entry_ok in Hw2 as (Hok2 & Hm & Hs & Hh & Hc); [|done]. rewrite Hmu in Hm.
    destruct Hout as [(Hfree & -> & ->)|(Hctx & -> & ->)]; [|by auto 7].
    destruct (put_chan_ok _ _ _ true Hok2 Hs) as [? Hheld].
    split; [done|]. split; [done|]. left. split; [done|]. split; [|by rewrite Hheld, Hh].
    rewrite <- Hc, Hfree. congruence.
  - intros Hfree. eexists. apply Acquire_runs; [done|]. exists ch, h1. split; [done|]. left.
    split; [|done]. apply with_entry_ok in Hw as ([_ Hch] & _ & Hs & _ & Hc); [|done].
    rewrite <- Hc in Hfree. destruct (Hch _ _ Hs) as [[] Hb]; [done|]. by rewrite Hb.
  - intros Hctx. exists h1. apply Acquire_runs; [done|]. exists ch, h1. auto.
  - intros -> Hheld h' r Hr. apply Acquire_runs in Hr as (c & h2 & Hw2 & Hout); [|done].
    apply with_entry_ok in Hw2 as (_ & _ & _ & _ & Hc); [|done]. apply Hc in Hheld.
    destruct Hout as [(? & _)|(? & _)]; congruence.
Qed.

(** C14: Release alone, with the mutex free: it gives back the permit of a held
    database; on a name that was never acquired it returns without a change; and on
    a known name whose permit is free it blocks. *)
Theorem Release_spec ctx h dbName h' u :
  h_mu h = false -> sems_ok h ->
  runs ctx h (Release dbName) h' u <->
  (h_sems h !! dbName = None /\ h' = h) \/
  (exists ch, h_sems h !! dbName = Some ch /\ dbName ∈ held h /\
     held h' = held h ∖ {[dbName]} /\ h' = put_chan ch false h).
Proof.
  intros Hmu Hok. assert (Heap false (h_sems h) (h_chans h) (h_pools h) (h_rows h) = h) as Eh.
  { destruct h. simpl in *. by subst. }
  unfold Release. simpl. destruct u. split.
  - intros ([] & h1 & [_ ->] & o & h2 & [-> ->] & [] & h3 & [_ ->] & Hr). simpl in *. rewrite Eh in Hr.
    destruct (h_sems h !! dbName) as [ch|] eqn:E; simpl in Hr; [right|left; by destruct Hr].
    destruct Hr as ([] & h4 & [Hc ->] & _ & ->). exists ch. split; [done|].
    split; [rewrite elem_of_held; eauto|]. split; [|done]. by destruct (put_chan_ok h dbName ch false).
  - intros Hc. exists tt. eexists. split; [done|]. exists (h_sems h !! dbName). eexists. split; [done|].
    exists tt, h. split; [by simpl; rewrite Eh|].
    destruct Hc as [[-> ->]|(ch & Hs & Hheld & _ & ->)]; [done|]. rewrite Hs. simpl.
    exists tt. eexists. split; [|done]. split; [|done].
    apply elem_of_held in Hheld as (c & ? & ?). congruence.
Qed.
End coordinator.

(** ** Among other goroutines *)

Section shared.
Context `{W : World} `{G : ConnCfg}.

(** Acquire takes the permit or reports the context's error; it gives up the
    mutex on both paths. *)
Lemma wp_Acquire dbName Φ st :
  t_mu st = false -> t_permit st = None ->
  (forall kn err, Φ (Some err) (Tst false None kn None (t_pool st) (t_rows st))) ->
  (forall kn ch, Φ None (Tst false None kn (Some (dbName, ch)) (t_pool st) (t_rows st))) ->
  wp (Acquire dbName) Φ st.
Proof.
  destruct st as [m ab kn pe po ro]. simpl. intros -> -> HE HS. split; [done|].
  assert (forall kn ch, kn !! dbName = Some ch ->
    wp (sem ← perform (ESemGet dbName); _ ← perform EMuUnlock; perform (ESelect sem)) Φ
      (Tst true None kn None po ro)) as Hrest.
  { intros kn' ch Hkn. simpl. split; [done|]. split; [|congruence]. intros ch' _. split; [done|].
    split; [done|]. split; [done|]. exists dbName, ch'. simpl. rewrite lookup_insert_eq.
    split; [done|]. split; [done|]. split; [apply HS|intros; apply HE]. }
  split; [done|]. split.
  - intros ch _. exact (Hrest _ ch (lookup_insert_eq kn dbName ch)).
  - intros _ _. split; [done|]. split; [done|]. intros ch. exact (Hrest _ ch (lookup_insert_eq kn dbName ch)).
Qed.

(** Release needs the permit and gives it back. *)
Lemma wp_Release dbName ch Φ st :
  t_mu st = false -> t_permit st = Some (dbName, ch) -> t_pool st = None ->
  (forall kn, Φ tt (Tst false None kn None None (t_rows st))) ->
  wp (Release dbName) Φ st.
Proof.
  destruct st as [m ab kn pe po ro]. simpl. intros -> -> -> HΦ. split; [done|].
  split; [done|]. split; [|intros _ Hno; by destruct (Hno ch)].
  intros ch' Hch. rewrite <- (Hch ch eq_refl). split; [done|]. split; [done|]. split; [done|].
  exists dbName. split; [done|]. exact (HΦ _).
Qed.

(** ** Refinement: every effect is a step of the abstract lock *)

Lemma heap_ok_sems h sts : heap_ok h sts -> sems_ok h.
Proof.
  intros Hok. split; [apply (ok_inj _ _ Hok)|].
  intros db ch Hs. destruct (ok_chan _ _ Hok _ _ Hs) as (b & Hb & _). by exists b.
Qed.

(** What one effect of a goroutine does to the coordinator: at most one permit is
    taken or given back, and no entry of the map is ever replaced or removed. *)
Definition coord_step (h h' : heap) : Prop :=
  lock_step (held h) (held h') /\ h_sems h ⊆ h_sems h'.

Lemma coord_step_same h h' :
  h_sems h' = h_sems h -> h_chans h' = h_chans h -> coord_step h h'.
Proof.
  intros Es Ec. assert (held h' = held h) as E by (unfold held, is_held; by rewrite Es, Ec).
  unfold coord_step. rewrite E, Es. split; [apply ls_skip|done].
Qed.

Lemma estep_coord ctx h st rest e Φ r h' :
  heap_ok h (st :: rest) -> eff_spec st e Φ -> estep ctx h e r h' -> coord_step h h'.
Proof.
  intros Hok Hsp Hs. pose proof (heap_ok_sems _ _ Hok) as Hsems.
  pose proof (heap_ok_head _ _ _ Hok) as Hhd.
  destruct e; simpl in Hsp, Hs; split_hyps; subst;
    try (by apply coord_step_same); try (destruct r; split_hyps; subst; by apply coord_step_same).
  - destruct (lo_absent _ _ Hhd db) as [_ Hno]; [done|].
    match goal with H : h_chans h !! ?c = None |- _ =>
      destruct (with_entry_ok h db c _ Hsems (or_intror (conj Hno (conj H eq_refl)))) as (_ & _ & _ & Hh & _) end.
    split; [rewrite Hh; apply ls_skip|]. by apply insert_subseteq.
  - destruct Hs as [(c & [= <-] & -> & Hfree & ->)|(_ & _ & ->)]; [|by apply coord_step_same].
    match goal with H : t_known st !! ?d = Some ?c |- _ =>
      pose proof (lookup_weaken _ _ _ _ H (lo_known _ _ Hhd)) as Hd;
      destruct (put_chan_ok h d c true Hsems Hd) as [_ Hh]; unfold put_chan in Hh end.
    split; [|done]. rewrite Hh. apply ls_acquire. rewrite elem_of_held. intros (? & ? & ?). congruence.
  - match goal with H : t_permit st = Some (?d, ?c) |- _ =>
      pose proof (lo_permit _ _ Hhd _ _ H) as Hd;
      destruct (put_chan_ok h d c false Hsems Hd) as [_ Hh]; unfold put_chan in Hh end.
    split; [|done]. rewrite Hh. apply ls_release. rewrite elem_of_held. eauto.
Qed.
End shared.

#[global] Arguments Acquire : simpl never.
#[global] Arguments Release : simpl never.
