(* ===== verification/FanOut.v ===== *)
(** * forEachDatabase: fan-out and fan-in over the databases

    The state machine of [forEachDatabase] (internal/extractor/store/store.go):
    the spawn loop, one goroutine per database that runs [fn] and sends its
    result on [resultsCh], and the receive loop that splits results from
    errors.  [collect] is the sequential reading of the receive loop, and
    [fan_result] says that the machine computes it on some arrival order. *)

From S2P Require Import Prelude Types Runtime Logic.

(** type result[T any] struct *)
Record result (T : Type) := MkResult { r_err : option error; r_results : list T }.
Arguments MkResult {T} _ _.
Arguments r_err {T} _.
Arguments r_results {T} _.

(** results, err := fn(ctx, dbName); result[T] with both *)
Definition to_result {T} (r : res (list T)) : result T :=
  match r with inl e => MkResult (Some e) [] | inr l => MkResult None l end.

(** The error of forEachDatabase. *)
Definition fan_error (errs : list error) (n : nat) : error :=
  Errorf "failed to query %d/%d databases: %v" [AInt (length errs); AInt n; AErrs errs].

(** The value returned after the receive loop. *)
Definition fan_return {T} (databases : list Database) (results : list T) (errs : list error)
    : res (list T) :=
  if decide (0 < length errs) then inl (fan_error errs (length databases)) else inr results.

Section fan.
Context `{W : World} `{G : ConnCfg} {T : Type}.

(** Where the calling goroutine is. *)
Inductive phase : Type :=
| Spawning (todo : list Database)                   (** in the first loop *)
| Receiving (n : nat) (results : list T) (errs : list error) (** [n] receives left *)
| Returned (r : res (list T)).

Record fan := MkFan {
  f_phase : phase;
  f_workers : list (io (res (list T)));   (** running goroutines *)
  f_ch : list (result T)                  (** the buffer of resultsCh *)
}.

Section machine.
Variable databases : list Database.
Variable fn : string -> io (res (list T)).

Definition fan_init : fan := MkFan (Spawning databases) [] [].

(** A step of the machine.  The channel has capacity [len(databases)]: a send on a
    full buffer and a receive on an empty one have no step. *)
Inductive fan_step (ctx : option error) : heap -> fan -> heap -> fan -> Prop :=
| fs_spawn h db todo ws ch :
    fan_step ctx h (MkFan (Spawning (db :: todo)) ws ch)
             h (MkFan (Spawning todo) (fn (Database_Name db) :: ws) ch)
| fs_spawned h ws ch :
    fan_step ctx h (MkFan (Spawning []) ws ch)
             h (MkFan (Receiving (length databases) [] []) ws ch)
| fs_worker h ph ws1 p ws2 ch h' p' :
    tstep ctx h p h' p' ->
    fan_step ctx h (MkFan ph (ws1 ++ p :: ws2) ch) h' (MkFan ph (ws1 ++ p' :: ws2) ch)
| fs_send h ph ws1 r ws2 ch :
    length ch < length databases ->
    fan_step ctx h (MkFan ph (ws1 ++ Ret r :: ws2) ch) h (MkFan ph (ws1 ++ ws2) (ch ++ [to_result r]))
| fs_recv_err h n results errs ws r ch e :
    r_err r = Some e ->
    fan_step ctx h (MkFan (Receiving (S n) results errs) ws (r :: ch))
             h (MkFan (Receiving n results (errs ++ [e])) ws ch)
| fs_recv_ok h n results errs ws r ch :
    r_err r = None ->
    fan_step ctx h (MkFan (Receiving (S n) results errs) ws (r :: ch))
             h (MkFan (Receiving n (results ++ r_results r) errs) ws ch)
| fs_return h results errs ws ch :
    fan_step ctx h (MkFan (Receiving 0 results errs) ws ch)
             h (MkFan (Returned (fan_return databases results errs)) ws ch).

(** ** The value computed *)

(** What the receive loop returns for the results in order of arrival. *)
Definition collect (rs : list (res (list T))) : res (list T) :=
  fan_return databases (concat (rights rs)) (lefts rs).

Variable post : string -> res (list T) -> Prop.

(** [fan_result r]: [r] is what the receive loop gives on the results of all
    databases, each with a result of its own goroutine, in some order. *)
Definition fan_result (r : res (list T)) : Prop :=
  exists order rs, databases ≡ₚ order /\
    Forall2 (fun db r => post (Database_Name db) r) order rs /\ r = collect rs.

(** ** The invariant *)

Definition worker_ok (dbst : Database * tst) (p : io (res (list T))) : Prop :=
  wp p (fun r st' => clean st' /\ post (Database_Name dbst.1) r) dbst.2.

(** The spawn loop, the running goroutines, the buffer and the received results
    account for every database exactly once.  [running] pairs each running
    goroutine with its database and its ghost state. *)
Record fan_ok (f : fan) (running : list (Database * tst)) (arrived : list Database)
    (buffered received : list (res (list T))) : Prop := {
  fo_perm : databases ≡ₚ (match f_phase f with Spawning todo => todo | _ => [] end)
                          ++ running.*1 ++ arrived;
  fo_running : Forall2 worker_ok running (f_workers f);
  fo_ch : f_ch f = to_result <$> buffered;
  fo_arrived : Forall2 (fun db r => post (Database_Name db) r) arrived (received ++ buffered);
  fo_phase : match f_phase f with
             | Spawning todo => received = []
             | Receiving n results errs => n + length received = length databases /\
                 results = concat (rights received) /\ errs = lefts received
             | Returned r => running = [] /\ r = collect received /\ buffered = []
             end
}.

Hypothesis fn_ok : forall db, db ∈ databases ->
  wp (fn (Database_Name db)) (fun r st' => clean st' /\ post (Database_Name db) r) idle.

Lemma fan_init_ok : fan_ok fan_init [] [] [] [].
Proof. split; simpl; rewrite ?app_nil_r; try done; constructor. Qed.

Definition fan_inv (h : heap) (others : list tst) (f : fan) : Prop :=
  exists running arrived buffered received,
    fan_ok f running arrived buffered received /\ heap_ok h (running.*2 ++ others).

Lemma fan_counts f running arrived buffered received :
  fan_ok f running arrived buffered received ->
  length databases = length (match f_phase f with Spawning todo => todo | _ => [] end)
    + length running + length received + length buffered.
Proof.
  intros [Hp _ _ Ha _]. apply Permutation_length in Hp. apply Forall2_length in Ha.
  rewrite !length_app, length_fmap in *. lia.
Qed.

Lemma fan_inv_worker ctx h others ph ws1 p ws2 ch h' p' :
  fan_inv h others (MkFan ph (ws1 ++ p :: ws2) ch) -> tstep ctx h p h' p' ->
  fan_inv h' others (MkFan ph (ws1 ++ p' :: ws2) ch).
Proof.
  intros (running & arrived & buffered & received & [Hp Hr Hc Ha Hph] & Hok) Hstep. simpl in *.
  apply Forall2_app_inv_r in Hr as (r1 & r2' & H1 & H2 & ->).
  apply Forall2_cons_inv_r in H2 as ([db st] & r2 & Hw & H2 & ->).
  assert (heap_ok h (st :: (r1.*2 ++ r2.*2 ++ others))) as Hok1.
  { eapply heap_ok_Permutation; [|exact Hok]. rewrite fmap_app, fmap_cons. simpl. solve_Permutation. }
  destruct (wp_step _ _ _ _ _ _ _ _ Hok1 Hw Hstep) as (st' & Hw' & Hok').
  exists (r1 ++ (db, st') :: r2), arrived, buffered, received. split; [split; simpl; try done|].
  - rewrite fmap_app, fmap_cons in *. exact Hp.
  - apply Forall2_app; [done|]. constructor; done.
  - destruct ph; try done. destruct Hph as [? _]. by destruct r1.
  - eapply heap_ok_Permutation; [|exact Hok']. rewrite fmap_app, fmap_cons. simpl. solve_Permutation.
Qed.

Lemma fan_inv_send h others ph ws1 r ws2 ch :
  fan_inv h others (MkFan ph (ws1 ++ Ret r :: ws2) ch) ->
  fan_inv h others (MkFan ph (ws1 ++ ws2) (ch ++ [to_result r])).
Proof.
  intros (running & arrived & buffered & received & [Hp Hr Hc Ha Hph] & Hok). simpl in *.
  apply Forall2_app_inv_r in Hr as (r1 & r2' & H1 & H2 & ->).
  apply Forall2_cons_inv_r in H2 as ([db st] & r2 & [Hcl Hpost] & H2 & ->).
  exists (r1 ++ r2), (arrived ++ [db]), (buffered ++ [r]), received. split; [split; simpl; try done|].
  - rewrite Hp, !fmap_app, fmap_cons. simpl. solve_Permutation.
  - by apply Forall2_app.
  - by rewrite fmap_app, Hc.
  - rewrite (assoc_L (++)). apply Forall2_app; [done|]. by repeat constructor.
  - destruct ph; try done. destruct Hph as [? _]. by destruct r1.
  - eapply (heap_ok_drop h st); [done|]. eapply heap_ok_Permutation; [|exact Hok].
    rewrite !fmap_app, fmap_cons. simpl. solve_Permutation.
Qed.

Lemma fan_inv_step ctx h others f h' f' :
  fan_inv h others f -> fan_step ctx h f h' f' -> fan_inv h' others f'.
Proof.
  intros Hinv Hstep. destruct Hstep.
  - destruct Hinv as (running & arrived & buffered & received & [Hp Hr Hc Ha Hph] & Hok). simpl in *.
    exists ((db, idle) :: running), arrived, buffered, received. split; [split; simpl; try done|].
    + rewrite Hp. simpl. solve_Permutation.
    + constructor; [|done]. apply fn_ok. rewrite Hp. apply elem_of_cons. by left.
    + simpl. by apply heap_ok_idle.
  - destruct Hinv as (running & arrived & buffered & received & Hf & Hok).
    destruct Hf as [Hp Hr Hc Ha Hph]. simpl in *. subst received.
    exists running, arrived, buffered, []. split; [|done].
    split; simpl; rewrite ?Nat.add_0_r; done.
  - by eapply fan_inv_worker.
  - by apply fan_inv_send.
  - destruct Hinv as (running & arrived & buffered & received & [Hp Hr Hc Ha (Hn & -> & ->)] & Hok).
    simpl in *. destruct buffered as [|[e'|l] buffered]; simplify_eq/=.
    exists running, arrived, buffered, (received ++ [inl e]).
    split; [split; simpl; try done|done].
    + by rewrite <- (assoc_L (++)).
    + rewrite length_app, rights_app, lefts_app. simpl. rewrite app_nil_r. split; [lia|done].
  - destruct Hinv as (running & arrived & buffered & received & [Hp Hr Hc Ha (Hn & -> & ->)] & Hok).
    simpl in *. destruct buffered as [|[e'|l] buffered]; simplify_eq/=.
    exists running, arrived, buffered, (received ++ [inr l]).
    split; [split; simpl; try done|done].
    + by rewrite <- (assoc_L (++)).
    + rewrite length_app, rights_app, lefts_app, concat_app. simpl. rewrite !app_nil_r. split; [lia|done].
  - destruct Hinv as (running & arrived & buffered & received & Hf & Hok).
    pose proof (fan_counts _ _ _ _ _ Hf) as Hlen. destruct Hf as [Hp Hr Hc Ha (Hn & -> & ->)].
    simpl in *. assert (running = [] /\ buffered = []) as [-> ->].
    { split; apply length_zero_iff_nil; lia. }
    exists [], arrived, [], received. split; [split; simpl; try done|done].
Qed.

Lemma fan_step_move ctx h others f h' f' :
  fan_inv h others f -> fan_step ctx h f h' f' -> eff_move h h'.
Proof.
  intros (running & arrived & buffered & received & [_ Hr _ _ _] & Hok) Hstep.
  destruct Hstep; try by left. simpl in *.
  apply Forall2_app_inv_r in Hr as (r1 & r2' & H1 & H2 & ->).
  apply Forall2_cons_inv_r in H2 as ([db st] & r2 & Hw & H2 & ->).
  eapply (wp_step_move ctx h st (r1.*2 ++ r2.*2 ++ others)); [|exact Hw|done].
  eapply heap_ok_Permutation; [|exact Hok]. rewrite fmap_app, fmap_cons. simpl. solve_Permutation.
Qed.

(** When forEachDatabase returns, no goroutine is left and the value is the
    receive loop's on a complete set of results. *)
Lemma fan_inv_result h others f r :
  fan_inv h others f -> f_phase f = Returned r ->
  fan_result r /\ f_workers f = [] /\ heap_ok h others.
Proof.
  intros (running & arrived & buffered & received & [Hp Hr Hc Ha Hph] & Hok) Ef.
  rewrite Ef in *. destruct Hph as (-> & -> & ->). simpl in *.
  apply Forall2_nil_inv_l in Hr. split; [|done].
  exists arrived, received. rewrite app_nil_r in Ha. done.
Qed.

Lemma ret_or_vis (ws : list (io (res (list T)))) :
  (exists ws1 r ws2, ws = ws1 ++ Ret r :: ws2) \/
  (forall p, p ∈ ws -> exists e k, p = Vis e k).
Proof.
  induction ws as [|[r|e k] ws IH].
  - right. intros p Hp. by apply not_elem_of_nil in Hp.
  - left. by exists [], r, ws.
  - destruct IH as [(ws1 & r & ws2 & ->)|Hv]; [left; by exists (Vis e k :: ws1), r, ws2|].
    right. intros p Hp. apply elem_of_cons in Hp as [->|Hp]; eauto.
Qed.

(** Unless it has returned, forEachDatabase can run, or its goroutines are all in
    the middle of [fn]. *)
Lemma fan_progress h others f :
  fan_inv h others f ->
  (exists r, f_phase f = Returned r) \/
  (forall ctx, exists f', fan_step ctx h f h f') \/
  (f_workers f <> [] /\ forall p, p ∈ f_workers f -> exists e k, p = Vis e k).
Proof.
  intros (running & arrived & buffered & received & Hf & _).
  pose proof (fan_counts _ _ _ _ _ Hf) as Hlen. destruct Hf as [_ Hr Hc _ Hph].
  destruct f as [ph ws ch]. simpl in *. apply Forall2_length in Hr.
  destruct ph as [[|db todo]|n results errs|r].
  - right. left. intros. eexists. constructor.
  - right. left. intros. eexists. constructor.
  - destruct Hph as (Hn & -> & ->). destruct n as [|n].
    { right. left. intros. eexists. constructor. }
    destruct ch as [|r ch].
    + destruct buffered; [|done]. simpl in *.
      right. destruct (ret_or_vis ws) as [(ws1 & r & ws2 & ->)|Hv].
      * left. intros ctx. eexists. apply fs_send. simpl. lia.
      * right. split; [intros ->; simpl in *; lia|done].
    + right. left. intros. destruct (r_err r) eqn:Er; eexists; [by eapply fs_recv_err|by eapply fs_recv_ok].
  - left. eauto.
Qed.
End machine.
End fan.
Arguments phase : clear implicits.
Arguments fan {_} T.

(** ** What the collected value says about the databases *)
Section collected.
Context {T : Type}.
Variable databases : list Database.
Variable post : string -> res (list T) -> Prop.

Lemma fan_return_inr (results l : list T) errs :
  fan_return databases results errs = inr l <-> errs = [] /\ l = results.
Proof.
  unfold fan_return. destruct errs; case_decide as Hd; simpl in Hd; try lia.
  - split; [by intros [= ->]|by intros [_ ->]].
  - split; [done|by intros [? _]].
Qed.

Lemma fan_return_inl (results : list T) errs e :
  fan_return databases results errs = inl e <->
  errs <> [] /\ e = fan_error errs (length databases).
Proof.
  unfold fan_return. destruct errs; case_decide as Hd; simpl in Hd; try lia.
  - split; [done|by intros [? _]].
  - split; [by intros [= <-]|by intros [_ ->]].
Qed.

(** It succeeds only if every database did, with all their items and nothing else. *)
Lemma fan_result_inr (l : list T) :
  fan_result databases post (inr l) <->
  exists order per, databases ≡ₚ order /\
    Forall2 (fun db items => post (Database_Name db) (inr items)) order per /\ l = concat per.
Proof.
  split.
  - intros (order & rs & Hp & HF & Hc). symmetry in Hc. apply fan_return_inr in Hc as [He ->].
    apply lefts_nil_inv in He. exists order, (rights rs). split; [done|]. split; [|done].
    rewrite He, Forall2_fmap_r in HF. exact HF.
  - intros (order & per & Hp & HF & ->). exists order, (inr <$> per). split; [done|].
    split; [by apply Forall2_fmap_r|]. symmetry. apply fan_return_inr.
    clear. induction per as [|x per [IH1 IH2]]; [done|]. csimpl. by rewrite <- IH2.
Qed.

(** It fails only if some database did; the error counts and quotes all of them. *)
Lemma fan_result_inl (e : error) :
  fan_result databases post (inl e) ->
  exists failed errs, failed ⊆+ databases /\ errs <> [] /\
    Forall2 (fun db err => post (Database_Name db) (inl err)) failed errs /\
    e = fan_error errs (length databases).
Proof.
  intros (order & rs & Hp & HF & Hc). symmetry in Hc. apply fan_return_inl in Hc as [Hne ->].
  setoid_rewrite Hp. clear Hp.
  assert (exists failed, failed ⊆+ order /\
    Forall2 (fun db err => post (Database_Name db) (inl err)) failed (lefts rs)) as (failed & Hs & Hf).
  { clear Hne. induction HF as [|db r order rs Hr _ (failed & Hs & Hf)]; [by exists []|].
    destruct r as [err|items]; simpl.
    - exists (db :: failed). split; [by apply submseteq_skip|by constructor].
    - exists failed. split; [by apply submseteq_cons|done]. }
  by exists failed, (lefts rs).
Qed.
End collected.

(** ** Termination

    Every step of the machine either makes the calling goroutine advance or one
    of its workers advance or exit. *)
Section termination.
Context `{W : World} {T : Type}.
Variable databases : list Database.

Definition phase_measure (ph : phase T) : nat :=
  match ph with
  | Spawning todo => length todo + length databases + 2
  | Receiving n _ _ => n + 1
  | Returned _ => 0
  end.

Definition fan_dec (f f' : fan T) : Prop :=
  phase_measure (f_phase f') < phase_measure (f_phase f) \/
  (f_phase f' = f_phase f /\ one_step io_sub (f_workers f) (f_workers f')).

Lemma fan_step_dec fn ctx h f h' f' : fan_step databases fn ctx h f h' f' -> fan_dec f f'.
Proof.
  destruct 1; unfold fan_dec; simpl; try (left; lia).
  - right. split; [done|]. by eapply one_step_mid, tstep_sub.
  - right. split; [done|]. apply one_step_drop.
Qed.

Lemma fan_dec_wf f : Acc (flip fan_dec) f.
Proof.
  remember (phase_measure (f_phase f)) as n eqn:En. revert f En.
  induction (lt_wf n) as [n _ IHn]. intros [ph ws ch] En. simpl in En.
  assert (Acc (flip (one_step io_sub)) ws) as Hws.
  { apply one_step_wf, Forall_forall. intros p _. apply io_sub_wf. }
  revert ch. induction Hws as [ws _ IHws]. intros ch.
  constructor. intros [ph' ws' ch'] [Hlt|[Heq Hs]]; simpl in *.
  - by eapply IHn; [|done]; subst.
  - subst ph'. by apply IHws.
Qed.
End termination.
