(* ===== verification/System.v ===== *)
(** * Requests in flight: handlers, cancellation and the whole process

    A handler is a [task]: sequential code, calls of forEachDatabase, and an
    answer.  [sys] is the heap together with every request the process has
    accepted; requests arrive, get cancelled, and advance one step at a time in
    any order.  The theorems of this file hold for every handler set that
    satisfies [handler_ok]; [Server.v] instantiates them with the service. *)

From S2P Require Import Prelude Types Runtime Logic Coordinator FanOut.

Section task.
Context `{W : World} `{G : ConnCfg}.

Inductive task (B : Type) : Type :=
| TRet (b : B)
| TIo {A : Type} (p : io A) (k : A -> task B)
| TForEach {T : Type} (databases : list Database) (fn : string -> io (res (list T)))
    (k : res (list T) -> task B).
Arguments TRet {B} b.
Arguments TIo {B A} p k.
Arguments TForEach {B T} databases fn k.

(** Sequencing, as the statements of a handler follow each other. *)
Fixpoint tbind {B C} (t : task B) (f : B -> task C) : task C :=
  match t with
  | TRet b => f b
  | TIo p k => TIo p (fun a => tbind (k a) f)
  | TForEach databases fn k => TForEach databases fn (fun r => tbind (k r) f)
  end.
#[export] Instance task_mret : MRet task := fun B => TRet.
#[export] Instance task_mbind : MBind task := fun B C f t => tbind t f.

Definition call {A} (p : io A) : task A := TIo p TRet.

(** forEachDatabase(ctx, databases, fn) *)
Definition forEachDatabase {T} (databases : list Database) (fn : string -> io (res (list T)))
    : task (res (list T)) := TForEach databases fn TRet.

(** The run-time state of a handler. *)
Inductive rt (B : Type) : Type :=
| RRet (b : B)
| RIo {A : Type} (p : io A) (k : A -> task B)
| RFan {T : Type} (databases : list Database) (fn : string -> io (res (list T)))
    (f : fan T) (k : res (list T) -> task B).
Arguments RRet {B} b.
Arguments RIo {B A} p k.
Arguments RFan {B T} databases fn f k.

Definition start {B} (t : task B) : rt B :=
  match t with
  | TRet b => RRet b
  | TIo p k => RIo p k
  | TForEach databases fn k => RFan databases fn (fan_init databases) k
  end.

Definition rt_step {B} (ctx : option error) (h : heap) (r : rt B) (h' : heap) (r' : rt B) : Prop :=
  match r with
  | RRet _ => False
  | RIo p k =>
      (exists p', tstep ctx h p h' p' /\ r' = RIo p' k) \/
      (exists a, p = Ret a /\ h' = h /\ r' = start (k a))
  | RFan databases fn f k =>
      (exists f', fan_step databases fn ctx h f h' f' /\ r' = RFan databases fn f' k) \/
      (exists v, f_phase f = Returned v /\ h' = h /\ r' = start (k v))
  end.

(** What a task answers, whatever the other requests and the outside world do. *)
Fixpoint twp {B} (t : task B) (Φ : B -> Prop) : Prop :=
  match t with
  | TRet b => Φ b
  | TIo p k => wp p (fun a st => clean st /\ twp (k a) Φ) idle
  | TForEach databases fn k => exists post,
      (forall db, db ∈ databases ->
         wp (fn (Database_Name db)) (fun r st => clean st /\ post (Database_Name db) r) idle) /\
      (forall r, fan_result databases post r -> twp (k r) Φ)
  end.

Lemma twp_mono {B} (t : task B) (Φ Ψ : B -> Prop) :
  (forall b, Φ b -> Ψ b) -> twp t Φ -> twp t Ψ.
Proof.
  intros H. induction t as [b|A p k IH|T dbs fn k IH]; simpl; [by apply H| |].
  - apply wp_mono. intros a st [? ?]. auto.
  - intros (post & Hfn & Hk). exists post. auto.
Qed.

Lemma twp_bind {B C} (t : task B) (f : B -> task C) Φ :
  twp t (fun b => twp (f b) Φ) -> twp (t ≫= f) Φ.
Proof.
  induction t as [b|A p k IH|T dbs fn k IH]; simpl; [done| |].
  - apply wp_mono. intros a st [? ?]. auto.
  - intros (post & Hfn & Hk). exists post. auto.
Qed.

Lemma twp_call {A} (p : io A) Φ :
  wp p (fun a st => clean st /\ Φ a) idle -> twp (call p) Φ.
Proof. done. Qed.

Lemma twp_forEachDatabase {T} databases (fn : string -> io (res (list T))) post Φ :
  (forall db, db ∈ databases ->
     wp (fn (Database_Name db)) (fun r st => clean st /\ post (Database_Name db) r) idle) ->
  (forall r, fan_result databases post r -> Φ r) -> twp (forEachDatabase databases fn) Φ.
Proof. intros. by exists post. Qed.

Definition rt_inv {B} (Φ : B -> Prop) (r : rt B) (sts : list tst) : Prop :=
  match r with
  | RRet b => Φ b /\ sts = []
  | RIo p k => exists st, sts = [st] /\ wp p (fun a st => clean st /\ twp (k a) Φ) st
  | RFan databases fn f k => exists post running arrived buffered received,
      (forall db, db ∈ databases ->
         wp (fn (Database_Name db)) (fun r st => clean st /\ post (Database_Name db) r) idle) /\
      (forall r, fan_result databases post r -> twp (k r) Φ) /\
      fan_ok databases post f running arrived buffered received /\ sts = running.*2
  end.

Lemma start_inv {B} (t : task B) Φ h others :
  twp t Φ -> heap_ok h others -> exists sts, rt_inv Φ (start t) sts /\ heap_ok h (sts ++ others).
Proof.
  intros Ht Hok. destruct t as [b|A p k|T dbs fn k]; simpl in *.
  - by exists [].
  - exists [idle]. split; [by exists idle|]. by apply heap_ok_idle.
  - destruct Ht as (post & Hfn & Hk). exists []. split; [|done].
    exists post, [], [], [], []. split; [done|]. split; [done|]. split; [|done].
    apply fan_init_ok.
Qed.

Lemma rt_inv_step {B} ctx h (r : rt B) Φ sts others h' r' :
  rt_inv Φ r sts -> heap_ok h (sts ++ others) -> rt_step ctx h r h' r' ->
  exists sts', rt_inv Φ r' sts' /\ heap_ok h' (sts' ++ others).
Proof.
  destruct r as [b|A p k|T dbs fn f k]; simpl; [done|..].
  - intros (st & -> & Hwp) Hok [(p' & Hs & ->)|(a & -> & -> & ->)].
    + destruct (wp_step _ _ _ _ _ _ _ _ Hok Hwp Hs) as (st' & Hwp' & Hok').
      exists [st']. split; [|done]. by exists st'.
    + destruct Hwp as [Hc Ht]. apply start_inv; [done|]. by eapply heap_ok_drop.
  - intros (post & run & arr & buf & rcv & Hfn & Hk & Hf & ->) Hok Hstep.
    assert (fan_inv dbs post h others f) as Hinv by (exists run, arr, buf, rcv; done).
    destruct Hstep as [(f' & Hs & ->)|(v & Hv & -> & ->)].
    + eapply fan_inv_step in Hs; [|done..].
      destruct Hs as (run' & arr' & buf' & rcv' & Hf' & Hok').
      exists (run'.*2). split; [|done]. simpl. by exists post, run', arr', buf', rcv'.
    + eapply fan_inv_result in Hinv as (Hr & _ & Hok'); [|done]. apply start_inv; auto.
Qed.

Lemma rt_step_move {B} ctx h (r : rt B) Φ sts others h' r' :
  rt_inv Φ r sts -> heap_ok h (sts ++ others) -> rt_step ctx h r h' r' -> eff_move h h'.
Proof.
  destruct r as [b|A p k|T dbs fn f k]; simpl; [done|..].
  - intros (st & -> & Hwp) Hok [(p' & Hs & _)|(a & _ & -> & _)]; [|by left].
    by eapply wp_step_move.
  - intros (post & run & arr & buf & rcv & _ & _ & Hf & ->) Hok [(f' & Hs & _)|(v & _ & -> & _)]; [|by left].
    eapply fan_step_move; [|done]. by exists run, arr, buf, rcv.
Qed.

(** A handler that has not answered can step, or one of its goroutines can once it
    is the one that the others leave room for. *)
Lemma rt_progress {B} h (r : rt B) Φ sts others :
  rt_inv Φ r sts -> heap_ok h (sts ++ others) ->
  (exists b, r = RRet b) \/
  (forall ctx, exists r', rt_step ctx h r h r') \/
  (sts <> [] /\ forall i st, sts !! i = Some st ->
     (forall ctx e Ψ, eff_spec st e Ψ -> exists a h', estep ctx h e a h') ->
     forall ctx, exists h' r', rt_step ctx h r h' r').
Proof.
  destruct r as [b|A p k|T dbs fn f k]; simpl.
  - intros _ _. left. eauto.
  - intros (st & -> & Hwp) _. right. destruct p as [a|e c].
    + left. intros. eexists. right. eauto.
    + right. split; [done|]. intros [|i] st' Hi Hrun ctx; simplify_eq/=.
      destruct (Hrun ctx _ _ Hwp) as (a & h' & Hs). exists h', (RIo (c a) k). left. eauto.
  - intros (post & run & arr & buf & rcv & Hfn & Hk & Hf & ->) Hok. right.
    assert (fan_inv dbs post h others f) as Hinv by (exists run, arr, buf, rcv; done).
    destruct (fan_progress dbs fn post _ _ _ Hinv) as [[v Hv]|[Hs|[Hne Hvis]]].
    + left. intros. eexists. right. eauto.
    + left. intros ctx. destruct (Hs ctx) as [f' Hf']. eexists. left. eauto.
    + right. destruct f as [ph ws ch]. simpl in *. pose proof (fo_running _ _ _ _ _ _ _ Hf) as Hw. simpl in Hw.
      split. { destruct run; [by apply Forall2_nil_inv_l in Hw|done]. }
      intros i st Hi Hrun ctx. apply list_lookup_fmap_Some in Hi as ([db st'] & -> & Hi). simpl in *.
      destruct (Forall2_lookup_l _ _ _ _ _ Hw Hi) as (p & Hp & Hwp).
      destruct (Hvis p) as (e & c & ->); [by eapply list_elem_of_lookup_2|].
      destruct (Hrun ctx _ _ Hwp) as (a & h' & Hs).
      apply take_drop_middle in Hp. rewrite <- Hp.
      exists h', (RFan dbs fn (MkFan ph (take i ws ++ c a :: drop (S i) ws) ch) k).
      left. eexists. split; [|done]. apply fs_worker. exists a. eauto.
Qed.

(** Every handler terminates: no sequence of its steps is infinite. *)
Definition rt_dec {B} (r r' : rt B) : Prop := exists ctx h h', rt_step ctx h r h' r'.

Lemma rt_io_acc {B A} (p : io A) (k : A -> task B) :
  (forall a, Acc (flip rt_dec) (start (k a))) -> Acc (flip rt_dec) (RIo p k).
Proof.
  intros Hk. induction (io_sub_wf p) as [p _ IH].
  constructor. intros r' (ctx & h & h' & [(p' & Hs & ->)|(a & -> & _ & ->)]); [|apply Hk].
  by eapply IH, tstep_sub.
Qed.

Lemma rt_fan_acc {B T} dbs fn (f : fan T) (k : res (list T) -> task B) :
  (forall a, Acc (flip rt_dec) (start (k a))) -> Acc (flip rt_dec) (RFan dbs fn f k).
Proof.
  intros Hk. induction (fan_dec_wf dbs f) as [f _ IH].
  constructor. intros r' (ctx & h & h' & [(f' & Hs & ->)|(a & _ & _ & ->)]); [|apply Hk].
  by eapply IH, fan_step_dec.
Qed.

Lemma start_acc {B} (t : task B) : Acc (flip rt_dec) (start t).
Proof.
  induction t as [b|A p k IH|T dbs fn k IH]; simpl.
  - constructor. by intros r' (ctx & h & h' & []).
  - by apply rt_io_acc.
  - by apply rt_fan_acc.
Qed.

Lemma rt_acc {B} (r : rt B) : Acc (flip rt_dec) r.
Proof.
  destruct r as [b|A p k|T dbs fn f k].
  - constructor. by intros r' (ctx & h & h' & []).
  - apply rt_io_acc. intros. apply start_acc.
  - apply rt_fan_acc. intros. apply start_acc.
Qed.
End task.

Arguments TRet {_ B} b.
Arguments TIo {_ B A} p k.
Arguments TForEach {_ B T} databases fn k.
Arguments RRet {_ B} b.
Arguments RIo {_ B A} p k.
Arguments RFan {_ B T} databases fn f k.

(** ** The process *)

(** What the process serves: kinds of requests, their handlers, and what each
    handler promises about its answer. *)
Class Service `{W : World} `{G : ConnCfg} := {
  request : Type;
  answer : Type;
  handler : request -> task answer;
  spec : request -> answer -> Prop;
  handler_ok q : twp (handler q) (spec q)
}.

Section system.
Context `{S : Service}.

(** A request in flight: its kind, [ctx.Err()], and where its handler is. *)
Record inflight := InFlight {
  rq_kind : request;
  rq_ctx : option error;
  rq_run : rt answer
}.

Record sys := Sys { s_heap : heap; s_reqs : list inflight }.

(** A freshly started process: the default pool is open and nothing else. *)
Definition sys_init : sys :=
  Sys (Heap (mu NewConnectionCoordinator) (dbSemaphores NewConnectionCoordinator) ∅
         {[default_pool := default_conn]} ∅) [].

Definition set_run (r : rt answer) (q : inflight) : inflight := InFlight (rq_kind q) (rq_ctx q) r.

(** A step of the service itself: of a handler, or of a goroutine that one has started. *)
Inductive run_step : sys -> sys -> Prop :=
| rs_run h reqs i q h' r' :
    reqs !! i = Some q -> rt_step (rq_ctx q) h (rq_run q) h' r' ->
    run_step (Sys h reqs) (Sys h' (<[i := set_run r' q]> reqs)).

(** The service runs, or a client cancels a request or lets its deadline pass. *)
Inductive sys_step : sys -> sys -> Prop :=
| ss_run s s' : run_step s s' -> sys_step s s'
| ss_cancel h reqs i k r err :
    reqs !! i = Some (InFlight k None r) -> err = Canceled \/ err = DeadlineExceeded ->
    sys_step (Sys h reqs) (Sys h (<[i := InFlight k (Some err) r]> reqs)).

Inductive sys_arrive : sys -> sys -> Prop :=
| sa_arrive h reqs k :
    sys_arrive (Sys h reqs) (Sys h (reqs ++ [InFlight k None (start (handler k))])).

(** The states a process can be in. *)
Inductive reachable : sys -> Prop :=
| reach_init : reachable sys_init
| reach_step s s' : reachable s -> sys_step s s' -> reachable s'
| reach_arrive s s' : reachable s -> sys_arrive s s' -> reachable s'.

Definition answered (q : inflight) : Prop := exists b, rq_run q = RRet b.
Definition quiescent (s : sys) : Prop := Forall answered (s_reqs s).

Definition sys_inv (s : sys) : Prop :=
  exists stss, Forall2 (fun q sts => rt_inv (spec (rq_kind q)) (rq_run q) sts) (s_reqs s) stss /\
    heap_ok (s_heap s) (concat stss).

Lemma sys_inv_init : sys_inv sys_init.
Proof.
  exists []. split; [constructor|]. simpl. split; simpl; try done.
  - by rewrite lookup_singleton_eq.
  - intros p c Hp Hne. by rewrite lookup_singleton_ne in Hp.
Qed.

Lemma sys_inv_focus reqs stss h i q :
  Forall2 (fun q sts => rt_inv (spec (rq_kind q)) (rq_run q) sts) reqs stss ->
  heap_ok h (concat stss) -> reqs !! i = Some q ->
  exists sts, stss !! i = Some sts /\ rt_inv (spec (rq_kind q)) (rq_run q) sts /\
    heap_ok h (sts ++ concat (delete i stss)).
Proof.
  intros HF Hok Hi. destruct (Forall2_lookup_l _ _ _ _ _ HF Hi) as (sts & Hs & Hinv).
  exists sts. split; [done|]. split; [done|]. by rewrite <- (concat_delete_Permutation _ _ _ Hs).
Qed.

Lemma sys_inv_step s s' : sys_inv s -> sys_step s s' -> sys_inv s'.
Proof.
  intros (stss & HF & Hok) Hstep. destruct Hstep as [? ? [h reqs i q h' r' Hi Hs]|h reqs i k r err Hi _]; simpl in *.
  - destruct (sys_inv_focus _ _ _ _ _ HF Hok Hi) as (sts & Hst & Hinv & Hok').
    destruct (rt_inv_step _ _ _ _ _ _ _ _ Hinv Hok' Hs) as (sts' & Hinv' & Hok2).
    exists (<[i := sts']> stss). split; [by apply Forall2_insert|].
    rewrite (concat_delete_Permutation (<[i := sts']> stss) i sts').
    + by rewrite delete_insert_same.
    + apply list_lookup_insert_eq. by eapply lookup_lt_Some.
  - destruct (Forall2_lookup_l _ _ _ _ _ HF Hi) as (sts & Hs & Hinv).
    exists stss. split; [|done]. rewrite <- (list_insert_id stss i sts Hs).
    by apply Forall2_insert.
Qed.

Lemma reachable_inv s : reachable s -> sys_inv s.
Proof.
  induction 1 as [|s s' _ IH Hs|s s' _ IH Hs]; [apply sys_inv_init|by eapply sys_inv_step|].
  destruct Hs as [h reqs k]. destruct IH as (stss & HF & Hok). simpl in *.
  destruct (start_inv _ _ _ _ (handler_ok k) Hok) as (sts & Hinv & Hok').
  exists (stss ++ [sts]). split; [by apply Forall2_app; [|repeat constructor]|].
  eapply heap_ok_Permutation; [|exact Hok']. rewrite concat_app. simpl. rewrite app_nil_r.
  solve_Permutation.
Qed.

(** Every step of the process is a step of the abstract per-database lock. *)
Lemma sys_step_coord s s' :
  reachable s -> sys_step s s' -> coord_step (s_heap s) (s_heap s').
Proof.
  intros Hr Hs. destruct (reachable_inv _ Hr) as (stss & HF & Hok).
  destruct Hs as [? ? [h reqs i q h' r' Hi Hs]|h reqs i k r err Hi _]; simpl in *; [|by apply coord_step_same].
  destruct (sys_inv_focus _ _ _ _ _ HF Hok Hi) as (sts & _ & Hinv & Hok').
  destruct (rt_step_move _ _ _ _ _ _ _ _ Hinv Hok' Hs) as [->|(?&?&?&?&?&?&?&?&?)];
    [by apply coord_step_same|by eapply estep_coord].
Qed.

(** An answer satisfies what its handler promises. *)
Lemma sys_answer s q b :
  reachable s -> q ∈ s_reqs s -> rq_run q = RRet b -> spec (rq_kind q) b.
Proof.
  intros Hr Hq Hb. destruct (reachable_inv _ Hr) as (stss & HF & _).
  apply list_elem_of_lookup in Hq as [i Hi].
  destruct (Forall2_lookup_l _ _ _ _ _ HF Hi) as (sts & _ & Hinv). rewrite Hb in Hinv. apply Hinv.
Qed.

(** The open pools belong to different databases. *)
Lemma sys_pools_owned s :
  reachable s -> exists owner : gmap nat string, pools_owned (s_heap s) owner.
Proof. intros Hr. destruct (reachable_inv _ Hr) as (stss & _ & Hok). by eapply owned_pools. Qed.

(** A pool that is open belongs to a database whose permit is taken. *)
Lemma sys_pool_permit s p c :
  reachable s -> p <> default_pool -> h_pools (s_heap s) !! p = Some c ->
  exists db ch, c = conn_str_for db /\ h_sems (s_heap s) !! db = Some ch /\
    h_chans (s_heap s) !! ch = Some true.
Proof.
  intros Hr Hne Hp. destruct (sys_pools_owned _ Hr) as [owner Ho].
  destruct (proj2 (po_all _ _ Ho p)) as [db Hdb]; [eauto|].
  destruct (po_owner _ _ Ho _ _ Hdb) as [Hc (ch & ?)]. exists db, ch. split; [congruence|done].
Qed.

(** When every request is answered nothing is held: the mutex is free, every
    permit is back, and no pool or result set is open except the default pool. *)
Lemma sys_quiescent_clean s :
  reachable s -> quiescent s ->
  h_mu (s_heap s) = false /\
  (forall db ch, h_sems (s_heap s) !! db = Some ch -> h_chans (s_heap s) !! ch = Some false) /\
  h_pools (s_heap s) = {[default_pool := default_conn]} /\
  h_rows (s_heap s) = ∅.
Proof.
  intros Hr Hq. destruct (reachable_inv _ Hr) as (stss & HF & Hok). destruct s as [h reqs]. simpl in *.
  assert (concat stss = []) as E.
  { unfold quiescent in Hq. simpl in Hq. clear -HF Hq.
    induction HF as [|q sts reqs stss Hi _ IH]; [done|]. apply Forall_cons in Hq as [[b Hb] Hq].
    rewrite Hb in Hi. destruct Hi as [_ ->]. simpl. by apply IH. }
  rewrite E in Hok. destruct Hok as [_ Hmu _ Hch Hdef Hpo Hro]. simpl in *.
  split; [by destruct (h_mu h)|]. split; [|split].
  - intros db ch Hs. destruct (Hch _ _ Hs) as (b & Hb & Hn). by destruct b.
  - apply map_eq. intros p. destruct (decide (p = default_pool)) as [->|Hne].
    { by rewrite Hdef, lookup_singleton_eq. }
    rewrite lookup_singleton_ne by done. destruct (h_pools h !! p) eqn:Ep; [|done].
    by specialize (Hpo _ _ Ep Hne).
  - apply map_eq. intros r. rewrite lookup_empty. destruct (h_rows h !! r) eqn:Er; [|done].
    by specialize (Hro _ _ Er).
Qed.

#[export] Instance answered_dec q : Decision (answered q).
Proof.
  unfold answered. destruct (rq_run q) as [b|? ? ?|? ? ? ? ?];
    [left; by exists b|right; by intros [? ?]..].
Defined.

(** No deadlock: unless every request is answered, some goroutine can step, without
    any request being cancelled. *)
Lemma sys_progress s : reachable s -> quiescent s \/ exists s', run_step s s'.
Proof.
  intros Hr. destruct (reachable_inv _ Hr) as (stss & HF & Hok). destruct s as [h reqs].
  unfold quiescent. simpl in *.
  destruct (Forall_Exists_dec answered (fun q => ~ answered q)
    (fun q => decide (answered q)) reqs) as [Ha|Hex]; [by left|right].
  assert (forall i q sts, reqs !! i = Some q -> stss !! i = Some sts -> ~ answered q ->
    (exists s', run_step (Sys h reqs) s') \/
    (sts <> [] /\ forall st, st ∈ sts ->
       (forall ctx e Ψ, eff_spec st e Ψ -> exists a h', estep ctx h e a h') ->
       exists s', run_step (Sys h reqs) s')) as Hone.
  { intros i q sts Hi Hst Hna. pose proof (Forall2_lookup_lr _ _ _ _ _ _ HF Hi Hst) as Hinv.
    destruct (sys_inv_focus _ _ _ _ _ HF Hok Hi) as (sts' & Hst' & _ & Hok'). simplify_eq.
    destruct (rt_progress _ _ _ _ _ Hinv Hok') as [[b Hb]|[Hs|[Hn Hs]]].
    - exfalso. apply Hna. by exists b.
    - left. destruct (Hs (rq_ctx q)) as [r' Hr']. eexists. by eapply rs_run.
    - right. split; [done|]. intros st Hin Hrun. apply list_elem_of_lookup in Hin as [j Hj].
      destruct (Hs _ _ Hj Hrun (rq_ctx q)) as (h' & r' & Hr'). eexists. by eapply rs_run. }
  apply Exists_exists in Hex as (q & Hq & Hna). apply list_elem_of_lookup in Hq as [i Hi].
  destruct (Forall2_lookup_l _ _ _ _ _ HF Hi) as (sts & Hst & _).
  destruct (Hone _ _ _ Hi Hst Hna) as [|[Hn _]]; [done|].
  destruct (no_deadlock h (concat stss)) as (j & st & Hj & Hrun); [done| |].
  { intros E. apply Hn. rewrite concat_nil_Forall, Forall_lookup in E. by eapply E. }
  apply list_elem_of_lookup_2, list_elem_of_In, in_concat in Hj as (sts2 & Hin & Hst2).
  apply list_elem_of_In in Hin, Hst2. apply list_elem_of_lookup in Hin as [m Hm].
  destruct (Forall2_lookup_r _ _ _ _ _ HF Hm) as (q2 & Hq2 & Hinv2).
  destruct (decide (answered q2)) as [[b Hb]|Hna2].
  { rewrite Hb in Hinv2. destruct Hinv2 as [_ ->]. by apply not_elem_of_nil in Hst2. }
  destruct (Hone _ _ _ Hq2 Hm Hna2) as [|[_ Hs]]; [done|]. by apply (Hs st).
Qed.

(** ** Termination: without new arrivals the process quiesces *)

Definition inflight_dec (q q' : inflight) : Prop :=
  rt_dec (rq_run q) (rq_run q') /\ rq_ctx q' = rq_ctx q \/
  rq_ctx q = None /\ rq_ctx q' <> None /\ rq_run q' = rq_run q.

Lemma inflight_acc_cancelled r k e : Acc (flip inflight_dec) (InFlight k (Some e) r).
Proof.
  revert k e. induction (rt_acc r) as [r _ IH]. intros k e. constructor.
  intros [k2 ctx2 r2] [[Hd Hc]|[? _]]; simpl in *; [|done]. subst. by apply IH.
Qed.

Lemma inflight_acc q : Acc (flip inflight_dec) q.
Proof.
  destruct q as [k [e|] r]; [apply inflight_acc_cancelled|].
  revert k. induction (rt_acc r) as [r _ IH]. intros k. constructor.
  intros [k2 [e|] r2] [[Hd Hc]|(_ & Hc & Hr)]; simpl in *; simplify_eq.
  - apply inflight_acc_cancelled.
  - by apply IH.
Qed.

Lemma sys_step_dec s s' : sys_step s s' -> one_step inflight_dec (s_reqs s) (s_reqs s').
Proof.
  intros [? ? []|]; simpl; eapply one_step_insert; eauto.
  - left. split; [|done]. by eexists _, _, _.
  - right. done.
Qed.

Lemma sys_acc s : Acc (flip sys_step) s.
Proof.
  assert (Acc (flip (one_step inflight_dec)) (s_reqs s)) as Hacc.
  { apply one_step_wf, Forall_forall. intros q _. apply inflight_acc. }
  remember (s_reqs s) as reqs eqn:E. revert s E.
  induction Hacc as [reqs _ IH]. intros s ->. constructor. intros s' Hs.
  eapply IH; [|done]. by apply sys_step_dec.
Qed.

Lemma reachable_rtc s s' : reachable s -> rtc sys_step s s' -> reachable s'.
Proof. intros Hr. induction 1; eauto using reachable. Qed.

Lemma run_rtc s s' : rtc run_step s s' -> rtc sys_step s s'.
Proof. intros H. eapply rtc_subrel; [|exact H]. exact ss_run. Qed.

(** From every reachable state the service gets to one where all is answered. *)
Lemma sys_drains s : reachable s -> exists s', rtc run_step s s' /\ quiescent s'.
Proof.
  induction (sys_acc s) as [s _ IH]. intros Hr.
  destruct (sys_progress s Hr) as [Hq|[s' Hs]]; [by exists s|].
  destruct (IH s' (ss_run _ _ Hs)) as (s2 & Hs2 & Hq); [by eapply reach_step, ss_run|].
  exists s2. split; [|done]. by eapply rtc_l.
Qed.
End system.
