(* ===== verification/Exec.v ===== *)
(** * Running the model

    With the answers of the outside world given by functions ([Answers]), the
    effects, goroutines, fan-outs and handlers of the model can be executed under
    one fixed schedule: goroutines of a fan-out run one after the other, and
    requests too.  Every value the interpreter computes is a behaviour of the
    step relations ([run_rt_sound]), which is how concrete examples of reachable
    states are obtained. *)

From S2P Require Import Prelude Types Runtime Logic FanOut System.

(** The outside world as functions. *)
Class Answers := {
  av_value : Type;
  av_new : string -> option error;
  av_query : string -> string -> res (list (list av_value) * option error);
  av_row : string -> string -> res (list av_value);
  av_exec : string -> list string -> res string;
  av_listen : string -> option error;
  av_ping : string -> option error
}.

#[export] Instance answers_world `{A : Answers} : World.
Proof.
  refine {|
    pgvalue := av_value;
    new_answer := fun c r => r = av_new c;
    query_answer := fun c sql r => r = av_query c sql;
    row_answer := fun c sql r => r = av_row c sql;
    exec_answer := fun cmd args r => r = av_exec cmd args;
    listen_answer := fun a r => r = av_listen a;
    ping_answer := fun c r => r = av_ping c
  |}; by eexists.
Defined.

Section exec.
Context `{A : Answers}.

(** An identity not in use, if the next number is not. *)
Definition next {V} (m : gmap nat V) : option nat :=
  if decide (m !! size m = None) then Some (size m) else None.

Definition exec_eff (ctx : option error) (h : heap) (e : eff) : option (resp e * heap) :=
  match e return option (resp e * heap) with
  | EMuLock => if h_mu h then None
      else Some (tt, Heap true (h_sems h) (h_chans h) (h_pools h) (h_rows h))
  | EMuUnlock => if h_mu h then Some (tt, Heap false (h_sems h) (h_chans h) (h_pools h) (h_rows h))
      else None
  | ESemGet db => Some (h_sems h !! db, h)
  | ESemMake db => ch ← next (h_chans h);
      Some (tt, Heap (h_mu h) (<[db := ch]> (h_sems h)) (<[ch := false]> (h_chans h))
                  (h_pools h) (h_rows h))
  | ESelect sem =>
      match ctx, sem with
      | Some err, _ => Some (Some err, h)
      | None, Some ch => match h_chans h !! ch with
          | Some false => Some (None, Heap (h_mu h) (h_sems h) (<[ch := true]> (h_chans h))
                                         (h_pools h) (h_rows h))
          | _ => None
          end
      | None, None => None
      end
  | ERecv ch => match h_chans h !! ch with
      | Some true => Some (tt, Heap (h_mu h) (h_sems h) (<[ch := false]> (h_chans h))
                                 (h_pools h) (h_rows h))
      | _ => None
      end
  | EPoolNew c => match av_new c with
      | Some err => Some (inl err, h)
      | None => p ← next (h_pools h);
          Some (inr p, Heap (h_mu h) (h_sems h) (h_chans h) (<[p := c]> (h_pools h)) (h_rows h))
      end
  | EPoolClose p =>
      if decide (map_Forall (fun _ q => q <> p) (h_rows h))
      then Some (tt, Heap (h_mu h) (h_sems h) (h_chans h) (delete p (h_pools h)) (h_rows h))
      else None
  | EQuery p sql => match h_pools h !! p with
      | None => Some (inl ErrClosedPool, h)
      | Some c => match av_query c sql with
          | inl err => Some (inl err, h)
          | inr (rows, o) => r ← next (h_rows h);
              Some (inr (MkRows r rows o),
                    Heap (h_mu h) (h_sems h) (h_chans h) (h_pools h) (<[r := p]> (h_rows h)))
          end
      end
  | ERowsClose r =>
      Some (tt, Heap (h_mu h) (h_sems h) (h_chans h) (h_pools h) (delete r (h_rows h)))
  | EQueryRow p sql => match h_pools h !! p with
      | None => Some (inl ErrClosedPool, h)
      | Some c => Some (av_row c sql, h)
      end
  | EExec cmd args => Some (av_exec cmd args, h)
  | EListen addr => Some (av_listen addr, h)
  | EPing p => match h_pools h !! p with
      | None => Some (Some ErrClosedPool, h)
      | Some c => Some (av_ping c, h)
      end
  end.

Fixpoint run_io {B} (ctx : option error) (h : heap) (p : io B) : option (B * heap) :=
  match p with
  | Ret b => Some (b, h)
  | Vis e k => '(r, h1) ← exec_eff ctx h e; run_io ctx h1 (k r)
  end.

Lemma next_fresh {V} (m : gmap nat V) n : next m = Some n -> m !! n = None.
Proof. unfold next. case_decide; [by intros [= <-]|done]. Qed.

Lemma exec_eff_sound ctx h e r h' : exec_eff ctx h e = Some (r, h') -> estep ctx h e r h'.
Proof.
  destruct e; simpl; intros H.
  - destruct (h_mu h); simplify_eq. done.
  - destruct (h_mu h); simplify_eq. done.
  - by simplify_eq.
  - destruct (next (h_chans h)) as [ch|] eqn:E; simplify_eq/=. exists ch. by apply next_fresh in E.
  - destruct ctx as [err|]; [simplify_eq; right; done|]. destruct sem as [ch|]; [|done].
    destruct (h_chans h !! ch) as [[]|] eqn:E; simplify_eq/=. left. by exists ch.
  - destruct (h_chans h !! sem) as [[]|] eqn:E; simplify_eq/=. done.
  - destruct (av_new connStr) as [err|] eqn:E; simplify_eq/=; [done|].
    destruct (next (h_pools h)) as [p|] eqn:Ep; simplify_eq/=. by apply next_fresh in Ep.
  - case_decide as Hd; simplify_eq/=. done.
  - destruct (h_pools h !! p) as [c|] eqn:Ep; simplify_eq/=; [|done].
    destruct (av_query c sql) as [err|[rows o]] eqn:Eq; simplify_eq/=; [done|].
    destruct (next (h_rows h)) as [n|] eqn:En; simplify_eq/=. apply next_fresh in En. by exists c.
  - by simplify_eq.
  - by destruct (h_pools h !! p) as [c|] eqn:Ep; simplify_eq.
  - by simplify_eq.
  - by simplify_eq.
  - by destruct (h_pools h !! p) as [c|] eqn:Ep; simplify_eq.
Qed.

Lemma run_io_sound {B} ctx h (p : io B) b h' : run_io ctx h p = Some (b, h') -> runs ctx h p h' b.
Proof.
  revert h. induction p as [b'|e k IH]; simpl; intros h H; [by simplify_eq|].
  destruct (exec_eff ctx h e) as [[r h1]|] eqn:E; [|done]. apply exec_eff_sound in E. eauto.
Qed.

(** The goroutines of a fan-out, one after the other. *)
Fixpoint run_workers {T} (ctx : option error) (h : heap) (fn : string -> io (res (list T)))
    (databases : list Database) : option (list (res (list T)) * heap) :=
  match databases with
  | [] => Some ([], h)
  | db :: databases =>
      '(r, h1) ← run_io ctx h (fn (Database_Name db));
      '(rs, h2) ← run_workers ctx h1 fn databases;
      Some (r :: rs, h2)
  end.

Definition fan_pair {T} databases (fn : string -> io (res (list T))) ctx (x y : heap * fan T) : Prop :=
  fan_step databases fn ctx x.1 x.2 y.1 y.2.

Section fan.
Context {T : Type} (databases : list Database) (fn : string -> io (res (list T))) (ctx : option error).

Lemma fan_worker_rtc ph ws1 ws2 ch h p h' p' :
  rtc (tstep_pair ctx) (h, p) (h', p') ->
  rtc (fan_pair databases fn ctx) (h, MkFan ph (ws1 ++ p :: ws2) ch) (h', MkFan ph (ws1 ++ p' :: ws2) ch).
Proof.
  intros H. remember (h, p) as x eqn:Ex. remember (h', p') as y eqn:Ey. revert h p Ex.
  induction H as [x|x z y Hs _ IH]; intros h p ->; [simplify_eq; apply rtc_refl|].
  destruct z as [h1 p1]. eapply (rtc_l _ _ (h1, MkFan _ (ws1 ++ p1 :: ws2) _)); [|by apply IH]. by apply fs_worker.
Qed.

Lemma run_workers_rtc todo h ch rs h' :
  run_workers ctx h fn todo = Some (rs, h') -> length ch + length todo <= length databases ->
  rtc (fan_pair databases fn ctx) (h, MkFan (Spawning todo) [] ch)
    (h', MkFan (Spawning []) [] (ch ++ (to_result <$> rs))).
Proof.
  revert h ch rs. induction todo as [|db todo IH]; simpl; intros h ch rs H Hl.
  { simplify_eq/=. rewrite app_nil_r. apply rtc_refl. }
  destruct (run_io ctx h _) as [[r h1]|] eqn:E1; simplify_eq/=.
  destruct (run_workers ctx h1 fn todo) as [[rs' h2]|] eqn:E2; simplify_eq/=.
  apply run_io_sound, runs_rtc in E1.
  eapply (rtc_l _ _ (h, MkFan (Spawning todo) [fn (Database_Name db)] ch)); [apply fs_spawn|].
  etrans; [by apply (fan_worker_rtc _ [] [])|]. simpl.
  eapply (rtc_l _ _ (h1, MkFan (Spawning todo) [] (ch ++ [to_result r]))).
  { apply (fs_send _ _ _ _ _ []). lia. }
  rewrite (snoc_cons ch _ (to_result <$> rs')). apply IH; [done|]. rewrite length_app. simpl. lia.
Qed.

Lemma receive_rtc h (rs : list (res (list T))) results errs :
  rtc (fan_pair databases fn ctx) (h, MkFan (Receiving (length rs) results errs) [] (to_result <$> rs))
    (h, MkFan (Receiving 0 (results ++ concat (rights rs)) (errs ++ lefts rs)) [] []).
Proof.
  revert results errs. induction rs as [|[e|l] rs IH]; intros results errs; simpl.
  - rewrite !app_nil_r. apply rtc_refl.
  - eapply (rtc_l _ _ (h, MkFan _ [] _)); [by apply fs_recv_err|]. rewrite (snoc_cons errs _ (lefts rs)). apply IH.
  - eapply (rtc_l _ _ (h, MkFan _ [] _)); [by apply fs_recv_ok|]. simpl. rewrite (assoc_L (++)). apply IH.
Qed.

Lemma run_workers_length todo h rs h' :
  run_workers ctx h fn todo = Some (rs, h') -> length rs = length todo.
Proof.
  revert h rs. induction todo as [|db todo IH]; simpl; intros h rs H; [by simplify_eq|].
  destruct (run_io ctx h _) as [[r h1]|] eqn:E1; simplify_eq/=.
  destruct (run_workers ctx h1 fn todo) as [[rs' h2]|] eqn:E2; simplify_eq/=.
  f_equal. by eapply IH.
Qed.

Lemma run_fan_rtc h rs h' :
  run_workers ctx h fn databases = Some (rs, h') ->
  rtc (fan_pair databases fn ctx) (h, fan_init databases)
    (h', MkFan (Returned (collect databases rs)) [] []).
Proof.
  intros H. pose proof (run_workers_length _ _ _ _ H) as Hl.
  etrans; [by apply (run_workers_rtc _ _ [])|]. simpl.
  eapply (rtc_l _ _ (h', MkFan _ [] _)); [apply fs_spawned|]. rewrite <- Hl.
  etrans; [apply receive_rtc|]. simpl. apply rtc_once. apply fs_return.
Qed.
End fan.

(** A handler on its own. *)
Fixpoint run_task {B} (ctx : option error) (h : heap) (t : task B) : option (B * heap) :=
  match t with
  | TRet b => Some (b, h)
  | TIo p k => '(a, h1) ← run_io ctx h p; run_task ctx h1 (k a)
  | TForEach databases fn k =>
      '(rs, h1) ← run_workers ctx h fn databases; run_task ctx h1 (k (collect databases rs))
  end.

Definition rt_pair {B} ctx (x y : heap * rt B) : Prop := rt_step ctx x.1 x.2 y.1 y.2.

Lemma rt_io_rtc {B X} ctx h (p : io X) h' p' (k : X -> task B) :
  rtc (tstep_pair ctx) (h, p) (h', p') -> rtc (rt_pair ctx) (h, RIo p k) (h', RIo p' k).
Proof.
  intros H. remember (h, p) as x eqn:Ex. remember (h', p') as y eqn:Ey. revert h p Ex.
  induction H as [x|x z y Hs _ IH]; intros h p ->; [simplify_eq; apply rtc_refl|].
  destruct z as [h1 p1]. eapply rtc_l; [|by apply IH]. left. by exists p1.
Qed.

Lemma rt_fan_rtc {B T} ctx dbs (fn : string -> io (res (list T))) h f h' f' (k : res (list T) -> task B) :
  rtc (fan_pair dbs fn ctx) (h, f) (h', f') -> rtc (rt_pair ctx) (h, RFan dbs fn f k) (h', RFan dbs fn f' k).
Proof.
  intros H. remember (h, f) as x eqn:Ex. remember (h', f') as y eqn:Ey. revert h f Ex.
  induction H as [x|x z y Hs _ IH]; intros h p ->; [simplify_eq; apply rtc_refl|].
  destruct z as [h1 f1]. eapply rtc_l; [|by apply IH]. left. by exists f1.
Qed.

Lemma run_rt_sound {B} ctx h (t : task B) b h' :
  run_task ctx h t = Some (b, h') -> rtc (rt_pair ctx) (h, start t) (h', RRet b).
Proof.
  revert h. induction t as [b'|X p k IH|T dbs fn k IH]; simpl; intros h H.
  - simplify_eq. apply rtc_refl.
  - destruct (run_io ctx h p) as [[a h1]|] eqn:E; simplify_eq/=. apply run_io_sound, runs_rtc in E.
    etrans; [by apply rt_io_rtc|]. eapply rtc_l; [|by apply IH]. right. by exists a.
  - destruct (run_workers ctx h fn dbs) as [[rs h1]|] eqn:E; simplify_eq/=. apply run_fan_rtc in E.
    etrans; [by apply rt_fan_rtc|]. eapply rtc_l; [|by apply IH]. right. by eexists.
Qed.

(** A request handled on its own by a fresh process. *)
Context `{G : !ConnCfg} `{Sv : !Service}.

Lemma sys_run_rtc h reqs i q h' r' :
  reqs !! i = Some q -> rtc (rt_pair (rq_ctx q)) (h, rq_run q) (h', r') ->
  rtc run_step (Sys h reqs) (Sys h' (<[i := set_run r' q]> reqs)).
Proof.
  intros Hi H. remember (h, rq_run q) as x eqn:Ex. remember (h', r') as y eqn:Ey.
  remember (rq_ctx q) as c eqn:Ec. revert h reqs q Ex Ec Hi.
  induction H as [x|x z y Hs _ IH]; intros h reqs q -> -> Hi.
  - simplify_eq. rewrite list_insert_id; [apply rtc_refl|]. by destruct q.
  - destruct z as [h1 r1]. eapply (rtc_l _ _ (Sys h1 (<[i := set_run r1 q]> reqs))); [by eapply rs_run|].
    rewrite <- (list_insert_insert_eq reqs i (set_run r' q) (set_run r1 q)).
    eapply (IH Ey h1 _ (set_run r1 q)); [done|done|].
    apply list_lookup_insert_eq. by eapply lookup_lt_Some.
Qed.

Lemma run_request_rtc q b h' :
  run_task None (s_heap sys_init) (handler q) = Some (b, h') ->
  rtc run_step (Sys (s_heap sys_init) [InFlight q None (start (handler q))])
    (Sys h' [InFlight q None (RRet b)]).
Proof.
  intros H. apply run_rt_sound in H.
  by apply (sys_run_rtc _ [InFlight q None (start (handler q))] 0 (InFlight q None (start (handler q)))).
Qed.

Lemma run_reachable q b h' :
  run_task None (s_heap sys_init) (handler q) = Some (b, h') ->
  reachable (Sys h' [InFlight q None (RRet b)]).
Proof.
  intros H. eapply reachable_rtc; [|by apply run_rtc, run_request_rtc].
  eapply reach_arrive; [apply reach_init|]. apply (sa_arrive _ []).
Qed.

(** ** Stopping in the middle of a goroutine *)

Fixpoint run_io_n {B} (n : nat) (ctx : option error) (h : heap) (p : io B) : option (heap * io B) :=
  match n, p with
  | 0, _ => Some (h, p)
  | S n, Ret _ => None
  | S n, Vis e k => '(r, h1) ← exec_eff ctx h e; run_io_n n ctx h1 (k r)
  end.

Lemma run_io_n_sound {B} n ctx h (p : io B) h' p' :
  run_io_n n ctx h p = Some (h', p') -> rtc (tstep_pair ctx) (h, p) (h', p').
Proof.
  revert h p. induction n as [|n IH]; simpl; intros h p H; [simplify_eq; apply rtc_refl|].
  destruct p as [b|e k]; [done|].
  destruct (exec_eff ctx h e) as [[r h1]|] eqn:E; [|done]. apply exec_eff_sound in E.
  eapply (rtc_l _ _ (h1, k r)); [by exists r|by apply IH].
Qed.

(** A handler that lists the databases and is [n] effects into the first of them. *)
Definition run_into {B} (n : nat) (ctx : option error) (h : heap) (t : task B) : option (heap * rt B) :=
  match t with
  | TIo p k =>
      '(a, h1) ← run_io ctx h p;
      match k a with
      | TForEach (db :: databases) fn k2 =>
          '(h2, p') ← run_io_n n ctx h1 (fn (Database_Name db));
          Some (h2, RFan (db :: databases) fn (MkFan (Spawning databases) [p'] []) k2)
      | _ => None
      end
  | _ => None
  end.

Lemma run_into_sound {B} n ctx h (t : task B) h' r :
  run_into n ctx h t = Some (h', r) -> rtc (rt_pair ctx) (h, start t) (h', r).
Proof.
  destruct t as [b|X p k|T dbs fn k]; simpl; [done| |done].
  destruct (run_io ctx h p) as [[a h1]|] eqn:E; [|done]. simpl.
  apply run_io_sound, runs_rtc in E. destruct (k a) as [|?|T [|db dbs] fn k2] eqn:Ek; [done..|].
  destruct (run_io_n n ctx h1 _) as [[h2 p']|] eqn:E2; [|done]. simpl. intros [= <- <-].
  apply run_io_n_sound in E2. etrans; [by apply rt_io_rtc|].
  eapply (rtc_l _ _ (h1, start (k a))); [right; by exists a|]. rewrite Ek. apply rt_fan_rtc.
  eapply (rtc_l _ _ (h1, MkFan (Spawning dbs) [fn (Database_Name db)] [])); [apply fs_spawn|].
  by apply (fan_worker_rtc _ _ _ _ [] []).
Qed.

Lemma run_into_reachable n q r h' :
  run_into n None (s_heap sys_init) (handler q) = Some (h', r) ->
  reachable (Sys h' [InFlight q None r]).
Proof.
  intros H. apply run_into_sound in H.
  eapply (reachable_rtc (Sys (s_heap sys_init) [InFlight q None (start (handler q))])).
  { eapply reach_arrive; [apply reach_init|]. apply (sa_arrive _ []). }
  by apply run_rtc, (sys_run_rtc _ [InFlight q None (start (handler q))] 0 (InFlight q None (start (handler q)))).
Qed.
End exec.
