(* ===== verification/Scan.v ===== *)
(** * Reading rows: pgx.Rows.Scan

    pgx is not part of the repository.  What the store relies on is the class
    [Scanner]: a conversion per destination type that the store uses, whose
    integers are in range of the Go type.  [Scan] is [rows.Scan(dest...)]:
    the number of columns first, then the destinations from left to right. *)

From S2P Require Import Prelude Types Runtime.

Class Scanner `{W : World} := {
  scan_string : pgvalue -> res string;              (** *string *)
  scan_bool : pgvalue -> res bool;                  (** *bool *)
  scan_uint32 : pgvalue -> res Z;                   (** *uint32 *)
  scan_int8 : pgvalue -> res Z;                     (** *int8 *)
  scan_int32 : pgvalue -> res Z;                    (** *int32 *)
  scan_int64 : pgvalue -> res Z;                    (** *int64 *)
  scan_string_ptr : pgvalue -> res (option string); (** **string: nil for NULL *)
  scan_bytes : pgvalue -> res (option string);      (** *[]byte: nil for NULL *)
  scan_count : nat -> nat -> error;                 (** wrong number of destinations *)
  scan_uint32_range v n : scan_uint32 v = inr n -> uint32 n;
  scan_int8_range v n : scan_int8 v = inr n -> int8 n;
  scan_int32_range v n : scan_int32 v = inr n -> int32 n;
  scan_int64_range v n : scan_int64 v = inr n -> int64 n
}.

Section scan.
Context `{S : Scanner}.

(** A list of destinations that together build an [A]. *)
Definition dests (A : Type) : Type := list pgvalue -> res (A * list pgvalue).

#[export] Instance dests_mret : MRet dests := fun A a row => inr (a, row).
#[export] Instance dests_mbind : MBind dests := fun A B f d row =>
  match d row with inl e => inl e | inr (a, row) => f a row end.

Definition dest {A} (scan : pgvalue -> res A) : dests A := fun row =>
  match row with
  | v :: row => match scan v with inl e => inl e | inr a => inr (a, row) end
  | [] => inl (scan_count 0 1)
  end.

Definition Scan {A} (n : nat) (d : dests A) (row : list pgvalue) : res A :=
  if decide (length row = n)
  then match d row with inl e => inl e | inr (a, _) => inr a end
  else inl (scan_count (length row) n).

(** for rows.Next() { x, err := row(); if err != nil { return nil, err }; xs = append(xs, x) } *)
Fixpoint for_rows {T} (f : list pgvalue -> res T) (rows : list (list pgvalue)) (xs : list T)
    : res (list T) :=
  match rows with
  | [] => inr xs
  | row :: rows => match f row with inl e => inl e | inr x => for_rows f rows (xs ++ [x]) end
  end.

Lemma dests_bind_inr {A B} (d : dests A) (f : A -> dests B) row b rest :
  (d ≫= f) row = inr (b, rest) <-> exists a row', d row = inr (a, row') /\ f a row' = inr (b, rest).
Proof.
  unfold mbind, dests_mbind. destruct (d row) as [e|[a row']]; split; [done| |by eauto|].
  - by intros (? & ? & ? & _).
  - by intros (? & ? & [= <- <-] & ?).
Qed.

(** One destination takes one column. *)
Lemma dest_cons {A B} (scan : pgvalue -> res A) (f : A -> dests B) v row :
  (dest scan ≫= f) (v :: row) = match scan v with inl e => inl e | inr a => f a row end.
Proof. unfold mbind, dests_mbind, dest. by destruct (scan v). Qed.

Lemma dest_bind_inr {A B} (scan : pgvalue -> res A) (f : A -> dests B) row b rest :
  (dest scan ≫= f) row = inr (b, rest) <->
  exists v row' a, row = v :: row' /\ scan v = inr a /\ f a row' = inr (b, rest).
Proof.
  split.
  - destruct row as [|v row]; [done|]. rewrite dest_cons. destruct (scan v) eqn:E; [done|]. eauto 6.
  - intros (v & row' & a & -> & E & H). by rewrite dest_cons, E.
Qed.

Lemma Scan_cols {A} n (d : dests A) row a :
  Scan n d row = inr a <-> length row = n /\ exists rest, d row = inr (a, rest).
Proof.
  unfold Scan. case_decide; [|split; [done|by intros [? _]]].
  destruct (d row) as [e|[b rest]]; split; [done|by intros (_ & ? & ?)|intros [= ->]; eauto|].
  by intros (_ & ? & [= <- <-]).
Qed.

Lemma for_rows_inr {T} (f : list pgvalue -> res T) rows xs ys :
  for_rows f rows xs = inr ys <->
  exists zs, ys = xs ++ zs /\ Forall2 (fun row z => f row = inr z) rows zs.
Proof.
  revert xs. induction rows as [|row rows IH]; intros xs; simpl.
  - split; [intros [= ->]; exists []; by rewrite app_nil_r|].
    intros (zs & -> & HF). inverts HF. by rewrite app_nil_r.
  - destruct (f row) as [e|z] eqn:E.
    + split; [done|]. intros (zs & _ & HF). inversion HF; congruence.
    + rewrite IH. split.
      * intros (zs & -> & HF). exists (z :: zs). rewrite <- (assoc_L (++)). split; [done|]. by constructor.
      * intros (zs & -> & HF). inversion HF as [|? z' ? zs' Hz HF']; subst.
        assert (z' = z) as -> by congruence. exists zs'. by rewrite <- (assoc_L (++)).
Qed.

(** The error of the loop is the error of the first row that has one. *)
Lemma for_rows_inl {T} (f : list pgvalue -> res T) rows xs e :
  for_rows f rows xs = inl e <->
  exists rows1 row rows2 zs, rows = rows1 ++ row :: rows2 /\ f row = inl e /\
    Forall2 (fun row z => f row = inr z) rows1 zs.
Proof.
  revert xs. induction rows as [|row rows IH]; intros xs; simpl.
  - split; [done|]. intros (rows1 & ? & ? & ? & ? & _). by destruct rows1.
  - destruct (f row) as [e'|z] eqn:E; [split|rewrite IH; split].
    + intros [= ->]. by exists [], row, rows, [].
    + intros (rows1 & r & rows2 & zs & Hr & He & HF).
      destruct rows1 as [|r1 rows1]; simplify_eq/=; [congruence|]. inversion HF; congruence.
    + intros (rows1 & r & rows2 & zs & -> & He & HF). exists (row :: rows1), r, rows2, (z :: zs).
      split; [done|]. split; [done|]. by constructor.
    + intros (rows1 & r & rows2 & zs & Hr & He & HF).
      destruct rows1 as [|r1 rows1]; simplify_eq/=; [congruence|]. inversion HF; subst. eauto 8.
Qed.
End scan.

(** Takes the columns of a row one by one. *)
Ltac scan_row := rewrite Scan_cols; split;
  [intros [Hl [rest Hd]];
   repeat match goal with
   | H : (dest _ ≫= _) _ = inr _ |- _ => apply dest_bind_inr in H as (? & ? & ? & -> & ? & H)
   end; inversion Hd; subst; match goal with H : length _ = _ |- _ => injection H as H;
   apply nil_length_inv in H; subst end; repeat eexists; eassumption
  |intros H; split_hyps; subst; split; [reflexivity|];
   eexists; repeat (apply dest_bind_inr; eexists _, _, _; split; [reflexivity|]; split; [eassumption|])].
