(* ===== verification/Store.v ===== *)
(** * The store (internal/extractor/store/store.go)

    One definition per function of the file, with the queries verbatim.  A
    function that uses only the default pool or one database is an [io] program;
    the functions that fan out over the databases are [task]s.  A pointer to a
    record that is filled once and then only read is the record itself: every
    row gets a variable of its own inside the loop, so no two pointers alias. *)

From S2P Require Import Prelude GoStrings GoRegexp Types Runtime Logic Coordinator FanOut System Scan.

(** type Store struct; the coordinator it points to is the heap's. *)
Record Store := MkStore {
  Store_pool : pool;
  Store_connStrFor : string -> string;
  Store_coordinator : ConnectionCoordinator;
  Store_Stanza : string;
  Store_ClusterName : string
}.

Definition queryServerInfo : string :=
"
SELECT
    pg_is_in_recovery() AS is_in_recovery,
    current_setting('transaction_read_only') AS is_read_only,
    current_setting('ssl') AS ssl,
    current_setting('port')::int AS port,
    current_setting('max_connections')::int AS max_connections,
    current_setting('archive_mode') AS archive_mode,
    current_setting('wal_level') AS wal_level,
    current_setting('data_directory') AS data_directory,
    (SELECT system_identifier FROM pg_control_system()) AS system_identifier,
    (SELECT timeline_id FROM pg_control_checkpoint()) AS timeline_id,
    version() AS pg_version;
".

Definition queryFunctions : string :=
"
SELECT 
    p.oid,
    p.proname AS name,
    n.nspname AS schema,
    pg_catalog.pg_get_userbyid(p.proowner) AS owner,
    l.lanname AS language,
    pg_catalog.format_type(p.prorettype, NULL) AS return_type,
    pg_get_function_identity_arguments(p.oid) AS identity_arguments
FROM pg_catalog.pg_proc p
JOIN pg_catalog.pg_namespace n ON p.pronamespace = n.oid
JOIN pg_catalog.pg_language l ON p.prolang = l.oid
WHERE n.nspname NOT LIKE 'pg_%'
    AND n.nspname != 'information_schema'
".

Definition querySequences : string :=
"
SELECT 
    c.oid,
    c.relname AS name,
    n.nspname AS schema,
    pg_catalog.pg_get_userbyid(c.relowner) AS owner,
    t.typname AS data_type
FROM pg_catalog.pg_class c
JOIN pg_catalog.pg_namespace n ON c.relnamespace = n.oid
JOIN pg_catalog.pg_sequence s ON s.seqrelid = c.oid
JOIN pg_catalog.pg_type t ON t.oid = s.seqtypid
WHERE c.relkind = 'S'
    AND n.nspname NOT LIKE 'pg_%'
    AND n.nspname != 'information_schema'
ORDER BY n.nspname, c.relname;".

Definition queryAvailableExtensions : string :=
"
SELECT
    name,
    default_version
FROM pg_available_extensions;".

Definition queryListInstalledExtensions : string :=
"
SELECT
    e.oid,
    e.extname AS name,
    e.extversion AS version,
    n.nspname AS schema
FROM pg_extension e
JOIN pg_namespace n ON e.extnamespace = n.oid
ORDER BY e.extname;".

Definition queryListSchemas : string :=
"
SELECT
	n.oid,
	n.nspname AS name,
	pg_catalog.pg_get_userbyid(n.nspowner) AS owner
FROM pg_catalog.pg_namespace n
WHERE n.nspname NOT LIKE 'pg_%'
	AND n.nspname != 'information_schema';".

Definition queryDatabases : string :=
  "SELECT datname, oid FROM pg_database WHERE datallowconn AND NOT datistemplate".

Definition queryStanza : string :=
  "SELECT value FROM monitoring.cluster_config WHERE key = 'stanza'".

Definition queryClusterName : string :=
  "SELECT value FROM monitoring.cluster_config WHERE key = 'cluster_name'".

(** ** Stanza names *)

Definition letters : cclass := [("a", "z"); ("A", "Z")]%char.
Definition stanza_chars : cclass := [("a", "z"); ("A", "Z"); ("0", "9"); ("_", "_"); ("-", "-")]%char.

Definition stanzaNamePattern : regex :=
  RSeq RBegin (RSeq (RRep letters 1 (Some 1)) (RSeq (RRep stanza_chars 0 (Some 62)) REnd)).

Definition isValidStanzaName (s : string) : bool := MatchString stanzaNamePattern s.

Section store.
Context `{S : Scanner}.

(** QueryRow(ctx, sql).Scan(dest...) *)
Definition QueryRow_Scan {A} (p : pool) (sql : string) (scan : list pgvalue -> res A) : io (res A) :=
  r ← perform (EQueryRow p sql);
  Ret (match r with inl e => inl e | inr row => scan row end).

Definition NewStore (p : pool) (connStrFor : string -> string) : io (res Store) :=
  stanza ← QueryRow_Scan p queryStanza (Scan 1 (dest scan_string));
  match stanza with
  | inl err => Ret (inl (Errorf "failed to load stanza: %w" [AErr err]))
  | inr stanza =>
      if negb (isValidStanzaName stanza)
      then Ret (inl (Errorf "invalid stanza name: %q" [AStr stanza]))
      else
        clusterName ← QueryRow_Scan p queryClusterName (Scan 1 (dest scan_string));
        match clusterName with
        | inl err => Ret (inl (Errorf "failed to load cluster_name: %w" [AErr err]))
        | inr clusterName =>
            Ret (inr {| Store_pool := p;
                        Store_connStrFor := connStrFor;
                        Store_coordinator := NewConnectionCoordinator;
                        Store_ClusterName := clusterName;
                        Store_Stanza := stanza |})
        end
  end.

(** Go's per-row variables: one [Scan] call each. *)
Definition scanDatabase : list pgvalue -> res Database :=
  Scan 2 (name ← dest scan_string; oid ← dest scan_uint32;
          mret {| Database_Name := name; Database_Oid := oid |}).

Definition scanServerInfo : list pgvalue -> res ServerInfo :=
  Scan 11 (isInRecovery ← dest scan_bool;
           isReadOnly ← dest scan_string;
           sslEnabled ← dest scan_string;
           port ← dest scan_int32;
           maxConnections ← dest scan_int32;
           archiveMode ← dest scan_string;
           walLevel ← dest scan_string;
           dataDirectory ← dest scan_string;
           systemIdentifier ← dest scan_int64;
           timelineID ← dest scan_int8;
           pgVersion ← dest scan_string;
           mret {| ServerInfo_IsInRecovery := isInRecovery;
                   ServerInfo_IsReadOnly := isReadOnly;
                   ServerInfo_SslEnabled := sslEnabled;
                   ServerInfo_Port := port;
                   ServerInfo_MaxConnections := maxConnections;
                   ServerInfo_ArchiveMode := archiveMode;
                   ServerInfo_WalLevel := walLevel;
                   ServerInfo_DataDirectory := dataDirectory;
                   ServerInfo_SystemIdentifier := systemIdentifier;
                   ServerInfo_TimelineID := timelineID;
                   ServerInfo_PgVersion := pgVersion |}).

Definition scanFunction (dbName : string) : list pgvalue -> res Function :=
  Scan 7 (oid ← dest scan_uint32; name ← dest scan_string; schema ← dest scan_string;
          owner ← dest scan_string; language ← dest scan_string;
          returnType ← dest scan_string; identityArguments ← dest scan_string;
          mret {| Function_Oid := oid; Function_Name := name; Function_Schema := schema;
                  Function_Owner := owner; Function_Language := language;
                  Function_ReturnType := returnType;
                  Function_IdentityArguments := identityArguments;
                  Function_Database := dbName |}).

Definition scanSequence (dbName : string) : list pgvalue -> res Sequence :=
  Scan 5 (oid ← dest scan_uint32; name ← dest scan_string; schema ← dest scan_string;
          owner ← dest scan_string; dataType ← dest scan_string;
          mret {| Sequence_Oid := oid; Sequence_Name := name; Sequence_Schema := schema;
                  Sequence_Owner := owner; Sequence_DataType := dataType;
                  Sequence_Database := dbName |}).

Definition scanAvailableExtension : list pgvalue -> res AvailableExtension :=
  Scan 2 (name ← dest scan_string; defaultVersion ← dest scan_string;
          mret {| AvailableExtension_Name := name;
                  AvailableExtension_DefaultVersion := defaultVersion |}).

Definition scanInstalledExtension (dbName : string) : list pgvalue -> res InstalledExtension :=
  Scan 4 (oid ← dest scan_uint32; name ← dest scan_string; version ← dest scan_string;
          schema ← dest scan_string;
          mret {| InstalledExtension_Oid := oid; InstalledExtension_Name := name;
                  InstalledExtension_Version := version; InstalledExtension_Schema := schema;
                  InstalledExtension_Database := dbName |}).

Definition scanSchema (dbName : string) : list pgvalue -> res Schema :=
  Scan 3 (oid ← dest scan_uint32; name ← dest scan_string; owner ← dest scan_string;
          mret {| Schema_Oid := oid; Schema_Name := name; Schema_Owner := owner;
                  Schema_Database := dbName |}).

(** ** The default pool *)

Definition ListDatabases (s : Store) : io (res (list Database)) :=
  rows ← perform (EQuery (Store_pool s) queryDatabases);
  match rows with
  | inl err => Ret (inl err)
  | inr rows =>
      defer (perform (ERowsClose (rows_id rows)))
        (Ret (for_rows scanDatabase (rows_data rows) []))
  end.

Definition GetServerInfo (s : Store) : io (res ServerInfo) :=
  QueryRow_Scan (Store_pool s) queryServerInfo scanServerInfo.

Definition listAvailableExtensions (s : Store) : io (res (list AvailableExtension)) :=
  rows ← perform (EQuery (Store_pool s) queryAvailableExtensions);
  match rows with
  | inl err => Ret (inl (Errorf "query available extensions: %w" [AErr err]))
  | inr rows =>
      defer (perform (ERowsClose (rows_id rows))) (Ret (
        extensions ← for_rows (fun row => wrap_err
          (fun err => Errorf "scan available extension: %w" [AErr err])
          (scanAvailableExtension row)) (rows_data rows) [];
        match rows_Err rows with
        | Some err => inl (Errorf "iterate available extensions: %w" [AErr err])
        | None => inr extensions
        end))
  end.

(** ** One database *)

Definition listFunctionsForDatabase (s : Store) (dbName : string) : io (res (list Function)) :=
  err ← Acquire dbName;
  match err with
  | Some err => Ret (inl (Errorf "acquire connection to %q: %w" [AStr dbName; AErr err]))
  | None =>
    defer (Release dbName) (
      pool ← perform (EPoolNew (Store_connStrFor s dbName));
      match pool with
      | inl err => Ret (inl (Errorf "connect to %q for functions: %w" [AStr dbName; AErr err]))
      | inr pool =>
        defer (perform (EPoolClose pool)) (
          rows ← perform (EQuery pool queryFunctions);
          match rows with
          | inl err => Ret (inl (Errorf "query functions in database %q: %w" [AStr dbName; AErr err]))
          | inr rows =>
            defer (perform (ERowsClose (rows_id rows))) (Ret (
              functions ← for_rows (fun row => wrap_err
                (fun err => Errorf "query functions in database %q: %w" [AStr dbName; AErr err])
                (scanFunction dbName row)) (rows_data rows) [];
              match rows_Err rows with
              | Some err => inl (Errorf "iterate functions in database %q: %w" [AStr dbName; AErr err])
              | None => inr functions
              end))
          end)
      end)
  end.

Definition listSequencesForDatabase (s : Store) (dbName : string) : io (res (list Sequence)) :=
  err ← Acquire dbName;
  match err with
  | Some err => Ret (inl (Errorf "acquire connection to %q: %w" [AStr dbName; AErr err]))
  | None =>
    defer (Release dbName) (
      pool ← perform (EPoolNew (Store_connStrFor s dbName));
      match pool with
      | inl err => Ret (inl (Errorf "connect to %q for installed extensions: %w" [AStr dbName; AErr err]))
      | inr pool =>
        defer (perform (EPoolClose pool)) (
          rows ← perform (EQuery pool querySequences);
          match rows with
          | inl err => Ret (inl (Errorf "query installed extensions in database %q: %w" [AStr dbName; AErr err]))
          | inr rows =>
            defer (perform (ERowsClose (rows_id rows))) (Ret (
              sequences ← for_rows (fun row => wrap_err
                (fun err => Errorf "query sequences in database %q: %w" [AStr dbName; AErr err])
                (scanSequence dbName row)) (rows_data rows) [];
              match rows_Err rows with
              | Some err => inl (Errorf "iterate installed extensions in database %q: %w" [AStr dbName; AErr err])
              | None => inr sequences
              end))
          end)
      end)
  end.

Definition listInstalledExtensionsForDatabase (s : Store) (dbName : string) : io (res (list InstalledExtension)) :=
  err ← Acquire dbName;
  match err with
  | Some err => Ret (inl (Errorf "acquire connection to %q: %w" [AStr dbName; AErr err]))
  | None =>
    defer (Release dbName) (
      pool ← perform (EPoolNew (Store_connStrFor s dbName));
      match pool with
      | inl err => Ret (inl (Errorf "connect to %q for installed extensions: %w" [AStr dbName; AErr err]))
      | inr pool =>
        defer (perform (EPoolClose pool)) (
          rows ← perform (EQuery pool queryListInstalledExtensions);
          match rows with
          | inl err => Ret (inl (Errorf "query installed extensions in database %q: %w" [AStr dbName; AErr err]))
          | inr rows =>
            defer (perform (ERowsClose (rows_id rows))) (Ret (
              extensions ← for_rows (fun row => wrap_err
                (fun err => Errorf "query installed extensions in database %q: %w" [AStr dbName; AErr err])
                (scanInstalledExtension dbName row)) (rows_data rows) [];
              match rows_Err rows with
              | Some err => inl (Errorf "iterate installed extensions in database %q: %w" [AStr dbName; AErr err])
              | None => inr extensions
              end))
          end)
      end)
  end.

Definition listSchemasForDatabase (s : Store) (dbName : string) : io (res (list Schema)) :=
  err ← Acquire dbName;
  match err with
  | Some err => Ret (inl (Errorf "acquire connection to %q: %w" [AStr dbName; AErr err]))
  | None =>
    defer (Release dbName) (
      pool ← perform (EPoolNew (Store_connStrFor s dbName));
      match pool with
      | inl err => Ret (inl (Errorf "connect to %q for schemas: %w" [AStr dbName; AErr err]))
      | inr pool =>
        defer (perform (EPoolClose pool)) (
          rows ← perform (EQuery pool queryListSchemas);
          match rows with
          | inl err => Ret (inl (Errorf "query schemas in database %q: %w" [AStr dbName; AErr err]))
          | inr rows =>
            defer (perform (ERowsClose (rows_id rows))) (Ret (
              schemas ← for_rows (fun row => wrap_err
                (fun err => Errorf "query schemas in database %q: %w" [AStr dbName; AErr err])
                (scanSchema dbName row)) (rows_data rows) [];
              match rows_Err rows with
              | Some err => inl (Errorf "iterate schemas in database %q: %w" [AStr dbName; AErr err])
              | None => inr schemas
              end))
          end)
      end)
  end.

(** ** All databases *)

Definition ListSchemas (s : Store) : task (res (list Schema)) :=
  databases ← call (ListDatabases s);
  match databases with
  | inl err => TRet (inl err)
  | inr databases =>
      all ← forEachDatabase databases (listSchemasForDatabase s);
      match all with
      | inl err => TRet (inl err)
      | inr all => TRet (inr all)
      end
  end.

Definition ListSequences (s : Store) : task (res (list Sequence)) :=
  databases ← call (ListDatabases s);
  match databases with
  | inl err => TRet (inl err)
  | inr databases =>
      all ← forEachDatabase databases (listSequencesForDatabase s);
      match all with
      | inl err => TRet (inl err)
      | inr all => TRet (inr all)
      end
  end.

Definition ListFunctions (s : Store) : task (res (list Function)) :=
  databases ← call (ListDatabases s);
  match databases with
  | inl err => TRet (inl err)
  | inr databases =>
      all ← forEachDatabase databases (listFunctionsForDatabase s);
      match all with
      | inl err => TRet (inl err)
      | inr all => TRet (inr all)
      end
  end.

Definition ListExtensions (s : Store)
    : task (res (list AvailableExtension * list InstalledExtension)) :=
  availableExtensions ← call (listAvailableExtensions s);
  match availableExtensions with
  | inl err => TRet (inl err)
  | inr availableExtensions =>
      databases ← call (ListDatabases s);
      match databases with
      | inl err => TRet (inl err)
      | inr databases =>
          installedExtensions ← forEachDatabase databases (listInstalledExtensionsForDatabase s);
          match installedExtensions with
          | inl err => TRet (inl err)
          | inr installedExtensions => TRet (inr (availableExtensions, installedExtensions))
          end
      end
  end.
End store.
