(* ===== verification/StoreSpec.v ===== *)
(** * What the store functions return and release

    [listing] is the abstract specification of the functions that list one
    database: which answers of pgx lead to which result or error.  Every such
    function satisfies it from a goroutine that holds nothing, and leaves the
    goroutine holding nothing ([wp_listing]).  The fan-out functions are specified
    on top of it. *)

From S2P Require Import Prelude GoStrings GoRegexp Types Runtime Logic Coordinator FanOut System Scan Store.

(** ** Rows

    What a row must hold to be read as a record: one value per column, each of
    the field's type, and the database it was read from. *)
Section rows.
Context `{S : Scanner}.

Definition scanDatabase_row (row : list pgvalue) (x : Database) : Prop :=
  exists v1 v2, row = [v1; v2] /\
    scan_string v1 = inr (Database_Name x) /\
    scan_uint32 v2 = inr (Database_Oid x).

Definition scanServerInfo_row (row : list pgvalue) (x : ServerInfo) : Prop :=
  exists v1 v2 v3 v4 v5 v6 v7 v8 v9 v10 v11, row = [v1; v2; v3; v4; v5; v6; v7; v8; v9; v10; v11] /\
    scan_bool v1 = inr (ServerInfo_IsInRecovery x) /\
    scan_string v2 = inr (ServerInfo_IsReadOnly x) /\
    scan_string v3 = inr (ServerInfo_SslEnabled x) /\
    scan_int32 v4 = inr (ServerInfo_Port x) /\
    scan_int32 v5 = inr (ServerInfo_MaxConnections x) /\
    scan_string v6 = inr (ServerInfo_ArchiveMode x) /\
    scan_string v7 = inr (ServerInfo_WalLevel x) /\
    scan_string v8 = inr (ServerInfo_DataDirectory x) /\
    scan_int64 v9 = inr (ServerInfo_SystemIdentifier x) /\
    scan_int8 v10 = inr (ServerInfo_TimelineID x) /\
    scan_string v11 = inr (ServerInfo_PgVersion x).

Definition scanFunction_row (db : string) (row : list pgvalue) (x : Function) : Prop :=
  exists v1 v2 v3 v4 v5 v6 v7, row = [v1; v2; v3; v4; v5; v6; v7] /\
    scan_uint32 v1 = inr (Function_Oid x) /\
    scan_string v2 = inr (Function_Name x) /\
    scan_string v3 = inr (Function_Schema x) /\
    scan_string v4 = inr (Function_Owner x) /\
    scan_string v5 = inr (Function_Language x) /\
    scan_string v6 = inr (Function_ReturnType x) /\
    scan_string v7 = inr (Function_IdentityArguments x) /\ Function_Database x = db.

Definition scanSequence_row (db : string) (row : list pgvalue) (x : Sequence) : Prop :=
  exists v1 v2 v3 v4 v5, row = [v1; v2; v3; v4; v5] /\
    scan_uint32 v1 = inr (Sequence_Oid x) /\
    scan_string v2 = inr (Sequence_Name x) /\
    scan_string v3 = inr (Sequence_Schema x) /\
    scan_string v4 = inr (Sequence_Owner x) /\
    scan_string v5 = inr (Sequence_DataType x) /\ Sequence_Database x = db.

Definition scanAvailableExtension_row (row : list pgvalue) (x : AvailableExtension) : Prop :=
  exists v1 v2, row = [v1; v2] /\
    scan_string v1 = inr (AvailableExtension_Name x) /\
    scan_string v2 = inr (AvailableExtension_DefaultVersion x).

Definition scanInstalledExtension_row (db : string) (row : list pgvalue) (x : InstalledExtension) : Prop :=
  exists v1 v2 v3 v4, row = [v1; v2; v3; v4] /\
    scan_uint32 v1 = inr (InstalledExtension_Oid x) /\
    scan_string v2 = inr (InstalledExtension_Name x) /\
    scan_string v3 = inr (InstalledExtension_Version x) /\
    scan_string v4 = inr (InstalledExtension_Schema x) /\ InstalledExtension_Database x = db.

Definition scanSchema_row (db : string) (row : list pgvalue) (x : Schema) : Prop :=
  exists v1 v2 v3, row = [v1; v2; v3] /\
    scan_uint32 v1 = inr (Schema_Oid x) /\
    scan_string v2 = inr (Schema_Name x) /\
    scan_string v3 = inr (Schema_Owner x) /\ Schema_Database x = db.

Lemma scanDatabase_iff row x : scanDatabase row = inr x <-> scanDatabase_row row x.
Proof. unfold scanDatabase, scanDatabase_row. scan_row. by destruct x. Qed.

Lemma scanServerInfo_iff row x : scanServerInfo row = inr x <-> scanServerInfo_row row x.
Proof. unfold scanServerInfo, scanServerInfo_row. scan_row. by destruct x. Qed.

Lemma scanFunction_iff db row x : scanFunction db row = inr x <-> scanFunction_row db row x.
Proof. unfold scanFunction, scanFunction_row. scan_row. by destruct x. Qed.

Lemma scanSequence_iff db row x : scanSequence db row = inr x <-> scanSequence_row db row x.
Proof. unfold scanSequence, scanSequence_row. scan_row. by destruct x. Qed.

Lemma scanAvailableExtension_iff row x : scanAvailableExtension row = inr x <-> scanAvailableExtension_row row x.
Proof. unfold scanAvailableExtension, scanAvailableExtension_row. scan_row. by destruct x. Qed.

Lemma scanInstalledExtension_iff db row x : scanInstalledExtension db row = inr x <-> scanInstalledExtension_row db row x.
Proof. unfold scanInstalledExtension, scanInstalledExtension_row. scan_row. by destruct x. Qed.

Lemma scanSchema_iff db row x : scanSchema db row = inr x <-> scanSchema_row db row x.
Proof. unfold scanSchema, scanSchema_row. scan_row. by destruct x. Qed.

End rows.

(** ** Stanza names *)

(** What may follow the first character of a stanza name. *)
Definition is_stanza_char (c : ascii) : bool :=
  is_alnum c || bool_decide (c = "_"%char) || bool_decide (c = "-"%char).

Lemma in_letters c : in_class letters c = is_alpha c.
Proof. by destruct c as [[] [] [] [] [] [] [] []]. Qed.

Lemma in_stanza_chars c : in_class stanza_chars c = is_stanza_char c.
Proof. by destruct c as [[] [] [] [] [] [] [] []]. Qed.

(** C31: a text is a valid stanza name exactly if it is one ASCII letter followed by
    at most 62 ASCII letters, digits, underscores and hyphens: the whole text,
    with no newline or anything else after it. *)
Theorem isValidStanzaName_spec s :
  isValidStanzaName s = true <->
  exists c rest, s2b s = c :: rest /\ is_alpha c = true /\
    forallb is_stanza_char rest = true /\ length rest <= 62.
Proof.
  unfold isValidStanzaName, stanzaNamePattern. rewrite MatchString_begin. split.
  - intros (b' & s' & H). inversion H as [| | | |? ? ? ? b1 s1 ? ? H1 H2|]; subst.
    inversion H1 as [| | |cc mi ma b d s2 Hd Hmi Hma| |]; subst.
    inversion H2 as [| | | |? ? ? ? b2 s2' ? ? H3 H4|]; subst.
    inversion H3 as [| | |cc mi ma b d2 s3 Hd2 Hmi2 Hma2| |]; subst. inversion H4; subst.
    destruct d as [|c [|c' d]]; simpl in Hmi, Hma; [lia| |done]. exists c, d2.
    rewrite app_nil_r in *. cbn [forallb] in Hd. rewrite andb_true_r, in_letters in Hd. split; [done|]. split; [done|]. split.
    + rewrite <- Hd2. clear. induction d2 as [|a d2 IH]; [done|]. cbn [forallb]. by rewrite IH, in_stanza_chars.
    + by apply Nat.leb_le.
  - intros (c & rest & -> & Hc & Hr & Hl). rewrite <- (app_nil_r rest). eexists _, _.
    eapply m_seq; [apply (m_rep _ _ _ _ [c])|]; [cbn [forallb]; by rewrite in_letters, Hc|done|done|].
    eapply m_seq; [|apply m_end].
    apply m_rep; [|lia|by apply Nat.leb_le].
    rewrite <- Hr. clear. induction rest as [|a rest IH]; [done|]. cbn [forallb]. by rewrite IH, in_stanza_chars.
Qed.

(** ** NewStore *)
Section new_store.
Context `{S : Scanner}.

(** What a query for one text setting gives. *)
Definition setting (c sql : string) (r : res string) : Prop :=
  exists a, row_answer c sql a /\
    r = match a with inl e => inl e | inr row => Scan 1 (dest scan_string) row end.

Lemma NewStore_runs ctx h p connStrFor c h' r :
  h_pools h !! p = Some c ->
  runs ctx h (NewStore p connStrFor) h' r <-> h' = h /\
  ((exists err, setting c queryStanza (inl err) /\
      r = inl (Errorf "failed to load stanza: %w" [AErr err])) \/
   (exists stanza, setting c queryStanza (inr stanza) /\ isValidStanzaName stanza = false /\
      r = inl (Errorf "invalid stanza name: %q" [AStr stanza])) \/
   (exists stanza, setting c queryStanza (inr stanza) /\ isValidStanzaName stanza = true /\
      ((exists err, setting c queryClusterName (inl err) /\
          r = inl (Errorf "failed to load cluster_name: %w" [AErr err])) \/
       (exists name, setting c queryClusterName (inr name) /\
          r = inr (MkStore p connStrFor (MkConnectionCoordinator ∅ false) stanza name))))).
Proof.
  intros Hp. unfold NewStore, QueryRow_Scan. simpl. unfold setting. split.
  - intros (a & h1 & [-> Ha] & H). rewrite Hp in Ha.
    destruct (match a with inl e => inl e | inr row => _ end) as [err|stanza] eqn:Er; simpl in H.
    { destruct H as [-> ->]. split; [done|]. left. eauto. }
    destruct (isValidStanzaName stanza) eqn:Ev; simpl in H; [|destruct H as [-> ->]; eauto 10].
    destruct H as (b & h2 & [-> Hb] & H). rewrite Hp in Hb.
    destruct (match b with inl e => inl e | inr row => _ end) as [err|name] eqn:Er2; simpl in H;
      destruct H as [-> ->]; (split; [done|]); right; right; exists stanza; eauto 10.
  - intros [-> [(err & (a & Ha & Er) & ->)|[(stanza & (a & Ha & Er) & Ev & ->)|(stanza & (a & Ha & Er) & Ev & Hr)]]];
      exists a, h; rewrite Hp, <- Er; (split; [done|]); simpl; rewrite ?Ev; simpl; [done..|].
    destruct Hr as [(err & (b & Hb & Er2) & ->)|(name & (b & Hb & Er2) & ->)];
      exists b, h; rewrite Hp, <- Er2; done.
Qed.

(** C30: NewStore reads the stanza, checks its name, and only then reads the cluster
    name; each of the three can fail with its own error, and a store is returned
    only with a valid stanza name, an empty coordinator and the given pool. *)
Theorem NewStore_spec ctx h p connStrFor c h' r :
  h_pools h !! p = Some c ->
  runs ctx h (NewStore p connStrFor) h' r <-> h' = h /\
  ((exists err, setting c queryStanza (inl err) /\
      r = inl (Errorf "failed to load stanza: %w" [AErr err])) \/
   (exists stanza, setting c queryStanza (inr stanza) /\ isValidStanzaName stanza = false /\
      r = inl (Errorf "invalid stanza name: %q" [AStr stanza])) \/
   (exists stanza, setting c queryStanza (inr stanza) /\ isValidStanzaName stanza = true /\
      ((exists err, setting c queryClusterName (inl err) /\
          r = inl (Errorf "failed to load cluster_name: %w" [AErr err])) \/
       (exists name, setting c queryClusterName (inr name) /\
          r = inr (MkStore p connStrFor (MkConnectionCoordinator ∅ false) stanza name))))).
Proof. apply NewStore_runs. Qed.
End new_store.

Section spec.
Context `{S : Scanner}.
Variable s : Store.
Variable dsn : string.

(** The connections of the store: its pool, that pool's connection string, and
    the connection string of a database. *)
#[local] Instance store_cfg : ConnCfg :=
  {| default_pool := Store_pool s; default_conn := dsn; conn_str_for := Store_connStrFor s |}.

(** ** Listing one database *)

(** The texts of the errors of one listing function. *)
Record messages := Messages { m_connect : string; m_query : string; m_iterate : string }.

Definition rows_ok {T} (row : list pgvalue -> res T) (rows : list (list pgvalue)) (items : list T) : Prop :=
  Forall2 (fun r x => row r = inr x) rows items.

(** The error of a row as the function reports it. *)
Definition in_database {T} (format : string) (row : string -> list pgvalue -> res T) (db : string)
    (r : list pgvalue) : res T :=
  wrap_err (fun err => Errorf format [AStr db; AErr err]) (row db r).

Lemma rows_unwrapped {T} f (row : list pgvalue -> res T) rows items :
  rows_ok (fun r => wrap_err f (row r)) rows items -> rows_ok row rows items.
Proof. intros HF. eapply Forall2_impl; [exact HF|]. intros r x. simpl. by destruct (row r). Qed.

Lemma wrapped_inr {T} f (r : res T) x : wrap_err f r = inr x <-> r = inr x.
Proof. by destruct r. Qed.

Section listing.
Context {T U : Type}.
Variable sql : string.
Variable m : messages.
Variable row : string -> list pgvalue -> res T. (** reads a row of this database *)
Variable finish : string -> list T -> list U.   (** makes the result of its rows *)

(** The result of listing [db], by what pgx answered. *)
Inductive listing (db : string) : res (list U) -> Prop :=
| l_acquire err :
    listing db (inl (Errorf "acquire connection to %q: %w" [AStr db; AErr err]))
| l_connect err :
    new_answer (Store_connStrFor s db) (Some err) ->
    listing db (inl (Errorf (m_connect m) [AStr db; AErr err]))
| l_query err :
    new_answer (Store_connStrFor s db) None ->
    query_answer (Store_connStrFor s db) sql (inl err) ->
    listing db (inl (Errorf (m_query m) [AStr db; AErr err]))
| l_scan rows1 r rows2 o items err :
    new_answer (Store_connStrFor s db) None ->
    query_answer (Store_connStrFor s db) sql (inr (rows1 ++ r :: rows2, o)) ->
    rows_ok (row db) rows1 items -> row db r = inl err -> listing db (inl err)
| l_iterate rows items err :
    new_answer (Store_connStrFor s db) None ->
    query_answer (Store_connStrFor s db) sql (inr (rows, Some err)) -> rows_ok (row db) rows items ->
    listing db (inl (Errorf (m_iterate m) [AStr db; AErr err]))
| l_ok rows items :
    new_answer (Store_connStrFor s db) None ->
    query_answer (Store_connStrFor s db) sql (inr (rows, None)) -> rows_ok (row db) rows items ->
    listing db (inr (finish db items)).

(** The common shape of the functions: permit, pool, result set, rows. *)
Definition listing_prog (dbName : string) : io (res (list U)) :=
  err ← Acquire dbName;
  match err with
  | Some err => Ret (inl (Errorf "acquire connection to %q: %w" [AStr dbName; AErr err]))
  | None =>
    defer (Release dbName) (
      pool ← perform (EPoolNew (Store_connStrFor s dbName));
      match pool with
      | inl err => Ret (inl (Errorf (m_connect m) [AStr dbName; AErr err]))
      | inr pool =>
        defer (perform (EPoolClose pool)) (
          rows ← perform (EQuery pool sql);
          match rows with
          | inl err => Ret (inl (Errorf (m_query m) [AStr dbName; AErr err]))
          | inr rows =>
            defer (perform (ERowsClose (rows_id rows))) (Ret (
              items ← for_rows (row dbName) (rows_data rows) [];
              match rows_Err rows with
              | Some err => inl (Errorf (m_iterate m) [AStr dbName; AErr err])
              | None => inr (finish dbName items)
              end))
          end)
      end)
  end.

Lemma listing_rows db rows :
  new_answer (Store_connStrFor s db) None ->
  query_answer (Store_connStrFor s db) sql (inr (rows_data rows, rows_Err rows)) ->
  listing db (
    items ← for_rows (row db) (rows_data rows) [];
    match rows_Err rows with
    | Some err => inl (Errorf (m_iterate m) [AStr db; AErr err])
    | None => inr (finish db items)
    end).
Proof.
  intros Hn Hq. destruct (for_rows _ _ _) as [e|items] eqn:E; simpl.
  - apply for_rows_inl in E as (rows1 & r & rows2 & zs & Hr & He & HF). rewrite Hr in Hq.
    by eapply l_scan.
  - apply for_rows_inr in E as (zs & -> & HF). simpl.
    destruct (rows_Err rows); [by eapply l_iterate|by eapply l_ok].
Qed.

(** Listing a database returns as [listing] says, whatever other goroutines do,
    and on every path gives back what it took: mutex, permit, pool, rows. *)
Lemma wp_listing dbName :
  wp (listing_prog dbName) (fun r st => clean st /\ listing dbName r) idle.
Proof.
  unfold listing_prog. apply wp_bind, wp_Acquire; [done|done| |].
  { intros kn err. cbn. split; [done|]. apply l_acquire. }
  intros kn ch. apply wp_defer, wp_bind, wp_perform. cbn.
  split; [done|]. split; [done|]. split; [by exists dbName, ch|].
  split; [intros err Hn|intros p Hn].
  { eapply wp_Release; [done..|]. intros kn'. split; [done|]. by apply l_connect. }
  apply wp_defer, wp_perform. cbn. split; [done|]. split; [done|].
  exists (Store_connStrFor s dbName). split; [right; split; [done|by exists dbName, ch]|].
  split; [intros err Hq|intros rows Hq].
  { split; [done|]. split; [done|]. split; [done|].
    eapply wp_Release; [done..|]. intros kn'. split; [done|]. by apply l_query. }
  apply wp_defer. cbn. split; [done|]. eexists. split; [done|]. split; [done|]. split; [done|]. split; [done|].
  eapply wp_Release; [done..|]. intros kn'. split; [done|]. by apply listing_rows.
Qed.
End listing.

(** The four listing functions of store.go have that shape. *)
Definition schema_messages := Messages "connect to %q for schemas: %w"
  "query schemas in database %q: %w" "iterate schemas in database %q: %w".
Definition sequence_messages := Messages "connect to %q for installed extensions: %w"
  "query installed extensions in database %q: %w" "iterate installed extensions in database %q: %w".
Definition function_messages := Messages "connect to %q for functions: %w"
  "query functions in database %q: %w" "iterate functions in database %q: %w".
Definition extension_messages := Messages "connect to %q for installed extensions: %w"
  "query installed extensions in database %q: %w" "iterate installed extensions in database %q: %w".

(** The rows are the result. *)
Definition as_read {T} (_ : string) (l : list T) : list T := l.

Definition schema_listing := listing queryListSchemas schema_messages
  (in_database "query schemas in database %q: %w" scanSchema) as_read.
Definition sequence_listing := listing querySequences sequence_messages
  (in_database "query sequences in database %q: %w" scanSequence) as_read.
Definition function_listing := listing queryFunctions function_messages
  (in_database "query functions in database %q: %w" scanFunction) as_read.
Definition extension_listing := listing queryListInstalledExtensions extension_messages
  (in_database "query installed extensions in database %q: %w" scanInstalledExtension) as_read.

Lemma wp_listSchemas db :
  wp (listSchemasForDatabase s db) (fun r st => clean st /\ schema_listing db r) idle.
Proof. exact (wp_listing _ _ _ _ db). Qed.

Lemma wp_listSequences db :
  wp (listSequencesForDatabase s db) (fun r st => clean st /\ sequence_listing db r) idle.
Proof. exact (wp_listing _ _ _ _ db). Qed.

Lemma wp_listFunctions db :
  wp (listFunctionsForDatabase s db) (fun r st => clean st /\ function_listing db r) idle.
Proof. exact (wp_listing _ _ _ _ db). Qed.

Lemma wp_listExtensions db :
  wp (listInstalledExtensionsForDatabase s db) (fun r st => clean st /\ extension_listing db r) idle.
Proof. exact (wp_listing _ _ _ _ db). Qed.

(** ** The default pool *)

(** ListDatabases: a query error or the first row that does not scan is returned
    as it is.  The error of the iteration, [o], is not looked at. *)
Inductive databases_result : res (list Database) -> Prop :=
| d_query err : query_answer dsn queryDatabases (inl err) -> databases_result (inl err)
| d_scan rows1 r rows2 o items err :
    query_answer dsn queryDatabases (inr (rows1 ++ r :: rows2, o)) ->
    rows_ok scanDatabase rows1 items -> scanDatabase r = inl err -> databases_result (inl err)
| d_ok rows o items :
    query_answer dsn queryDatabases (inr (rows, o)) ->
    rows_ok scanDatabase rows items -> databases_result (inr items).

Lemma wp_ListDatabases Φ :
  (forall r, databases_result r -> forall st, clean st -> Φ r st) -> wp (ListDatabases s) Φ idle.
Proof.
  intros HΦ. unfold ListDatabases. apply wp_bind, wp_perform. cbn.
  split; [done|]. split; [done|]. exists dsn. split; [by left|].
  split; [intros err Hq|intros rows Hq]; [by apply HΦ; [apply d_query|]|].
  apply wp_defer. cbn. split; [done|]. eexists. split; [done|]. apply HΦ; [|done].
  destruct (for_rows _ _ _) as [e|items] eqn:E.
  - apply for_rows_inl in E as (rows1 & r & rows2 & zs & Hr & He & HF). rewrite Hr in Hq.
    by eapply d_scan.
  - apply for_rows_inr in E as (zs & -> & HF). by eapply d_ok.
Qed.

Inductive server_info_result : res ServerInfo -> Prop :=
| i_query err : row_answer dsn queryServerInfo (inl err) -> server_info_result (inl err)
| i_row r : row_answer dsn queryServerInfo (inr r) -> server_info_result (scanServerInfo r).

Lemma wp_GetServerInfo Φ :
  (forall r, server_info_result r -> Φ r idle) -> wp (GetServerInfo s) Φ idle.
Proof.
  intros HΦ. unfold GetServerInfo, QueryRow_Scan. apply wp_bind, wp_perform. cbn.
  split; [done|]. exists dsn. split; [by left|]. intros [err|r] Ha; apply HΦ.
  - by apply i_query.
  - by apply i_row.
Qed.

Inductive available_result : res (list AvailableExtension) -> Prop :=
| a_query err :
    query_answer dsn queryAvailableExtensions (inl err) ->
    available_result (inl (Errorf "query available extensions: %w" [AErr err]))
| a_scan rows1 r rows2 o items err :
    query_answer dsn queryAvailableExtensions (inr (rows1 ++ r :: rows2, o)) ->
    rows_ok scanAvailableExtension rows1 items -> scanAvailableExtension r = inl err ->
    available_result (inl (Errorf "scan available extension: %w" [AErr err]))
| a_iterate rows items err :
    query_answer dsn queryAvailableExtensions (inr (rows, Some err)) ->
    rows_ok scanAvailableExtension rows items ->
    available_result (inl (Errorf "iterate available extensions: %w" [AErr err]))
| a_ok rows items :
    query_answer dsn queryAvailableExtensions (inr (rows, None)) ->
    rows_ok scanAvailableExtension rows items -> available_result (inr items).

Lemma wp_listAvailableExtensions Φ :
  (forall r, available_result r -> forall st, clean st -> Φ r st) ->
  wp (listAvailableExtensions s) Φ idle.
Proof.
  intros HΦ. unfold listAvailableExtensions. apply wp_bind, wp_perform. cbn.
  split; [done|]. split; [done|]. exists dsn. split; [by left|].
  split; [intros err Hq|intros rows Hq]; [by apply HΦ; [apply a_query|]|].
  apply wp_defer. cbn. split; [done|]. eexists. split; [done|]. apply HΦ; [|done].
  destruct (for_rows _ _ _) as [e|items] eqn:E; simpl.
  - apply for_rows_inl in E as (rows1 & r & rows2 & zs & Hr & He & HF). rewrite Hr in Hq.
    destruct (scanAvailableExtension r) as [err|] eqn:Er; simplify_eq/=.
    eapply a_scan; [exact Hq|exact (rows_unwrapped _ _ _ _ HF)|exact Er].
  - apply for_rows_inr in E as (zs & -> & HF). apply rows_unwrapped in HF. simpl.
    destruct (rows_Err rows); [by eapply a_iterate|by eapply a_ok].
Qed.

(** ** All databases *)

(** What listing all databases gives: the items of every database with an
    allowed connection, those of one together, in any order of databases, or an
    error if the list of databases or any of them could not be read. *)
Definition fanned {T} (one : string -> res (list T) -> Prop) (r : res (list T)) : Prop :=
  match r with
  | inr l => exists databases order per, databases_result (inr databases) /\ databases ≡ₚ order /\
      Forall2 (fun db items => one (Database_Name db) (inr items)) order per /\ l = concat per
  | inl e => databases_result (inl e) \/
      exists databases failed errs, databases_result (inr databases) /\
        failed ⊆+ databases /\ errs <> [] /\
        Forall2 (fun db err => one (Database_Name db) (inl err)) failed errs /\
        e = fan_error errs (length databases)
  end.

Lemma twp_fanned {T} (fn : string -> io (res (list T))) one {B} (k : res (list T) -> task B) Φ :
  (forall db, wp (fn db) (fun r st => clean st /\ one db r) idle) ->
  (forall r, fanned one r -> twp (k r) Φ) ->
  twp (databases ← call (ListDatabases s);
       match databases with
       | inl err => k (inl err)
       | inr databases => all ← forEachDatabase databases fn; k all
       end) Φ.
Proof.
  intros Hfn Hk. apply twp_bind, twp_call, wp_ListDatabases. intros d Hd st Hst. split; [done|].
  destruct d as [err|databases]; [apply Hk; by left|].
  apply twp_bind, (twp_forEachDatabase _ _ one); [by intros|].
  intros r Hr. apply Hk. destruct r as [e|l]; simpl.
  - right. apply fan_result_inl in Hr as (failed & errs & ? & ? & ? & ?). eauto 10.
  - apply fan_result_inr in Hr as (order & per & ? & ? & ?). eauto 7.
Qed.

Lemma twp_ListSchemas : twp (ListSchemas s) (fanned schema_listing).
Proof.
  apply (twp_fanned _ _ (fun r => match r with inl err => TRet (inl err) | inr all => TRet (inr all) end)
    (fanned schema_listing) wp_listSchemas). by intros [].
Qed.

Lemma twp_ListSequences : twp (ListSequences s) (fanned sequence_listing).
Proof.
  apply (twp_fanned _ _ (fun r => match r with inl err => TRet (inl err) | inr all => TRet (inr all) end)
    (fanned sequence_listing) wp_listSequences). by intros [].
Qed.

Lemma twp_ListFunctions : twp (ListFunctions s) (fanned function_listing).
Proof.
  apply (twp_fanned _ _ (fun r => match r with inl err => TRet (inl err) | inr all => TRet (inr all) end)
    (fanned function_listing) wp_listFunctions). by intros [].
Qed.

(** The available extensions come first, from the default pool. *)
Definition extensions_result (r : res (list AvailableExtension * list InstalledExtension)) : Prop :=
  match r with
  | inr (available, installed) =>
      available_result (inr available) /\ fanned extension_listing (inr installed)
  | inl e => available_result (inl e) \/ fanned extension_listing (inl e)
  end.

Lemma twp_ListExtensions : twp (ListExtensions s) extensions_result.
Proof.
  apply twp_bind, twp_call, wp_listAvailableExtensions. intros a Ha st Hst. split; [done|].
  destruct a as [err|available]; [by left|].
  apply (twp_fanned _ _ (fun r => match r with
    | inl err => TRet (inl err) | inr installed => TRet (inr (available, installed)) end)
    extensions_result wp_listExtensions).
  intros [e|installed] Hr; simpl; [by right|done].
Qed.
End spec.
