(* ===== verification/Backrest.v ===== *)
(** * Backups (internal/extractor/store/pgbackrest.go)

    ListBackups runs pgbackrest and decodes what it prints.  The structs of
    types.go that it decodes into, with their json tags, are codecs. *)

From S2P Require Import Prelude GoStrings Types Json JsonDecode JsonCodec Runtime Logic Scan Store.

(** ** The structs and their tags *)

Definition PgbackrestDatabase_json : codec PgbackrestDatabase :=
  struct "PgbackrestDatabase"
    (fcons "id" (go_uint 8) $ fcons "repo-key" (go_uint 8) fnil)
    (fun '(Id, (RepoKey, _)) => MkPgbackrestDatabase Id RepoKey)
    (fun '(MkPgbackrestDatabase Id RepoKey) => (Id, (RepoKey, ()))).

Definition PgbackrestRepo_json : codec PgbackrestRepo :=
  struct "PgbackrestRepo"
    (fcons "delta" (go_uint 64) $ fcons "size" (go_uint 64) fnil)
    (fun '(Delta, (Size, _)) => MkPgbackrestRepo Delta Size)
    (fun '(MkPgbackrestRepo Delta Size) => (Delta, (Size, ()))).

#[export] Instance PgbackrestDatabase_lawful : Lawful PgbackrestDatabase_json.
Proof. struct_instance. Qed.
#[export] Instance PgbackrestRepo_lawful : Lawful PgbackrestRepo_json.
Proof. struct_instance. Qed.

Definition BackupSizeInfo_json : codec BackupSizeInfo :=
  struct "BackupSizeInfo"
    (fcons "delta" (go_uint 64) $ fcons "repository" PgbackrestRepo_json $
     fcons "size" (go_uint 64) fnil)
    (fun '(Delta, (Repository, (Size, _))) => MkBackupSizeInfo Delta Repository Size)
    (fun '(MkBackupSizeInfo Delta Repository Size) => (Delta, (Repository, (Size, ())))).

Definition BackupTimestamp_json : codec BackupTimestamp :=
  struct "BackupTimestamp"
    (fcons "start" (go_int 64) $ fcons "stop" (go_int 64) fnil)
    (fun '(Start, (Stop, _)) => MkBackupTimestamp Start Stop)
    (fun '(MkBackupTimestamp Start Stop) => (Start, (Stop, ()))).

#[export] Instance BackupSizeInfo_lawful : Lawful BackupSizeInfo_json.
Proof. struct_instance. Qed.
#[export] Instance BackupTimestamp_lawful : Lawful BackupTimestamp_json.
Proof. struct_instance. Qed.

Definition Backup_json : codec Backup :=
  struct "Backup"
    (fcons "label" go_string $ fcons "type" go_string $ fcons "timestamp" BackupTimestamp_json $
     fcons "info" BackupSizeInfo_json $ fcons "database" PgbackrestDatabase_json $
     fcons "error" go_bool fnil)
    (fun '(Label, (Type_, (Timestamp, (Info, (Database, (Error_, _)))))) =>
       MkBackup Label Type_ Timestamp Info Database Error_)
    (fun '(MkBackup Label Type_ Timestamp Info Database Error_) =>
       (Label, (Type_, (Timestamp, (Info, (Database, (Error_, ()))))))).

Definition PgbackrestDb_json : codec PgbackrestDb :=
  struct "PgbackrestDb"
    (fcons "version" go_string $ fcons "system-id" (go_uint 64) $ fcons "repo-key" (go_uint 8) $
     fcons "id" (go_uint 8) fnil)
    (fun '(Version, (SystemId, (RepoKey, (Id, _)))) => MkPgbackrestDb Version SystemId RepoKey Id)
    (fun '(MkPgbackrestDb Version SystemId RepoKey Id) => (Version, (SystemId, (RepoKey, (Id, ()))))).

#[export] Instance Backup_lawful : Lawful Backup_json.
Proof. struct_instance. Qed.
#[export] Instance PgbackrestDb_lawful : Lawful PgbackrestDb_json.
Proof. struct_instance. Qed.

Definition PgbackrestInfo_json : codec PgbackrestInfo :=
  struct "PgbackrestInfo"
    (fcons "name" go_string $ fcons "backup" (go_slice Backup_json) $
     fcons "db" (go_slice PgbackrestDb_json) fnil)
    (fun '(Name, (Backup, (Db, _))) => MkPgbackrestInfo Name Backup Db)
    (fun '(MkPgbackrestInfo Name Backup Db) => (Name, (Backup, (Db, ())))).

#[export] Instance PgbackrestInfo_lawful : Lawful PgbackrestInfo_json.
Proof. struct_instance. Qed.

Section backrest.
Context `{S : Scanner} `{E : JsonErrors}.

Definition parseBackrestInfo (data : string) : res (list PgbackrestInfo) :=
  match unmarshal (go_slice PgbackrestInfo_json) (s2b data) with
  | inl err => inl err
  | inr info => inr info
  end.

Definition ListBackups (s : Store) : io (res (list PgbackrestInfo)) :=
  data ← perform (EExec "pgbackrest" ["info"; "--stanza=" +:+ Store_Stanza s; "--output=json"]);
  match data with
  | inl err => Ret (inl (Errorf "pgbackrest info failed: %w" [AErr err]))
  | inr data => Ret (parseBackrestInfo data)
  end.
End backrest.

(** ** What comes out *)

(** Every integer is in the range of its Go type. *)
Definition Backup_wf (b : Backup) : Prop :=
  int64 (BackupTimestamp_Start (Backup_Timestamp b)) /\ int64 (BackupTimestamp_Stop (Backup_Timestamp b)) /\
  uint64 (BackupSizeInfo_Delta (Backup_Info b)) /\
  uint64 (PgbackrestRepo_Delta (BackupSizeInfo_Repository (Backup_Info b))) /\
  uint64 (PgbackrestRepo_Size (BackupSizeInfo_Repository (Backup_Info b))) /\
  uint64 (BackupSizeInfo_Size (Backup_Info b)) /\
  uint8 (PgbackrestDatabase_Id (Backup_Database b)) /\ uint8 (PgbackrestDatabase_RepoKey (Backup_Database b)).

Definition PgbackrestDb_wf (d : PgbackrestDb) : Prop :=
  uint64 (PgbackrestDb_SystemId d) /\ uint8 (PgbackrestDb_RepoKey d) /\ uint8 (PgbackrestDb_Id d).

Definition PgbackrestInfo_wf (i : PgbackrestInfo) : Prop :=
  Forall Backup_wf (PgbackrestInfo_Backup i) /\ Forall PgbackrestDb_wf (PgbackrestInfo_Db i).

Lemma Backup_wf_ok b : ok Backup_json b <-> Backup_wf b.
Proof. destruct b as [? ? [] [? [] ?] [] ?]. unfold Backup_wf, int64, uint64, uint8. simpl. tauto. Qed.

Lemma PgbackrestDb_wf_ok d : ok PgbackrestDb_json d <-> PgbackrestDb_wf d.
Proof. destruct d. unfold PgbackrestDb_wf, uint64, uint8. simpl. tauto. Qed.

Lemma PgbackrestInfo_wf_ok i : ok PgbackrestInfo_json i <-> PgbackrestInfo_wf i.
Proof.
  destruct i as [n bs ds]. unfold PgbackrestInfo_wf. simpl.
  rewrite (Forall_iff _ _ _ Backup_wf_ok), (Forall_iff _ _ _ PgbackrestDb_wf_ok). tauto.
Qed.

Section backrest_spec.
Context `{S : Scanner} `{E : JsonErrors}.

Definition backrest_args (s : Store) : list string :=
  ["info"; "--stanza=" +:+ Store_Stanza s; "--output=json"].

(** What ListBackups gives, by what the command answered. *)
Inductive backups_result (s : Store) : res (list PgbackrestInfo) -> Prop :=
| b_failed err :
    exec_answer "pgbackrest" (backrest_args s) (inl err) ->
    backups_result s (inl (Errorf "pgbackrest info failed: %w" [AErr err]))
| b_output data :
    exec_answer "pgbackrest" (backrest_args s) (inr data) ->
    backups_result s (parseBackrestInfo data).

Lemma wp_ListBackups `{C : ConnCfg} s Φ :
  (forall r, backups_result s r -> Φ r idle) -> wp (ListBackups s) Φ idle.
Proof.
  intros HΦ. unfold ListBackups. apply wp_bind, wp_perform. cbn. split; [done|].
  intros [err|data] Ha; apply HΦ; by constructor.
Qed.

Lemma parseBackrestInfo_unmarshal data :
  parseBackrestInfo data = unmarshal (go_slice PgbackrestInfo_json) (s2b data).
Proof. unfold parseBackrestInfo. by destruct (unmarshal _ _). Qed.

Lemma parseBackrestInfo_wf data info : parseBackrestInfo data = inr info -> Forall PgbackrestInfo_wf info.
Proof.
  rewrite parseBackrestInfo_unmarshal. intros H%(unmarshal_ok _).
  eapply Forall_impl; [exact H|]. apply PgbackrestInfo_wf_ok.
Qed.

(** C17: what pgbackrest prints is read as it is meant: a text whose JSON value shows
    the stanzas [info], with its objects' keys in any order and among any other keys,
    null or nothing for what is zero, and any blanks, is parsed to [info], provided
    the numbers fit their Go types. *)
Theorem parseBackrestInfo_reads data j info :
  parse (s2b data) = Some j -> shows (go_slice PgbackrestInfo_json) info j ->
  Forall PgbackrestInfo_wf info -> parseBackrestInfo data = inr info.
Proof.
  intros Hp Hj Hw. rewrite parseBackrestInfo_unmarshal. eapply (unmarshal_parse _); [|exact Hp|exact Hj].
  eapply Forall_impl; [exact Hw|]. apply PgbackrestInfo_wf_ok.
Qed.

(** C19: a number that does not fit is an error: if the JSON value of what pgbackrest
    prints shows stanzas some integer of which is out of the range of its Go type, too
    large or below 0, parsing fails, whatever else is in the text; the number is neither
    wrapped around nor cut off nor left out. *)
Theorem parseBackrestInfo_refuses data j info :
  parse (s2b data) = Some j -> shows (go_slice PgbackrestInfo_json) info j ->
  ~ Forall PgbackrestInfo_wf info ->
  parseBackrestInfo data = inl (unmarshal_error (ctype (go_slice PgbackrestInfo_json)) (s2b data)).
Proof.
  intros Hp Hj Hw. rewrite parseBackrestInfo_unmarshal. eapply (unmarshal_refuse _); [|exact Hp|exact Hj].
  intros H. apply Hw. eapply Forall_impl; [exact H|]. apply PgbackrestInfo_wf_ok.
Qed.
End backrest_spec.
