(* ===== verification/Tables.v ===== *)
(** * Tables (internal/extractor/store/tables.go)

    The query builds the parts of a table as jsonb, which listTablesForDatabase decodes
    into the structs of types.go: their tags are codecs.  [table_row] says what the
    query gives for a table, key by key as its jsonb_build_object calls have them;
    the main theorem is that reading that row gives the table back. *)

From S2P Require Import Prelude GoStrings Types Json JsonDecode JsonCodec Runtime Logic Coordinator FanOut System Scan Store StoreSpec.

Definition queryTables : string :=
"
WITH index_column_names AS (
    SELECT
        ix.indexrelid,
        ix.indrelid,
        array_agg(a.attname ORDER BY ord.n) AS columns
    FROM pg_index ix
    CROSS JOIN LATERAL UNNEST(ix.indkey::int[]) WITH ORDINALITY AS ord(attnum, n)
    JOIN pg_attribute a ON a.attrelid = ix.indrelid AND a.attnum = ord.attnum
    GROUP BY ix.indexrelid, ix.indrelid
),
index_data AS (
    SELECT
        ix.indrelid AS table_oid,
        ix.indexrelid AS index_oid,
        jsonb_build_object(
            'name', idx.relname,
            'type', am.amname,
            'columns', ic.columns,
            'is_unique', ix.indisunique,
            'is_primary', ix.indisprimary,
            'is_exclusion', ix.indisexclusion,
            'is_partial', (ix.indpred IS NOT NULL),
            'is_valid', ix.indisvalid,
            'is_inherited', EXISTS (
                SELECT 1
                FROM pg_inherits inh
                WHERE inh.inhrelid = ix.indexrelid
            ),
            'size_bytes', pg_relation_size(ix.indexrelid),
            'definition', pg_get_indexdef(ix.indexrelid)
            -- Note: Index scan statistics (idx_scan, idx_tup_read, idx_tup_fetch) are
            -- server-scoped and belong in GetIndexStats RPC, not ListTables.
        ) AS index_json
    FROM pg_index ix
    JOIN pg_class idx ON idx.oid = ix.indexrelid AND idx.relkind IN ('i', 'I')
    JOIN pg_class tbl ON tbl.oid = ix.indrelid
    JOIN pg_am am ON am.oid = idx.relam
    LEFT JOIN index_column_names ic ON ic.indexrelid = ix.indexrelid
    WHERE
        -- Only include indexes for tables we care about (user schemas)
        EXISTS (
            SELECT 1
            FROM pg_namespace n
            WHERE n.oid = tbl.relnamespace
            AND n.nspname NOT IN ('pg_catalog', 'information_schema', 'pg_toast')
            AND n.nspname NOT LIKE 'pg_temp_%'
            AND n.nspname NOT LIKE 'pg_toast_temp_%'
        )
),
index_agg AS (
    SELECT
        table_oid,
        jsonb_agg(index_json) AS indexes
    FROM index_data
    GROUP BY table_oid
),
constraint_data AS (
    SELECT
        con.conrelid,
        jsonb_agg(
            jsonb_build_object(
                'name', con.conname,
                'type', CASE con.contype
                    WHEN 'p' THEN 'primary_key'
                    WHEN 'u' THEN 'unique'
                    WHEN 'f' THEN 'foreign_key'
                    WHEN 'c' THEN 'check'
                    WHEN 'x' THEN 'exclusion'
                END,
                'local_columns', (
                    SELECT array_agg(att.attname ORDER BY ord.n)
                    FROM unnest(con.conkey) WITH ORDINALITY ord(attnum, n)
                    JOIN pg_attribute att ON att.attrelid = con.conrelid AND att.attnum = ord.attnum
                ),
                'foreign_table', CASE WHEN con.contype = 'f' THEN con.confrelid::regclass::text END,
                'foreign_columns', CASE WHEN con.contype = 'f' THEN (
                    SELECT array_agg(att.attname ORDER BY ord.n)
                    FROM unnest(con.confkey) WITH ORDINALITY ord(attnum, n)
                    JOIN pg_attribute att ON att.attrelid = con.confrelid AND att.attnum = ord.attnum
                ) END,
                'definition', pg_get_constraintdef(con.oid)
            )
        ) AS constraints
    FROM pg_constraint con
    WHERE con.contype IN ('p', 'u', 'f', 'c', 'x')
    GROUP BY con.conrelid
),
inheritance_parents AS (
    SELECT
        inhrelid AS table_oid,
        jsonb_agg(
            jsonb_build_object(
                'oid', inhparent::bigint,
                'name', inhparent::regclass::text
            )
            ORDER BY inhseqno
        ) AS parent_tables
    FROM pg_inherits
    GROUP BY inhrelid
)
SELECT
    c.oid,
    c.relname::text AS name,
    n.nspname::text AS schema,
    pg_catalog.pg_get_userbyid(c.relowner)::text AS owner,
    obj_description(c.oid, 'pg_class') AS comment,
    jsonb_build_object(
        'row_estimate', c.reltuples::bigint,
        'total_size_bytes', pg_total_relation_size(c.oid),
        'heap_size_bytes', pg_relation_size(c.oid),
        'toast_size_bytes', COALESCE(pg_relation_size(c.reltoastrelid), 0)
    ) AS stats,
    (
        SELECT jsonb_agg(
            jsonb_build_object(
                'name', att.attname,
                'type', format_type(att.atttypid, att.atttypmod),
                'not_null', att.attnotnull,
                'is_inherited', (att.attinhcount > 0)
            )
            ORDER BY att.attnum
        )
        FROM pg_attribute att
        WHERE att.attrelid = c.oid
        AND att.attnum > 0
        AND NOT att.attisdropped
    ) AS columns,
    ia.indexes AS indexes,
    cd.constraints AS constraints,
    jsonb_build_object(
        'parent_tables', ip.parent_tables
    ) AS inheritance
FROM pg_class c
JOIN pg_namespace n ON n.oid = c.relnamespace
LEFT JOIN index_agg ia ON ia.table_oid = c.oid
LEFT JOIN constraint_data cd ON cd.conrelid = c.oid
LEFT JOIN inheritance_parents ip ON ip.table_oid = c.oid
WHERE c.relkind IN ('r', 'p')  -- Regular tables and partitioned tables
AND n.nspname NOT IN ('pg_catalog', 'information_schema', 'pg_toast')
AND n.nspname NOT LIKE 'pg_temp_%'
AND n.nspname NOT LIKE 'pg_toast_temp_%'
ORDER BY n.nspname, c.relname;
".

(** ** The structs and their tags *)

Definition TableStats_json : codec TableStats :=
  struct "TableStats"
    (fcons "row_estimate" (go_int 64) $
     fcons "total_size_bytes" (go_uint 64) $
     fcons "heap_size_bytes" (go_uint 64) $
     fcons "toast_size_bytes" (go_uint 64) fnil)
    (fun '(RowEstimate, (TotalSizeBytes, (HeapSizeBytes, (ToastSizeBytes, _)))) =>
       MkTableStats RowEstimate TotalSizeBytes HeapSizeBytes ToastSizeBytes)
    (fun '(MkTableStats RowEstimate TotalSizeBytes HeapSizeBytes ToastSizeBytes) =>
       (RowEstimate, (TotalSizeBytes, (HeapSizeBytes, (ToastSizeBytes, ()))))).

#[export] Instance TableStats_lawful : Lawful TableStats_json.
Proof. struct_instance. Qed.

Definition InheritanceRelation_json : codec InheritanceRelation :=
  struct "InheritanceRelation"
    (fcons "name" go_string $
     fcons "oid" (go_uint 32) fnil)
    (fun '(Name, (Oid, _)) =>
       MkInheritanceRelation Name Oid)
    (fun '(MkInheritanceRelation Name Oid) =>
       (Name, (Oid, ()))).

#[export] Instance InheritanceRelation_lawful : Lawful InheritanceRelation_json.
Proof. struct_instance. Qed.

Definition TableInheritance_json : codec TableInheritance :=
  struct "TableInheritance"
    (fcons "parent_tables" (go_slice (go_ptr InheritanceRelation_json)) fnil)
    (fun '(ParentTables, _) =>
       MkTableInheritance ParentTables)
    (fun '(MkTableInheritance ParentTables) =>
       (ParentTables, ())).

#[export] Instance TableInheritance_lawful : Lawful TableInheritance_json.
Proof. struct_instance. Qed.

Definition TableColumn_json : codec TableColumn :=
  struct "TableColumn"
    (fcons "name" go_string $
     fcons "type" go_string $
     fcons "not_null" go_bool $
     fcons "is_inherited" go_bool fnil)
    (fun '(Name, (Type_, (NotNull, (IsInherited, _)))) =>
       MkTableColumn Name Type_ NotNull IsInherited)
    (fun '(MkTableColumn Name Type_ NotNull IsInherited) =>
       (Name, (Type_, (NotNull, (IsInherited, ()))))).

#[export] Instance TableColumn_lawful : Lawful TableColumn_json.
Proof. struct_instance. Qed.

Definition TableIndex_json : codec TableIndex :=
  struct "TableIndex"
    (fcons "name" go_string $
     fcons "type" go_string $
     fcons "definition" go_string $
     fcons "columns" (go_slice go_string) $
     fcons "size_bytes" (go_uint 64) $
     fcons "is_unique" go_bool $
     fcons "is_primary" go_bool $
     fcons "is_exclusion" go_bool $
     fcons "is_partial" go_bool $
     fcons "is_valid" go_bool $
     fcons "is_inherited" go_bool fnil)
    (fun '(Name, (Type_, (Definition_, (Columns, (SizeBytes, (IsUnique, (IsPrimary, (IsExclusion, (IsPartial, (IsValid, (IsInherited, _))))))))))) =>
       MkTableIndex Name Type_ Definition_ Columns SizeBytes IsUnique IsPrimary IsExclusion IsPartial IsValid IsInherited)
    (fun '(MkTableIndex Name Type_ Definition_ Columns SizeBytes IsUnique IsPrimary IsExclusion IsPartial IsValid IsInherited) =>
       (Name, (Type_, (Definition_, (Columns, (SizeBytes, (IsUnique, (IsPrimary, (IsExclusion, (IsPartial, (IsValid, (IsInherited, ())))))))))))).

#[export] Instance TableIndex_lawful : Lawful TableIndex_json.
Proof. struct_instance. Qed.

Definition TableConstraint_json : codec TableConstraint :=
  struct "TableConstraint"
    (fcons "name" go_string $
     fcons "type" go_string $
     fcons "foreign_table" go_string $
     fcons "definition" go_string $
     fcons "local_columns" (go_slice go_string) $
     fcons "foreign_columns" (go_slice go_string) fnil)
    (fun '(Name, (Type_, (ForeignTable, (Definition_, (LocalColumns, (ForeignColumns, _)))))) =>
       MkTableConstraint Name Type_ ForeignTable Definition_ LocalColumns ForeignColumns)
    (fun '(MkTableConstraint Name Type_ ForeignTable Definition_ LocalColumns ForeignColumns) =>
       (Name, (Type_, (ForeignTable, (Definition_, (LocalColumns, (ForeignColumns, ()))))))).

#[export] Instance TableConstraint_lawful : Lawful TableConstraint_json.
Proof. struct_instance. Qed.

(** ** Reading a row *)

(** The columns as they are scanned: the record with its JSON parts still text.  A
    nil []byte is [None]. *)
Record scanned := Scanned {
  sc_Oid : Z; sc_Name : string; sc_Schema : string; sc_Owner : string; sc_Comment : option string;
  statsJSON : option string; columnsJSON : option string; indexesJSON : option string;
  constraintsJSON : option string; inheritanceJSON : option string
}.

Section tables.
Context `{S : Scanner} `{E : JsonErrors}.

Definition scanTable : list pgvalue -> res scanned :=
  Scan 10 (oid ← dest scan_uint32; name ← dest scan_string; schema ← dest scan_string;
           owner ← dest scan_string; comment ← dest scan_string_ptr;
           stats ← dest scan_bytes; columns ← dest scan_bytes; indexes ← dest scan_bytes;
           constraints ← dest scan_bytes; inheritance ← dest scan_bytes;
           mret (Scanned oid name schema owner comment stats columns indexes constraints inheritance)).

(** json.Unmarshal(data, &table.F) for a field that nothing was decoded into before;
    a nil []byte is an empty text. *)
Definition unmarshal_part {A} (c : codec A) (format name : string) (data : option string) : res A :=
  wrap_err (fun err => Errorf format [AStr name; AErr err])
    (unmarshal c (match data with Some data => s2b data | None => [] end)).

(** if data != nil { json.Unmarshal(data, &table.F) } *)
Definition unmarshal_slice {A} (c : codec A) (format name : string) (data : option string) : res (list A) :=
  match data with
  | None => inr []
  | Some _ => unmarshal_part (go_slice c) format name data
  end.

(** The body of the loop over rows.Next. *)
Definition readTable (dbName : string) (row : list pgvalue) : res Table :=
  t ← wrap_err (fun err => Errorf "scan table row in database %q: %w" [AStr dbName; AErr err]) (scanTable row);
  stats ← unmarshal_part TableStats_json "unmarshal stats for table %s: %w" (sc_Name t) (statsJSON t);
  columns ← unmarshal_slice (go_ptr TableColumn_json) "unmarshal columns for table %s: %w" (sc_Name t) (columnsJSON t);
  indexes ← unmarshal_slice (go_ptr TableIndex_json) "unmarshal indexes for table %s: %w" (sc_Name t) (indexesJSON t);
  constraints ← unmarshal_slice (go_ptr TableConstraint_json) "unmarshal constraints for table %s: %w" (sc_Name t) (constraintsJSON t);
  inheritance ← unmarshal_part TableInheritance_json "unmarshal inheritance for table %s: %w" (sc_Name t) (inheritanceJSON t);
  inr {| Table_Name := sc_Name t; Table_Schema := sc_Schema t; Table_Owner := sc_Owner t;
         Table_Comment := sc_Comment t; Table_TableColumns := columns; Table_TableIndexes := indexes;
         Table_TableConstraints := constraints; Table_Inheritance := inheritance;
         Table_Stats := stats; Table_Oid := sc_Oid t |}.

Definition listTablesForDatabase (s : Store) (dbName : string) : io (res (list TablesInfo)) :=
  err ← Acquire dbName;
  match err with
  | Some err => Ret (inl (Errorf "acquire connection to %q: %w" [AStr dbName; AErr err]))
  | None =>
    defer (Release dbName) (
      pool ← perform (EPoolNew (Store_connStrFor s dbName));
      match pool with
      | inl err => Ret (inl (Errorf "connect to %q for tables: %w" [AStr dbName; AErr err]))
      | inr pool =>
        defer (perform (EPoolClose pool)) (
          rows ← perform (EQuery pool queryTables);
          match rows with
          | inl err => Ret (inl (Errorf "query tables in database %q: %w" [AStr dbName; AErr err]))
          | inr rows =>
            defer (perform (ERowsClose (rows_id rows))) (Ret (
              tables ← for_rows (readTable dbName) (rows_data rows) [];
              match rows_Err rows with
              | Some err => inl (Errorf "iterate tables in database %q: %w" [AStr dbName; AErr err])
              | None => inr [{| TablesInfo_Database := dbName; TablesInfo_Tables := tables |}]
              end))
          end)
      end)
  end.

Definition ListTables (s : Store) : task (res (list TablesInfo)) :=
  databases ← call (ListDatabases s);
  match databases with
  | inl err => TRet (inl err)
  | inr databases =>
      tables ← forEachDatabase databases (listTablesForDatabase s);
      match tables with
      | inl err => TRet (inl err)
      | inr tables => TRet (inr tables)
      end
  end.
End tables.

(** ** Listing a database *)
Section tables_spec.
Context `{S : Scanner} `{E : JsonErrors}.
Variable s : Store.
Variable dsn : string.
#[local] Existing Instance store_cfg.

Definition table_messages := Messages "connect to %q for tables: %w"
  "query tables in database %q: %w" "iterate tables in database %q: %w".

(** One element per database, also when it has no tables. *)
Definition table_listing := listing s queryTables table_messages readTable
  (fun db tables => [MkTablesInfo db tables]).

Lemma wp_listTables db :
  @wp _ (store_cfg s dsn) _ (listTablesForDatabase s db) (fun r st => clean st /\ table_listing db r) idle.
Proof. exact (wp_listing s dsn _ _ _ _ db). Qed.

Lemma twp_ListTables : @twp _ (store_cfg s dsn) _ (ListTables s) (fanned dsn table_listing).
Proof.
  apply (twp_fanned s dsn _ _ (fun r => match r with inl err => TRet (inl err) | inr all => TRet (inr all) end)
    (fanned dsn table_listing) wp_listTables). by intros [].
Qed.
End tables_spec.

(** ** What the query gives for a table *)

(** An object with these keys, which jsonb keeps in an order of its own. *)
Definition obj (kvs : list (string * json)) (j : json) : Prop :=
  exists kvs', j = JObj kvs' /\ kvs' ≡ₚ prod_map s2b id <$> kvs.

Definition text (s : string) : json := JStr (s2b s).

(** array_agg of no rows is NULL. *)
Definition text_array (l : list string) : json :=
  match l with [] => JNull | _ => JArr (text <$> l) end.

(** CASE ... END without ELSE; no name is empty. *)
Definition text_or_null (s : string) : json :=
  if decide (s = EmptyString) then JNull else text s.

(** The decimal text of an integer. *)
Definition decimal (z : Z) (j : json) : Prop :=
  exists t, j = JNum t /\
    ((0 <= z)%Z /\ plain_digits t = Some z \/
     (z < 0)%Z /\ exists d, t = "-"%char :: d /\ plain_digits d = Some (- z)%Z).

Definition column_json (x : TableColumn) : json -> Prop := obj
  [("name", text (TableColumn_Name x)); ("type", text (TableColumn_Type x));
   ("not_null", JBool (TableColumn_NotNull x)); ("is_inherited", JBool (TableColumn_IsInherited x))].

Definition index_json (x : TableIndex) (j : json) : Prop :=
  exists size, decimal (TableIndex_SizeBytes x) size /\ obj
    [("name", text (TableIndex_Name x)); ("type", text (TableIndex_Type x));
     ("columns", text_array (TableIndex_Columns x)); ("is_unique", JBool (TableIndex_IsUnique x));
     ("is_primary", JBool (TableIndex_IsPrimary x)); ("is_exclusion", JBool (TableIndex_IsExclusion x));
     ("is_partial", JBool (TableIndex_IsPartial x)); ("is_valid", JBool (TableIndex_IsValid x));
     ("is_inherited", JBool (TableIndex_IsInherited x)); ("size_bytes", size);
     ("definition", text (TableIndex_Definition x))] j.

Definition constraint_json (x : TableConstraint) : json -> Prop := obj
  [("name", text (TableConstraint_Name x)); ("type", text (TableConstraint_Type x));
   ("local_columns", text_array (TableConstraint_LocalColumns x));
   ("foreign_table", text_or_null (TableConstraint_ForeignTable x));
   ("foreign_columns", text_array (TableConstraint_ForeignColumns x));
   ("definition", text (TableConstraint_Definition x))].

Definition parent_json (x : InheritanceRelation) (j : json) : Prop :=
  exists oid, decimal (InheritanceRelation_Oid x) oid /\
    obj [("oid", oid); ("name", text (InheritanceRelation_Name x))] j.

Definition stats_json (x : TableStats) (j : json) : Prop :=
  exists rows total heap toast,
    decimal (TableStats_RowEstimate x) rows /\ decimal (TableStats_TotalSizeBytes x) total /\
    decimal (TableStats_HeapSizeBytes x) heap /\ decimal (TableStats_ToastSizeBytes x) toast /\
    obj [("row_estimate", rows); ("total_size_bytes", total); ("heap_size_bytes", heap);
         ("toast_size_bytes", toast)] j.

(** jsonb_agg: NULL for no rows, else an array with an element per row. *)
Definition jsonb_agg {A} (one : A -> json -> Prop) (l : list (option A)) (o : option json) : Prop :=
  match l with
  | [] => o = None
  | _ => exists js, o = Some (JArr js) /\ Forall2 (fun x j => exists y, x = Some y /\ one y j) l js
  end.

Definition inheritance_json (x : TableInheritance) (j : json) : Prop :=
  exists parents, jsonb_agg parent_json (TableInheritance_ParentTables x) parents /\
    obj [("parent_tables", default JNull parents)] j.

(** A jsonb value and the text pgx gives for it; NULL is nil. *)
Definition jsonb (o : option json) (data : option string) : Prop :=
  match o with
  | None => data = None
  | Some j => wf 0 j /\ data = Some (b2s (print j))
  end.

(** A row holds one value per column. *)
Definition scanTable_row `{S : Scanner} (row : list pgvalue) (x : scanned) : Prop :=
  exists v1 v2 v3 v4 v5 v6 v7 v8 v9 v10, row = [v1; v2; v3; v4; v5; v6; v7; v8; v9; v10] /\
    scan_uint32 v1 = inr (sc_Oid x) /\ scan_string v2 = inr (sc_Name x) /\
    scan_string v3 = inr (sc_Schema x) /\ scan_string v4 = inr (sc_Owner x) /\
    scan_string_ptr v5 = inr (sc_Comment x) /\ scan_bytes v6 = inr (statsJSON x) /\
    scan_bytes v7 = inr (columnsJSON x) /\ scan_bytes v8 = inr (indexesJSON x) /\
    scan_bytes v9 = inr (constraintsJSON x) /\ scan_bytes v10 = inr (inheritanceJSON x).

(** The columns of the query for the table [t]. *)
Definition table_columns (x : scanned) (t : Table) : Prop :=
  sc_Oid x = Table_Oid t /\ sc_Name x = Table_Name t /\ sc_Schema x = Table_Schema t /\
  sc_Owner x = Table_Owner t /\ sc_Comment x = Table_Comment t /\
  (exists stats, jsonb (Some stats) (statsJSON x) /\ stats_json (Table_Stats t) stats) /\
  (exists columns, jsonb columns (columnsJSON x) /\ jsonb_agg column_json (Table_TableColumns t) columns) /\
  (exists indexes, jsonb indexes (indexesJSON x) /\ jsonb_agg index_json (Table_TableIndexes t) indexes) /\
  (exists constraints, jsonb constraints (constraintsJSON x) /\
     jsonb_agg constraint_json (Table_TableConstraints t) constraints) /\
  (exists inheritance, jsonb (Some inheritance) (inheritanceJSON x) /\
     inheritance_json (Table_Inheritance t) inheritance).

Definition table_row `{S : Scanner} (row : list pgvalue) (t : Table) : Prop :=
  exists x, scanTable_row row x /\ table_columns x t.

(** Every integer is in the range of its Go type. *)
Definition Table_wf (t : Table) : Prop :=
  uint32 (Table_Oid t) /\
  int64 (TableStats_RowEstimate (Table_Stats t)) /\ uint64 (TableStats_TotalSizeBytes (Table_Stats t)) /\
  uint64 (TableStats_HeapSizeBytes (Table_Stats t)) /\ uint64 (TableStats_ToastSizeBytes (Table_Stats t)) /\
  Forall (from_option (fun i => uint64 (TableIndex_SizeBytes i)) True) (Table_TableIndexes t) /\
  Forall (from_option (fun p => uint32 (InheritanceRelation_Oid p)) True)
    (TableInheritance_ParentTables (Table_Inheritance t)).

(** ** The query's objects are what the tags expect *)

Lemma plain_parse_int t z : plain_digits t = Some z -> parse_int t = Some z.
Proof.
  destruct t as [|c d]; [done|]. intros H. unfold parse_int. rewrite decide_False; [done|].
  intros ->. unfold plain_digits in H. case_decide as Hd; [|done]. by destruct Hd as [_ Hd].
Qed.

Lemma shows_text s : shows go_string s (text s).
Proof. by left. Qed.

Lemma shows_text_or_null s : shows go_string s (text_or_null s).
Proof. unfold text_or_null. case_decide; [right|left]; done. Qed.

Lemma shows_text_array l : shows (go_slice go_string) l (text_array l).
Proof.
  destruct l as [|x l]; [by left|]. right. eexists. split; [done|].
  apply Forall2_fmap_r, Forall_Forall2_diag, Forall_forall. intros. apply shows_text.
Qed.

Lemma shows_bool b : shows go_bool b (JBool b).
Proof. by left. Qed.

Lemma shows_int bits z j : decimal z j -> shows (go_int bits) z j.
Proof.
  intros (t & -> & H). left. exists t. split; [done|].
  destruct H as [[_ H]|(_ & d & -> & H)]; [by apply plain_parse_int|].
  unfold parse_int. rewrite decide_True by done. rewrite H. simpl. f_equal. lia.
Qed.

Lemma shows_uint bits z j : decimal z j -> shows (go_uint bits) z j.
Proof. intros (t & -> & [[_ H]|H]); left; exists t; auto. Qed.

#[export] Hint Resolve shows_text shows_text_or_null shows_text_array shows_bool shows_int shows_uint : inventory.

(** The members of an object in the order of a struct's fields. *)
Fixpoint pick (names : list string) (kvs : list (string * json)) : list (string * json) :=
  match names with
  | [] => []
  | n :: names =>
      match List.find (fun kj => String.eqb n kj.1) kvs with
      | Some kj => kj :: pick names kvs
      | None => pick names kvs
      end
  end.

Lemma shows_obj {A R} name (f : fcodec A) (to : A -> R) from x kvs j :
  let l := pick (ftypes f).*1 kvs in
  obj kvs j -> fshows f (from x) (prod_map s2b id <$> l) -> kvs ≡ₚ l ->
  Forall (fun kj => known (ftypes f) (prod_map s2b id kj)) l ->
  shows (struct name f to from) x j.
Proof.
  intros l (kvs' & -> & Hp) Hl Hk HF. exists (prod_map s2b id <$> l), kvs'. split; [done|]. split; [done|].
  rewrite Hp, Hk. clear -HF. induction HF as [|kj l Hk _ IH]; [done|]. csimpl.
  by rewrite filter_cons_True, IH.
Qed.

(** Each field is there, with what its codec expects. *)
Ltac show_field := cbn [fst]; solve [eauto with inventory].
Ltac show_fields := cbn [fmap list_fmap prod_map fst snd];
  repeat (right; eexists _, _; split; [reflexivity|]; split; [show_field|cbn [snd]]);
  exact eq_refl.
Ltac show_struct H := eapply shows_obj; [exact H|cbn -[fshows s2b]; show_fields
  |cbn -[s2b]; solve_Permutation|cbn -[s2b]; repeat constructor; by eexists].

Lemma column_shows x j : column_json x j -> shows TableColumn_json x j.
Proof. destruct x. intros H. show_struct H. Qed.

Lemma index_shows x j : index_json x j -> shows TableIndex_json x j.
Proof. destruct x. intros (size & Hs & H). show_struct H. Qed.

Lemma constraint_shows x j : constraint_json x j -> shows TableConstraint_json x j.
Proof. destruct x. intros H. show_struct H. Qed.

Lemma parent_shows x j : parent_json x j -> shows InheritanceRelation_json x j.
Proof. destruct x. intros (oid & Ho & H). show_struct H. Qed.

Lemma stats_shows x j : stats_json x j -> shows TableStats_json x j.
Proof. destruct x. intros (rows & total & heap & toast & H1 & H2 & H3 & H4 & H). show_struct H. Qed.

(** ** Ranges *)

Lemma column_ok x : ok TableColumn_json x.
Proof. by destruct x. Qed.

Lemma constraint_ok x : ok TableConstraint_json x.
Proof. destruct x. simpl. repeat (split; [by rewrite ?Forall_forall|]). done. Qed.

Lemma index_ok x : ok TableIndex_json x <-> uint64 (TableIndex_SizeBytes x).
Proof.
  destruct x as [? ? ? cols]. unfold uint64. simpl. assert (Forall (fun _ => True) cols) by (by apply Forall_true).
  tauto.
Qed.

Lemma parent_ok x : ok InheritanceRelation_json x <-> uint32 (InheritanceRelation_Oid x).
Proof. destruct x. unfold uint32. simpl. tauto. Qed.

Lemma stats_ok x : ok TableStats_json x <->
  int64 (TableStats_RowEstimate x) /\ uint64 (TableStats_TotalSizeBytes x) /\
  uint64 (TableStats_HeapSizeBytes x) /\ uint64 (TableStats_ToastSizeBytes x).
Proof. destruct x. unfold int64, uint64. simpl. tauto. Qed.

Lemma ptrs_ok {A} (c : codec A) (P : A -> Prop) l :
  (forall x, ok c x <-> P x) -> ok (go_slice (go_ptr c)) l <-> Forall (from_option P True) l.
Proof. intros H. apply Forall_iff. intros [x|]; simpl; [apply H|done]. Qed.

Lemma inheritance_ok x : ok TableInheritance_json x <->
  Forall (from_option (fun p => uint32 (InheritanceRelation_Oid p)) True) (TableInheritance_ParentTables x).
Proof. destruct x as [ps]. rewrite <- (ptrs_ok _ _ ps parent_ok). simpl. tauto. Qed.

(** ** Reading back what the query gives *)

Section aggregates.
Context {A : Type} (c : codec A) `{L : !Lawful c} (one : A -> json -> Prop).
Hypothesis one_shows : forall x j, one x j -> shows c x j.
Hypothesis one_object : forall x j, one x j -> exists kvs, j = JObj kvs.

Lemma agg_shows l o : jsonb_agg one l o -> shows (go_slice (go_ptr c)) l (default JNull o).
Proof using one_shows one_object.
  destruct l as [|x l]; [intros ->; by left|]. intros (js & -> & HF). right. exists js.
  split; [done|]. eapply Forall2_impl; [exact HF|]. intros ? j (y & -> & Hy).
  split; [by destruct (one_object _ _ Hy) as [kvs ->]|by apply one_shows].
Qed.

Context `{E : JsonErrors}.

Lemma unmarshal_slice_agg format name l o data :
  ok (go_slice (go_ptr c)) l -> jsonb_agg one l o -> jsonb o data ->
  unmarshal_slice (go_ptr c) format name data = inr l.
Proof using one_shows one_object L.
  intros Hok Hagg Hj. pose proof (agg_shows l o Hagg) as Hs. destruct o as [j|]; simpl in Hj.
  - destruct Hj as [Hw ->]. simpl. unfold unmarshal_part. rewrite s2b_b2s.
    by rewrite (unmarshal_print _ j l).
  - subst data. destruct l as [|x l]; [done|]. by destruct Hagg as (? & ? & _).
Qed.
End aggregates.

Lemma obj_object kvs j : obj kvs j -> exists kvs', j = JObj kvs'.
Proof. intros (kvs' & -> & _). by eexists. Qed.

Lemma index_object x j : index_json x j -> exists kvs, j = JObj kvs.
Proof. intros (size & _ & H). by eapply obj_object. Qed.

Lemma parent_object x j : parent_json x j -> exists kvs, j = JObj kvs.
Proof. intros (oid & _ & H). by eapply obj_object. Qed.

Lemma inheritance_shows x j : inheritance_json x j -> shows TableInheritance_json x j.
Proof.
  destruct x as [ps]. intros (parents & Hp & H). simpl in Hp.
  pose proof (agg_shows InheritanceRelation_json parent_json parent_shows parent_object ps parents Hp).
  show_struct H.
Qed.

Section read.
Context `{S : Scanner} `{E : JsonErrors}.

Lemma unmarshal_part_jsonb {A} (c : codec A) `{!Lawful c} format name x j data :
  ok c x -> shows c x j -> jsonb (Some j) data -> unmarshal_part c format name data = inr x.
Proof.
  intros Hx Hs [Hw ->]. unfold unmarshal_part. rewrite s2b_b2s. by rewrite (unmarshal_print _ j x).
Qed.

Lemma scanTable_iff row x : scanTable row = inr x <-> scanTable_row row x.
Proof. unfold scanTable, scanTable_row. scan_row. by destruct x. Qed.

Lemma columns_read format name l o data :
  jsonb_agg column_json l o -> jsonb o data -> unmarshal_slice (go_ptr TableColumn_json) format name data = inr l.
Proof.
  apply (unmarshal_slice_agg _ _ column_shows (fun x j => obj_object _ j)).
  apply Forall_true. intros [x|]; simpl; [exact (column_ok x)|done].
Qed.

Lemma constraints_read format name l o data :
  jsonb_agg constraint_json l o -> jsonb o data ->
  unmarshal_slice (go_ptr TableConstraint_json) format name data = inr l.
Proof.
  apply (unmarshal_slice_agg _ _ constraint_shows (fun x j => obj_object _ j)).
  apply Forall_true. intros [x|]; simpl; [exact (constraint_ok x)|done].
Qed.

Lemma indexes_read format name l o data :
  Forall (from_option (fun i => uint64 (TableIndex_SizeBytes i)) True) l ->
  jsonb_agg index_json l o -> jsonb o data -> unmarshal_slice (go_ptr TableIndex_json) format name data = inr l.
Proof.
  intros Hl. apply (unmarshal_slice_agg _ _ index_shows index_object). by apply (ptrs_ok _ _ _ index_ok).
Qed.

Lemma readTable_row db row t : table_row row t -> Table_wf t -> readTable db row = inr t.
Proof.
  intros (x & Hrow & Ht) (_ & Hs1 & Hs2 & Hs3 & Hs4 & Hi & Hp). unfold readTable.
  rewrite (proj2 (scanTable_iff row x) Hrow). cbn.
  destruct Ht as (E1 & E2 & E3 & E4 & E5 & (js & Js & Hs) & (jc & Jc & Hc) & (ji & Ji & Hix) &
    (jk & Jk & Hk) & (jp & Jp & Hpa)).
  assert (ok TableStats_json (Table_Stats t)) as Os by (by apply stats_ok).
  assert (ok TableInheritance_json (Table_Inheritance t)) as Op by (by apply inheritance_ok).
  rewrite (unmarshal_part_jsonb TableStats_json _ _ _ _ _ Os (stats_shows _ _ Hs) Js). cbn.
  rewrite (columns_read _ _ _ _ _ Hc Jc). cbn. rewrite (indexes_read _ _ _ _ _ Hi Hix Ji). cbn.
  rewrite (constraints_read _ _ _ _ _ Hk Jk). cbn.
  rewrite (unmarshal_part_jsonb TableInheritance_json _ _ _ _ _ Op (inheritance_shows _ _ Hpa) Jp). cbn.
  rewrite E1, E2, E3, E4, E5. by destruct t.
Qed.

(** C11: what the query gives for a table is read as that table: every column, index,
    constraint and parent, whatever order jsonb keeps the keys in, with NULL for
    what is absent, for all texts and all numbers of the fields' types. *)
Theorem readTable_reads db row t : table_row row t -> Table_wf t -> readTable db row = inr t.
Proof. apply readTable_row. Qed.




End read.
