(* ===== verification/Jsonb.v ===== *)
(** * The jsonb values that queries build

    Numbers are their decimal text, jsonb_build_object gives an object with the members
    that it is called with, and what is printed of them is JSON text. *)

From S2P Require Import Prelude GoStrings Json JsonDecode SqlSyntax Sql SqlTyped Types Tables.

(** ** Decimal text *)

Lemma digit_is_digit d : (0 <= d < 10)%Z -> is_digit (zascii (48 + d)) = true /\ zbyte (zascii (48 + d)) = (48 + d)%Z.
Proof.
  intros H. assert (d = 0 \/ d = 1 \/ d = 2 \/ d = 3 \/ d = 4 \/ d = 5 \/ d = 6 \/ d = 7 \/ d = 8 \/ d = 9)%Z as E by lia.
  by repeat (destruct E as [->|E]; [done|]); subst.
Qed.

Lemma digits_rev_spec fuel n :
  (0 <= n < 10 ^ Z.of_nat fuel)%Z ->
  digits_value (rev (digits_rev fuel n)) = n /\ forallb is_digit (digits_rev fuel n) = true.
Proof.
  revert n. induction fuel as [|fuel IH]; intros n Hn.
  { change (10 ^ Z.of_nat 0)%Z with 1%Z in Hn. assert (n = 0)%Z as -> by lia. done. }
  assert (0 <= n mod 10 < 10)%Z as Hm by (apply Z.mod_pos_bound; lia).
  destruct (digit_is_digit (n mod 10) Hm) as [Hd Hv]. cbn [digits_rev].
  destruct (Z.ltb_spec n 10) as [Hs|Hs].
  - cbn [rev forallb]. rewrite Hd. split; [|done]. unfold digits_value. cbn [foldl app].
    rewrite Hv, Z.mod_small by lia. lia.
  - destruct (IH (n / 10)%Z) as [IHv IHd].
    { rewrite Nat2Z.inj_succ, Z.pow_succ_r in Hn by lia. split; [apply Z.div_pos; lia|].
      apply Z.div_lt_upper_bound; lia. }
    cbn [rev forallb]. rewrite Hd, IHd. split; [|done]. unfold digits_value in *.
    rewrite foldl_app, IHv. cbn [foldl]. rewrite Hv. pose proof (Z.div_mod n 10). lia.
Qed.

Lemma nat_text_fuel n : (0 <= n)%Z -> (0 <= n < 10 ^ Z.of_nat (S (Z.to_nat (Z.log2 n))))%Z.
Proof.
  intros Hn. split; [done|]. rewrite Nat2Z.inj_succ, Z2Nat.id by apply Z.log2_nonneg.
  destruct (decide (n = 0)%Z) as [->|Hz]; [done|].
  destruct (Z.log2_spec n) as [_ Hl]; [lia|]. eapply Z.lt_le_trans; [exact Hl|].
  apply Z.pow_le_mono_l. lia.
Qed.

Lemma nat_text_spec n : (0 <= n)%Z -> plain_digits (nat_text n) = Some n.
Proof.
  intros Hn. destruct (digits_rev_spec _ _ (nat_text_fuel n Hn)) as [Hv Hd]. unfold plain_digits, nat_text.
  rewrite decide_True; [by rewrite Hv|]. split.
  - cbn [digits_rev]. case_match; cbn [rev]; [done|by intros [_ ?]%app_nil].
  - rewrite forallb_forall in *. intros c Hc. apply Hd. by apply in_rev.
Qed.

Lemma decimal_text n : decimal n (JNum (z_text n)).
Proof.
  exists (z_text n). split; [done|]. unfold z_text. destruct (Z.ltb_spec n 0); [right|left]; split; try lia.
  - exists (nat_text (- n)). split; [done|]. apply nat_text_spec. lia.
  - by apply nat_text_spec.
Qed.

(** The first digit is 0 for 0 only. *)
Lemma digits_rev_head fuel n :
  (0 < n < 10 ^ Z.of_nat fuel)%Z ->
  exists d l, rev (digits_rev fuel n) = zascii (48 + d) :: l /\ (1 <= d < 10)%Z.
Proof.
  revert n. induction fuel as [|fuel IH]; intros n Hn.
  { change (10 ^ Z.of_nat 0)%Z with 1%Z in Hn. lia. }
  cbn [digits_rev]. destruct (Z.ltb_spec n 10) as [Hs|Hs].
  - exists n, []. rewrite Z.mod_small by lia. split; [done|lia].
  - destruct (IH (n / 10)%Z) as (d & l & E & Hd).
    { rewrite Nat2Z.inj_succ, Z.pow_succ_r in Hn by lia. split; [apply Z.div_str_pos; lia|].
      apply Z.div_lt_upper_bound; lia. }
    cbn [rev]. rewrite E. by eexists _, _.
Qed.

Lemma take_digits_all l : forallb is_digit l = true -> take_digits l = (l, []).
Proof.
  induction l as [|c l IH]; [done|]. simpl. intros [Hc Hl]%andb_true_iff. by rewrite Hc, IH.
Qed.

Lemma nat_text_int_part n : (0 <= n)%Z -> int_part (nat_text n) = Some (nat_text n, []).
Proof.
  intros Hn. destruct (decide (n = 0)%Z) as [->|Hz]; [done|].
  pose proof (nat_text_fuel n Hn) as Hf. destruct (digits_rev_spec _ _ Hf) as [_ Hd].
  destruct (digits_rev_head (S (Z.to_nat (Z.log2 n))) n) as (d & l & E & Hr); [split; [lia|apply Hf]|].
  assert (forallb is_digit (nat_text n) = true) as Ha.
  { unfold nat_text. rewrite forallb_forall in *. intros c Hc. apply Hd. by apply in_rev. }
  unfold nat_text in *. rewrite E in *. unfold int_part. rewrite decide_False.
  - unfold digits1. by rewrite take_digits_all.
  - intros Ed. assert (zbyte (zascii (48 + d)) = zbyte "0") as Ez by (by rewrite Ed).
    rewrite (proj2 (digit_is_digit d (conj (Z.le_trans 0 1 d ltac:(lia) (proj1 Hr)) (proj2 Hr)))) in Ez. change (zbyte "0") with 48%Z in Ez. lia.
Qed.

Lemma nat_text_minus n : (0 <= n)%Z -> forall c l, nat_text n = c :: l -> c <> "-"%char.
Proof.
  intros Hn c l E ->. pose proof (nat_text_spec n Hn) as H. rewrite E in H. unfold plain_digits in H.
  case_decide as Hd; [|done]. by destruct Hd as [_ Hd].
Qed.

Lemma z_text_number n : is_number (z_text n).
Proof.
  unfold is_number, z_text, number. destruct (Z.ltb_spec n 0).
  - rewrite decide_True by done. rewrite nat_text_int_part by lia. simpl. by rewrite app_nil_r.
  - destruct (nat_text n) as [|c l] eqn:E.
    + pose proof (nat_text_int_part n ltac:(lia)) as Hi. by rewrite E in Hi.
    + rewrite decide_False by (apply (nat_text_minus n ltac:(lia) c l E)). rewrite <- E.
      rewrite nat_text_int_part by lia. simpl. by rewrite app_nil_r.
Qed.

(** ** Objects *)

Lemma last_wins_nodup kvs : NoDup kvs.*1 -> last_wins kvs = kvs.
Proof.
  induction kvs as [|[k j] kvs IH]; [done|]. csimpl. intros [Hk Hn]%NoDup_cons.
  rewrite decide_False by done. by rewrite IH.
Qed.

(** The members of a call of jsonb_build_object. *)
Definition as_members (kvs : list (string * json)) : list (bytes * json) := prod_map s2b id <$> kvs.

Lemma obj_jsonb kvs : NoDup (as_members kvs).*1 -> obj kvs (jsonb_object (as_members kvs)).
Proof.
  intros H. eexists. split; [reflexivity|]. rewrite last_wins_nodup by done. apply merge_sort_Permutation.
Qed.

Lemma wf_jsonb d kvs :
  d < maxNestingDepth -> Forall (fun kv => utf8 kv.1 /\ wf (S d) kv.2) (as_members kvs) ->
  wf d (jsonb_object (as_members kvs)).
Proof.
  intros Hd Hf. constructor; [done|]. rewrite merge_sort_Permutation. unfold as_members in *.
  induction (prod_map s2b id <$> kvs) as [|[k j] l IH]; [constructor|]. apply Forall_cons in Hf as [Hk Hf].
  simpl. case_decide; [by apply IH|]. constructor; auto.
Qed.

Lemma to_json_names l : to_json (names_value l) = Some (text_array l).
Proof. by destruct l. Qed.

(** What jsonb_agg gives, as a member and as a column. *)
Definition agg_json (js : list json) : option json := match js with [] => None | _ => Some (JArr js) end.

Lemma to_json_jsons js : to_json (jsons_value js) = Some (default JNull (agg_json js)).
Proof. by destruct js. Qed.

Lemma jsons_value_agg js : jsons_value js = from_option VJson VNull (agg_json js).
Proof. by destruct js. Qed.

Lemma agg_json_elements {A} (one : A -> json -> Prop) (l : list A) js :
  Forall2 one l js -> jsonb_agg one (Some <$> l) (agg_json js).
Proof.
  intros H. destruct H as [|x j l js Hx H]; [done|]. eexists. split; [reflexivity|]. csimpl.
  constructor; [by exists x|]. apply Forall2_fmap_l. eapply Forall2_impl; [exact H|]. intros y z Hy. by exists y.
Qed.

Lemma wf_agg d js j : S d < maxNestingDepth -> Forall (wf (S d)) js -> agg_json js = Some j -> wf d j.
Proof. intros Hd Hf E. destruct js; [done|]. injection E as <-. constructor; [lia|done]. Qed.

(** ** Well-formed members *)

Lemma wf_text d s : utf8 (s2b s) -> wf d (text s).
Proof. by constructor. Qed.

Lemma wf_text_or_null d s : utf8 (s2b s) -> wf d (text_or_null s).
Proof. unfold text_or_null. case_decide; [constructor|apply wf_text]. Qed.

Lemma wf_text_array d l : d < maxNestingDepth -> Forall (fun s => utf8 (s2b s)) l -> wf d (text_array l).
Proof.
  intros Hd Hl. destruct l as [|s l]; [constructor|]. constructor; [done|]. apply Forall_fmap.
  eapply Forall_impl; [exact Hl|]. intros s'. apply wf_text.
Qed.

Lemma wf_z_text d n : wf d (JNum (z_text n)).
Proof. constructor. apply z_text_number. Qed.

Lemma low_depth d : d < 10 -> d < maxNestingDepth.
Proof. intros H. eapply Nat.lt_le_trans; [exact H|]. apply Nat.leb_le. vm_compute. reflexivity. Qed.

(** The names of the members are different, and ASCII. *)
Ltac member_names := apply (bool_decide_unpack _); vm_compute; exact I.
Ltac members_wf := apply wf_jsonb; [apply low_depth; lia|];
  repeat (constructor; [split; [apply utf8_ascii; reflexivity|]|]); [..|constructor];
  first [apply wf_text|apply wf_text_or_null|apply wf_text_array; [apply low_depth; lia|]
        |apply wf_z_text|constructor|idtac].
