(* ===== verification/Catalog.v ===== *)
(** * The system catalogs of PostgreSQL

    The tables and functions that the queries of store.go read, as the PostgreSQL
    manual documents them: their columns with their types, the name of the role that
    owns an object, the settings, and the control data of the cluster.  [database_of]
    presents them to Sql.v.  For each query there is the list of records it selects,
    and a lemma that its answers are these records. *)

From S2P Require Import Prelude GoStrings JsonDecode Types Runtime Scan Store SqlSyntax Sql SqlTyped Tables.

(** ** The tables *)

Record PgDatabase := MkPgDatabase {
  db_oid : Z; datname : string; datallowconn : bool; datistemplate : bool }.
Record PgNamespace := MkPgNamespace { ns_oid : Z; nspname : string; nspowner : Z }.
Record PgClass := MkPgClass {
  cls_oid : Z; relname : string; relnamespace : Z; relowner : Z; relkind : string; relam : Z;
  reltuples : Z; reltoastrelid : Z }.
Record PgAttribute := MkPgAttribute {
  attrelid : Z; attname : string; attnum : Z; atttypid : Z; atttypmod : Z; attnotnull : bool;
  attisdropped : bool; attinhcount : Z }.
(** The numbers of the columns of an index, 0 for an expression; the predicate of a
    partial index. *)
Record PgIndex := MkPgIndex {
  indexrelid : Z; indrelid : Z; indkey : list Z; indisunique : bool; indisprimary : bool;
  indisexclusion : bool; indisvalid : bool; indpred : option string }.
Record PgAm := MkPgAm { am_oid : Z; amname : string }.
(** The columns of a constraint, NULL if it has none. *)
Record PgConstraint := MkPgConstraint {
  con_oid : Z; conname : string; contype : string; conrelid : Z; confrelid : Z;
  conkey : option (list Z); confkey : option (list Z) }.
Record PgInherits := MkPgInherits { inhrelid : Z; inhparent : Z; inhseqno : Z }.
Record PgSequence := MkPgSequence { seqrelid : Z; seqtypid : Z }.
Record PgType := MkPgType { typ_oid : Z; typname : string }.
Record PgProc := MkPgProc {
  pro_oid : Z; proname : string; pronamespace : Z; proowner : Z; prolang : Z; prorettype : Z }.
Record PgLanguage := MkPgLanguage { lan_oid : Z; lanname : string }.
Record PgExtension := MkPgExtension {
  ext_oid : Z; extname : string; extversion : string; extnamespace : Z }.
(** The default version is NULL when the control file names none. *)
Record PgAvailableExtension := MkPgAvailableExtension {
  ae_name : string; ae_default_version : option string }.

Record Catalog := MkCatalog {
  pg_database : list PgDatabase;
  pg_namespace : list PgNamespace;
  pg_class : list PgClass;
  pg_attribute : list PgAttribute;
  pg_index : list PgIndex;
  pg_am : list PgAm;
  pg_constraint : list PgConstraint;
  pg_inherits : list PgInherits;
  pg_sequence : list PgSequence;
  pg_type : list PgType;
  pg_proc : list PgProc;
  pg_language : list PgLanguage;
  pg_extension : list PgExtension;
  pg_available_extensions : list PgAvailableExtension;
  cluster_config : list (string * string);        (** monitoring.cluster_config of the set-up *)
  role_name : Z -> string;                         (** pg_get_userbyid *)
  format_type : Z -> option Z -> string;           (** of a type and a modifier *)
  identity_arguments : Z -> option string;         (** NULL for an oid that is no function's *)
  pg_get_indexdef : Z -> option string;            (** NULL for an oid that is no index's *)
  pg_get_constraintdef : Z -> option string;
  obj_description : Z -> option string;            (** the comment of a pg_class entry *)
  relation_size : Z -> option Z;                   (** bigint; NULL for an oid that is no relation's *)
  total_relation_size : Z -> option Z;
  regclass_name : Z -> string;                     (** oid::regclass::text *)
  current_setting : string -> option string;
  in_recovery : bool;
  version : string;
  system_identifier : Z;                           (** bigint *)
  timeline_id : Z                                  (** integer *)
}.

Definition database_tuple (d : PgDatabase) : tuple :=
  [("oid", VOid (db_oid d)); ("datname", VName (datname d)); ("datallowconn", VBool (datallowconn d));
   ("datistemplate", VBool (datistemplate d))].
Definition namespace_tuple (n : PgNamespace) : tuple :=
  [("oid", VOid (ns_oid n)); ("nspname", VName (nspname n)); ("nspowner", VOid (nspowner n))].
Definition class_tuple (c : PgClass) : tuple :=
  [("oid", VOid (cls_oid c)); ("relname", VName (relname c)); ("relnamespace", VOid (relnamespace c));
   ("relowner", VOid (relowner c)); ("relkind", VText (relkind c)); ("relam", VOid (relam c));
   ("reltuples", VReal (reltuples c)); ("reltoastrelid", VOid (reltoastrelid c))].
Definition attribute_tuple (a : PgAttribute) : tuple :=
  [("attrelid", VOid (attrelid a)); ("attname", VName (attname a)); ("attnum", VInt4 (attnum a));
   ("atttypid", VOid (atttypid a)); ("atttypmod", VInt4 (atttypmod a)); ("attnotnull", VBool (attnotnull a));
   ("attisdropped", VBool (attisdropped a)); ("attinhcount", VInt4 (attinhcount a))].
Definition opt_value {A} (f : A -> value) (o : option A) : value := from_option f VNull o.
Definition index_tuple (i : PgIndex) : tuple :=
  [("indexrelid", VOid (indexrelid i)); ("indrelid", VOid (indrelid i)); ("indkey", VInts (indkey i));
   ("indisunique", VBool (indisunique i)); ("indisprimary", VBool (indisprimary i));
   ("indisexclusion", VBool (indisexclusion i)); ("indisvalid", VBool (indisvalid i));
   ("indpred", opt_value VText (indpred i))].
Definition am_tuple (a : PgAm) : tuple := [("oid", VOid (am_oid a)); ("amname", VName (amname a))].
Definition constraint_tuple (c : PgConstraint) : tuple :=
  [("oid", VOid (con_oid c)); ("conname", VName (conname c)); ("contype", VText (contype c));
   ("conrelid", VOid (conrelid c)); ("confrelid", VOid (confrelid c));
   ("conkey", opt_value VInts (conkey c)); ("confkey", opt_value VInts (confkey c))].
Definition inherits_tuple (i : PgInherits) : tuple :=
  [("inhrelid", VOid (inhrelid i)); ("inhparent", VOid (inhparent i)); ("inhseqno", VInt4 (inhseqno i))].
Definition sequence_tuple (s : PgSequence) : tuple :=
  [("seqrelid", VOid (seqrelid s)); ("seqtypid", VOid (seqtypid s))].
Definition type_tuple (t : PgType) : tuple := [("oid", VOid (typ_oid t)); ("typname", VName (typname t))].
Definition proc_tuple (p : PgProc) : tuple :=
  [("oid", VOid (pro_oid p)); ("proname", VName (proname p)); ("pronamespace", VOid (pronamespace p));
   ("proowner", VOid (proowner p)); ("prolang", VOid (prolang p)); ("prorettype", VOid (prorettype p))].
Definition language_tuple (l : PgLanguage) : tuple := [("oid", VOid (lan_oid l)); ("lanname", VName (lanname l))].
Definition extension_tuple (e : PgExtension) : tuple :=
  [("oid", VOid (ext_oid e)); ("extname", VName (extname e)); ("extversion", VText (extversion e));
   ("extnamespace", VOid (extnamespace e))].
Definition available_tuple (a : PgAvailableExtension) : tuple :=
  [("name", VName (ae_name a));
   ("default_version", opt_value VText (ae_default_version a))].
Definition config_tuple (c : string * string) : tuple := [("key", VText c.1); ("value", VText c.2)].

Definition relation_of (c : Catalog) (name : string) : option (list tuple) :=
  assoc name [("pg_database", database_tuple <$> pg_database c);
              ("pg_namespace", namespace_tuple <$> pg_namespace c);
              ("pg_class", class_tuple <$> pg_class c);
              ("pg_attribute", attribute_tuple <$> pg_attribute c);
              ("pg_index", index_tuple <$> pg_index c);
              ("pg_am", am_tuple <$> pg_am c);
              ("pg_constraint", constraint_tuple <$> pg_constraint c);
              ("pg_inherits", inherits_tuple <$> pg_inherits c);
              ("pg_sequence", sequence_tuple <$> pg_sequence c);
              ("pg_type", type_tuple <$> pg_type c);
              ("pg_proc", proc_tuple <$> pg_proc c);
              ("pg_language", language_tuple <$> pg_language c);
              ("pg_extension", extension_tuple <$> pg_extension c);
              ("pg_available_extensions", available_tuple <$> pg_available_extensions c);
              ("monitoring.cluster_config", config_tuple <$> cluster_config c)].

(** A function of an oid. *)
Definition of_oid (f : Z -> value) (args : list value) : option value :=
  match args with [VOid o] => Some (f o) | _ => None end.

Definition function_of (c : Catalog) (name : string) (args : list value) : option value :=
  f ← assoc name [
    ("pg_get_userbyid", of_oid (fun o => VName (role_name c o)));
    ("format_type", fun args =>
      match args with
      | [VOid o; VNull] => Some (VText (format_type c o None))
      | [VOid o; VInt4 m] => Some (VText (format_type c o (Some m)))
      | _ => None
      end);
    ("pg_get_function_identity_arguments", of_oid (fun o => opt_value VText (identity_arguments c o)));
    ("pg_get_indexdef", of_oid (fun o => opt_value VText (pg_get_indexdef c o)));
    ("pg_get_constraintdef", of_oid (fun o => opt_value VText (pg_get_constraintdef c o)));
    ("obj_description", fun args =>
      match args with
      | [VOid o; VText t] => if decide (t = "pg_class") then Some (opt_value VText (obj_description c o)) else None
      | _ => None
      end);
    ("pg_relation_size", of_oid (fun o => opt_value VInt8 (relation_size c o)));
    ("pg_total_relation_size", of_oid (fun o => opt_value VInt8 (total_relation_size c o)));
    ("current_setting", fun args => match args with [VText s] => VText <$> current_setting c s | _ => None end);
    ("pg_is_in_recovery", fun args => match args with [] => Some (VBool (in_recovery c)) | _ => None end);
    ("version", fun args => match args with [] => Some (VText (version c)) | _ => None end)];
  f args.

Definition row_function_of (c : Catalog) (name : string) : option tuple :=
  assoc name [("pg_control_system", [("system_identifier", VInt8 (system_identifier c))]);
              ("pg_control_checkpoint", [("timeline_id", VInt4 (timeline_id c))])].

Definition database_of (c : Catalog) : Database :=
  {| relation := relation_of c; function := function_of c; row_function := row_function_of c;
     regclass := regclass_name c |}.

(** ** The queries, parsed *)

Definition no_query : query := Query [] [] [] None [] [].
Definition parsed (sql : string) : query := default no_query (parse sql).

Definition databases_query : query := Eval vm_compute in parsed queryDatabases.
Definition schemas_query : query := Eval vm_compute in parsed queryListSchemas.
Definition sequences_query : query := Eval vm_compute in parsed querySequences.
Definition functions_query : query := Eval vm_compute in parsed queryFunctions.
Definition available_query : query := Eval vm_compute in parsed queryAvailableExtensions.
Definition extensions_query : query := Eval vm_compute in parsed queryListInstalledExtensions.
Definition server_query : query := Eval vm_compute in parsed queryServerInfo.
Definition stanza_query : query := Eval vm_compute in parsed queryStanza.
Definition cluster_name_query : query := Eval vm_compute in parsed queryClusterName.
Definition tables_query : query := Eval vm_compute in parsed queryTables.

Lemma queries_parse :
  parse queryDatabases = Some databases_query /\ parse queryListSchemas = Some schemas_query /\
  parse querySequences = Some sequences_query /\ parse queryFunctions = Some functions_query /\
  parse queryAvailableExtensions = Some available_query /\
  parse queryListInstalledExtensions = Some extensions_query /\ parse queryServerInfo = Some server_query /\
  parse queryStanza = Some stanza_query /\ parse queryClusterName = Some cluster_name_query.
Proof. vm_compute. repeat split. Qed.

Lemma tables_parse : parse queryTables = Some tables_query.
Proof. vm_compute. reflexivity. Qed.

(** ** What they select *)

(** The condition on names of schemas that three of the queries share. *)
Definition listed (name : string) : bool :=
  negb (like (runes (s2b "pg_%")) (runes (s2b name))) && negb (bool_decide (name = "information_schema")).

Definition connectable (c : Catalog) : list PgDatabase :=
  filter (fun d => datallowconn d && negb (datistemplate d) = true) (pg_database c).

Definition schemas (c : Catalog) : list PgNamespace :=
  filter (fun n => listed (nspname n) = true) (pg_namespace c).

(** A sequence is a row of pg_class with its namespace, its row of pg_sequence and the
    type of its values. *)
Record sequence := MkSequence { sq_class : PgClass; sq_namespace : PgNamespace; sq_sequence : PgSequence; sq_type : PgType }.

Definition sequence_rows (c : Catalog) : list sequence :=
  pg_class c ≫= fun cls => if true then
  pg_namespace c ≫= fun n => if (relnamespace cls =? ns_oid n)%Z then
  pg_sequence c ≫= fun s => if (seqrelid s =? cls_oid cls)%Z then
  pg_type c ≫= fun t => if (typ_oid t =? seqtypid s)%Z then [MkSequence cls n s t]
  else [] else [] else [] else [].

Definition sequences (c : Catalog) : list sequence :=
  filter (fun s => bool_decide (relkind (sq_class s) = "S") && listed (nspname (sq_namespace s)) = true)
    (sequence_rows c).

Record proc := MkProc { pr_proc : PgProc; pr_namespace : PgNamespace; pr_language : PgLanguage }.

Definition proc_rows (c : Catalog) : list proc :=
  pg_proc c ≫= fun p => if true then
  pg_namespace c ≫= fun n => if (pronamespace p =? ns_oid n)%Z then
  pg_language c ≫= fun l => if (prolang p =? lan_oid l)%Z then [MkProc p n l]
  else [] else [] else [].

Definition functions (c : Catalog) : list proc :=
  filter (fun p => listed (nspname (pr_namespace p)) = true) (proc_rows c).

Record extension := MkExtension { ex_extension : PgExtension; ex_namespace : PgNamespace }.

Definition extensions (c : Catalog) : list extension :=
  pg_extension c ≫= fun e => if true then
  pg_namespace c ≫= fun n => if (extnamespace e =? ns_oid n)%Z then [MkExtension e n] else [] else [].

(** ** Their rows *)

Definition database_row (d : PgDatabase) : list value := [VName (datname d); VOid (db_oid d)].

Definition schema_row (c : Catalog) (n : PgNamespace) : list value :=
  [VOid (ns_oid n); VName (nspname n); VName (role_name c (nspowner n))].

Definition sequence_row (c : Catalog) (s : sequence) : list value :=
  [VOid (cls_oid (sq_class s)); VName (relname (sq_class s)); VName (nspname (sq_namespace s));
   VName (role_name c (relowner (sq_class s))); VName (typname (sq_type s))].

Definition function_row (c : Catalog) (p : proc) : list value :=
  [VOid (pro_oid (pr_proc p)); VName (proname (pr_proc p)); VName (nspname (pr_namespace p));
   VName (role_name c (proowner (pr_proc p))); VName (lanname (pr_language p));
   VText (format_type c (prorettype (pr_proc p)) None);
   opt_value VText (identity_arguments c (pro_oid (pr_proc p)))].

Definition available_row (a : PgAvailableExtension) : list value :=
  [VName (ae_name a); opt_value VText (ae_default_version a)].

Definition extension_row (e : extension) : list value :=
  [VOid (ext_oid (ex_extension e)); VName (extname (ex_extension e)); VText (extversion (ex_extension e));
   VName (nspname (ex_namespace e))].

(** ** The answers to the queries *)

Section answers.
Variable c : Catalog.
Let db := database_of c.

Lemma databases_answer rows :
  answer db databases_query rows ->
  exists l, l ≡ₚ connectable c /\ rows = database_row <$> l.
Proof.
  intros H. destruct (answer_records db databases_query (pg_database c)
    (fun d => [("pg_database", Some (database_tuple d))])
    (fun d => datallowconn d && negb (datistemplate d)) (fun _ => []) database_row rows)
    as (l & Hl & -> & _); [..|exact H|]; try done.
  - intros. by apply one_source.
  - by exists l.
Qed.

Lemma schemas_answer rows :
  answer db schemas_query rows ->
  exists l, l ≡ₚ schemas c /\ rows = schema_row c <$> l.
Proof.
  intros H. destruct (answer_records db schemas_query (pg_namespace c) (fun n => [("n", Some (namespace_tuple n))])
    (fun n => listed (nspname n)) (fun _ => []) (schema_row c) rows) as (l & Hl & -> & _); [..|exact H|]; try done.
  - intros. by apply one_source.
  - by exists l.
Qed.

Lemma available_answer rows :
  answer db available_query rows ->
  exists l, l ≡ₚ pg_available_extensions c /\ rows = available_row <$> l.
Proof.
  intros H. destruct (answer_records db available_query (pg_available_extensions c)
    (fun a => [("pg_available_extensions", Some (available_tuple a))])
    (fun _ => true) (fun _ => []) available_row rows) as (l & Hl & -> & _); [..|exact H|]; try done.
  - intros. by apply one_source.
  - exists l. split; [|done]. rewrite Hl. by rewrite filter_all.
Qed.

(** The order of the schemas and names of sequences, and of the names of extensions. *)
Definition sequence_le (x y : sequence) : Prop :=
  keys_le [VName (nspname (sq_namespace x)); VName (relname (sq_class x))]
          [VName (nspname (sq_namespace y)); VName (relname (sq_class y))].

Definition extension_le (x y : extension) : Prop :=
  String.le (extname (ex_extension x)) (extname (ex_extension y)).

Definition sequence_scope (s : sequence) : scope :=
  [("c", Some (class_tuple (sq_class s))); ("n", Some (namespace_tuple (sq_namespace s)));
   ("s", Some (sequence_tuple (sq_sequence s))); ("t", Some (type_tuple (sq_type s)))].

Lemma sequence_rows_scope shuffle :
  combinations (eval_top shuffle) db [] [] (q_from sequences_query) = Some (sequence_scope <$> sequence_rows c).
Proof.
  apply (combinations_inner _ _ _ _ _ _ class_tuple); [done..|intros cls].
  apply (combinations_inner _ _ _ _ _ _ namespace_tuple); [done..|intros n].
  apply (combinations_inner _ _ _ _ _ _ sequence_tuple); [done..|intros s].
  apply (combinations_inner _ _ _ _ _ _ type_tuple _ _ (fun t => [MkSequence cls n s t])); done.
Qed.

Lemma sequences_answer rows :
  answer db sequences_query rows ->
  exists l, l ≡ₚ sequences c /\ StronglySorted sequence_le l /\ rows = sequence_row c <$> l.
Proof.
  intros H. destruct (answer_records db sequences_query (sequence_rows c) sequence_scope
    (fun s => bool_decide (relkind (sq_class s) = "S") && listed (nspname (sq_namespace s)))
    (fun s => [VName (nspname (sq_namespace s)); VName (relname (sq_class s))])
    (sequence_row c) rows) as (l & Hl & -> & Hs); [..|exact H|]; try done.
  - apply sequence_rows_scope.
  - by exists l.
Qed.

Lemma proc_rows_scope shuffle :
  combinations (eval_top shuffle) db [] [] (q_from functions_query) =
  Some ((fun p => [("p", Some (proc_tuple (pr_proc p))); ("n", Some (namespace_tuple (pr_namespace p)));
                   ("l", Some (language_tuple (pr_language p)))]) <$> proc_rows c).
Proof.
  apply (combinations_inner _ _ _ _ _ _ proc_tuple); [done..|intros p].
  apply (combinations_inner _ _ _ _ _ _ namespace_tuple); [done..|intros n].
  apply (combinations_inner _ _ _ _ _ _ language_tuple _ _ (fun l => [MkProc p n l])); done.
Qed.

Lemma functions_answer rows :
  answer db functions_query rows ->
  exists l, l ≡ₚ functions c /\ rows = function_row c <$> l.
Proof.
  intros H. destruct (answer_records db functions_query _ _ (fun p => listed (nspname (pr_namespace p)))
    (fun _ => []) (function_row c) rows eq_refl eq_refl proc_rows_scope) as (l & Hl & -> & _); [..|exact H|]; try done.
  by exists l.
Qed.

Lemma extensions_scope shuffle :
  combinations (eval_top shuffle) db [] [] (q_from extensions_query) =
  Some ((fun x => [("e", Some (extension_tuple (ex_extension x))); ("n", Some (namespace_tuple (ex_namespace x)))])
    <$> extensions c).
Proof.
  apply (combinations_inner _ _ _ _ _ _ extension_tuple); [done..|intros e].
  apply (combinations_inner _ _ _ _ _ _ namespace_tuple _ _ (fun n => [MkExtension e n])); done.
Qed.

Lemma extensions_answer rows :
  answer db extensions_query rows ->
  exists l, l ≡ₚ extensions c /\ StronglySorted extension_le l /\ rows = extension_row <$> l.
Proof.
  intros H. destruct (answer_records db extensions_query _ _ (fun _ => true)
    (fun e => [VName (extname (ex_extension e))]) extension_row rows eq_refl eq_refl extensions_scope)
    as (l & Hl & -> & Hs); [..|exact H|]; try done.
  exists l. split; [rewrite Hl; by rewrite filter_all|]. split; [|done].
  eapply StronglySorted_weaken; [|exact Hs]. intros x y Hle. exact (proj1 Hle).
Qed.

(** The one row of the query without tables; it has one if all settings are known. *)
Definition server_row (row : list value) : Prop :=
  exists shuffle, (forall q en ens, shuffle q en ens ≡ₚ ens) /\
    mapM (fun e => eval_top shuffle db None [[]] e.1) (q_select server_query) = Some row.

Lemma server_answer rows :
  answer db server_query rows -> exists row, rows = [row] /\ server_row row.
Proof.
  intros H. apply answer_constant in H as (shuffle & row & Hp & -> & H); try done. exists row. split; [done|].
  by exists shuffle.
Qed.
End answers.

(** ** Which schemas are listed *)

(** The underscore of the pattern stands for any character. *)
Lemma like_pg s : like (runes (s2b "pg_%")) s = true <-> exists r l, s = zbyte "p" :: zbyte "g" :: r :: l.
Proof.
  change (runes (s2b "pg_%")) with [zbyte "p"; zbyte "g"; 95; 37]%Z. split.
  - destruct s as [|x [|y [|r l]]]; simpl; rewrite ?andb_false_r; try done.
    intros H. apply andb_true_iff in H as [Hx H]. apply andb_true_iff in H as [Hy _].
    apply Z.eqb_eq in Hx as ->. apply Z.eqb_eq in Hy as ->. by exists r, l.
  - intros (r & l & ->). simpl. induction l as [|x l IH]; [done|exact IH].
Qed.

Lemma zbyte_inj c a : zbyte c = zbyte a -> c = a.
Proof.
  unfold zbyte, byte. intros E. apply Nat2Z.inj in E.
  by rewrite <- (ascii_nat_embedding a), <- (ascii_nat_embedding c), E.
Qed.

Lemma runes_low c s : byte c < 128 -> runes (c :: s) = zbyte c :: runes s.
Proof. intros H. unfold runes. cbn [length runes_fuel]. by rewrite decode_rune_low. Qed.

(** An ASCII rune is the encoding of nothing else. *)
Lemma runes_low_inv c s l :
  byte c < 128 -> runes s = zbyte c :: l -> exists s', s = c :: s' /\ runes s' = l.
Proof.
  intros Hc. destruct s as [|a s]; [done|]. destruct (decide (byte a < 128)) as [Ha|Ha].
  - rewrite runes_low by done. intros E. injection E as E1 E2. apply zbyte_inj in E1 as ->. by exists s.
  - pose proof (decode_rune_high a s) as Hh. unfold runes. cbn [length runes_fuel].
    destruct (decode_rune a s) as [x s1]. intros E. injection E as E1 _. simpl in Hh. unfold zbyte in *. lia.
Qed.

(** A schema is left out if it is information_schema or its name is pg with anything
    after it. *)
Lemma listed_iff name :
  listed name = true <->
  name <> "information_schema" /\ forall c rest, s2b name <> "p"%char :: "g"%char :: c :: rest.
Proof.
  unfold listed. rewrite andb_true_iff, !negb_true_iff, bool_decide_eq_false, <- not_true_iff_false, like_pg.
  rewrite (comm and). apply and_iff_compat_l. split.
  - intros H c rest E. apply H. rewrite E, !runes_low by (vm_compute; lia).
    unfold runes. cbn [length runes_fuel]. destruct (decode_rune c rest). eauto.
  - intros H (r & l & E). apply runes_low_inv in E as (s1 & E1 & E); [|vm_compute; lia].
    apply runes_low_inv in E as (s2 & -> & E); [|vm_compute; lia].
    destruct s2 as [|c s2]; [done|]. exact (H c s2 E1).
Qed.

(** ** The configuration of the cluster *)
Section config.
Variable c : Catalog.

(** The values under a key of monitoring.cluster_config. *)
Definition config_values (key : string) : list (string * string) :=
  filter (fun kv => bool_decide (kv.1 = key) = true) (cluster_config c).

Lemma stanza_answer rows :
  answer (database_of c) stanza_query rows ->
  exists l, l ≡ₚ config_values "stanza" /\ rows = (fun kv => [VText kv.2]) <$> l.
Proof.
  intros H. destruct (answer_records (database_of c) stanza_query (cluster_config c)
    (fun kv => [("monitoring.cluster_config", Some (config_tuple kv))])
    (fun kv => bool_decide (kv.1 = "stanza")) (fun _ => []) (fun kv => [VText kv.2]) rows) as (l & Hl & -> & _); [..|exact H|]; try done.
  - intros. by apply one_source.
  - by exists l.
Qed.

Lemma cluster_name_answer rows :
  answer (database_of c) cluster_name_query rows ->
  exists l, l ≡ₚ config_values "cluster_name" /\ rows = (fun kv => [VText kv.2]) <$> l.
Proof.
  intros H. destruct (answer_records (database_of c) cluster_name_query (cluster_config c)
    (fun kv => [("monitoring.cluster_config", Some (config_tuple kv))])
    (fun kv => bool_decide (kv.1 = "cluster_name")) (fun _ => []) (fun kv => [VText kv.2]) rows) as (l & Hl & -> & _); [..|exact H|]; try done.
  - intros. by apply one_source.
  - by exists l.
Qed.
End config.
