(* ===== verification/CatalogTables.v ===== *)
(** * Tables in the system catalogs

    What the query of tables.go selects in the catalogs: [table_like] describes a table
    by the rows of pg_class, pg_attribute, pg_index, pg_constraint and pg_inherits that
    belong to it.  The objects that the query builds of these rows are JSON, and those
    that tables.go reads; that the query answers with them is in TablesQuery.v. *)

From S2P Require Import Prelude GoStrings Json JsonDecode Types Runtime Scan Store SqlSyntax Sql SqlTyped Tables Jsonb Catalog.

(** ** What a table is *)

(** The schemas that the query leaves out are fewer than those of the other queries. *)
Definition user_schema (name : string) : bool :=
  negb (existsb (fun s => bool_decide (name = s)) ["pg_catalog"; "information_schema"; "pg_toast"]) &&
  (negb (like (runes (s2b "pg_temp_%")) (runes (s2b name))) &&
   negb (like (runes (s2b "pg_toast_temp_%")) (runes (s2b name)))).

Section tables.
Variable c : Catalog.

(** The columns at the positions of a key, with these; 0 stands for an expression and is
    no column's number. *)
Definition key_columns (rel : Z) (key : list Z) : list ((nat * Z) * PgAttribute) :=
  positions key ≫= fun p => if true then
  pg_attribute c ≫= fun a => if (attrelid a =? rel)%Z && (attnum a =? p.2)%Z then [(p, a)] else [] else [].

Definition names_of (rel : Z) (key : list Z) : list string := (fun x => attname x.2) <$> key_columns rel key.

(** An index with its row of pg_class, its table and its access method. *)
Record index := MkIndex { ix_index : PgIndex; ix_class : PgClass; ix_table : PgClass; ix_am : PgAm }.

Definition index_rows : list index :=
  pg_index c ≫= fun ix => if true then
  pg_class c ≫= fun cls => if (cls_oid cls =? indexrelid ix)%Z &&
    existsb (fun k => bool_decide (relkind cls = k)) ["i"; "I"] then
  pg_class c ≫= fun tbl => if (cls_oid tbl =? indrelid ix)%Z then
  pg_am c ≫= fun am => if (am_oid am =? relam cls)%Z then [MkIndex ix cls tbl am]
  else [] else [] else [] else [].

Definition in_user_schema (cls : PgClass) : bool :=
  existsb (fun n => (ns_oid n =? relnamespace cls)%Z && user_schema (nspname n)) (pg_namespace c).

Definition indexes : list index := filter (fun i => in_user_schema (ix_table i) = true) index_rows.

Definition index_item (i : index) : TableIndex := {|
  TableIndex_Name := relname (ix_class i);
  TableIndex_Type := amname (ix_am i);
  TableIndex_Definition := default EmptyString (pg_get_indexdef c (indexrelid (ix_index i)));
  TableIndex_Columns := names_of (indrelid (ix_index i)) (indkey (ix_index i));
  TableIndex_SizeBytes := default 0%Z (relation_size c (indexrelid (ix_index i)));
  TableIndex_IsUnique := indisunique (ix_index i);
  TableIndex_IsPrimary := indisprimary (ix_index i);
  TableIndex_IsExclusion := indisexclusion (ix_index i);
  TableIndex_IsPartial := match indpred (ix_index i) with Some _ => true | None => false end;
  TableIndex_IsValid := indisvalid (ix_index i);
  TableIndex_IsInherited := existsb (fun h => (inhrelid h =? indexrelid (ix_index i))%Z) (pg_inherits c) |}.

Definition constraint_types : list (string * string) :=
  [("p", "primary_key"); ("u", "unique"); ("f", "foreign_key"); ("c", "check"); ("x", "exclusion")].

Definition constraints : list PgConstraint :=
  filter (fun k => existsb (fun t => bool_decide (contype k = t)) constraint_types.*1 = true) (pg_constraint c).

(** Columns and table of a foreign key are those that it refers to. *)
Definition constraint_item (k : PgConstraint) : TableConstraint := {|
  TableConstraint_Name := conname k;
  TableConstraint_Type := default EmptyString (assoc (contype k) constraint_types);
  TableConstraint_ForeignTable := if bool_decide (contype k = "f") then regclass_name c (confrelid k) else EmptyString;
  TableConstraint_Definition := default EmptyString (pg_get_constraintdef c (con_oid k));
  TableConstraint_LocalColumns := names_of (conrelid k) (default [] (conkey k));
  TableConstraint_ForeignColumns :=
    if bool_decide (contype k = "f") then names_of (confrelid k) (default [] (confkey k)) else [] |}.

Definition parent_item (h : PgInherits) : InheritanceRelation :=
  MkInheritanceRelation (regclass_name c (inhparent h)) (inhparent h).

Definition column_item (a : PgAttribute) : TableColumn :=
  MkTableColumn (attname a) (format_type c (atttypid a) (Some (atttypmod a))) (attnotnull a) (0 <? attinhcount a)%Z.

(** The columns that a table has, without the system's and the dropped ones. *)
Definition attributes (cls : PgClass) : list PgAttribute :=
  filter (fun a => (attrelid a =? cls_oid cls)%Z && ((0 <? attnum a)%Z && negb (attisdropped a)) = true) (pg_attribute c).

Definition stats_item (cls : PgClass) : TableStats := {|
  TableStats_RowEstimate := reltuples cls;
  TableStats_TotalSizeBytes := default 0%Z (total_relation_size c (cls_oid cls));
  TableStats_HeapSizeBytes := default 0%Z (relation_size c (cls_oid cls));
  TableStats_ToastSizeBytes := default 0%Z (relation_size c (reltoastrelid cls)) |}.

(** A table, ordinary or partitioned, with its schema. *)
Definition table_rows : list (PgClass * PgNamespace) :=
  pg_class c ≫= fun cls => if true then
  pg_namespace c ≫= fun n => if (ns_oid n =? relnamespace cls)%Z then [(cls, n)] else [] else [].

Definition tables : list (PgClass * PgNamespace) :=
  filter (fun x => existsb (fun k => bool_decide (relkind x.1 = k)) ["r"; "p"] && user_schema (nspname x.2) = true)
    table_rows.

(** [t] is the table of [x]: its columns by their numbers, its parents in the order of
    inheritance, its indexes and constraints in any order. *)
Record table_like (x : PgClass * PgNamespace) (t : Table) : Prop := {
  tl_oid : Table_Oid t = cls_oid x.1;
  tl_name : Table_Name t = relname x.1;
  tl_schema : Table_Schema t = nspname x.2;
  tl_owner : Table_Owner t = role_name c (relowner x.1);
  tl_comment : Table_Comment t = obj_description c (cls_oid x.1);
  tl_stats : Table_Stats t = stats_item x.1;
  tl_columns : exists l, l ≡ₚ attributes x.1 /\ StronglySorted (fun a b => attnum a <= attnum b)%Z l /\
    Table_TableColumns t = (Some ∘ column_item) <$> l;
  tl_indexes : Table_TableIndexes t ≡ₚ
    (Some ∘ index_item) <$> filter (fun i => indrelid (ix_index i) = cls_oid x.1) indexes;
  tl_constraints : Table_TableConstraints t ≡ₚ
    (Some ∘ constraint_item) <$> filter (fun k => conrelid k = cls_oid x.1) constraints;
  tl_parents : exists l, l ≡ₚ filter (fun h => inhrelid h = cls_oid x.1) (pg_inherits c) /\
    StronglySorted (fun a b => inhseqno a <= inhseqno b)%Z l /\
    TableInheritance_ParentTables (Table_Inheritance t) = (Some ∘ parent_item) <$> l
}.

(** What PostgreSQL documents of its catalogs: keys are unique, what the functions show
    of objects in the catalogs is there and in range, and texts are UTF-8. *)
Definition bigint_size (o : option Z) : Prop := exists n, o = Some n /\ (0 <= n < 2 ^ 63)%Z.
Definition good_text (s : string) : Prop := utf8 (s2b s).
Definition good_text_opt (o : option string) : Prop := exists s, o = Some s /\ good_text s.

Record catalog_wf : Prop := {
  wf_attributes : NoDup ((fun a => (attrelid a, attnum a)) <$> pg_attribute c);
  wf_indexes : NoDup (indexrelid <$> pg_index c);
  wf_class cls : cls ∈ pg_class c -> uint32 (cls_oid cls) /\ int64 (reltuples cls) /\ good_text (relname cls) /\
    bigint_size (relation_size c (cls_oid cls)) /\ bigint_size (total_relation_size c (cls_oid cls)) /\
    (relation_size c (reltoastrelid cls) = None \/ bigint_size (relation_size c (reltoastrelid cls)));
  wf_attribute a : a ∈ pg_attribute c ->
    good_text (attname a) /\ good_text (format_type c (atttypid a) (Some (atttypmod a)));
  wf_index ix : ix ∈ pg_index c -> good_text_opt (pg_get_indexdef c (indexrelid ix));
  wf_am am : am ∈ pg_am c -> good_text (amname am);
  wf_constraint k : k ∈ pg_constraint c -> good_text (conname k) /\ good_text_opt (pg_get_constraintdef c (con_oid k));
  wf_regclass o : good_text (regclass_name c o) /\ regclass_name c o <> EmptyString;
  wf_inherits h : h ∈ pg_inherits c -> uint32 (inhparent h)
}.
End tables.

(** ** The columns of a key *)
Section keys.
Context {c : Catalog} (W : catalog_wf c).

Lemma attribute_unique rel n :
  filter (fun a => (attrelid a =? rel)%Z && (attnum a =? n)%Z = true) (pg_attribute c) = [] \/
  exists a, filter (fun a => (attrelid a =? rel)%Z && (attnum a =? n)%Z = true) (pg_attribute c) = [a].
Proof using W.
  apply (filter_unique (fun a => (attrelid a, attnum a))); [apply (wf_attributes c W)|].
  intros x y [?%Z.eqb_eq ?%Z.eqb_eq]%andb_true_iff [?%Z.eqb_eq ?%Z.eqb_eq]%andb_true_iff. congruence.
Qed.

Definition position_key (x : (nat * Z) * PgAttribute) : list value := [VInt8 (Z.of_nat x.1.1)].

Lemma positions_sorted {B} (G : nat * Z -> list B) (pos : B -> nat) key :
  (forall p, G p = [] \/ exists x, G p = [x] /\ pos x = p.1) ->
  StronglySorted (fun x y => pos x < pos y) (positions key ≫= G).
Proof.
  intros HG. unfold positions. generalize 1. intros k.
  assert (Forall (fun x => k <= pos x) (zip (seq k (length key)) key ≫= G) /\
    StronglySorted (fun x y => pos x < pos y) (zip (seq k (length key)) key ≫= G)) as [_ H]; [|exact H].
  revert k. induction key as [|n key IH]; intros k; [split; constructor|]. csimpl.
  destruct (IH (S k)) as [Hf Hs]. change (zip_with pair ?l ?k) with (zip l k).
  destruct (HG (k, n)) as [->|(x & -> & Hx)]; simpl in *.
  - split; [|done]. eapply Forall_impl; [exact Hf|simpl; lia].
  - split; (constructor; [|try done]); [lia|eapply Forall_impl; [exact Hf|simpl; lia]|done|].
    eapply Forall_impl; [exact Hf|simpl; lia].
Qed.

Lemma key_columns_sorted rel key :
  StronglySorted (fun x y => keys_le (position_key x) (position_key y) /\ ~ keys_le (position_key y) (position_key x))
    (key_columns c rel key).
Proof using W.
  eapply StronglySorted_weaken; [|apply (positions_sorted _ (fun x => x.1.1))].
  - intros x y Hlt. simpl in *. lia.
  - intros p. rewrite <- (filter_if (fun a => (attrelid a =? rel)%Z && (attnum a =? p.2)%Z)).
    destruct (attribute_unique rel p.2) as [E|[a E]]; rewrite E; [by left|right]. by exists (p, a).
Qed.

(** Ordered by their positions they are the columns of the key. *)
Lemma key_columns_names rel key ys :
  ys ≡ₚ key_columns c rel key -> (fun x => attname x.2) <$> sort_on position_key ys = names_of c rel key.
Proof using W. intros Hp. unfold names_of. f_equal. apply sort_on_unique; [apply key_columns_sorted|done]. Qed.
End keys.

(** ** The objects of the query are JSON, and those that tables.go reads *)

Definition index_members (x : TableIndex) : list (string * json) :=
  [("name", text (TableIndex_Name x)); ("type", text (TableIndex_Type x));
   ("columns", text_array (TableIndex_Columns x)); ("is_unique", JBool (TableIndex_IsUnique x));
   ("is_primary", JBool (TableIndex_IsPrimary x)); ("is_exclusion", JBool (TableIndex_IsExclusion x));
   ("is_partial", JBool (TableIndex_IsPartial x)); ("is_valid", JBool (TableIndex_IsValid x));
   ("is_inherited", JBool (TableIndex_IsInherited x)); ("size_bytes", JNum (z_text (TableIndex_SizeBytes x)));
   ("definition", text (TableIndex_Definition x))].

Definition constraint_members (x : TableConstraint) : list (string * json) :=
  [("name", text (TableConstraint_Name x)); ("type", text (TableConstraint_Type x));
   ("local_columns", text_array (TableConstraint_LocalColumns x));
   ("foreign_table", text_or_null (TableConstraint_ForeignTable x));
   ("foreign_columns", text_array (TableConstraint_ForeignColumns x));
   ("definition", text (TableConstraint_Definition x))].

Definition parent_members (x : InheritanceRelation) : list (string * json) :=
  [("oid", JNum (z_text (InheritanceRelation_Oid x))); ("name", text (InheritanceRelation_Name x))].

Definition column_members (x : TableColumn) : list (string * json) :=
  [("name", text (TableColumn_Name x)); ("type", text (TableColumn_Type x));
   ("not_null", JBool (TableColumn_NotNull x)); ("is_inherited", JBool (TableColumn_IsInherited x))].

Definition stats_members (x : TableStats) : list (string * json) :=
  [("row_estimate", JNum (z_text (TableStats_RowEstimate x)));
   ("total_size_bytes", JNum (z_text (TableStats_TotalSizeBytes x)));
   ("heap_size_bytes", JNum (z_text (TableStats_HeapSizeBytes x)));
   ("toast_size_bytes", JNum (z_text (TableStats_ToastSizeBytes x)))].

Definition jsonb_of {A} (members : A -> list (string * json)) (x : A) : json := jsonb_object (as_members (members x)).

Lemma index_members_json x : index_json x (jsonb_of index_members x).
Proof. eexists. split; [apply decimal_text|]. apply obj_jsonb. member_names. Qed.

Lemma constraint_members_json x : constraint_json x (jsonb_of constraint_members x).
Proof. apply obj_jsonb. member_names. Qed.

Lemma parent_members_json x : parent_json x (jsonb_of parent_members x).
Proof. eexists. split; [apply decimal_text|]. apply obj_jsonb. member_names. Qed.

Lemma column_members_json x : column_json x (jsonb_of column_members x).
Proof. apply obj_jsonb. member_names. Qed.

Lemma stats_members_json x : stats_json x (jsonb_of stats_members x).
Proof. do 4 eexists. do 4 (split; [apply decimal_text|]). apply obj_jsonb. member_names. Qed.

(** An aggregate of objects as a column, and a row of the answer for a table. *)
Definition aggregate_shows {A} (one : A -> json -> Prop) (l : list (option A)) (o : option json) : Prop :=
  jsonb_agg one l o /\ from_option (wf 0) True o.

Definition row_shows (t : Table) (row : list value) : Prop :=
  exists stats columns indexes constraints inheritance,
    row = [VOid (Table_Oid t); VText (Table_Name t); VText (Table_Schema t); VText (Table_Owner t);
           opt_value VText (Table_Comment t); VJson stats; opt_value VJson columns; opt_value VJson indexes;
           opt_value VJson constraints; VJson inheritance] /\
    (stats_json (Table_Stats t) stats /\ wf 0 stats) /\ aggregate_shows column_json (Table_TableColumns t) columns /\
    aggregate_shows index_json (Table_TableIndexes t) indexes /\ aggregate_shows constraint_json (Table_TableConstraints t) constraints /\
    (inheritance_json (Table_Inheritance t) inheritance /\ wf 0 inheritance).

Lemma objects_shown {A X} (one : X -> json -> Prop) (item : A -> X) (members : X -> list (string * json)) l :
  (forall x, one x (jsonb_of members x)) -> (forall a, a ∈ l -> wf 1 (jsonb_of members (item a))) ->
  aggregate_shows one ((Some ∘ item) <$> l) (agg_json ((fun a => jsonb_of members (item a)) <$> l)).
Proof.
  intros Ho Hw. split.
  - rewrite list_fmap_compose. apply agg_json_elements, Forall2_fmap_r, Forall2_fmap_l, Forall_Forall2_diag, Forall_true.
    intros a. apply Ho.
  - destruct l as [|a l]; [done|]. simpl. constructor; [apply low_depth; lia|].
    change (Forall (wf 1) ((fun a => jsonb_of members (item a)) <$> (a :: l))). apply Forall_fmap, Forall_forall, Hw.
Qed.

Lemma parents_shown {A} (item : A -> InheritanceRelation) l :
  (forall a, wf 2 (jsonb_of parent_members (item a))) ->
  let js := agg_json ((fun a => jsonb_of parent_members (item a)) <$> l) in
  let j := jsonb_object (as_members [("parent_tables", default JNull js)]) in
  inheritance_json (MkTableInheritance ((Some ∘ item) <$> l)) j /\ wf 0 j.
Proof.
  intros Hw js j. split.
  - exists js. split; [|apply obj_jsonb; member_names]. simpl.
    rewrite list_fmap_compose. apply agg_json_elements, Forall2_fmap_r, Forall2_fmap_l, Forall_Forall2_diag, Forall_true.
    intros a. apply parent_members_json.
  - members_wf. subst js. destruct l as [|a l]; simpl; constructor; [apply low_depth; lia|].
    change (Forall (wf 2) ((fun a => jsonb_of parent_members (item a)) <$> (a :: l))). by apply Forall_fmap, Forall_true.
Qed.

Definition table_of (c : Catalog) (x : PgClass * PgNamespace) (cols : list PgAttribute) (ixs : list index) (cons : list PgConstraint)
    (parents : list PgInherits) : Table := {|
  Table_Name := relname x.1; Table_Schema := nspname x.2; Table_Owner := role_name c (relowner x.1);
  Table_Comment := obj_description c (cls_oid x.1); Table_TableColumns := (Some ∘ column_item c) <$> cols;
  Table_TableIndexes := (Some ∘ index_item c) <$> ixs; Table_TableConstraints := (Some ∘ constraint_item c) <$> cons;
  Table_Inheritance := MkTableInheritance ((Some ∘ parent_item c) <$> parents);
  Table_Stats := stats_item c x.1; Table_Oid := cls_oid x.1 |}.

Section members_wf.
Context {c : Catalog} (W : catalog_wf c).

Lemma key_columns_elem rel key x : x ∈ key_columns c rel key -> x.2 ∈ pg_attribute c.
Proof.
  unfold key_columns. intros (p & Hx & _)%list_elem_of_bind. apply list_elem_of_bind in Hx as (a & Hx & Ha).
  destruct (_ && _); [|by apply not_elem_of_nil in Hx]. by apply list_elem_of_singleton in Hx as ->.
Qed.

Lemma names_good rel key : Forall good_text (names_of c rel key).
Proof using W.
  apply Forall_fmap, Forall_forall. intros x Hx%key_columns_elem. by apply (wf_attribute c W).
Qed.

Lemma good_default o : good_text_opt o -> good_text (default EmptyString o).
Proof. by intros (s & -> & Hs). Qed.

Lemma index_members_wf i :
  ix_index i ∈ pg_index c -> ix_class i ∈ pg_class c -> ix_am i ∈ pg_am c -> wf 1 (jsonb_of index_members (index_item c i)).
Proof using W.
  intros Hix Hcls Ham. members_wf.
  - by apply (wf_class c W).
  - by apply (wf_am c W).
  - apply names_good.
  - by apply good_default, (wf_index c W).
Qed.

Lemma constraint_members_wf k : k ∈ pg_constraint c -> wf 1 (jsonb_of constraint_members (constraint_item c k)).
Proof using W.
  intros Hk. members_wf.
  - by apply (wf_constraint c W).
  - simpl. unfold constraint_types, assoc. repeat (case_decide; [apply utf8_ascii; reflexivity|]). apply utf8_ascii. reflexivity.
  - apply names_good.
  - simpl. case_bool_decide; [apply (wf_regclass c W)|apply utf8_ascii; reflexivity].
  - simpl. case_bool_decide; [apply names_good|constructor].
  - apply good_default. by apply (wf_constraint c W).
Qed.

Lemma parent_members_wf h : wf 2 (jsonb_of parent_members (parent_item c h)).
Proof using W. members_wf. apply (wf_regclass c W). Qed.

Lemma column_members_wf a : a ∈ pg_attribute c -> wf 1 (jsonb_of column_members (column_item c a)).
Proof using W. intros Ha. members_wf; by apply (wf_attribute c W). Qed.

Lemma stats_members_wf x : wf 0 (jsonb_of stats_members x).
Proof. members_wf. Qed.

(** *** A table with its parts *)
Section parts.
Variables (x : PgClass * PgNamespace) (cols : list PgAttribute) (ixs : list index) (cons : list PgConstraint)
  (parents : list PgInherits).
Hypothesis x_class : x.1 ∈ pg_class c.
Hypothesis cols_all : cols ≡ₚ attributes c x.1.
Hypothesis cols_sorted : StronglySorted (fun a b => attnum a <= attnum b)%Z cols.
Hypothesis ixs_all : ixs ≡ₚ filter (fun i => indrelid (ix_index i) = cls_oid x.1) (indexes c).
Hypothesis cons_all : cons ≡ₚ filter (fun k => conrelid k = cls_oid x.1) (constraints c).
Hypothesis parents_all : parents ≡ₚ filter (fun h => inhrelid h = cls_oid x.1) (pg_inherits c).
Hypothesis parents_sorted : StronglySorted (fun a b => inhseqno a <= inhseqno b)%Z parents.
Let t := table_of c x cols ixs cons parents.

Lemma table_of_like : table_like c x t.
Proof using cols_all cols_sorted ixs_all cons_all parents_all parents_sorted.
  split; try done; simpl; [by exists cols|by rewrite ixs_all|by rewrite cons_all|by exists parents].
Qed.

Lemma index_row_elem i : i ∈ index_rows c -> ix_index i ∈ pg_index c /\ ix_class i ∈ pg_class c /\
  ix_am i ∈ pg_am c /\ cls_oid (ix_class i) = indexrelid (ix_index i).
Proof using.
  unfold index_rows. intros (ix & Hi & Hix)%list_elem_of_bind. apply list_elem_of_bind in Hi as (cls & Hi & Hcls).
  destruct (_ && _) eqn:E; [|by apply not_elem_of_nil in Hi]. apply andb_true_iff in E as [E%Z.eqb_eq _].
  apply list_elem_of_bind in Hi as (tbl & Hi & _). destruct (_ =? _)%Z; [|by apply not_elem_of_nil in Hi].
  apply list_elem_of_bind in Hi as (am & Hi & Ham). destruct (_ =? _)%Z; [|by apply not_elem_of_nil in Hi].
  by apply list_elem_of_singleton in Hi as ->.
Qed.

Lemma ixs_rows i : i ∈ ixs -> ix_index i ∈ pg_index c /\ ix_class i ∈ pg_class c /\
  ix_am i ∈ pg_am c /\ cls_oid (ix_class i) = indexrelid (ix_index i).
Proof using ixs_all.
  rewrite ixs_all. intros [_ [_ Hi]%list_elem_of_filter]%list_elem_of_filter. by apply index_row_elem.
Qed.

Lemma size_default o : bigint_size o -> uint64 (default 0%Z o).
Proof. intros (n & -> & Hn). unfold uint64. simpl. lia. Qed.

Lemma table_of_wf : Table_wf t.
Proof using W x_class ixs_all parents_all.
  destruct (wf_class c W _ x_class) as (Ho & Hr & _ & Hh & Ht & Hto). unfold Table_wf. simpl.
  split_and!; [done|done|by apply size_default|by apply size_default| | |].
  - destruct Hto as [->|Hto]; [done|by apply size_default].
  - apply Forall_fmap, Forall_forall. intros i (_ & Hc & _ & E)%ixs_rows. simpl. rewrite <- E.
    apply size_default. by apply (wf_class c W).
  - apply Forall_fmap, Forall_forall. intros h. rewrite parents_all. intros [_ Hh']%list_elem_of_filter. simpl.
    by apply (wf_inherits c W).
Qed.

Lemma table_of_shows :
  row_shows t [VOid (cls_oid x.1); VText (relname x.1); VText (nspname x.2); VText (role_name c (relowner x.1));
    opt_value VText (obj_description c (cls_oid x.1)); VJson (jsonb_of stats_members (stats_item c x.1));
    jsons_value ((fun a => jsonb_of column_members (column_item c a)) <$> cols);
    jsons_value ((fun i => jsonb_of index_members (index_item c i)) <$> ixs);
    jsons_value ((fun k => jsonb_of constraint_members (constraint_item c k)) <$> cons);
    VJson (jsonb_object (as_members [("parent_tables",
      default JNull (agg_json ((fun h => jsonb_of parent_members (parent_item c h)) <$> parents)))]))].
Proof using W cols_all ixs_all cons_all.
  do 5 eexists. rewrite !jsons_value_agg. split; [reflexivity|].
  split; [split; [apply stats_members_json|apply stats_members_wf]|].
  split; [|split; [|split]].
  - apply objects_shown; [apply column_members_json|]. intros a. rewrite cols_all.
    intros [_ Ha]%list_elem_of_filter. by apply column_members_wf.
  - apply objects_shown; [apply index_members_json|]. intros i (H1 & H2 & H3 & _)%ixs_rows. by apply index_members_wf.
  - apply objects_shown; [apply constraint_members_json|]. intros k. rewrite cons_all.
    intros [_ [_ Hk]%list_elem_of_filter]%list_elem_of_filter. by apply constraint_members_wf.
  - apply parents_shown. apply parent_members_wf.
Qed.
End parts.
End members_wf.
