(* ===== verification/TablesQuery.v ===== *)
(** * The answers of the query of tables.go

    The query is evaluated symbolically on any catalogs that are well-formed, query of
    WITH by query and join by join: [tables_answer] says that its answers have one row
    for each table of the user's schemas, which shows that table.  The depths in the
    lemmas are those at which [max_depth] leaves each part to be evaluated. *)

From S2P Require Import Prelude GoStrings Json JsonDecode Types Runtime Scan Store SqlSyntax Sql SqlTyped Tables Jsonb Catalog CatalogTables.

(** ** The queries of WITH *)

Definition cte (name : string) : query := default no_query (assoc name (q_withs tables_query)).

Definition index_names_query : query := Eval vm_compute in cte "index_column_names".
Definition index_data_query : query := Eval vm_compute in cte "index_data".
Definition index_agg_query : query := Eval vm_compute in cte "index_agg".
Definition constraint_data_query : query := Eval vm_compute in cte "constraint_data".
Definition parents_query : query := Eval vm_compute in cte "inheritance_parents".

Lemma tables_query_withs : q_withs tables_query =
  [("index_column_names", index_names_query); ("index_data", index_data_query); ("index_agg", index_agg_query);
   ("constraint_data", constraint_data_query); ("inheritance_parents", parents_query)].
Proof. vm_compute. reflexivity. Qed.

(** An expression of a select list. *)
Definition selected_at (q : query) (i : nat) : expr := default ENull (fst <$> q_select q !! i).

Definition index_expr : expr := Eval vm_compute in selected_at index_data_query 2.


Definition constraint_expr : expr := Eval vm_compute in
  match selected_at constraint_data_query 1 with ECall _ [e] _ => e | _ => ENull end.
Definition parent_expr : expr := Eval vm_compute in
  match selected_at parents_query 1 with ECall _ [e] _ => e | _ => ENull end.

Definition stats_expr : expr := Eval vm_compute in selected_at tables_query 5.
Definition columns_expr : expr := Eval vm_compute in selected_at tables_query 6.
Definition inheritance_expr : expr := Eval vm_compute in selected_at tables_query 9.

Section ctes.
Context {c : Catalog} (W : catalog_wf c).
Variable shuffle : query -> env -> list env -> list env.
Hypothesis shuffle_perm : forall q en ens, shuffle q en ens ≡ₚ ens.
Let db := database_of c.

(** *** index_column_names *)

Definition key_row : Type := PgIndex * ((nat * Z) * PgAttribute).

Definition key_rows : list key_row :=
  pg_index c ≫= fun ix => if true then pair ix <$> key_columns c (indrelid ix) (indkey ix) else [].

Definition ordinal_tuple (p : nat * Z) : tuple := [("attnum", VInt4 p.2); ("n", VInt8 (Z.of_nat p.1))].

Definition key_scope (x : key_row) : scope :=
  [("ix", Some (index_tuple x.1)); ("ord", Some (ordinal_tuple x.2.1)); ("a", Some (attribute_tuple x.2.2))].

Lemma key_rows_scope :
  combinations (Sql.eval shuffle 18) db [] [] (q_from index_names_query) = Some (key_scope <$> key_rows).
Proof.
  apply (combinations_inner _ _ _ _ _ _ index_tuple); [done..|intros ix].
  rewrite <- list_fmap_compose.
  apply (combinations_inner _ _ _ _ _ _ ordinal_tuple); [done..|intros p].
  apply (combinations_inner _ _ _ _ _ _ attribute_tuple _ _ (fun a => [(p, a)])); done.
Qed.

Definition index_names_tuple (ix : PgIndex) : tuple :=
  [("indexrelid", VOid (indexrelid ix)); ("indrelid", VOid (indrelid ix));
   ("columns", names_value (names_of c (indrelid ix) (indkey ix)))].

Lemma key_rows_elem x : x ∈ key_rows <-> x.1 ∈ pg_index c /\ x.2 ∈ key_columns c (indrelid x.1) (indkey x.1).
Proof.
  unfold key_rows. rewrite list_elem_of_bind. split.
  - intros (ix & Hx & Hix). apply list_elem_of_fmap in Hx as (y & -> & Hy). by split.
  - intros [Hix Hx]. exists x.1. split; [|done]. apply list_elem_of_fmap. exists x.2. by destruct x.
Qed.

(** The rows of one index. *)
Lemma key_rows_index ix :
  ix ∈ pg_index c ->
  filter (fun x : key_row => indexrelid x.1 = indexrelid ix) key_rows = pair ix <$> key_columns c (indrelid ix) (indkey ix).
Proof using W.
  apply (filter_bind_unique indexrelid (fun x : key_row => indexrelid x.1)); [apply (wf_indexes c W)|].
  by intros ix' x (y & -> & Hy)%list_elem_of_fmap.
Qed.

Lemma index_unique ix ix' : ix ∈ pg_index c -> ix' ∈ pg_index c -> indexrelid ix = indexrelid ix' -> ix = ix'.
Proof using W.
  intros [i Hi]%list_elem_of_lookup [j Hj]%list_elem_of_lookup E.
  assert (i = j) as ->; [|congruence]. eapply NoDup_lookup; [apply (wf_indexes c W)| |].
  - rewrite list_lookup_fmap, Hi. done.
  - rewrite list_lookup_fmap, Hj. simpl. by rewrite E.
Qed.

(** The query has a row for each index with a column. *)
Lemma index_names_run :
  exists ixs, Sql.run shuffle 19 db [] index_names_query = Some (index_names_tuple <$> ixs) /\
    NoDup (indexrelid <$> ixs) /\ (forall ix, ix ∈ ixs -> ix ∈ pg_index c) /\
    (forall ix, ix ∈ pg_index c -> indexrelid ix ∉ indexrelid <$> ixs -> key_columns c (indrelid ix) (indkey ix) = []).
Proof using W shuffle_perm.
  rewrite run_S. set (rn := Sql.run shuffle _).
  assert (matches (Sql.eval shuffle 18) db [] index_names_query =
    Some ((fun x => [key_scope x]) <$> key_rows)) as Hm.
  { apply matches_all; [done|apply key_rows_scope]. }
  destruct (run_groups shuffle shuffle_perm _ rn db db [] index_names_query _ key_rows eq_refl Hm
    (fun x : key_row => indexrelid x.1) (fun x : key_row => [VOid (indexrelid x.1); VOid (indrelid x.1)])
    (fun k g t => exists ix, ix ∈ pg_index c /\ indexrelid ix = k /\
        t = [("indexrelid", VOid (indexrelid ix)); ("indrelid", VOid (indrelid ix));
             ("columns", names_value ((fun x : key_row => attname x.2.2) <$> sort_on (fun x => position_key x.2) g))]))
    as (gs & ts & Hp & HF & ->); try done.
  - intros x y [Hx _]%key_rows_elem [Hy _]%key_rows_elem. rewrite <- same_oids. cbn [same_keys].
    destruct (Z.eqb_spec (indexrelid x.1) (indexrelid y.1)) as [E|E].
    + apply index_unique in E; [|done..]. rewrite E. cbn. by rewrite !Z.eqb_refl.
    + cbn. by rewrite (proj2 (Z.eqb_neq _ _) E).
  - intros k x g Hg. destruct (Hg x) as [[Hx _]%key_rows_elem Hid]; [constructor|]. eexists. split; [|by exists x.1].
    unfold select_row. cbn [q_order q_select index_names_query mapM mbind option_bind fst snd].
    rewrite (eval_S _ _ _ _ _ (ECall _ _ _)). cbn [eval_at].
    rewrite (array_agg_call _ db [key_scope x] _ _ (fun x => [key_scope x]) (fun x => position_key x.2)
      (fun x : key_row => attname x.2.2)); done.
  - destruct (Forall2_choose (fun kg ix => ix ∈ pg_index c /\ indexrelid ix = kg.1) index_names_tuple gs ts)
      as (ixs & Hixs & ->).
    { eapply Forall2_impl_in; [exact HF|]. intros [k g] t Hkg (ix & Hix & Hk & ->). exists ix. split; [done|].
      unfold index_names_tuple. do 5 f_equal. cbn [fst snd] in *. subst k.
      apply (partition_group _ _ _ _ _ Hp) in Hkg. rewrite key_rows_index in Hkg by done.
      rewrite (sort_on_unique _ (pair ix <$> key_columns c (indrelid ix) (indkey ix)) g); [|..|exact Hkg].
      - rewrite <- list_fmap_compose. reflexivity.
      - eapply StronglySorted_fmap; [|apply (key_columns_sorted W)]. done. }
    assert (indexrelid <$> ixs = gs.*1) as E.
    { clear -Hixs. induction Hixs as [|kg ix gs ixs [_ Hk] _ IH]; [done|]. csimpl. by rewrite Hk, IH. }
    exists ixs. split; [done|]. split; [rewrite E; apply Hp|]. split.
    + intros ix Hix. apply list_elem_of_lookup in Hix as [i Hi].
      destruct (Forall2_lookup_r _ _ _ _ _ Hixs Hi) as (kg & _ & H & _). exact H.
    + intros ix Hix Hn. rewrite E in Hn. apply (partition_none _ _ _ _ Hp) in Hn. rewrite key_rows_index in Hn by done.
      by destruct (key_columns _ _ _).
Qed.

(** *** index_data *)
Section index_data.
Variable ixs : list PgIndex.
Hypothesis ixs_unique : NoDup (indexrelid <$> ixs).
Hypothesis ixs_index : forall ix, ix ∈ ixs -> ix ∈ pg_index c.
Hypothesis ixs_all : forall ix,
  ix ∈ pg_index c -> indexrelid ix ∉ indexrelid <$> ixs -> key_columns c (indrelid ix) (indkey ix) = [].

Definition db_names : Sql.Database := with_relation "index_column_names" (index_names_tuple <$> ixs) db.

Definition index_scope (i : index) : scope :=
  [("ix", Some (index_tuple (ix_index i))); ("idx", Some (class_tuple (ix_class i)));
   ("tbl", Some (class_tuple (ix_table i))); ("am", Some (am_tuple (ix_am i)));
   ("ic", index_names_tuple <$> lookup_key indexrelid ixs (indexrelid (ix_index i)))].

Lemma index_scopes :
  combinations (Sql.eval shuffle 18) db_names [] [] (q_from index_data_query) =
  Some (index_scope <$> index_rows c).
Proof using ixs_unique.
  apply (combinations_inner _ _ _ _ _ _ index_tuple); [done..|intros ix].
  apply (combinations_inner _ _ _ _ _ _ class_tuple); [done..|intros cls].
  apply (combinations_inner _ _ _ _ _ _ class_tuple); [done..|intros tbl].
  apply (combinations_inner _ _ _ _ _ _ am_tuple _ _ (fun am => [MkIndex ix cls tbl am])); [done..|intros am].
  by apply (combinations_left _ _ _ _ _ _ index_names_tuple ixs indexrelid (indexrelid ix)).
Qed.

(** The names of an index's columns are those of its key. *)
Lemma index_names i :
  ix_index i ∈ pg_index c ->
  column [index_scope i] (Some "ic") "columns" =
  Some (names_value (names_of c (indrelid (ix_index i)) (indkey (ix_index i)))).
Proof using W ixs_index ixs_all.
  intros Hi. unfold index_scope. pose proof (lookup_key_spec indexrelid ixs (indexrelid (ix_index i))) as H.
  destruct (lookup_key _ _ _) as [ix|].
  - destruct H as [H E]. apply index_unique in E as ->; [done| |done]. by apply ixs_index.
  - apply ixs_all in H; [|done]. unfold names_of. by rewrite H.
Qed.

(** The EXISTS of the condition. *)
Lemma index_condition i :
  test (Sql.eval shuffle 18) db_names [index_scope i] (q_where index_data_query) =
  Some (in_user_schema c (ix_table i)).
Proof using shuffle_perm.
  unfold test. cbn [q_where index_data_query].
  rewrite (eval_exists shuffle shuffle_perm _ db_names None [index_scope i] _
    (fun n => [[("n", Some (namespace_tuple n))]; index_scope i]) (pg_namespace c)
    (fun n => (ns_oid n =? relnamespace (ix_table i))%Z && user_schema (nspname n))); [done|done|done| |].
  - apply matches_typed; [by apply one_source|done].
  - intros n. by eexists.
Qed.

Lemma index_inherited i :
  Sql.eval shuffle 17 db_names None [index_scope i]
    (EExists (Query [] [(ENum 1, "?column?")] [Source (ITable "pg_inherits") "inh" [] JInner None]
       (Some (EEq (EColumn (Some "inh") "inhrelid") (EColumn (Some "ix") "indexrelid"))) [] [])) =
  Some (VBool (TableIndex_IsInherited (index_item c i))).
Proof using shuffle_perm.
  apply (eval_exists shuffle shuffle_perm _ db_names None [index_scope i] _
    (fun h => [[("inh", Some (inherits_tuple h))]; index_scope i]) (pg_inherits c)
    (fun h => (inhrelid h =? indexrelid (ix_index i))%Z)); [done|done| |].
  - apply matches_typed; [by apply one_source|done].
  - intros n. by eexists.
Qed.

(** *** The object of an index *)

Definition index_values (i : index) : list (string * value) :=
  let x := index_item c i in
  [("name", VName (TableIndex_Name x)); ("type", VName (TableIndex_Type x));
   ("columns", names_value (TableIndex_Columns x)); ("is_unique", VBool (TableIndex_IsUnique x));
   ("is_primary", VBool (TableIndex_IsPrimary x)); ("is_exclusion", VBool (TableIndex_IsExclusion x));
   ("is_partial", VBool (TableIndex_IsPartial x)); ("is_valid", VBool (TableIndex_IsValid x));
   ("is_inherited", VBool (TableIndex_IsInherited x)); ("size_bytes", VInt8 (TableIndex_SizeBytes x));
   ("definition", VText (TableIndex_Definition x))].

Lemma index_eval i :
  i ∈ index_rows c ->
  Sql.eval shuffle 18 db_names None [index_scope i] index_expr =
  Some (VJson (jsonb_of index_members (index_item c i))).
Proof using W shuffle_perm ixs_index ixs_all.
  intros Hi. apply index_row_elem in Hi as (Hix & Hcls & _ & E).
  destruct (wf_index c W _ Hix) as (def & Hd & _).
  destruct (wf_class c W _ Hcls) as (_ & _ & _ & (size & Hs & _) & _). rewrite E in Hs.
  apply (eval_object _ _ _ _ _ _ (index_values i)).
  - unfold object_values, index_values. cbn [mbind list_bind fst snd app].
    repeat (apply mapM_cons_Some; [first [apply index_inherited|by apply index_names|reflexivity|idtac]|]);
      [..|reflexivity].
    + trans (Some (VBool (negb (is_null (opt_value VText (indpred (ix_index i))))))); [reflexivity|].
      simpl. by destruct (indpred _).
    + trans (Some (opt_value VInt8 (relation_size c (indexrelid (ix_index i))))); [reflexivity|]. simpl. by rewrite Hs.
    + trans (Some (opt_value VText (pg_get_indexdef c (indexrelid (ix_index i))))); [reflexivity|]. simpl. by rewrite Hd.
  - unfold index_values, index_members. repeat (constructor; [split; [done|first [done|apply to_json_names]]|]).
    constructor.
Qed.

Definition index_data_tuple (i : index) : tuple :=
  [("table_oid", VOid (indrelid (ix_index i))); ("index_oid", VOid (indexrelid (ix_index i)));
   ("index_json", VJson (jsonb_of index_members (index_item c i)))].

Lemma index_data_run :
  exists l, l ≡ₚ indexes c /\
  Sql.run shuffle 19 db_names [] index_data_query = Some (index_data_tuple <$> l).
Proof using W shuffle_perm ixs_unique ixs_index ixs_all.
  rewrite run_S. set (rn := Sql.run shuffle _).
  assert (matches (Sql.eval shuffle 18) db_names [] index_data_query =
    Some ((fun i => [index_scope i]) <$> indexes c)) as Hm.
  { apply matches_typed; [apply index_scopes|apply index_condition]. }
  destruct (run_plain shuffle shuffle_perm _ rn db_names db_names [] index_data_query _ (indexes c) eq_refl Hm
    (fun _ => []) (fun i t => t = index_data_tuple i)) as (l & ts & Hl & _ & HF & ->); [done| |].
  - intros i [_ Hi]%list_elem_of_filter. eexists. split; [|done]. unfold select_row.
    cbn [q_order q_select index_data_query mapM mbind option_bind fst snd].
    rewrite (index_eval i Hi : Sql.eval _ _ _ _ _ (ECall _ _ _) = _). reflexivity.
  - exists l. split; [done|]. f_equal. clear -HF. induction HF as [|i t l ts -> _ IH]; [done|]. csimpl. by rewrite IH.
Qed.
End index_data.

(** *** index_agg *)

Definition index_json_of (i : index) : json := jsonb_of index_members (index_item c i).

Lemma index_agg_run ixs l :
  exists ws, grouped_json (fun i => indrelid (ix_index i)) (fun _ => []) index_json_of l ws /\
    Sql.run shuffle 19 (with_relation "index_data" (index_data_tuple <$> l) (db_names ixs)) [] index_agg_query =
    Some (group_tuple "table_oid" "indexes" <$> ws).
Proof using shuffle_perm.
  eapply (run_grouped_json shuffle shuffle_perm 17 _ _ _ _ _ _ _ (fun i => [[("index_data", Some (index_data_tuple i))]]));
    try reflexivity.
  apply matches_all; [done|by apply one_source].
Qed.

(** *** constraint_data *)
Section constraints.
(** The relations of WITH so far. *)
Variables rows1 rows2 rows3 : list tuple.

Definition db_agg : Sql.Database :=
  with_relation "index_agg" rows3 (with_relation "index_data" rows2 (with_relation "index_column_names" rows1 db)).

Definition constraint_scope (k : PgConstraint) : scope := [("con", Some (constraint_tuple k))].

(** The subqueries that name columns. *)
Definition names_query (key rel : string) : query :=
  Query [] [(ECall "array_agg" [EColumn (Some "att") "attname"] [EColumn (Some "ord") "n"], "array_agg")]
    [Source (IUnnest (EColumn (Some "con") key)) "ord" ["attnum"; "n"] JInner None;
     Source (ITable "pg_attribute") "att" [] JInner
       (Some (EAnd (EEq (EColumn (Some "att") "attrelid") (EColumn (Some "con") rel))
                   (EEq (EColumn (Some "att") "attnum") (EColumn (Some "ord") "attnum"))))] None [] [].

Lemma names_scalar depth k key_name rel_name rel key :
  assoc key_name (constraint_tuple k) = Some (opt_value VInts key) ->
  assoc rel_name (constraint_tuple k) = Some (VOid rel) ->
  Sql.eval shuffle (S (S (S (S (S depth))))) db_agg None [constraint_scope k] (EScalar (names_query key_name rel_name)) =
  Some (names_value (names_of c rel (default [] key))).
Proof using W shuffle_perm.
  intros Hk Hr.
  destruct (eval_array_agg shuffle shuffle_perm (S (S depth)) db_agg None [constraint_scope k] (names_query key_name rel_name)
    (fun x : (nat * Z) * PgAttribute => [[("ord", Some (ordinal_tuple x.1)); ("att", Some (attribute_tuple x.2))]; constraint_scope k])
    (key_columns c rel (default [] key)) eq_refl eq_refl eq_refl) with (key := position_key) (nm := fun x : (nat * Z) * PgAttribute => attname x.2)
    (arg := EColumn (Some "att") "attname") (order := [EColumn (Some "ord") "n"]) (name := "array_agg")
    as (ys & Hp & ->); [|done..|].
  - apply matches_all; [done|].
    apply (combinations_inner _ _ _ _ _ _ ordinal_tuple _ (fun _ => true)); [done| |done|intros p].
    + change ((v ← assoc key_name (constraint_tuple k);
        match v with VInts l => Some (ordinality "attnum" "n" l) | VNull => Some [] | _ => None end) =
        Some (ordinal_tuple <$> positions (default [] key))). rewrite Hk. by destruct key.
    + apply (combinations_inner _ _ _ _ _ _ attribute_tuple _ (fun a => (attrelid a =? rel)%Z && (attnum a =? p.2)%Z)
        (fun a => [(p, a)])); [done|done| |done].
      intros a. change ((v ← (w ← assoc rel_name (constraint_tuple k); compare_eq (VOid (attrelid a)) w);
        logic_and v (VBool (attnum a =? p.2)%Z)) ≫= truth = Some ((attrelid a =? rel)%Z && (attnum a =? p.2)%Z)).
      by rewrite Hr.
  - by rewrite (key_columns_names W _ _ _ Hp).
Qed.

Definition constraint_values (x : TableConstraint) : list (string * value) :=
  [("name", VName (TableConstraint_Name x)); ("type", VText (TableConstraint_Type x));
   ("local_columns", names_value (TableConstraint_LocalColumns x));
   ("foreign_table", if decide (TableConstraint_ForeignTable x = EmptyString) then VNull
                     else VText (TableConstraint_ForeignTable x));
   ("foreign_columns", names_value (TableConstraint_ForeignColumns x));
   ("definition", VText (TableConstraint_Definition x))].

Lemma constraint_elem k : k ∈ constraints c -> k ∈ pg_constraint c /\ is_Some (assoc (contype k) constraint_types).
Proof.
  intros [Hk H]%list_elem_of_filter. split; [done|]. unfold constraint_types, assoc.
  repeat (case_decide; [by eexists|]). exfalso. simpl in Hk.
  rewrite !orb_true_iff, !bool_decide_eq_true in Hk. intuition congruence.
Qed.

Lemma constraint_type k ty :
  assoc (contype k) constraint_types = Some ty ->
  Sql.eval shuffle 16 db_agg None [constraint_scope k]
    (ECase ((fun t => (EEq (EColumn (Some "con") "contype") (EText t.1), EText t.2)) <$> constraint_types)) =
  Some (VText ty).
Proof.
  unfold constraint_types. intros H. csimpl. unfold assoc in H.
  repeat (case_decide; [injection H as <-; rewrite bool_decide_true by congruence; reflexivity
                       |rewrite bool_decide_false by congruence]).
  done.
Qed.

(** What only a foreign key has. *)
Lemma foreign_only k e :
  Sql.eval shuffle 16 db_agg None [constraint_scope k] (ECase [(EEq (EColumn (Some "con") "contype") (EText "f"), e)]) =
  if bool_decide (contype k = "f") then Sql.eval shuffle 15 db_agg None [constraint_scope k] e else Some VNull.
Proof.
  rewrite (eval_case_cons _ 15 _ _ _ _ _ _ (bool_decide (contype k = "f"))) by reflexivity. by case_bool_decide.
Qed.

Lemma constraint_eval k :
  k ∈ constraints c ->
  Sql.eval shuffle 17 db_agg None [constraint_scope k] constraint_expr =
  Some (VJson (jsonb_of constraint_members (constraint_item c k))).
Proof using W shuffle_perm.
  intros [Hk [ty Hty]]%constraint_elem. destruct (wf_constraint c W _ Hk) as (_ & def & Hd & _).
  destruct (wf_regclass c W (confrelid k)) as [_ Hr].
  apply (eval_object _ _ _ _ _ _ (constraint_values (constraint_item c k))).
  - unfold object_values, constraint_values. cbn [mbind list_bind fst snd app].
    repeat (apply mapM_cons_Some; [first [by apply names_scalar|reflexivity|idtac]|]); [..|reflexivity].
    + cbn [TableConstraint_Type constraint_item]. rewrite Hty. by apply constraint_type.
    + rewrite foreign_only. cbn [TableConstraint_ForeignTable constraint_item]. case_bool_decide; [|done].
      by rewrite decide_False.
    + rewrite foreign_only. cbn [TableConstraint_ForeignColumns constraint_item]. case_bool_decide; [|done].
      by apply names_scalar.
    + trans (Some (opt_value VText (pg_get_constraintdef c (con_oid k)))); [reflexivity|]. simpl. by rewrite Hd.
  - unfold constraint_values, constraint_members.
    repeat (constructor; [split; [done|first [done|apply to_json_names|idtac]]|]); [..|constructor].
    simpl. unfold text_or_null. by case_decide.
Qed.

Definition constraint_json_of (k : PgConstraint) : json := jsonb_of constraint_members (constraint_item c k).

Lemma constraint_data_run :
  exists ws, grouped_json conrelid (fun _ => []) constraint_json_of (constraints c) ws /\
    Sql.run shuffle 19 db_agg [] constraint_data_query = Some (group_tuple "conrelid" "constraints" <$> ws).
Proof using W shuffle_perm.
  eapply (run_grouped_json shuffle shuffle_perm 17 _ _ _ _ _ _ _ (fun k => [constraint_scope k]));
    try reflexivity; [|apply constraint_eval].
  apply matches_typed; [by apply one_source|done].
Qed.

(** *** inheritance_parents *)
Variable rows4 : list tuple.
Definition db_constraints : Sql.Database := with_relation "constraint_data" rows4 db_agg.

Definition parent_json_of (h : PgInherits) : json := jsonb_of parent_members (parent_item c h).
Definition parent_key (h : PgInherits) : list value := [VInt4 (inhseqno h)].

Lemma parents_run :
  exists ws, grouped_json inhrelid parent_key parent_json_of (pg_inherits c) ws /\
    Sql.run shuffle 19 db_constraints [] parents_query = Some (group_tuple "table_oid" "parent_tables" <$> ws).
Proof using shuffle_perm.
  eapply (run_grouped_json shuffle shuffle_perm 17 _ _ _ _ _ _ _ (fun h => [[("pg_inherits", Some (inherits_tuple h))]]));
    try reflexivity.
  apply matches_all; [done|by apply one_source].
Qed.
End constraints.

(** ** The table query *)
Section main.
Variables (rows1 rows2 : list tuple) (ws_indexes ws_constraints ws_parents : list (Z * list json)).
Variable found : list index.
Hypothesis found_indexes : found ≡ₚ indexes c.
Hypothesis indexes_grouped : grouped_json (fun i => indrelid (ix_index i)) (fun _ => []) index_json_of found ws_indexes.
Hypothesis constraints_grouped : grouped_json conrelid (fun _ => []) constraint_json_of (constraints c) ws_constraints.
Hypothesis parents_grouped : grouped_json inhrelid parent_key parent_json_of (pg_inherits c) ws_parents.

Definition db_main : Sql.Database :=
  with_relation "inheritance_parents" (group_tuple "table_oid" "parent_tables" <$> ws_parents)
    (db_constraints rows1 rows2 (group_tuple "table_oid" "indexes" <$> ws_indexes)
       (group_tuple "conrelid" "constraints" <$> ws_constraints)).

Definition table_scope (x : PgClass * PgNamespace) : scope :=
  [("c", Some (class_tuple x.1)); ("n", Some (namespace_tuple x.2));
   ("ia", group_tuple "table_oid" "indexes" <$> lookup_key fst ws_indexes (cls_oid x.1));
   ("cd", group_tuple "conrelid" "constraints" <$> lookup_key fst ws_constraints (cls_oid x.1));
   ("ip", group_tuple "table_oid" "parent_tables" <$> lookup_key fst ws_parents (cls_oid x.1))].

Lemma table_scopes :
  matches (Sql.eval shuffle 19) db_main [] tables_query = Some ((fun x => [table_scope x]) <$> tables c).
Proof using indexes_grouped constraints_grouped parents_grouped.
  pose proof (gj_unique _ _ _ _ _ indexes_grouped). pose proof (gj_unique _ _ _ _ _ constraints_grouped).
  pose proof (gj_unique _ _ _ _ _ parents_grouped). apply matches_typed; [|done].
  apply (combinations_inner _ _ _ _ _ _ class_tuple); [done..|intros cls].
  apply (combinations_inner _ _ _ _ _ _ namespace_tuple _ _ (fun n => [(cls, n)])); [done..|intros n].
  eapply (combinations_left _ _ _ _ _ _ (group_tuple "table_oid" "indexes") ws_indexes fst (cls_oid cls)); [done..|].
  eapply (combinations_left _ _ _ _ _ _ (group_tuple "conrelid" "constraints") ws_constraints fst (cls_oid cls)); [done..|].
  eapply (combinations_left _ _ _ _ _ _ (group_tuple "table_oid" "parent_tables") ws_parents fst (cls_oid cls)); done.
Qed.

Lemma stats_eval x :
  x.1 ∈ pg_class c ->
  Sql.eval shuffle 19 db_main None [table_scope x] stats_expr = Some (VJson (jsonb_of stats_members (stats_item c x.1))).
Proof using W.
  intros Hx. destruct (wf_class c W _ Hx) as (_ & _ & _ & (heap & Hh & _) & (total & Ht & _) & _).
  apply (eval_object _ _ _ _ _ _ [("row_estimate", VInt8 (reltuples x.1)); ("total_size_bytes", VInt8 total);
    ("heap_size_bytes", VInt8 heap);
    ("toast_size_bytes", coalesce [opt_value VInt8 (relation_size c (reltoastrelid x.1)); VInt4 0])]).
  - unfold object_values. cbn [mbind list_bind fst snd app].
    repeat (apply mapM_cons_Some; [first [reflexivity|idtac]|]); [..|reflexivity].
    + trans (Some (opt_value VInt8 (total_relation_size c (cls_oid x.1)))); [reflexivity|]. by rewrite Ht.
    + trans (Some (opt_value VInt8 (relation_size c (cls_oid x.1)))); [reflexivity|]. by rewrite Hh.
  - unfold stats_members, stats_item. cbn [TableStats_RowEstimate TableStats_TotalSizeBytes TableStats_HeapSizeBytes TableStats_ToastSizeBytes].
    rewrite Hh, Ht. repeat constructor. simpl. by destruct (relation_size c (reltoastrelid x.1)).
Qed.

Definition column_json_of (a : PgAttribute) : json := jsonb_of column_members (column_item c a).

Lemma columns_array x :
  exists l, l ≡ₚ attributes c x.1 /\ StronglySorted (fun a b => attnum a <= attnum b)%Z l /\
  Sql.eval shuffle 19 db_main None [table_scope x] columns_expr = Some (jsons_value (column_json_of <$> l)).
Proof using shuffle_perm.
  destruct (eval_jsonb_agg shuffle shuffle_perm 16 db_main None [table_scope x]
    (match columns_expr with EScalar q => q | _ => no_query end)
    (fun a => [[("att", Some (attribute_tuple a))]; table_scope x]) (attributes c x.1) eq_refl eq_refl eq_refl)
    with (key := fun a => [VInt4 (attnum a)]) (R := fun a j => j = column_json_of a)
    (arg := match columns_expr with EScalar q => match selected_at q 0 with ECall _ [e] _ => e | _ => ENull end | _ => ENull end)
    (order := [EColumn (Some "att") "attnum"]) (name := "jsonb_agg") as (ys & js & Hp & HF & E); try done.
  - apply matches_typed; [by apply one_source|done].
  - intros a _. eexists. split; [|done].
    apply (eval_object _ _ _ _ _ _ [("name", VName (attname a));
      ("type", VText (format_type c (atttypid a) (Some (atttypmod a)))); ("not_null", VBool (attnotnull a));
      ("is_inherited", VBool (0 <? attinhcount a)%Z)]); [done|]. by repeat constructor.
  - exists (sort_on (fun a => [VInt4 (attnum a)]) ys). split; [by rewrite sort_on_perm|]. split.
    + eapply StronglySorted_weaken; [|apply sort_on_sorted]. by intros a b [Hle _].
    + assert (column_json_of <$> sort_on (fun a => [VInt4 (attnum a)]) ys = js) as ->; [|done].
      clear -HF. induction HF as [|a j l js -> _ IH]; [done|]. csimpl. by rewrite IH.
Qed.

(** The columns from the queries of WITH. *)
Lemma group_found depth x al n2 n1 o js :
  assoc al (table_scope x) = Some (group_tuple n1 n2 <$> o) -> bool_decide (n1 = n2) = false ->
  from_option (fun w => jsons_value w.2) VNull o = jsons_value js ->
  Sql.eval shuffle (S depth) db_main None [table_scope x] (EColumn (Some al) n2) = Some (jsons_value js).
Proof.
  intros Ho Hn%bool_decide_eq_false E. rewrite eval_S. cbn [eval_at column]. rewrite Ho, <- E.
  destruct o as [w|]; [|done]. simpl. rewrite decide_False by done. by rewrite decide_True.
Qed.

Lemma inheritance_eval x js :
  from_option (fun w => jsons_value w.2) VNull (lookup_key fst ws_parents (cls_oid x.1)) = jsons_value js ->
  Sql.eval shuffle 19 db_main None [table_scope x] inheritance_expr =
  Some (VJson (jsonb_object (as_members [("parent_tables", default JNull (agg_json js))]))).
Proof.
  intros E. apply (eval_object _ _ _ _ _ _ [("parent_tables", jsons_value js)]).
  - unfold object_values. cbn [mbind list_bind fst snd app].
    apply mapM_cons_Some; [reflexivity|]. apply mapM_cons_Some; [|done].
    exact (group_found 17 x "ip" "parent_tables" "table_oid" _ _ eq_refl eq_refl E).
  - constructor; [|constructor]. split; [done|apply to_json_jsons].
Qed.

Definition table_key (x : PgClass * PgNamespace) : list value := [VName (nspname x.2); VName (relname x.1)].

Lemma filter_found (k : Z) g :
  g ≡ₚ filter (fun i => indrelid (ix_index i) = k) found -> g ≡ₚ filter (fun i => indrelid (ix_index i) = k) (indexes c).
Proof using found_indexes. intros ->. by rewrite found_indexes. Qed.

Lemma table_selected x :
  x.1 ∈ pg_class c -> exists cols ixs cons parents row,
  cols ≡ₚ attributes c x.1 /\ StronglySorted (fun a b => attnum a <= attnum b)%Z cols /\
  ixs ≡ₚ filter (fun i => indrelid (ix_index i) = cls_oid x.1) (indexes c) /\
  cons ≡ₚ filter (fun k => conrelid k = cls_oid x.1) (constraints c) /\
  parents ≡ₚ filter (fun h => inhrelid h = cls_oid x.1) (pg_inherits c) /\
  StronglySorted (fun a b => inhseqno a <= inhseqno b)%Z parents /\
  select_row (Sql.eval shuffle 19) db_main tables_query (None, [table_scope x]) = Some (table_key x, row) /\
  row.*2 = [VOid (cls_oid x.1); VText (relname x.1); VText (nspname x.2); VText (role_name c (relowner x.1));
    opt_value VText (obj_description c (cls_oid x.1)); VJson (jsonb_of stats_members (stats_item c x.1));
    jsons_value (column_json_of <$> cols); jsons_value (index_json_of <$> ixs); jsons_value (constraint_json_of <$> cons);
    VJson (jsonb_object (as_members [("parent_tables", default JNull (agg_json (parent_json_of <$> parents)))]))].
Proof using All.
  intros Hx. destruct (columns_array x) as (cols & Hc & Hcs & Ec).
  destruct (grouped_lookup _ _ _ _ _ (cls_oid x.1) indexes_grouped) as (g1 & Hg1%filter_found & _ & E1).
  destruct (grouped_lookup _ _ _ _ _ (cls_oid x.1) constraints_grouped) as (g2 & Hg2 & _ & E2).
  destruct (grouped_lookup _ _ _ _ _ (cls_oid x.1) parents_grouped) as (g3 & Hg3 & Hs3 & E3).
  exists cols, g1, g2, g3. eexists. do 5 (split; [assumption|]). split.
  { eapply StronglySorted_weaken; [|exact Hs3]. by intros a b [Hle _]. }
  split.
  - unfold select_row. cbn [q_order q_select tables_query mapM mbind option_bind fst snd].
    rewrite (stats_eval x Hx : Sql.eval _ _ _ _ _ (ECall _ _ _) = _).
    rewrite (inheritance_eval x _ E3 : Sql.eval _ _ _ _ _ (ECall _ _ _) = _).
    rewrite (Ec : Sql.eval _ _ _ _ _ (EScalar _) = _). cbn [mbind option_bind].
    rewrite (group_found 18 x "ia" "indexes" "table_oid" _ _ eq_refl eq_refl E1).
    rewrite (group_found 18 x "cd" "constraints" "conrelid" _ _ eq_refl eq_refl E2). reflexivity.
  - reflexivity.
Qed.
End main.
End ctes.

(** ** The answers of the query *)

(** Ordered by schema and name. *)
Definition table_le (x y : PgClass * PgNamespace) : Prop :=
  keys_le [VName (nspname x.2); VName (relname x.1)] [VName (nspname y.2); VName (relname y.1)].

Lemma tables_class c x : x ∈ tables c -> x.1 ∈ pg_class c.
Proof.
  intros [_ Hx]%list_elem_of_filter. unfold table_rows in Hx. apply list_elem_of_bind in Hx as (cls & Hx & Hcls).
  apply list_elem_of_bind in Hx as (n & Hx & _). destruct (_ =? _)%Z; [|by apply not_elem_of_nil in Hx].
  by apply list_elem_of_singleton in Hx as ->.
Qed.

Lemma tables_answer c rows :
  catalog_wf c -> answer (database_of c) tables_query rows ->
  exists l, l ≡ₚ tables c /\ StronglySorted table_le l /\
    Forall2 (fun x row => exists t, table_like c x t /\ Table_wf t /\ row_shows t row) l rows.
Proof.
  intros W (shuffle & Hp & ts & Hr & ->). rewrite run_max in Hr.
  destruct (index_names_run W shuffle Hp) as (ixs & E1 & H1 & H2 & H3).
  destruct (index_data_run W shuffle Hp ixs H1 H2 H3) as (found & Hf & E2).
  set (rows1 := index_names_tuple (c := c) <$> ixs) in *. set (rows2 := index_data_tuple (c := c) <$> found) in *.
  destruct (index_agg_run (c := c) shuffle Hp ixs found) as (ws1 & G1 & E3).
  destruct (constraint_data_run W shuffle Hp rows1 rows2
    (group_tuple "table_oid" "indexes" <$> ws1)) as (ws2 & G2 & E4).
  destruct (parents_run (c := c) shuffle Hp rows1 rows2
    (group_tuple "table_oid" "indexes" <$> ws1) (group_tuple "conrelid" "constraints" <$> ws2)) as (ws3 & G3 & E5).
  destruct (run_plain shuffle Hp (eval_top shuffle) (run_top shuffle) (database_of c)
    (db_main (c := c) rows1 rows2 ws1 ws2 ws3) [] tables_query
    (fun x => [table_scope ws1 ws2 ws3 x]) (tables c)) with (key := table_key)
    (R := fun x (t : tuple) => exists tbl, table_like c x tbl /\ Table_wf tbl /\ row_shows tbl t.*2)
    as (l & ts' & Hl & Hs & HF & E).
  - rewrite tables_query_withs.
    eapply run_withs_cons; [exact E1|]. eapply run_withs_cons; [exact E2|]. eapply run_withs_cons; [exact E3|].
    eapply run_withs_cons; [exact E4|]. eapply run_withs_cons; [exact E5|]. reflexivity.
  - by eapply table_scopes.
  - done.
  - intros x Hx%tables_class.
    destruct (table_selected W shuffle Hp rows1 rows2 ws1 ws2 ws3 found Hf
      G1 G2 G3 x Hx) as (cols & is0 & cons & ps & row & P1 & P2 & P3 & P4 & P5 & P6 & Es & Er).
    exists row. split; [exact Es|]. exists (table_of c x cols is0 cons ps). rewrite Er.
    split; [by apply table_of_like|]. split; [by apply (table_of_wf W)|by apply (table_of_shows W)].
  - rewrite E in Hr. injection Hr as <-. exists l. split; [done|]. split; [exact Hs|].
    unfold row_values. apply Forall2_fmap_r. exact HF.
Qed.

