(* ===== verification/Server.v ===== *)
(** * The gRPC service (internal/extractor/server.go)

    One definition per RPC method.  A method is a [task] that ends in a response
    or in a status; [tableToProto] is a function that may dereference a nil
    pointer, hence an [option]. *)

From S2P Require Import Prelude GoStrings Types Proto JsonDecode Runtime Logic FanOut System Scan Store StoreSpec Backrest Tables.

(** codes.Code: the two that the service uses. *)
Inductive code := Internal | NotFound.

(** The error of a method: status.Errorf(code, format, args...). *)
Record status := Status { status_code : code; status_msg : error }.
Abbreviation rpc A := (status + A)%type.

Definition status_Errorf (c : code) (format : string) (args : list arg) : status :=
  Status c (Errorf format args).

(** type Server struct *)
Record Server := MkServer { Server_store : Store }.
Definition NewServer (s : Store) : Server := {| Server_store := s |}.

Section server.
Context `{S : Scanner} `{U : UnicodeLower}.

Definition ListDatabases (s : Server) : task (rpc ListDatabasesResponse) :=
  dbs ← call (Store.ListDatabases (Server_store s));
  match dbs with
  | inl err => TRet (inl (status_Errorf Internal "failed to list databases: %v" [AErr err]))
  | inr dbs =>
      let resp := Database_ToProto <$> dbs in
      TRet (inr {| ListDatabasesResponse_databases := resp |})
  end.

Definition GetServerInfo (s : Server) : task (rpc GetServerInfoResponse) :=
  info ← call (Store.GetServerInfo (Server_store s));
  match info with
  | inl err => TRet (inl (status_Errorf Internal "failed to get server info: %v" [AErr err]))
  | inr info =>
      match ServerInfoToProto info (Store_ClusterName (Server_store s)) with
      | inl err => TRet (inl (status_Errorf Internal "failed to convert ServerInfo to RPC: %v" [AErr err]))
      | inr resp => TRet (inr resp)
      end
  end.

Definition ListSchemas (s : Server) : task (rpc ListSchemasResponse) :=
  schemas ← Store.ListSchemas (Server_store s);
  match schemas with
  | inl err => TRet (inl (status_Errorf Internal "failed to list schemas: %v" [AErr err]))
  | inr schemas =>
      let resp := Schema_ToProto <$> schemas in
      TRet (inr {| ListSchemasResponse_schemas := resp |})
  end.

Definition ListExtensions (s : Server) : task (rpc ListExtensionsResponse) :=
  r ← Store.ListExtensions (Server_store s);
  match r with
  | inl err => TRet (inl (status_Errorf Internal "failed to list extensions: %v" [AErr err]))
  | inr (available, installed) => TRet (inr (ExtensionsToProto available installed))
  end.

Definition ListSequences (s : Server) : task (rpc ListSequencesResponse) :=
  seqs ← Store.ListSequences (Server_store s);
  match seqs with
  | inl err => TRet (inl (status_Errorf Internal "failed to list sequences: %v" [AErr err]))
  | inr seqs =>
      let resp := Sequence_ToProto <$> seqs in
      TRet (inr {| ListSequencesResponse_sequences := resp |})
  end.

Definition ListFunctions (s : Server) : task (rpc ListFunctionsResponse) :=
  functions ← Store.ListFunctions (Server_store s);
  match functions with
  | inl err => TRet (inl (status_Errorf Internal "failed to list functions: %v" [AErr err]))
  | inr functions =>
      let resp := Function_ToProto <$> functions in
      TRet (inr {| ListFunctionsResponse_functions := resp |})
  end.
End server.

(** ** tableToProto *)

Definition columnToProto (col : TableColumn) : Proto_TableColumn :=
  {| PTableColumn_name := TableColumn_Name col;
     PTableColumn_type := TableColumn_Type col;
     PTableColumn_not_null := TableColumn_NotNull col;
     PTableColumn_is_inherited := TableColumn_IsInherited col |}.

Definition indexToProto (idx : TableIndex) : Proto_TableIndex :=
  {| PTableIndex_name := TableIndex_Name idx;
     PTableIndex_type := TableIndex_Type idx;
     PTableIndex_columns := TableIndex_Columns idx;
     PTableIndex_is_unique := TableIndex_IsUnique idx;
     PTableIndex_is_primary := TableIndex_IsPrimary idx;
     PTableIndex_is_exclusion := TableIndex_IsExclusion idx;
     PTableIndex_is_partial := TableIndex_IsPartial idx;
     PTableIndex_is_valid := TableIndex_IsValid idx;
     PTableIndex_is_inherited := TableIndex_IsInherited idx;
     PTableIndex_size_bytes := TableIndex_SizeBytes idx;
     PTableIndex_definition := TableIndex_Definition idx |}.

Definition constraintToProto (con : TableConstraint) : Proto_TableConstraint :=
  {| PTableConstraint_name := TableConstraint_Name con;
     PTableConstraint_type := TableConstraint_Type con;
     PTableConstraint_local_columns := TableConstraint_LocalColumns con;
     PTableConstraint_foreign_columns := TableConstraint_ForeignColumns con;
     PTableConstraint_definition := TableConstraint_Definition con;
     PTableConstraint_foreign_table :=
       if decide (TableConstraint_ForeignTable con = EmptyString) then None
       else Some (TableConstraint_ForeignTable con) |}.

Definition parentToProto (parent : InheritanceRelation) : Proto_InheritanceRelation :=
  {| PInheritanceRelation_name := InheritanceRelation_Name parent;
     PInheritanceRelation_oid := InheritanceRelation_Oid parent |}.

(** for _, x := range xs { ys = append(ys, f x) }, where [f] reads through the
    pointer x: a nil element panics. *)
Definition deref_all {A B} (f : A -> B) (xs : list (option A)) : option (list B) :=
  mapM (fun x => f <$> x) xs.

(** [None] is a nil pointer dereference. *)
Definition tableToProto (t : Table) : option Proto_Table :=
  columns ← deref_all columnToProto (Table_TableColumns t);
  indexes ← deref_all indexToProto (Table_TableIndexes t);
  constraints ← deref_all constraintToProto (Table_TableConstraints t);
  parentTables ← deref_all parentToProto (TableInheritance_ParentTables (Table_Inheritance t));
  Some {|
    PTable_oid := Table_Oid t;
    PTable_name := Table_Name t;
    PTable_schema := Table_Schema t;
    PTable_owner := Table_Owner t;
    PTable_comment := Table_Comment t;
    PTable_columns := columns;
    PTable_indexes := indexes;
    PTable_constraints := constraints;
    PTable_stats := {|
      PTableStats_row_estimate := TableStats_RowEstimate (Table_Stats t);
      PTableStats_total_size_bytes := TableStats_TotalSizeBytes (Table_Stats t);
      PTableStats_heap_size_bytes := TableStats_HeapSizeBytes (Table_Stats t);
      PTableStats_toast_size_bytes := TableStats_ToastSizeBytes (Table_Stats t) |};
    PTable_inheritance := {| PTableInheritance_parent_tables := parentTables |}
  |}.

(** ** The two methods that decode JSON *)
Section json_methods.
Context `{S : Scanner} `{E : JsonErrors}.

Definition ListBackups (s : Server) : task (rpc ListBackupsResponse) :=
  pgbackrestInfo ← call (Backrest.ListBackups (Server_store s));
  match pgbackrestInfo with
  | inl err => TRet (inl (status_Errorf Internal "%v" [AErr err]))
  | inr [] => TRet (inl (status_Errorf NotFound "no stanza found" []))
  | inr (info :: _) =>
      match PgbackrestInfo_Db info with
      | [] => TRet (inl (status_Errorf Internal "pgbackrest info is not complete, missing db field" []))
      | db :: _ =>
          let dbVersion := PgbackrestDb_Version db in
          if decide (dbVersion = EmptyString)
          then TRet (inl (status_Errorf Internal "could not extract PG version from pgbackrest info" []))
          else
            let stanza := PgbackrestInfo_Name info in
            let backups := PgbackrestInfo_Backup info in
            let backupInfo := (fun backup => Backup_ToProto backup dbVersion) <$> backups in
            TRet (inr {| ListBackupsResponse_stanza := stanza; ListBackupsResponse_backups := backupInfo |})
      end
  end.

(** The tables of one database in the response. *)
Definition databaseTablesToProto (dbTables : TablesInfo) : option DatabaseTables :=
  tables ← mapM tableToProto (TablesInfo_Tables dbTables);
  Some {| DatabaseTables_database := TablesInfo_Database dbTables; DatabaseTables_tables := tables |}.

(** [None]: the handler panics on a nil pointer, after the store has returned. *)
Definition ListTables (s : Server) : task (option (rpc ListTablesResponse)) :=
  tablesInfo ← Tables.ListTables (Server_store s);
  match tablesInfo with
  | inl err => TRet (Some (inl (status_Errorf Internal "failed to list tables: %v" [AErr err])))
  | inr tablesInfo =>
      TRet (databaseTables ← mapM databaseTablesToProto tablesInfo;
            Some (inr {| ListTablesResponse_database_tables := databaseTables |}))
  end.
End json_methods.

(** ** What the conversion needs and keeps *)

Lemma deref_all_Some {A B} (f : A -> B) xs ys :
  deref_all f xs = Some ys <-> exists zs, xs = Some <$> zs /\ ys = f <$> zs.
Proof.
  unfold deref_all. rewrite mapM_Some. split.
  - induction 1 as [|x y xs ys Hx _ (zs & -> & ->)]; [by exists []|].
    destruct x as [z|]; simplify_eq/=. by exists (z :: zs).
  - intros (zs & -> & ->). apply Forall2_fmap_r, Forall2_fmap_l. by apply Forall_Forall2_diag, Forall_true.
Qed.

Lemma deref_all_inj {A B} (f : A -> B) `{!Inj (=) (=) f} xs xs' ys :
  deref_all f xs = Some ys -> deref_all f xs' = Some ys -> xs = xs'.
Proof.
  rewrite !deref_all_Some. intros (zs & -> & ->) (zs' & -> & E).
  by apply (inj (fmap f)) in E as ->.
Qed.

#[export] Instance columnToProto_inj : Inj (=) (=) columnToProto.
Proof. intros [] [] H. by inversion H. Qed.
#[export] Instance indexToProto_inj : Inj (=) (=) indexToProto.
Proof. intros [] [] H. by inversion H. Qed.
#[export] Instance parentToProto_inj : Inj (=) (=) parentToProto.
Proof. intros [] [] H. by inversion H. Qed.

(** An absent foreign table and the empty text are the same thing on both sides. *)
#[export] Instance constraintToProto_inj : Inj (=) (=) constraintToProto.
Proof. intros [] [] H. unfold constraintToProto in H. simpl in H. repeat case_decide; by simplify_eq. Qed.

Definition no_nil (t : Table) : Prop :=
  Forall is_Some (Table_TableColumns t) /\ Forall is_Some (Table_TableIndexes t) /\
  Forall is_Some (Table_TableConstraints t) /\
  Forall is_Some (TableInheritance_ParentTables (Table_Inheritance t)).

Lemma deref_all_is_Some {A B} (f : A -> B) xs : is_Some (deref_all f xs) <-> Forall is_Some xs.
Proof.
  split.
  - intros [ys (zs & -> & _)%deref_all_Some]. apply Forall_fmap, Forall_true. by eexists.
  - induction 1 as [|x xs [z ->] _ [ys Hys]]; [by eexists|]. unfold deref_all in *. simpl. by rewrite Hys.
Qed.

Lemma tableToProto_None t : tableToProto t = None <-> ~ no_nil t.
Proof.
  rewrite eq_None_not_Some. apply not_iff_compat. unfold no_nil.
  rewrite <- (deref_all_is_Some columnToProto), <- (deref_all_is_Some indexToProto),
    <- (deref_all_is_Some constraintToProto), <- (deref_all_is_Some parentToProto).
  unfold tableToProto. split.
  - intros [p H]. apply bind_Some in H as (? & -> & H). apply bind_Some in H as (? & -> & H).
    apply bind_Some in H as (? & -> & H). apply bind_Some in H as (? & -> & _).
    split; [|split; [|split]]; by eexists.
  - intros ([? ->] & [? ->] & [? ->] & [? ->]). by eexists.
Qed.

(** TableToProto panics exactly when one of the four slices of the table holds a
    nil pointer. *)
Theorem tableToProto_panics t : tableToProto t = None <-> ~ no_nil t.
Proof. apply tableToProto_None. Qed.

(** C33: tableToProto loses nothing: two tables with the same message are equal. *)
Theorem tableToProto_lossless t1 t2 p :
  tableToProto t1 = Some p -> tableToProto t2 = Some p -> t1 = t2.
Proof.
  destruct t1 as [n1 s1 o1 c1 cs1 is1 ks1 [ps1] [] oid1], t2 as [n2 s2 o2 c2 cs2 is2 ks2 [ps2] [] oid2].
  unfold tableToProto. simpl. rewrite !bind_Some. intros (cs & Hc1 & H1) (cs' & Hc2 & H2).
  rewrite bind_Some in H1, H2. destruct H1 as (ixs & Hi1 & H1), H2 as (ixs' & Hi2 & H2).
  rewrite bind_Some in H1, H2. destruct H1 as (ks & Hk1 & H1), H2 as (ks' & Hk2 & H2).
  rewrite bind_Some in H1, H2. destruct H1 as (ps & Hp1 & H1), H2 as (ps' & Hp2 & H2).
  rewrite <- H1 in H2. injection H2 as -> -> -> -> -> -> -> -> -> -> -> -> ->.
  by rewrite (deref_all_inj _ _ _ _ Hc1 Hc2), (deref_all_inj _ _ _ _ Hi1 Hi2),
    (deref_all_inj _ _ _ _ Hk1 Hk2), (deref_all_inj _ _ _ _ Hp1 Hp2).
Qed.

Lemma tableToProto_lossless_witness :
  MkTable "t" "public" "o" None [Some (MkTableColumn "id" "int" true false)] [] [] (MkTableInheritance [])
    (MkTableStats 0 8192 8192 0) 16400 =
  MkTable "t" "public" "o" None [Some (MkTableColumn "id" "int" true false)] [] [] (MkTableInheritance [])
    (MkTableStats 0 8192 8192 0) 16400.
Proof. eapply tableToProto_lossless; reflexivity. Defined.
