(* ===== verification/Service.v ===== *)
(** * The running service

    [service] instantiates the process of System.v with the methods of Server.v
    for a given store and connection string.  The theorems are about every state
    the process can reach: requests arrive at any time, run interleaved, are
    cancelled at any point, and pgx answers as it likes. *)

From S2P Require Import Prelude GoStrings Types Proto JsonDecode Runtime Logic Coordinator FanOut System Exec Scan Store StoreSpec Backrest Tables Server.

(** The methods, and their responses.  A panic of ListTables is its response [None]:
    the runtime ends the process then, as Main.v has it. *)
Inductive method :=
| MListDatabases | MListBackups | MGetServerInfo | MListSchemas | MListExtensions | MListSequences
| MListFunctions | MListTables.

Inductive reply :=
| RListDatabases (r : rpc ListDatabasesResponse)
| RGetServerInfo (r : rpc GetServerInfoResponse)
| RListSchemas (r : rpc ListSchemasResponse)
| RListExtensions (r : rpc ListExtensionsResponse)
| RListSequences (r : rpc ListSequencesResponse)
| RListFunctions (r : rpc ListFunctionsResponse)
| RListBackups (r : rpc ListBackupsResponse)
| RListTables (r : option (rpc ListTablesResponse)).

Section service.
Context `{S : Scanner} `{U : UnicodeLower} `{E : JsonErrors}.
Variable srv : Server.
Variable dsn : string.

#[local] Instance cfg : ConnCfg := store_cfg (Server_store srv) dsn.

Definition dispatch (m : method) : task reply :=
  match m with
  | MListDatabases => r ← Server.ListDatabases srv; TRet (RListDatabases r)
  | MGetServerInfo => r ← Server.GetServerInfo srv; TRet (RGetServerInfo r)
  | MListSchemas => r ← Server.ListSchemas srv; TRet (RListSchemas r)
  | MListExtensions => r ← Server.ListExtensions srv; TRet (RListExtensions r)
  | MListSequences => r ← Server.ListSequences srv; TRet (RListSequences r)
  | MListFunctions => r ← Server.ListFunctions srv; TRet (RListFunctions r)
  | MListBackups => r ← Server.ListBackups srv; TRet (RListBackups r)
  | MListTables => r ← Server.ListTables srv; TRet (RListTables r)
  end.

(** A method turns the store's result into its response with [conv]. *)
Definition converts {A R} (result : res A -> Prop) (conv : res A -> R) (r : R) : Prop :=
  exists x, result x /\ r = conv x.

Definition respond {A B} (format : string) (f : A -> B) (x : res A) : rpc B :=
  match x with
  | inl err => inl (status_Errorf Internal format [AErr err])
  | inr a => inr (f a)
  end.

Definition respond_server_info (x : res ServerInfo) : rpc GetServerInfoResponse :=
  match x with
  | inl err => inl (status_Errorf Internal "failed to get server info: %v" [AErr err])
  | inr info =>
      match ServerInfoToProto info (Store_ClusterName (Server_store srv)) with
      | inl err => inl (status_Errorf Internal "failed to convert ServerInfo to RPC: %v" [AErr err])
      | inr resp => inr resp
      end
  end.

Definition respond_backups (x : res (list PgbackrestInfo)) : rpc ListBackupsResponse :=
  match x with
  | inl err => inl (status_Errorf Internal "%v" [AErr err])
  | inr [] => inl (status_Errorf NotFound "no stanza found" [])
  | inr (info :: _) =>
      match PgbackrestInfo_Db info with
      | [] => inl (status_Errorf Internal "pgbackrest info is not complete, missing db field" [])
      | db :: _ =>
          if decide (PgbackrestDb_Version db = EmptyString)
          then inl (status_Errorf Internal "could not extract PG version from pgbackrest info" [])
          else inr (MkListBackupsResponse (PgbackrestInfo_Name info)
                 ((fun backup => Backup_ToProto backup (PgbackrestDb_Version db)) <$> PgbackrestInfo_Backup info))
      end
  end.

Definition respond_tables (x : res (list TablesInfo)) : option (rpc ListTablesResponse) :=
  match x with
  | inl err => Some (inl (status_Errorf Internal "failed to list tables: %v" [AErr err]))
  | inr l => inr ∘ MkListTablesResponse <$> mapM databaseTablesToProto l
  end.

(** What each method promises about its response. *)
Definition promise (m : method) (r : reply) : Prop :=
  match m, r with
  | MListDatabases, RListDatabases r =>
      converts (databases_result dsn)
        (respond "failed to list databases: %v"
           (fun l => MkListDatabasesResponse (Database_ToProto <$> l))) r
  | MGetServerInfo, RGetServerInfo r => converts (server_info_result dsn) respond_server_info r
  | MListSchemas, RListSchemas r =>
      converts (fanned dsn (schema_listing (Server_store srv)))
        (respond "failed to list schemas: %v"
           (fun l => MkListSchemasResponse (Schema_ToProto <$> l))) r
  | MListExtensions, RListExtensions r =>
      converts (extensions_result (Server_store srv) dsn)
        (respond "failed to list extensions: %v" (fun '(a, i) => ExtensionsToProto a i)) r
  | MListSequences, RListSequences r =>
      converts (fanned dsn (sequence_listing (Server_store srv)))
        (respond "failed to list sequences: %v"
           (fun l => MkListSequencesResponse (Sequence_ToProto <$> l))) r
  | MListFunctions, RListFunctions r =>
      converts (fanned dsn (function_listing (Server_store srv)))
        (respond "failed to list functions: %v"
           (fun l => MkListFunctionsResponse (Function_ToProto <$> l))) r
  | MListBackups, RListBackups r => converts (backups_result (Server_store srv)) respond_backups r
  | MListTables, RListTables r => converts (fanned dsn (table_listing (Server_store srv))) respond_tables r
  | _, _ => False
  end.

(** A handler that runs a store function and converts its result. *)
Lemma twp_converts {A R} (t : task (res A)) (result : res A -> Prop) conv (k : res A -> task R)
    (wrap : R -> reply) Φ :
  twp t result -> (forall x, k x = TRet (conv x)) ->
  (forall r, converts result conv r -> Φ (wrap r)) ->
  twp (r ← (x ← t; k x); TRet (wrap r)) Φ.
Proof.
  intros Ht Hk HΦ. apply twp_bind, twp_bind. eapply twp_mono; [|exact Ht].
  intros x Hx. rewrite Hk. apply HΦ. by exists x.
Qed.

Ltac by_conversion := eapply twp_converts; [| |exact (fun r H => H)].

Lemma dispatch_ok m : twp (dispatch m) (promise m).
Proof.
  destruct m; by_conversion.
  - apply twp_call, wp_ListDatabases. intros r Hr st Hst. exact (conj Hst Hr).
  - by intros [].
  - apply twp_call, wp_ListBackups. intros r Hr. exact (conj idle_clean Hr).
  - intros [err|[|info infos]]; simpl; [done..|]. destruct (PgbackrestInfo_Db info); [done|]. by case_decide.
  - apply twp_call, wp_GetServerInfo. intros r Hr. exact (conj idle_clean Hr).
  - intros [err|info]; simpl; [done|]. by destruct (ServerInfoToProto _ _).
  - apply twp_ListSchemas.
  - by intros [].
  - apply twp_ListExtensions.
  - by intros [|[]].
  - apply twp_ListSequences.
  - by intros [].
  - apply twp_ListFunctions.
  - by intros [].
  - apply twp_ListTables.
  - intros [err|l]; simpl; [done|]. by destruct (mapM _ l).
Qed.

#[local] Instance service : Service :=
  {| request := method; answer := reply; handler := dispatch; spec := promise;
     handler_ok := dispatch_ok |}.

(** Some execution of the process answers a request of this kind with this reply. *)
Definition replies (m : method) (r : reply) : Prop :=
  exists st q, reachable st /\ q ∈ s_reqs st /\ rq_kind q = m /\ rq_run q = RRet r.

Lemma replies_promise m r : replies m r -> promise m r.
Proof. intros (st & q & Hr & Hq & <- & Hb). exact (sys_answer st q r Hr Hq Hb). Qed.
End service.
