(* ===== verification/Example.v ===== *)
(** * A concrete outside world

    A server with three databases, two of which hold something, one of which
    refuses queries when [broken] is set.  The witnesses of the properties run the
    service against it. *)

From S2P Require Import Prelude GoStrings Types Json JsonDecode JsonCodec Runtime Logic FanOut System Exec Scan Store Backrest Tables Server.

(** A column value as pgx decodes it. *)
Inductive cell := CStr (s : string) | CInt (n : Z) | CBool (b : bool) | CNull.

Definition wrong_type : error := ErrExt "cannot scan value into destination".

Definition cell_string (c : cell) : res string :=
  match c with CStr s => inr s | _ => inl wrong_type end.
Definition cell_bool (c : cell) : res bool :=
  match c with CBool b => inr b | _ => inl wrong_type end.
Definition cell_int (P : Z -> Prop) `{forall z, Decision (P z)} (c : cell) : res Z :=
  match c with
  | CInt n => if decide (P n) then inr n else inl (ErrExt "value out of range")
  | _ => inl wrong_type
  end.
Definition cell_opt (c : cell) : res (option string) :=
  match c with CStr s => inr (Some s) | CNull => inr None | _ => inl wrong_type end.

Lemma cell_int_range P `{forall z, Decision (P z)} c n : cell_int P c = inr n -> P n.
Proof. destruct c; simpl; try done. case_decide; [by intros [= <-]|done]. Qed.

(** Text with double quotes for single ones. *)
Definition quoted (s : string) : string :=
  b2s ((fun c => if decide (c = ascii_of_nat 39) then dquote else c) <$> s2b s).

(** src/internal/extractor/testdata/pgbackrest.json, the repository's own test data. *)
Definition pgbackrest_json : string := quoted
"[
    {
        'archive': [
            {
                'database': {
                    'id': 1,
                    'repo-key': 1
                },
                'id': '15-1',
                'max': '00000001000000000000000A',
                'min': '000000010000000000000001'
            }
        ],
        'backup': [
            {
                'archive': {
                    'start': '000000010000000000000007',
                    'stop': '000000010000000000000007'
                },
                'backrest': {
                    'format': 5,
                    'version': '2.57.0'
                },
                'database': {
                    'id': 1,
                    'repo-key': 1
                },
                'error': false,
                'info': {
                    'delta': 23246324,
                    'repository': {
                        'delta': 3066593,
                        'size': 3066593
                    },
                    'size': 23246324
                },
                'label': '20260103-233937F',
                'lsn': {
                    'start': '0/7000028',
                    'stop': '0/7000100'
                },
                'prior': null,
                'reference': null,
                'timestamp': {
                    'start': 1767483577,
                    'stop': 1767483580
                },
                'type': 'full'
            },
            {
                'archive': {
                    'start': '000000010000000000000009',
                    'stop': '00000001000000000000000A'
                },
                'backrest': {
                    'format': 5,
                    'version': '2.57.0'
                },
                'database': {
                    'id': 1,
                    'repo-key': 1
                },
                'error': false,
                'info': {
                    'delta': 1376514,
                    'repository': {
                        'delta': 212178,
                        'size': 3078147
                    },
                    'size': 23344628
                },
                'label': '20260103-233937F_20260103-234057I',
                'lsn': {
                    'start': '0/9000028',
                    'stop': '0/A000050'
                },
                'prior': '20260103-233937F',
                'reference': [
                    '20260103-233937F'
                ],
                'timestamp': {
                    'start': 1767483657,
                    'stop': 1767483664
                },
                'type': 'incr'
            }
        ],
        'cipher': 'none',
        'db': [
            {
                'id': 1,
                'repo-key': 1,
                'system-id': 7591284103390970243,
                'version': '15'
            }
        ],
        'name': 'main',
        'repo': [
            {
                'cipher': 'none',
                'key': 1,
                'status': {
                    'code': 0,
                    'message': 'ok'
                }
            }
        ],
        'status': {
            'code': 0,
            'lock': {
                'backup': {
                    'held': false
                },
                'restore': {
                    'held': false
                }
            },
            'message': 'ok'
        }
    }
]".

(** A stanza with a backup from before and one from after an upgrade of PostgreSQL. *)
Definition upgraded_json : string := quoted
"[{'backup': [{'database': {'id': 1, 'repo-key': 1}, 'error': false, 'info': {'delta': 10, 
'repository': {'delta': 4, 'size': 4}, 'size': 10}, 'label': 'old', 'timestamp': 
{'start': 100, 'stop': 110}, 'type': 'full'}, {'database': {'id': 2, 'repo-key': 1}, 
'error': null, 'info': {'delta': 20, 'repository': {'delta': 8, 'size': 8}, 'size': 20}, 
'label': 'new', 'timestamp': {'start': 200, 'stop': 210}, 'type': 'full'}], 'db': [{'id': 
1, 'repo-key': 1, 'system-id': 7591284103390970243, 'version': '15'}, {'id': 2, 
'repo-key': 1, 'system-id': 7601284103390970243, 'version': '17'}], 'name': 'main', 
'status': {'code': 0, 'message': 'ok'}}]".

(** A table with a primary key and no comment, and what the query gives for it: jsonb
    keeps short keys first. *)
Definition ex_sized (total : Z) : Table := {|
  Table_Name := "t"; Table_Schema := "public"; Table_Owner := "owner"; Table_Comment := None;
  Table_TableColumns := [Some (MkTableColumn "id" "integer" true false);
                         Some (MkTableColumn "note" "text" false false)];
  Table_TableIndexes := [Some (MkTableIndex "t_pkey" "btree" "CREATE UNIQUE INDEX t_pkey" ["id"] 8192
                                 true true false false true false)];
  Table_TableConstraints := [Some (MkTableConstraint "t_pkey" "primary_key" EmptyString "PRIMARY KEY (id)" ["id"] [])];
  Table_Inheritance := MkTableInheritance [];
  Table_Stats := MkTableStats (-1) total 8192 0;
  Table_Oid := 16400 |}.
Definition ex_table : Table := ex_sized 16384.

Definition object (kvs : list (string * json)) : json := JObj (prod_map s2b id <$> kvs).
Definition num (s : string) : json := JNum (s2b s).

Definition ex_stats (total : string) : json := object
  [("row_estimate", num "-1"); ("heap_size_bytes", num "8192"); ("toast_size_bytes", num "0");
   ("total_size_bytes", num total)].
Definition ex_column (name type : string) (not_null : bool) : json := object
  [("name", text name); ("type", text type); ("not_null", JBool not_null); ("is_inherited", JBool false)].
Definition ex_columns : json := JArr [ex_column "id" "integer" true; ex_column "note" "text" false].
Definition ex_indexes : json := JArr [object
  [("name", text "t_pkey"); ("type", text "btree"); ("columns", JArr [text "id"]); ("is_valid", JBool true);
   ("is_unique", JBool true); ("definition", text "CREATE UNIQUE INDEX t_pkey"); ("is_partial", JBool false);
   ("is_primary", JBool true); ("size_bytes", num "8192"); ("is_exclusion", JBool false);
   ("is_inherited", JBool false)]].
Definition ex_constraints : json := JArr [object
  [("name", text "t_pkey"); ("type", text "primary_key"); ("definition", text "PRIMARY KEY (id)");
   ("foreign_table", JNull); ("local_columns", JArr [text "id"]); ("foreign_columns", JNull)]].
Definition ex_inheritance : json := object [("parent_tables", JNull)].

Definition jsonb_cell (j : json) : cell := CStr (b2s (print j)).
Definition ex_sized_row (total : string) : list cell :=
  [CInt 16400; CStr "t"; CStr "public"; CStr "owner"; CNull;
   jsonb_cell (ex_stats total); jsonb_cell ex_columns; jsonb_cell ex_indexes; jsonb_cell ex_constraints;
   jsonb_cell ex_inheritance].
Definition ex_table_row : list cell := ex_sized_row "16384".

Definition version_text_17 : string := "PostgreSQL 17.2 (Debian 17.2-1) on x86_64, 64-bit".

Section world.
Variable broken : bool.

Definition example_query (c sql : string) : res (list (list cell) * option error) :=
  if decide (sql = queryDatabases) then
    inr ([[CStr "app"; CInt 16384]; [CStr "bare"; CInt 16385]; [CStr "shop"; CInt 16400]], None)
  else if decide (sql = queryAvailableExtensions) then inr ([[CStr "hstore"; CStr "1.8"]], None)
  else if decide (c = "db=shop" /\ broken = true) then inl (ErrExt "connection refused")
  else if decide (c = "db=bare") then inr ([], None)
  else if decide (sql = queryListSchemas) then
    inr ([[CInt 2200; CStr "public"; CStr "owner"]], None)
  else if decide (sql = queryListInstalledExtensions) then
    inr ([[CInt 13; CStr "plpgsql"; CStr "1.0"; CStr "pg_catalog"]], None)
  else if decide (sql = querySequences) then
    inr ([[CInt 70; CStr "seq"; CStr "public"; CStr "owner"; CStr "int8"]], None)
  else if decide (sql = queryFunctions) then
    inr ([[CInt 80; CStr "f"; CStr "public"; CStr "owner"; CStr "sql"; CStr "integer"; CStr ""]], None)
  else if decide (sql = queryTables) then inr ([ex_table_row], None)
  else inl (ErrExt "syntax error").

Definition example_row (c sql : string) : res (list cell) :=
  if decide (sql = queryStanza) then inr [CStr "main"]
  else if decide (sql = queryClusterName) then inr [CStr "prod"]
  else if decide (sql = queryServerInfo) then
    inr [CBool false; CStr "off"; CStr "on"; CInt 5432; CInt 100; CStr "off"; CStr "replica";
         CStr "/data"; CInt 7000000000000000001; CInt 1; CStr version_text_17]
  else inl (ErrExt "no rows in result set").

Definition example_answers : Answers := {|
  av_value := cell;
  av_new := fun _ => None;
  av_query := example_query;
  av_row := example_row;
  av_exec := fun _ _ => inr upgraded_json;
  av_listen := fun _ => None;
  av_ping := fun _ => None
|}.

Definition example_world : World := @answers_world example_answers.

Definition example_scanner : @Scanner example_world.
Proof.
  refine (@Build_Scanner example_world cell_string cell_bool (cell_int uint32) (cell_int int8)
    (cell_int int32) (cell_int int64) cell_opt cell_opt (fun _ _ => ErrExt "wrong number of columns") _ _ _ _);
  intros v n H; exact (cell_int_range _ _ _ H).
Defined.
End world.

(** A server whose connection breaks after the first row of any query. *)
Definition truncated_answers : Answers := {|
  av_value := cell;
  av_new := fun _ => None;
  av_query := fun _ _ => inr ([[CStr "app"; CInt 16384]], Some (ErrExt "unexpected EOF"));
  av_row := fun _ _ => inl (ErrExt "unexpected EOF");
  av_exec := fun _ _ => inl (ErrExt "executable file not found");
  av_listen := fun _ => None;
  av_ping := fun _ => None
|}.

Definition truncated_scanner : @Scanner (@answers_world truncated_answers).
Proof.
  refine (@Build_Scanner (@answers_world truncated_answers) cell_string cell_bool (cell_int uint32)
    (cell_int int8) (cell_int int32) (cell_int int64) cell_opt cell_opt
    (fun _ _ => ErrExt "wrong number of columns") _ _ _ _);
  intros v n H; exact (cell_int_range _ _ _ H).
Defined.

(** The lower-case table: ASCII results for the two runes that have one. *)
Definition example_lower (r : Z) : Z :=
  if (r =? 304)%Z then 105%Z else if (r =? 8490)%Z then 107%Z else r.

Definition example_unicode : UnicodeLower.
Proof.
  refine {| unicode_lower := example_lower |}; [done|done|].
  intros r H H1 H2. unfold example_lower.
  by rewrite (proj2 (Z.eqb_neq _ _) H1), (proj2 (Z.eqb_neq _ _) H2).
Defined.

(** ** The row of the example is one the query gives *)

(** [wf] for ASCII text, as a computation. *)
Fixpoint wf_ascii (d : nat) (j : json) : bool :=
  match j with
  | JNull | JBool _ => true
  | JNum t => bool_decide (number t = Some (t, []))
  | JStr s => forallb is_ascii s
  | JArr l => (d <? maxNestingDepth) && forallb (wf_ascii (S d)) l
  | JObj l => (d <? maxNestingDepth) && forallb (fun kv => forallb is_ascii kv.1 && wf_ascii (S d) kv.2) l
  end.

Lemma wf_ascii_wf j : forall d, wf_ascii d j = true -> wf d j.
Proof.
  induction j as [|b|t|s|l IH|l IH] using json_nested_ind; intros d H; cbn [wf_ascii] in H.
  - constructor.
  - constructor.
  - constructor. by apply bool_decide_eq_true in H.
  - constructor. by apply utf8_ascii.
  - apply andb_true_iff in H as [Hd H]. apply Nat.ltb_lt in Hd. constructor; [done|].
    induction IH as [|j l Hj _ IHl]; [constructor|]. simpl in H. apply andb_true_iff in H as [H1 H2].
    constructor; auto.
  - apply andb_true_iff in H as [Hd H]. apply Nat.ltb_lt in Hd. constructor; [done|].
    induction IH as [|kv l Hj _ IHl]; [constructor|]. simpl in H. apply andb_true_iff in H as [H1 H2].
    apply andb_true_iff in H1 as [Hk H1]. constructor; [|auto]. split; [by apply utf8_ascii|auto].
Qed.

Lemma object_obj kvs kvs' : kvs ≡ₚ kvs' -> obj kvs' (object kvs).
Proof. intros H. eexists. split; [done|]. by rewrite H. Qed.

Lemma decimal_pos z (s : string) : (0 <= z)%Z -> plain_digits (s2b s) = Some z -> decimal z (num s).
Proof. intros Hz H. eexists. split; [done|]. by left. Qed.

Lemma jsonb_text j : wf_ascii 0 j = true -> jsonb (Some j) (Some (b2s (print j))).
Proof. intros H. split; [by apply wf_ascii_wf|done]. Qed.

Lemma ex_table_wf : Table_wf ex_table.
Proof. unfold Table_wf, uint32, int64, uint64. simpl. repeat (split; [lia|]). split; [|constructor]. constructor; [simpl; lia|constructor]. Qed.

Ltac one_object := eexists; split; [reflexivity|]; apply object_obj; solve_Permutation.

Lemma ex_sized_is_row broken total s :
  (0 <= total)%Z -> plain_digits (s2b s) = Some total -> wf_ascii 0 (ex_stats s) = true ->
  @table_row _ (example_scanner broken) (ex_sized_row s) (ex_sized total).
Proof.
  intros Ht Hs Hw. eexists (Scanned _ _ _ _ _ _ _ _ _ _). split.
  { eexists _, _, _, _, _, _, _, _, _, _. repeat (split; [reflexivity|]). reflexivity. }
  do 5 (split; [reflexivity|]). split; [|split; [|split; [|split]]].
  - exists (ex_stats s). split; [by apply jsonb_text|].
    exists (num "-1"), (num s), (num "8192"), (num "0").
    split. { eexists. split; [done|]. right. split; [simpl; lia|]. by eexists. }
    split; [by apply decimal_pos|]. do 2 (split; [apply decimal_pos; [done|reflexivity]|]). apply object_obj. solve_Permutation.
  - exists (Some ex_columns). split; [apply jsonb_text; vm_compute; reflexivity|].
    eexists. split; [reflexivity|]. do 2 (constructor; [one_object|]). constructor.
  - exists (Some ex_indexes). split; [apply jsonb_text; vm_compute; reflexivity|].
    eexists. split; [reflexivity|]. constructor; [|constructor]. eexists. split; [reflexivity|].
    exists (num "8192"). split; [apply decimal_pos; [done|reflexivity]|]. apply object_obj. simpl. solve_Permutation.
  - exists (Some ex_constraints). split; [apply jsonb_text; vm_compute; reflexivity|].
    eexists. split; [reflexivity|]. constructor; [one_object|constructor].
  - exists ex_inheritance. split; [apply jsonb_text; vm_compute; reflexivity|].
    exists None. split; [done|]. by apply object_obj.
Qed.

Lemma ex_table_is_row broken : @table_row _ (example_scanner broken) ex_table_row ex_table.
Proof. by apply ex_sized_is_row. Qed.

Lemma example_tables c :
  example_query false c queryTables = inr (if decide (c = "db=bare") then [] else [ex_table_row], None).
Proof.
  assert (forall sql, bool_decide (queryTables = sql) = false -> queryTables <> sql) as Hne
    by (intros sql H; by apply bool_decide_eq_false in H).
  unfold example_query.
  do 2 (rewrite decide_False by (apply Hne; vm_compute; reflexivity)).
  rewrite decide_False by (by intros [_ ?]). case_decide; [done|].
  do 4 (rewrite decide_False by (apply Hne; vm_compute; reflexivity)). by rewrite decide_True.
Qed.

Definition example_errors : JsonErrors :=
  {| unmarshal_error := fun _ _ => ErrExt "cannot unmarshal" |}.

Definition example_server : Server := NewServer {|
  Store_pool := 0; Store_connStrFor := fun db => "db=" +:+ db;
  Store_coordinator := Coordinator.NewConnectionCoordinator;
  Store_Stanza := "main"; Store_ClusterName := "prod" |}.
