(* ===== verification/ServiceProps.v ===== *)
(** * Properties of the running service

    The theorems are about [reachable] states, that is all interleavings of all
    requests, with any cancellations and any answers of pgx.  Each is applied to a
    concrete run at the end of the file. *)

From S2P Require Import Prelude GoStrings GoRegexp Types Proto Json JsonDecode JsonCodec Runtime Logic Coordinator FanOut System Exec Scan Store StoreSpec Backrest Tables Server Service Example.

(** ** Responses *)
Section replies.
Context `{S : Scanner} `{U : UnicodeLower} `{J : JsonErrors}.
Variable srv : Server.
Variable dsn : string.
Let store := Server_store srv.

(** The rows pgx gave for the list of databases, whatever it reported afterwards. *)
Definition databases_read (databases : list Database) : Prop :=
  exists rows o, query_answer dsn queryDatabases (inr (rows, o)) /\
    Forall2 scanDatabase_row rows databases.

(** [items] are the rows of the complete answer to [sql] on [db]. *)
Definition items_read {T} (sql : string) (row : string -> list pgvalue -> T -> Prop)
    (db : Database) (items : list T) : Prop :=
  exists rows, query_answer (Store_connStrFor store (Database_Name db)) sql (inr (rows, None)) /\
    Forall2 (row (Database_Name db)) rows items.

(** [items] come from all databases: every row of every one of them, once, those of
    one database together and in the order of its answer. *)
Definition all_read {T} (sql : string) (row : string -> list pgvalue -> T -> Prop) (items : list T) : Prop :=
  exists databases order per, databases_read databases /\ databases ≡ₚ order /\
    Forall2 (items_read sql row) order per /\ items = concat per.

(** Why a listing of all databases fails: their list could not be read, or some
    of them could not. *)
Definition some_failed {T} (one : string -> res (list T) -> Prop) (err : error) : Prop :=
  databases_result dsn (inl err) \/
  exists databases failed errs, databases_read databases /\ failed ⊆+ databases /\ errs <> [] /\
    Forall2 (fun db e => one (Database_Name db) (inl e)) failed errs /\
    err = fan_error errs (length databases).

Lemma rows_ok_iff {T} (f : list pgvalue -> res T) (P : list pgvalue -> T -> Prop) rows items :
  (forall r x, f r = inr x <-> P r x) -> rows_ok f rows items -> Forall2 P rows items.
Proof. intros Hf HF. eapply Forall2_impl; [exact HF|]. intros. by apply Hf. Qed.

Lemma databases_ok l : databases_result dsn (inr l) -> databases_read l.
Proof.
  intros H. inverts H. eexists _, _. split; [done|]. eapply rows_ok_iff; [|done]. apply scanDatabase_iff.
Qed.

Lemma listing_ok {T} sql m format f (row : string -> list pgvalue -> T -> Prop) db items :
  (forall r x, f (Database_Name db) r = inr x <-> row (Database_Name db) r x) ->
  listing store sql m (in_database format f) as_read (Database_Name db) (inr items) ->
  items_read sql row db items.
Proof.
  intros Hf H. inverts H. eexists. split; [done|]. eapply rows_ok_iff; [|done].
  intros r x. unfold in_database. by rewrite wrapped_inr.
Qed.

Lemma fanned_ok {T} sql m format f (row : string -> list pgvalue -> T -> Prop) items :
  (forall db r x, f db r = inr x <-> row db r x) ->
  fanned dsn (listing store sql m (in_database format f) as_read) (inr items) -> all_read sql row items.
Proof.
  intros Hf (databases & order & per & Hd & Ho & HF & Hp). exists databases, order, per.
  split; [by apply databases_ok|]. split; [done|]. split; [|done].
  eapply Forall2_impl; [exact HF|]. intros db l. by apply listing_ok.
Qed.

Lemma fanned_failed {T} (one : string -> res (list T) -> Prop) err :
  fanned dsn one (inl err) -> some_failed one err.
Proof.
  intros [H|(databases & failed & errs & Hd & H)]; [by left|right].
  exists databases, failed, errs. split; [by apply databases_ok|done].
Qed.

Ltac reply_cases H := apply replies_promise in H as ([err|x] & Hx & ->); simpl.

(** A response to ListSchemas holds the schemas of every database that
    pg_database lists, each row of pg_namespace once and labelled with its
    database, in any order of databases; an error is Internal and says which
    databases failed. *)
Theorem ListSchemas_reply r :
  replies srv dsn MListSchemas (RListSchemas r) ->
  match r with
  | inr resp => exists items, all_read queryListSchemas scanSchema_row items /\
      ListSchemasResponse_schemas resp = Schema_ToProto <$> items
  | inl st => exists err, some_failed (schema_listing store) err /\
      st = Status Internal (Errorf "failed to list schemas: %v" [AErr err])
  end.
Proof.
  intros H. reply_cases H.
  - exists err. split; [by apply fanned_failed|done].
  - exists x. split; [|done]. eapply fanned_ok; [|exact Hx]. apply scanSchema_iff.
Qed.

(** The same for ListSequences and pg_sequence. *)
Theorem ListSequences_reply r :
  replies srv dsn MListSequences (RListSequences r) ->
  match r with
  | inr resp => exists items, all_read querySequences scanSequence_row items /\
      ListSequencesResponse_sequences resp = Sequence_ToProto <$> items
  | inl st => exists err, some_failed (sequence_listing store) err /\
      st = Status Internal (Errorf "failed to list sequences: %v" [AErr err])
  end.
Proof.
  intros H. reply_cases H.
  - exists err. split; [by apply fanned_failed|done].
  - exists x. split; [|done]. eapply fanned_ok; [|exact Hx]. apply scanSequence_iff.
Qed.

(** The same for ListFunctions and pg_proc. *)
Theorem ListFunctions_reply r :
  replies srv dsn MListFunctions (RListFunctions r) ->
  match r with
  | inr resp => exists items, all_read queryFunctions scanFunction_row items /\
      ListFunctionsResponse_functions resp = Function_ToProto <$> items
  | inl st => exists err, some_failed (function_listing store) err /\
      st = Status Internal (Errorf "failed to list functions: %v" [AErr err])
  end.
Proof.
  intros H. reply_cases H.
  - exists err. split; [by apply fanned_failed|done].
  - exists x. split; [|done]. eapply fanned_ok; [|exact Hx]. apply scanFunction_iff.
Qed.

(** A response to ListExtensions holds every row of pg_available_extensions of
    the default database, in order and read to its end, and the installed
    extensions of every database; an error of either part fails the call. *)
Theorem ListExtensions_reply r :
  replies srv dsn MListExtensions (RListExtensions r) ->
  match r with
  | inr resp => exists rows available installed,
      query_answer dsn queryAvailableExtensions (inr (rows, None)) /\
      Forall2 scanAvailableExtension_row rows available /\
      all_read queryListInstalledExtensions scanInstalledExtension_row installed /\
      resp = ExtensionsToProto available installed
  | inl st => exists err,
      (available_result dsn (inl err) \/ some_failed (extension_listing store) err) /\
      st = Status Internal (Errorf "failed to list extensions: %v" [AErr err])
  end.
Proof.
  intros H. reply_cases H.
  - exists err. split; [|done]. destruct Hx as [Hx|Hx]; [by left|right; by apply fanned_failed].
  - destruct x as [available installed], Hx as [Ha Hi]. inverts Ha.
    eexists _, available, installed. split; [done|]. split; [|split; [|done]].
    + eapply rows_ok_iff; [|done]. apply scanAvailableExtension_iff.
    + eapply fanned_ok; [|exact Hi]. apply scanInstalledExtension_iff.
Qed.

(** A response to ListDatabases holds one entry per row of pg_database, in
    order; the query's or a row's error is Internal. *)
Theorem ListDatabases_reply r :
  replies srv dsn MListDatabases (RListDatabases r) ->
  match r with
  | inr resp => exists databases, databases_read databases /\
      ListDatabasesResponse_databases resp = Database_ToProto <$> databases
  | inl st => exists err, databases_result dsn (inl err) /\
      st = Status Internal (Errorf "failed to list databases: %v" [AErr err])
  end.
Proof.
  intros H. reply_cases H; [by exists err|]. exists x. split; [by apply databases_ok|done].
Qed.

Lemma server_info_ok info :
  server_info_result dsn (inr info) ->
  exists row, row_answer dsn queryServerInfo (inr row) /\ scanServerInfo_row row info.
Proof.
  intros H. inversion H as [|r Ha E]. exists r. split; [done|]. by apply scanServerInfo_iff.
Qed.

Lemma timeline_range row info : scanServerInfo_row row info -> int8 (ServerInfo_TimelineID info).
Proof.
  unfold scanServerInfo_row. intros H. split_hyps.
  match goal with H : scan_int8 _ = _ |- _ => exact (scan_int8_range _ _ H) end.
Qed.

(** A response to GetServerInfo is the one row of the query, field by field,
    with the version number cut out of version(), the two on/off settings as
    booleans and the timeline unchanged by its conversion; it is Internal when the
    query fails, and also when one of the three texts does not parse. *)
Theorem GetServerInfo_reply r :
  replies srv dsn MGetServerInfo (RGetServerInfo r) ->
  match r with
  | inr resp => exists row info v readOnly ssl,
      row_answer dsn queryServerInfo (inr row) /\ scanServerInfo_row row info /\
      parsePgVersion (ServerInfo_PgVersion info) = inr v /\
      parsePgOnOffToBool (ServerInfo_IsReadOnly info) = inr readOnly /\
      parsePgOnOffToBool (ServerInfo_SslEnabled info) = inr ssl /\
      resp = {|
        GetServerInfoResponse_cluster_name := Store_ClusterName store;
        GetServerInfoResponse_pg_version := v;
        GetServerInfoResponse_is_in_recovery := ServerInfo_IsInRecovery info;
        GetServerInfoResponse_is_read_only := readOnly;
        GetServerInfoResponse_ssl_enabled := ssl;
        GetServerInfoResponse_port := ServerInfo_Port info;
        GetServerInfoResponse_max_connections := ServerInfo_MaxConnections info;
        GetServerInfoResponse_archive_mode := ServerInfo_ArchiveMode info;
        GetServerInfoResponse_data_directory := ServerInfo_DataDirectory info;
        GetServerInfoResponse_system_identifier := ServerInfo_SystemIdentifier info;
        GetServerInfoResponse_timeline_id := ServerInfo_TimelineID info;
        GetServerInfoResponse_wal_level := ServerInfo_WalLevel info |}
  | inl st =>
      (exists err, server_info_result dsn (inl err) /\
         st = Status Internal (Errorf "failed to get server info: %v" [AErr err])) \/
      (exists row info err, row_answer dsn queryServerInfo (inr row) /\ scanServerInfo_row row info /\
         (parsePgVersion (ServerInfo_PgVersion info) = inl err \/
          parsePgOnOffToBool (ServerInfo_IsReadOnly info) = inl err \/
          parsePgOnOffToBool (ServerInfo_SslEnabled info) = inl err) /\
         st = Status Internal (Errorf "failed to convert ServerInfo to RPC: %v" [AErr err]))
  end.
Proof.
  intros H. apply replies_promise in H as ([err|info] & Hx & ->); simpl; [left; by exists err|].
  destruct (server_info_ok _ Hx) as (row & Ha & Hrow).
  pose proof (to_int32_id _ (int8_int32 _ (timeline_range _ _ Hrow))) as Ht.
  unfold ServerInfoToProto.
  destruct (parsePgVersion _) as [e|v] eqn:E1; simpl; [right; exists row, info, e; by auto 10|].
  destruct (parsePgOnOffToBool (ServerInfo_IsReadOnly info)) as [e|ro] eqn:E2; simpl;
    [right; exists row, info, e; by auto 10|].
  destruct (parsePgOnOffToBool (ServerInfo_SslEnabled info)) as [e3|ssl] eqn:E3; simpl;
    [right; exists row, info, e3; by auto 10|].
  exists row, info, v, ro, ssl. rewrite Ht. done.
Qed.

(** ** Backups *)

(** The message of a backup. *)
Definition backup_message (version : string) (b : Backup) : BackupInfo :=
  {| BackupInfo_label := Backup_Label b;
     BackupInfo_type := Backup_Type b;
     BackupInfo_timestamp_start := BackupTimestamp_Start (Backup_Timestamp b);
     BackupInfo_timestamp_stop := BackupTimestamp_Stop (Backup_Timestamp b);
     BackupInfo_backup_size := BackupSizeInfo_Size (Backup_Info b);
     BackupInfo_repo_size := PgbackrestRepo_Size (BackupSizeInfo_Repository (Backup_Info b));
     BackupInfo_database_version := version;
     BackupInfo_error := Backup_Error b;
     BackupInfo_repo_key := PgbackrestDatabase_RepoKey (Backup_Database b) |}.

Lemma Backup_ToProto_message version b : Backup_wf b -> Backup_ToProto b version = backup_message version b.
Proof.
  intros (_ & _ & _ & _ & _ & _ & _ & Hk). unfold Backup_ToProto, backup_message. f_equal.
  auto with inventory.
Qed.

Lemma backups_messages version bs :
  Forall Backup_wf bs -> (fun b => Backup_ToProto b version) <$> bs = backup_message version <$> bs.
Proof. induction 1 as [|b bs Hb _ IH]; [done|]. csimpl. by rewrite Backup_ToProto_message, IH. Qed.

(** What pgbackrest printed about the configured stanza. *)
Definition backups_read (infos : list PgbackrestInfo) : Prop :=
  exists data, exec_answer "pgbackrest" (backrest_args store) (inr data) /\ parseBackrestInfo data = inr infos.

Lemma backups_result_inr infos : backups_result store (inr infos) -> backups_read infos.
Proof. intros H. inversion H as [|data Ha Ed]. by exists data. Qed.

(** C16: a response to ListBackups is about the first stanza that pgbackrest printed
    and holds all its backups in order, field by field, with no integer changed; the
    PostgreSQL version of every backup is that of the first database of the stanza.
    The call fails, each time with its own status, when pgbackrest fails, when its
    output does not parse, and when there is no stanza, no database or no version. *)
Theorem ListBackups_reply r :
  replies srv dsn MListBackups (RListBackups r) ->
  match r with
  | inr resp => exists info infos db dbs,
      backups_read (info :: infos) /\ PgbackrestInfo_Db info = db :: dbs /\
      PgbackrestDb_Version db <> EmptyString /\
      ListBackupsResponse_stanza resp = PgbackrestInfo_Name info /\
      ListBackupsResponse_backups resp =
        backup_message (PgbackrestDb_Version db) <$> PgbackrestInfo_Backup info
  | inl st =>
      (exists err, backups_result store (inl err) /\ st = Status Internal (Errorf "%v" [AErr err])) \/
      (backups_read [] /\ st = Status NotFound (Errorf "no stanza found" [])) \/
      (exists info infos, backups_read (info :: infos) /\
         (PgbackrestInfo_Db info = [] /\
          st = Status Internal (Errorf "pgbackrest info is not complete, missing db field" []) \/
          exists db dbs, PgbackrestInfo_Db info = db :: dbs /\ PgbackrestDb_Version db = EmptyString /\
          st = Status Internal (Errorf "could not extract PG version from pgbackrest info" [])))
  end.
Proof.
  intros H. apply replies_promise in H as ([err|[|info infos]] & Hx & ->); simpl.
  - left. by exists err.
  - right. left. split; [by apply backups_result_inr|done].
  - apply backups_result_inr in Hx. destruct (PgbackrestInfo_Db info) as [|db dbs] eqn:Ed.
    { right. right. exists info, infos. auto. }
    case_decide as Hv; [right; right; exists info, infos; eauto 10|].
    exists info, infos, db, dbs. split_and!; try done. simpl.
    destruct Hx as (data & _ & Hp). apply parseBackrestInfo_wf, Forall_cons in Hp as [[Hb _] _].
    by apply backups_messages.
Qed.

(** ** Tables *)

(** One element per database with the tables of all rows of its query. *)
Definition tables_read (infos : list TablesInfo) : Prop :=
  exists databases per, databases_read databases /\ infos ≡ₚ per /\
    Forall2 (fun db info => TablesInfo_Database info = Database_Name db /\ exists rows,
      query_answer (Store_connStrFor store (Database_Name db)) queryTables (inr (rows, None)) /\
      Forall2 (fun row t => readTable (Database_Name db) row = inr t) rows (TablesInfo_Tables info))
      databases per.

Lemma tables_fanned infos : fanned dsn (table_listing store) (inr infos) -> tables_read infos.
Proof.
  intros (databases & order & per & Hd & Ho & HF & ->).
  assert (Forall2 (fun db info => TablesInfo_Database info = Database_Name db /\ exists rows,
      query_answer (Store_connStrFor store (Database_Name db)) queryTables (inr (rows, None)) /\
      Forall2 (fun row t => readTable (Database_Name db) row = inr t) rows (TablesInfo_Tables info))
    order (concat per)) as HF'.
  { clear Ho Hd. induction HF as [|db l order per Hl _ IH]; [constructor|]. inverts Hl.
    constructor; [|exact IH]. simpl. split; [done|]. eexists. split; [done|]. done. }
  symmetry in Ho. destruct (Forall2_reorder _ _ _ _ Ho HF') as (per' & Hp & HF2).
  exists databases, per'. split; [by apply databases_ok|]. done.
Qed.

Definition info_message (info : TablesInfo) (d : DatabaseTables) : Prop :=
  DatabaseTables_database d = TablesInfo_Database info /\
  Forall2 (fun t p => tableToProto t = Some p) (TablesInfo_Tables info) (DatabaseTables_tables d).

Lemma databaseTablesToProto_Some info d : databaseTablesToProto info = Some d <-> info_message info d.
Proof.
  unfold databaseTablesToProto, info_message. rewrite bind_Some. setoid_rewrite mapM_Some. split.
  - by intros (tables & HF & [= <-]).
  - intros [Hd HF]. exists (DatabaseTables_tables d). split; [done|]. destruct d. simpl in *. by subst.
Qed.

Lemma mapM_None {A B} (f : A -> option B) l : mapM f l = None -> exists x, x ∈ l /\ f x = None.
Proof.
  induction l as [|x l IH]; [done|]. simpl. destruct (f x) eqn:Ef; [|by exists x; rewrite elem_of_cons; auto].
  simpl. destruct (mapM f l) eqn:El; [done|]. intros _. destruct IH as (y & Hy & E'); [done|].
  exists y. rewrite elem_of_cons. auto.
Qed.

(** A response to ListTables holds one element per database, with the message of
    the table of every row, in the query's order; an error is Internal and says which
    databases failed; and the handler panics only when the jsonb of some table held
    a null in place of a column, an index, a constraint or a parent. *)
Theorem ListTables_reply r :
  replies srv dsn MListTables (RListTables r) ->
  match r with
  | Some (inr resp) => exists infos, tables_read infos /\
      Forall2 info_message infos (ListTablesResponse_database_tables resp)
  | Some (inl st) => exists err, some_failed (table_listing store) err /\
      st = Status Internal (Errorf "failed to list tables: %v" [AErr err])
  | None => exists infos info t, tables_read infos /\ info ∈ infos /\
      t ∈ TablesInfo_Tables info /\ ~ no_nil t
  end.
Proof.
  intros H. apply replies_promise in H as ([err|infos] & Hx & ->); simpl.
  { exists err. split; [by apply fanned_failed|done]. }
  apply tables_fanned in Hx. destruct (mapM databaseTablesToProto infos) as [ds|] eqn:E; simpl; exists infos.
  - split; [done|]. apply mapM_Some in E. eapply Forall2_impl; [exact E|]. intros. by apply databaseTablesToProto_Some.
  - apply mapM_None in E as (info & Hi & E). unfold databaseTablesToProto in E.
    destruct (mapM tableToProto _) eqn:Et; [done|]. apply mapM_None in Et as (t & Ht & Et).
    exists info, t. split_and!; try done. by apply tableToProto_None.
Qed.

(** What PostgreSQL documents of the functions in the query: whatever it answers, each
    row is that of a table. *)
Definition query_gives_tables : Prop := forall c rows o,
  query_answer c queryTables (inr (rows, o)) ->
  Forall (fun row => exists t, table_row row t /\ Table_wf t) rows.

Lemma agg_is_Some {A} (one : A -> json -> Prop) l o : jsonb_agg one l o -> Forall is_Some l.
Proof.
  destruct l as [|x l]; [constructor|]. intros (js & _ & HF). eapply Forall2_Forall_l; [exact HF|].
  apply Forall_true. intros j y (z & -> & _). by eexists.
Qed.

Lemma table_row_no_nil row t : table_row row t -> no_nil t.
Proof.
  intros (x & _ & Ht). unfold table_columns in Ht. split_hyps. unfold inheritance_json in *. split_hyps.
  split_and!; by eapply agg_is_Some.
Qed.

Lemma tables_of_query db rows ts :
  Forall (fun row => exists t, table_row row t /\ Table_wf t) rows ->
  Forall2 (fun row t => readTable db row = inr t) rows ts ->
  Forall2 (fun row t => table_row row t /\ Table_wf t) rows ts.
Proof.
  intros Hq HF. induction HF as [|row t rows ts Hr _ IH]; [constructor|].
  apply Forall_cons in Hq as [(t' & Ht & Hw) Hq]. constructor; [|by apply IH].
  rewrite (readTable_row db row t' Ht Hw) in Hr. by injection Hr as <-.
Qed.

(** With the query answered as PostgreSQL documents it, ListTables never panics, and a
    response holds for every database exactly the messages of the tables its query
    found, in order. *)
Lemma ListTables_reads_all r :
  query_gives_tables -> replies srv dsn MListTables (RListTables r) ->
  match r with
  | None => False
  | Some (inl _) => True
  | Some (inr resp) => exists databases per, databases_read databases /\
      ListTablesResponse_database_tables resp ≡ₚ per /\
      Forall2 (fun db d => DatabaseTables_database d = Database_Name db /\ exists rows,
        query_answer (Store_connStrFor store (Database_Name db)) queryTables (inr (rows, None)) /\
        Forall2 (fun row p => exists t, table_row row t /\ Table_wf t /\ tableToProto t = Some p)
          rows (DatabaseTables_tables d)) databases per
  end.
Proof.
  intros Hq H. apply replies_promise in H as ([err|infos] & Hx & ->); simpl; [done|].
  apply tables_fanned in Hx as (databases & per & Hd & Hp & HF).
  assert (Forall2 (fun db info => TablesInfo_Database info = Database_Name db /\ exists rows,
    query_answer (Store_connStrFor store (Database_Name db)) queryTables (inr (rows, None)) /\
    Forall2 (fun row t => table_row row t /\ Table_wf t) rows (TablesInfo_Tables info)) databases per) as HF'.
  { eapply Forall2_impl; [exact HF|]. intros db info (Hn & rows & Ha & Hr). split; [done|].
    exists rows. split; [done|]. by eapply tables_of_query; [eapply Hq|]. }
  destruct (mapM databaseTablesToProto infos) as [ds|] eqn:E; simpl.
  - apply mapM_Some in E. destruct (Forall2_reorder _ _ per _ Hp E) as (ds' & Hds & HF2).
    exists databases, ds'. split; [done|]. split; [done|].
    eapply Forall2_trans; [|exact HF'|exact HF2]. intros db info d (Hn & rows & Ha & Hr) Hd'.
    apply databaseTablesToProto_Some in Hd' as [Hdn Hts]. split; [congruence|]. exists rows. split; [done|].
    eapply Forall2_trans; [|exact Hr|exact Hts]. intros row t p [??] ?. by exists t.
  - apply mapM_None in E as (info & Hi & E). rewrite Hp in Hi. apply list_elem_of_lookup in Hi as [i Hi].
    destruct (Forall2_lookup_r _ _ _ _ _ HF' Hi) as (db & _ & _ & rows & _ & Hr).
    unfold databaseTablesToProto in E. destruct (mapM tableToProto _) eqn:Et; [done|].
    apply mapM_None in Et as (t & Ht & Et). apply list_elem_of_lookup in Ht as [k Ht].
    destruct (Forall2_lookup_r _ _ _ _ _ Hr Ht) as (row & _ & Hrow & _).
    apply tableToProto_None in Et. by apply Et, table_row_no_nil with row.
Qed.

(** No request panics then. *)
Lemma ListTables_no_panic st q :
  query_gives_tables -> @reachable _ _ (service srv dsn) st -> q ∈ s_reqs st -> rq_run q <> RRet (RListTables None).
Proof.
  intros Hquery Hr Hq Hb. assert (rq_kind q = MListTables) as Hk.
  { pose proof (@sys_answer _ _ (service srv dsn) st q _ Hr Hq Hb) as Hs. by destruct (rq_kind q). }
  apply (ListTables_reads_all None Hquery). by exists st, q.
Qed.

(** ** The process *)

#[local] Instance props_cfg : ConnCfg := cfg srv dsn.
#[local] Instance props_service : Service := service srv dsn.

(** The states the process that serves [srv] can be in. *)
Definition service_state (st : sys) : Prop := reachable st.

(** C4: whatever is going on, the service by itself, without any request being
    cancelled, can get every accepted request answered; and it cannot run forever without
    new requests: no step sequence is infinite, cancellations included. *)
Theorem service_drains st :
  service_state st -> Acc (flip sys_step) st /\ exists st', rtc run_step st st' /\ quiescent st'.
Proof. intros H. split; [apply sys_acc|by apply sys_drains]. Qed.

(** C3: no deadlock: as long as a request is unanswered, a goroutine of the service can
    take a step of its own; no client has to cancel anything for that. *)
Theorem service_no_deadlock st : service_state st -> quiescent st \/ exists st', run_step st st'.
Proof. apply sys_progress. Qed.

(** C2: nothing leaks: when all requests are answered, also the failed and the
    cancelled ones, the mutex is free, every permit is back and the only open pool
    is the default one, with no result set open on it. *)
Theorem service_no_leak st :
  service_state st -> quiescent st ->
  h_mu (s_heap st) = false /\ held (s_heap st) = ∅ /\
  h_pools (s_heap st) = {[Store_pool store := dsn]} /\ h_rows (s_heap st) = ∅.
Proof.
  intros Hr Hq. destruct (sys_quiescent_clean _ Hr Hq) as (Hmu & Hch & Hp & Hrows).
  split; [done|]. split; [|done]. apply set_eq. intros db. rewrite elem_of_held.
  split; [|by intros ?%elem_of_empty]. intros (ch & Hs & Hc). apply Hch in Hs. congruence.
Qed.

(** C1: refinement: each step of the process, as its goroutines and the outside
    world see it, is a step of an abstract lock per database: at most one permit is
    taken, only if nobody has it, or one is given back; and a database keeps its
    channel forever. *)
Theorem service_refines_lock st st' :
  service_state st -> sys_step st st' ->
  lock_step (held (s_heap st)) (held (s_heap st')) /\
  h_sems (s_heap st) ⊆ h_sems (s_heap st').
Proof. apply sys_step_coord. Qed.

(** C29: a pool that is open, other than the default one, was opened for a database
    whose permit is taken. *)
Theorem service_pool_needs_permit st p c :
  service_state st -> p <> Store_pool store -> h_pools (s_heap st) !! p = Some c ->
  exists db, c = Store_connStrFor store db /\ db ∈ held (s_heap st).
Proof.
  intros Hr Hne Hp. destruct (sys_pool_permit _ _ _ Hr Hne Hp) as (db & ch & -> & Hs & Hc).
  exists db. split; [done|]. rewrite elem_of_held. eauto.
Qed.

(** C9: the open pools, the default one apart, belong to different database names: each
    can be given a name whose connection string it is connected with and whose permit is
    taken, and no two have the same. *)
Theorem service_one_pool_per_database st :
  service_state st -> exists owner : gmap nat string,
    dom owner = dom (h_pools (s_heap st)) ∖ {[Store_pool store]} /\
    (forall p db, owner !! p = Some db ->
       h_pools (s_heap st) !! p = Some (Store_connStrFor store db) /\ db ∈ held (s_heap st)) /\
    (forall p1 p2 db, owner !! p1 = Some db -> owner !! p2 = Some db -> p1 = p2).
Proof.
  intros Hr. destruct (sys_pools_owned _ Hr) as [owner [Hall Hown Hinj]]. exists owner. split; [|split; [|done]].
  - apply set_eq. intros p. rewrite elem_of_difference, !elem_of_dom, not_elem_of_singleton, Hall. tauto.
  - intros p db Hp. destruct (Hown _ _ Hp) as [Hc Hh]. split; [done|]. by apply elem_of_held.
Qed.

(** C38: what ListDatabases does with an iteration error: the rows delivered before
    it are returned as if they were all, with no error. *)
Theorem ListDatabases_drops_iteration_error rows err databases h ctx :
  query_answer dsn queryDatabases (inr (rows, Some err)) ->
  rows_ok scanDatabase rows databases ->
  h_pools h !! Store_pool store = Some dsn ->
  exists h', runs ctx h (Store.ListDatabases store) h' (inr databases).
Proof.
  intros Hq HF Hp. eexists. exists (inr (MkRows (fresh (dom (h_rows h))) rows (Some err))). eexists.
  split. { exists dsn. split; [done|]. split; [done|]. split; [|done]. apply not_elem_of_dom, is_fresh. }
  exists tt. eexists. split; [done|]. split; [|done].
  symmetry. apply for_rows_inr. exists databases. done.
Qed.
End replies.

(** ** Witnesses: the service of Example.v answering one request *)

#[local] Instance ex_unicode : UnicodeLower := example_unicode.
#[local] Instance ex_errors : JsonErrors := example_errors.
#[local] Instance ex_cfg : ConnCfg := cfg example_server "postgres://".

(** The service of the example; its third database is out of order if [broken]. *)
Definition ex_service (broken : bool) : @Service (example_world broken) ex_cfg :=
  @service _ (example_scanner broken) _ _ example_server "postgres://".

(** What request [m] gives when it runs on its own, and the heap afterwards. *)
Definition ex_run (broken : bool) (m : method) : option (reply * heap) :=
  @run_task (example_answers broken) reply None (s_heap (@sys_init _ _ (ex_service broken)))
    (@dispatch _ (example_scanner broken) _ _ example_server m).

Definition ex_state (broken : bool) (m : method) (r : reply) (h : heap) :
    @sys (example_world broken) ex_cfg (ex_service broken) :=
  Sys h [@InFlight _ _ (ex_service broken) m None (@RRet (example_world broken) reply r)].

Lemma ex_reachable broken m r h :
  ex_run broken m = Some (r, h) -> reachable (ex_state broken m r h).
Proof. apply (@run_reachable (example_answers broken) ex_cfg (ex_service broken)). Qed.

Lemma ex_replies broken m r h :
  ex_run broken m = Some (r, h) ->
  @replies _ (example_scanner broken) _ _ example_server "postgres://" m r.
Proof.
  intros H. eexists _, _. split; [by apply ex_reachable|]. split; [apply elem_of_cons; by left|done].
Qed.

(** The reply of a method, for the witnesses. *)
Definition ex_reply (broken : bool) (m : method) : option reply := fst <$> ex_run broken m.

Lemma ex_reply_replies broken m r :
  ex_reply broken m = Some r ->
  @replies _ (example_scanner broken) _ _ example_server "postgres://" m r.
Proof.
  unfold ex_reply. destruct (ex_run broken m) as [[r' h]|] eqn:E; [|done]. intros [= <-].
  by eapply ex_replies.
Qed.

Example ex_schemas : ex_reply false MListSchemas = Some (RListSchemas (inr (MkListSchemasResponse
  [MkProto_Schema 2200 "public" "owner" "app"; MkProto_Schema 2200 "public" "owner" "shop"]))).
Proof. vm_compute. reflexivity. Qed.

Ltac run_example := apply ex_reply_replies; vm_compute; reflexivity.

Lemma ListSchemas_reply_witness : exists items,
  [MkProto_Schema 2200 "public" "owner" "app"; MkProto_Schema 2200 "public" "owner" "shop"]
    = Schema_ToProto <$> items.
Proof.
  destruct (ListSchemas_reply (S := example_scanner false) example_server "postgres://"
    (inr (MkListSchemasResponse [MkProto_Schema 2200 "public" "owner" "app";
                                 MkProto_Schema 2200 "public" "owner" "shop"]))) as (items & _ & E);
    [run_example|by exists items].
Defined.

Lemma ListSequences_reply_witness : exists st err,
  st = Status Internal (Errorf "failed to list sequences: %v" [AErr err]) /\
  ex_reply true MListSequences = Some (RListSequences (inl st)).
Proof.
  destruct (ListSequences_reply (S := example_scanner true) example_server "postgres://"
    (inl (Status Internal (Errorf "failed to list sequences: %v" [AErr (fan_error
       [Errorf "query installed extensions in database %q: %w"
          [AStr "shop"; AErr (ErrExt "connection refused")]] 3)])))) as (err & _ & E); [run_example|].
  eexists _, err. split; [exact E|vm_compute; reflexivity].
Defined.

Lemma ListFunctions_reply_witness : exists items,
  [MkProto_Function 80 "f" "public" "owner" "app" "sql" "integer" "";
   MkProto_Function 80 "f" "public" "owner" "shop" "sql" "integer" ""] = Function_ToProto <$> items.
Proof.
  destruct (ListFunctions_reply (S := example_scanner false) example_server "postgres://"
    (inr (MkListFunctionsResponse
      [MkProto_Function 80 "f" "public" "owner" "app" "sql" "integer" "";
       MkProto_Function 80 "f" "public" "owner" "shop" "sql" "integer" ""]))) as (items & _ & E);
    [run_example|by exists items].
Defined.

Lemma ListExtensions_reply_witness : exists available installed,
  MkListExtensionsResponse
    [MkProto_InstalledExtension 13 "plpgsql" "1.0" "pg_catalog" "app";
     MkProto_InstalledExtension 13 "plpgsql" "1.0" "pg_catalog" "shop"]
    [MkProto_AvailableExtension "hstore" "1.8"] = ExtensionsToProto available installed.
Proof.
  destruct (ListExtensions_reply (S := example_scanner false) example_server "postgres://"
    (inr (MkListExtensionsResponse
      [MkProto_InstalledExtension 13 "plpgsql" "1.0" "pg_catalog" "app";
       MkProto_InstalledExtension 13 "plpgsql" "1.0" "pg_catalog" "shop"]
      [MkProto_AvailableExtension "hstore" "1.8"]))) as (rows & a & i & _ & _ & _ & E);
    [run_example|by exists a, i].
Defined.

Lemma ListDatabases_reply_witness : exists databases,
  [MkProto_Database "app" 16384; MkProto_Database "bare" 16385; MkProto_Database "shop" 16400]
    = Database_ToProto <$> databases.
Proof.
  destruct (ListDatabases_reply (S := example_scanner false) example_server "postgres://"
    (inr (MkListDatabasesResponse [MkProto_Database "app" 16384; MkProto_Database "bare" 16385;
                                   MkProto_Database "shop" 16400]))) as (dbs & _ & E);
    [run_example|by exists dbs].
Defined.

Lemma GetServerInfo_reply_witness : exists info,
  parsePgVersion (ServerInfo_PgVersion info) = inr "17.2" /\ ServerInfo_Port info = 5432%Z.
Proof.
  destruct (GetServerInfo_reply (S := example_scanner false) example_server "postgres://"
    (inr (MkGetServerInfoResponse "prod" "17.2" false false true 5432 100 "off" "/data"
            7000000000000000001 1 "replica"))) as (row & info & v & ro & ssl & _ & _ & Hv & _ & _ & E);
    [run_example|].
  exists info. injection E as -> _ _ Hport. split; [exact Hv|by symmetry].
Defined.

(** The stanza of the example was upgraded: the backup taken under version 17 is
    reported with the version of the first database. *)
Lemma ListBackups_reply_witness : exists info infos db dbs,
  @backups_read (example_world false) _ example_server (info :: infos) /\
  PgbackrestInfo_Db info = db :: dbs /\
  [MkBackupInfo "old" "full" 100 110 10 4 "15" false 1; MkBackupInfo "new" "full" 200 210 20 8 "15" false 1] =
    backup_message (PgbackrestDb_Version db) <$> PgbackrestInfo_Backup info.
Proof.
  destruct (ListBackups_reply (S := example_scanner false) example_server "postgres://"
    (inr (MkListBackupsResponse "main"
      [MkBackupInfo "old" "full" 100 110 10 4 "15" false 1;
       MkBackupInfo "new" "full" 200 210 20 8 "15" false 1]))) as (info & infos & db & dbs & Hr & Hd & _ & _ & E);
    [run_example|].
  exists info, infos, db, dbs. split; [exact Hr|]. split; [exact Hd|exact E].
Defined.

Definition ex_tables_response : ListTablesResponse :=
  MkListTablesResponse ((fun db => MkDatabaseTables db
    (if decide (db = "bare") then [] else option_list (tableToProto ex_table))) <$> ["app"; "bare"; "shop"]).

Lemma ListTables_reply_witness : exists infos,
  @tables_read _ (example_scanner false) _ example_server "postgres://" infos /\
  Forall2 info_message infos (ListTablesResponse_database_tables ex_tables_response).
Proof.
  exact (ListTables_reply (S := example_scanner false) example_server "postgres://"
    (Some (inr ex_tables_response)) ltac:(run_example)).
Defined.

Lemma ex_query_gives_tables : @query_gives_tables _ (example_scanner false).
Proof.
  intros c rows o H. change (inr (rows, o) = example_query false c queryTables) in H.
  rewrite example_tables in H. injection H as -> _. case_decide; [constructor|].
  constructor; [|constructor]. exists ex_table. split; [apply ex_table_is_row|apply ex_table_wf].
Qed.

Lemma readTable_reads_witness : @readTable _ (example_scanner false) _ "app" ex_table_row = inr ex_table.
Proof.
  apply (readTable_reads (S := example_scanner false)); [exact (ex_table_is_row false)|exact ex_table_wf].
Defined.


(** The repository's own test: parsing its test data. *)
Definition ex_infos : list PgbackrestInfo := [
  MkPgbackrestInfo "main"
    [MkBackup "20260103-233937F" "full" (MkBackupTimestamp 1767483577 1767483580)
       (MkBackupSizeInfo 23246324 (MkPgbackrestRepo 3066593 3066593) 23246324) (MkPgbackrestDatabase 1 1) false;
     MkBackup "20260103-233937F_20260103-234057I" "incr" (MkBackupTimestamp 1767483657 1767483664)
       (MkBackupSizeInfo 1376514 (MkPgbackrestRepo 212178 3078147) 23344628) (MkPgbackrestDatabase 1 1) false]
    [MkPgbackrestDb "15" 7591284103390970243 1 1]].

Example pgbackrest_testdata : parseBackrestInfo pgbackrest_json = inr ex_infos.
Proof. vm_compute. reflexivity. Qed.

(** A stanza without backups; pgbackrest says more than the program reads.  Its database
    has the number [id]. *)
Definition ex_stanza_text (id : string) : string :=
  quoted ("[{'backup': [], 'cipher': 'none', 'db': [{'id': " +:+ id +:+ ", 'version': '15'}], 'name': 'main'}]").
Definition ex_stanza (id : Z) : PgbackrestInfo := MkPgbackrestInfo "main" [] [MkPgbackrestDb "15" 0 0 id].
Definition ex_stanza_json (id : string) : json := JArr [object
  [("backup", JArr []); ("cipher", text "none");
   ("db", JArr [object [("id", num id); ("version", text "15")]]); ("name", text "main")]].

Lemma ex_stanza_shows id s :
  plain_digits (s2b s) = Some id -> shows (go_slice PgbackrestInfo_json) [ex_stanza id] (ex_stanza_json s).
Proof.
  intros Hs. right. eexists. split; [reflexivity|]. constructor; [|constructor].
  eexists [(s2b "name", text "main"); (s2b "backup", JArr []);
           (s2b "db", JArr [object [("id", num s); ("version", text "15")]])], _.
  split; [reflexivity|]. split; [|vm_compute; solve_Permutation].
  right. eexists _, _. split; [reflexivity|]. split; [by left|].
  right. eexists _, _. split; [reflexivity|]. split; [right; eexists; by split|].
  right. eexists _, _. split; [reflexivity|]. split; [|reflexivity].
  right. eexists. split; [reflexivity|]. constructor; [|constructor].
  eexists [(s2b "version", text "15"); (s2b "id", num s)], _.
  split; [reflexivity|]. split; [|vm_compute; solve_Permutation].
  right. eexists _, _. split; [reflexivity|]. split; [by left|]. do 2 (left; split; [reflexivity|]).
  right. eexists _, _. split; [reflexivity|]. split; [|reflexivity]. left. eauto.
Qed.

Lemma parseBackrestInfo_reads_witness : parseBackrestInfo (ex_stanza_text "1") = inr [ex_stanza 1].
Proof.
  apply (parseBackrestInfo_reads (ex_stanza_text "1") (ex_stanza_json "1"));
    [vm_compute; reflexivity|apply ex_stanza_shows; reflexivity|].
  repeat constructor; simpl; lia.
Defined.

(** The number 256 does not fit a uint8. *)
Lemma parseBackrestInfo_refuses_witness : exists err, parseBackrestInfo (ex_stanza_text "256") = inl err.
Proof.
  eexists. apply (parseBackrestInfo_refuses (ex_stanza_text "256") (ex_stanza_json "256") [ex_stanza 256]);
    [vm_compute; reflexivity|apply ex_stanza_shows; reflexivity|].
  intros [[_ [[_ [_ [_ H]]] _]%Forall_cons] _]%Forall_cons. exact (Z.lt_irrefl _ H).
Defined.

(** After a request that failed on one of its databases. *)
Lemma service_no_leak_witness : exists st : @sys _ _ (ex_service true),
  dom (h_sems (s_heap st)) <> ∅ /\ held (s_heap st) = ∅ /\ h_rows (s_heap st) = ∅.
Proof.
  destruct (ex_run true MListSchemas) as [[r h]|] eqn:E; [|vm_compute in E; discriminate].
  exists (ex_state true MListSchemas r h). split.
  - vm_compute in E. injection E as _ <-. vm_compute. discriminate.
  - assert (quiescent (ex_state true MListSchemas r h)) as Hq by (constructor; [by exists r|constructor]).
    exact (match service_no_leak (S := example_scanner true) example_server "postgres://" _
      (ex_reachable _ _ _ _ E) Hq with conj _ (conj Hheld (conj _ Hrows)) => conj Hheld Hrows end).
Defined.

(** ListSchemas in the middle of the first database: 7 effects into it, its pool is
    open and its result set is not. *)
Definition ex_mid : option (heap * @rt (example_world false) reply) :=
  @run_into (example_answers false) reply 7 None (s_heap (@sys_init _ _ (ex_service false)))
    (@dispatch _ (example_scanner false) _ _ example_server MListSchemas).

Definition ex_mid_state (h : heap) (r : @rt (example_world false) reply) :
    @sys (example_world false) ex_cfg (ex_service false) :=
  Sys h [@InFlight _ _ (ex_service false) MListSchemas None r].

Lemma ex_mid_reachable h r : ex_mid = Some (h, r) -> reachable (ex_mid_state h r).
Proof. exact (@run_into_reachable (example_answers false) ex_cfg (ex_service false) 7 MListSchemas r h). Qed.

Lemma ex_mid_some : exists h r, ex_mid = Some (h, r).
Proof.
  assert (match ex_mid with Some _ => true | None => false end = true) as H by (vm_compute; reflexivity).
  destruct ex_mid as [[h r]|]; [by exists h, r|discriminate].
Qed.

Lemma ex_mid_pools h r : ex_mid = Some (h, r) -> h_pools h !! 1 = Some "db=app".
Proof.
  intros E. assert ((fun x => h_pools x.1 !! 1) <$> ex_mid = Some (Some "db=app")) as H
    by (vm_compute; reflexivity).
  rewrite E in H. by injection H.
Qed.

Lemma ex_mid_running h r : ex_mid = Some (h, r) -> ~ quiescent (ex_mid_state h r).
Proof.
  intros E Hq. assert (match ex_mid with Some (_, RRet _) => false | _ => true end = true) as H
    by (vm_compute; reflexivity).
  rewrite E in H. apply Forall_cons in Hq as [[b Hb] _]. simpl in Hb. by rewrite Hb in H.
Qed.

(** The request in the middle of a database can go on, and gets answered. *)
Lemma service_no_deadlock_witness : exists st st' : @sys _ _ (ex_service false),
  ~ quiescent st /\ run_step st st'.
Proof.
  destruct ex_mid_some as (h & r & E). exists (ex_mid_state h r).
  destruct (service_no_deadlock (S := example_scanner false) example_server "postgres://" _
    (ex_mid_reachable _ _ E)) as [Hq|[st' Hs]]; [by destruct (ex_mid_running _ _ E)|].
  exists st'. split; [exact (ex_mid_running _ _ E)|exact Hs].
Defined.

Lemma service_drains_witness : exists st st' : @sys _ _ (ex_service false),
  ~ quiescent st /\ rtc run_step st st' /\ quiescent st'.
Proof.
  destruct ex_mid_some as (h & r & E). exists (ex_mid_state h r).
  destruct (service_drains (S := example_scanner false) example_server "postgres://" _
    (ex_mid_reachable _ _ E)) as [_ [st' Hs]].
  exists st'. split; [exact (ex_mid_running _ _ E)|exact Hs].
Defined.

Lemma service_pool_needs_permit_witness : exists st : @sys _ _ (ex_service false),
  exists db, "db=app" = "db=" +:+ db /\ db ∈ held (s_heap st).
Proof.
  destruct ex_mid_some as (h & r & E).
  exists (ex_mid_state h r).
  exact (service_pool_needs_permit (S := example_scanner false) example_server "postgres://" _ 1 _
    (ex_mid_reachable _ _ E) ltac:(discriminate) (ex_mid_pools _ _ E)).
Defined.

Lemma service_one_pool_per_database_witness : exists st : @sys _ _ (ex_service false),
  h_pools (s_heap st) !! 1 = Some "db=app" /\ exists owner : gmap nat string,
    dom owner = dom (h_pools (s_heap st)) ∖ {[0]} /\
    forall p1 p2 db, owner !! p1 = Some db -> owner !! p2 = Some db -> p1 = p2.
Proof.
  destruct ex_mid_some as (h & r & E).
  exists (ex_mid_state h r). split; [exact (ex_mid_pools _ _ E)|].
  destruct (service_one_pool_per_database (S := example_scanner false) example_server "postgres://" _
    (ex_mid_reachable _ _ E)) as (owner & Hd & _ & Hi).
  exists owner. split; [exact Hd|exact Hi].
Defined.

(** The step that the request in the middle of a database takes. *)
Lemma ex_mid_step h r : ex_mid = Some (h, r) -> exists st', run_step (ex_mid_state h r) st'.
Proof.
  intros E. by destruct (sys_progress _ (ex_mid_reachable _ _ E)) as [?%(ex_mid_running _ _ E)|].
Qed.

Lemma service_refines_lock_witness : exists st st' : @sys _ _ (ex_service false),
  run_step st st' /\ lock_step (held (s_heap st)) (held (s_heap st')).
Proof.
  destruct ex_mid_some as (h & r & E). destruct (ex_mid_step _ _ E) as [st' Hs].
  exists (ex_mid_state h r), st'. split; [exact Hs|].
  exact (proj1 (service_refines_lock (S := example_scanner false) example_server "postgres://" _ _
    (ex_mid_reachable _ _ E) (ss_run _ _ Hs))).
Defined.

Lemma ListDatabases_drops_iteration_error_witness :
  @query_answer (@answers_world truncated_answers) "postgres://" queryDatabases
    (inr ([[CStr "app"; CInt 16384]], Some (ErrExt "unexpected EOF"))) /\
  exists h', @runs (@answers_world truncated_answers) _ None
    (Heap false ∅ ∅ {[0 := "postgres://"]} ∅)
    (@Store.ListDatabases _ truncated_scanner (Server_store example_server)) h'
    (inr [MkDatabase "app" 16384]).
Proof.
  split; [reflexivity|].
  apply (ListDatabases_drops_iteration_error (S := truncated_scanner) example_server "postgres://"
    [[CStr "app"; CInt 16384]] (ErrExt "unexpected EOF")); [reflexivity| |reflexivity].
  constructor; [reflexivity|constructor].
Defined.

Lemma NewStore_spec_witness : exists r,
  @runs (example_world false) _ None (Heap false ∅ ∅ {[0 := "postgres://"]} ∅)
    (@NewStore _ (example_scanner false) 0 id) (Heap false ∅ ∅ {[0 := "postgres://"]} ∅) (inr r) /\
  Store_Stanza r = "main" /\ Store_ClusterName r = "prod".
Proof.
  exists (MkStore 0 id (MkConnectionCoordinator ∅ false) "main" "prod"). split; [|split; reflexivity].
  apply (NewStore_spec (S := example_scanner false) None _ 0 id "postgres://"); [reflexivity|].
  split; [reflexivity|]. right. right. exists "main".
  split; [exists (inr [CStr "main"]); split; reflexivity|]. split; [reflexivity|]. right. exists "prod".
  split; [exists (inr [CStr "prod"]); split; reflexivity|reflexivity].
Defined.

(** Two databases known to the coordinator, the first one held. *)
Definition ex_heap : heap := Heap false {["app" := 0; "shop" := 1]} {[0 := true; 1 := false]} ∅ ∅.

Lemma ex_heap_ok : sems_ok ex_heap.
Proof.
  split; unfold ex_heap; simpl; intros d.
  - intros d2 ch H1 H2. apply lookup_insert_Some in H1 as [[<- <-]|[_ H1]],
      H2 as [[<- ?]|[_ H2]];
      repeat match goal with H : {[_ := _]} !! _ = Some _ |- _ => apply lookup_singleton_Some in H as [? ?] end;
      congruence.
  - intros ch H. apply lookup_insert_Some in H as [[<- <-]|[_ H]]; [by eexists|].
    apply lookup_singleton_Some in H as [<- <-]. by eexists.
Qed.

Lemma Acquire_spec_witness :
  (exists h', @runs (example_world false) _ None ex_heap (@Acquire (example_world false) "shop") h' None) /\
  (forall h' r, ~ @runs (example_world false) _ None ex_heap (@Acquire (example_world false) "app") h' r).
Proof.
  split.
  - destruct (@Acquire_spec (example_world false) None ex_heap "shop" eq_refl ex_heap_ok) as (_ & H & _).
    apply H. vm_compute. discriminate.
  - destruct (@Acquire_spec (example_world false) None ex_heap "app" eq_refl ex_heap_ok) as (_ & _ & _ & H).
    apply H; [reflexivity|]. vm_compute. reflexivity.
Defined.

Lemma Release_spec_witness :
  @runs (example_world false) _ None ex_heap (@Release (example_world false) "app") (put_chan 0 false ex_heap) tt.
Proof.
  apply (@Release_spec (example_world false) None ex_heap "app" _ tt eq_refl ex_heap_ok).
  right. exists 0. split; [reflexivity|]. split; [vm_compute; reflexivity|].
  split; [vm_compute; reflexivity|reflexivity].
Defined.
