(* ===== verification/CatalogProps.v ===== *)
(** * What the service reports about the catalogs

    [Postgres] says what the service relies on when it sends its queries: a server
    answers a query as SQL means it on some state of its catalogs, and pgx converts
    the columns.  Under these laws the responses of the methods are described by the
    catalogs alone: every database that accepts connections, every sequence, function,
    extension and schema in it, with its names, owner and types. *)

From S2P Require Import Prelude GoStrings Json JsonDecode SqlSyntax Sql SqlTyped Catalog Types Proto Runtime Logic Coordinator FanOut System Exec Scan Store StoreSpec Backrest Tables Server Service Example ServiceProps.

(** The rows of an answer with their columns as a driver represents them. *)
Definition columns {A} (wire : value -> A) (row : list value) : list A := wire <$> row.

Class Postgres `{S : Scanner} := {
  (** The states of the catalogs that a query over this connection may see. *)
  catalog_of : string -> Catalog -> Prop;
  (** A column value as pgx delivers it. *)
  wire : value -> pgvalue;
  (** The rows are those of an answer, or its first ones if the connection breaks. *)
  query_means conn sql q rows o :
    parse sql = Some q -> query_answer conn sql (inr (rows, o)) ->
    exists c ans, catalog_of conn c /\ Sql.answer (database_of c) q ans /\
      rows `prefix_of` map (columns wire) ans /\ (o = None -> rows = map (columns wire) ans);
  (** QueryRow gives the first row. *)
  row_means conn sql q row :
    parse sql = Some q -> row_answer conn sql (inr row) ->
    exists c ans rest, catalog_of conn c /\ Sql.answer (database_of c) q (ans :: rest) /\ row = columns wire ans;
  (** Scanning: a NULL does not fit in a string, and numbers are checked. *)
  scan_name s r : scan_string (wire (VName s)) = inr r <-> r = s;
  scan_text s r : scan_string (wire (VText s)) = inr r <-> r = s;
  scan_null r : scan_string (wire VNull) <> inr r;
  scan_ptr_text s r : scan_string_ptr (wire (VText s)) = inr r <-> r = Some s;
  scan_ptr_null r : scan_string_ptr (wire VNull) = inr r <-> r = None;
  scan_jsonb j r : scan_bytes (wire (VJson j)) = inr r <-> r = Some (b2s (print j));
  scan_bytes_null r : scan_bytes (wire VNull) = inr r <-> r = None;
  scan_truth b r : scan_bool (wire (VBool b)) = inr r <-> r = b;
  scan_oid n r : scan_uint32 (wire (VOid n)) = inr r <-> r = n /\ uint32 n;
  scan_int4 n r : scan_int32 (wire (VInt4 n)) = inr r <-> r = n /\ int32 n;
  scan_tiny n r : scan_int8 (wire (VInt4 n)) = inr r <-> r = n /\ int8 n;
  scan_big n r : scan_int64 (wire (VInt8 n)) = inr r <-> r = n /\ int64 n
}.

Section catalog.
Context `{P : Postgres} `{U : UnicodeLower} `{J : JsonErrors}.

(** ** Rows of the catalogs, scanned *)

(** Takes the scans of a row's columns apart. *)
Ltac scanned := repeat match goal with
  | H : _ /\ _ |- _ => destruct H
  | H : exists _, _ |- _ => destruct H
  | H : wire _ :: _ = _ :: _ |- _ => injection H; clear H; intros; subst
  | H : columns _ _ = _ :: _ |- _ => injection H; clear H; intros; subst
  | H : scan_string (wire (VName _)) = inr _ |- _ => apply scan_name in H
  | H : scan_string (wire (VText _)) = inr _ |- _ => apply scan_text in H
  | H : scan_string (wire VNull) = inr _ |- _ => by apply scan_null in H
  | H : scan_bool (wire (VBool _)) = inr _ |- _ => apply scan_truth in H
  | H : scan_uint32 (wire (VOid _)) = inr _ |- _ => apply scan_oid in H
  | H : scan_int32 (wire (VInt4 _)) = inr _ |- _ => apply scan_int4 in H
  | H : scan_int8 (wire (VInt4 _)) = inr _ |- _ => apply scan_tiny in H
  | H : scan_int64 (wire (VInt8 _)) = inr _ |- _ => apply scan_big in H
  end.

Definition database_item (d : PgDatabase) : Database := MkDatabase (datname d) (db_oid d).

Definition schema_item (c : Catalog) (db : string) (n : PgNamespace) : Schema :=
  MkSchema db (nspname n) (role_name c (nspowner n)) (ns_oid n).

Definition sequence_item (c : Catalog) (db : string) (s : sequence) : Sequence :=
  MkSequence (relname (sq_class s)) (nspname (sq_namespace s)) (role_name c (relowner (sq_class s))) db
    (typname (sq_type s)) (cls_oid (sq_class s)).

Definition function_item (c : Catalog) (db : string) (p : proc) : Function :=
  MkFunction (proname (pr_proc p)) (nspname (pr_namespace p)) (role_name c (proowner (pr_proc p))) db
    (lanname (pr_language p)) (format_type c (prorettype (pr_proc p)) None)
    (default EmptyString (identity_arguments c (pro_oid (pr_proc p)))) (pro_oid (pr_proc p)).

Definition available_item (a : PgAvailableExtension) : AvailableExtension :=
  MkAvailableExtension (ae_name a) (default EmptyString (ae_default_version a)).

Definition extension_item (_ : Catalog) (db : string) (e : extension) : InstalledExtension :=
  MkInstalledExtension (extname (ex_extension e)) (extversion (ex_extension e)) (nspname (ex_namespace e)) db
    (ext_oid (ex_extension e)).

Lemma scan_database d x : scanDatabase_row (columns wire (database_row d)) x -> x = database_item d.
Proof. destruct x. unfold scanDatabase_row, database_row, database_item. intros H. scanned. simpl in *. congruence. Qed.

Lemma scan_schema c db n x :
  scanSchema_row db (columns wire (schema_row c n)) x -> True /\ x = schema_item c db n.
Proof. destruct x. unfold scanSchema_row, schema_row, schema_item. intros H. scanned. simpl in *. split; [done|congruence]. Qed.

Lemma scan_sequence c db s x :
  scanSequence_row db (columns wire (sequence_row c s)) x -> True /\ x = sequence_item c db s.
Proof.
  destruct x. unfold scanSequence_row, sequence_row, sequence_item. intros H. scanned. simpl in *. split; [done|congruence].
Qed.

Lemma scan_function c db p x :
  scanFunction_row db (columns wire (function_row c p)) x ->
  is_Some (identity_arguments c (pro_oid (pr_proc p))) /\ x = function_item c db p.
Proof.
  destruct x. unfold scanFunction_row, function_row, function_item. intros H.
  destruct (identity_arguments _ _); scanned. simpl in *. split; [by eexists|congruence].
Qed.

(** An extension without a default version cannot be read. *)
Lemma scan_available a x :
  scanAvailableExtension_row (columns wire (available_row a)) x ->
  is_Some (ae_default_version a) /\ x = available_item a.
Proof.
  destruct x. unfold scanAvailableExtension_row, available_row, available_item. intros H.
  destruct (ae_default_version a); scanned. simpl in *. split; [by eexists|congruence].
Qed.

Lemma scan_extension c db e x :
  scanInstalledExtension_row db (columns wire (extension_row e)) x -> True /\ x = extension_item c db e.
Proof.
  destruct x. unfold scanInstalledExtension_row, extension_row, extension_item. intros H. scanned.
  simpl in *. split; [done|congruence].
Qed.

(** ** Answers, read *)

Variable srv : Server.
Variable dsn : string.
Let store := Server_store srv.

Lemma rows_items {R T} (row : R -> list value) (scan : list pgvalue -> T -> Prop) (good : R -> Prop)
    (item : R -> T) l items :
  (forall r x, scan (columns wire (row r)) x -> good r /\ x = item r) ->
  Forall2 scan (map (columns wire) (row <$> l)) items -> Forall good l /\ items = item <$> l.
Proof.
  intros Hs. revert items. induction l as [|r l IH]; intros items HF; inverts HF; [done|].
  match goal with H : scan _ _ |- _ => apply Hs in H as [Hg ->] end.
  match goal with H : Forall2 _ _ _ |- _ => destruct (IH _ H) as [Hl ->] end. auto.
Qed.

(** The list of databases always arrives whole. *)
Definition unbroken : Prop := forall rows err, ~ query_answer dsn queryDatabases (inr (rows, Some err)).

(** The databases of a listing: some of those that accept connections and are no
    templates, and all of them unless the connection broke. *)
Definition databases_listed (databases : list Database) : Prop :=
  exists c l, catalog_of dsn c /\ l ⊆+ connectable c /\ (unbroken -> l ≡ₚ connectable c) /\
    databases = database_item <$> l.

Lemma databases_read_listed databases : databases_read dsn databases -> databases_listed databases.
Proof.
  intros (rows & o & Hq & HF).
  destruct (query_means _ _ _ _ _ (proj1 queries_parse) Hq) as (c & ans & Hc & Ha & [more Hp] & Hwhole).
  apply databases_answer in Ha as (l & Hl & ->).
  assert (rows = map (columns wire) (database_row <$> take (length rows) l)) as E.
  { change (map ?f ?l) with (f <$> l) in *. by rewrite !fmap_take, Hp, take_app_length. }
  rewrite E in HF. apply (rows_items _ _ (fun _ => True) database_item) in HF as [_ ->].
  - exists c, (take (length rows) l). split; [done|].
    split; [rewrite <- Hl; apply sublist_submseteq, sublist_take|]. split; [|done].
    intros Hu. assert (o = None) as Ho by (destruct o; [by apply Hu in Hq|done]).
    pose proof (f_equal length (Hwhole Ho)) as Hlen. rewrite length_map, length_fmap in Hlen.
    by rewrite take_ge by lia.
  - intros d x H. split; [done|by apply scan_database].
Qed.

(** The items of one database: what [select] selects in its catalogs, in that order. *)
Definition from_database {R T} (select : Catalog -> list R -> Prop) (item : Catalog -> string -> R -> T)
    (db : Database) (items : list T) : Prop :=
  exists c l, catalog_of (Store_connStrFor store (Database_Name db)) c /\ select c l /\
    items = item c (Database_Name db) <$> l.

(** The items of all listed databases, those of one together. *)
Definition gathered {R T} (select : Catalog -> list R -> Prop) (item : Catalog -> string -> R -> T)
    (items : list T) : Prop :=
  exists databases order per, databases_listed databases /\ databases ≡ₚ order /\
    Forall2 (from_database select item) order per /\ items = concat per.

Lemma all_read_gathered {R T} sql q (row : Catalog -> R -> list value)
    (scan : string -> list pgvalue -> T -> Prop) (good : Catalog -> R -> Prop)
    (select select' : Catalog -> list R -> Prop) (item : Catalog -> string -> R -> T) items :
  parse sql = Some q ->
  (forall c ans, Sql.answer (database_of c) q ans -> exists l, select c l /\ ans = row c <$> l) ->
  (forall c db r x, scan db (columns wire (row c r)) x -> good c r /\ x = item c db r) ->
  (forall c l, select c l -> Forall (good c) l -> select' c l) ->
  all_read srv dsn sql scan items -> gathered select' item items.
Proof.
  intros Hp Ha Hs Hsel (databases & order & per & Hd & Ho & HF & ->). exists databases, order, per.
  split; [by apply databases_read_listed|]. split; [done|]. split; [|done].
  eapply Forall2_impl; [exact HF|]. intros db l (rows & Hq & Hrows).
  destruct (query_means _ _ _ _ _ Hp Hq) as (c & ans & Hc & Hans & _ & E). rewrite (E eq_refl) in Hrows.
  apply Ha in Hans as (recs & Hr & ->).
  apply (rows_items _ _ (good c) (item c (Database_Name db))) in Hrows as [Hg ->]; [|by intros; apply Hs].
  exists c, recs. auto.
Qed.

(** ** The responses *)

(** C24: the databases of a ListDatabases response are databases of the cluster that
    accept connections and are no templates, each at most once, and all of them if
    the connection does not break in the middle; names and oids are unchanged. *)
Theorem ListDatabases_lists r :
  replies srv dsn MListDatabases (RListDatabases r) ->
  match r with
  | inr resp => exists databases, databases_listed databases /\
      ListDatabasesResponse_databases resp = Database_ToProto <$> databases
  | inl st => exists err, databases_result dsn (inl err) /\
      st = Status Internal (Errorf "failed to list databases: %v" [AErr err])
  end.
Proof.
  intros H. apply ListDatabases_reply in H. destruct r as [st|resp]; [exact H|].
  destruct H as (dbs & Hd & E). exists dbs. split; [by apply databases_read_listed|exact E].
Qed.

Lemma schemas_gathered resp :
  replies srv dsn MListSchemas (RListSchemas (inr resp)) ->
  exists items, gathered (fun c l => l ≡ₚ schemas c) schema_item items /\
    ListSchemasResponse_schemas resp = Schema_ToProto <$> items.
Proof.
  intros H. apply ListSchemas_reply in H as (items & Hr & E). exists items. split; [|exact E].
  eapply (all_read_gathered _ schemas_query schema_row); [apply queries_parse| | | |exact Hr].
  - apply schemas_answer.
  - intros. by apply scan_schema.
  - done.
Qed.

Lemma sequences_gathered resp :
  replies srv dsn MListSequences (RListSequences (inr resp)) ->
  exists items, gathered (fun c l => l ≡ₚ sequences c /\ StronglySorted sequence_le l) sequence_item items /\
    ListSequencesResponse_sequences resp = Sequence_ToProto <$> items.
Proof.
  intros H. apply ListSequences_reply in H as (items & Hr & E). exists items. split; [|exact E].
  eapply (all_read_gathered _ sequences_query sequence_row _ _
    (fun c l => l ≡ₚ sequences c /\ StronglySorted sequence_le l)); [apply queries_parse| | | |exact Hr].
  - intros c ans Ha. apply sequences_answer in Ha as (l & Hl & Hs & ->). by exists l.
  - intros. by apply scan_sequence.
  - done.
Qed.

Lemma functions_gathered resp :
  replies srv dsn MListFunctions (RListFunctions (inr resp)) ->
  exists items, gathered (fun c l => l ≡ₚ functions c /\
      Forall (fun p => is_Some (identity_arguments c (pro_oid (pr_proc p)))) l) function_item items /\
    ListFunctionsResponse_functions resp = Function_ToProto <$> items.
Proof.
  intros H. apply ListFunctions_reply in H as (items & Hr & E). exists items. split; [|exact E].
  eapply (all_read_gathered _ functions_query function_row); [apply queries_parse| | | |exact Hr].
  - apply functions_answer.
  - intros. by apply scan_function.
  - done.
Qed.

(** C8: a ListSchemas response holds, for every listed database, each schema of its
    pg_namespace once, with its owner's name and labelled with the database, but for
    information_schema and the names that LIKE 'pg_%' matches. *)
Theorem ListSchemas_lists r :
  replies srv dsn MListSchemas (RListSchemas r) ->
  match r with
  | inr resp => exists items, gathered (fun c l => l ≡ₚ schemas c) schema_item items /\
      ListSchemasResponse_schemas resp = Schema_ToProto <$> items
  | inl st => exists err, some_failed dsn (schema_listing store) err /\
      st = Status Internal (Errorf "failed to list schemas: %v" [AErr err])
  end.
Proof. intros H. destruct r; [by apply ListSchemas_reply in H|by apply schemas_gathered]. Qed.

(** C20: a ListSequences response holds, for every listed database, each sequence of a
    listed schema once, with the type of its values, and the sequences of a database
    are together and ordered by schema and name. *)
Theorem ListSequences_lists r :
  replies srv dsn MListSequences (RListSequences r) ->
  match r with
  | inr resp => exists items,
      gathered (fun c l => l ≡ₚ sequences c /\ StronglySorted sequence_le l) sequence_item items /\
      ListSequencesResponse_sequences resp = Sequence_ToProto <$> items
  | inl st => exists err, some_failed dsn (sequence_listing store) err /\
      st = Status Internal (Errorf "failed to list sequences: %v" [AErr err])
  end.
Proof. intros H. destruct r; [by apply ListSequences_reply in H|by apply sequences_gathered]. Qed.

(** C21: a ListFunctions response holds, for every listed database, each function of a
    listed schema once, with its language, return type and arguments, all of which
    exist. *)
Theorem ListFunctions_lists r :
  replies srv dsn MListFunctions (RListFunctions r) ->
  match r with
  | inr resp => exists items, gathered (fun c l => l ≡ₚ functions c /\
        Forall (fun p => is_Some (identity_arguments c (pro_oid (pr_proc p)))) l) function_item items /\
      ListFunctionsResponse_functions resp = Function_ToProto <$> items
  | inl st => exists err, some_failed dsn (function_listing store) err /\
      st = Status Internal (Errorf "failed to list functions: %v" [AErr err])
  end.
Proof. intros H. destruct r; [by apply ListFunctions_reply in H|by apply functions_gathered]. Qed.

Lemma extensions_gathered resp :
  replies srv dsn MListExtensions (RListExtensions (inr resp)) ->
  exists c l installed, catalog_of dsn c /\ l ≡ₚ pg_available_extensions c /\
    Forall (fun a => is_Some (ae_default_version a)) l /\
    gathered (fun c l => l ≡ₚ extensions c /\ StronglySorted extension_le l) extension_item installed /\
    resp = ExtensionsToProto (available_item <$> l) installed.
Proof.
  intros H. apply ListExtensions_reply in H as (rows & available & installed & Hq & Hrows & Hr & ->).
  assert (parse queryAvailableExtensions = Some available_query) as Hp by apply queries_parse.
  destruct (query_means _ _ _ _ _ Hp Hq) as (c & ans & Hc & Ha & _ & E). rewrite (E eq_refl) in Hrows.
  apply available_answer in Ha as (l & Hl & ->).
  apply (rows_items _ _ (fun a => is_Some (ae_default_version a)) available_item) in Hrows as [Hg ->];
    [|by intros; apply scan_available].
  exists c, l, installed. do 3 (split; [done|]). split; [|done].
  eapply (all_read_gathered _ extensions_query (fun _ => extension_row) _ _
    (fun c l => l ≡ₚ extensions c /\ StronglySorted extension_le l)); [apply queries_parse| | | |exact Hr].
  - intros c' ans Ha. apply extensions_answer in Ha as (l' & Hl' & Hs & ->).
    exists l'. exact (conj (conj Hl' Hs) eq_refl).
  - intros. by apply scan_extension.
  - done.
Qed.

(** C22: a ListExtensions response holds the extensions that can be installed, all of
    which have a default version, and the installed ones of every listed database,
    ordered by name within it. *)
Theorem ListExtensions_lists r :
  replies srv dsn MListExtensions (RListExtensions r) ->
  match r with
  | inr resp => exists c l installed, catalog_of dsn c /\ l ≡ₚ pg_available_extensions c /\
      Forall (fun a => is_Some (ae_default_version a)) l /\
      gathered (fun c l => l ≡ₚ extensions c /\ StronglySorted extension_le l) extension_item installed /\
      resp = ExtensionsToProto (available_item <$> l) installed
  | inl st => exists err,
      (available_result dsn (inl err) \/ some_failed dsn (extension_listing store) err) /\
      st = Status Internal (Errorf "failed to list extensions: %v" [AErr err])
  end.
Proof. intros H. destruct r; [by apply ListExtensions_reply in H|by apply extensions_gathered]. Qed.

(** C36: an extension without a default version makes every ListExtensions call fail:
    pg_available_extensions has NULL for it, which does not fit in a string. *)
Theorem ListExtensions_no_default r :
  (forall c, catalog_of dsn c ->
     exists a, a ∈ pg_available_extensions c /\ ae_default_version a = None) ->
  replies srv dsn MListExtensions (RListExtensions r) -> exists err,
  r = inl (Status Internal (Errorf "failed to list extensions: %v" [AErr err])).
Proof.
  intros Hc H. destruct r as [st|resp].
  - apply ListExtensions_reply in H as (err & _ & ->). by exists err.
  - apply extensions_gathered in H as (c & l & _ & Hcat & Hl & Hg & _).
    destruct (Hc c Hcat) as (a & Ha & En). rewrite <- Hl in Ha. rewrite Forall_forall in Hg.
    destruct (Hg a Ha). congruence.
Qed.

(** ** Schemas left out *)

Lemma gathered_elem {R T} (select : Catalog -> list R -> Prop) (item : Catalog -> string -> R -> T) items x :
  gathered select item items -> x ∈ items ->
  exists c l db r, select c l /\ r ∈ l /\ x = item c db r.
Proof.
  intros (dbs & order & per & _ & _ & HF & ->) Hx. apply list_elem_of_In, in_concat in Hx as (l & Hl & Hx).
  apply list_elem_of_In, list_elem_of_lookup in Hl as [i Hl].
  destruct (Forall2_lookup_r _ _ _ _ _ HF Hl) as (db & _ & c & recs & _ & Hs & ->).
  apply list_elem_of_In, list_elem_of_fmap in Hx as (r & -> & Hr).
  exists c, recs, (Database_Name db), r. done.
Qed.

(** The schema of every item is one that the condition of the queries lists. *)
Lemma gathered_listed {R T M} (select : Catalog -> list R -> Prop) (item : Catalog -> string -> R -> T)
    (conv : T -> M) (schema_of : M -> string) (schema : R -> string) items m :
  gathered select item items -> m ∈ conv <$> items ->
  (forall c db r, schema_of (conv (item c db r)) = schema r) ->
  (forall c l r, select c l -> r ∈ l -> listed (schema r) = true) -> listed (schema_of m) = true.
Proof.
  intros Hg Hm Hs Hl. apply list_elem_of_fmap in Hm as (x & -> & Hx).
  destruct (gathered_elem _ _ _ _ Hg Hx) as (c & l & db & r & Hsel & Hr & ->). rewrite Hs. by eapply Hl.
Qed.

(** C34: a schema whose name is pg with anything after it, such as pgq, is in no
    response, and neither are its sequences and functions: the underscore of LIKE
    'pg_%' is not taken literally. *)
Theorem pg_schemas_hidden name c rest :
  s2b name = "p"%char :: "g"%char :: c :: rest ->
  (forall resp s, replies srv dsn MListSchemas (RListSchemas (inr resp)) ->
     s ∈ ListSchemasResponse_schemas resp -> PSchema_name s <> name) /\
  (forall resp s, replies srv dsn MListSequences (RListSequences (inr resp)) ->
     s ∈ ListSequencesResponse_sequences resp -> PSequence_schema s <> name) /\
  (forall resp f, replies srv dsn MListFunctions (RListFunctions (inr resp)) ->
     f ∈ ListFunctionsResponse_functions resp -> PFunction_schema f <> name).
Proof.
  intros En. assert (listed name <> true) as Hn by (intros [_ H]%listed_iff; by apply (H c rest)).
  split; [|split].
  - intros resp s H Hs <-. apply Hn. apply schemas_gathered in H as (items & Hg & E). rewrite E in Hs.
    eapply (gathered_listed _ _ _ PSchema_name nspname); [exact Hg|exact Hs|done|].
    intros c' l r Hl Hr. rewrite Hl in Hr. by apply list_elem_of_filter in Hr as [? _].
  - intros resp s H Hs <-. apply Hn. apply sequences_gathered in H as (items & Hg & E). rewrite E in Hs.
    eapply (gathered_listed _ _ _ PSequence_schema (fun x => nspname (sq_namespace x))); [exact Hg|exact Hs|done|].
    intros c' l r [Hl _] Hr. rewrite Hl in Hr. apply list_elem_of_filter in Hr as [Hr _].
    by apply andb_true_iff in Hr as [_ ?].
  - intros resp s H Hs <-. apply Hn. apply functions_gathered in H as (items & Hg & E). rewrite E in Hs.
    eapply (gathered_listed _ _ _ PFunction_schema (fun x => nspname (pr_namespace x))); [exact Hg|exact Hs|done|].
    intros c' l r [Hl _] Hr. rewrite Hl in Hr. by apply list_elem_of_filter in Hr as [? _].
Qed.

(** ** The server *)

(** An integer setting. *)
Definition int_setting (c : Catalog) (name : string) (n : Z) : Prop :=
  exists s, current_setting c name = Some s /\ parse_int (s2b s) = Some n /\ int32 n.

(** The information of [info] is what the server says of itself. *)
Definition server_state (c : Catalog) (info : ServerInfo) : Prop :=
  ServerInfo_IsInRecovery info = in_recovery c /\
  current_setting c "transaction_read_only" = Some (ServerInfo_IsReadOnly info) /\
  current_setting c "ssl" = Some (ServerInfo_SslEnabled info) /\
  int_setting c "port" (ServerInfo_Port info) /\
  int_setting c "max_connections" (ServerInfo_MaxConnections info) /\
  current_setting c "archive_mode" = Some (ServerInfo_ArchiveMode info) /\
  current_setting c "wal_level" = Some (ServerInfo_WalLevel info) /\
  current_setting c "data_directory" = Some (ServerInfo_DataDirectory info) /\
  ServerInfo_SystemIdentifier info = system_identifier c /\
  ServerInfo_TimelineID info = timeline_id c /\ int8 (timeline_id c) /\
  ServerInfo_PgVersion info = version c.

Lemma setting_value shuffle c name v :
  eval_top shuffle (database_of c) None [[]] (ECall "current_setting" [EText name] []) = Some v ->
  exists s, current_setting c name = Some s /\ v = VText s.
Proof.
  change (VText <$> current_setting c name = Some v -> exists s, current_setting c name = Some s /\ v = VText s).
  destruct (current_setting c name) as [s|]; [|done]. intros E. injection E as <-. by exists s.
Qed.

Lemma int_setting_value shuffle c name v :
  eval_top shuffle (database_of c) None [[]] (ECast (ECall "current_setting" [EText name] []) "int") = Some v ->
  exists s n, current_setting c name = Some s /\ parse_int (s2b s) = Some n /\ v = VInt4 n.
Proof.
  change ((v ← VText <$> current_setting c name; cast (database_of c) "int" v) = Some v ->
    exists s n, current_setting c name = Some s /\ parse_int (s2b s) = Some n /\ v = VInt4 n).
  destruct (current_setting c name) as [s|]; [|done]. intros H.
  change (VInt4 <$> parse_int (s2b s) = Some v) in H. apply fmap_Some in H as (n & Hn & ->). by exists s, n.
Qed.

Lemma control_value shuffle c fn col v w :
  (forall q en ens, shuffle q en ens ≡ₚ ens) -> row_function_of c fn = Some [(col, v)] ->
  eval_top shuffle (database_of c) None [[]]
    (EScalar (Query [] [(EColumn None col, col)] [Source (IFunction fn) fn [] JInner None] None [] [])) = Some w ->
  w = v.
Proof.
  intros Hp Hf H. unfold eval_top in H. change 19 with (S (S 17)) in H.
  rewrite (eval_single shuffle 17 (database_of c) None [[]] _ [[(fn, Some [(col, v)])]; []] [] col v) in H;
    [by injection H|done..| |].
  - unfold matches, combinations, joined, item_tuples. simpl. by rewrite Hf.
  - unfold select_row. simpl. by rewrite decide_True.
Qed.

Lemma server_row_state c row info :
  server_row c row -> scanServerInfo_row (columns wire row) info -> server_state c info.
Proof.
  intros (shuffle & Hp & H) Hscan. apply mapM_Some in H. cbn [q_select server_query] in H.
  repeat apply Forall2_cons_inv_l in H as (? & ? & ? & H & ->). apply Forall2_nil_inv_l in H as ->.
  cbn [fst] in *.
  repeat match goal with
  | H : eval_top _ _ _ _ (ECall "current_setting" _ _) = _ |- _ => apply setting_value in H as (? & ? & ->)
  | H : eval_top _ _ _ _ (ECast _ _) = _ |- _ => apply int_setting_value in H as (? & ? & ? & ? & ->)
  | H : eval_top _ _ _ _ (EScalar (Query _ [(EColumn _ ?col, _)] [Source (IFunction ?fn) _ _ _ _] _ _ _)) = Some ?w |- _ =>
      pose proof (control_value shuffle c fn col _ w Hp eq_refl H); clear H; subst w
  | H : eval_top _ _ _ _ _ = Some _ |- _ => injection H as <-
  end.
  unfold scanServerInfo_row in Hscan. scanned. subst. unfold server_state, int_setting.
  split_and!; try congruence; eexists; split_and!; first [eassumption|congruence].
Qed.

Lemma server_info_state info :
  server_info_result dsn (inr info) -> exists c, catalog_of dsn c /\ server_state c info.
Proof.
  intros H. apply server_info_ok in H as (row & Ha & Hrow).
  assert (parse queryServerInfo = Some server_query) as Hp by apply queries_parse.
  destruct (row_means _ _ _ _ Hp Ha) as (c & ans & rest & Hc & Hans & ->).
  apply server_answer in Hans as (row & [= -> ->] & Hr). exists c. split; [done|]. by eapply server_row_state.
Qed.

Lemma server_info_response resp :
  replies srv dsn MGetServerInfo (RGetServerInfo (inr resp)) ->
  exists c info, catalog_of dsn c /\ server_state c info /\
    ServerInfoToProto info (Store_ClusterName store) = inr resp.
Proof.
  intros H. apply replies_promise in H as ([err|info] & Hx & E); [done|].
  apply server_info_state in Hx as (c & Hc & Hs). exists c, info. split; [done|]. split; [done|].
  simpl in E. fold store in E. by destruct (ServerInfoToProto _ _); [|injection E as ->].
Qed.

(** C23: a GetServerInfo response is what the server says of itself at one time: its
    settings, with the port and the number of connections as integers, its version,
    the identifier of the system and its timeline.  The call fails when the query or
    its scan does, or when the version or one of the two switches does not parse. *)
Theorem GetServerInfo_state r :
  replies srv dsn MGetServerInfo (RGetServerInfo r) ->
  match r with
  | inr resp => exists c info, catalog_of dsn c /\ server_state c info /\
      ServerInfoToProto info (Store_ClusterName store) = inr resp
  | inl st =>
      (exists err, server_info_result dsn (inl err) /\
         st = Status Internal (Errorf "failed to get server info: %v" [AErr err])) \/
      (exists c info err, catalog_of dsn c /\ server_state c info /\
         ServerInfoToProto info (Store_ClusterName store) = inl err /\
         st = Status Internal (Errorf "failed to convert ServerInfo to RPC: %v" [AErr err]))
  end.
Proof.
  intros H. destruct r as [st|resp]; [|by apply server_info_response].
  apply replies_promise in H as ([err|info] & Hx & E); simpl in E.
  - injection E as ->. left. by exists err.
  - right. destruct (server_info_state _ Hx) as (c & Hc & Hs). fold store in E.
    destruct (ServerInfoToProto _ _) as [err|] eqn:Ei; [|done]. injection E as ->. by exists c, info, err.
Qed.

(** C35: once a cluster is on a timeline beyond 127, GetServerInfo fails on every call:
    the timeline is read into an int8. *)
Theorem GetServerInfo_timeline r :
  (forall c, catalog_of dsn c -> (127 < timeline_id c)%Z) ->
  replies srv dsn MGetServerInfo (RGetServerInfo r) -> exists err, r = inl (Status Internal err).
Proof.
  intros Ht H. destruct r as [st|resp].
  - apply replies_promise in H as ([err|info] & _ & E); simpl in E.
    + injection E as ->. by eexists.
    + destruct (ServerInfoToProto _ _); [injection E as ->|done]. by eexists.
  - apply server_info_response in H as (c & info & Hc & Hs & _).
    assert (int8 (timeline_id c)) as Hi by apply Hs. specialize (Ht c Hc). unfold int8 in Hi. lia.
Qed.

(** ** Start-up *)

Lemma setting_config sql q key r :
  parse sql = Some q ->
  (forall c rows, Sql.answer (database_of c) q rows ->
     exists l, l ≡ₚ config_values c key /\ rows = (fun kv => [VText kv.2]) <$> l) ->
  setting dsn sql (inr r) -> exists c, catalog_of dsn c /\ (key, r) ∈ cluster_config c.
Proof.
  intros Hp Ha ([err|row] & Hrow & E); [done|]. symmetry in E.
  destruct (row_means _ _ _ _ Hp Hrow) as (c & ans & rest & Hc & Hans & ->).
  apply Ha in Hans as ([|[k v] l] & Hl & E'); [done|]. injection E' as -> _.
  apply Scan_cols in E as [_ [rest' E]].
  exists c. split; [done|].
  assert ((k, v) ∈ config_values c key) as Hin by (rewrite <- Hl; apply elem_of_cons; by left).
  apply list_elem_of_filter in Hin as [Hk Hin]. apply bool_decide_eq_true in Hk. simpl in Hk. subst k.
  simpl in E. unfold dest in E. simpl in E. destruct (scan_string (wire (VText v))) eqn:Es; [done|].
  injection E as <- _. apply scan_text in Es as ->. done.
Qed.

(** A store that NewStore returns has the stanza and the cluster name that
    monitoring.cluster_config holds under these keys. *)
Theorem NewStore_config ctx h p connStrFor h' r :
  h_pools h !! p = Some dsn ->
  runs ctx h (NewStore p connStrFor) h' (inr r) ->
  (exists c, catalog_of dsn c /\ ("stanza", Store_Stanza r) ∈ cluster_config c) /\
  (exists c, catalog_of dsn c /\ ("cluster_name", Store_ClusterName r) ∈ cluster_config c) /\
  isValidStanzaName (Store_Stanza r) = true.
Proof.
  intros Hp H. apply (NewStore_runs _ _ _ _ _ _ _ Hp) in H as [_ [(? & _ & ?)|[(? & _ & _ & ?)|(stanza & Hs & Hv & H)]]]; [done..|].
  destruct H as [(? & _ & ?)|(name & Hn & E)]; [done|]. injection E as ->. simpl. split; [|split; [|done]].
  - eapply (setting_config queryStanza stanza_query "stanza"); [apply queries_parse|apply stanza_answer|done].
  - eapply (setting_config queryClusterName cluster_name_query "cluster_name"); [apply queries_parse|apply cluster_name_answer|done].
Qed.
End catalog.

(** ** Witnesses: a server that evaluates the queries on its catalogs *)

Section example.
Variable timeline : Z.
Variable default_version : option string.

Definition ex_catalog : Catalog := {|
  pg_database := [MkPgDatabase 1 "template1" true true; MkPgDatabase 16384 "app" true false;
                  MkPgDatabase 16385 "closed" false false; MkPgDatabase 16386 "shop" true false];
  pg_namespace := [MkPgNamespace 11 "pg_catalog" 10; MkPgNamespace 2200 "public" 20;
                   MkPgNamespace 13000 "information_schema" 10; MkPgNamespace 16400 "pgq" 20;
                   MkPgNamespace 16401 "audit" 10];
  pg_class := [MkPgClass 16410 "seq_b" 2200 20 "S" 0 1 0; MkPgClass 16411 "orders" 2200 20 "r" 2 (-1) 16450;
               MkPgClass 16412 "seq_a" 2200 20 "S" 0 1 0; MkPgClass 16413 "batch" 16400 20 "S" 0 1 0;
               MkPgClass 16414 "log_seq" 16401 10 "S" 0 1 0; MkPgClass 16415 "orders_pkey" 2200 20 "i" 403 0 0;
               MkPgClass 16416 "archived" 2200 20 "r" 2 40 0; MkPgClass 16417 "queue" 16400 20 "p" 0 (-1) 0;
               MkPgClass 16418 "recent" 2200 20 "v" 0 0 0; MkPgClass 1259 "pg_class" 11 10 "r" 2 400 0;
               MkPgClass 16419 "orders_note" 2200 20 "i" 403 0 0];
  pg_attribute := [MkPgAttribute 16411 "note" 2 25 (-1) false false 0; MkPgAttribute 16411 "id" 1 23 (-1) true false 0;
                   MkPgAttribute 16411 "ctid" (-1) 27 (-1) true false 0;
                   MkPgAttribute 16416 "id" 1 23 (-1) true false 1; MkPgAttribute 16416 "gone" 2 0 (-1) false true 0;
                   MkPgAttribute 16416 "ref" 3 23 (-1) false false 0];
  pg_index := [MkPgIndex 16415 16411 [1]%Z true true false true None;
               MkPgIndex 16419 16411 [2; 0; 1]%Z false false false true (Some "{OPEXPR}")];
  pg_am := [MkPgAm 2 "heap"; MkPgAm 403 "btree"];
  pg_constraint := [MkPgConstraint 16460 "orders_pkey" "p" 16411 0 (Some [1]%Z) None;
                    MkPgConstraint 16461 "archived_ref" "f" 16416 16411 (Some [3]%Z) (Some [1]%Z);
                    MkPgConstraint 16462 "positive" "c" 16416 0 None None;
                    MkPgConstraint 16463 "tr" "t" 16416 0 None None];
  pg_inherits := [MkPgInherits 16416 16411 1];
  pg_sequence := [MkPgSequence 16410 20; MkPgSequence 16412 23; MkPgSequence 16413 20; MkPgSequence 16414 20];
  pg_type := [MkPgType 20 "int8"; MkPgType 23 "int4"];
  pg_proc := [MkPgProc 1299 "now" 11 10 12 1184; MkPgProc 16420 "f" 2200 20 14 23;
              MkPgProc 16421 "next_batch" 16400 20 14 20];
  pg_language := [MkPgLanguage 12 "internal"; MkPgLanguage 14 "sql"];
  pg_extension := [MkPgExtension 16430 "plpgsql" "1.0" 11; MkPgExtension 16431 "hstore" "1.8" 2200];
  pg_available_extensions := [MkPgAvailableExtension "hstore" (Some "1.8");
                              MkPgAvailableExtension "plpgsql" default_version];
  cluster_config := [("cluster_name", "prod"); ("stanza", "main")];
  role_name := fun o => if (o =? 20)%Z then "owner" else "postgres";
  format_type := fun o _ => if (o =? 23)%Z then "integer" else if (o =? 25)%Z then "text" else "bigint";
  identity_arguments := fun _ => Some "i integer";
  pg_get_indexdef := fun _ => Some "CREATE INDEX";
  pg_get_constraintdef := fun o => Some (if (o =? 16460)%Z then "PRIMARY KEY (id)" else "CHECK");
  obj_description := fun o => if (o =? 16411)%Z then Some "all orders" else None;
  relation_size := fun o => if (o =? 0)%Z then None else Some 8192%Z;
  total_relation_size := fun o => if (o =? 0)%Z then None else Some 24576%Z;
  regclass_name := fun o => if (o =? 16411)%Z then "orders" else "-";
  current_setting := fun s => assoc s [("transaction_read_only", "off"); ("ssl", "on"); ("port", "5432");
    ("max_connections", "100"); ("archive_mode", "on"); ("wal_level", "replica"); ("data_directory", "/data")];
  in_recovery := false;
  version := version_text_17;
  system_identifier := 7000000000000000001;
  timeline_id := timeline
|}.

Definition catalog_rows (sql : string) : option (list (list value)) :=
  q ← parse sql; run_query (database_of ex_catalog) q.

Definition catalog_answers : Answers := {|
  av_value := value;
  av_new := fun _ => None;
  av_query := fun _ sql =>
    match catalog_rows sql with Some rows => inr (rows, None) | None => inl (ErrExt "syntax error") end;
  av_row := fun _ sql =>
    match catalog_rows sql with Some (row :: _) => inr row | _ => inl (ErrExt "no rows in result set") end;
  av_exec := fun _ _ => inl (ErrExt "executable file not found");
  av_listen := fun _ => None;
  av_ping := fun _ => None
|}.

Definition catalog_world : World := @answers_world catalog_answers.

Definition in_range (P : Z -> Prop) `{forall z, Decision (P z)} (v : value) : res Z :=
  match number_of v with
  | Some n => if decide (P n) then inr n else inl (ErrExt "value out of range")
  | None => inl wrong_type
  end.

Lemma in_range_iff P `{forall z, Decision (P z)} v n m :
  number_of v = Some n -> in_range P v = inr m <-> m = n /\ P n.
Proof.
  intros E. unfold in_range. rewrite E.
  case_decide; split; [by intros [= <-]|by intros [-> _]|done|by intros [-> ?]].
Qed.

Lemma in_range_ok P `{forall z, Decision (P z)} v n : in_range P v = inr n -> P n.
Proof. unfold in_range. destruct (number_of v); [|done]. case_decide; [by intros [= <-]|done]. Qed.

Definition catalog_scanner : @Scanner catalog_world.
Proof.
  refine (@Build_Scanner catalog_world
    (fun v => match text_of v with Some s => inr s | None => inl wrong_type end)
    (fun v => match v with VBool b => inr b | _ => inl wrong_type end)
    (in_range uint32) (in_range int8) (in_range int32) (in_range int64)
    (fun v => match v with VNull => inr None | _ => match text_of v with Some s => inr (Some s) | None => inl wrong_type end end)
    (fun v => match v with VNull => inr None | VJson j => inr (Some (b2s (print j))) | _ => inl wrong_type end)
    (fun _ _ => ErrExt "wrong number of columns") _ _ _ _);
  intros v n; apply in_range_ok.
Defined.

Lemma columns_id rows : map (columns (fun v : value => v)) rows = rows.
Proof.
  induction rows as [|r rows IH]; [done|]. simpl. rewrite IH. f_equal. apply list_fmap_id.
Qed.

Lemma catalog_rows_answer sql q ans :
  parse sql = Some q -> catalog_rows sql = Some ans -> Sql.answer (database_of ex_catalog) q ans.
Proof. unfold catalog_rows. intros ->. apply run_query_answer. Qed.

Definition catalog_postgres : @Postgres catalog_world catalog_scanner.
Proof.
  refine (@Build_Postgres catalog_world catalog_scanner (fun _ c => c = ex_catalog) (fun v => v) _ _ _ _ _ _ _ _ _ _ _ _ _ _).
  - intros conn sql q rows o Hp H. cbn [query_answer catalog_world answers_world av_query catalog_answers] in H.
    destruct (catalog_rows sql) as [ans|] eqn:E; [|done]. injection H as -> ->.
    exists ex_catalog, ans. rewrite columns_id. split; [done|]. split; [exact (catalog_rows_answer sql q ans Hp E)|done].
  - intros conn sql q row Hp H. cbn [row_answer catalog_world answers_world av_row catalog_answers] in H.
    destruct (catalog_rows sql) as [[|ans rest]|] eqn:E; [done| |done]. injection H as ->.
    exists ex_catalog, ans, rest. split; [done|]. split; [exact (catalog_rows_answer sql q _ Hp E)|].
    symmetry. apply list_fmap_id.
  - intros s r. simpl. split; [by intros [= ->]|by intros ->].
  - intros s r. simpl. split; [by intros [= ->]|by intros ->].
  - done.
  - intros s r. simpl. split; [by intros [= <-]|by intros ->].
  - intros r. simpl. split; [by intros [= <-]|by intros ->].
  - intros j r. simpl. split; [by intros [= <-]|by intros ->].
  - intros r. simpl. split; [by intros [= <-]|by intros ->].
  - intros b r. simpl. split; [by intros [= ->]|by intros ->].
  - intros. by apply in_range_iff.
  - intros. by apply in_range_iff.
  - intros. by apply in_range_iff.
  - intros. by apply in_range_iff.
Defined.

#[local] Instance catalog_unicode : UnicodeLower := example_unicode.
#[local] Instance catalog_errors : JsonErrors := example_errors.

Definition catalog_service : @Service catalog_world (cfg example_server "postgres://") :=
  @service catalog_world catalog_scanner _ _ example_server "postgres://".

(** The reply to a request that runs on its own. *)
Definition catalog_reply (m : method) : option reply :=
  fst <$> @run_task catalog_answers reply None (s_heap (@sys_init _ _ catalog_service))
    (@dispatch _ catalog_scanner _ _ example_server m).

Lemma catalog_replies m r :
  catalog_reply m = Some r ->
  @replies _ catalog_scanner _ _ example_server "postgres://" m r.
Proof.
  unfold catalog_reply. destruct (run_task _ _ _) as [[r' h]|] eqn:E; [|done]. intros [= <-].
  eexists _, _. split; [exact (@run_reachable catalog_answers _ catalog_service m r' h E)|].
  split; [apply elem_of_cons; by left|done].
Qed.
End example.

#[local] Existing Instances catalog_unicode catalog_errors.

Ltac run_catalog := apply catalog_replies; vm_compute; reflexivity.

#[local] Instance ex_postgres t v : @Postgres _ (catalog_scanner t v) := catalog_postgres t v.

Lemma ListDatabases_lists_witness : exists databases,
  @databases_listed _ (catalog_scanner 1 None) _ "postgres://" databases /\
  [MkProto_Database "app" 16384; MkProto_Database "shop" 16386] = Database_ToProto <$> databases.
Proof.
  exact (ListDatabases_lists (S0 := catalog_scanner 1 None) example_server "postgres://"
    (inr (MkListDatabasesResponse [MkProto_Database "app" 16384; MkProto_Database "shop" 16386]))
    ltac:(run_catalog)).
Defined.

Definition ex_schemas_listed : list Proto_Schema :=
  db ← ["app"; "shop"]; [MkProto_Schema 2200 "public" "owner" db; MkProto_Schema 16401 "audit" "postgres" db].

Lemma ListSchemas_lists_witness : exists items,
  @gathered _ (catalog_scanner 1 None) _ example_server "postgres://" _ _
    (fun c l => l ≡ₚ schemas c) schema_item items /\
  ex_schemas_listed = Schema_ToProto <$> items.
Proof.
  exact (ListSchemas_lists (S0 := catalog_scanner 1 None) example_server "postgres://"
    (inr (MkListSchemasResponse ex_schemas_listed)) ltac:(run_catalog)).
Defined.

Definition ex_sequences_listed : list Proto_Sequence :=
  db ← ["app"; "shop"];
  [MkProto_Sequence 16414 "log_seq" "audit" "postgres" db "int8";
   MkProto_Sequence 16412 "seq_a" "public" "owner" db "int4";
   MkProto_Sequence 16410 "seq_b" "public" "owner" db "int8"].

Lemma ListSequences_lists_witness : exists items,
  @gathered _ (catalog_scanner 1 None) _ example_server "postgres://" _ _
    (fun c l => l ≡ₚ sequences c /\ StronglySorted sequence_le l) sequence_item items /\
  ex_sequences_listed = Sequence_ToProto <$> items.
Proof.
  exact (ListSequences_lists (S0 := catalog_scanner 1 None) example_server "postgres://"
    (inr (MkListSequencesResponse ex_sequences_listed)) ltac:(run_catalog)).
Defined.

Lemma ListFunctions_lists_witness : exists items,
  @gathered _ (catalog_scanner 1 None) _ example_server "postgres://" _ _
    (fun c l => l ≡ₚ functions c /\
       Forall (fun p => is_Some (identity_arguments c (pro_oid (pr_proc p)))) l) function_item items /\
  [MkProto_Function 16420 "f" "public" "owner" "app" "sql" "integer" "i integer";
   MkProto_Function 16420 "f" "public" "owner" "shop" "sql" "integer" "i integer"] = Function_ToProto <$> items.
Proof.
  exact (ListFunctions_lists (S0 := catalog_scanner 1 None) example_server "postgres://"
    (inr (MkListFunctionsResponse
      [MkProto_Function 16420 "f" "public" "owner" "app" "sql" "integer" "i integer";
       MkProto_Function 16420 "f" "public" "owner" "shop" "sql" "integer" "i integer"])) ltac:(run_catalog)).
Defined.

Definition ex_extensions_listed : ListExtensionsResponse := MkListExtensionsResponse
  (db ← ["app"; "shop"]; [MkProto_InstalledExtension 16431 "hstore" "1.8" "public" db;
                          MkProto_InstalledExtension 16430 "plpgsql" "1.0" "pg_catalog" db])
  [MkProto_AvailableExtension "hstore" "1.8"; MkProto_AvailableExtension "plpgsql" "1.0"].

Lemma ListExtensions_lists_witness : exists c l installed,
  @catalog_of _ (catalog_scanner 1 (Some "1.0")) _ "postgres://" c /\ l ≡ₚ pg_available_extensions c /\
  ex_extensions_listed = ExtensionsToProto (available_item <$> l) installed.
Proof.
  destruct (ListExtensions_lists (S0 := catalog_scanner 1 (Some "1.0")) example_server "postgres://"
    (inr ex_extensions_listed) ltac:(run_catalog)) as (c & l & installed & Hc & Hl & _ & _ & E).
  exists c, l, installed. exact (conj Hc (conj Hl E)).
Defined.

Lemma ListExtensions_no_default_witness : exists st err,
  catalog_reply 1 None MListExtensions = Some (RListExtensions (inl st)) /\
  st = Status Internal (Errorf "failed to list extensions: %v" [AErr err]).
Proof.
  destruct (catalog_reply 1 None MListExtensions) as [[r|r|r|r|r|r|r|r]|] eqn:E;
    try (vm_compute in E; discriminate).
  destruct (ListExtensions_no_default (S0 := catalog_scanner 1 None) example_server "postgres://" r)
    as [err ->]; [|exact (catalog_replies _ _ _ _ E)|eexists _, err; exact (conj eq_refl eq_refl)].
  intros c ->. exists (MkPgAvailableExtension "plpgsql" None). split; [|done].
  apply elem_of_cons. right. apply elem_of_cons. by left.
Defined.

Lemma pg_schemas_hidden_witness :
  "pgq" ∈ nspname <$> pg_namespace (ex_catalog 1 None) /\
  Forall (fun s => PSchema_name s <> "pgq") ex_schemas_listed /\
  "pgq" ∈ (fun s => nspname (sq_namespace s)) <$> sequence_rows (ex_catalog 1 None) /\
  Forall (fun s => PSequence_schema s <> "pgq") ex_sequences_listed.
Proof.
  destruct (pg_schemas_hidden (S0 := catalog_scanner 1 None) example_server "postgres://"
    "pgq" "q"%char [] eq_refl) as (H1 & H2 & _).
  split; [vm_compute; by repeat constructor|]. split; [|split; [vm_compute; by repeat constructor|]].
  - apply Forall_forall. intros s. apply (H1 (MkListSchemasResponse ex_schemas_listed)). run_catalog.
  - apply Forall_forall. intros s. apply (H2 (MkListSequencesResponse ex_sequences_listed)). run_catalog.
Defined.

Lemma GetServerInfo_state_witness : exists c info,
  @catalog_of _ (catalog_scanner 100 None) _ "postgres://" c /\ server_state c info /\
  ServerInfoToProto info "prod" = inr (MkGetServerInfoResponse "prod" "17.2" false false true 5432 100 "on" "/data"
    7000000000000000001 100 "replica").
Proof.
  exact (GetServerInfo_state (S0 := catalog_scanner 100 None) example_server "postgres://"
    (inr (MkGetServerInfoResponse "prod" "17.2" false false true 5432 100 "on" "/data"
      7000000000000000001 100 "replica")) ltac:(run_catalog)).
Defined.

Lemma GetServerInfo_timeline_witness : exists st err,
  catalog_reply 128 None MGetServerInfo = Some (RGetServerInfo (inl st)) /\ st = Status Internal err.
Proof.
  destruct (catalog_reply 128 None MGetServerInfo) as [[r|r|r|r|r|r|r|r]|] eqn:E;
    try (vm_compute in E; discriminate).
  destruct (GetServerInfo_timeline (S0 := catalog_scanner 128 None) example_server "postgres://" r)
    as [err ->]; [|exact (catalog_replies _ _ _ _ E)|eexists _, err; exact (conj eq_refl eq_refl)].
  intros c ->. simpl. lia.
Defined.

Lemma NewStore_config_witness :
  (exists c, @catalog_of _ (catalog_scanner 1 None) _ "postgres://" c /\ ("stanza", "main") ∈ cluster_config c) /\
  (exists c, @catalog_of _ (catalog_scanner 1 None) _ "postgres://" c /\ ("cluster_name", "prod") ∈ cluster_config c) /\
  isValidStanzaName "main" = true.
Proof.
  assert (@runs (catalog_world 1 None) _ None (Heap false ∅ ∅ {[0 := "postgres://"]} ∅)
    (@NewStore _ (catalog_scanner 1 None) 0 id) (Heap false ∅ ∅ {[0 := "postgres://"]} ∅)
    (inr (MkStore 0 id (MkConnectionCoordinator ∅ false) "main" "prod"))) as H.
  { do 2 (eexists (inr _), _; split; [split; [reflexivity|vm_compute; reflexivity]|]). split; reflexivity. }
  exact (NewStore_config (S0 := catalog_scanner 1 None) "postgres://" None
    (Heap false ∅ ∅ {[0 := "postgres://"]} ∅) 0 id _ _ eq_refl H).
Defined.
