(* ===== verification/TablesProps.v ===== *)
(** * What ListTables reports about the catalogs

    The query of tables.go, answered by a server on its catalogs, gives the rows that
    tables.go relies on; so a response of ListTables shows the tables of the catalogs. *)

From S2P Require Import Prelude GoStrings Json JsonDecode SqlSyntax Sql SqlTyped Catalog Types Proto Runtime Logic Coordinator FanOut System Exec Scan Store StoreSpec Backrest Tables CatalogTables TablesQuery Server Service Example ServiceProps CatalogProps.

Section tables.
Context `{P : Postgres} `{U : UnicodeLower} `{J : JsonErrors}.

(** ** Rows, scanned *)

Definition json_data (o : option json) : option string := (fun j => b2s (print j)) <$> o.

Lemma scan_jsonb_opt o : scan_bytes (wire (opt_value VJson o)) = inr (json_data o).
Proof. destruct o; [by apply scan_jsonb|by apply scan_bytes_null]. Qed.

Lemma scan_text_opt o : scan_string_ptr (wire (opt_value VText o)) = inr o.
Proof. destruct o; [by apply scan_ptr_text|by apply scan_ptr_null]. Qed.

Lemma agg_column {A} (one : A -> json -> Prop) l o :
  aggregate_shows one l o -> exists j, jsonb j (json_data o) /\ jsonb_agg one l j.
Proof. intros [Ha Hw]. exists o. split; [|done]. destruct o; [by split|done]. Qed.

Lemma shows_table_row t row : row_shows t row -> Table_wf t -> table_row (columns wire row) t.
Proof.
  intros (stats & cols & ixs & cons & inh & -> & [Hs Ws] & Hc & Hi & Hk & [Hp Wp]) [Ho _].
  exists (Scanned (Table_Oid t) (Table_Name t) (Table_Schema t) (Table_Owner t) (Table_Comment t)
    (json_data (Some stats)) (json_data cols) (json_data ixs) (json_data cons) (json_data (Some inh))). split.
  - do 10 eexists. split; [reflexivity|].
    split_and!; try (by apply scan_text); try apply scan_jsonb_opt; [by apply scan_oid|apply scan_text_opt| |].
    + exact (scan_jsonb_opt (Some stats)).
    + exact (scan_jsonb_opt (Some inh)).
  - unfold table_columns. cbn [sc_Oid sc_Name sc_Schema sc_Owner sc_Comment statsJSON columnsJSON indexesJSON constraintsJSON inheritanceJSON].
    do 5 (split; [done|]). split; [by exists stats|]. do 3 (split; [by apply agg_column|]). by exists inh.
Qed.

Lemma table_row_unique row t t' : table_row row t -> Table_wf t -> table_row row t' -> Table_wf t' -> t = t'.
Proof.
  intros H Hw H' Hw'. pose proof (readTable_row EmptyString row t H Hw) as E.
  rewrite (readTable_row EmptyString row t' H' Hw') in E. by injection E.
Qed.

(** ** Answers, read *)

Variable srv : Server.
Variable dsn : string.
Let store := Server_store srv.

(** The catalogs that the queries see are well-formed. *)
Definition catalogs_wf : Prop := forall conn c, catalog_of conn c -> catalog_wf c.

(** Of an answer, the tables and the rows. *)
Lemma tables_query_means conn rows o :
  catalogs_wf -> query_answer conn queryTables (inr (rows, o)) ->
  exists c l ans, catalog_of conn c /\ l ≡ₚ tables c /\ StronglySorted table_le l /\
    Forall2 (fun x row => exists t, table_like c x t /\ Table_wf t /\ table_row (columns wire row) t) l ans /\
    rows `prefix_of` map (columns wire) ans /\ (o = None -> rows = map (columns wire) ans).
Proof.
  intros Hw Hq. destruct (query_means _ _ _ _ _ tables_parse Hq) as (c & ans & Hc & Ha & Hpre & Hall).
  apply tables_answer in Ha as (l & Hl & Hs & HF); [|by apply (Hw conn)].
  exists c, l, ans. do 3 (split; [done|]). split; [|done]. eapply Forall2_impl; [exact HF|].
  intros x row (t & Ht & Htw & Hr). exists t. do 2 (split; [done|]). by apply shows_table_row.
Qed.

(** What the service relies on when it decodes the rows. *)
Lemma postgres_gives_tables : catalogs_wf -> query_gives_tables.
Proof.
  intros Hw conn rows o Hq. destruct (tables_query_means conn rows o Hw Hq) as (c & l & ans & _ & _ & _ & HF & [k Hk] & _).
  assert (Forall (fun row => exists t, table_row row t /\ Table_wf t) (rows ++ k)) as H.
  { rewrite <- Hk. apply Forall_fmap. eapply Forall2_Forall_r; [exact HF|]. apply Forall_true.
    intros x row (t & _ & Htw & Hr). by exists t. }
  by apply Forall_app in H as [H _].
Qed.

(** The tables of one database: the messages of the tables of its catalogs. *)
Definition tables_listed (db : Types.Database) (d : DatabaseTables) : Prop :=
  DatabaseTables_database d = Database_Name db /\ exists c l,
    catalog_of (Store_connStrFor store (Database_Name db)) c /\ l ≡ₚ tables c /\ StronglySorted table_le l /\
    Forall2 (fun x p => exists t, table_like c x t /\ tableToProto t = Some p) l (DatabaseTables_tables d).

(** C7: ListTables does not panic, and a response has one element for each listed
    database, with the tables of its pg_class in schemas other than the system's, once
    each and ordered by schema and name: a table's columns in their order without the
    dropped ones, all its indexes with the columns of their keys, its constraints with
    their columns and those that they refer to, its parents in their order, and its
    sizes, owner and comment. *)
Theorem ListTables_lists r :
  catalogs_wf -> replies srv dsn MListTables (RListTables r) ->
  match r with
  | None => False
  | Some (inl st) => exists err, some_failed dsn (table_listing store) err /\
      st = Status Internal (Errorf "failed to list tables: %v" [AErr err])
  | Some (inr resp) => exists databases per, databases_listed dsn databases /\
      ListTablesResponse_database_tables resp ≡ₚ per /\ Forall2 tables_listed databases per
  end.
Proof.
  intros Hw H. pose proof (ListTables_reads_all srv dsn r (postgres_gives_tables Hw) H) as Hr.
  destruct r as [[st|resp]|]; [by apply ListTables_reply in H| |done].
  destruct Hr as (dbs & per & Hd & Hp & HF). exists dbs, per.
  split; [by apply databases_read_listed|]. split; [done|].
  eapply Forall2_impl; [exact HF|]. intros db d (Hn & rows & Hq & Hrows). split; [done|].
  destruct (tables_query_means _ _ _ Hw Hq) as (c & l & ans & Hc & Hl & Hs & Ht & _ & Hall).
  exists c, l. do 3 (split; [done|]). rewrite (Hall eq_refl) in Hrows. apply Forall2_fmap_l in Hrows.
  eapply Forall2_trans; [|exact Ht|exact Hrows]. intros x row p (t & Hlike & Htw & Hrow) (t' & Hrow' & Htw' & Hto).
  exists t. split; [done|]. by rewrite (table_row_unique _ _ _ Hrow Htw Hrow' Htw').
Qed.
End tables.

(** ** Witness: the server that evaluates the query on its catalogs *)

Lemma ex_catalog_wf timeline v : catalog_wf (ex_catalog timeline v).
Proof.
  assert (forall s, forallb is_ascii (s2b s) = true -> good_text s) as Ht by (intros s; apply utf8_ascii).
  assert (bigint_size (Some 8192%Z) /\ bigint_size (Some 24576%Z)) as [H1 H2] by (split; eexists; split; [done|lia|done|lia]).
  split.
  - apply (bool_decide_unpack _). vm_compute. exact I.
  - apply (bool_decide_unpack _). vm_compute. exact I.
  - intros cls Hc. repeat (apply elem_of_cons in Hc as [->|Hc]); [..|by apply not_elem_of_nil in Hc];
      (split; [unfold uint32; simpl; lia|]; split; [unfold int64; simpl; lia|]; split; [by apply Ht|];
       split; [done|]; split; [done|]); first [by left|by right].
  - intros a Ha. repeat (apply elem_of_cons in Ha as [->|Ha]); [..|by apply not_elem_of_nil in Ha]; split; by apply Ht.
  - intros ix _. eexists. split; [reflexivity|by apply Ht].
  - intros am Ha. repeat (apply elem_of_cons in Ha as [->|Ha]); [..|by apply not_elem_of_nil in Ha]; by apply Ht.
  - intros k Hk. repeat (apply elem_of_cons in Hk as [->|Hk]); [..|by apply not_elem_of_nil in Hk];
      (split; [by apply Ht|]; eexists; split; [reflexivity|by apply Ht]).
  - intros o. simpl. destruct (o =? 16411)%Z; (split; [by apply Ht|done]).
  - intros h Hh. repeat (apply elem_of_cons in Hh as [->|Hh]); [..|by apply not_elem_of_nil in Hh]. unfold uint32. simpl. lia.
Qed.

Definition ex_listed_tables : list Proto_Table :=
  [MkProto_Table 16417 "queue" "pgq" "owner" None (MkProto_TableStats (-1) 24576 8192 0) [] [] []
     (MkProto_TableInheritance []);
   MkProto_Table 16416 "archived" "public" "owner" None (MkProto_TableStats 40 24576 8192 0)
     [MkProto_TableColumn "id" "integer" true true; MkProto_TableColumn "ref" "integer" false false] []
     [MkProto_TableConstraint "archived_ref" "foreign_key" ["ref"] (Some "orders") ["id"] "CHECK";
      MkProto_TableConstraint "positive" "check" [] None [] "CHECK"]
     (MkProto_TableInheritance [MkProto_InheritanceRelation "orders" 16411]);
   MkProto_Table 16411 "orders" "public" "owner" (Some "all orders") (MkProto_TableStats (-1) 24576 8192 8192)
     [MkProto_TableColumn "id" "integer" true false; MkProto_TableColumn "note" "text" false false]
     [MkProto_TableIndex "orders_pkey" ["id"] true true false false true 8192 "CREATE INDEX" "btree" false;
      MkProto_TableIndex "orders_note" ["note"; "id"] false false false true true 8192 "CREATE INDEX" "btree" false]
     [MkProto_TableConstraint "orders_pkey" "primary_key" ["id"] None [] "PRIMARY KEY (id)"]
     (MkProto_TableInheritance [])].

Definition ex_listed : list DatabaseTables := [MkDatabaseTables "app" ex_listed_tables; MkDatabaseTables "shop" ex_listed_tables].

#[local] Existing Instances catalog_unicode catalog_errors.
#[local] Instance ex_tables_postgres t v : @Postgres _ (catalog_scanner t v) := catalog_postgres t v.

Lemma ListTables_lists_witness : exists databases per,
  @databases_listed _ (catalog_scanner 1 None) _ "postgres://" databases /\ ex_listed ≡ₚ per /\
  Forall2 (@tables_listed _ (catalog_scanner 1 None) _ example_server) databases per.
Proof.
  exact (ListTables_lists (S0 := catalog_scanner 1 None) example_server "postgres://"
    (Some (inr (MkListTablesResponse ex_listed)))
    (fun _ _ E => eq_ind_r catalog_wf (ex_catalog_wf 1 None) E) ltac:(run_catalog)).
Defined.
