(* ===== verification/Main.v ===== *)
(** * The extractor process (cmd/extractor/main.go, dev.go, prod.go)

    [boot] is main up to the point where the server is about to serve: a sequential
    program that ends in an exit code or in a store.  [proc] is the process from there
    on: where main is, what grpc's Serve does in its goroutine, the requests and their
    heap (the process of System.v), and the signal.  grpc is not part of the repository:
    what main relies on is that requests arrive until GracefulStop is called, that Serve
    may fail before that (the clients that are connected then stay so), that
    GracefulStop takes no further request, returns when every request is answered, and
    only then lets Serve return nil. *)

From S2P Require Import Prelude GoStrings Types Config Flags JsonDecode Runtime Logic Coordinator FanOut System Scan Store StoreSpec Server Service.

(** Calls of the logger, and of log.Fatalf. *)
Inductive line :=
| LogInfo (msg : string) (args : list string)
| LogError (msg : string) (err : error)
| LogFatal (err : error).

(** *slog.Logger: the handler on standard output, and HandlerOptions.Level. *)
Inductive log_handler := NewTextHandler | NewJSONHandler.
Record Logger := MkLogger { logger_handler : log_handler; logger_level : Level }.

(** slog's numbers of the levels. *)
Definition level_number (l : Level) : Z :=
  match l with LevelDebug => -4 | LevelInfo => 0 | LevelWarn => 4 | LevelError => 8 end.

(** A handler drops the records below its level; log.Fatalf is not slog. *)
Definition enabled (level : Level) (k : line) : bool :=
  match k with
  | LogInfo _ _ => (level_number level <=? level_number LevelInfo)%Z
  | LogError _ _ => (level_number level <=? level_number LevelError)%Z
  | LogFatal _ => true
  end.

Definition written (lg : Logger) (l : list line) : list line :=
  filter (fun k => enabled (logger_level lg) k = true) l.

(** The services registered with a *grpc.Server. *)
Inductive grpc_service := ExtractorService | ReflectionService.

(** dev.go, with the build tag dev. *)
Definition registerDev_dev (s : list grpc_service) : list grpc_service := s ++ [ReflectionService].

Definition initializeLogger_dev `{UnicodeLower} (c : Config) : res Logger :=
  level ← LogLevel c;
  inr {| logger_handler := NewTextHandler; logger_level := level |}.

(** prod.go, without it. *)
Definition registerDev_prod (s : list grpc_service) : list grpc_service := s.

Definition initializeLogger_prod `{UnicodeLower} (c : Config) : res Logger :=
  level ← LogLevel c;
  inr {| logger_handler := NewJSONHandler; logger_level := level |}.

(** The build decides which file is compiled. *)
Inductive build := DevBuild | ProdBuild.
Definition registerDev (b : build) : list grpc_service -> list grpc_service :=
  match b with DevBuild => registerDev_dev | ProdBuild => registerDev_prod end.
Definition initializeLogger `{UnicodeLower} (b : build) : Config -> res Logger :=
  match b with DevBuild => initializeLogger_dev | ProdBuild => initializeLogger_prod end.

Section boot.
Context `{S : Scanner} `{U : UnicodeLower} `{F : FileSystem}.
Variable tags : build.

(** What main is about to serve. *)
Record serving := MkServing {
  sv_config : Config;
  sv_logger : Logger;
  sv_store : Store;
  sv_services : list grpc_service
}.

(** The calls of the logger, and os.Exit with a code or what is served. *)
Definition boot (args : list string) : io (list line * outcome serving) :=
  match NewConfig args with
  | Exit code => Ret ([], Exit code)
  | Run config =>
      match initializeLogger tags config with
      | inl err => Ret ([LogFatal err], Exit 1)
      | inr logger =>
          let log := [LogInfo "PostgreSQL Inventory Extractor" []] in
          lis ← perform (EListen (ListenAddr config));
          match lis with
          | Some err => Ret (log ++ [LogError "failed to listen" err], Exit 1)
          | None =>
              match NewCredentials config with
              | inl err => Ret (log ++ [LogError "failed to parse db credentials" err], Exit 1)
              | inr dbCredentials =>
                  pool ← perform (EPoolNew (ConnStr dbCredentials));
                  match pool with
                  | inl err => Ret (log ++ [LogError "failed to create pool to database" err], Exit 1)
                  | inr pool =>
                      err ← perform (EPing pool);
                      match err with
                      | Some err => Ret (log ++ [LogError "failed to connect to database" err], Exit 1)
                      | None =>
                          st ← NewStore pool (ConnStrForDb (Config_DbCredentials config));
                          match st with
                          | inl err => Ret (log ++ [LogError "failed to initialize store" err], Exit 1)
                          | inr st =>
                              let grpcServer := registerDev tags [ExtractorService] in
                              Ret (log ++ [LogInfo "Extractor service listening" ["address"; ListenAddr config]],
                                   Run (MkServing config logger st grpcServer))
                          end
                      end
                  end
              end
          end
      end
  end.

(** The heap of a process that has just started. *)
Definition empty_heap : heap := Heap false ∅ ∅ ∅ ∅.
End boot.

(** ** Serving and shutting down *)
Section proc.
Context `{S : Scanner} `{U : UnicodeLower} `{E : JsonErrors}.
Variable srv : Server.
Variable dsn : string.

#[local] Instance proc_cfg : ConnCfg := cfg srv dsn.
#[local] Instance proc_service : Service := service srv dsn.

(** Where main is. *)
Inductive pc :=
| PSelect          (** select over sigCh and errCh *)
| PGracefulStop    (** in grpcServer.GracefulStop *)
| PClose           (** pool.Close *)
| PExit            (** main has returned: exit status 0 *)
| PPanic.          (** a handler has panicked, which ended the process *)

(** The process is there. *)
Definition running (m : pc) : bool := match m with PExit | PPanic => false | _ => true end.

(** The request's handler has dereferenced a nil pointer. *)
Definition panicked (q : inflight) : Prop := rq_run q = RRet (RListTables None).

Record proc := Proc {
  p_pc : pc;
  p_signal : bool;                     (** sigCh holds a signal *)
  p_accepting : bool;                  (** GracefulStop has not been called *)
  p_serving : bool;                    (** the goroutine that runs Serve is in it *)
  p_errCh : option (option error);     (** the buffer of errCh *)
  p_sys : sys;                         (** the requests, and the heap *)
  p_log : list line
}.

(** When the goroutine with Serve has been started and the signals are registered. *)
Definition proc_init : proc := Proc PSelect false true true None sys_init [].

Definition shutdown_line : line := LogInfo "Shutdown signal received, stopping gracefully" [].

(** A signal is dropped when sigCh is full; a select with two ready channels takes
    either.  pool.Close waits for the result sets of the pool.  Nothing happens after
    main has returned or a handler has panicked: gRPC does not recover. *)
Inductive proc_step : proc -> proc -> Prop :=
| p_request m s v e x x' l :
    running m = true -> sys_arrive x x' ->
    proc_step (Proc m s true v e x l) (Proc m s true v e x' l)
| p_run m s a v e x x' l :
    running m = true -> sys_step x x' -> Forall (fun q => ~ panicked q) (s_reqs x') ->
    proc_step (Proc m s a v e x l) (Proc m s a v e x' l)
| p_panic m s a v e x x' l :
    running m = true -> sys_step x x' -> Exists panicked (s_reqs x') ->
    proc_step (Proc m s a v e x l) (Proc PPanic s a v e x' l)
| p_sigterm m a v e x l :
    running m = true -> proc_step (Proc m false a v e x l) (Proc m true a v e x l)
| p_serve_fails m s x l err :
    running m = true ->
    proc_step (Proc m s true true None x l) (Proc m s true false (Some (Some err)) x l)
| p_serve_returns s x l :
    proc_step (Proc PClose s false true None x l) (Proc PClose s false false (Some None) x l)
| p_select_signal a v e x l :
    proc_step (Proc PSelect true a v e x l)
      (Proc PGracefulStop false false v e x (l ++ [shutdown_line]))
| p_select_err s a v err x l :
    proc_step (Proc PSelect s a v (Some err) x l)
      (Proc PClose s a v None x
         (l ++ match err with Some err => [LogError "server stopped with error" err] | None => [] end))
| p_stopped s a v e x l :
    quiescent x -> proc_step (Proc PGracefulStop s a v e x l) (Proc PClose s a v e x l)
| p_close s a v e h h' reqs l :
    estep None h (EPoolClose (Store_pool (Server_store srv))) tt h' ->
    proc_step (Proc PClose s a v e (Sys h reqs) l)
      (Proc PExit s a v e (Sys h' reqs) (l ++ [LogInfo "Shutdown complete" []])).

Definition proc_reachable (p : proc) : Prop := rtc proc_step proc_init p.
End proc.
