(* ===== verification/MainProps.v ===== *)
(** * Properties of the extractor process

    When main serves and when it exits instead, and the shutdown: what has been given
    back when main returns after a signal, and that the process always ends then. *)

From S2P Require Import Prelude GoStrings Types Config Flags JsonDecode Runtime Logic Coordinator FanOut System Exec Scan Store StoreSpec Server Service Example ServiceProps Main.

(** ** Start-up *)
Section boot.
Context `{S : Scanner} `{U : UnicodeLower} `{F : FileSystem} `{J : JsonErrors}.
Variable tags : build.

Definition greeting : line := LogInfo "PostgreSQL Inventory Extractor" [].

(** Why NewStore fails on a database. *)
Inductive store_failure (conn : string) : error -> Prop :=
| sf_stanza err :
    setting conn queryStanza (inl err) ->
    store_failure conn (Errorf "failed to load stanza: %w" [AErr err])
| sf_invalid stanza :
    setting conn queryStanza (inr stanza) -> isValidStanzaName stanza = false ->
    store_failure conn (Errorf "invalid stanza name: %q" [AStr stanza])
| sf_name stanza err :
    setting conn queryStanza (inr stanza) -> isValidStanzaName stanza = true ->
    setting conn queryClusterName (inl err) ->
    store_failure conn (Errorf "failed to load cluster_name: %w" [AErr err]).

(** The steps of main that succeed before the credentials are looked at, and before the
    pool with connection string [conn] is used. *)
Definition listening (c : Config) : Prop :=
  (exists level, LogLevel c = inr level) /\ listen_answer (ListenAddr c) None.
Definition connected (c : Config) (d : DbCredentials) : Prop :=
  listening c /\ NewCredentials c = inr d /\ new_answer (ConnStr d) None.

(** Why main exits with 1 once the flags are read, and what it has logged then. *)
Inductive boot_failure (c : Config) : list line -> Prop :=
| f_level err : LogLevel c = inl err -> boot_failure c [LogFatal err]
| f_listen level err :
    LogLevel c = inr level -> listen_answer (ListenAddr c) (Some err) ->
    boot_failure c [greeting; LogError "failed to listen" err]
| f_credentials err :
    listening c -> NewCredentials c = inl err ->
    boot_failure c [greeting; LogError "failed to parse db credentials" err]
| f_pool d err :
    listening c -> NewCredentials c = inr d -> new_answer (ConnStr d) (Some err) ->
    boot_failure c [greeting; LogError "failed to create pool to database" err]
| f_ping d err :
    connected c d -> ping_answer (ConnStr d) (Some err) ->
    boot_failure c [greeting; LogError "failed to connect to database" err]
| f_store d err :
    connected c d -> ping_answer (ConnStr d) None -> store_failure (ConnStr d) err ->
    boot_failure c [greeting; LogError "failed to initialize store" err].

(** The last line is written, whatever the level. *)
Definition says_why (log : list line) : Prop :=
  exists k, last log = Some k /\ forall lg, k ∈ written lg log.

Lemma failure_says_why c log : boot_failure c log -> says_why log.
Proof.
  intros H. destruct H; (eexists; split; [reflexivity|]; intros [hd []];
    apply list_elem_of_filter; (split; [reflexivity|]); rewrite ?elem_of_cons; eauto).
Qed.

Lemma initializeLogger_level c :
  match LogLevel c with
  | inl err => initializeLogger tags c = inl err
  | inr level => exists lg, initializeLogger tags c = inr lg /\ logger_level lg = level
  end.
Proof.
  unfold initializeLogger, initializeLogger_dev, initializeLogger_prod.
  destruct tags, (LogLevel c); simpl; by eauto.
Qed.

(** What it takes to serve, with the default pool [p]. *)
Definition boot_success (c : Config) (p : pool) (st : Store) : Prop :=
  exists d stanza name,
    connected c d /\ ping_answer (ConnStr d) None /\
    setting (ConnStr d) queryStanza (inr stanza) /\ isValidStanzaName stanza = true /\
    setting (ConnStr d) queryClusterName (inr name) /\
    st = MkStore p (ConnStrForDb (Config_DbCredentials c)) NewConnectionCoordinator stanza name.

Lemma NewCredentials_same c d : NewCredentials c = inr d -> d = Config_DbCredentials c.
Proof. unfold NewCredentials. case_match; [done|]. by intros [= <-]. Qed.

Lemma setting_answers conn sql : exists r, setting conn sql r.
Proof. destruct (row_answers conn sql) as [a Ha]. by eexists _, a. Qed.

(** Starting NewStore with a pool that is open always gives a result. *)
Lemma NewStore_returns h p f conn :
  h_pools h !! p = Some conn -> exists r, runs None h (NewStore p f) h r.
Proof.
  intros Hp. destruct (setting_answers conn queryStanza) as [[err|stanza] Hs].
  { eexists. apply (NewStore_runs None h p f conn _ _ Hp). split; [done|]. left. by exists err. }
  destruct (isValidStanzaName stanza) eqn:Hv.
  2: { eexists. apply (NewStore_runs None h p f conn _ _ Hp). split; [done|]. right. left. by exists stanza. }
  destruct (setting_answers conn queryClusterName) as [[err|name] Hc]; eexists;
    apply (NewStore_runs None h p f conn _ _ Hp); (split; [done|]); right; right; exists stanza;
    do 2 (split; [done|]); [left; by exists err|right; by exists name].
Qed.

Lemma boot_returns args : exists h log r, runs None empty_heap (boot tags args) h (log, r).
Proof.
  unfold boot. destruct (NewConfig args) as [code|c]; [by eexists _, _, _|].
  destruct (initializeLogger tags c) as [err|level]; [by eexists _, _, _|].
  destruct (listen_answers (ListenAddr c)) as [[err|] Hl].
  { eexists _, _, _, (Some err), _. split; [by split|]. by split. }
  destruct (NewCredentials c) as [err|d].
  { eexists _, _, _, None, _. split; [by split|]. by split. }
  destruct (new_answers (ConnStr d)) as [[err|] Hn].
  { eexists _, _, _, None, _. split; [by split|]. eexists (inl err), _. split; [by split|]. by split. }
  set (h1 := Heap false ∅ ∅ {[0 := ConnStr d]} ∅).
  assert (estep None empty_heap (EPoolNew (ConnStr d)) (inr 0) h1) as Hnew by (split; [done|]; split; done).
  assert (h_pools h1 !! 0 = Some (ConnStr d)) as Hp by apply lookup_singleton_eq.
  destruct (ping_answers (ConnStr d)) as [pg Hg].
  assert (estep None h1 (EPing 0) pg h1) as Hping by (split; [done|]; by rewrite Hp).
  destruct pg as [err|].
  { eexists _, _, _, None, _. split; [by split|]. eexists (inr 0), _. split; [exact Hnew|].
    eexists (Some err), _. split; [exact Hping|]. by split. }
  destruct (NewStore_returns h1 0 (ConnStrForDb (Config_DbCredentials c)) _ Hp) as [[err|st] Hst].
  all: eexists h1, _, _, None, _; (split; [by split|]); eexists (inr 0), _; (split; [exact Hnew|]);
    eexists None, _; (split; [exact Hping|]); apply (runs_bind _ _ (NewStore 0 _)); eexists _, _;
    (split; [exact Hst|]); by split.
Qed.

Lemma boot_result args h log r :
  runs None empty_heap (boot tags args) h (log, r) ->
  match r with
  | Run (MkServing c lg st services) => NewConfig args = Run c /\ boot_success c (Store_pool st) st /\
      initializeLogger tags c = inr lg /\ services = registerDev tags [ExtractorService] /\
      log = [greeting; LogInfo "Extractor service listening" ["address"; ListenAddr c]] /\
      h = s_heap (p_sys _ _ (proc_init (NewServer st) (ConnStr (Config_DbCredentials c))))
  | Exit code => (NewConfig args = Exit code /\ log = []) \/
      (code = 1 /\ exists c, NewConfig args = Run c /\ boot_failure c log /\ says_why log)
  end.
Proof.
  unfold boot. destruct (NewConfig args) as [code|c] eqn:Ec; [intros [[= -> ->] _]; by left|].
  assert (forall log, boot_failure c log ->
    (Run c : outcome Config) = Exit 1 /\ log = [] \/
    1 = 1 /\ exists c', Run c = Run c' /\ boot_failure c' log /\ says_why log) as Hfail.
  { intros l Hl. right. split; [done|]. exists c. split; [done|]. split; [done|]. by eapply failure_says_why. }
  pose proof (initializeLogger_level c) as Hlg. destruct (LogLevel c) as [err|level] eqn:El.
  { rewrite Hlg. intros [[= -> ->] _]. by apply Hfail, f_level. }
  destruct Hlg as (lg & Elg & _). rewrite Elg.
  intros (lis & h1 & [-> Hl] & H). destruct lis as [err|].
  { destruct H as [[= -> ->] _]. by eapply Hfail, f_listen. }
  assert (listening c) as Hlis by (split; [by exists level|done]).
  destruct (NewCredentials c) as [err|d] eqn:Ed.
  { destruct H as [[= -> ->] _]. by apply Hfail, f_credentials. }
  destruct H as (p & h1 & Hn & H). destruct p as [err|p]; cbn [estep] in Hn.
  { destruct Hn as [Hn _], H as [[= -> ->] _]. by eapply Hfail, f_pool. }
  destruct Hn as (Hn & _ & ->). destruct H as (pg & h1 & [-> Hp] & H).
  assert (connected c d) as Hconn by done.
  cbn in Hp. rewrite lookup_insert_eq in Hp. destruct pg as [err|].
  { destruct H as [[= -> ->] _]. by eapply Hfail, f_ping. }
  apply (runs_bind _ _ (NewStore p _)) in H as (s & h1 & H & Hr). eapply NewStore_runs in H as [-> Hs];
    [|simpl; by rewrite lookup_insert_eq].
  destruct Hs as [(err & Hs & ->)|[(stanza & Hs & Hv & ->)|(stanza & Hs & Hv & [(err & Hc & ->)|(name & Hc & ->)])]];
    destruct Hr as [[= -> ->] ->].
  1-3: eapply Hfail, f_store; try done; by econstructor.
  split; [done|]. split; [by exists d, stanza, name|]. do 3 (split; [done|]).
  apply NewCredentials_same in Ed as ->. done.
Qed.

(** C10: main, whatever the outside world answers, gets to the point where it serves or
    exits.  It serves only when the flags parse, the log level and the settings are
    accepted, and listening, connecting, the ping and the two settings of the database
    succeed; the process then has nothing open but the default pool, which is how the
    service starts, and a development build also serves reflection.  Otherwise it
    exits: as package flag says, or with 1 and the error of the step that failed, the
    first one, on the last line of its log, which no log level suppresses. *)
Theorem boot_spec args :
  (exists h log r, runs None empty_heap (boot tags args) h (log, r)) /\
  forall h log r, runs None empty_heap (boot tags args) h (log, r) ->
  match r with
  | Run (MkServing c lg st services) => NewConfig args = Run c /\ boot_success c (Store_pool st) st /\
      initializeLogger tags c = inr lg /\ services = registerDev tags [ExtractorService] /\
      log = [greeting; LogInfo "Extractor service listening" ["address"; ListenAddr c]] /\
      h = s_heap (p_sys _ _ (proc_init (NewServer st) (ConnStr (Config_DbCredentials c))))
  | Exit code => (NewConfig args = Exit code /\ log = []) \/
      (code = 1 /\ exists c, NewConfig args = Run c /\ boot_failure c log /\ says_why log)
  end.
Proof. split; [apply boot_returns|]. intros h log r. apply boot_result. Qed.
End boot.

(** ** Shutdown *)
Section shutdown.
Context `{S : Scanner} `{U : UnicodeLower} `{J : JsonErrors}.
Variable srv : Server.
Variable dsn : string.

#[local] Instance shutdown_cfg : ConnCfg := cfg srv dsn.
#[local] Instance shutdown_service : Service := service srv dsn.

Abbreviation proc := (proc srv dsn).
Abbreviation proc_step := (proc_step srv dsn).
Abbreviation Proc := (Proc srv dsn).
Abbreviation p_pc := (p_pc srv dsn).
Abbreviation p_sys := (p_sys srv dsn).
Abbreviation p_log := (p_log srv dsn).
Abbreviation p_accepting := (p_accepting srv dsn).
Abbreviation proc_reachable := (proc_reachable srv dsn).
Abbreviation panicked := (panicked srv dsn).

(** Cancelling an answered request is the only step left. *)
Lemma quiescent_step x x' : quiescent x -> sys_step x x' -> quiescent x'.
Proof.
  unfold quiescent. intros Hq Hs. destruct Hs as [? ? [h reqs i q h' r' Hi Hs]|h reqs i k r err Hi _]; simpl in *.
  - rewrite Forall_lookup in Hq. destruct (Hq _ _ Hi) as [b Hb]. by rewrite Hb in Hs.
  - apply Forall_insert; [done|]. rewrite Forall_lookup in Hq. by destruct (Hq _ _ Hi) as [b Hb]; exists b.
Qed.

Lemma shutdown_line_snoc l k : shutdown_line ∈ l ++ [k] <-> shutdown_line ∈ l \/ k = shutdown_line.
Proof. rewrite elem_of_app, list_elem_of_singleton. split; (intros [H|H]; [by left|by right]). Qed.

Lemma no_shutdown_line (l : list line) err :
  shutdown_line ∈ l ++ match err with Some err => [LogError "server stopped with error" err] | None => [] end ->
  shutdown_line ∈ l.
Proof. destruct err; [|by rewrite app_nil_r]. rewrite shutdown_line_snoc. by intros [|]. Qed.

(** After the signal nothing new is accepted, and once GracefulStop has returned
    nothing runs. *)
Definition proc_inv (p : proc) : Prop :=
  match p_pc p with
  | PSelect => reachable (p_sys p) /\ shutdown_line ∉ p_log p
  | PGracefulStop => reachable (p_sys p) /\ p_accepting p = false
  | PClose => reachable (p_sys p) /\
      (shutdown_line ∈ p_log p -> p_accepting p = false /\ quiescent (p_sys p))
  | PPanic => reachable (p_sys p) /\ Exists panicked (s_reqs (p_sys p))
  | PExit => (shutdown_line ∈ p_log p -> quiescent (p_sys p)) /\
      exists h, reachable (Sys h (s_reqs (p_sys p))) /\
        estep None h (EPoolClose (Store_pool (Server_store srv))) tt (s_heap (p_sys p))
  end.

Lemma proc_inv_step p p' : proc_inv p -> proc_step p p' -> proc_inv p'.
Proof.
  intros Hinv Hs. destruct Hs as [m s v e x x' l Hm Hx|m s a v e x x' l Hm Hx _|m s a v e x x' l Hm Hx Hpan|m a v e x l Hm|m s x l err Hm
    |s x l|a v e x l|s a v err x l|s a v e x l Hq|s a v e h h' reqs l Hc]; unfold proc_inv in *; simpl in *.
  - assert (forall x, reachable x -> sys_arrive x x' -> reachable x') as Hr by (intros; by eapply reach_arrive).
    destruct m; try done; destruct Hinv as [Hx0 Hinv]; (split; [by eapply Hr|]); try done.
    intros Hl. by destruct (Hinv Hl).
  - destruct m; try done; destruct Hinv as [Hx0 Hinv]; (split; [by eapply reach_step|]); try done.
    intros Hl. destruct (Hinv Hl) as [-> Hq]. split; [done|by eapply quiescent_step].
  - split; [|done]. destruct m; try done; destruct Hinv as [Hx0 _]; by eapply reach_step.
  - by destruct m.
  - by destruct m.
  - done.
  - by destruct Hinv.
  - destruct Hinv as [Hx Hl]. split; [done|]. intros H. by apply no_shutdown_line in H.
  - by destruct Hinv as [Hx Ha].
  - destruct Hinv as [Hx Hl]. split; [|by exists h].
    rewrite shutdown_line_snoc. intros [H|H]; [|done]. by apply Hl.
Qed.

Lemma proc_reachable_inv p : proc_reachable p -> proc_inv p.
Proof.
  intros H. assert (proc_inv (proc_init srv dsn)) as H0 by (split; [apply reach_init|apply not_elem_of_nil]).
  unfold Main.proc_reachable in H. induction H as [p|p q r Hs _ IH]; [done|]. eauto using proc_inv_step.
Qed.

(** Once GracefulStop has been called every step brings the process closer to its end:
    main moves on, the last signal or Serve's return is buffered, or a request advances. *)
Definition distance (p : proc) : nat :=
  match p_pc p with PSelect => 3 | PGracefulStop => 2 | PClose => 1 | _ => 0 end +
  (if p_signal _ _ p then 0 else 1) + (if p_serving _ _ p then 1 else 0).

Definition closing (p : proc) : Prop := p_pc p <> PSelect /\ p_accepting p = false.

Lemma closing_step p p' :
  closing p -> proc_step p p' ->
  closing p' /\ (distance p' < distance p \/ distance p' = distance p /\ sys_step (p_sys p) (p_sys p')).
Proof.
  intros [Hm Ha] Hs. destruct Hs; unfold closing, distance in *; simpl in *; try done.
  all: split; [done|].
  - right. done.
  - left. destruct m; simpl in *; try done; lia.
  - left. destruct m; lia.
  - left. lia.
  - left. lia.
  - left. lia.
Qed.

Lemma closing_acc p : closing p -> Acc (flip proc_step) p.
Proof.
  remember (distance p) as n eqn:En. revert p En. induction (lt_wf n) as [n _ IHn]. intros p.
  remember (p_sys p) as x eqn:Ex. revert p Ex. induction (sys_acc x) as [x _ IHx].
  intros p -> -> Hc. constructor. intros p' Hs.
  destruct (closing_step _ _ Hc Hs) as [Hc' [Hd|[Hd Hx]]].
  - by eapply IHn.
  - by eapply IHx.
Qed.

Lemma panicked_or q : {~ panicked q} + {panicked q}.
Proof.
  unfold Main.panicked. destruct (rq_run q) as [b|? ? ?|? ? ? ? ?]; [|by left..].
  destruct b as [| | | | | | |[]]; first [by right|by left].
Qed.

(** The contexts of the requests: equal ones mean that no request has been cancelled. *)
Definition contexts (p : proc) : list (option error) := rq_ctx <$> s_reqs (p_sys p).

Lemma run_step_contexts x x' : run_step x x' -> rq_ctx <$> s_reqs x' = rq_ctx <$> s_reqs x.
Proof.
  intros [h reqs i q h' r' Hi _]. simpl. rewrite list_fmap_insert. apply list_insert_id.
  by rewrite list_lookup_fmap, Hi.
Qed.

(** The requests run on, unless one panics. *)
Lemma proc_run_rtc m s a v e x x' l :
  running m = true -> rtc run_step x x' ->
  exists p', rtc proc_step (Proc m s a v e x l) p' /\ contexts p' = rq_ctx <$> s_reqs x /\
    (p' = Proc m s a v e x' l \/ p_pc p' = PPanic).
Proof.
  intros Hm. induction 1 as [x|x y z Hs _ (p' & Hp & Hctx & IH)]; [eexists; split; [apply rtc_refl|auto]|].
  pose proof (run_step_contexts _ _ Hs) as Hc. apply ss_run in Hs.
  destruct (Forall_Exists_dec _ _ panicked_or (s_reqs y)) as [Hn|Hpan].
  - exists p'. split; [eapply rtc_l; [by apply p_run|done]|].
    split; [exact (eq_trans Hctx Hc)|done].
  - eexists. split; [by apply rtc_once, p_panic|]. split; [exact Hc|by right].
Qed.

Definition ended (p : proc) : Prop := running (p_pc p) = false.

(** From [p] the process can end, without the help of any client. *)
Definition can_end (p : proc) : Prop := exists p', rtc proc_step p p' /\ contexts p' = contexts p /\ ended p'.

(** The requests of a process are answered, or one panics. *)
Lemma drain_ends m s a v e x l :
  running m = true -> reachable x ->
  (forall x', reachable x' -> quiescent x' -> can_end (Proc m s a v e x' l)) -> can_end (Proc m s a v e x l).
Proof.
  intros Hm Hr Hend. destruct (sys_drains _ Hr) as (x' & Hx & Hq).
  pose proof (reachable_rtc _ _ Hr (run_rtc _ _ Hx)) as Hr'.
  destruct (proc_run_rtc m s a v e x x' l Hm Hx) as (p & Hp & Hc & [->|Hpan]).
  - destruct (Hend x' Hr' Hq) as (p' & Hp' & Hc' & He). exists p'.
    split; [by etrans|]. split; [by etrans|done].
  - exists p. do 2 (split; [done|]). unfold ended. by rewrite Hpan.
Qed.

(** When every request is answered no result set is open, and the pool closes. *)
Lemma close_ends s a v e x l : reachable x -> can_end (Proc PClose s a v e x l).
Proof.
  intros Hr. apply drain_ends; [done|done|]. clear x Hr. intros x Hr Hq.
  destruct (sys_quiescent_clean _ Hr Hq) as (_ & _ & _ & Hrows). destruct x as [h reqs]. simpl in *.
  eexists. split; [apply rtc_once, p_close; split; [|done]|done].
  intros r q H. by rewrite Hrows, lookup_empty in H.
Qed.

Lemma stop_ends s a v e x l : reachable x -> can_end (Proc PGracefulStop s a v e x l).
Proof.
  intros Hr. apply drain_ends; [done|done|]. clear x Hr. intros x Hr Hq.
  destruct (close_ends s a v e x l Hr) as (p & Hp & Hc & He). exists p.
  split; [eapply rtc_l; [by apply p_stopped|done]|done].
Qed.

Lemma closing_ends p :
  proc_reachable p -> shutdown_line ∈ p_log p -> closing p /\ can_end p \/ ended p.
Proof.
  intros Hp Hl. apply proc_reachable_inv in Hp. unfold proc_inv in Hp.
  destruct p as [m s a v e x l]. simpl in *. destruct m; simpl in *.
  - by destruct Hp.
  - destruct Hp as [Hx ->]. left. split; [done|by apply stop_ends].
  - destruct Hp as [Hx Ha]. destruct (Ha Hl) as [-> _]. left. split; [done|by apply close_ends].
  - by right.
  - by right.
Qed.

Lemma ended_acc p : ended p -> Acc (flip proc_step) p.
Proof.
  unfold ended. intros He. constructor. intros p' Hs.
  inversion Hs; subst; simpl in *; congruence.
Qed.

(** With the tables query answered as documented no handler panics. *)
Lemma no_panic p : query_gives_tables -> proc_reachable p -> p_pc p <> PPanic.
Proof.
  intros Hquery Hp He. apply proc_reachable_inv in Hp. unfold proc_inv in Hp. rewrite He in Hp.
  destruct Hp as [Hr Hpan]. apply Exists_exists in Hpan as (q & Hq & Hpan).
  by apply (ListTables_no_panic srv dsn _ q Hquery Hr Hq).
Qed.

(** C6: a signal stops the process: once main has taken it no run of the process goes on
    for ever, whatever requests are still running and however they are interleaved or
    cancelled; from every state it reaches the process can end, without any request
    being cancelled; and if the query for tables is answered as PostgreSQL documents it,
    so that no handler panics, main can return, again without a cancellation. *)
Theorem shutdown_terminates p :
  proc_reachable p -> shutdown_line ∈ p_log p ->
  Acc (flip proc_step) p /\
  (exists p', rtc proc_step p p' /\ contexts p' = contexts p /\ ended p') /\
  (query_gives_tables -> exists p', rtc proc_step p p' /\ contexts p' = contexts p /\ p_pc p' = PExit).
Proof.
  intros Hp Hl. destruct (closing_ends p Hp Hl) as [[Hc (p' & Hs & Hctx & He)]|He].
  - split; [by apply closing_acc|]. split; [by exists p'|]. intros Hquery. exists p'. do 2 (split; [done|]).
    assert (p_pc p' <> PPanic) by (apply no_panic; [done|]; unfold Main.proc_reachable in *; by etrans).
    unfold ended in He. by destruct (p_pc p').
  - split; [by apply ended_acc|]. split; [by exists p; split; [apply rtc_refl|]|].
    intros Hquery. pose proof (no_panic p Hquery Hp). unfold ended in He.
    exists p. split; [apply rtc_refl|]. by destruct (p_pc p).
Qed.

(** C5: a process that was stopped by a signal gives everything back: when main returns
    every request has its answer, the coordinator's mutex is free and every permit
    returned, and neither a pool, the default pool included, nor a result set is open. *)
Theorem shutdown_clean p :
  proc_reachable p -> shutdown_line ∈ p_log p -> p_pc p = PExit ->
  let h := s_heap (p_sys p) in
  quiescent (p_sys p) /\ h_mu h = false /\ held h = ∅ /\ h_pools h = ∅ /\ h_rows h = ∅.
Proof.
  intros Hp Hl He. apply proc_reachable_inv in Hp. unfold proc_inv in Hp. rewrite He in Hp.
  destruct Hp as [Hq (h & Hr & _ & Hh)]. specialize (Hq Hl).
  destruct (sys_quiescent_clean _ Hr Hq) as (Hmu & Hch & Hpo & Hro). simpl in *. rewrite Hh. simpl.
  rewrite Hpo. split; [done|]. split; [done|]. split; [|split; [apply delete_singleton_eq|done]].
  apply set_eq. intros db. rewrite elem_of_held. split; [|by intros ?%elem_of_empty].
  intros (ch & Hs & Hc). simpl in *. apply Hch in Hs. congruence.
Qed.

(** When Serve fails main logs the error and returns: exit status 0. *)
Lemma serve_error_exits err :
  exists p, proc_reachable p /\ p_pc p = PExit /\ LogError "server stopped with error" err ∈ p_log p.
Proof.
  eexists. split; [|split].
  - eapply rtc_l; [by apply p_serve_fails|]. eapply rtc_l; [apply p_select_err|].
    eapply rtc_l; [|apply rtc_refl]. apply p_close. split; [|done]. intros r q H. done.
  - done.
  - apply list_elem_of_here.
Qed.
End shutdown.

(** ** Witnesses *)

(** A machine on which every file is there. *)
Definition ex_files : FileSystem := {| os_Stat := fun _ => None; os_IsNotExist := fun _ => true |}.

Definition ex_settings : list flag_setting :=
  [FlagSetting "db-host" "db1" false true; FlagSetting "db-sslmode" "disable" true false;
   FlagSetting "db-port" "0x1538" true true; FlagSetting "db-host" "db2" false false].

Lemma NewConfig_reads_witness : exists c,
  NewConfig ["-db-host=db1"; "--db-sslmode"; "disable"; "--db-port=0x1538"; "-db-host"; "db2"] = Run c /\
  dbHost (Config_DbCredentials c) = "db2" /\ Some (dbPort (Config_DbCredentials c)) = Some 5432%Z.
Proof.
  destruct (NewConfig_reads ex_settings) as (c & Hc & H).
  { repeat constructor; try (simpl; set_solver); try discriminate.
    }
  exists c. split; [exact Hc|]. destruct H as (_ & _ & Hh & _ & _ & _ & _ & _ & _ & Hp).
  split; [exact Hh|]. symmetry. exact Hp.
Defined.

(** main with the connection unencrypted. *)
Definition ex_args : list string := ["-db-sslmode"; "disable"].

Definition ex_boot : option ((list line * outcome serving) * heap) :=
  @run_io (example_answers false) _ None empty_heap
    (@boot _ (example_scanner false) example_unicode ex_files ProdBuild ex_args).

Lemma ex_boot_runs log r h :
  ex_boot = Some (log, r, h) ->
  @runs (example_world false) _ None empty_heap
    (@boot _ (example_scanner false) example_unicode ex_files ProdBuild ex_args) h (log, r).
Proof. apply (@run_io_sound (example_answers false)). Qed.

Lemma ex_boot_serves : match ex_boot with Some (_, Run _, _) => True | _ => False end.
Proof. vm_compute. exact I. Qed.

Lemma boot_spec_witness : exists log sv h,
  ex_boot = Some (log, Run sv, h) /\ sv_services sv = [ExtractorService] /\ log = [greeting; LogInfo "Extractor service listening" ["address"; ":50051"]].
Proof.
  destruct ex_boot as [[[log [code|[c lg st services]]] h]|] eqn:E; pose proof ex_boot_serves as H; rewrite E in H; try done.
  exists log, (MkServing c lg st services), h. split; [done|].
  destruct (proj2 (boot_spec (J := example_errors) ProdBuild ex_args) _ _ _ (ex_boot_runs _ _ _ E))
    as (Hc & _ & _ & Hs & -> & _).
  split; [exact Hs|]. vm_compute in Hc. by injection Hc as <-.
Defined.

(** A process that takes a signal with a request running. *)
Abbreviation ex_proc := (@proc _ (example_scanner false) example_unicode example_errors example_server "postgres://").
Abbreviation ex_step := (@proc_step _ (example_scanner false) example_unicode example_errors example_server "postgres://").
Abbreviation ex_proc_reachable := (@proc_reachable _ (example_scanner false) example_unicode example_errors example_server "postgres://").

Definition ex_started : @sys (example_world false) ex_cfg (ex_service false) :=
  Sys (s_heap (@sys_init _ _ (ex_service false)))
    [@InFlight _ _ (ex_service false) MListSchemas None
       (start (@dispatch _ (example_scanner false) example_unicode example_errors example_server MListSchemas))].

Definition ex_stopping : ex_proc :=
  Proc example_server "postgres://" PGracefulStop false false true None ex_started [shutdown_line].

Lemma ex_stopping_reachable : ex_proc_reachable ex_stopping.
Proof.
  eapply rtc_l; [apply (p_request _ _ _ _ _ _ _ ex_started); [done|apply (@sa_arrive _ ex_cfg (ex_service false) _ [] MListSchemas)]|].
  eapply rtc_l; [by apply p_sigterm|]. eapply rtc_l; [apply p_select_signal|]. apply rtc_refl.
Qed.

Lemma shutdown_terminates_witness :
  s_reqs ex_started <> [] /\ exists p', rtc ex_step ex_stopping p' /\
    contexts example_server "postgres://" p' = [None] /\ p_pc _ _ p' = PExit.
Proof.
  split; [done|].
  exact (proj2 (proj2 (shutdown_terminates example_server "postgres://" ex_stopping
    ex_stopping_reachable (list_elem_of_here _ _))) ex_query_gives_tables).
Defined.

Lemma ex_stopped r h :
  ex_run false MListSchemas = Some (r, h) -> h_rows h = ∅ ->
  exists p, ex_proc_reachable p /\ shutdown_line ∈ p_log _ _ p /\ p_pc _ _ p = PExit /\
    s_reqs (p_sys _ _ p) = s_reqs (ex_state false MListSchemas r h).
Proof.
  intros E Hr. apply (@run_request_rtc (example_answers false) ex_cfg (ex_service false)) in E.
  destruct (proc_run_rtc example_server "postgres://" PGracefulStop false false true None ex_started
    (ex_state false MListSchemas r h) [shutdown_line] eq_refl E) as (p & Hp & _ & H).
  assert (ex_proc_reachable p) as Hreach
    by (unfold Main.proc_reachable; etrans; [apply ex_stopping_reachable|exact Hp]).
  destruct H as [->|H]; [|by destruct (no_panic _ _ p ex_query_gives_tables Hreach)].
  eexists. split; [|split; [|split]].
  - unfold Main.proc_reachable in *. etrans; [exact Hreach|].
    eapply rtc_l; [apply p_stopped; constructor; [by exists r|constructor]|].
    eapply rtc_once. apply p_close. split; [|done]. intros i q H. by rewrite Hr, lookup_empty in H.
  - apply list_elem_of_here.
  - done.
  - done.
Qed.

Lemma shutdown_clean_witness : exists p : ex_proc,
  s_reqs (p_sys _ _ p) <> [] /\ h_pools (s_heap (p_sys _ _ p)) = ∅.
Proof.
  destruct (ex_run false MListSchemas) as [[r h]|] eqn:E; [|vm_compute in E; discriminate].
  destruct (ex_stopped r h E) as (p & Hp & Hl & He & Hq).
  { vm_compute in E. by injection E as _ <-. }
  exists p. split; [by rewrite Hq|].
  exact (match shutdown_clean example_server "postgres://" p Hp Hl He with
    conj _ (conj _ (conj _ (conj Hpools _))) => Hpools end).
Defined.
