(* ===== verification/Testutil.v ===== *)
(** * Test support (internal/testutil/postgres.go)

    The containers and databases that the integration tests run against: what is set up
    in a fresh server, statement by statement, which pools are opened and closed for it,
    what a test gives back at its end, and the search for the module's root.

    The state is what the helpers leave behind: open pools, the statements sent,
    running containers, and the cleanups of the test.  pgx, testcontainers and nat are
    not part of the repository: the class [Outside]. *)

From S2P Require Import Prelude GoStrings GoPath Config.

(** ** The options *)

Record ExtraSchema := MkExtraSchema { ExtraSchema_Name : string; ExtraSchema_Database : string }.

Record InstalledExtension := MkInstalledExtension {
  InstalledExtension_Name : string;
  InstalledExtension_Database : string
}.

Record ExtraRole := MkExtraRole {
  ExtraRole_Database : string;
  ExtraRole_Schema : string;
  ExtraRole_Role : string;
  ExtraRole_Password : string
}.

(** Role is a pointer. *)
Record ExtraTable := MkExtraTable {
  ExtraTable_Role : option ExtraRole;
  ExtraTable_Schema : string;
  ExtraTable_Database : string;
  ExtraTable_DDL : string
}.

Record setupConfig := MkSetupConfig {
  clusterName : string;
  stanza : string;
  extraDatabases : list string;
  extraSchemas : list ExtraSchema;
  installedExtensions : list InstalledExtension;
  extraRoles : list ExtraRole;
  extraTables : list ExtraTable
}.

(** type SetupOption func( *setupConfig ) *)
Definition SetupOption : Type := setupConfig -> setupConfig.

Definition WithClusterConfig (name st : string) : SetupOption := fun cfg =>
  MkSetupConfig name st (extraDatabases cfg) (extraSchemas cfg) (installedExtensions cfg)
    (extraRoles cfg) (extraTables cfg).

Definition WithExtraDatabases (names : list string) : SetupOption := fun cfg =>
  MkSetupConfig (clusterName cfg) (stanza cfg) (extraDatabases cfg ++ names) (extraSchemas cfg)
    (installedExtensions cfg) (extraRoles cfg) (extraTables cfg).

Definition WithExtraSchemas (schemas : list ExtraSchema) : SetupOption := fun cfg =>
  MkSetupConfig (clusterName cfg) (stanza cfg) (extraDatabases cfg) (extraSchemas cfg ++ schemas)
    (installedExtensions cfg) (extraRoles cfg) (extraTables cfg).

Definition WithInstalledExtensions (extensions : list InstalledExtension) : SetupOption := fun cfg =>
  MkSetupConfig (clusterName cfg) (stanza cfg) (extraDatabases cfg) (extraSchemas cfg)
    (installedExtensions cfg ++ extensions) (extraRoles cfg) (extraTables cfg).

Definition WithExtraRoles (roles : list ExtraRole) : SetupOption := fun cfg =>
  MkSetupConfig (clusterName cfg) (stanza cfg) (extraDatabases cfg) (extraSchemas cfg)
    (installedExtensions cfg) (extraRoles cfg ++ roles) (extraTables cfg).

Definition WithExtraTables (tables : list ExtraTable) : SetupOption := fun cfg =>
  MkSetupConfig (clusterName cfg) (stanza cfg) (extraDatabases cfg) (extraSchemas cfg)
    (installedExtensions cfg) (extraRoles cfg) (extraTables cfg ++ tables).

Definition default_config : setupConfig := MkSetupConfig "test-cluster" "test-stanza" [] [] [] [] [].

(** cfg after the loop over opts. *)
Definition configure (opts : list SetupOption) : setupConfig :=
  foldl (fun cfg opt => opt cfg) default_config opts.

(** ** The state of a test *)

(** A statement: the connection string of the pool it was sent to, unless that pool was
    closed, its text and arguments, and the error it gave. *)
Record stmt := Stmt {
  st_conn : option string;
  st_sql : string;
  st_args : list string;
  st_err : option error
}.

(** What t.Cleanup was called with. *)
Inductive cleanup :=
| TerminateContainer (c : option nat)
| ClosePool (p : nat).

Record state := State {
  pools : gmap nat string;       (** open pools and their connection string *)
  log : list stmt;               (** the statements sent, in order *)
  containers : gset nat;         (** running containers *)
  cleanups : list cleanup        (** the last one first *)
}.

(** What postgres.Run returns: a container, or an error with or without one. *)
Inductive run_result := RunOk | RunErr (started : bool) (err : error).

Class Outside := {
  new_err : state -> string -> option error;                               (** pgxpool.New *)
  exec_err : state -> string -> string -> list string -> option error;     (** pool.Exec *)
  Sanitize : string -> string;                                             (** pgx.Identifier{x}.Sanitize() *)
  postgres_Run : state -> string -> run_result;                            (** with an init script *)
  Host : nat -> res string;
  MappedPort : nat -> res string;                                          (** of 5432/tcp *)
  Port : string -> string;                                                 (** nat.Port.Port *)
  terminate_err : nat -> option error                                      (** testcontainers.TerminateContainer *)
}.

(** State passing. *)
Definition M (A : Type) : Type := state -> A * state.
#[export] Instance M_ret : MRet M := fun A a s => (a, s).
#[export] Instance M_bind : MBind M := fun A B f m s => let '(a, s') := m s in f a s'.

(** if err := m; err != nil { return wrap(err) }; k *)
Definition or_return (m : M (option error)) (wrap : error -> error) (k : M (option error)) : M (option error) :=
  err ← m;
  match err with
  | Some err => mret (Some (wrap err))
  | None => k
  end.

(** A loop whose body returns an error to leave it. *)
Fixpoint for_each {T} (l : list T) (body : T -> M (option error)) : M (option error) :=
  match l with
  | [] => mret None
  | x :: l => or_return (body x) id (for_each l body)
  end.

Definition closed_pool : error := ErrExt "closed pool".

Section pgx.
Context `{O : Outside}.

Definition New (conn : string) : M (res nat) := fun s =>
  match new_err s conn with
  | Some err => (inl err, s)
  | None =>
      let p := fresh (dom (pools s)) in
      (inr p, State (<[p := conn]> (pools s)) (log s) (containers s) (cleanups s))
  end.

Definition Close (p : nat) : M unit := fun s =>
  (tt, State (delete p (pools s)) (log s) (containers s) (cleanups s)).

Definition Exec (p : nat) (sql : string) (args : list string) : M (option error) := fun s =>
  let conn := pools s !! p in
  let err := match conn with Some c => exec_err s c sql args | None => Some closed_pool end in
  (err, State (pools s) (log s ++ [Stmt conn sql args err]) (containers s) (cleanups s)).

Definition Cleanup (c : cleanup) : M unit := fun s =>
  (tt, State (pools s) (log s) (containers s) (c :: cleanups s)).

(** if err := m; err != nil { p.Close(); return wrap(err) }; k *)
Definition or_close (p : nat) (m : M (option error)) (wrap : error -> error) (k : M (option error))
    : M (option error) :=
  err ← m;
  match err with
  | Some err => _ ← Close p; mret (Some (wrap err))
  | None => k
  end.
End pgx.

(** ** Credentials *)

Record TestDbCredentials := MkTestDbCredentials {
  container : option nat;   (** a pointer; nil in the result of StartPostgres *)
  dbuser : string;
  dbpass : string;
  host : string;
  port : string
}.

Section testutil.
Context `{O : Outside}.

Definition postgres_url (user password host port db : string) : string :=
  "postgres://" +:+ user +:+ ":" +:+ password +:+ "@" +:+ host +:+ ":" +:+ port +:+ "/" +:+ db.

Definition ConnStr (d : TestDbCredentials) (db : string) : string :=
  postgres_url (dbuser d) (dbpass d) (host d) (Port (port d)) db.

Definition ConnStrForUser (d : TestDbCredentials) (db user password : string) : string :=
  postgres_url user password (host d) (Port (port d)) db.

Definition PgmonitorConnStrFunc (d : TestDbCredentials) : string -> string :=
  fun db => ConnStrForUser d db "pgmonitor" "password".

(** ** The setup of a server *)

Definition setup_database (pool : nat) (dbName : string) : M (option error) :=
  or_return (Exec pool ("CREATE DATABASE " +:+ Sanitize dbName) [])
    (fun err => Errorf "failed to create database %s: %w" [AStr dbName; AErr err]) (
  or_return (Exec pool ("GRANT CONNECT ON DATABASE " +:+ Sanitize dbName +:+ " TO pgmonitor") [])
    (fun err => Errorf "failed to grant connect on database %s: %w" [AStr dbName; AErr err])
    (mret None)).

Definition setup_schema (credentials : TestDbCredentials) (schema : ExtraSchema) : M (option error) :=
  schemaPool ← New (ConnStr credentials (ExtraSchema_Database schema));
  match schemaPool with
  | inl schemaErr => mret (Some schemaErr)
  | inr schemaPool =>
      or_close schemaPool (Exec schemaPool ("CREATE SCHEMA IF NOT EXISTS " +:+ Sanitize (ExtraSchema_Name schema)) [])
        (fun err => Errorf "failed to create schema in database %s: %w" [AStr (ExtraSchema_Database schema); AErr err]) (
      _ ← Close schemaPool;
      mret None)
  end.

Definition setup_extension (credentials : TestDbCredentials) (extension : InstalledExtension) : M (option error) :=
  extPool ← New (ConnStr credentials (InstalledExtension_Database extension));
  match extPool with
  | inl extErr => mret (Some extErr)
  | inr extPool =>
      or_close extPool (Exec extPool ("CREATE EXTENSION " +:+ Sanitize (InstalledExtension_Name extension)) []) id (
      _ ← Close extPool;
      mret None)
  end.

Definition setup_role (credentials : TestDbCredentials) (pool : nat) (role : ExtraRole) : M (option error) :=
  or_return (Exec pool ("CREATE ROLE " +:+ Sanitize (ExtraRole_Role role) +:+ " WITH LOGIN PASSWORD $$"
                          +:+ ExtraRole_Password role +:+ "$$") [])
    (fun err => Errorf "failed to create role %s: %w" [AStr (ExtraRole_Role role); AErr err]) (
  or_return (Exec pool ("CREATE DATABASE " +:+ Sanitize (ExtraRole_Database role) +:+ " OWNER "
                          +:+ Sanitize (ExtraRole_Role role)) [])
    (fun err => Errorf "failed to create database %s: %w" [AStr (ExtraRole_Database role); AErr err]) (
  or_return (Exec pool ("GRANT CONNECT ON DATABASE " +:+ Sanitize (ExtraRole_Database role) +:+ " TO pgmonitor") [])
    (fun err => Errorf "failed to grant connect on database %s: %w" [AStr (ExtraRole_Database role); AErr err]) (
  rolePool ← New (ConnStr credentials (ExtraRole_Database role));
  match rolePool with
  | inl err => mret (Some err)
  | inr rolePool =>
      or_close rolePool (Exec rolePool ("CREATE SCHEMA " +:+ Sanitize (ExtraRole_Schema role) +:+ " AUTHORIZATION "
                                          +:+ Sanitize (ExtraRole_Role role)) [])
        (fun err => Errorf "failed to create schema %s in database %s: %w"
           [AStr (ExtraRole_Schema role); AStr (ExtraRole_Database role); AErr err]) (
      _ ← Close rolePool;
      mret None)
  end))).

Definition setup_table (credentials : TestDbCredentials) (table : ExtraTable) : M (option error) :=
  match ExtraTable_Role table with
  | None => mret (Some (Errorf "WithExtraTables require a non-nil Role" []))
  | Some role =>
      tablePool ← New (postgres_url (ExtraRole_Role role) (ExtraRole_Password role)
                         (host credentials) (Port (port credentials)) (ExtraTable_Database table));
      match tablePool with
      | inl err => mret (Some err)
      | inr tablePool =>
          let run_ddl :=
            or_close tablePool (Exec tablePool (ExtraTable_DDL table) [])
              (fun err => Errorf "failed to execute DDL in database %s: %w" [AStr (ExtraTable_Database table); AErr err]) (
            _ ← Close tablePool;
            mret None) in
          if decide (ExtraTable_Schema table = "") then run_ddl
          else
            or_close tablePool (Exec tablePool ("SET search_path TO " +:+ Sanitize (ExtraTable_Schema table)) [])
              (fun err => Errorf "failed to set search_path to %s: %w" [AStr (ExtraTable_Schema table); AErr err])
              run_ddl
      end
  end.

Definition applySetupConfiguration (credentials : TestDbCredentials) (cfg : setupConfig) : M (option error) :=
  pool ← New (ConnStr credentials "postgres");
  match pool with
  | inl err => mret (Some err)
  | inr pool =>
      err ← (
        or_return (Exec pool "UPDATE monitoring.cluster_config SET value = $1 WHERE key = 'cluster_name'" [clusterName cfg]) id (
        or_return (Exec pool "UPDATE monitoring.cluster_config SET value = $1 WHERE key = 'stanza'" [stanza cfg]) id (
        or_return (Exec pool "CREATE USER pgmonitor PASSWORD 'password'" [])
          (fun err => Errorf "failed to create pgmonitor user: %w" [AErr err]) (
        or_return (Exec pool "GRANT pg_monitor TO pgmonitor" [])
          (fun err => Errorf "failed to grant pg_monitor role: %w" [AErr err]) (
        or_return (Exec pool "GRANT USAGE ON SCHEMA monitoring TO pgmonitor" [])
          (fun err => Errorf "failed to grant usage on monitoring schema: %w" [AErr err]) (
        or_return (Exec pool "GRANT SELECT ON monitoring.cluster_config TO pgmonitor" [])
          (fun err => Errorf "failed to grant select on cluster_config: %w" [AErr err]) (
        or_return (for_each (extraDatabases cfg) (setup_database pool)) id (
        or_return (for_each (extraSchemas cfg) (setup_schema credentials)) id (
        or_return (for_each (installedExtensions cfg) (setup_extension credentials)) id (
        or_return (for_each (extraRoles cfg) (setup_role credentials pool)) id (
        for_each (extraTables cfg) (setup_table credentials))))))))))));
      (* defer pool.Close() *)
      _ ← Close pool;
      mret err
  end.

(** ** Containers, and what a test connects to *)

(** postgres.Run: the container, or an error and the container if there is one. *)
Definition run_container (script : string) : M ((option nat * error) + nat) := fun s =>
  let c := fresh (containers s) in
  let started := State (pools s) (log s) ({[c]} ∪ containers s) (cleanups s) in
  match postgres_Run s script with
  | RunOk => (inr c, started)
  | RunErr true err => (inl (Some c, err), started)
  | RunErr false err => (inl (None, err), s)
  end.

Definition terminate (c : option nat) : M (option error) := fun s =>
  match c with
  | None => (None, s)
  | Some c =>
      match terminate_err c with
      | Some err => (Some err, s)
      | None => (None, State (pools s) (log s) (containers s ∖ {[c]}) (cleanups s))
      end
  end.

(** Terminate only logs the error. *)
Definition Terminate (d : TestDbCredentials) : M unit := _ ← terminate (container d); mret tt.

(** os.Stat, and os.Getwd, whose error is ignored and its path then empty. *)
Context `{F : FileSystem}.
Variable os_Getwd : string.

Definition has_go_mod (dir : bytes) : bool :=
  match os_Stat (b2s (Join [dir; s2b "go.mod"])) with None => true | Some _ => false end.

(** The loop of findModuleRoot. *)
Fixpoint findModuleRoot_loop (fuel : nat) (dir : bytes) : option bytes :=
  match fuel with
  | 0 => None
  | S fuel =>
      if has_go_mod dir then Some dir
      else
        let parent := Dir dir in
        if decide (parent = dir) then Some []
        else findModuleRoot_loop fuel parent
  end.

Definition findModuleRoot (dir : bytes) : option bytes := findModuleRoot_loop (2 + length dir) dir.

Definition initScriptPath (scriptName : string) : option string :=
  moduleRoot ← findModuleRoot (s2b os_Getwd);
  Some (b2s (Join [moduleRoot; s2b "internal"; s2b "testutil"; s2b "testdata"; s2b "setup"; s2b scriptName])).

(** The path that the helpers give to postgres.WithInitScripts. *)
Definition init_script : string := default "" (initScriptPath "00-monitoring.sql").

Definition StartSharedPostgres (opts : list SetupOption) : M (res TestDbCredentials) :=
  run ← run_container init_script;
  match run with
  | inl (_, err) => mret (inl err)
  | inr c =>
      match Host c with
      | inl err => mret (inl (Errorf "failed to get pg testcontainer host: %w" [AErr err]))
      | inr host =>
          match MappedPort c with
          | inl err => mret (inl (Errorf "failed to get pg testcontainer port: %w" [AErr err]))
          | inr port =>
              let credentials := MkTestDbCredentials (Some c) "postgres" "postgres" host port in
              err ← applySetupConfiguration credentials (configure opts);
              match err with
              | Some err => mret (inl (Errorf "failed to apply test configuration to database: %w" [AErr err]))
              | None => mret (inr credentials)
              end
          end
      end
  end.

(** t.Fatalf ends the test: its message is the result on the left. *)
Definition StartPostgres (opts : list SetupOption) : M (res TestDbCredentials) :=
  run ← run_container init_script;
  _ ← Cleanup (TerminateContainer (match run with inl (c, _) => c | inr c => Some c end));
  match run with
  | inl (_, err) => mret (inl (Errorf "failed to start container: %v" [AErr err]))
  | inr c =>
      match Host c with
      | inl _ => mret (inl (Errorf "failed to get pg testcontainer host" []))
      | inr host =>
          match MappedPort c with
          | inl _ => mret (inl (Errorf "failed to get pg testcontainer port" []))
          | inr port =>
              let credentials := MkTestDbCredentials None "postgres" "postgres" host port in
              err ← applySetupConfiguration credentials (configure opts);
              match err with
              | Some err => mret (inl (Errorf "failed to apply test configuration to database: %v" [AErr err]))
              | None => mret (inr credentials)
              end
          end
      end
  end.

Definition ConnectToDatabase (credentials : TestDbCredentials) (dbName : string) : M (res nat) :=
  pool ← New (ConnStr credentials dbName);
  match pool with
  | inl err => mret (inl (Errorf "failed to connect: %v" [AErr err]))
  | inr pool => _ ← Cleanup (ClosePool pool); mret (inr pool)
  end.

Definition ConnectAsPgmonitor (credentials : TestDbCredentials) (dbName : string) : M (res nat) :=
  pool ← New (ConnStrForUser credentials dbName "pgmonitor" "password");
  match pool with
  | inl err => mret (inl (Errorf "failed to connect as pgmonitor: %v" [AErr err]))
  | inr pool => _ ← Cleanup (ClosePool pool); mret (inr pool)
  end.

(** The end of a test: its cleanups, the last one registered first.  A t.Fatalf in one
    of them does not keep the others from running. *)
Definition run_cleanup (c : cleanup) : M unit :=
  match c with
  | TerminateContainer c => _ ← terminate c; mret tt
  | ClosePool p => Close p
  end.

Definition finish : M unit := fun s =>
  foldl (fun '(_, s) c => run_cleanup c s) (tt, State (pools s) (log s) (containers s) []) (cleanups s).
End testutil.

(** ** What is planned *)

(** A statement that the setup has to get through: connection, text, arguments.  [None] is
    a table without a role, which the setup refuses. *)
Definition planned : Type := option (string * string * list string).

Section plan.
Context `{O : Outside}.
Variable credentials : TestDbCredentials.

Definition on (conn sql : string) : planned := Some (conn, sql, []).
Definition main_conn : string := ConnStr credentials "postgres".

Definition config_plan (cfg : setupConfig) : list planned :=
  Some (main_conn, "UPDATE monitoring.cluster_config SET value = $1 WHERE key = 'cluster_name'", [clusterName cfg]) ::
  Some (main_conn, "UPDATE monitoring.cluster_config SET value = $1 WHERE key = 'stanza'", [stanza cfg]) ::
  (on main_conn <$> ["CREATE USER pgmonitor PASSWORD 'password'"; "GRANT pg_monitor TO pgmonitor";
     "GRANT USAGE ON SCHEMA monitoring TO pgmonitor"; "GRANT SELECT ON monitoring.cluster_config TO pgmonitor"]).

Definition database_plan (db : string) : list planned :=
  on main_conn <$> ["CREATE DATABASE " +:+ Sanitize db; "GRANT CONNECT ON DATABASE " +:+ Sanitize db +:+ " TO pgmonitor"].

Definition schema_plan (schema : ExtraSchema) : list planned :=
  [on (ConnStr credentials (ExtraSchema_Database schema))
     ("CREATE SCHEMA IF NOT EXISTS " +:+ Sanitize (ExtraSchema_Name schema))].

Definition extension_plan (extension : InstalledExtension) : list planned :=
  [on (ConnStr credentials (InstalledExtension_Database extension))
     ("CREATE EXTENSION " +:+ Sanitize (InstalledExtension_Name extension))].

Definition role_plan (role : ExtraRole) : list planned :=
  (on main_conn <$> [
     "CREATE ROLE " +:+ Sanitize (ExtraRole_Role role) +:+ " WITH LOGIN PASSWORD $$" +:+ ExtraRole_Password role +:+ "$$";
     "CREATE DATABASE " +:+ Sanitize (ExtraRole_Database role) +:+ " OWNER " +:+ Sanitize (ExtraRole_Role role);
     "GRANT CONNECT ON DATABASE " +:+ Sanitize (ExtraRole_Database role) +:+ " TO pgmonitor"]) ++
  [on (ConnStr credentials (ExtraRole_Database role))
     ("CREATE SCHEMA " +:+ Sanitize (ExtraRole_Schema role) +:+ " AUTHORIZATION " +:+ Sanitize (ExtraRole_Role role))].

(** As the role itself. *)
Definition table_plan (table : ExtraTable) : list planned :=
  match ExtraTable_Role table with
  | None => [None]
  | Some role =>
      on (ConnStrForUser credentials (ExtraTable_Database table) (ExtraRole_Role role) (ExtraRole_Password role)) <$>
        (if decide (ExtraTable_Schema table = "") then []
         else ["SET search_path TO " +:+ Sanitize (ExtraTable_Schema table)]) ++ [ExtraTable_DDL table]
  end.

Definition setup_plan (cfg : setupConfig) : list planned :=
  config_plan cfg ++ (extraDatabases cfg ≫= database_plan) ++ (extraSchemas cfg ≫= schema_plan) ++
  (installedExtensions cfg ≫= extension_plan) ++ (extraRoles cfg ≫= role_plan) ++ (extraTables cfg ≫= table_plan).
End plan.

(** The statement was sent, on an open pool with the connection string of the plan. *)
Definition sent (p : planned) (st : stmt) : Prop :=
  exists conn, st_conn st = Some conn /\ p = Some (conn, st_sql st, st_args st).

Definition succeeded (st : stmt) : Prop := st_err st = None.

(** All of the plan was carried out. *)
Definition carried_out (plan : list planned) (done : list stmt) : Prop :=
  Forall2 sent plan done /\ Forall succeeded done.

(** The plan was followed up to a statement that failed, or up to a point where some of
    it is left to do. *)
Definition stopped (plan : list planned) (done : list stmt) : Prop :=
  exists plan1 plan2, plan = plan1 ++ plan2 /\
    ((carried_out plan1 done /\ plan2 <> []) \/
     (exists done' st, done = done' ++ [st] /\ Forall2 sent plan1 done /\
        Forall succeeded done' /\ st_err st <> None)).

Definition outcome_of (err : option error) (plan : list planned) (done : list stmt) : Prop :=
  match err with None => carried_out plan done | Some _ => stopped plan done end.

Section proofs.
Context `{O : Outside}.

(** [m] follows the plan when [ps] is open, and leaves [ps'] open. *)
Definition performs (ps ps' : gmap nat string) (m : M (option error)) (plan : list planned) : Prop :=
  forall s err s', pools s = ps -> m s = (err, s') ->
    pools s' = ps' /\ containers s' = containers s /\ cleanups s' = cleanups s /\
    exists done, log s' = log s ++ done /\ outcome_of err plan done.

Lemma carried_out_app p1 p2 d1 d2 :
  carried_out p1 d1 -> carried_out p2 d2 -> carried_out (p1 ++ p2) (d1 ++ d2).
Proof. intros [H1 S1] [H2 S2]. split; [by apply Forall2_app|by apply Forall_app]. Qed.

Lemma stopped_app_l p1 p2 d : stopped p1 d -> stopped (p1 ++ p2) d.
Proof.
  intros (q1 & q2 & -> & [[Hc Hn]|Hf]).
  - exists q1, (q2 ++ p2). rewrite (assoc_L (++)). split; [done|]. left. split; [done|]. by destruct q2.
  - exists q1, (q2 ++ p2). rewrite (assoc_L (++)). split; [done|]. by right.
Qed.

Lemma stopped_app_r p1 p2 d1 d2 : carried_out p1 d1 -> stopped p2 d2 -> stopped (p1 ++ p2) (d1 ++ d2).
Proof.
  intros Hc (q1 & q2 & -> & H). exists (p1 ++ q1), q2. rewrite (assoc_L (++)). split; [done|].
  destruct H as [[Hq Hn]|(d' & st & -> & Hs & Hd & He)]; [left; split; [by apply carried_out_app|done]|].
  right. destruct Hc as [H1 S1]. exists (d1 ++ d'), st. rewrite (assoc_L (++)). split; [done|].
  rewrite <- (assoc_L (++)). split; [by apply Forall2_app|]. split; [by apply Forall_app|done].
Qed.

Lemma stopped_at_once plan : plan <> [] -> stopped plan [].
Proof. intros H. exists [], plan. split; [done|]. left. by repeat constructor. Qed.

Lemma performs_ret ps : performs ps ps (mret None) [].
Proof. intros s err s' Hs [= <- <-]. do 3 (split; [done|]). exists []. rewrite app_nil_r. by repeat constructor. Qed.

Lemma performs_refuse ps err plan : plan <> [] -> performs ps ps (mret (Some err)) plan.
Proof.
  intros Hn s e s' Hs [= <- <-]. do 3 (split; [done|]). exists []. rewrite app_nil_r. split; [done|].
  by apply stopped_at_once.
Qed.

Lemma performs_Exec ps p conn sql args :
  ps !! p = Some conn -> performs ps ps (Exec p sql args) [Some (conn, sql, args)].
Proof.
  intros Hp s err s' Hs [= <- <-]. cbn [pools containers cleanups log]. do 3 (split; [done|]).
  eexists. split; [done|]. rewrite Hs, Hp. unfold outcome_of.
  assert (Forall2 sent [Some (conn, sql, args)] [Stmt (Some conn) sql args (exec_err s conn sql args)]) as H2
    by (constructor; [by exists conn|constructor]).
  destruct (exec_err s conn sql args) as [err|] eqn:E; [|split; [done|by constructor]].
  exists [Some (conn, sql, args)], []. split; [done|]. right. by exists [], (Stmt (Some conn) sql args (Some err)).
Qed.

(** The state after [m] succeeded, and then [k]. *)
Lemma performs_then ps ps' (m k : M (option error)) s s1 err s' p1 p2 :
  performs ps ps m p1 -> performs ps ps' k p2 -> pools s = ps -> m s = (None, s1) -> k s1 = (err, s') ->
  pools s' = ps' /\ containers s' = containers s /\ cleanups s' = cleanups s /\
  exists done, log s' = log s ++ done /\ outcome_of err (p1 ++ p2) done.
Proof.
  intros Hm Hk Hs E1 E2. destruct (Hm _ _ _ Hs E1) as (Hp1 & Hc1 & Hu1 & d1 & Hl1 & H1).
  destruct (Hk _ _ _ Hp1 E2) as (Hp2 & Hc2 & Hu2 & d2 & Hl2 & H2).
  split; [done|]. split; [congruence|]. split; [congruence|]. exists (d1 ++ d2).
  split; [by rewrite Hl2, Hl1, (assoc_L (++))|].
  destruct err; [by apply stopped_app_r|by apply carried_out_app].
Qed.

Lemma performs_or_return ps m wrap k p1 p2 :
  performs ps ps m p1 -> performs ps ps k p2 -> performs ps ps (or_return m wrap k) (p1 ++ p2).
Proof.
  intros Hm Hk s err s' Hs H. unfold or_return, mbind, M_bind in H.
  destruct (m s) as [[e|] s1] eqn:E; [|by eapply performs_then].
  injection H as <- <-. destruct (Hm _ _ _ Hs E) as (Hp & Hc & Hu & d & Hl & H1).
  do 3 (split; [done|]). exists d. split; [done|]. by apply stopped_app_l.
Qed.

Lemma performs_or_close ps p conn m wrap k p1 p2 :
  ps !! p = None ->
  performs (<[p := conn]> ps) (<[p := conn]> ps) m p1 -> performs (<[p := conn]> ps) ps k p2 ->
  performs (<[p := conn]> ps) ps (or_close p m wrap k) (p1 ++ p2).
Proof.
  intros Hp Hm Hk s err s' Hs H. unfold or_close, mbind, M_bind in H.
  destruct (m s) as [[e|] s1] eqn:E; [|by eapply performs_then].
  injection H as <- <-. destruct (Hm _ _ _ Hs E) as (Hp1 & Hc & Hu & d & Hl & H1).
  cbn [pools containers cleanups log]. split; [by rewrite Hp1, delete_insert_id|].
  do 2 (split; [done|]). exists d. split; [done|]. by apply stopped_app_l.
Qed.

Lemma performs_Close ps p conn :
  ps !! p = None -> performs (<[p := conn]> ps) ps (_ ← Close p; mret None) [].
Proof.
  intros Hp s err s' Hs [= <- <-]. cbn [pools containers cleanups log].
  split; [by rewrite Hs, delete_insert_id|]. do 2 (split; [done|]). exists [].
  rewrite app_nil_r. by repeat constructor.
Qed.

(** A pool of one's own. *)
Lemma performs_New ps conn k plan :
  plan <> [] ->
  (forall p, ps !! p = None -> performs (<[p := conn]> ps) ps (k p) plan) ->
  performs ps ps (pool ← New conn; match pool with inl err => mret (Some err) | inr p => k p end) plan.
Proof.
  intros Hn Hk s err s' Hs H. unfold mbind, M_bind, New in H.
  destruct (new_err s conn) as [e|]; [by apply (performs_refuse ps e plan Hn)|].
  assert (pools s !! fresh (dom (pools s)) = None) as Hf by (apply not_elem_of_dom, is_fresh).
  rewrite Hs in *. by apply (Hk _ Hf) in H.
Qed.

(** [defer pool.Close()] *)
Lemma performs_defer ps p conn m plan :
  ps !! p = None -> performs (<[p := conn]> ps) (<[p := conn]> ps) m plan ->
  performs (<[p := conn]> ps) ps (err ← m; _ ← Close p; mret err) plan.
Proof.
  intros Hp Hm s err s' Hs H. unfold mbind, M_bind in H. destruct (m s) as [e s1] eqn:E.
  injection H as <- <-. destruct (Hm _ _ _ Hs E) as (Hp1 & Hc & Hu & H1).
  cbn [pools containers cleanups log]. split; [by rewrite Hp1, delete_insert_id|done].
Qed.

Lemma performs_for_each {T} ps (l : list T) body plan :
  (forall x, performs ps ps (body x) (plan x)) -> performs ps ps (for_each l body) (l ≫= plan).
Proof. intros H. induction l as [|x l IH]; [apply performs_ret|]. by apply performs_or_return. Qed.

(** ** The setup *)

Variable credentials : TestDbCredentials.

Ltac one_statement := first [by apply performs_Exec | by apply performs_Exec, lookup_insert_eq].

Lemma performs_database ps pool db :
  ps !! pool = Some (main_conn credentials) ->
  performs ps ps (setup_database pool db) (database_plan credentials db).
Proof.
  intros Hp. apply (performs_or_return _ _ _ _ [_] [_]); [one_statement|].
  apply (performs_or_return _ _ _ _ [_] []); [one_statement|apply performs_ret].
Qed.

Lemma performs_schema ps schema : performs ps ps (setup_schema credentials schema) (schema_plan credentials schema).
Proof.
  apply performs_New; [done|]. intros p Hp.
  apply (performs_or_close _ _ _ _ _ _ [_] []); [done|one_statement|by apply performs_Close].
Qed.

Lemma performs_extension ps e : performs ps ps (setup_extension credentials e) (extension_plan credentials e).
Proof.
  apply performs_New; [done|]. intros p Hp.
  apply (performs_or_close _ _ _ _ _ _ [_] []); [done|one_statement|by apply performs_Close].
Qed.

Lemma performs_role ps pool role :
  ps !! pool = Some (main_conn credentials) ->
  performs ps ps (setup_role credentials pool role) (role_plan credentials role).
Proof.
  intros Hp. do 3 (apply (performs_or_return _ _ _ _ [_] _); [one_statement|]).
  apply performs_New; [done|]. intros p Hn.
  apply (performs_or_close _ _ _ _ _ _ [_] []); [done|one_statement|by apply performs_Close].
Qed.

Lemma performs_table ps table : performs ps ps (setup_table credentials table) (table_plan credentials table).
Proof.
  unfold setup_table, table_plan. destruct (ExtraTable_Role table) as [role|]; [|by apply performs_refuse].
  apply performs_New; [by destruct (decide _)|]. intros p Hp. case_decide.
  - apply (performs_or_close _ _ _ _ _ _ [_] []); [done|one_statement|by apply performs_Close].
  - apply (performs_or_close _ _ _ _ _ _ [_] [_]); [done|one_statement|].
    apply (performs_or_close _ _ _ _ _ _ [_] []); [done|one_statement|by apply performs_Close].
Qed.

Lemma performs_setup ps cfg :
  performs ps ps (applySetupConfiguration credentials cfg) (setup_plan credentials cfg).
Proof.
  apply performs_New; [done|]. intros p Hp. apply performs_defer; [done|].
  assert (<[p := main_conn credentials]> ps !! p = Some (main_conn credentials)) as Hmain by apply lookup_insert_eq.
  unfold setup_plan, config_plan. cbn [fmap list_fmap app].
  do 6 (apply (performs_or_return _ _ _ _ [_] _); [one_statement|]).
  apply performs_or_return; [apply performs_for_each; intros; by apply performs_database|].
  apply performs_or_return; [apply performs_for_each, performs_schema|].
  apply performs_or_return; [apply performs_for_each, performs_extension|].
  apply performs_or_return; [apply performs_for_each; intros; by apply performs_role|].
  apply performs_for_each, performs_table.
Qed.

(** C25: a server is set up as planned: when applySetupConfiguration returns nil, the
    statements of every option have been sent, in this order, to their databases and as
    their users, and none failed; when it returns an error it has stopped at the first
    statement that failed, at a connection that could not be made, or at a table
    without a role, with everything planned before it done.  Whatever happens, it
    leaves no pool open. *)
Theorem applySetupConfiguration_spec cfg s err s' :
  applySetupConfiguration credentials cfg s = (err, s') ->
  pools s' = pools s /\
  exists done, log s' = log s ++ done /\
    match err with
    | None => carried_out (setup_plan credentials cfg) done
    | Some _ => stopped (setup_plan credentials cfg) done
    end.
Proof. intros H. by destruct (performs_setup _ cfg s err s' eq_refl H) as (? & _ & _ & ?). Qed.
End proofs.

(** ** The module's root *)
Section root.
Context `{F : FileSystem}.

Lemma findModuleRoot_loop_total fuel dir : 2 + length dir <= fuel -> is_Some (findModuleRoot_loop fuel dir).
Proof.
  revert dir. induction fuel as [|fuel IH]; intros dir Hf; [lia|]. simpl.
  destruct (has_go_mod dir); [by eexists|]. case_decide as Hd; [by eexists|].
  destruct (Dir_stops dir) as [|[->|Hl]]; [done| |apply IH; lia].
  destruct fuel as [|fuel]; [lia|]. simpl. destruct (has_go_mod dot); [by eexists|].
  by eexists.
Qed.

Lemma findModuleRoot_total dir : is_Some (findModuleRoot dir).
Proof. by apply findModuleRoot_loop_total. Qed.

(** The directory [cs] has a go.mod. *)
Definition module_at (cs : list bytes) : Prop := os_Stat (b2s (abs (cs ++ [s2b "go.mod"]))) = None.

Lemma has_go_mod_abs cs : Forall proper cs -> has_go_mod (abs cs) = true <-> module_at cs.
Proof.
  intros HF. unfold has_go_mod, module_at. rewrite Join_abs; [|done|].
  - by case_match.
  - split; [done|]. split; [done|]. split; [done|]. rewrite <- (bool_decide_eq_true _). vm_compute. done.
Qed.

Lemma prefix_snoc_inv {A} (l l' : list A) x :
  l `prefix_of` l' ++ [x] -> l `prefix_of` l' \/ l = l' ++ [x].
Proof.
  intros [k Hk]. destruct k as [|y k _] using rev_ind; [right; by rewrite app_nil_r in Hk|].
  left. exists k. rewrite (assoc_L (++)) in Hk. by apply app_inj_tail in Hk as [-> _].
Qed.

(** The root of [cs], or the empty path without one. *)
Definition root_of (cs : list bytes) (r : bytes) : Prop :=
  (exists up, up `prefix_of` cs /\ r = abs up /\ module_at up /\
     forall up', up' `prefix_of` cs -> module_at up' -> up' `prefix_of` up) \/
  (r = [] /\ forall up, up `prefix_of` cs -> ~ module_at up).

Lemma findModuleRoot_loop_root fuel cs r :
  Forall proper cs -> findModuleRoot_loop fuel (abs cs) = Some r -> root_of cs r.
Proof.
  intros HF. revert cs HF. induction fuel as [|fuel IH]; intros cs HF H; [done|]. simpl in H.
  pose proof (has_go_mod_abs cs HF) as Hm. destruct (has_go_mod (abs cs)).
  { injection H as <-. left. exists cs. split; [done|]. split; [done|]. split; [by apply Hm|done]. }
  assert (~ module_at cs) as Hn by (intros ?%Hm; done). clear Hm.
  destruct cs as [|e cs _] using rev_ind.
  - rewrite decide_True in H by done. injection H as <-. right. split; [done|].
    intros up Hup. by apply prefix_nil_inv in Hup as ->.
  - apply Forall_app in HF as [HF He]. apply Forall_cons in He as [He _]. rewrite (Dir_abs cs e HF He) in H.
    rewrite decide_False in H.
    + apply IH in H; [|done]. destruct H as [(up & Hup & -> & Hm & Hmax)|[-> Hnone]].
      * left. exists up. split; [by apply prefix_app_r|]. split; [done|]. split; [done|].
        intros up' Hup'. apply prefix_snoc_inv in Hup' as [Hup'| ->]; [by apply Hmax|tauto].
      * right. split; [done|]. intros up Hup. apply prefix_snoc_inv in Hup as [Hup| ->]; [by apply Hnone|tauto].
    + intros Heq. apply (f_equal length) in Heq. destruct He as [He _]. unfold abs in Heq.
      destruct (decide (cs = [])) as [->|Hc]; [by destruct e|]. rewrite join_snoc in Heq by done.
      simpl in Heq. rewrite length_app in Heq. simpl in Heq. lia.
Qed.

(** C27: the search for the module's root always ends, from any directory, and from an
    absolute path it finds the nearest directory above with a go.mod, that path's own
    included, or says that there is none. *)
Theorem findModuleRoot_nearest :
  (forall dir, is_Some (findModuleRoot dir)) /\
  forall cs, Forall proper cs -> exists r, findModuleRoot (abs cs) = Some r /\ root_of cs r.
Proof.
  split; [apply findModuleRoot_total|]. intros cs HF. destruct (findModuleRoot_total (abs cs)) as [r Hr].
  exists r. split; [done|]. by eapply findModuleRoot_loop_root.
Qed.
End root.

(** ** The end of a test *)
Section test.
Context `{O : Outside} `{F : FileSystem}.
Variable wd : string.

(** What is open will be closed; [shared] are the containers of other tests. *)
Definition accounted (shared : gset nat) (s : state) : Prop :=
  (forall p, is_Some (pools s !! p) -> ClosePool p ∈ cleanups s) /\
  (forall c, c ∈ containers s -> c ∈ shared \/ TerminateContainer (Some c) ∈ cleanups s).

(** A helper that keeps the accounts, whatever it returns. *)
Definition keeps {A} (shared : gset nat) (m : M A) : Prop :=
  forall s, accounted shared s -> accounted shared (m s).2.

Lemma keeps_bind {A B} shared (m : M A) (f : A -> M B) :
  keeps shared m -> (forall a, keeps shared (f a)) -> keeps shared (m ≫= f).
Proof.
  intros Hm Hf s Hs. unfold mbind, M_bind. specialize (Hm s Hs). destruct (m s) as [a s1]. by apply Hf.
Qed.

Lemma keeps_ret {A} shared (a : A) : keeps shared (mret a).
Proof. by intros s. Qed.

Lemma keeps_setup shared creds cfg : keeps shared (applySetupConfiguration creds cfg).
Proof.
  intros s [Hp Hc]. destruct (applySetupConfiguration creds cfg s) as [err s'] eqn:E.
  destruct (performs_setup creds _ cfg s err s' eq_refl E) as (Hp' & Hc' & Hu & _).
  unfold accounted. simpl. by rewrite Hp', Hc', Hu.
Qed.

(** Opening a pool and registering its Close. *)
Lemma keeps_connect shared conn wrap :
  keeps shared (pool ← New conn;
    match pool with
    | inl err => mret (inl (wrap err) : res nat)
    | inr pool => _ ← Cleanup (ClosePool pool); mret (inr pool)
    end).
Proof.
  intros s [Hp Hc]. unfold mbind, M_bind, New. destruct (new_err s conn); [done|]. split; simpl.
  - intros p Hsome. destruct (decide (p = fresh (dom (pools s)))) as [->|Hne]; [apply list_elem_of_here|].
    rewrite lookup_insert_ne in Hsome by done. by apply list_elem_of_further, Hp.
  - intros c Hin. destruct (Hc c Hin); [by left|]. right. by apply list_elem_of_further.
Qed.

(** Starting a container and registering its end. *)
Lemma keeps_run shared script :
  keeps shared (run ← run_container script;
    _ ← Cleanup (TerminateContainer (match run with inl (c, _) => c | inr c => Some c end)); mret run).
Proof.
  intros s [Hp Hc]. unfold mbind, M_bind, run_container.
  assert (forall k, accounted shared (State (pools s) (log s) (containers s) (TerminateContainer k :: cleanups s))) as Hk.
  { intros k. split; simpl; intros; [by apply list_elem_of_further, Hp|].
    destruct (Hc _ H); [by left|right; by apply list_elem_of_further]. }
  assert (forall c, accounted shared (State (pools s) (log s) ({[c]} ∪ containers s)
    (TerminateContainer (Some c) :: cleanups s))) as Hrun.
  { intros c. split; [apply (Hk (Some c))|]. simpl. intros d [->%elem_of_singleton|Hd]%elem_of_union.
    - right. apply list_elem_of_here.
    - by apply (Hk (Some c)). }
  destruct (postgres_Run s script) as [|[] err]; [apply Hrun|apply Hrun|apply Hk].
Qed.

Lemma keeps_StartPostgres shared opts : keeps shared (StartPostgres wd opts).
Proof.
  intros s Hs. pose proof (keeps_run shared (init_script wd) s Hs) as Hr. unfold StartPostgres.
  unfold mbind, M_bind in *. destruct (run_container (init_script wd) s) as [[[c err]|c] s1]; [done|].
  simpl in *. destruct (Host c) as [err|h]; [done|]. destruct (MappedPort c) as [err|p]; [done|].
  pose proof (keeps_setup shared (MkTestDbCredentials None "postgres" "postgres" h p) (configure opts) _ Hr) as Hset.
  by destruct (applySetupConfiguration _ _ _) as [[err|] s2].
Qed.

(** What a test calls, in order, until one of the calls ends it. *)
Inductive helper :=
| HStartPostgres (opts : list SetupOption)
| HConnectToDatabase (credentials : TestDbCredentials) (dbName : string)
| HConnectAsPgmonitor (credentials : TestDbCredentials) (dbName : string).

Definition run_helper (h : helper) : M bool :=
  match h with
  | HStartPostgres opts => r ← StartPostgres wd opts; mret (is_ok r)
  | HConnectToDatabase credentials dbName => r ← ConnectToDatabase credentials dbName; mret (is_ok r)
  | HConnectAsPgmonitor credentials dbName => r ← ConnectAsPgmonitor credentials dbName; mret (is_ok r)
  end.

Fixpoint run_helpers (hs : list helper) : M unit :=
  match hs with
  | [] => mret tt
  | h :: hs => ok ← run_helper h; if ok : bool then run_helpers hs else mret tt
  end.

Definition run_test (hs : list helper) : M unit := _ ← run_helpers hs; finish.

Lemma keeps_helpers shared hs : keeps shared (run_helpers hs).
Proof.
  induction hs as [|h hs IH]; [apply keeps_ret|]. apply keeps_bind; [|intros []; [done|apply keeps_ret]].
  destruct h; (apply keeps_bind; [|intros; apply keeps_ret]);
    [apply keeps_StartPostgres|apply keeps_connect|apply keeps_connect].
Qed.

(** What is left after one cleanup, and after all. *)
Definition left_after (l : list cleanup) (s s' : state) : Prop :=
  (forall p, is_Some (pools s' !! p) -> is_Some (pools s !! p) /\ (ClosePool p ∉ l)) /\
  (forall c, c ∈ containers s' -> c ∈ containers s /\
     (TerminateContainer (Some c) ∈ l -> terminate_err c <> None)).

Lemma run_cleanup_left k s : left_after [k] s (run_cleanup k s).2.
Proof.
  destruct k as [[c|]|p]; unfold run_cleanup, terminate, mbind, M_bind.
  - destruct (terminate_err c) as [err|] eqn:E; split; simpl; intros d Hd.
    + split; [done|]. by intros ?%list_elem_of_singleton.
    + split; [done|]. intros Hin. apply list_elem_of_singleton in Hin. simplify_eq. by rewrite E.
    + split; [done|]. by intros ?%list_elem_of_singleton.
    + apply elem_of_difference in Hd as [Hd Hn]. split; [done|]. intros Hin.
      apply list_elem_of_singleton in Hin. simplify_eq. by destruct Hn; apply elem_of_singleton.
  - split; simpl; intros d Hd; (split; [done|]); by intros ?%list_elem_of_singleton.
  - split; simpl; intros d Hd.
    + apply lookup_delete_is_Some in Hd as [Hne Hd]. split; [done|]. intros Hin.
      apply list_elem_of_singleton in Hin. by simplify_eq.
    + split; [done|]. by intros ?%list_elem_of_singleton.
Qed.

Lemma cleanups_left l s : left_after l s (foldl (fun '(_, s) c => run_cleanup c s) (tt, s) l).2.
Proof.
  revert s. induction l as [|k l IH]; intros s; cbn [foldl].
  { split; intros x Hx; (split; [done|]); by intros ?%elem_of_nil. }
  pose proof (run_cleanup_left k s) as [H1 H2]. destruct (run_cleanup k s) as [[] s1].
  destruct (IH s1) as [IH1 IH2]. split; intros x Hx.
  - destruct (IH1 x Hx) as [Hx1 Hn]. destruct (H1 x Hx1) as [Hx0 Hn1]. split; [done|].
    intros [H|H]%elem_of_cons; [|done]. apply Hn1. rewrite H. apply list_elem_of_here.
  - destruct (IH2 x Hx) as [Hx1 Hn]. destruct (H2 x Hx1) as [Hx0 Hn1]. split; [done|].
    intros [H|H]%elem_of_cons; [|by apply Hn]. apply Hn1. rewrite H. apply list_elem_of_here.
Qed.

(** C26: a test gives back what it took: whatever servers it starts and databases it connects
    to, and whichever of these calls ends it, after its cleanups no pool is open, and a
    container that still runs was there before or could not be terminated. *)
Theorem test_gives_back shared hs :
  let s := (run_test hs (State ∅ [] shared [])).2 in
  pools s = ∅ /\ forall c, c ∈ containers s -> c ∈ shared \/ terminate_err c <> None.
Proof.
  cbn zeta. unfold run_test, mbind, M_bind, finish.
  assert (accounted shared (State ∅ [] shared [])) as H0.
  { split; simpl; [|by left]. intros p Hp. rewrite lookup_empty in Hp. by destruct Hp. }
  pose proof (keeps_helpers shared hs _ H0) as [Hp Hc]. destruct (run_helpers hs _) as [[] s]. simpl in Hp, Hc.
  destruct (cleanups_left (cleanups s) (State (pools s) (log s) (containers s) [])) as [H1 H2]. split.
  - apply map_eq. intros p. rewrite lookup_empty. apply eq_None_not_Some. intros Hs.
    destruct (H1 p Hs) as [Hps Hn]. by apply Hn, Hp.
  - intros c Hin. destruct (H2 c Hin) as [Hcs Hn]. destruct (Hc c Hcs) as [|Hk]; [by left|right; by apply Hn].
Qed.

(** Once the container of StartSharedPostgres runs, it goes on running, also when the
    function returns an error and no credentials to terminate it with. *)
Lemma StartSharedPostgres_leaves_container opts s :
  postgres_Run s (init_script wd) = RunOk ->
  let '(r, s') := StartSharedPostgres wd opts s in
  fresh (containers s) ∈ containers s' /\
  match r with inl _ => True | inr credentials => container credentials = Some (fresh (containers s)) end.
Proof.
  intros Hr. unfold StartSharedPostgres, run_container, mbind, M_bind. rewrite Hr.
  assert (fresh (containers s) ∈ ({[fresh (containers s)]} : gset nat) ∪ containers s) as Hin by set_solver.
  destruct (Host _) as [err|h]; [by split|]. destruct (MappedPort _) as [err|p]; [by split|].
  destruct (applySetupConfiguration _ _ _) as [err s'] eqn:E.
  destruct (performs_setup _ _ _ _ _ _ eq_refl E) as (_ & Hc & _). simpl in Hc.
  destruct err; (split; [by rewrite Hc|done]).
Qed.
End test.

(** ** Witnesses *)

(** A server that refuses to create the database named taken. *)
Definition ex_outside : Outside := {|
  new_err := fun _ _ => None;
  exec_err := fun _ _ sql _ =>
    if decide (sql = "CREATE DATABASE taken") then Some (ErrExt "already exists") else None;
  Sanitize := id;
  postgres_Run := fun _ _ => RunOk;
  Host := fun _ => inr "localhost";
  MappedPort := fun _ => inr "32768/tcp";
  Port := fun _ => "32768";
  terminate_err := fun _ => None |}.

Definition ex_credentials : TestDbCredentials := MkTestDbCredentials (Some 0) "postgres" "postgres" "localhost" "32768/tcp".

Definition ex_setup (opts : list SetupOption) : option error * state :=
  @applySetupConfiguration ex_outside ex_credentials (configure opts) (State ∅ [] {[0]} []).

Lemma applySetupConfiguration_spec_witness :
  length (log (ex_setup [WithExtraDatabases ["app"]; WithExtraSchemas [MkExtraSchema "s" "app"]]).2) = 9 /\
  (ex_setup [WithExtraDatabases ["taken"]; WithExtraSchemas [MkExtraSchema "s" "app"]]).1 =
    Some (Errorf "failed to create database %s: %w" [AStr "taken"; AErr (ErrExt "already exists")]) /\
  exists done, stopped (@setup_plan ex_outside ex_credentials (configure
      [WithExtraDatabases ["taken"]; WithExtraSchemas [MkExtraSchema "s" "app"]])) done /\ length done = 7.
Proof.
  split; [vm_compute; reflexivity|]. split; [vm_compute; reflexivity|].
  destruct (ex_setup [WithExtraDatabases ["taken"]; WithExtraSchemas [MkExtraSchema "s" "app"]]) as [err s'] eqn:E.
  destruct (@applySetupConfiguration_spec ex_outside ex_credentials _ _ _ _ E) as (_ & done & Hl & Hd).
  vm_compute in E. injection E as <- <-. exists done. split; [exact Hd|].
  simpl in Hl. by rewrite <- Hl.
Defined.

(** The module is two directories up. *)
Definition ex_module : FileSystem := {|
  os_Stat := fun path => if decide (path = "/src/app/go.mod") then None else Some (ErrExt "no such file");
  os_IsNotExist := fun _ => true |}.

Lemma findModuleRoot_nearest_witness :
  @findModuleRoot ex_module (s2b "/src/app/internal/store") = Some (s2b "/src/app") /\
  @root_of ex_module [s2b "src"; s2b "app"; s2b "internal"; s2b "store"] (s2b "/src/app").
Proof.
  split; [vm_compute; reflexivity|].
  destruct (proj2 (@findModuleRoot_nearest ex_module) [s2b "src"; s2b "app"; s2b "internal"; s2b "store"]) as (r & Hr & H).
  { repeat constructor; try done; intros H; repeat (apply elem_of_cons in H as [H|H]; [done|]); by apply elem_of_nil in H. }
  vm_compute in Hr. injection Hr as <-. exact H.
Defined.

(** A test with a server and a connection of its own, beside a shared server. *)
Definition ex_test : list helper :=
  [HStartPostgres [WithExtraDatabases ["app"]]; HConnectToDatabase ex_credentials "app"].

Lemma test_gives_back_witness :
  (let s := (@run_helpers ex_outside ex_module "/src/app/internal" ex_test (State ∅ [] {[0]} [])).2 in
   size (pools s) = 1 /\ size (containers s) = 2) /\
  (let s := (@run_test ex_outside ex_module "/src/app/internal" ex_test (State ∅ [] {[0]} [])).2 in
   pools s = ∅ /\ forall c, c ∈ containers s -> c = 0).
Proof.
  split; [vm_compute; split; reflexivity|].
  destruct (@test_gives_back ex_outside ex_module "/src/app/internal" {[0]} ex_test) as [H1 H2].
  split; [exact H1|]. intros c Hc. destruct (H2 c Hc) as [H|H].
  - exact (proj1 (elem_of_singleton c 0) H).
  - destruct (H eq_refl).
Defined.
