(* ===== verification/Bufconn.v ===== *)
(** * The in-memory server of the tests (internal/testutil/grpc.go)

    DialBufconn as a process: where the goroutine of the test is, where the goroutine
    that serves is, and the requests (the process of System.v).  grpc and bufconn are
    not part of the repository: what DialBufconn relies on is that NewClient may fail,
    that a call waits until Serve takes its connection, that Serve gives
    ErrServerStopped at once after Stop and otherwise returns nil after it, and that
    Stop does not wait for handlers. *)

From S2P Require Import Prelude GoStrings Types JsonDecode Runtime Logic Coordinator FanOut System Exec Scan Store StoreSpec Server Service Example ServiceProps Main.

(** grpc.ErrServerStopped *)
Definition ErrServerStopped : error := ErrExt "grpc: the server has been stopped".

(** Where the test is. *)
Inductive test_pc :=
| TDial                       (** before grpc.NewClient, the server's goroutine started *)
| TFatal (err : error)        (** t.Fatalf: the test ends without the cleanup *)
| TBody                       (** DialBufconn has returned *)
| TClose                      (** the cleanup, at conn.Close *)
| TStop                       (** the cleanup, at s.Stop *)
| TDone.                      (** the cleanup has run *)

(** Where the goroutine that serves is. *)
Inductive serve_pc :=
| GStart                      (** before s.Serve *)
| GServe                      (** in it *)
| GReturned                   (** it has returned nil *)
| GPanic (err : error).       (** panic(err): the end of the process *)

Section bufconn.
Context `{S : Scanner} `{U : UnicodeLower} `{E : JsonErrors}.
Variable srv : Server.
Variable dsn : string.
(** What grpc.NewClient gives for the fixed target. *)
Variable NewClient : option error.

#[local] Instance bufconn_cfg : ConnCfg := cfg srv dsn.
#[local] Instance bufconn_service : Service := service srv dsn.

Record bufconn := Bufconn {
  b_test : test_pc;
  b_serve : serve_pc;
  b_conn : bool;             (** the client's connection is open *)
  b_stopped : bool;          (** Stop has been called *)
  b_sys : sys
}.

(** No goroutine of the process has panicked. *)
Definition alive (g : serve_pc) (x : sys) : Prop :=
  (forall err, g <> GPanic err) /\ Forall (fun q => ~ panicked srv dsn q) (s_reqs x).

Definition DialBufconn : bufconn := Bufconn TDial GStart false false sys_init.

Inductive dial_step : bufconn -> bufconn -> Prop :=
| b_client g c s x :
    alive g x -> NewClient = None ->
    dial_step (Bufconn TDial g c s x) (Bufconn TBody g true s x)
| b_fatal g c s x err :
    alive g x -> NewClient = Some err ->
    dial_step (Bufconn TDial g c s x) (Bufconn (TFatal (Errorf "failed to dial bufconn: %v" [AErr err])) g c s x)
| b_enter t c x :
    alive GStart x -> dial_step (Bufconn t GStart c false x) (Bufconn t GServe c false x)
| b_refused t c x :
    alive GStart x -> dial_step (Bufconn t GStart c true x) (Bufconn t (GPanic ErrServerStopped) c true x)
| b_return t c x :
    alive GServe x -> dial_step (Bufconn t GServe c true x) (Bufconn t GReturned c true x)
| b_call x x' :
    alive GServe x -> sys_arrive x x' ->
    dial_step (Bufconn TBody GServe true false x) (Bufconn TBody GServe true false x')
| b_run t g c s x x' :
    alive g x -> sys_step x x' -> dial_step (Bufconn t g c s x) (Bufconn t g c s x')
| b_finish g c s x :
    alive g x -> dial_step (Bufconn TBody g c s x) (Bufconn TClose g c s x)
| b_close g c s x :
    alive g x -> dial_step (Bufconn TClose g c s x) (Bufconn TStop g false s x)
| b_stop g c s x :
    alive g x -> dial_step (Bufconn TStop g c s x) (Bufconn TDone g c true x).

Definition dialed (b : bufconn) : Prop := rtc dial_step DialBufconn b.

(** The control state of a test at any time. *)
Record control (t : test_pc) (g : serve_pc) (c s : bool) : Prop := {
  ct_panic err : g = GPanic err -> err = ErrServerStopped /\ t = TDone;
  ct_stopped : s = true <-> t = TDone;
  ct_conn : c = true -> t = TBody \/ t = TClose;
  ct_fatal err : t = TFatal err ->
    exists e, NewClient = Some e /\ err = Errorf "failed to dial bufconn: %v" [AErr e]
}.

Definition unserved (g : serve_pc) : Prop := match g with GStart | GPanic _ => True | _ => False end.

Definition dial_inv (b : bufconn) : Prop :=
  reachable (b_sys b) /\ control (b_test b) (b_serve b) (b_conn b) (b_stopped b) /\
  (unserved (b_serve b) -> s_reqs (b_sys b) = []).

Lemma sys_step_empty x x' : sys_step x x' -> s_reqs x <> [].
Proof. intros H. destruct H as [? ? []|]; simpl; intros ->; done. Qed.

Lemma control_step b b' :
  control (b_test b) (b_serve b) (b_conn b) (b_stopped b) -> dial_step b b' ->
  control (b_test b') (b_serve b') (b_conn b') (b_stopped b').
Proof.
  intros [Hp Ht Hc Hf] H. destruct H as [g c s x [Ha _] _|g c s x err [Ha _] Hn|t c x _|t c x _|t c x _|x x' _ _
    |t g c s x x' _ _|g c s x [Ha _]|g c s x [Ha _]|g c s x [Ha _]]; simpl in *; split; try done; try (intros e Hg; by destruct (Ha e Hg)); try (by intuition congruence).
  all: try (intros ? [= <-]; by exists err).
  all: try (intros e [= <-]; split; [done|by apply Ht]).
Qed.

Lemma dial_inv_step b b' : dial_inv b -> dial_step b b' -> dial_inv b'.
Proof.
  intros (Hr & Hc & Hu) Hs. split; [|split; [by eapply control_step|]].
  - destruct Hs; simpl in *; try done; [by eapply reach_arrive|by eapply reach_step].
  - destruct Hs; simpl in *; auto; intros Hg; [done|]. by destruct (sys_step_empty x x'); auto.
Qed.

Lemma dialed_inv b : dialed b -> dial_inv b.
Proof.
  intros H. unfold dialed in H. apply (rtc_ind_r (R := dial_step) dial_inv DialBufconn); [|intros; by eapply dial_inv_step|done].
  split; [apply reach_init|]. split; [|done]. by split.
Qed.

(** C28: the in-memory server of a test answers like the service: its requests are those
    of a reachable state.  The process can only be killed by the server's goroutine when
    the test has made no call at all, and its cleanup has stopped the server before
    Serve was entered; and after the cleanup the connection is closed and the server
    stopped.  Without a client the test fails with the error of NewClient. *)
Theorem DialBufconn_safe b :
  dialed b ->
  reachable (b_sys b) /\
  (forall err, b_serve b = GPanic err ->
     err = ErrServerStopped /\ b_test b = TDone /\ s_reqs (b_sys b) = []) /\
  (b_test b = TDone -> b_stopped b = true /\ b_conn b = false) /\
  (forall err, b_test b = TFatal err -> b_stopped b = false /\
     exists e, NewClient = Some e /\ err = Errorf "failed to dial bufconn: %v" [AErr e]).
Proof.
  intros H. destruct (dialed_inv _ H) as (Hr & [Hp Ht Hc Hf] & Hu). split; [done|]. split; [|split].
  - intros err Hg. destruct (Hp err Hg) as [-> HT]. split; [done|]. split; [done|]. apply Hu. by rewrite Hg.
  - intros HT. split; [by apply Ht|]. destruct (b_conn b); [|done]. destruct (Hc eq_refl); congruence.
  - intros err HT. split; [|by apply Hf]. destruct (b_stopped b); [|done]. by rewrite (proj1 Ht eq_refl) in HT.
Qed.

Lemma alive_init g : (forall err, g <> GPanic err) -> alive g sys_init.
Proof. intros H. split; [exact H|constructor]. Qed.

(** C37: a test that makes no call can be killed: its cleanup may stop the server before the
    goroutine has got to Serve. *)
Theorem DialBufconn_race :
  NewClient = None -> dialed (Bufconn TDone (GPanic ErrServerStopped) false true sys_init).
Proof.
  intros Hn. unfold dialed, DialBufconn. assert (alive GStart sys_init) as Ha by by apply alive_init.
  eapply rtc_l; [by apply b_client|]. eapply rtc_l; [by apply b_finish|].
  eapply rtc_l; [by apply b_close|]. eapply rtc_l; [by apply b_stop|].
  eapply rtc_l; [by apply b_refused|]. apply rtc_refl.
Qed.

(** If NewClient fails, nothing stops the server: it serves until the process ends. *)
Theorem DialBufconn_fatal_serves err b :
  NewClient = Some err -> dialed b ->
  match b_test b with TDial | TFatal _ => True | _ => False end /\ b_serve b <> GReturned.
Proof.
  intros Hn H. unfold dialed in H.
  apply (rtc_ind_r (R := dial_step) (fun b => (match b_test b with TDial | TFatal _ => True | _ => False end /\
    b_serve b <> GReturned) /\ b_stopped b = false) DialBufconn); [done| |done].
  intros b1 b2 _ Hs [[Ht Hg] Hst]. destruct Hs; simpl in *; try done. congruence.
Qed.
End bufconn.

(** ** Witnesses *)

Abbreviation ex_bufconn := (@bufconn _ (example_scanner false) example_unicode example_errors example_server "postgres://").
Abbreviation ex_dialed := (@dialed _ (example_scanner false) example_unicode example_errors example_server "postgres://").

(** A test that made one call and did not wait for it. *)
Definition ex_called : @sys (example_world false) ex_cfg (ex_service false) :=
  Sys (s_heap (@sys_init _ _ (ex_service false)))
    [@InFlight _ _ (ex_service false) MListSchemas None
       (start (@dispatch _ (example_scanner false) example_unicode example_errors example_server MListSchemas))].

Definition ex_test_done : ex_bufconn := Bufconn example_server "postgres://" TDone GReturned false true ex_called.

Lemma ex_test_dialed : ex_dialed None ex_test_done.
Proof.
  eapply rtc_l; [apply b_client; [by apply alive_init|done]|].
  eapply rtc_l; [apply b_enter, alive_init; done|].
  eapply rtc_l; [apply (b_call _ _ _ _ ex_called); [by apply alive_init|
    apply (@sa_arrive _ ex_cfg (ex_service false) _ [] MListSchemas)]|].
  assert (Forall (fun q => ~ panicked example_server "postgres://" q) (s_reqs ex_called)) as Hq by (constructor; [done|constructor]).
  assert (forall g, (forall err, g <> GPanic err) -> alive example_server "postgres://" g ex_called) as Ha
    by (intros g Hg; exact (conj Hg Hq)).
  eapply rtc_l; [apply b_finish, Ha; done|].
  eapply rtc_l; [apply b_close, Ha; done|].
  eapply rtc_l; [apply b_stop, Ha; done|].
  eapply rtc_l; [apply b_return, Ha; done|]. apply rtc_refl.
Qed.

Lemma DialBufconn_safe_witness :
  s_reqs ex_called <> [] /\ @reachable _ ex_cfg (ex_service false) ex_called /\
  b_conn _ _ ex_test_done = false.
Proof.
  split; [done|]. destruct (DialBufconn_safe example_server "postgres://" None ex_test_done ex_test_dialed)
    as (Hr & _ & Hd & _). split; [exact Hr|exact (proj2 (Hd eq_refl))].
Defined.

Lemma DialBufconn_race_witness :
  ex_dialed None (Bufconn example_server "postgres://" TDone (GPanic ErrServerStopped) false true sys_init).
Proof. exact (DialBufconn_race example_server "postgres://" None eq_refl). Defined.
